(* ===== verification/_CoqProject ===== *)
-Q . S2P
Prelude.v
Span.v
Str.v
Either.v
Allocator.v
ScratchMem.v
Lifetime.v
Containers.v
LinkedStack.v
StrBuild.v
CLib.v
DoubleText.v
Stream.v
Lexer.v
LexerSim.v
Syntax.v
Config.v
ConfigProps.v
ConfigList.v
ConfigNodes.v
ConfigHandles.v
Types.v
Call.v
MathFuncs.v
Program.v
Eval.v
Contract.v
TypeVault.v
TypeMem.v
Storage.v
Layout.v
SlangEnv.v
Typing.v
World.v
Creations.v
Database.v
Objects.v
Soundness.v
Json.v
JsonText.v
Stable.v
Endpoint.v
Sessions.v
Task.v
TaskArgs.v
TaskSafe.v
TaskStop.v
TaskLife.v
EventQueue.v
Fiber.v
Platform.v
Semaphore.v
Tcp.v
TcpServe.v
Log.v
Main.v
