(* ===== verification/Prelude.v ===== *)
(** Xynq, an in-memory object database with an S-expression language: a
    verification library of its C++ code under [src/source/].

    * The program

    A process reads its configuration ([main/main.cc], [config/]), starts one
    worker thread per core ([task/], [event/]) and a listening task per
    configured address ([net/]).  Each accepted connection is a task that reads
    requests from the socket through a buffered reader ([base/stream]) and
    answers them through a buffered writer ([main/endpoint]).  A request is one
    expression: the lexer ([slang/lexer]) calls the compiler
    ([slang/compiler]), the compiled stack program runs ([slang/program]), its
    calls reach the arithmetic functions ([slang/math_funcs.cc]) and the
    database functions ([main/slang_env.cc]), which work on the type registry
    ([types/type_vault]) and the storage ([storage/]); the values left on the
    stack are serialized as JSON ([json/json_serializer]).

    * The files

    One file per component; definitions have the names of the code, each with
    the lines it translates above it ("source/path:first-last [symbol]").

    - This file: bytes, machine integers, addresses, generic lemmas, tactics
      and hints.  [CLib]: the C library and ABI functions the code calls
      (strtoll, strtod, "%.24g", IEEE arithmetic over the standard library's
      [SpecFloat]).  [Either]: base/either.h (its
      combinators and the storage of its union) and base/maybe.h.  [Span]:
      base/span.h over a partial memory.  [Str]: containers/str over the same
      memory, with where an allocator puts a block and the sizes of the C++
      library's strings as parameters.
    - [StrBuild], [DoubleText] (base/str_build_types, base/str_builder.h): a
      builder is its array and its offset.  [Stream] (base/stream,
      base/file_stream): the classes [InStream]/[OutStream] are the virtual
      [DoRead]/[DoWrite], their [Laws] what every client relies on; files,
      dummies, chunked test streams and sockets are instances.  [StreamReader]/[StreamWriter] are records
      with the user buffer and the offsets of its window.
    - [Allocator] (base/arena.h, base/scratch_allocator), [ScratchMem] (the
      same arenas as objects in memory, with who frees them), [Containers]
      (containers/list.h, containers/MRSWRing.h), [LinkedStack]
      (containers/linked_stack.h), [Lifetime] (base/dep.h).
    - [Lexer]: one loop over a class [TermSource] of character sources, the
      code's stream cursor and a reference cursor over the whole text;
      [LexerSim] proves they run alike.  [Syntax]: the expressions, their
      printing, and lexing of the printed text.
    - [Types], [TypeVault] (types/): values, schemas, the shared schema list
      and the per-thread caches; [TypeMem]: the nodes and blocks of that list
      in memory, until the destructor frees them.  [Storage] (storage/): memory is a function
      from addresses to bytes, a vault the list of its objects with an index.
    - [Call], [Program] (slang/): the stack machine; [MathFuncs], [SlangEnv]
      its functions.  [Eval]: a recursive evaluator and its equivalence with
      compile-and-run.  [Typing]: static types of arithmetic expressions.
    - [Layout], [World], [Database], [Objects]: geometry of objects, the
      invariant of the database state ([world_ok]), and what the database
      functions do to it.  [Contract]: a class of what the functions ask and
      promise, with its theorem for programs; [Soundness] instantiates it with
      types of values, [Stable] with what settles the text of a value.
    - [Json], [JsonText]: the serializer and the meaning of its output.
    - [Config], [ConfigProps], [ConfigList] (config/, base/fileutils.cc): the
      parser as a lexer handler, loading, merging, lookup, listing.
      [ConfigNodes], [ConfigHandles]: the same values as nodes in memory, with
      who frees them: merging, list handles and their iterators.
    - [Endpoint] (main/endpoint*, main/execute_files.h), [Sessions] (the same
      loop, several connections taking turns at its suspension points), [Tcp],
      [TcpServe] (net/tcp), [Log] (base/log), [Main] (main/main.cc).
    - [Task], [TaskSafe], [TaskStop], [TaskLife] (task/, event/,
      base/hook.h): threads, tasks and queues as a step relation; its safety
      invariant; shutting down; start and destruction.  [TaskArgs]: what the
      bytes of a [TaskTuple] mean when the task function is called, where
      [Task] has function and arguments as one value.  [EventQueue]
      (event/epoll): the interface [Epoll] of [Task] by the system calls the
      queue makes.  [Fiber]
      (os/exec_context.h): the same threads on saved contexts.  [Platform]
      (os/utils.cc): signals and pinning.  [Semaphore]
      (task/task_semaphore), [Creations] (object creation by many threads over
      the locks of the vaults and the shared counter of storage/object_vault,
      where [Storage] has it as one step): the same style of model.

    * What the theorems show

    - A connection as a whole: [endpoint_answers_requests],
      [tcp_connection_answers_requests] and [exec_files_run_first_expression]
      refine the code to "evaluate each request in the state the earlier left
      and send its text", and say that there always is such a text; they rest
      on [lexer_stream_refines_text], [lex_printed_expression],
      [execute_is_eval] and [programs_cannot_go_wrong].
    - The connections of one worker thread: [sessions_are_serializable] and
      [sessions_always_finish] for every distribution of turns.
    - The database: its invariant, schemas laid out aligned and disjoint,
      objects created, written, found and printed, names resolved stably over
      all interleavings of vaults.
    - The language: types of arithmetic, the exact ranges in which sums,
      differences and products are right, errors without effects.
    - Text: round trips of numbers, strings and expressions; delivery of all
      output through the buffered writer; bounded string building.
    - Configuration: what files and arguments mean, what overrides what, that
      merged values outlive what they were copied from and lists are freed
      once, and what a process started with it logs, starts and does.
    - Resources and concurrency: scratch blocks never overlap and are freed
      once, the registry frees its nodes and schemas, the ring is a
      bounded queue, the lock-free stack is linearizable and makes progress,
      handles are freed exactly when no reference holds their lifetime, no task
      runs twice, and only the late write behind the registration of an event
      can touch a deleted one, the event queue keeps what the task system relies
      on, entry points
      get their arguments (and which ones do not), context switches carry the threads through exactly the states of
      the task system, waiting for signals returns after all of them, shutting down is a
      barrier and completes, the manager is freed after its threads, objects
      get distinct guids as long as no two types are created at once, sockets of failed listeners are closed.

    * Bounds and fuel

    Loops of the code that no argument bounds are [Fixpoint]s with fuel, and
    [None] is running out of it; [None] is also a failed assertion of the
    code, and an access to what is not there.  Every theorem about such a loop gives an
    amount that is enough for its input, or states termination ("exists n, for
    all fuel >= n"): the lexer makes one turn per character and per refill,
    the writer one per piece the stream takes, the machine one per
    instruction.  Streams that may answer "nothing now" for ever are excluded
    by the stream laws, whose measure every [DoRead]/[DoWrite] decreases.
    Integers are [Z] with their wrap-around written out; sizes and addresses
    are unbounded where the code would have to exhaust the address space.

    * Parameters

    The kernel (sockets, event polling and descriptors), saved contexts, the C library's clock, its [log10] and
    [pow], the memory allocator and the memory of new objects are parameters,
    with documented behaviour a proof relies on as class laws; each is
    instantiated in a witness.

    * Not modelled

    - json/json_deserializer: does not compile (a case without a label, a
      default without a statement, a constant nobody defines), works on the
      tokens of a third-party parser, and its only client refuses every payload
      ([json_payload_handler] is in [Program]).
    - containers/hash and containers/vec: names of containers of the C++
      library with the adapter of [ScratchMem].
    - The move assignment of a [Str] is the library's; arguments of tasks
      passed by reference are read before the task waits for the first time,
      from the tuple the function was called with.
    - The delivery of signals, console messages, what is inside a saved
      context, debug assertion printing (base/assert.h), scope guards
      (base/defer.h): operating system and compiler glue without a state of
      the program's own.
    - Weak memory: steps of threads are sequentially consistent.
    - Requests of different worker threads that execute at the same instant:
      the database has no lock around a request, and the races this allows are
      shown for the operations where they matter ([Creations]).  A session's
      turn lasts until its task waits for its connection. *)
From stdpp Require Export base gmap strings list option.
From Stdlib Require Export ZArith Ascii Lia.

(** * Bytes and characters

    A C++ [char *] range is a list of [ascii]; [lit] turns a string literal
    into one.  Comparisons on a [char] are those of the x86 ABI, where [char]
    is signed. *)

Abbreviation bytes := (list ascii).

Definition lit (s : string) : bytes := String.list_ascii_of_string s.

Declare Scope xynq_scope.
Delimit Scope xynq_scope with xynq.
Notation "c =c d" := (Ascii.eqb c d) (at level 70, no associativity) : xynq_scope.
Open Scope xynq_scope.

(** Value of a byte as [unsigned char] and as (signed) [char]. *)
Definition uchar (c : ascii) : Z := Z.of_N (N_of_ascii c).
Definition schar (c : ascii) : Z :=
  if (uchar c <? 128)%Z then uchar c else (uchar c - 256)%Z.

Definition char_of (z : Z) : ascii := ascii_of_N (Z.to_N (z mod 256)).

Definition c_nul : ascii := "000"%char.
Definition c_tab : ascii := "009"%char.
Definition c_lf : ascii := "010"%char.
Definition c_vt : ascii := "011"%char.
Definition c_ff : ascii := "012"%char.
Definition c_cr : ascii := "013"%char.
Definition c_bs : ascii := "008"%char.
Definition c_space : ascii := "032"%char.
Definition c_quote : ascii := "034"%char.
Definition c_backslash : ascii := "092"%char.

Definition is_digit (c : ascii) : bool :=
  ((48 <=? uchar c) && (uchar c <=? 57))%Z.

Definition digit_val (c : ascii) : Z := (uchar c - 48)%Z.

(** The character ['0' + d]. *)
Definition digit_char (d : Z) : ascii := char_of (48 + d).

Lemma uchar_bound (c : ascii) : (0 <= uchar c < 256)%Z.
Proof. unfold uchar. pose proof (N_ascii_bounded c). lia. Qed.

Lemma uchar_char_of (z : Z) : (0 <= z < 256)%Z -> uchar (char_of z) = z.
Proof.
  intros Hz. unfold uchar, char_of. rewrite Z.mod_small by lia.
  rewrite N_ascii_embedding by lia. lia.
Qed.

Lemma uchar_inj (c d : ascii) : uchar c = uchar d -> c = d.
Proof.
  unfold uchar. intros H. apply N2Z.inj in H.
  rewrite <- (ascii_N_embedding c), <- (ascii_N_embedding d). by rewrite H.
Qed.

Lemma is_digit_spec (c : ascii) : is_digit c = true <-> (48 <= uchar c <= 57)%Z.
Proof. unfold is_digit. rewrite andb_true_iff, !Z.leb_le. lia. Qed.

Lemma uchar_digit_char (d : Z) : (0 <= d < 10)%Z -> uchar (digit_char d) = (48 + d)%Z.
Proof. intros. unfold digit_char. apply uchar_char_of. lia. Qed.

Lemma is_digit_digit_char (d : Z) : (0 <= d < 10)%Z -> is_digit (digit_char d) = true.
Proof. intros. apply is_digit_spec. rewrite uchar_digit_char; lia. Qed.

Lemma digit_val_digit_char (d : Z) : (0 <= d < 10)%Z -> digit_val (digit_char d) = d.
Proof. intros. unfold digit_val. rewrite uchar_digit_char; lia. Qed.

(** * Machine integers *)

(** [w]-bit unsigned and two's complement wrap-around. *)
Definition wrap_u (w : Z) (z : Z) : Z := z mod 2 ^ w.
Definition wrap_s (w : Z) (z : Z) : Z :=
  (z + 2 ^ (w - 1)) mod 2 ^ w - 2 ^ (w - 1).

Definition in_u (w : Z) (z : Z) : Prop := (0 <= z < 2 ^ w)%Z.
Definition in_s (w : Z) (z : Z) : Prop := (- 2 ^ (w - 1) <= z < 2 ^ (w - 1))%Z.

Definition u64 : Z -> Z := wrap_u 64.
Definition i64 : Z -> Z := wrap_s 64.

Lemma pow2_pos (w : Z) : (0 <= w)%Z -> (0 < 2 ^ w)%Z.
Proof. intros. apply Z.pow_pos_nonneg; lia. Qed.

Lemma pow2_half (w : Z) : (0 < w)%Z -> (2 ^ w = 2 * 2 ^ (w - 1))%Z.
Proof. intros. rewrite <- Z.pow_succ_r by lia. f_equal. lia. Qed.

Lemma wrap_u_range (w z : Z) : (0 <= w)%Z -> in_u w (wrap_u w z).
Proof. intros. apply Z.mod_pos_bound. by apply pow2_pos. Qed.

Lemma wrap_s_range (w z : Z) : (0 < w)%Z -> in_s w (wrap_s w z).
Proof.
  intros. unfold in_s, wrap_s.
  pose proof (pow2_half w ltac:(lia)).
  pose proof (Z.mod_pos_bound (z + 2 ^ (w - 1)) (2 ^ w) (pow2_pos w ltac:(lia))). lia.
Qed.

Lemma wrap_u_id (w z : Z) : in_u w z -> wrap_u w z = z.
Proof. intros. by apply Z.mod_small. Qed.

Lemma wrap_s_id (w z : Z) : (0 < w)%Z -> in_s w z -> wrap_s w z = z.
Proof.
  intros Hw [H1 H2]. unfold wrap_s. pose proof (pow2_half w Hw).
  rewrite Z.mod_small; lia.
Qed.

(** Wrapping only depends on the residue: the signed reading of an unsigned
    word, and the other way round. *)
Lemma wrap_s_mod (w z : Z) : (0 <= w)%Z -> wrap_s w (wrap_u w z) = wrap_s w z.
Proof.
  intros. unfold wrap_s, wrap_u. f_equal.
  rewrite Zplus_mod_idemp_l. done.
Qed.

Lemma wrap_u_wrap_s (w z : Z) : (0 <= w)%Z -> wrap_u w (wrap_s w z) = wrap_u w z.
Proof.
  intros. unfold wrap_s, wrap_u.
  rewrite Zminus_mod_idemp_l. f_equal. lia.
Qed.

(** * Alignment

    [(ptr + a - 1) & ~(a - 1)] on 64-bit words. *)
Definition align_bits (p a : Z) : Z :=
  Z.land (u64 (p + a - 1)) (u64 (Z.lnot (u64 (a - 1)))).

Lemma align_bits_pow2 (p k : Z) :
  (0 <= k < 64)%Z -> (0 <= p)%Z -> (p + 2 ^ k - 1 < 2 ^ 64)%Z ->
  align_bits p (2 ^ k) = ((p + 2 ^ k - 1) / 2 ^ k * 2 ^ k)%Z.
Proof.
  intros Hk Hp Hb. pose proof (pow2_pos k ltac:(lia)).
  assert (2 ^ k < 2 ^ 64)%Z by (apply Z.pow_lt_mono_r; lia).
  unfold align_bits, u64. rewrite (wrap_u_id 64 (p + 2 ^ k - 1)) by (split; lia).
  rewrite (wrap_u_id 64 (2 ^ k - 1)) by (split; lia).
  unfold wrap_u. rewrite <- (Z.land_ones _ 64), (Z.land_comm (Z.lnot _)), Z.land_assoc, (Z.land_ones _ 64) by lia.
  rewrite Z.mod_small by lia.
  replace (2 ^ k - 1)%Z with (Z.ones k) by (rewrite Z.ones_equiv; lia).
  rewrite <- Z.ldiff_land, Z.ldiff_ones_r by lia.
  rewrite Z.shiftl_mul_pow2, Z.shiftr_div_pow2 by lia. done.
Qed.

(** What aligning achieves: the least multiple not below [p]. *)
Lemma align_bits_spec (p k : Z) :
  (0 <= k < 64)%Z -> (0 <= p)%Z -> (p + 2 ^ k - 1 < 2 ^ 64)%Z ->
  (2 ^ k | align_bits p (2 ^ k))%Z /\ (p <= align_bits p (2 ^ k) < p + 2 ^ k)%Z.
Proof.
  intros Hk Hp Hb. rewrite align_bits_pow2 by done. pose proof (pow2_pos k ltac:(lia)).
  split; [by exists ((p + 2 ^ k - 1) / 2 ^ k)%Z|].
  pose proof (Z.div_mod (p + 2 ^ k - 1) (2 ^ k) ltac:(lia)).
  pose proof (Z.mod_pos_bound (p + 2 ^ k - 1) (2 ^ k) ltac:(lia)). lia.
Qed.

Lemma align_bits_id (p k : Z) :
  (0 <= k < 64)%Z -> (0 <= p)%Z -> (p + 2 ^ k - 1 < 2 ^ 64)%Z -> (2 ^ k | p)%Z ->
  align_bits p (2 ^ k) = p.
Proof.
  intros Hk Hp Hb [q ->]. pose proof (pow2_pos k ltac:(lia)).
  rewrite align_bits_pow2 by done. f_equal.
  replace (q * 2 ^ k + 2 ^ k - 1)%Z with (2 ^ k - 1 + q * 2 ^ k)%Z by lia.
  rewrite Z.div_add, Z.div_small; lia.
Qed.

(** * Automation

    [xynq] holds range facts, [xynq_rw] the rewriting rules that normalise
    wrapped integers and list expressions. *)

Create HintDb xynq discriminated.
Create Rewrite HintDb xynq_rw.
#[export] Hint Resolve wrap_u_range wrap_s_range uchar_bound pow2_pos : xynq.
#[export] Hint Rewrite wrap_s_mod wrap_u_wrap_s using lia : xynq_rw.
#[export] Hint Rewrite @app_nil_r @length_app @length_cons : xynq_rw.

(** Case split on the scrutinee of the first [match] or [if] of the goal,
    keeping the equation. *)
Ltac case_goal :=
  match goal with
  | |- context [match ?x with _ => _ end] =>
      lazymatch x with
      | context [match _ with _ => _ end] => fail
      | _ => let E := fresh "E" in destruct x eqn:E
      end
  end.

Ltac case_hyp H :=
  match type of H with
  | context [match ?x with _ => _ end] =>
      lazymatch x with
      | context [match _ with _ => _ end] => fail
      | _ => let E := fresh "E" in destruct x eqn:E
      end
  end.

(** Turn boolean comparisons of the context into propositions. *)
Ltac bool_hyps :=
  repeat match goal with
  | H : (_ && _) = true |- _ => apply andb_true_iff in H as [? ?]
  | H : (_ || _) = false |- _ => apply orb_false_iff in H as [? ?]
  | H : negb _ = true |- _ => apply negb_true_iff in H
  | H : negb _ = false |- _ => apply negb_false_iff in H
  | H : (_ =? _)%Z = true |- _ => apply Z.eqb_eq in H
  | H : (_ =? _)%Z = false |- _ => apply Z.eqb_neq in H
  | H : (_ <? _)%Z = true |- _ => apply Z.ltb_lt in H
  | H : (_ <? _)%Z = false |- _ => apply Z.ltb_ge in H
  | H : (_ <=? _)%Z = true |- _ => apply Z.leb_le in H
  | H : (_ <=? _)%Z = false |- _ => apply Z.leb_gt in H
  | H : (_ =c _) = true |- _ => apply Ascii.eqb_eq in H
  | H : (_ =c _) = false |- _ => apply Ascii.eqb_neq in H
  end.

(** * Sums *)

Lemma sum_list_with_insert {A} (f : A -> nat) (l : list A) i x y : l !! i = Some x ->
  sum_list_with f (<[i := y]> l) + f x = sum_list_with f l + f y.
Proof.
  revert i. induction l as [|z l IH]; intros [|i] Hi; try done; cbn in Hi; simplify_eq.
  - change (<[0 := y]> (x :: l)) with (y :: l). cbn [sum_list_with]. lia.
  - change (<[S i := y]> (z :: l)) with (z :: <[i := y]> l). cbn [sum_list_with]. specialize (IH i Hi). lia.
Qed.
