(* ===== verification/Span.v ===== *)
(** The spans of base/span.h: a pointer and a size, the ways they are made
    from arrays, ranges and C strings, and the comparisons of texts.

    Memory is a partial function from addresses to characters: a definition
    that reads answers [None] when it reads an address that holds nothing, and
    also when an [XYAssert] of the code fails, so a theorem that gives a result
    says that the code reads only what the span and the string own. *)
From S2P Require Import Prelude.

Open Scope Z_scope.

(** ** Spans *)

(** The element types the code distinguishes: [void] (addressed as bytes),
    [char] (literals lose their final zero) and the others, with their size. *)
Inductive ElemType :=
| ElemVoid
| ElemChar
| ElemOther (size : Z).

(** source/base/span.h:14-50 [SpanIndexed, SpanPtrCast] *)
Definition elem_size (t : ElemType) : Z :=
  match t with
  | ElemVoid => 1
  | ElemChar => 1
  | ElemOther w => w
  end.

(** source/base/span.h:105-108 [BasicSpan] *)
Record BasicSpan := {
  ptr_ : Z;
  size_ : Z
}.

(** source/base/span.h:61-61 [BasicSpan] *)
Definition SpanDefault : BasicSpan := {| ptr_ := 0; size_ := 0 |}.

(** Subtraction of addresses, as a [size_t]. *)
(** source/base/span.h:217-221 [BasicSpan] *)
Definition SpanOfRange (begin_ end_ : Z) : BasicSpan :=
  {| ptr_ := begin_; size_ := u64 (end_ - begin_) |}.

(** source/base/span.h:223-227 [BasicSpan] *)
Definition SpanOfSize (begin_ size : Z) : BasicSpan :=
  {| ptr_ := begin_; size_ := size |}.

(** The constructors from an array of [n] elements at [arr], chosen by the
    element type. *)
(** source/base/span.h:69-88 [BasicSpan] *)
Definition SpanOfArray (t : ElemType) (arr n : Z) : BasicSpan :=
  {| ptr_ := arr;
     size_ := match t with
              | ElemChar => n - 1
              | _ => n
              end |}.

(** source/base/span.h:97-97 [IsEmpty] *)
Definition IsEmpty (s : BasicSpan) : bool := size_ s =? 0.

(** source/base/span.h:99-100 [begin, end] *)
Definition span_end (t : ElemType) (s : BasicSpan) : Z := ptr_ s + size_ s * elem_size t.

(** The address of an element. *)
(** source/base/span.h:102-104 [operator_index] *)
Definition span_at (t : ElemType) (s : BasicSpan) (index : Z) : Z :=
  ptr_ s + index * elem_size t.

(** The mutable span has the same members and the same constructors, and
    converts to the immutable one. *)

(** source/base/span.h:229-235 [MutBasicSpan] *)
Definition MutSpanOfRange (begin_ end_ : Z) : BasicSpan :=
  let sz := end_ - begin_ in
  {| ptr_ := begin_; size_ := u64 sz |}.

(** source/base/span.h:237-241 [MutBasicSpan] *)
Definition MutSpanOfSize (begin_ size : Z) : BasicSpan :=
  {| ptr_ := begin_; size_ := size |}.

(** source/base/span.h:120-139 [MutBasicSpan] *)
Definition MutSpanOfArray (t : ElemType) (arr n : Z) : BasicSpan :=
  {| ptr_ := arr;
     size_ := match t with
              | ElemChar => n - 1
              | _ => n
              end |}.

(** source/base/span.h:150-150 [operator BasicSpan] *)
Definition SpanOfMut (s : BasicSpan) : BasicSpan := SpanOfSize (ptr_ s) (size_ s).

(** ** Texts in memory *)

Abbreviation text_memory := (Z -> option ascii).

Section Memory.
  Context (mem : text_memory).

(** [strlen]: the offset of the first zero at or after [p]. *)
Fixpoint strlen (fuel : nat) (p : Z) : option Z :=
  match fuel with
  | O => None
  | S f =>
      match mem p with
      | None => None
      | Some c => if Ascii.eqb c c_nul then Some 0
                  else match strlen f (p + 1) with
                       | Some n => Some (n + 1)
                       | None => None
                       end
      end
  end.

(** source/base/span.h:192-196 [CStrSpan] *)
Definition CStrSpanOfSize (begin_ length : Z) : option BasicSpan :=
  if begin_ =? 0 then None else
  match mem (begin_ + length) with
  | Some c => if Ascii.eqb c c_nul then Some (SpanOfSize begin_ length) else None
  | None => None
  end.

(** source/base/span.h:185-190 [CStrSpan] *)
Definition CStrSpanOfRange (begin_ end_ : Z) : option BasicSpan :=
  if begin_ =? 0 then None else
  if end_ =? 0 then None else
  match mem end_ with
  | Some c => if Ascii.eqb c c_nul then Some (SpanOfRange begin_ end_) else None
  | None => None
  end.

(** source/base/span.h:181-183 [CStrSpan] *)
Definition CStrSpanOf (fuel : nat) (c_str : Z) : option BasicSpan :=
  match strlen fuel c_str with
  | Some n => CStrSpanOfSize c_str n
  | None => None
  end.

(** [empty] is the address of the empty literal. *)
(** source/base/span.h:177-179 [CStrSpan] *)
Definition CStrSpanDefault (empty : Z) : option BasicSpan := CStrSpanOfSize empty 0.

(** The loop of the comparison with a C string; it ends with the positions in
    both texts, or [inr false] when two characters differ. *)
(** source/base/span.h:246-250 [operator==] *)
Fixpoint eq_cstr_loop (fuel : nat) (end_ str right : Z) : option (Z * Z + bool) :=
  match fuel with
  | O => None
  | S f =>
      match mem right with
      | None => None
      | Some r =>
          if negb (Ascii.eqb r c_nul) && negb (str =? end_) then
            match mem str with
            | None => None
            | Some l =>
                if negb (Ascii.eqb r l) then Some (inr false)
                else eq_cstr_loop f end_ (str + 1) (right + 1)
            end
          else Some (inl (str, right))
      end
  end.

(** source/base/span.h:243-253 [operator==] *)
Definition StrSpan_eq_cstr (fuel : nat) (left : BasicSpan) (right : Z) : option bool :=
  if right =? 0 then None else
  let end_ := span_end ElemChar left in
  match eq_cstr_loop fuel end_ (ptr_ left) right with
  | None => None
  | Some (inr b) => Some b
  | Some (inl (str, right')) =>
      match mem right' with
      | None => None
      | Some r => Some ((str =? end_) && Ascii.eqb r c_nul)
      end
  end.

(** source/base/span.h:255-257 [operator!=] *)
Definition StrSpan_ne_cstr (fuel : nat) (left : BasicSpan) (right : Z) : option bool :=
  option_map negb (StrSpan_eq_cstr fuel left right).

(** [memcmp(p, q, n) == 0]: a comparison up to the first difference. *)
Fixpoint memcmp_eq (n : nat) (p q : Z) : option bool :=
  match n with
  | O => Some true
  | S k =>
      match mem p, mem q with
      | Some a, Some b => if Ascii.eqb a b then memcmp_eq k (p + 1) (q + 1) else Some false
      | _, _ => None
      end
  end.

(** source/base/span.h:259-268 [operator==] *)
Definition StrSpan_eq (left right : BasicSpan) : option bool :=
  if ptr_ left =? 0 then None else
  if ptr_ right =? 0 then None else
  if negb (size_ left =? size_ right) then Some false else
  memcmp_eq (Z.to_nat (size_ left)) (ptr_ left) (ptr_ right).

(** source/base/span.h:270-272 [operator!=] *)
Definition StrSpan_ne (left right : BasicSpan) : option bool :=
  option_map negb (StrSpan_eq left right).

(** ** What they mean *)

(** The characters [s] lie at [p]. *)
Fixpoint text_at (p : Z) (s : bytes) : Prop :=
  match s with
  | [] => True
  | c :: s => mem p = Some c /\ text_at (p + 1) s
  end.

Definition holds_span (sp : BasicSpan) (s : bytes) : Prop :=
  text_at (ptr_ sp) s /\ size_ sp = Z.of_nat (length s).

(** [s] and a final zero lie at [p]: a C string. *)
Definition c_string (p : Z) (s : bytes) : Prop :=
  text_at p (s ++ [c_nul]) /\ c_nul ∉ s.

End Memory.

Arguments text_at : simpl nomatch.

(** ** Reading a text *)

Section Reading.
  Context {mem : text_memory}.

Lemma text_at_app (p : Z) (s t : bytes) :
    text_at mem p (s ++ t) <-> text_at mem p s /\ text_at mem (p + Z.of_nat (length s)) t.
  Proof.
    revert p. induction s as [|c s IH]; intros p; simpl.
    - rewrite Z.add_0_r. tauto.
    - rewrite IH. replace (p + 1 + Z.of_nat (length s)) with (p + Z.of_nat (S (length s))) by lia.
      tauto.
  Qed.

Lemma strlen_c_string (s : bytes) (p : Z) (fuel : nat) :
    c_string mem p s -> (length s < fuel)%nat ->
    strlen mem fuel p = Some (Z.of_nat (length s)).
  Proof.
    revert p fuel. induction s as [|c s IH]; intros p [|fuel] [Ht Hn] Hf; simpl in *; try lia.
    - by rewrite (proj1 Ht).
    - destruct Ht as [Hc Ht]. rewrite Hc.
      destruct (Ascii.eqb_spec c c_nul) as [->|_]; [set_solver|].
      rewrite (IH (p + 1) fuel); [|split; [done|set_solver]|lia].
      f_equal. lia.
  Qed.

Lemma memcmp_eq_texts (s t : bytes) (p q : Z) :
    length s = length t -> text_at mem p s -> text_at mem q t ->
    memcmp_eq mem (length s) p q = Some (bool_decide (s = t)).
  Proof.
    revert t p q. induction s as [|c s IH]; intros [|d t] p q Hl Hs Ht; simplify_eq/=.
    - done.
    - destruct Hs as [Hc Hs], Ht as [Hd Ht]. rewrite Hc, Hd.
      destruct (Ascii.eqb_spec c d) as [->|Hne].
      + rewrite (IH t) by done. f_equal. apply bool_decide_ext. naive_solver.
      + symmetry. f_equal. apply bool_decide_eq_false. naive_solver.
  Qed.

  (** The loop stops at the first difference, or with one text read to its
      end. *)
Lemma eq_cstr_loop_spec (s t : bytes) (p q : Z) (fuel : nat) :
    text_at mem p s -> c_string mem q t -> (length s < fuel)%nat ->
    (s <> t /\ eq_cstr_loop mem fuel (p + Z.of_nat (length s)) p q = Some (inr false))
    \/ exists str q' r,
         eq_cstr_loop mem fuel (p + Z.of_nat (length s)) p q = Some (inl (str, q'))
         /\ mem q' = Some r
         /\ (str =? p + Z.of_nat (length s)) && Ascii.eqb r c_nul = bool_decide (s = t).
  Proof.
    revert t p q fuel.
    induction s as [|c s IH]; intros t p q [|fuel] Hs [Ht Hn] Hf; simpl in Hf; try lia.
    - right. simpl. rewrite Z.add_0_r, Z.eqb_refl. simpl.
      destruct t as [|d t]; simpl in Ht; destruct Ht as [Hd Ht]; rewrite Hd, andb_false_r.
      + exists p, q, c_nul. rewrite Z.eqb_refl. by split_and!.
      + exists p, q, d. rewrite Z.eqb_refl. destruct (Ascii.eqb_spec d c_nul) as [->|_]; [set_solver|done].
    - destruct Hs as [Hc Hs]. simpl length. cbn [eq_cstr_loop].
      replace (p =? p + Z.of_nat (S (length s))) with false by (symmetry; apply Z.eqb_neq; lia).
      destruct t as [|d t]; simpl in Ht; destruct Ht as [Hd Ht]; rewrite Hd.
      + right. exists p, q, c_nul. split_and!; try done.
        by replace (p =? p + Z.of_nat (S (length s))) with false by (symmetry; apply Z.eqb_neq; lia).
      + destruct (Ascii.eqb_spec d c_nul) as [->|_]; [set_solver|]. simpl. rewrite Hc.
        destruct (Ascii.eqb_spec d c) as [->|Hne]; simpl; [|left; split; [congruence|done]].
        replace (p + Z.of_nat (S (length s))) with (p + 1 + Z.of_nat (length s)) by lia.
        destruct (IH t (p + 1) (q + 1) fuel) as [[Hst Hl]|(str & q' & r & Hl & Hr & Hb)];
          [done|split; [done|set_solver]|lia| |].
        * left. split; [congruence|done].
        * right. exists str, q', r. split_and!; try done.
          rewrite Hb. apply bool_decide_ext. naive_solver.
  Qed.
End Reading.

(** ** What the comparisons decide *)

(** Comparing two spans decides whether their texts are equal; it reads only
    the two texts. *)
Theorem span_equality_is_text_equality (mem : text_memory) (l r : BasicSpan) (s t : bytes) :
  ptr_ l <> 0 -> ptr_ r <> 0 -> holds_span mem l s -> holds_span mem r t ->
  StrSpan_eq mem l r = Some (bool_decide (s = t))
  /\ StrSpan_ne mem l r = Some (bool_decide (s <> t)).
Proof.
  intros Hl Hr [Hs Hls] [Ht Hlt].
  assert (Heq : StrSpan_eq mem l r = Some (bool_decide (s = t))).
  { unfold StrSpan_eq. rewrite (proj2 (Z.eqb_neq _ _) Hl), (proj2 (Z.eqb_neq _ _) Hr), Hls, Hlt.
    destruct (Z.eqb_spec (Z.of_nat (length s)) (Z.of_nat (length t))) as [Hlen|Hlen]; simpl.
    - rewrite Nat2Z.id. apply memcmp_eq_texts; [lia|done..].
    - symmetry. f_equal. apply bool_decide_eq_false. congruence. }
  split; [done|]. unfold StrSpan_ne. rewrite Heq. simpl. by rewrite bool_decide_not.
Qed.

(** Comparing a span with a C string decides whether the string is the span's
    text; the loop ends and reads only the span and the string with its zero. *)
Theorem span_equals_c_string (mem : text_memory) (l : BasicSpan) (q : Z) (s t : bytes) (fuel : nat) :
  q <> 0 -> holds_span mem l s -> c_string mem q t -> (length s < fuel)%nat ->
  StrSpan_eq_cstr mem fuel l q = Some (bool_decide (s = t))
  /\ StrSpan_ne_cstr mem fuel l q = Some (bool_decide (s <> t)).
Proof.
  intros Hq [Hs Hls] Ht Hf.
  assert (Heq : StrSpan_eq_cstr mem fuel l q = Some (bool_decide (s = t))).
  { unfold StrSpan_eq_cstr, span_end. rewrite (proj2 (Z.eqb_neq _ _) Hq), Hls. simpl elem_size.
    rewrite Z.mul_1_r.
    destruct (eq_cstr_loop_spec s t (ptr_ l) q fuel Hs Ht Hf)
      as [[Hst ->]|(str & q' & r & -> & -> & ->)]; [|done].
    symmetry. f_equal. by apply bool_decide_eq_false. }
  split; [done|]. unfold StrSpan_ne_cstr. rewrite Heq. simpl. by rewrite bool_decide_not.
Qed.

(** A [CStrSpan] made from a C string is the span of its text without the
    zero, and so is the one made from its first character and its zero. *)
Lemma c_string_span (mem : text_memory) (p : Z) (s : bytes) (fuel : nat) :
  0 < p -> p + Z.of_nat (length s) < 2 ^ 64 -> c_string mem p s -> (length s < fuel)%nat ->
  let sp := {| ptr_ := p; size_ := Z.of_nat (length s) |} in
  holds_span mem sp s
  /\ CStrSpanOf mem fuel p = Some sp
  /\ CStrSpanOfRange mem p (p + Z.of_nat (length s)) = Some sp.
Proof.
  intros Hp Hb Hs Hf sp. pose proof Hs as [Ht _]. apply text_at_app in Ht as [Ht [Hz _]].
  split; [done|]. unfold CStrSpanOf, CStrSpanOfSize, CStrSpanOfRange, SpanOfRange.
  rewrite (strlen_c_string s), !(proj2 (Z.eqb_neq p 0)), (proj2 (Z.eqb_neq (p + _) 0)), Hz
    by (done || lia). simpl.
  unfold u64. rewrite wrap_u_id by (split; lia).
  by replace (p + Z.of_nat (length s) - p) with (Z.of_nat (length s)) by lia.
Qed.

(** A range of elements wider than a byte makes a span whose end is not the
    end of the range: the size counts bytes, [end()] and [operator[]] count
    elements. *)
Lemma range_span_overshoots (w b n : Z) :
  1 < w -> 0 < n -> n * w < 2 ^ 64 ->
  span_end (ElemOther w) (SpanOfRange b (b + n * w)) = b + n * w * w
  /\ span_end (ElemOther w) (SpanOfSize b n) = b + n * w
  /\ span_end (ElemOther w) (SpanOfRange b (b + n * w)) <> b + n * w.
Proof.
  intros Hw Hn Hb. unfold span_end, SpanOfRange, SpanOfSize. simpl. unfold u64.
  replace (b + n * w - b) with (n * w) by lia. rewrite wrap_u_id by (split; nia).
  split_and!; nia.
Qed.

(** A literal seen as a [StrSpan] is its text, seen as a [DataSpan] it also
    has the zero; mutable spans are made and seen the same way. *)
Lemma literal_spans (mem : text_memory) (p : Z) (s : bytes) :
  c_string mem p s ->
  holds_span mem (SpanOfArray ElemChar p (Z.of_nat (length (s ++ [c_nul])))) s
  /\ holds_span mem (SpanOfArray ElemVoid p (Z.of_nat (length (s ++ [c_nul])))) (s ++ [c_nul])
  /\ (forall t n, SpanOfMut (MutSpanOfArray t p n) = SpanOfArray t p n).
Proof.
  intros [Ht _]. pose proof Ht as [Hs _]%text_at_app. unfold holds_span. simpl.
  rewrite length_app. simpl. split_and!; try done; lia.
Qed.
