(* ===== verification/Str.v ===== *)
(** [containers/str]: strings with the allocators of the program, and copies of
    texts in scratch memory.

    [Str] and [ScratchStr] are [std::basic_string]s with an allocator; the
    string of the C++ library is modelled as far as the code relies on it: a
    text and a zero behind it, in the object itself as long as it fits, else in
    a block of the string's allocator.  Memory is the bytes that may be read,
    as in [Span].  [None] is a failed assertion, a read of a byte that nobody
    owns, or a C string without end. *)
From S2P Require Import Prelude.
From S2P Require Span.
Local Open Scope Z_scope.

Abbreviation Memory := (gmap Z ascii).
Definition mem (m : Memory) : Span.text_memory := fun p => m !! p.

Fixpoint write_text (p : Z) (s : bytes) (m : Memory) : Memory :=
  match s with [] => m | c :: s => <[p := c]> (write_text (p + 1) s m) end.
Fixpoint erase_text (p : Z) (n : nat) (m : Memory) : Memory :=
  match n with O => m | S n => delete p (erase_text (p + 1) n m) end.
Fixpoint read_text (p : Z) (n : nat) (m : Memory) : option bytes :=
  match n with
  | O => Some []
  | S n => match m !! p, read_text (p + 1) n m with Some c, Some s => Some (c :: s) | _, _ => None end
  end.

(** * Allocators *)

(** A pointer to an allocator. *)
Inductive AllocatorPtr := ANull | ASystem | AScratch (a : nat).

#[export] Instance AllocatorPtr_eq_dec : EqDecision AllocatorPtr.
Proof. solve_decision. Defined.

(** Where an allocator puts a block, and what is in it. *)
Class Placement := { place : AllocatorPtr -> Z -> Memory -> Z; junk : Z -> ascii }.

(** Blocks are put where nothing is. *)
Class PlacementLaws `{Placement} : Prop := {
  place_free : forall a n m, 0 < place a n m /\ forall q, place a n m <= q < place a n m + n -> m !! q = None
}.

(** How many characters fit into the object itself, and the capacity a string
    takes that grows to a size. *)
Class StringImpl := { local_capacity : Z; grow : Z -> Z -> Z }.
Class StringImplLaws `{StringImpl} : Prop := {
  local_capacity_nonneg : 0 <= local_capacity;
  grow_enough : forall c n, n <= grow c n
}.

Section Strings.
  Context `{Placement} `{StringImpl}.

Fixpoint junk_at (p : Z) (n : nat) : bytes := match n with O => [] | S n => junk p :: junk_at (p + 1) n end.

Definition alloc (a : AllocatorPtr) (n : Z) (m : Memory) : option (Z * Memory) :=
  match a with
  | ANull => None
  | _ => let p := place a n m in Some (p, write_text p (junk_at p (Z.to_nat n)) m)
  end.

(** Scratch allocators free nothing. *)
Definition dealloc (a : AllocatorPtr) (p n : Z) (m : Memory) : option Memory :=
  match a with ANull => None | ASystem => Some (erase_text p (Z.to_nat n) m) | AScratch _ => Some m end.

(** * Strings *)

(** The object's own buffer is at [self], which is passed along. *)
(** source/containers/str.h:15-16 [StrBaseType, ScratchStrBaseType] *)
Record BasicString := MkStr { data_ : Z; length_ : Z; capacity_ : Z; allocator_ : AllocatorPtr }.

Definition zlen (s : bytes) : Z := Z.of_nat (length s).

Definition put (p : Z) (s : bytes) (m : Memory) : Memory := write_text p (s ++ [c_nul]) m.

Definition make (self : Z) (a : AllocatorPtr) (s : bytes) (m : Memory) : option (BasicString * Memory) :=
  if zlen s <=? local_capacity then Some (MkStr self (zlen s) local_capacity a, put self s m)
  else match alloc a (zlen s + 1) m with
       | Some (p, m) => Some (MkStr p (zlen s) (zlen s) a, put p s m)
       | None => None
       end.

Definition dispose (self : Z) (x : BasicString) (m : Memory) : option Memory :=
  if data_ x =? self then Some m else dealloc (allocator_ x) (data_ x) (capacity_ x + 1) m.

(** The text [s] behind [keep] characters of the string: in place, or in a new
    block. *)
Definition replace_from (self : Z) (keep s : bytes) (x : BasicString) (m : Memory) : option (BasicString * Memory) :=
  let n := zlen keep + zlen s in
  if n <=? capacity_ x then Some (MkStr (data_ x) n (capacity_ x) (allocator_ x), put (data_ x + zlen keep) s m)
  else match alloc (allocator_ x) (grow (capacity_ x) n + 1) m with
       | Some (p, m) =>
           option_map (pair (MkStr p n (grow (capacity_ x) n) (allocator_ x))) (dispose self x (put p (keep ++ s) m))
       | None => None
       end.

Definition text_of (x : BasicString) (m : Memory) : option bytes := read_text (data_ x) (Z.to_nat (length_ x)) m.

Definition append (self : Z) (s : bytes) (x : BasicString) (m : Memory) : option (BasicString * Memory) :=
  match text_of x m with Some t => replace_from self t s x m | None => None end.

Definition assign (self : Z) (s : bytes) (x : BasicString) (m : Memory) : option (BasicString * Memory) := replace_from self [] s x m.

(** Taking over the block of another string, or copying what it has in
    itself; the other one is empty then. *)
Definition steal (self other_self : Z) (other : BasicString) (m : Memory) : option (BasicString * BasicString * Memory) :=
  let empty := MkStr other_self 0 local_capacity (allocator_ other) in
  if data_ other =? other_self then
    match text_of other m with
    | Some t => Some (MkStr self (length_ other) local_capacity (allocator_ other), empty, put other_self [] (put self t m))
    | None => None
    end
  else Some (other, empty, put other_self [] m).

(** ** Str *)

(** source/containers/str.h:21-23 [Str::Str] *)
Definition StrNew (self : Z) (m : Memory) := make self ASystem [] m.

(** source/containers/str.h:25-27 [Str::Str] *)
Definition StrIn (self : Z) (allocator : AllocatorPtr) (m : Memory) := make self allocator [] m.

(** source/containers/str.h:29-31 [Str::Str] *)
Definition StrCopy (self : Z) (other : BasicString) (m : Memory) : option (BasicString * Memory) :=
  match text_of other m with Some t => make self ASystem t m | None => None end.

(** source/containers/str.h:33-35 [Str::Str] *)
Definition StrOfCStr (fuel : nat) (self str : Z) (m : Memory) : option (BasicString * Memory) :=
  match Span.strlen (mem m) fuel str with
  | Some n => match read_text str (Z.to_nat n) m with Some t => make self ASystem t m | None => None end
  | None => None
  end.

(** source/containers/str.h:37-43 [Str::Str] *)
Definition StrOfSpan (self : Z) (str : Span.BasicSpan) (m : Memory) : option (BasicString * Memory) :=
  match read_text (Span.ptr_ str) (Z.to_nat (Span.size_ str)) m with Some t => make self ASystem t m | None => None end.

(** source/containers/str.h:48-48 [Str::operator CStrSpan] *)
Definition StrCStrSpan (x : BasicString) (m : Memory) : option Span.BasicSpan := Span.CStrSpanOfSize (mem m) (data_ x) (length_ x).

(** source/containers/str.h:49-49 [Str::operator StrSpan] *)
Definition StrStrSpan (x : BasicString) : Span.BasicSpan := Span.SpanOfSize (data_ x) (length_ x).

(** source/containers/str.h:52-57 [operator+] *)
Definition StrPlus (self : Z) (left right : BasicString) (m : Memory) : option (BasicString * Memory) :=
  match StrNew self m with
  | Some (result, m) =>
      match text_of left m with
      | Some t =>
          match append self t result m with
          | Some (result, m) => match text_of right m with Some t => append self t result m | None => None end
          | None => None
          end
      | None => None
      end
  | None => None
  end.

(** ** ScratchStr *)

(** source/containers/str.h:61-63 [ScratchStr::ScratchStr] *)
Definition ScratchStrNew (self : Z) (m : Memory) := make self ANull [] m.

(** source/containers/str.h:65-67 [ScratchStr::ScratchStr] *)
Definition ScratchStrIn (self : Z) (allocator : AllocatorPtr) (m : Memory) := make self allocator [] m.

(** source/containers/str.h:69-71 [ScratchStr::ScratchStr] *)
Definition ScratchStrCopy (self : Z) (other : BasicString) (m : Memory) : option (BasicString * Memory) :=
  match text_of other m with Some t => make self (allocator_ other) t m | None => None end.

(** source/containers/str.h:73-75 [ScratchStr::ScratchStr] *)
Definition ScratchStrMove (self other_self : Z) (other : BasicString) (m : Memory) := steal self other_self other m.

(** source/containers/str.h:77-80 [ScratchStr::operator=] *)
Definition ScratchStrAssign (self : Z) (x other : BasicString) (m : Memory) : option (BasicString * Memory) :=
  match text_of other m with Some t => assign self t x m | None => None end.

(** With another allocator the text is copied and the other string, which the
    library leaves as it wants, keeps it. *)
(** source/containers/str.h:82-85 [ScratchStr::operator=] *)
Definition ScratchStrMoveAssign (self other_self : Z) (x other : BasicString) (m : Memory) :
    option (BasicString * BasicString * Memory) :=
  if bool_decide (allocator_ x = allocator_ other) then
    match dispose self x m with Some m => steal self other_self other m | None => None end
  else option_map (fun r => (fst r, other, snd r)) (ScratchStrAssign self x other m).

(** ** Copies in scratch memory *)

(** source/containers/str.cc:5-10 [MakeScratchCStrCopy] *)
Definition MakeScratchCStrCopy (str : Span.BasicSpan) (allocator : nat) (m : Memory) : option (Span.BasicSpan * Memory) :=
  match alloc (AScratch allocator) (Span.size_ str + 1) m with
  | Some (buf, m) =>
      match read_text (Span.ptr_ str) (Z.to_nat (Span.size_ str)) m with
      | Some t => let m := put buf t m in option_map (fun sp => (sp, m)) (Span.CStrSpanOfSize (mem m) buf (Span.size_ str))
      | None => None
      end
  | None => None
  end.

(** source/containers/str.cc:12-16 [MakeScratchStrCopy] *)
Definition MakeScratchStrCopy (str : Span.BasicSpan) (allocator : nat) (m : Memory) : option (Span.BasicSpan * Memory) :=
  match alloc (AScratch allocator) (Span.size_ str) m with
  | Some (buf, m) =>
      match read_text (Span.ptr_ str) (Z.to_nat (Span.size_ str)) m with
      | Some t => let m := write_text buf t m in option_map (fun sp => (sp, m)) (Span.CStrSpanOfSize (mem m) buf (Span.size_ str))
      | None => None
      end
  | None => None
  end.
End Strings.

(** * Reading and writing *)

Lemma write_text_other p s m q : q < p \/ p + zlen s <= q -> write_text p s m !! q = m !! q.
Proof.
  unfold zlen. revert p. induction s as [|c s IH]; intros p Hq; [done|]. cbn [length] in Hq. cbn [write_text].
  rewrite lookup_insert_ne by lia. apply IH. lia.
Qed.

Lemma write_text_some p s m q : is_Some (write_text p s m !! q) <-> p <= q < p + zlen s \/ is_Some (m !! q).
Proof.
  unfold zlen. revert p. induction s as [|c s IH]; intros p; cbn [write_text length]; [split; [by right|intros [?|?]; [lia|done]]|].
  destruct (decide (p = q)) as [->|Hne].
  - rewrite lookup_insert_eq. split; [intros _; left; lia|by eexists].
  - rewrite lookup_insert_ne, IH by done. split; (intros [?|?]; [left; lia|by right]).
Qed.

(** Reading looks at the text only. *)
Lemma text_at_ext m m' p s : (forall q, p <= q < p + zlen s -> m !! q = m' !! q) -> Span.text_at (mem m) p s -> Span.text_at (mem m') p s.
Proof.
  unfold zlen. revert p. induction s as [|c s IH]; intros p Hq; [done|]. cbn [Span.text_at length] in *. unfold mem at 1.
  intros [Hc Hs]. split; [unfold mem; rewrite <- Hq by lia; done|]. apply IH; [|done]. intros q Hr. apply Hq. lia.
Qed.

Lemma write_text_reads p s m : Span.text_at (mem (write_text p s m)) p s.
Proof.
  revert p m. induction s as [|c s IH]; intros p m; [done|]. cbn. unfold mem at 1. rewrite lookup_insert_eq. split; [done|].
  specialize (IH (p + 1) m). apply (text_at_ext (write_text (p + 1) s m)); [|done].
  intros q Hq. symmetry. apply lookup_insert_ne. lia.
Qed.

Lemma text_at_some m p s q : Span.text_at (mem m) p s -> p <= q < p + zlen s -> is_Some (m !! q).
Proof.
  unfold zlen. revert p. induction s as [|c s IH]; intros p; cbn [Span.text_at length]; [lia|]. intros [Hc Hs] Hq.
  destruct (decide (q = p)) as [->|]; [by eexists|]. apply (IH (p + 1)); [done|lia].
Qed.

Lemma read_text_length p n m s : read_text p n m = Some s -> length s = n.
Proof.
  revert p s. induction n as [|n IH]; intros p s; cbn; [by intros [= <-]|]. destruct (m !! p), (read_text (p + 1) n m) eqn:E; try done.
  intros [= <-]. cbn. f_equal. by eapply IH.
Qed.

Lemma read_text_at m p s : Span.text_at (mem m) p s -> read_text p (length s) m = Some s.
Proof.
  revert p. induction s as [|c s IH]; intros p; [done|]. cbn. unfold mem at 1. intros [-> Hs]. by rewrite (IH _ Hs).
Qed.

Lemma erase_text_other p n m q : q < p \/ p + Z.of_nat n <= q -> erase_text p n m !! q = m !! q.
Proof.
  revert p. induction n as [|n IH]; intros p Hq; [done|]. cbn [erase_text]. rewrite lookup_delete_ne by lia. apply IH. lia.
Qed.

Section Specification.
  Context `{PlacementLaws} `{StringImplLaws}.

Lemma zlen_junk_at p n : zlen (junk_at p n) = Z.of_nat n.
Proof. unfold zlen. f_equal. revert p. induction n as [|n IH]; intros p; [done|]. cbn. by rewrite IH. Qed.

(** A block is new, can be read and written, and nothing else changes. *)
Lemma alloc_spec a n m : a <> ANull -> 0 <= n ->
  exists p m', alloc a n m = Some (p, m') /\ 0 < p /\
    (forall q, p <= q < p + n -> m !! q = None /\ is_Some (m' !! q)) /\
    (forall q, q < p \/ p + n <= q -> m' !! q = m !! q).
Proof.
  intros Ha Hn. destruct (place_free a n m) as [Hp Hf]. unfold alloc.
  assert (E : exists m', match a with ANull => None | _ => Some (place a n m, m') end = Some (place a n m, m') /\
    m' = write_text (place a n m) (junk_at (place a n m) (Z.to_nat n)) m) by (destruct a; [done|by eexists..]).
  destruct E as (m' & E & ->). eexists _, _. split; [destruct a; [done|reflexivity..]|]. split; [done|]. split; intros q Hq.
  - split; [by apply Hf|]. apply write_text_some. left. rewrite zlen_junk_at. lia.
  - apply write_text_other. rewrite zlen_junk_at. lia.
Qed.

Lemma zlen_app s t : zlen (s ++ t) = zlen s + zlen t.
Proof. unfold zlen. rewrite length_app. lia. Qed.

Lemma zlen_nonneg s : 0 <= zlen s.
Proof. unfold zlen. lia. Qed.

Lemma put_spec p s m :
  Span.text_at (mem (put p s m)) p (s ++ [c_nul]) /\
  (forall q, q < p \/ p + zlen s < q -> put p s m !! q = m !! q) /\
  (forall q, is_Some (m !! q) -> is_Some (put p s m !! q)).
Proof.
  split; [apply write_text_reads|]. split; intros q Hq.
  - apply write_text_other. rewrite zlen_app. change (zlen [c_nul]) with 1. lia.
  - apply write_text_some. by right.
Qed.

(** The bytes of a string: its own buffer and where its text is. *)
Definition mine (self : Z) (x : BasicString) (q : Z) : Prop :=
  self <= q <= self + local_capacity \/ data_ x <= q <= data_ x + capacity_ x.

(** A text with its zero in a new block. *)
Lemma new_block_spec a cap s m : a <> ANull -> zlen s <= cap ->
  exists p m1, alloc a (cap + 1) m = Some (p, m1) /\ 0 < p /\ let m2 := put p s m1 in
    Span.text_at (mem m2) p (s ++ [c_nul]) /\ (forall q, p <= q <= p + cap -> m !! q = None /\ is_Some (m2 !! q)) /\
    (forall q, is_Some (m !! q) -> (q < p \/ p + cap < q) /\ m2 !! q = m !! q).
Proof.
  intros Ha Hc. pose proof (zlen_nonneg s) as Hs. destruct (alloc_spec a (cap + 1) m) as (p & m1 & E & Hp & A1 & A2); [done|lia|].
  destruct (put_spec p s m1) as (P1 & P2 & P3). exists p, m1. cbv zeta. split_and!; [done|done|done| |].
  - intros q Hq. destruct (A1 q ltac:(lia)). auto.
  - intros q Hq. assert (Hout : q < p \/ p + cap < q).
    { destruct (Z.lt_ge_cases q p); [by left|]. destruct (Z.lt_ge_cases (p + cap) q); [by right|].
      destruct (A1 q ltac:(lia)) as [E' _]. rewrite E' in Hq. by destruct Hq. }
    split; [done|]. rewrite P2 by lia. apply A2. lia.
Qed.

(** A new block lies beside bytes that were there. *)
Lemma beside_block (m : Memory) p cap b n : 0 <= cap -> 0 <= n -> (forall q, is_Some (m !! q) -> q < p \/ p + cap < q) ->
  (forall q, b <= q <= b + n -> is_Some (m !! q)) -> p + cap < b \/ b + n < p.
Proof.
  intros Hc Hn Hout Hb. destruct (Z.lt_ge_cases (p + cap) b); [by left|]. right. destruct (Z.lt_ge_cases (b + n) p); [done|].
  destruct (Hout (Z.max p b)); [apply Hb; lia|lia..].
Qed.

(** A string holds [s] and a zero behind it. *)
Record str_ok (self : Z) (x : BasicString) (s : bytes) (m : Memory) : Prop := {
  so_length : length_ x = zlen s;
  so_text : Span.text_at (mem m) (data_ x) (s ++ [c_nul]);
  so_capacity : zlen s <= capacity_ x;
  so_owned : forall q, mine self x q -> is_Some (m !! q);
  so_place : 0 < data_ x /\
    (data_ x = self /\ capacity_ x = local_capacity \/
     allocator_ x <> ANull /\ (data_ x + capacity_ x < self \/ self + local_capacity < data_ x))
}.

(** An operation that makes the string [x'] changes only the bytes [own], and
    the string takes no other bytes that were in use. *)
Definition stays_in (self : Z) (own : Z -> Prop) (x' : BasicString) (m m' : Memory) : Prop :=
  forall q, is_Some (m !! q) -> ~ own q -> m' !! q = m !! q /\ ~ mine self x' q.

(** Room for an object. *)
Definition room (self : Z) (m : Memory) : Prop := 0 < self /\ forall q, self <= q <= self + local_capacity -> is_Some (m !! q).

Definition own_buffer (self q : Z) : Prop := self <= q <= self + local_capacity.

Lemma text_of_ok self x s m : str_ok self x s m -> text_of x m = Some s.
Proof.
  intros Hx. unfold text_of. rewrite (so_length _ _ _ _ Hx). unfold zlen. rewrite Nat2Z.id. apply read_text_at.
  pose proof (so_text _ _ _ _ Hx) as Ht. by apply Span.text_at_app in Ht as [Ht _].
Qed.
(** Any string of at most the local capacity, and with an allocator any
    string, can be made in the room for an object. *)
Lemma make_spec self a s m : room self m -> zlen s <= local_capacity \/ a <> ANull ->
  exists x m', make self a s m = Some (x, m') /\ allocator_ x = a /\ str_ok self x s m' /\
    stays_in self (own_buffer self) x m m'.
Proof.
  intros [Hself Hroom] Ha. pose proof (zlen_nonneg s) as Hs. unfold make. destruct (Z.leb_spec (zlen s) local_capacity) as [Hle|Hgt].
  - destruct (put_spec self s m) as (P1 & P2 & P3). eexists _, _. split; [done|]. split; [done|]. split.
    + split; [done|done|done| |by split; [|left]]. intros q [Hq|Hq]; by apply P3, Hroom.
    + intros q _ Hq. unfold own_buffer in Hq. split; [apply P2; lia|]. unfold mine. cbn. lia.
  - destruct (new_block_spec a (zlen s) s m) as (p & m1 & -> & Hp & P1 & P2 & P3); [by destruct Ha; [lia|]|done|].
    eexists _, _. split; [done|]. split; [done|]. split.
    2: { intros q Hq Ho. destruct (P3 q Hq) as [Hout Hk]. split; [done|]. unfold own_buffer in Ho. unfold mine. cbn. lia. }
    split; [done|done|done| |].
    + intros q [Hq|Hq]; cbn in Hq; [|by apply P2]. destruct (P3 q) as [_ ->]; by apply Hroom.
    + split; [done|]. right. split; [by destruct Ha; [lia|]|]. apply (beside_block m); try done; [apply local_capacity_nonneg|].
      intros q Hq. by apply P3.
Qed.

Lemma dispose_spec self x s m m1 : str_ok self x s m -> (forall q, is_Some (m !! q) -> m1 !! q = m !! q) ->
  exists m2, dispose self x m1 = Some m2 /\
    forall q, (is_Some (m !! q) -> own_buffer self q \/ ~ mine self x q) -> m2 !! q = m1 !! q.
Proof.
  intros Hx Hm. pose proof (so_capacity _ _ _ _ Hx) as Hc. pose proof (zlen_nonneg s) as Hs. unfold dispose.
  destruct (Z.eqb_spec (data_ x) self) as [Hd|Hd]; [by exists m1|].
  destruct (so_place _ _ _ _ Hx) as [_ [[? _]|[Ha Hp]]]; [done|].
  destruct (allocator_ x); cbn; [done| |by exists m1]. eexists. split; [done|]. intros q Hq. apply erase_text_other.
  destruct (Z.lt_ge_cases q (data_ x)); [by left|]. right. destruct (Z.lt_ge_cases (data_ x + capacity_ x) q) as [|Hle]; [lia|].
  assert (Hmine : mine self x q) by (right; lia). exfalso.
  destruct (Hq (so_owned _ _ _ _ Hx q Hmine)) as [Hb|Hn]; [unfold own_buffer in Hb; lia|done].
Qed.

(** Appending and assigning: any text within the capacity, and with an
    allocator any text. *)
Lemma replace_from_spec self keep rest s x m :
  str_ok self x (keep ++ rest) m -> zlen keep + zlen s <= capacity_ x \/ allocator_ x <> ANull ->
  exists x' m', replace_from self keep s x m = Some (x', m') /\ allocator_ x' = allocator_ x /\
    str_ok self x' (keep ++ s) m' /\ stays_in self (mine self x) x' m m'.
Proof.
  intros Hx Ha. pose proof (zlen_nonneg s) as Hs. pose proof (zlen_nonneg keep) as Hk. pose proof local_capacity_nonneg as Hlc.
  pose proof (so_owned _ _ _ _ Hx) as Hown. unfold replace_from.
  destruct (Z.leb_spec (zlen keep + zlen s) (capacity_ x)) as [Hle|Hgt].
  - destruct (put_spec (data_ x + zlen keep) s m) as (P1 & P2 & P3). eexists _, _. split; [done|]. split; [done|]. split.
    + destruct (so_place _ _ _ _ Hx) as [Hp Hpl]. split; cbn [data_ length_ capacity_ allocator_]; rewrite ?zlen_app; try done.
      * rewrite <- app_assoc. apply Span.text_at_app. split; [|done]. pose proof (so_text _ _ _ _ Hx) as Ht.
        rewrite <- app_assoc in Ht. apply Span.text_at_app in Ht as [Ht _]. eapply text_at_ext; [|exact Ht].
        intros q Hq. symmetry. apply P2. lia.
      * intros q Hq. by apply P3, Hown.
    + intros q _ Hq. unfold mine in *. cbn. split; [apply P2; lia|lia].
  - destruct Ha as [?|Ha]; [lia|]. set (n := zlen keep + zlen s) in *. pose proof (grow_enough (capacity_ x) n) as Hg.
    destruct (new_block_spec (allocator_ x) (grow (capacity_ x) n) (keep ++ s) m) as (p & m1 & -> & Hp & P1 & P2 & P3);
      [done|by rewrite zlen_app|].
    destruct (dispose_spec self x _ m (put p (keep ++ s) m1) Hx) as (m2 & -> & D); [by intros q Hq; apply P3|].
    eexists _, _. split; [done|]. split; [done|].
    assert (Hnew : forall q, p <= q <= p + grow (capacity_ x) n -> m2 !! q = put p (keep ++ s) m1 !! q).
    { intros q Hq. apply D. intros Hin. destruct (P3 q Hin) as [? _]. lia. }
    split.
    + split; cbn [data_ length_ capacity_ allocator_]; rewrite ?zlen_app; try done.
      * eapply text_at_ext; [|exact P1]. intros q Hq. symmetry. apply Hnew. rewrite !zlen_app in Hq.
        change (zlen [c_nul]) with 1 in Hq. lia.
      * intros q [Hq|Hq]; cbn [data_ capacity_] in Hq; [|by rewrite Hnew; [apply P2|]].
        rewrite D by (intros _; by left). destruct (P3 q) as [_ ->]; apply Hown; by left.
      * split; [done|]. right. split; [done|]. apply (beside_block m); [lia|done|by intros q Hq; apply P3|].
        intros q Hq. apply Hown. by left.
    + intros q Hq Hnm. destruct (P3 q Hq) as [Hout Hkeep]. split; [by rewrite D by (intros _; by right)|]. unfold mine in *. cbn. lia.
Qed.

Lemma append_spec self s t x m :
  str_ok self x s m -> allocator_ x <> ANull ->
  exists x' m', append self t x m = Some (x', m') /\ allocator_ x' = allocator_ x /\ str_ok self x' (s ++ t) m' /\ stays_in self (mine self x) x' m m'.
Proof.
  intros Hx Ha. unfold append. rewrite (text_of_ok _ _ _ _ Hx). apply (replace_from_spec self s []); [by rewrite app_nil_r|by right].
Qed.

(** ** Str and ScratchStr *)

Lemma read_span m sp t : Span.holds_span (mem m) sp t -> read_text (Span.ptr_ sp) (Z.to_nat (Span.size_ sp)) m = Some t.
Proof. intros [Ht ->]. rewrite Nat2Z.id. by apply read_text_at. Qed.

(** Spans of a string show its text, and it is a C string. *)
Lemma spans_of_string self x s m : str_ok self x s m ->
  StrCStrSpan x m = Some (StrStrSpan x) /\ Span.holds_span (mem m) (StrStrSpan x) s.
Proof.
  intros Hx. pose proof (so_text _ _ _ _ Hx) as Ht. apply Span.text_at_app in Ht as [Ht [Hz _]].
  unfold StrCStrSpan, Span.CStrSpanOfSize, StrStrSpan. rewrite (so_length _ _ _ _ Hx).
  destruct (Z.eqb_spec (data_ x) 0) as [E|_]; [pose proof (so_place _ _ _ _ Hx); lia|]. unfold zlen at 1. rewrite Hz. by split.
Qed.

(** A [Str] made from a span, or from another string, holds its text in
    system memory. *)
Lemma Str_of_text self sp t m : room self m -> Span.holds_span (mem m) sp t ->
  exists x m', StrOfSpan self sp m = Some (x, m') /\ allocator_ x = ASystem /\ str_ok self x t m' /\
    stays_in self (own_buffer self) x m m'.
Proof. intros Hr Ht. unfold StrOfSpan. rewrite (read_span m sp t Ht). apply make_spec; [done|by right]. Qed.

Lemma Str_of_Str self other_self other t m : room self m -> str_ok other_self other t m ->
  exists x m', StrCopy self other m = Some (x, m') /\ allocator_ x = ASystem /\ str_ok self x t m' /\
    stays_in self (own_buffer self) x m m'.
Proof. intros Hr Ht. unfold StrCopy. rewrite (text_of_ok _ _ _ _ Ht). apply make_spec; [done|by right]. Qed.

(** A string that others leave alone. *)
Lemma str_ok_frame self x s m m' : str_ok self x s m -> (forall q, mine self x q -> m' !! q = m !! q) -> str_ok self x s m'.
Proof.
  intros Hx Hm. pose proof (zlen_nonneg s). destruct Hx as [L T C O P]. split; try done.
  - apply (text_at_ext m); [|done]. intros q Hq. symmetry. apply Hm. right. rewrite zlen_app in Hq. change (zlen [c_nul]) with 1 in Hq. lia.
  - intros q Hq. rewrite Hm by done. by apply O.
Qed.

(** Other strings stay as they are, and apart. *)
Lemma stays_in_other self own x' m m' zself z u : stays_in self own x' m m' -> str_ok zself z u m -> (forall q, own q -> ~ mine zself z q) ->
  str_ok zself z u m' /\ forall q, mine self x' q -> ~ mine zself z q.
Proof.
  intros Hst Hz Hd. pose proof (so_owned _ _ _ _ Hz) as Ho. split.
  - apply (str_ok_frame zself z u m); [done|]. intros q Hq. apply Hst; [by apply Ho|]. intros Hown. by apply (Hd q).
  - intros q Hx Hq. destruct (Hst q (Ho q Hq)) as [_ Hn]; [intros Hown; by apply (Hd q)|done].
Qed.

(** The sum of two strings is a string of both texts, and they stay. *)
Lemma StrPlus_spec self lself rself left right s t m :
  room self m -> str_ok lself left s m -> str_ok rself right t m ->
  (forall q, own_buffer self q -> ~ mine lself left q) -> (forall q, own_buffer self q -> ~ mine rself right q) ->
  exists x m', StrPlus self left right m = Some (x, m') /\ str_ok self x (s ++ t) m' /\
    str_ok lself left s m' /\ str_ok rself right t m'.
Proof.
  intros Hr Hl Ht Dl Dr. unfold StrPlus, StrNew.
  destruct (make_spec self ASystem [] m Hr) as (x0 & m0 & E0 & A0 & X0 & F0); [by right|]. rewrite E0.
  destruct (stays_in_other _ _ _ _ _ _ _ _ F0 Hl Dl) as [Hl0 Dl0]. destruct (stays_in_other _ _ _ _ _ _ _ _ F0 Ht Dr) as [Ht0 Dr0].
  rewrite (text_of_ok _ _ _ _ Hl0). destruct (append_spec self [] s x0 m0 X0) as (x1 & m1 & E1 & A1 & X1 & F1); [by rewrite A0|]. rewrite E1.
  destruct (stays_in_other _ _ _ _ _ _ _ _ F1 Hl0 Dl0) as [Hl1 Dl1]. destruct (stays_in_other _ _ _ _ _ _ _ _ F1 Ht0 Dr0) as [Ht1 Dr1].
  rewrite (text_of_ok _ _ _ _ Ht1). destruct (append_spec self s t x1 m1 X1) as (x2 & m2 & E2 & A2 & X2 & F2); [by rewrite A1, A0|].
  exists x2, m2. split; [done|]. split; [done|].
  destruct (stays_in_other _ _ _ _ _ _ _ _ F2 Hl1 Dl1) as [Hl2 _]. by destruct (stays_in_other _ _ _ _ _ _ _ _ F2 Ht1 Dr1) as [Ht2 _].
Qed.

(** A [ScratchStr] made without an allocator can hold what fits into the
    object and fails an assertion for anything longer. *)
Lemma ScratchStr_without_allocator self m s : room self m ->
  exists x m', ScratchStrNew self m = Some (x, m') /\ (is_Some (assign self s x m') <-> zlen s <= local_capacity).
Proof.
  intros Hr. destruct (make_spec self ANull [] m Hr) as (x & m' & E & A & X & _); [left; apply local_capacity_nonneg|].
  exists x, m'. split; [done|]. assert (Hc : capacity_ x = local_capacity) by (by destruct (so_place _ _ _ _ X) as [_ [[_ ?]|[? _]]]).
  unfold assign. split.
  - unfold replace_from. rewrite Hc, A. change (zlen []) with 0. rewrite Z.add_0_l. destruct (Z.leb_spec (zlen s) local_capacity); [done|]. by intros [].
  - intros Hle. destruct (replace_from_spec self [] [] s x m' X) as (y & m2 & Ey & _); [left; change (zlen []) with 0; lia|]. by rewrite Ey.
Qed.

(** A moved [ScratchStr] takes a text in a block along and leaves an empty
    string. *)
Lemma ScratchStrMove_spec self other_self other s m :
  str_ok other_self other s m -> room self m -> 0 < other_self -> data_ other <> other_self ->
  (forall q, own_buffer self q -> ~ mine other_self other q) ->
  exists x y m', ScratchStrMove self other_self other m = Some (x, y, m') /\ str_ok self x s m' /\ str_ok other_self y [] m'.
Proof.
  intros Ho [Hs Hr] Hpos Hne Hd. pose proof local_capacity_nonneg as Hlc. pose proof (zlen_nonneg s) as Hz.
  unfold ScratchStrMove, steal. rewrite (proj2 (Z.eqb_neq _ _) Hne). destruct Ho as [L T C O [Hp Hpl]].
  destruct Hpl as [[? _]|[Ha Hpl]]; [done|].
  destruct (put_spec other_self [] m) as (P1 & P2 & P3). eexists _, _, _. split; [done|]. split.
  - split; try done.
    + eapply text_at_ext; [|exact T]. intros q Hq. symmetry. apply P2. rewrite zlen_app in Hq. change (zlen [c_nul]) with 1 in Hq.
      change (zlen []) with 0. lia.
    + intros q [Hq|Hq]; apply P3; [by apply Hr|]. apply O. by right.
    + split; [done|]. right. split; [done|]. destruct (Z.lt_ge_cases (data_ other + capacity_ other) self); [by left|]. right.
      destruct (Z.lt_ge_cases (self + local_capacity) (data_ other)); [done|]. exfalso.
      apply (Hd (Z.max self (data_ other))); [unfold own_buffer; lia|right; lia].
  - split; cbn [data_ length_ capacity_ allocator_]; [done|exact P1|done| |by split; [|left]].
    intros q [Hq|Hq]; apply P3, O; by left.
Qed.

(** ** Copies in scratch memory *)

(** The copy with a zero: the text at a new place, everything else as before. *)
Lemma MakeScratchCStrCopy_spec sp a t m : Span.holds_span (mem m) sp t ->
  exists buf m', MakeScratchCStrCopy sp a m = Some (Span.SpanOfSize buf (Span.size_ sp), m') /\
    Span.holds_span (mem m') (Span.SpanOfSize buf (Span.size_ sp)) t /\ m' !! (buf + Span.size_ sp) = Some c_nul /\
    forall q, is_Some (m !! q) -> m' !! q = m !! q.
Proof.
  intros Ht. pose proof Ht as [Hr Hsz]. destruct (new_block_spec (AScratch a) (zlen t) t m) as (p & m1 & E & Hp & P1 & P2 & P3); [done..|].
  unfold MakeScratchCStrCopy. rewrite Hsz. change (Z.of_nat (length t)) with (zlen t). rewrite E.
  assert (Hrd : read_text (Span.ptr_ sp) (Z.to_nat (zlen t)) m1 = Some t).
  { unfold zlen. rewrite Nat2Z.id. apply read_text_at. eapply text_at_ext; [|exact Hr]. intros q Hq.
    destruct (alloc_spec (AScratch a) (zlen t + 1) m) as (p' & m1' & E' & _ & A1 & A2); [done|pose proof (zlen_nonneg t); lia|].
    rewrite E in E'. injection E' as <- <-. symmetry. apply A2.
    destruct (text_at_some _ _ _ _ Hr Hq) as [c Hc].
    destruct (Z.lt_ge_cases q p); [by left|]. destruct (Z.lt_ge_cases q (p + (zlen t + 1))) as [Hlt|]; [|by right].
    destruct (A1 q ltac:(lia)) as [En _]. congruence. }
  rewrite Hrd. apply Span.text_at_app in P1 as P1'. destruct P1' as [Pt [Pz _]]. unfold Span.CStrSpanOfSize.
  destruct (Z.eqb_spec p 0); [lia|]. unfold zlen at 1. rewrite Pz. exists p, (put p t m1). split; [done|]. split; [by split|]. split; [exact Pz|].
  intros q Hq. by apply P3.
Qed.

(** The copy without a zero is given back as a C string: that succeeds only if
    a zero happens to be behind the new block, in memory the copy has not
    asked for. *)
Lemma MakeScratchStrCopy_needs_zero sp a t m r : Span.holds_span (mem m) sp t -> MakeScratchStrCopy sp a m = Some r ->
  m !! (Span.ptr_ (fst r) + zlen t) = Some c_nul.
Proof.
  intros [Hr Hsz]. unfold MakeScratchStrCopy. rewrite Hsz. change (Z.of_nat (length t)) with (zlen t).
  destruct (alloc_spec (AScratch a) (zlen t) m) as (p & m1 & -> & Hp & A1 & A2); [done|apply zlen_nonneg|].
  destruct (read_text _ _ m1) as [t'|] eqn:E; [|done]. unfold Span.CStrSpanOfSize. destruct (Z.eqb_spec p 0); [lia|].
  assert (El : zlen t' = zlen t) by (apply read_text_length in E; unfold zlen in *; lia).
  unfold mem at 1. rewrite write_text_other, A2 by lia. destruct (m !! (p + zlen t)) as [c|] eqn:Ez; [|done].
  destruct (Ascii.eqb_spec c c_nul) as [->|]; [|done]. intros [= <-]. exact Ez.
Qed.
End Specification.

(** ** An allocator and a string type *)

(** Behind everything that is in use; GNU's string. *)
Definition highest (m : Memory) : Z := map_fold (fun q _ acc => Z.max q acc) 0 m.

Lemma highest_bound m q : is_Some (m !! q) -> q <= highest m.
Proof.
  intros Hq. unfold highest. revert Hq.
  apply (map_fold_weak_ind (fun acc m => is_Some (m !! q) -> q <= acc)); [rewrite lookup_empty; by intros []|].
  intros k x n r _ IH. destruct (decide (k = q)) as [->|Hne]; [lia|]. rewrite lookup_insert_ne by done. intros Hq%IH. lia.
Qed.

Lemma highest_nonneg m : 0 <= highest m.
Proof. unfold highest. apply (map_fold_weak_ind (fun acc _ => 0 <= acc)); [done|]. intros. lia. Qed.

#[export] Instance DemoPlacement : Placement := {| place := fun _ _ m => highest m + 1; junk := fun _ => "x"%char |}.
#[export] Instance DemoPlacement_laws : PlacementLaws.
Proof.
  split. intros a n m. cbn [place DemoPlacement]. pose proof (highest_nonneg m). split; [lia|]. intros q Hq.
  destruct (m !! q) eqn:E; [|done]. pose proof (highest_bound m q ltac:(by rewrite E)). lia.
Qed.

#[export] Instance GnuString : StringImpl := {| local_capacity := 15; grow := fun c n => Z.max n (2 * c) |}.
#[export] Instance GnuString_laws : StringImplLaws.
Proof. split; cbn; lia. Qed.

(** A short text is in the object, a long one in a block. *)
Example two_strings :
  let m := write_text 100 (lit "an object database with expressions") (write_text 1 (lit "................................................") empty) in
  option_map (fun r => (data_ (fst r), text_of (fst r) (snd r))) (StrOfSpan 1 (Span.SpanOfSize 103 6) m) = Some (1, Some (lit "object")) /\
  option_map (fun r => (data_ (fst r), text_of (fst r) (snd r))) (StrOfSpan 1 (Span.SpanOfSize 103 20) m) = Some (135, Some (lit "object database with")).
Proof. vm_compute. split; reflexivity. Qed.
