(* ===== verification/Either.v ===== *)
(** [base/either.h] and [base/maybe.h]: the two-sided result and the optional
    value every other component reports its errors with, with the folding,
    mapping and joining combinators and the equations the clients rewrite
    with.  [Left] is the error side.  At the end the storage of the union. *)
From S2P Require Import Prelude.

(** source/base/either.h:11-20 [Either] *)
Inductive Either (L R : Type) : Type :=
| Left (l : L)
| Right (r : R).
Arguments Left {L R} l.
Arguments Right {L R} r.

#[export] Instance Either_eq_dec `{EqDecision L, EqDecision R} : EqDecision (Either L R).
Proof. solve_decision. Defined.

Section EitherOps.
  Context {L R : Type}.

(** source/base/either.h:203-206 [Either::IsLeft] *)
Definition IsLeft (e : Either L R) : bool :=
  match e with Left _ => true | Right _ => false end.

(** source/base/either.h:208-211 [Either::IsRight] *)
Definition IsRight (e : Either L R) : bool := negb (IsLeft e).

(** The accessors assert the side. *)
(** source/base/either.h:213-223 [Either::Left] *)
Definition EitherLeft (e : Either L R) : option L :=
  if IsLeft e then match e with Left l => Some l | Right _ => None end else None.

(** source/base/either.h:225-235 [Either::Right] *)
Definition EitherRight (e : Either L R) : option R :=
  if IsRight e then match e with Left _ => None | Right r => Some r end else None.

(** source/base/either.h:237-262 [Either::LeftOrDefault] *)
Definition LeftOrDefault (e : Either L R) (default_value : L) : L :=
  match e with Left l => l | Right _ => default_value end.

(** source/base/either.h:264-289 [Either::RightOrDefault] *)
Definition RightOrDefault (e : Either L R) (default_value : R) : R :=
  match e with Left _ => default_value | Right r => r end.

(** source/base/either.h:304-315 [Either::Fold] *)
Definition Fold {A} (e : Either L R) (left_func : L -> A) (right_func : R -> A) : A :=
  match e with Left l => left_func l | Right r => right_func r end.

(** source/base/either.h:317-325 [Either::FoldLeft] *)
Definition FoldLeft (e : Either L R) (fold_func : L -> R) : R :=
  match e with Left l => fold_func l | Right r => r end.

(** source/base/either.h:327-335 [Either::FoldRight] *)
Definition FoldRight (e : Either L R) (fold_func : R -> L) : L :=
  match e with Left l => l | Right r => fold_func r end.

(** source/base/either.h:337-345 [Either::MapLeft] *)
Definition MapLeft {L'} (e : Either L R) (left_func : L -> L') : Either L' R :=
  match e with Left l => Left (left_func l) | Right r => Right r end.

(** source/base/either.h:347-355 [Either::MapRight] *)
Definition MapRight {R'} (e : Either L R) (right_func : R -> R') : Either L R' :=
  match e with Left l => Left l | Right r => Right (right_func r) end.
End EitherOps.

(** source/base/either.h:357-364 [Either::JoinLeft] *)
Definition JoinLeft {L R} (e : Either (Either L R) R) : Either L R :=
  match e with Left l => l | Right r => Right r end.

(** source/base/either.h:366-373 [Either::JoinRight] *)
Definition JoinRight {L R} (e : Either L (Either L R)) : Either L R :=
  match e with Left l => Left l | Right r => r end.

(** * [Maybe] *)

(** source/base/maybe.h:119-122 [Maybe::HasValue] *)
Definition HasValue {A} (m : option A) : bool :=
  match m with Some _ => true | None => false end.

(** source/base/maybe.h:124-127 [Maybe::operator bool] *)
Definition MaybeBool {A} (m : option A) : bool := HasValue m.

(** Both pairs of accessors assert that there is a value. *)
(** source/base/maybe.h:129-151 [Maybe::Value, Maybe::Get] *)
Definition MaybeGet {A} (m : option A) : option A := if HasValue m then m else None.

(** source/base/maybe.h:153-178 [Maybe::GetOrDefault] *)
Definition GetOrDefault {A} (m : option A) (default_value : A) : A :=
  match m with Some v => v | None => default_value end.

(** source/base/maybe.h:180-188 [Maybe::Fold] *)
Definition MaybeFold {A} (m : option A) (fold_func : unit -> A) : A :=
  match m with Some v => v | None => fold_func tt end.

(** source/base/maybe.h:190-199 [Maybe::Map] *)
Definition MaybeMap {A B} (m : option A) (map_func : A -> B) : option B :=
  match m with Some v => Some (map_func v) | None => None end.

(** * Equations *)

Section EitherLaws.
  Context {L R : Type}.
  Implicit Types e : Either L R.

Lemma IsRight_spec e : IsRight e = true <-> exists r, e = Right r.
  Proof. destruct e; naive_solver. Qed.

(** An accessor fails no assertion exactly on its side. *)
Lemma accessors_spec e : (is_Some (EitherLeft e) <-> IsLeft e = true) /\ (is_Some (EitherRight e) <-> IsRight e = true).
  Proof. destruct e; cbn; split; split; try done; intros [? ?]; done. Qed.

Lemma MapRight_MapRight {A B} e (f : R -> A) (g : A -> B) :
    MapRight (MapRight e f) g = MapRight e (fun r => g (f r)).
  Proof. by destruct e. Qed.

Lemma MapLeft_Right {L'} e (f : L -> L') r : MapLeft e f = Right r <-> e = Right r.
  Proof. destruct e; naive_solver. Qed.

Lemma IsRight_MapLeft {L'} e (f : L -> L') : IsRight (MapLeft e f) = IsRight e.
  Proof. by destruct e. Qed.

  (** The chain [read().MapRight(write).JoinRight()] of the stream clients:
      right exactly when both steps are. *)
Lemma JoinRight_MapRight_Right {A} (e : Either L A) (f : A -> Either L R) r :
    JoinRight (MapRight e f) = Right r <-> exists a, e = Right a /\ f a = Right r.
  Proof. destruct e; naive_solver. Qed.

End EitherLaws.

#[export] Hint Rewrite @MapLeft_Right @IsRight_MapLeft @JoinRight_MapRight_Right : xynq_rw.

(** * The storage of an [Either]

    The object is a union with a flag.  Which member lives in it is what was
    constructed in it last; reading, assigning to or destroying a member that
    does not live there is undefined, [None].  Values are those of the types,
    whose own copies and moves are theirs. *)

Section UnionStorage.
  Context {L R : Type}.

(** The member that lives. *)
Inductive Member := MemberNone | MemberLeft (left_ : L) | MemberRight (right_ : R).

(** source/base/either.h:13-20 [Either] *)
Record EitherObject := MkEitherObject { member : Member; is_left_ : bool }.

(** The read of the member the flag says. *)
Definition read_either (o : EitherObject) : option (Either L R) :=
  match is_left_ o, member o with
  | true, MemberLeft l => Some (Left l)
  | false, MemberRight r => Some (Right r)
  | _, _ => None
  end.

(** source/base/either.h:145-167 [Either] *)
Definition EitherOfValue (v : Either L R) : EitherObject :=
  match v with Left l => MkEitherObject (MemberLeft l) true | Right r => MkEitherObject (MemberRight r) false end.

(** source/base/either.h:123-132 [Either] *)
Definition EitherCopy (rhs : EitherObject) : option EitherObject :=
  match is_left_ rhs, member rhs with
  | true, MemberLeft l => Some (MkEitherObject (MemberLeft l) (is_left_ rhs))
  | false, MemberRight r => Some (MkEitherObject (MemberRight r) (is_left_ rhs))
  | _, _ => None
  end.

(** source/base/either.h:169-177 [Either] *)
Definition EitherDestroy (o : EitherObject) : option Member :=
  match is_left_ o, member o with
  | true, MemberLeft _ | false, MemberRight _ => Some MemberNone
  | _, _ => None
  end.

(** The flag is taken over before the member is assigned to. *)
(** source/base/either.h:179-189 [operator=] *)
Definition EitherAssign (o rhs : EitherObject) : option EitherObject :=
  match is_left_ rhs, member o, member rhs with
  | true, MemberLeft _, MemberLeft l => Some (MkEitherObject (MemberLeft l) true)
  | false, MemberRight _, MemberRight r => Some (MkEitherObject (MemberRight r) false)
  | _, _, _ => None
  end.

(** What a move leaves behind is the types' affair; it is alive. *)
Context (left_behind_l : L -> L) (left_behind_r : R -> R).

Definition left_behind (o : EitherObject) : EitherObject :=
  MkEitherObject
    match member o with
    | MemberLeft l => MemberLeft (left_behind_l l)
    | MemberRight r => MemberRight (left_behind_r r)
    | MemberNone => MemberNone
    end (is_left_ o).

(** source/base/either.h:134-143 [Either] *)
Definition EitherMove (rhs : EitherObject) : option (EitherObject * EitherObject) :=
  option_map (fun o => (o, left_behind rhs)) (EitherCopy rhs).

(** source/base/either.h:191-201 [operator=] *)
Definition EitherMoveAssign (o rhs : EitherObject) : option (EitherObject * EitherObject) :=
  option_map (fun o => (o, left_behind rhs)) (EitherAssign o rhs).

(** The flag says which member lives. *)
Definition either_alive (o : EitherObject) : Prop := is_Some (read_either o).

(** Construction, copies, moves and destruction respect the lifetimes of the
    members, also of what was moved from; an assignment does exactly between
    objects on the same side. *)
Lemma either_storage_spec (v w : Either L R) :
  read_either (EitherOfValue v) = Some v /\
  EitherCopy (EitherOfValue v) = Some (EitherOfValue v) /\
  (exists rest, EitherMove (EitherOfValue v) = Some (EitherOfValue v, rest) /\ either_alive rest /\ EitherDestroy rest = Some MemberNone) /\
  EitherDestroy (EitherOfValue v) = Some MemberNone /\
  EitherAssign (EitherOfValue v) (EitherOfValue w) = (if Bool.eqb (IsLeft v) (IsLeft w) then Some (EitherOfValue w) else None) /\
  (is_Some (EitherMoveAssign (EitherOfValue v) (EitherOfValue w)) <-> IsLeft v = IsLeft w).
Proof.
  unfold either_alive.
  assert (Hmv : exists rest, EitherMove (EitherOfValue v) = Some (EitherOfValue v, rest) /\ is_Some (read_either rest) /\
    EitherDestroy rest = Some MemberNone) by (destruct v; (eexists; split; [done|]); split; by try eexists).
  split; [by destruct v|]. split; [by destruct v|]. split; [exact Hmv|]. split; [by destruct v|]. split; [by destruct v, w|].
  destruct v, w; cbn; split; try done; by intros [? ?].
Qed.
End UnionStorage.

(** * The storage of a [Maybe]

    Like that of an [Either], with a flag that never changes. *)

Section MaybeStorage.
  Context {A : Type} (left_behind : A -> A).

(** [value_] is the value if one lives in the union. *)
(** source/base/maybe.h:12-20 [Maybe] *)
Record MaybeObject := MkMaybe { value_ : option A; has_value_ : bool }.

(** source/base/maybe.h:66-69 [Maybe] *)
Definition MaybeNew : MaybeObject := MkMaybe None false.

(** source/base/maybe.h:89-99 [Maybe] *)
Definition MaybeOfValue (value : A) : MaybeObject := MkMaybe (Some value) true.

(** source/base/maybe.h:71-78 [Maybe] *)
Definition MaybeCopy (rhs : MaybeObject) : option MaybeObject :=
  if has_value_ rhs then option_map (fun v => MkMaybe (Some v) (has_value_ rhs)) (value_ rhs)
  else Some (MkMaybe None (has_value_ rhs)).

(** The other one keeps its flag and a value. *)
(** source/base/maybe.h:80-87 [Maybe] *)
Definition MaybeMove (rhs : MaybeObject) : option (MaybeObject * MaybeObject) :=
  option_map (fun m => (m, MkMaybe (option_map left_behind (value_ rhs)) (has_value_ rhs))) (MaybeCopy rhs).

(** source/base/maybe.h:101-106 [Maybe] *)
Definition MaybeDestroy (m : MaybeObject) : option (option A) :=
  if has_value_ m then option_map (fun _ => None) (value_ m) else Some (value_ m).

Definition MaybeObject_of (m : option A) : MaybeObject :=
  match m with Some v => MaybeOfValue v | None => MaybeNew end.

(** A value lives in it exactly if the flag says so. *)
Definition maybe_alive (m : MaybeObject) : Prop := has_value_ m = true <-> is_Some (value_ m).

(** No operation touches a value that is not there, and a destroyed object
    leaves none. *)
Lemma maybe_storage_spec (m : option A) :
  maybe_alive (MaybeObject_of m) /\ value_ (MaybeObject_of m) = m /\
  MaybeCopy (MaybeObject_of m) = Some (MaybeObject_of m) /\
  (exists rest, MaybeMove (MaybeObject_of m) = Some (MaybeObject_of m, rest) /\ maybe_alive rest /\ MaybeDestroy rest = Some None) /\
  MaybeDestroy (MaybeObject_of m) = Some None.
Proof.
  unfold maybe_alive. destruct m as [v|]; cbn.
  - split; [by split|]. split; [done|]. split; [done|]. split; [|done]. eexists. split; [done|]. by split.
  - split; [split; [done|by intros []]|]. split; [done|]. split; [done|]. split; [|done]. eexists. split; [done|].
    split; [split; [done|by intros []]|done].
Qed.
End MaybeStorage.
