(* ===== verification/Allocator.v ===== *)
(** [base/arena.h], [base/scratch_allocator.h/.cc]: the grow-only allocator
    configurations, programs and lexers take their memory from.

    Arenas are listed in the order of their [next] pointers; the current one is
    an index into the list.  [real] is the allocator behind: the address it
    gives for an alignment and a size, depending on the arenas that exist. *)
From S2P Require Import Prelude.
Local Open Scope Z_scope.

(** source/base/allocator.h:80-83 [AlignPointer] *)
Definition AlignPointer (ptr alignment : Z) : Z := align_bits ptr alignment.

(** source/base/allocator.h:85-87 [IsValidAlignment] *)
Definition IsValidAlignment (alignment : Z) : bool := Z.land alignment (u64 (alignment - 1)) =? 0.

(** source/base/arena.h:8-48 [Arena] *)
Record Arena := MkArena { bytes_ : Z; bytes_end_ : Z }.

(** source/base/arena.h:16-16 [Arena::Size] *)
Definition ArenaSize (a : Arena) : Z := bytes_end_ a - bytes_ a.

(** source/base/scratch_allocator.h:45-50 [ScratchAllocator] *)
Record ScratchAllocator := MkScratch {
  arenas_ : list Arena;
  cur_arena_ : nat;
  cur_ptr_ : Z;
  total_size_ : Z
}.

(** [alignof(max_align_t)]. *)
Definition max_align : Z := 16.

Section Scratch.
  Context (real : list Arena -> Z -> Z -> Z).

(** source/base/arena.h:18-28 [Arena::Create] *)
Definition ArenaCreate (arenas : list Arena) (size alignment : Z) : Arena :=
  let bytes := real arenas alignment size in MkArena bytes (bytes + size).

(** With nothing reserved there is no current arena, and no allocation. *)
(** source/base/scratch_allocator.cc:7-16 [ScratchAllocator::ScratchAllocator] *)
Definition ScratchNew (reserve_size : Z) : option ScratchAllocator :=
  if 0 <? reserve_size then
    let a := ArenaCreate [] reserve_size max_align in
    Some (MkScratch [a] 0 (bytes_ a) (ArenaSize a))
  else None.

(** The arena and aligned address to use, starting in arena [a], number [i],
    with [rest] behind it; [None] in the first place when a new arena is
    needed. *)
(** source/base/scratch_allocator.cc:44-59 [ScratchAllocator::AllocAligned] *)
Fixpoint find_room (alignment size : Z) (a : Arena) (i : nat) (rest : list Arena) (ptr_aligned : Z) : option (nat * Z) :=
  if bytes_end_ a <? ptr_aligned + size then
    match rest with
    | [] => None
    | a' :: rest' => find_room alignment size a' (S i) rest' (AlignPointer (bytes_ a') alignment)
    end
  else Some (i, ptr_aligned).

(** source/base/scratch_allocator.cc:39-64 [ScratchAllocator::AllocAligned] *)
Definition AllocAligned (alignment size : Z) (s : ScratchAllocator) : option (Z * ScratchAllocator) :=
  match IsValidAlignment alignment, drop (cur_arena_ s) (arenas_ s) with
  | true, a :: rest =>
      match find_room alignment size a (cur_arena_ s) rest (AlignPointer (cur_ptr_ s) alignment) with
      | Some (i, ptr_aligned) =>
          Some (ptr_aligned, MkScratch (arenas_ s) i (ptr_aligned + size) (total_size_ s))
      | None =>
          let new := ArenaCreate (arenas_ s) (Z.max (total_size_ s * 2) size) alignment in
          let ptr_aligned := bytes_ new in
          Some (ptr_aligned,
                MkScratch (arenas_ s ++ [new]) (length (arenas_ s)) (ptr_aligned + size)
                  (total_size_ s + ArenaSize new))
      end
  | _, _ => None
  end.

(** source/base/scratch_allocator.cc:35-37 [ScratchAllocator::Alloc] *)
Definition Alloc (size : Z) (s : ScratchAllocator) : option (Z * ScratchAllocator) := AllocAligned max_align size s.

(** source/base/scratch_allocator.cc:71-74 [ScratchAllocator::Purge] *)
Definition Purge (s : ScratchAllocator) : option ScratchAllocator :=
  match arenas_ s with
  | [] => None
  | a :: _ => Some (MkScratch (arenas_ s) 0 (bytes_ a) (total_size_ s))
  end.

(** [handler] allocates; afterwards the position is what it was. *)
(** source/base/scratch_allocator.h:53-61 [ScratchAllocator::Scoped] *)
Definition Scoped (handler : ScratchAllocator -> ScratchAllocator) (s : ScratchAllocator) : ScratchAllocator :=
  let s' := handler s in MkScratch (arenas_ s') (cur_arena_ s) (cur_ptr_ s) (total_size_ s').

(** source/base/scratch_allocator.cc:76-86 [ScratchAllocator::SizeAllocated] *)
Definition SizeAllocated (s : ScratchAllocator) : option Z :=
  match arenas_ s !! cur_arena_ s with
  | None => None
  | Some a => Some (foldr (fun a sz => ArenaSize a + sz) 0 (take (cur_arena_ s) (arenas_ s)) + (cur_ptr_ s - bytes_ a))
  end.

(** * Invariant *)

(** What is documented of the allocator behind: aligned blocks of the address
    space, away from the live ones. *)
Definition apart (a b : Arena) : Prop := bytes_end_ a <= bytes_ b \/ bytes_end_ b <= bytes_ a.

Definition real_ok : Prop := forall arenas k size,
  0 <= k <= 12 -> 0 <= size ->
  let b := real arenas (2 ^ k) size in
  0 < b /\ (2 ^ k | b) /\ Forall (fun a => apart a (MkArena b (b + size))) arenas.

Definition in_space (a : Arena) : Prop := 0 < bytes_ a /\ bytes_ a <= bytes_end_ a.

Record scratch_ok (s : ScratchAllocator) : Prop := {
  so_space : Forall in_space (arenas_ s);
  so_apart : forall i j a b, (i < j)%nat -> arenas_ s !! i = Some a -> arenas_ s !! j = Some b -> apart a b;
  so_cur : exists a, arenas_ s !! cur_arena_ s = Some a /\ bytes_ a <= cur_ptr_ s <= bytes_end_ a;
  so_total : 0 <= total_size_ s
}.

(** The addresses handed out already: the arenas before the current one and
    the beginning of the current one. *)
Definition used (s : ScratchAllocator) (x : Z) : Prop :=
  exists i a, arenas_ s !! i = Some a /\
    ((i < cur_arena_ s)%nat /\ bytes_ a <= x < bytes_end_ a \/
     i = cur_arena_ s /\ bytes_ a <= x < cur_ptr_ s).

(** Addresses stay below [2^63]. *)
Definition roomy (s : ScratchAllocator) : Prop :=
  cur_ptr_ s < 2 ^ 63 /\ Forall (fun a => bytes_end_ a < 2 ^ 63) (arenas_ s).

Lemma pow_12 k : 0 <= k <= 12 -> 1 <= 2 ^ k <= 4096.
Proof. intros Hk. pose proof (Z.pow_le_mono_r 2 k 12). pose proof (Z.pow_le_mono_r 2 0 k). lia. Qed.

Lemma find_room_spec k size a i rest p j q :
  0 <= k <= 12 -> 0 <= size ->
  Forall (fun a => 0 < bytes_ a < 2 ^ 63) rest -> (2 ^ k | p) ->
  find_room (2 ^ k) size a i rest p = Some (j, q) ->
  (2 ^ k | q) /\
  ((j = i /\ q = p /\ q + size <= bytes_end_ a) \/
   exists n a', j = (S i + n)%nat /\ rest !! n = Some a' /\ bytes_ a' <= q /\ q + size <= bytes_end_ a').
Proof.
  intros Hk Hs. pose proof (pow_12 k Hk) as Hp. assert (H63 : 2 ^ 63 + 4096 < 2 ^ 64) by done.
  revert a i p. induction rest as [|a' rest IH]; intros a i p Hr Hd; cbn [find_room];
    destruct (Z.ltb_spec (bytes_end_ a) (p + size)).
  - done.
  - intros [= <- <-]. split; [done|]. by left.
  - intros E. inversion Hr as [|? ? Ha Hr']; subst.
    destruct (align_bits_spec (bytes_ a') k ltac:(lia) ltac:(lia) ltac:(lia)) as [Hd' Hle].
    destruct (IH a' (S i) (AlignPointer (bytes_ a') (2 ^ k)) Hr' Hd' E) as [G1 G2]. split; [done|]. right.
    destruct G2 as [(-> & -> & G)|(n & a2 & -> & H1 & H2 & H3)].
    + exists 0%nat, a'. split; [lia|]. split; [done|]. unfold AlignPointer in *. lia.
    + exists (S n), a2. split; [lia|]. done.
  - intros [= <- <-]. split; [done|]. by left.
Qed.

Lemma IsValidAlignment_pow2 k : 0 <= k <= 12 -> IsValidAlignment (2 ^ k) = true.
Proof.
  assert (Hn : forall n, (n <= 12)%nat -> IsValidAlignment (2 ^ Z.of_nat n) = true).
  { intros n Hn. do 13 (destruct n as [|n]; [reflexivity|]). lia. }
  intros Hk. rewrite <- (Z2Nat.id k) by lia. apply Hn. lia.
Qed.

(** What one allocation promises: the block is aligned, nothing of it was
    handed out before, all of it is handed out now, and nothing is taken back. *)
Definition allocated (k size : Z) (s : ScratchAllocator) (p : Z) (s' : ScratchAllocator) : Prop :=
  scratch_ok s' /\ (2 ^ k | p) /\ (forall x, p <= x < p + size -> used s' x /\ ~ used s x) /\ (forall x, used s x -> used s' x).

(** In an arena that is there. *)
Lemma allocated_in_arena k size s j b q :
  0 <= size -> scratch_ok s -> (2 ^ k | q) -> arenas_ s !! j = Some b -> (cur_arena_ s <= j)%nat -> bytes_ b <= q ->
  q + size <= bytes_end_ b -> (j = cur_arena_ s -> cur_ptr_ s <= q) ->
  allocated k size s q (MkScratch (arenas_ s) j (q + size) (total_size_ s)).
Proof.
  intros Hs [Hsp Hap (a & Ha & Hcur) Htot] Hd Hb Hij H1 H2 H3. split; [|split; [done|split]].
  - split; cbn; [done|done| |done]. exists b. split; [done|lia].
  - intros x Hx. split; [exists j, b; split; [done|]; right; cbn; split; [done|lia]|].
    intros (i & c & Hi & Hu). destruct (decide (i = j)) as [->|Hne].
    { rewrite Hb in Hi. injection Hi as <-. destruct Hu as [[? _]|[-> ?]]; [lia|]. specialize (H3 eq_refl). lia. }
    assert (Hlt : (i < j)%nat) by (destruct Hu as [[? _]|[-> _]]; lia).
    pose proof (Hap i j c b Hlt Hi Hb) as Hx2.
    destruct Hu as [[_ ?]|[-> ?]]; [destruct Hx2; lia|]. rewrite Ha in Hi. injection Hi as <-. destruct Hx2; lia.
  - intros x (i & c & Hi & Hu). exists i, c. split; [done|]. cbn.
    destruct Hu as [[? ?]|[-> ?]]; [left; split; [lia|done]|].
    rewrite Ha in Hi. injection Hi as <-.
    destruct (decide (j = cur_arena_ s)) as [->|]; [right; specialize (H3 eq_refl); split; [done|lia]|left; split; lia].
Qed.

(** In a new arena. *)
Lemma allocated_in_new k size s sz :
  real_ok -> 0 <= k <= 12 -> 0 <= size <= sz -> scratch_ok s ->
  let new := ArenaCreate (arenas_ s) sz (2 ^ k) in
  allocated k size s (bytes_ new)
    (MkScratch (arenas_ s ++ [new]) (length (arenas_ s)) (bytes_ new + size) (total_size_ s + ArenaSize new)).
Proof.
  intros Hreal Hk Hsz [Hsp Hap (a & Ha & Hcur) Htot] new. destruct (Hreal (arenas_ s) k sz Hk ltac:(lia)) as (Hb0 & Hbd & Hbap).
  assert (Hnew : bytes_ new = real (arenas_ s) (2 ^ k) sz /\ bytes_end_ new = bytes_ new + sz) by done. destruct Hnew as [Hn1 Hn2].
  assert (Hlast : (arenas_ s ++ [new]) !! length (arenas_ s) = Some new) by (by rewrite lookup_app_r, Nat.sub_diag by lia).
  assert (Hold : forall i c, arenas_ s !! i = Some c -> apart c new) by (intros i c Hi; exact (Forall_lookup_1 _ _ _ _ Hbap Hi)).
  assert (Hlen : (cur_arena_ s < length (arenas_ s))%nat) by (by apply lookup_lt_Some in Ha).
  split; [|split; [by rewrite Hn1|split]].
  - split; cbn.
    + apply Forall_app. split; [done|]. constructor; [split; lia|done].
    + intros i j c d Hij. rewrite !lookup_app_Some. intros [Hi|[Hi1 Hi2]] [Hj|[Hj1 Hj2]].
      * by apply (Hap i j).
      * destruct (j - length (arenas_ s))%nat; [|done]. injection Hj2 as <-. by apply (Hold i).
      * apply lookup_lt_Some in Hj. lia.
      * apply lookup_lt_Some in Hi2, Hj2. cbn in Hi2, Hj2. lia.
    + exists new. split; [done|lia].
    + unfold ArenaSize. lia.
  - intros x Hx. split; [exists (length (arenas_ s)), new; split; [done|]; right; cbn; split; [done|lia]|].
    intros (i & c & Hi & Hu). pose proof (Hold i c Hi) as [?|?]; destruct Hu as [[_ ?]|[-> ?]]; try lia;
      rewrite Ha in Hi; injection Hi as <-; lia.
  - intros x (i & c & Hi & Hu). exists i, c. split; [cbn; by apply lookup_app_l_Some|]. cbn. left.
    pose proof (lookup_lt_Some _ _ _ Hi). destruct Hu as [[? ?]|[-> ?]]; [split; [lia|done]|].
    rewrite Ha in Hi. injection Hi as <-. split; lia.
Qed.

Lemma AllocAligned_spec k size s :
  real_ok -> 0 <= k <= 12 -> 0 <= size -> scratch_ok s -> roomy s ->
  exists p s', AllocAligned (2 ^ k) size s = Some (p, s') /\ allocated k size s p s'.
Proof.
  intros Hreal Hk Hs Hok [Hc63 H63]. pose proof Hok as [Hsp Hap (a & Ha & Hcur) Htot].
  pose proof (pow_12 k Hk) as Hp. assert (G63 : 2 ^ 63 + 4096 < 2 ^ 64) by done.
  unfold AllocAligned. rewrite IsValidAlignment_pow2, (drop_S _ _ _ Ha) by done. pose proof (Forall_lookup_1 _ _ _ _ Hsp Ha) as [Ha0 Ha1].
  destruct (align_bits_spec (cur_ptr_ s) k ltac:(lia) ltac:(lia) ltac:(lia)) as [Hd Hle].
  destruct (find_room _ _ _ _ _ _) as [[j q]|] eqn:E.
  - eapply find_room_spec in E; [|done|done| |exact Hd].
    2: { apply Forall_drop, List.Forall_forall. intros b Hb. rewrite List.Forall_forall in Hsp, H63.
         destruct (Hsp b Hb). specialize (H63 b Hb). lia. }
    destruct E as [Hdq E]. eexists q, _. split; [done|]. destruct E as [(-> & -> & Hq)|(n & b & -> & Hb & H1 & H2)].
    + unfold AlignPointer in *. apply (allocated_in_arena k size s (cur_arena_ s) a); try done; lia.
    + rewrite lookup_drop in Hb. apply (allocated_in_arena k size s (S (cur_arena_ s) + n) b); try done; lia.
  - eexists _, _. split; [done|]. apply allocated_in_new; try done. lia.
Qed.

(** A sequence of allocations: alignment exponent and size of each. *)
Fixpoint alloc_all (reqs : list (Z * Z)) (s : ScratchAllocator) : option (list Arena * ScratchAllocator) :=
  match reqs with
  | [] => Some ([], s)
  | (k, size) :: reqs' =>
      match AllocAligned (2 ^ k) size s with
      | None => None
      | Some (p, s1) => option_map (fun r => (MkArena p (p + size) :: fst r, snd r)) (alloc_all reqs' s1)
      end
  end.

(** Alignments up to a page, and addresses below [2^63] all along. *)
Definition roomyb (s : ScratchAllocator) : bool :=
  (cur_ptr_ s <? 2 ^ 63) && forallb (fun a => bytes_end_ a <? 2 ^ 63) (arenas_ s).

Fixpoint roomy_along (reqs : list (Z * Z)) (s : ScratchAllocator) : bool :=
  match reqs with
  | [] => true
  | (k, size) :: reqs' =>
      (0 <=? k) && (k <=? 12) && (0 <? size) && roomyb s &&
      match AllocAligned (2 ^ k) size s with Some (_, s1) => roomy_along reqs' s1 | None => true end
  end.

Lemma roomyb_spec s : roomyb s = true -> roomy s.
Proof.
  unfold roomyb. intros. bool_hyps. split; [done|]. apply List.Forall_forall. intros a Ha.
  match goal with H : forallb _ _ = true |- _ => rewrite forallb_forall in H; specialize (H a Ha) end. by bool_hyps.
Qed.

Lemma ScratchNew_ok size : real_ok -> 0 < size -> exists s, ScratchNew size = Some s /\ scratch_ok s.
Proof.
  intros Hr Hs. unfold ScratchNew. destruct (Z.ltb_spec 0 size); [|lia]. eexists. split; [done|].
  destruct (Hr [] 4 size ltac:(lia) ltac:(lia)) as (H1 & _ & _). change (2 ^ 4) with max_align in H1.
  set (a := ArenaCreate [] size max_align). assert (Ha : bytes_end_ a = bytes_ a + size /\ 0 < bytes_ a) by done.
  split; cbn.
  - constructor; [split; lia|done].
  - intros i j b c Hij Hi Hj. destruct j as [|j]; [lia|]. done.
  - exists a. split; [done|]. change (bytes_ a <= bytes_ a <= bytes_end_ a). lia.
  - change (0 <= bytes_end_ a - bytes_ a). lia.
Qed.

Lemma alloc_all_spec reqs s :
  real_ok -> scratch_ok s -> roomy_along reqs s = true ->
  exists blocks s', alloc_all reqs s = Some (blocks, s') /\ scratch_ok s' /\ length blocks = length reqs /\
    (forall x, used s x -> used s' x) /\
    (forall i b k size, blocks !! i = Some b -> reqs !! i = Some (k, size) ->
       bytes_end_ b = bytes_ b + size /\ (2 ^ k | bytes_ b) /\
       forall x, bytes_ b <= x < bytes_end_ b -> used s' x /\ ~ used s x) /\
    (forall i j b c, (i < j)%nat -> blocks !! i = Some b -> blocks !! j = Some c ->
       forall x, bytes_ b <= x < bytes_end_ b -> ~ (bytes_ c <= x < bytes_end_ c)).
Proof.
  intros Hr. revert s. induction reqs as [|[k size] reqs IH]; intros s Hs Hroom; cbn [alloc_all roomy_along] in *.
  { exists [], s. by split_and!. }
  bool_hyps. rename H0 into Hrest. assert (Hk : 0 <= k <= 12) by lia. pose proof (roomyb_spec s ltac:(done)) as Hro.
  destruct (AllocAligned_spec k size s Hr Hk ltac:(lia) Hs Hro) as (p & s1 & E & Hs1 & Hd & Hnew & Hmono).
  rewrite E in Hrest |- *. destruct (IH s1 Hs1 Hrest) as (bl & s2 & -> & Hs2 & Hlen & Hm2 & Hb & Hdis).
  eexists (_ :: bl), s2. split; [done|]. split; [done|]. split; [cbn; lia|]. split; [auto|]. split.
  - intros [|i] b k' size' Hi Hq; cbn in Hi, Hq.
    + injection Hi as <-. injection Hq as <- <-. cbn. split; [done|]. split; [done|].
      intros x Hx. destruct (Hnew x Hx). auto.
    + destruct (Hb i b k' size' Hi Hq) as (G1 & G2 & G3). split; [done|]. split; [done|].
      intros x Hx. destruct (G3 x Hx) as [? Hn]. auto.
  - intros [|i] [|j] b c Hij Hi Hj; [lia| |lia|].
    + cbn in Hi, Hj. injection Hi as <-. cbn. intros x Hx Hc.
      destruct (lookup_lt_is_Some_2 reqs j) as [[k' size'] Hq]; [by rewrite <- Hlen; apply lookup_lt_Some in Hj|].
      destruct (Hb j c k' size' Hj Hq) as (_ & _ & G3). destruct (G3 x Hc) as [_ Hn]. apply Hn. by apply Hnew.
    + cbn in Hi, Hj. by apply (Hdis i j b c ltac:(lia) Hi Hj).
Qed.
End Scratch.

(** * Properties *)

(** C26. The scratch allocator hands out separate blocks: any sequence of
    allocations, of any sizes and power-of-two alignments, from a fresh
    allocator succeeds, every block is aligned and of the requested size, and
    no two blocks overlap, however the arenas are chained.  This needs only
    that the allocator behind gives aligned memory away from what it gave
    before. *)
Theorem scratch_blocks_disjoint (real : list Arena -> Z -> Z -> Z) reserve reqs :
  real_ok real -> 0 < reserve ->
  (forall s, ScratchNew real reserve = Some s -> roomy_along real reqs s = true) ->
  exists s blocks s', ScratchNew real reserve = Some s /\ alloc_all real reqs s = Some (blocks, s') /\
    length blocks = length reqs /\
    (forall i b k size, blocks !! i = Some b -> reqs !! i = Some (k, size) ->
       bytes_end_ b = bytes_ b + size /\ (2 ^ k | bytes_ b)) /\
    (forall i j b c, (i < j)%nat -> blocks !! i = Some b -> blocks !! j = Some c ->
       forall x, bytes_ b <= x < bytes_end_ b -> ~ (bytes_ c <= x < bytes_end_ c)).
Proof.
  intros Hr H0 Hroom. destruct (ScratchNew_ok real reserve Hr H0) as (s & E & Hs).
  destruct (alloc_all_spec real reqs s Hr Hs (Hroom s E)) as (bl & s' & E' & _ & Hlen & _ & Hb & Hd).
  exists s, bl, s'. split; [done|]. split; [done|]. split; [done|]. split; [|done].
  intros i b k size Hi Hq. by destruct (Hb i b k size Hi Hq) as (? & ? & _).
Qed.

(** A bump allocator behind: the next multiple of the alignment above
    everything. *)
Definition bump_real (arenas : list Arena) (alignment size : Z) : Z :=
  let top := foldr (fun a m => Z.max (bytes_end_ a) m) 0 arenas in
  (top / alignment + 1) * alignment.

Lemma bump_real_ok : real_ok bump_real.
Proof.
  intros arenas k size Hk Hs b. pose proof (pow_12 k Hk) as Hp.
  set (top := foldr (fun a m => Z.max (bytes_end_ a) m) 0 arenas) in *.
  assert (Ht : 0 <= top /\ Forall (fun a => bytes_end_ a <= top) arenas).
  { unfold top. clear. induction arenas as [|a l [IH1 IH2]]; cbn; [split; [lia|constructor]|].
    split; [lia|]. constructor; [lia|]. eapply Forall_impl; [|exact IH2]. cbn. intros. lia. }
  destruct Ht as [Ht0 Ht]. assert (Hb : top < b).
  { unfold b, bump_real. fold top. pose proof (Z.div_mod top (2 ^ k) ltac:(lia)).
    pose proof (Z.mod_pos_bound top (2 ^ k) ltac:(lia)). lia. }
  split; [lia|]. split; [by eexists|]. eapply Forall_impl; [|exact Ht]. intros a Ha. left. change (bytes_end_ a <= b). cbv beta in Ha. lia.
Qed.

Definition demo_reqs : list (Z * Z) := [(4, 10); (0, 3); (3, 100); (4, 40)].

Lemma scratch_blocks_disjoint_witness :
  exists s blocks s', ScratchNew bump_real 64 = Some s /\ alloc_all bump_real demo_reqs s = Some (blocks, s') /\
    length blocks = 4%nat /\ length (arenas_ s') = 3%nat.
Proof.
  destruct (scratch_blocks_disjoint bump_real 64 demo_reqs bump_real_ok) as (s & bl & s' & E & E' & Hl & _).
  - lia.
  - intros s [= <-]. vm_compute. reflexivity.
  - exists s, bl, s'. split; [exact E|]. split; [exact E'|]. split; [exact Hl|].
    injection E as <-. revert E'. vm_compute. intros [= _ <-]. reflexivity.
Defined.
