(* ===== verification/ScratchMem.v ===== *)
(** The memory of scratch allocators ([base/arena.h],
    [base/scratch_allocator.h/.cc], [base/allocator.h]): arenas are objects the
    allocator behind gave the memory for, linked by their [next] pointers, and
    allocators are values that are made, moved, swapped and destroyed.
    [Allocator] says where the blocks lie that one allocator hands out; here
    is who owns the arenas and who frees them.

    The heap behind is a parameter.  Freeing what is not a live block, or
    reading an arena that is gone, is undefined: [None]. *)
From S2P Require Import Prelude.
From S2P Require Allocator.
Local Open Scope Z_scope.

(** The heap behind: addresses for an alignment and a size, and the addresses
    of the live blocks. *)
Class Heap (H : Type) := {
  heap_alloc : Z -> Z -> H -> Z * H;
  heap_free : Z -> H -> H;
  blocks : H -> gset Z
}.

(** An allocation gives a block that was not live, and frees nothing; memory
    does not run out.  Freeing a live block frees that block. *)
Class HeapLaws (H : Type) `{Heap H} : Prop := {
  alloc_fresh : forall alignment size h p h', heap_alloc alignment size h = (p, h') ->
    0 < p /\ p ∉ blocks h /\ blocks h' = {[p]} ∪ blocks h;
  free_live : forall p h, p ∈ blocks h -> blocks (heap_free p h) = blocks h ∖ {[p]}
}.

Definition max_align : Z := 16.
Definition sizeof_Arena : Z := 32.

Section Operations.
  Context {H : Type} `{Heap H}.

(** [allocator] is a pointer that is set or null. *)
(** source/base/arena.h:8-12 [Arena] *)
Record Arena := MkArena { allocator : bool; next : option Z; bytes_ : Z; bytes_end_ : Z }.

(** source/base/arena.h:16-16 [Arena::Size] *)
Definition ArenaSize (a : Arena) : Z := bytes_end_ a - bytes_ a.

Record Memory := MkMemory { heap : H; arenas : gmap Z Arena }.

Definition Free (p : Z) (h : H) : option H := if decide (p ∈ blocks h) then Some (heap_free p h) else None.

(** source/base/arena.h:18-28 [Arena::Create] *)
Definition ArenaCreate (alloc_set : bool) (size alignment : Z) (m : Memory) : option (Z * Memory) :=
  if Allocator.IsValidAlignment alignment && alloc_set then
    let '(data, h) := heap_alloc max_align sizeof_Arena (heap m) in
    let '(bytes, h) := heap_alloc alignment size h in
    Some (data, MkMemory h (<[data := MkArena alloc_set None bytes (bytes + size)]> (arenas m)))
  else None.

(** source/base/arena.h:30-41 [Arena::Destroy] *)
Fixpoint ArenaDestroy (fuel : nat) (cur : option Z) (m : Memory) : option Memory :=
  match cur with
  | None => Some m
  | Some p =>
      match fuel, arenas m !! p with
      | S fuel, Some a =>
          if allocator a then
            match Free (bytes_ a) (heap m) ≫= Free p with
            | None => None
            | Some h => ArenaDestroy fuel (next a) (MkMemory h (delete p (arenas m)))
            end
          else None
      | _, _ => None
      end
  end.

(** source/base/scratch_allocator.h:45-50 [ScratchAllocator] *)
Record ScratchAllocator := MkScratch {
  real_allocator_ : bool;
  head_arena_ : option Z;
  cur_arena_ : option Z;
  cur_ptr_ : option Z;
  total_size_ : Z
}.

(** The initial values of the members. *)
Definition scratch_defaults : ScratchAllocator := MkScratch false None None None 0.

(** source/base/scratch_allocator.cc:7-16 [ScratchAllocator::ScratchAllocator] *)
Definition ScratchNew (reserve_size : Z) (m : Memory) : option (ScratchAllocator * Memory) :=
  if 0 <? reserve_size then
    match ArenaCreate true reserve_size max_align m with
    | None => None
    | Some (p, m) =>
        option_map (fun a => (MkScratch true (Some p) (Some p) (Some (bytes_ a)) (ArenaSize a), m)) (arenas m !! p)
    end
  else Some (MkScratch true None None None 0, m).

(** The members are swapped: the new value of each of the two. *)
(** source/base/scratch_allocator.cc:22-29 [ScratchAllocator::operator=] *)
Definition ScratchAssign (this other : ScratchAllocator) : ScratchAllocator * ScratchAllocator :=
  (MkScratch (real_allocator_ other) (head_arena_ other) (cur_arena_ other) (cur_ptr_ other) (total_size_ other),
   MkScratch (real_allocator_ this) (head_arena_ this) (cur_arena_ this) (cur_ptr_ this) (total_size_ this)).

(** source/base/scratch_allocator.cc:18-20 [ScratchAllocator::ScratchAllocator] *)
Definition ScratchMove (other : ScratchAllocator) : ScratchAllocator * ScratchAllocator := ScratchAssign scratch_defaults other.

(** source/base/scratch_allocator.cc:31-33 [ScratchAllocator::~ScratchAllocator] *)
Definition ScratchDestroy (fuel : nat) (s : ScratchAllocator) (m : Memory) : option Memory := ArenaDestroy fuel (head_arena_ s) m.

(** From the arena [cur] with the aligned address in it to the arena and the
    address of the block. *)
(** source/base/scratch_allocator.cc:43-59 [ScratchAllocator::AllocAligned] *)
Fixpoint FindRoom (fuel : nat) (alignment size : Z) (s : ScratchAllocator) (cur ptr_aligned : Z) (m : Memory) :
    option (Z * Z * Z * Memory) :=
  match arenas m !! cur with
  | None => None
  | Some a =>
      if bytes_end_ a <? ptr_aligned + size then
        match next a with
        | None =>
            match ArenaCreate (real_allocator_ s) (Z.max (total_size_ s * 2) size) alignment m with
            | None => None
            | Some (p, m) =>
                let m := MkMemory (heap m) (<[cur := MkArena (allocator a) (Some p) (bytes_ a) (bytes_end_ a)]> (arenas m)) in
                option_map (fun new => (p, bytes_ new, total_size_ s + ArenaSize new, m)) (arenas m !! p)
            end
        | Some p =>
            match fuel, arenas m !! p with
            | S fuel, Some a' => FindRoom fuel alignment size s p (Allocator.AlignPointer (bytes_ a') alignment) m
            | _, _ => None
            end
        end
      else Some (cur, ptr_aligned, total_size_ s, m)
  end.

(** source/base/scratch_allocator.cc:39-64 [ScratchAllocator::AllocAligned] *)
Definition AllocAligned (fuel : nat) (alignment size : Z) (s : ScratchAllocator) (m : Memory) :
    option (Z * ScratchAllocator * Memory) :=
  match Allocator.IsValidAlignment alignment, cur_ptr_ s, cur_arena_ s with
  | true, Some ptr, Some cur =>
      match FindRoom fuel alignment size s cur (Allocator.AlignPointer ptr alignment) m with
      | None => None
      | Some (cur, ptr_aligned, total, m) =>
          match arenas m !! cur with
          | Some a =>
              if ptr_aligned + size <=? bytes_end_ a then
                Some (ptr_aligned, MkScratch (real_allocator_ s) (head_arena_ s) (Some cur) (Some (ptr_aligned + size)) total, m)
              else None
          | None => None
          end
      end
  | _, _, _ => None
  end.

(** source/base/scratch_allocator.cc:35-37 [ScratchAllocator::Alloc] *)
Definition Alloc (fuel : nat) (size : Z) (s : ScratchAllocator) (m : Memory) := AllocAligned fuel max_align size s m.

(** source/base/scratch_allocator.cc:66-69 [ScratchAllocator::Free] *)
Definition ScratchFree (mem : Z) (s : ScratchAllocator) : ScratchAllocator := s.

(** source/base/scratch_allocator.cc:71-74 [ScratchAllocator::Purge] *)
Definition Purge (s : ScratchAllocator) (m : Memory) : option ScratchAllocator :=
  match head_arena_ s ≫= fun p => arenas m !! p with
  | Some a => Some (MkScratch (real_allocator_ s) (head_arena_ s) (head_arena_ s) (Some (bytes_ a)) (total_size_ s))
  | None => None
  end.

(** source/base/scratch_allocator.h:52-61 [ScratchAllocator::Scoped] *)
Definition Scoped (handler : ScratchAllocator -> Memory -> option (ScratchAllocator * Memory)) (s : ScratchAllocator) (m : Memory) :
    option (ScratchAllocator * Memory) :=
  option_map (fun r => (MkScratch (real_allocator_ (fst r)) (head_arena_ (fst r)) (cur_arena_ s) (cur_ptr_ s) (total_size_ (fst r)), snd r))
    (handler s m).

(** * Allocators and what is done with them *)

(** [CmScoped] runs a handler that allocates blocks, given by alignment and
    size. *)
Inductive Command :=
| CmNew (reserve_size : Z) | CmAlloc (i : nat) (alignment size : Z) | CmPurge (i : nat)
| CmScoped (i : nat) (requests : list (Z * Z)) | CmMove (i : nat) | CmAssign (i j : nat) | CmDestroy (i : nat).

Fixpoint AllocAll (fuel : nat) (requests : list (Z * Z)) (s : ScratchAllocator) (m : Memory) : option (ScratchAllocator * Memory) :=
  match requests with
  | [] => Some (s, m)
  | (alignment, size) :: requests' =>
      match AllocAligned fuel alignment size s m with
      | Some (_, s, m) => AllocAll fuel requests' s m
      | None => None
      end
  end.

(** The allocators made so far, [None] for one that was destroyed. *)
Record Program := MkProgram { scratches : list (option ScratchAllocator); memory : Memory }.

Definition scratch_at (i : nat) (p : Program) : option ScratchAllocator := scratches p !! i ≫= id.
Definition set_scratch (i : nat) (s : option ScratchAllocator) (p : Program) (m : Memory) : Program :=
  MkProgram (<[i := s]> (scratches p)) m.

Definition exec (fuel : nat) (c : Command) (p : Program) : option Program :=
  match c with
  | CmNew reserve_size =>
      option_map (fun r => MkProgram (scratches p ++ [Some (fst r)]) (snd r)) (ScratchNew reserve_size (memory p))
  | CmAlloc i alignment size =>
      match scratch_at i p with
      | Some s => option_map (fun r => set_scratch i (Some (snd (fst r))) p (snd r)) (AllocAligned fuel alignment size s (memory p))
      | None => None
      end
  | CmPurge i =>
      match scratch_at i p with
      | Some s => option_map (fun s => set_scratch i (Some s) p (memory p)) (Purge s (memory p))
      | None => None
      end
  | CmScoped i requests =>
      match scratch_at i p with
      | Some s => option_map (fun r => set_scratch i (Some (fst r)) p (snd r)) (Scoped (AllocAll fuel requests) s (memory p))
      | None => None
      end
  | CmMove i =>
      match scratch_at i p with
      | Some other =>
          let '(this, other) := ScratchMove other in
          Some (MkProgram (<[i := Some other]> (scratches p) ++ [Some this]) (memory p))
      | None => None
      end
  | CmAssign i j =>
      match scratch_at i p, scratch_at j p with
      | Some this, Some other =>
          let '(this, other) := ScratchAssign this other in
          Some (MkProgram (<[j := Some other]> (<[i := Some this]> (scratches p))) (memory p))
      | _, _ => None
      end
  | CmDestroy i =>
      match scratch_at i p with
      | Some s => option_map (set_scratch i None p) (ScratchDestroy fuel s (memory p))
      | None => None
      end
  end.
End Operations.

Arguments Memory H : clear implicits.
Arguments Program H : clear implicits.

(** * The heap and the arenas *)

Section Arenas.
  Context {H : Type} `{HeapLaws H} (base : gset Z).
  Implicit Types (m : Memory H) (ar : gmap Z Arena) (l : list Z).

(** The live blocks are those of the others, [base], and two for each arena:
    the arena itself and its bytes, all different. *)
Record heap_inv m : Prop := {
  hi_blocks : forall x, x ∈ blocks (heap m) <->
    x ∈ base \/ is_Some (arenas m !! x) \/ exists p a, arenas m !! p = Some a /\ bytes_ a = x;
  hi_data : forall p q a, is_Some (arenas m !! p) -> arenas m !! q = Some a -> bytes_ a <> p;
  hi_bytes : forall p q a b, arenas m !! p = Some a -> arenas m !! q = Some b -> bytes_ a = bytes_ b -> p = q;
  hi_base : forall p a, arenas m !! p = Some a -> p ∉ base /\ bytes_ a ∉ base /\ allocator a = true
}.

(** The arenas from [p] on. *)
Fixpoint chain ar (p : option Z) l : Prop :=
  match l with
  | [] => p = None
  | a :: l' => p = Some a /\ exists x, ar !! a = Some x /\ chain ar (next x) l'
  end.

Lemma chain_frame ar ar' p l : (forall a, a ∈ l -> ar' !! a = ar !! a) -> chain ar p l -> chain ar' p l.
Proof.
  revert p. induction l as [|a l IH]; intros p Hl; cbn; [done|]. intros [-> (x & Hx & Hc)]. split; [done|]. exists x.
  rewrite Hl by left. split; [done|]. apply IH; [|done]. intros b Hb. apply Hl. by right.
Qed.

Lemma arena_chain_in ar p l a : chain ar p l -> a ∈ l -> is_Some (ar !! a).
Proof.
  revert p. induction l as [|b l IH]; intros p; cbn; [by intros _ ?%elem_of_nil|]. intros [_ (x & Hx & Hc)] [->|Ha]%elem_of_cons.
  - by rewrite Hx.
  - by apply (IH (next x)).
Qed.

Lemma chain_at ar p pre c suf : chain ar p (pre ++ c :: suf) -> exists x, ar !! c = Some x /\ chain ar (next x) suf.
Proof.
  revert p. induction pre as [|a pre IH]; intros p; cbn; [by intros [_ Hx]|]. intros [_ (x & _ & Hc)]. by apply (IH (next x)).
Qed.

(** A new arena behind the last one. *)
Lemma chain_link ar p pre c q x new :
  chain ar p (pre ++ [c]) -> c ∉ pre -> q ∉ pre ++ [c] -> ar !! c = Some x -> next new = None ->
  chain (<[c := MkArena (allocator x) (Some q) (bytes_ x) (bytes_end_ x)]> (<[q := new]> ar)) p (pre ++ [c; q]).
Proof.
  intros Hch Hc Hq Hx Hnew. assert (Hqc : q <> c) by (intros ->; apply Hq, elem_of_app; right; by left).
  assert (Hq' : q ∉ pre) by (intros Hin; apply Hq, elem_of_app; by left). clear Hq. revert p Hch.
  induction pre as [|a pre IH]; intros p; cbn [app chain].
  - intros [-> _]. split; [done|]. rewrite lookup_insert_eq. eexists. split; [done|]. cbn [next chain]. split; [done|].
    rewrite lookup_insert_ne, lookup_insert_eq by done. by exists new.
  - apply not_elem_of_cons in Hc as [Hca Hc], Hq' as [Hqa Hq']. intros [-> (y & Hy & Hch)]. split; [done|]. exists y.
    rewrite !lookup_insert_ne by done. split; [done|]. by apply IH.
Qed.

(** Where a new arena's bytes are. *)
Definition real_of (h : H) (alignment size : Z) : Z := fst (heap_alloc alignment size (snd (heap_alloc max_align sizeof_Arena h))).

Lemma create_inv size alignment m :
  heap_inv m -> Allocator.IsValidAlignment alignment = true ->
  exists p a m', ArenaCreate true size alignment m = Some (p, m') /\ arenas m !! p = None /\ arenas m' = <[p := a]> (arenas m) /\
    next a = None /\ bytes_end_ a = bytes_ a + size /\ bytes_ a = real_of (heap m) alignment size /\ heap_inv m'.
Proof.
  intros [I1 I2 I3 I4] Hal. unfold ArenaCreate, real_of. rewrite Hal. cbn [andb].
  destruct (heap_alloc max_align _ _) as [p h1] eqn:E1. cbn [snd]. destruct (heap_alloc alignment size h1) as [b h2] eqn:E2.
  destruct (alloc_fresh _ _ _ _ _ E1) as (_ & P1 & P2). destruct (alloc_fresh _ _ _ _ _ E2) as (_ & B1 & B2).
  rewrite P2 in B1. apply not_elem_of_union in B1 as [B0 B1]. apply not_elem_of_singleton in B0.
  assert (Hp : arenas m !! p = None).
  { destruct (arenas m !! p) eqn:E; [|done]. destruct P1. apply I1. right. left. by rewrite E. }
  assert (Hnb : forall x, x ∉ blocks (heap m) -> x ∉ base /\ arenas m !! x = None /\ forall q a, arenas m !! q = Some a -> bytes_ a <> x).
  { intros x Hx. split; [intros Hb; apply Hx, I1; by left|]. split.
    - destruct (arenas m !! x) eqn:E; [|done]. destruct Hx. apply I1. right. left. by rewrite E.
    - intros q a Hq Hbx. apply Hx, I1. right. right. by exists q, a. }
  destruct (Hnb p P1) as (Np1 & _ & Np3). destruct (Hnb b B1) as (Nb1 & Nb2 & Nb3).
  eexists p, _, _. split; [reflexivity|]. split; [done|]. split; [reflexivity|]. split; [done|]. split; [done|]. split; [done|].
  split; cbn [heap arenas].
  - intros x. rewrite B2, P2, !elem_of_union, !elem_of_singleton, I1. split.
    + intros [->|[->|[Hx|[Hx|(q & a & Hq & Hx)]]]].
      * right. right. exists p. eexists. by rewrite lookup_insert_eq.
      * right. left. by rewrite lookup_insert_eq.
      * by left.
      * right. left. by apply lookup_insert_is_Some'; right.
      * right. right. exists q, a. split; [|done]. rewrite lookup_insert_ne; [done|]. congruence.
    + intros [Hx|[Hx|(q & a & Hq & Hx)]]; [by right; right; left| |].
      * apply lookup_insert_is_Some' in Hx as [->|Hx]; [by right; left|]. right. right. right. by left.
      * apply lookup_insert_Some in Hq as [[-> <-]|[_ Hq]]; [by left|]. right. right. right. right. by exists q, a.
  - intros x q a Hx Hq. apply lookup_insert_is_Some' in Hx as [<-|Hx]; apply lookup_insert_Some in Hq as [[<- <-]|[_ Hq]]; cbn [bytes_].
    + done.
    + by apply (Np3 q).
    + intros ->. rewrite Nb2 in Hx. by destruct Hx.
    + by apply (I2 x q a).
  - intros x y a c Hx Hy. apply lookup_insert_Some in Hx as [[<- <-]|[_ Hx]]; apply lookup_insert_Some in Hy as [[<- <-]|[_ Hy]];
      cbn [bytes_]; [done|intros E; by destruct (Nb3 y c Hy)|intros E; by destruct (Nb3 x a Hx)|by apply (I3 x y a c)].
  - intros x a Hx. apply lookup_insert_Some in Hx as [[<- <-]|[_ Hx]]; [by cbn|by apply I4].
Qed.

Lemma free_inv p a m :
  heap_inv m -> arenas m !! p = Some a ->
  exists h, (Free (bytes_ a) (heap m) ≫= Free p) = Some h /\ heap_inv (MkMemory h (delete p (arenas m))).
Proof.
  intros [I1 I2 I3 I4] Hp. destruct (I4 p a Hp) as (Nb & Nbb & _).
  assert (Hb : bytes_ a ∈ blocks (heap m)) by (apply I1; right; right; by exists p, a).
  assert (Hne : bytes_ a <> p) by (apply (I2 p p a); [by rewrite Hp|done]).
  pose proof (free_live _ _ Hb) as Hf.
  assert (Hp2 : p ∈ blocks (heap_free (bytes_ a) (heap m))).
  { rewrite Hf. apply elem_of_difference. split; [apply I1; right; left; by rewrite Hp|]. by apply not_elem_of_singleton. }
  exists (heap_free p (heap_free (bytes_ a) (heap m))).
  split; [unfold Free; rewrite decide_True by done; cbn; by rewrite decide_True|]. split; cbn [heap arenas].
  - intros x. rewrite free_live by done. rewrite Hf, !elem_of_difference, !not_elem_of_singleton, I1. split.
    + intros [[[Hx|[[c Hx]|(q & c & Hq & Hx)]] N1] N2]; [by left| |].
      * right. left. by rewrite lookup_delete_ne.
      * right. right. exists q, c. split; [|done]. rewrite lookup_delete_ne; [done|]. intros ->. congruence.
    + intros [Hx|[[c [Nq Hx]%lookup_delete_Some]|(q & c & [Nq Hq]%lookup_delete_Some & Hx)]].
      * split; [split; [by left|]|]; intros ->; [done|done].
      * split; [split; [right; left; by rewrite Hx|]|done]. intros ->. by apply (I2 (bytes_ a) p a); [rewrite Hx|..].
      * split; [split; [right; right; by exists q, c|]|]; intros ->.
        -- apply Nq. by apply (I3 p q a c).
        -- by apply (I2 p q c); [rewrite Hp|..].
  - intros x q c [y [_ Hx]%lookup_delete_Some] [_ Hq]%lookup_delete_Some. apply (I2 x q c); [by rewrite Hx|done].
  - intros x y c d [_ Hx]%lookup_delete_Some [_ Hy]%lookup_delete_Some. by apply I3.
  - intros x c [_ Hx]%lookup_delete_Some. by apply I4.
Qed.

(** The heap does not see the [next] pointers. *)
Lemma heap_inv_next p a n m :
  heap_inv m -> arenas m !! p = Some a ->
  heap_inv (MkMemory (heap m) (<[p := MkArena (allocator a) n (bytes_ a) (bytes_end_ a)]> (arenas m))).
Proof.
  intros [I1 I2 I3 I4] Hp. set (ar' := <[p := _]> (arenas m)).
  assert (Hsome : forall q, is_Some (ar' !! q) <-> is_Some (arenas m !! q)).
  { intros q. unfold ar'. rewrite lookup_insert_is_Some'. split; [|by right]. intros [<-|Hq]; [by rewrite Hp|done]. }
  assert (Hget : forall q c, ar' !! q = Some c -> exists d, arenas m !! q = Some d /\ bytes_ d = bytes_ c /\ allocator d = allocator c).
  { intros q c [[<- <-]|[_ Hq]]%lookup_insert_Some; [by exists a|by exists c]. }
  assert (Hback : forall q d, arenas m !! q = Some d -> exists c, ar' !! q = Some c /\ bytes_ c = bytes_ d).
  { intros q d Hq. destruct (decide (q = p)) as [->|Hne].
    - rewrite Hp in Hq. injection Hq as <-. eexists. unfold ar'. rewrite lookup_insert_eq. by split.
    - exists d. unfold ar'. by rewrite lookup_insert_ne. }
  split; cbn [heap arenas].
  - intros x. rewrite I1, Hsome. split; (intros [Hx|[Hx|(q & c & Hq & Hx)]]; [by left|by right; left|]); right; right; exists q.
    + destruct (Hback q c Hq) as (d & Hd & E). exists d. by rewrite E.
    + destruct (Hget q c Hq) as (d & Hd & E & _). exists d. by rewrite E.
  - intros x q c Hx (d & Hd & E & _)%Hget. rewrite <- E. apply (I2 x q d); [by apply Hsome|done].
  - intros x y c1 c2 (d1 & G1 & E1 & _)%Hget (d2 & G2 & E2 & _)%Hget. rewrite <- E1, <- E2. by apply I3.
  - intros x c (d & Hd & E1 & E2)%Hget. rewrite <- E1, <- E2. by apply I4.
Qed.

Lemma ArenaDestroy_spec fuel p l m :
  heap_inv m -> chain (arenas m) p l -> NoDup l -> (length l <= fuel)%nat ->
  exists m', ArenaDestroy fuel p m = Some m' /\ heap_inv m' /\
    (forall q, q ∈ l -> arenas m' !! q = None) /\ (forall q, q ∉ l -> arenas m' !! q = arenas m !! q).
Proof.
  revert fuel p m. induction l as [|a l IH]; intros fuel p m Hm Hch Hnd Hf; cbn [chain] in Hch.
  - subst p. exists m. destruct fuel; (split; [done|]); (split; [done|]); split; try done; by intros q ?%elem_of_nil.
  - destruct Hch as [-> (x & Hx & Hch)]. apply list.NoDup_cons in Hnd as [Ha Hnd]. destruct fuel as [|fuel]; [cbn in Hf; lia|].
    destruct (free_inv a x m Hm Hx) as (h & Ef & Hm1). destruct (hi_base m Hm a x Hx) as (_ & _ & Hal).
    set (m1 := MkMemory h (delete a (arenas m))) in *.
    destruct (IH fuel (next x) m1) as (m' & E & Hm' & Hgone & Hkept); try done; [|cbn in Hf; lia|].
    { revert Hch. apply chain_frame. intros b Hb. cbn. rewrite lookup_delete_ne; [done|]. by intros ->. }
    exists m'. cbn [ArenaDestroy]. rewrite Hx, Hal, Ef. split; [exact E|]. split; [done|]. split.
    + intros q [->|Hq]%elem_of_cons; [|by apply Hgone]. rewrite Hkept by done. apply lookup_delete_eq.
    + intros q [Hqa Hq]%not_elem_of_cons. rewrite Hkept by done. by apply lookup_delete_ne.
Qed.

(** ** Allocation *)

(** What an allocation may do to the memory: the allocator's arenas [l] become
    [l'], by new ones behind. *)
Record grown m l m' l' : Prop := {
  gr_heap : heap_inv m';
  gr_old : forall x, x ∈ l -> x ∈ l';
  gr_new : forall x, x ∈ l' -> x ∈ l \/ arenas m !! x = None;
  gr_kept : forall x, x ∉ l' -> arenas m' !! x = arenas m !! x;
  gr_nodup : NoDup l'
}.

Lemma grown_refl m l : heap_inv m -> NoDup l -> grown m l m l.
Proof. intros Hm Hl. split; try done. by left. Qed.

(** The arena [last] gets the new one [p] behind it. *)
Lemma link_grown head pre last x p a m m1 :
  chain (arenas m) head (pre ++ [last]) -> NoDup (pre ++ [last]) -> arenas m !! last = Some x -> arenas m !! p = None ->
  arenas m1 = <[p := a]> (arenas m) -> next a = None -> heap_inv m1 ->
  let m' := MkMemory (heap m1) (<[last := MkArena (allocator x) (Some p) (bytes_ x) (bytes_end_ x)]> (arenas m1)) in
  grown m (pre ++ [last]) m' (pre ++ [last; p]) /\ chain (arenas m') head (pre ++ [last; p]) /\
  arenas m' !! p = Some a /\ forall q y, arenas m !! q = Some y -> exists z, arenas m' !! q = Some z /\ bytes_ z = bytes_ y /\ bytes_end_ z = bytes_end_ y.
Proof.
  intros Hch Hnd Hx Hp Har Hna Hm1 m'. subst m'. rewrite Har.
  assert (Hpl : p ∉ pre ++ [last]) by (intros Hin; destruct (arena_chain_in _ _ _ _ Hch Hin); congruence).
  assert (Hpc : p <> last) by (intros ->; apply Hpl, elem_of_app; right; by left).
  assert (Hcp : last ∉ pre) by (intros Hin; apply list.NoDup_app in Hnd as (_ & Hd & _); apply (Hd last Hin); by left).
  assert (Hx1 : arenas m1 !! last = Some x) by (rewrite Har, lookup_insert_ne; done).
  cbn [arenas]. split; [|split; [by apply chain_link|split]].
  - split.
    + rewrite <- Har. by apply (heap_inv_next last x (Some p)).
    + intros y Hy. apply elem_of_app in Hy as [Hy|Hy]; apply elem_of_app; [by left|]. right.
      apply list_elem_of_singleton in Hy as ->. by left.
    + intros y Hy. apply elem_of_app in Hy as [Hy|[->|[->|Hy]%elem_of_cons]%elem_of_cons].
      * left. apply elem_of_app. by left.
      * left. apply elem_of_app. right. by left.
      * by right.
      * by apply elem_of_nil in Hy.
    + intros y Hy. apply not_elem_of_app in Hy as [_ Hy]. apply not_elem_of_cons in Hy as [Hy1 Hy].
      apply not_elem_of_cons in Hy as [Hy2 _]. cbn [arenas]. by rewrite !lookup_insert_ne.
    + change (pre ++ [last; p]) with (pre ++ ([last] ++ [p])). rewrite app_assoc. apply list.NoDup_app. split; [done|].
      split; [by intros y Hy ->%list_elem_of_singleton|apply NoDup_singleton].
  - by rewrite lookup_insert_ne, lookup_insert_eq.
  - intros q y Hq. destruct (decide (q = last)) as [->|Nq].
    + rewrite Hx in Hq. injection Hq as <-. eexists. by rewrite lookup_insert_eq.
    + exists y. rewrite lookup_insert_ne by done. rewrite lookup_insert_ne; [done|]. congruence.
Qed.

(** An arena as [Allocator] has it. *)
Definition view ar (p : Z) : Allocator.Arena :=
  match ar !! p with Some a => Allocator.MkArena (bytes_ a) (bytes_end_ a) | None => Allocator.MkArena 0 0 end.

(** The search goes along the arenas like that of [Allocator], and makes a new
    one where that finds no room. *)
Lemma FindRoom_cases fuel k size s head cur pre suf ptr m :
  heap_inv m -> chain (arenas m) head (pre ++ cur :: suf) -> real_allocator_ s = true ->
  Allocator.IsValidAlignment k = true -> (length suf <= fuel)%nat ->
  let room := Allocator.find_room k size (view (arenas m) cur) (length pre) (map (view (arenas m)) suf) ptr in
  (exists i c a q, (pre ++ cur :: suf) !! i = Some c /\ arenas m !! c = Some a /\ q + size <= bytes_end_ a /\
     FindRoom fuel k size s cur ptr m = Some (c, q, total_size_ s, m) /\ room = Some (i, q)) \/
  (exists pre' last x p a m1, pre ++ cur :: suf = pre' ++ [last] /\ arenas m !! last = Some x /\ arenas m !! p = None /\
     arenas m1 = <[p := a]> (arenas m) /\ next a = None /\ bytes_end_ a = bytes_ a + Z.max (total_size_ s * 2) size /\
     bytes_ a = real_of (heap m) k (Z.max (total_size_ s * 2) size) /\ heap_inv m1 /\
     FindRoom fuel k size s cur ptr m = Some (p, bytes_ a, total_size_ s + ArenaSize a,
       MkMemory (heap m1) (<[last := MkArena (allocator x) (Some p) (bytes_ x) (bytes_end_ x)]> (arenas m1))) /\ room = None).
Proof.
  intros Hm Hch Hreal Hk. revert fuel cur pre ptr Hch. induction suf as [|b suf IH]; intros fuel cur pre ptr Hch Hf;
    destruct (chain_at _ _ _ _ _ Hch) as (x & Hx & Hnext); cbv zeta; cbn [map Allocator.find_room];
    (replace (Allocator.bytes_end_ (view (arenas m) cur)) with (bytes_end_ x) by (unfold view; by rewrite Hx));
    (assert (Hhere : bytes_end_ x <? ptr + size = false -> forall r,
       exists i c a q, (pre ++ cur :: r) !! i = Some c /\ arenas m !! c = Some a /\ q + size <= bytes_end_ a /\
         FindRoom fuel k size s cur ptr m = Some (c, q, total_size_ s, m) /\ Some (length pre, ptr) = Some (i, q));
     [intros El r; exists (length pre), cur, x, ptr; split; [by apply list_lookup_middle|]; split; [done|];
      split; [apply Z.ltb_ge in El; lia|]; split; [destruct fuel; cbn [FindRoom]; by rewrite Hx, El|done]|]);
    destruct (bytes_end_ x <? ptr + size) eqn:El; try (left; by apply Hhere); clear Hhere.
  - right. cbn [chain] in Hnext. destruct (create_inv (Z.max (total_size_ s * 2) size) k m Hm Hk)
      as (p & a & m1 & E & Hp & Har & Hna & Hend & Hb & Hm1).
    exists pre, cur, x, p, a, m1. split; [done|]. split; [done|]. split; [done|]. split; [done|]. split; [done|]. split; [done|].
    split; [done|]. split; [done|]. split; [|done].
    assert (Hpc : p <> cur) by congruence. destruct fuel; cbn [FindRoom]; rewrite Hx, El, Hnext, Hreal, E; cbn [arenas];
      rewrite lookup_insert_ne, Har, lookup_insert_eq by done; done.
  - destruct fuel as [|fuel]; [cbn in Hf; lia|]. cbn [chain] in Hnext. destruct Hnext as (En & y & Hy & _).
    assert (E : FindRoom (S fuel) k size s cur ptr m = FindRoom fuel k size s b (Allocator.AlignPointer (bytes_ y) k) m)
      by (cbn [FindRoom]; by rewrite Hx, El, En, Hy).
    rewrite E. change (pre ++ cur :: b :: suf) with (pre ++ [cur] ++ b :: suf) in *. rewrite app_assoc in *.
    specialize (IH fuel b (pre ++ [cur]) (Allocator.AlignPointer (bytes_ y) k) Hch). rewrite length_app, Nat.add_1_r in IH.
    replace (Allocator.bytes_ (view (arenas m) b)) with (bytes_ y) by (unfold view; by rewrite Hy). apply IH. cbn in Hf. lia.
Qed.

Lemma grown_trans m l m1 l1 m2 l2 : grown m l m1 l1 -> grown m1 l1 m2 l2 -> grown m l m2 l2.
Proof.
  intros G1 G2. split; [apply G2|intros x Hx; by apply G2, G1| | |apply G2].
  - intros x [Hx|Hx]%(gr_new _ _ _ _ G2); [by apply (gr_new _ _ _ _ G1)|]. destruct (decide (x ∈ l1)) as [Hin|Hin].
    + by apply (gr_new _ _ _ _ G1).
    + right. by rewrite <- (gr_kept _ _ _ _ G1).
  - intros x Hx. rewrite (gr_kept _ _ _ _ G2) by done. apply (gr_kept _ _ _ _ G1). intros Hin. by apply Hx, (gr_old _ _ _ _ G2).
Qed.

(** An allocator with arenas, the current one among them; one without. *)
Definition full ar (s : ScratchAllocator) l : Prop :=
  chain ar (head_arena_ s) l /\ real_allocator_ s = true /\
  exists h c ptr, head_arena_ s = Some h /\ cur_arena_ s = Some c /\ c ∈ l /\ cur_ptr_ s = Some ptr.
Definition empty_scratch (s : ScratchAllocator) : Prop := head_arena_ s = None.

(** An allocator in memory stands for one of [Allocator]. *)
Record represents m (s : ScratchAllocator) l (t : Allocator.ScratchAllocator) : Prop := {
  rp_arenas : Allocator.arenas_ t = map (view (arenas m)) l;
  rp_cur : exists c, cur_arena_ s = Some c /\ l !! Allocator.cur_arena_ t = Some c /\ cur_ptr_ s = Some (Allocator.cur_ptr_ t);
  rp_total : Allocator.total_size_ t = total_size_ s
}.

Lemma represented m s l : full (arenas m) s l -> exists t, represents m s l t.
Proof.
  intros (_ & _ & h & c & ptr & _ & Hc & Hcl & Hptr). apply list_elem_of_lookup_1 in Hcl as [i Hi].
  exists (Allocator.MkScratch (map (view (arenas m)) l) i ptr (total_size_ s)). split; [done| |done]. by exists c.
Qed.

(** An allocation in memory succeeds where alignments are valid, keeps what
    belongs to others, and gives the block [Allocator] gives. *)
Lemma AllocAligned_refines fuel k size s m l t :
  heap_inv m -> full (arenas m) s l -> NoDup l -> represents m s l t -> Allocator.IsValidAlignment k = true -> (length l <= fuel)%nat ->
  exists q s' m' l' t', AllocAligned fuel k size s m = Some (q, s', m') /\
    Allocator.AllocAligned (fun _ => real_of (heap m)) k size t = Some (q, t') /\
    grown m l m' l' /\ full (arenas m') s' l' /\ represents m' s' l' t' /\ (length l' <= S (length l))%nat.
Proof.
  intros Hm (Hch & Hreal & h & c & ptr & Hh & Hc & Hcl & Hptr) Hnd [Ra (c2 & Rc & Rl & Rp) Rt] Hk Hf.
  rewrite Hc in Rc. injection Rc as <-. rewrite Hptr in Rp. injection Rp as Hpt.
  destruct (list_elem_of_split_length l (Allocator.cur_arena_ t) c Rl) as (pre & suf & -> & Hlen).
  unfold AllocAligned, Allocator.AllocAligned. rewrite Hk, Hptr, Hc.
  assert (Hdrop : drop (Allocator.cur_arena_ t) (Allocator.arenas_ t) = view (arenas m) c :: map (view (arenas m)) suf).
  { rewrite Ra, map_app, Hlen. rewrite <- (length_map (view (arenas m)) pre). apply drop_app_length. }
  rewrite Hdrop, <- Hpt, Hlen.
  destruct (FindRoom_cases fuel k size s (head_arena_ s) c pre suf (Allocator.AlignPointer ptr k) m Hm Hch Hreal Hk)
    as [(i & d & a & q & Hi & Ha & Hq & -> & ->)|(pre' & last & x & p & a & m1 & El & Hx & Hp & Har & Hna & Hend & Hb & Hm1 & -> & ->)];
    [rewrite length_app in Hf; cbn in Hf; lia|..].
  - rewrite Ha, (proj2 (Z.leb_le _ _) Hq). eexists q, _, m, _, _. split; [reflexivity|]. split; [reflexivity|].
    split; [by apply grown_refl|]. split; [|split; [|lia]].
    + split; [done|]. split; [done|]. exists h, d, (q + size). split_and!; try done. by eapply list_elem_of_lookup_2.
    + split; [done| |done]. exists d. by split_and!.
  - rewrite El in *. destruct (link_grown (head_arena_ s) pre' last x p a m m1 Hch Hnd Hx Hp Har Hna Hm1) as (Hg & Hch' & Hpa & Hold).
    cbv zeta in *. set (m' := MkMemory (heap m1) _) in *. rewrite Hpa, Hend, (proj2 (Z.leb_le _ _)) by lia.
    eexists (bytes_ a), _, m', _, _. split; [reflexivity|]. unfold Allocator.ArenaCreate. rewrite Rt, <- Hb. cbn [Allocator.bytes_].
    split; [reflexivity|]. split; [exact Hg|].
    assert (Hview : map (view (arenas m')) (pre' ++ [last; p]) =
      Allocator.arenas_ t ++ [Allocator.MkArena (bytes_ a) (bytes_ a + Z.max (total_size_ s * 2) size)]).
    { rewrite Ra. change (pre' ++ [last; p]) with (pre' ++ [last] ++ [p]). rewrite app_assoc, map_app. f_equal.
      - apply map_ext_in. intros q Hq. apply list_elem_of_In in Hq. destruct (arena_chain_in _ _ _ _ Hch Hq) as [y Hy].
        destruct (Hold q y Hy) as (z & Hz & E1 & E2). unfold view. by rewrite Hy, Hz, E1, E2.
      - cbn [map]. unfold view. by rewrite Hpa, Hend. }
    split; [|split].
    + split; [done|]. split; [done|]. exists h, p, (bytes_ a + size). split_and!; try done. apply elem_of_app. right. right. by left.
    + split; cbn [Allocator.arenas_ Allocator.cur_arena_ Allocator.cur_ptr_ Allocator.total_size_ cur_arena_ cur_ptr_ total_size_].
      * by rewrite Hview.
      * exists p. split; [done|]. split; [|done]. rewrite Ra, length_map. change (pre' ++ [last; p]) with (pre' ++ [last] ++ [p]).
        rewrite app_assoc. by apply list_lookup_middle.
      * unfold Allocator.ArenaSize, ArenaSize. cbn [Allocator.bytes_ Allocator.bytes_end_]. by rewrite Hend.
    + rewrite !length_app. cbn. lia.
Qed.

Lemma AllocAligned_full fuel k size s m l :
  heap_inv m -> full (arenas m) s l -> NoDup l -> Allocator.IsValidAlignment k = true -> (length l <= fuel)%nat ->
  exists p s' m' l', AllocAligned fuel k size s m = Some (p, s', m') /\ grown m l m' l' /\ full (arenas m') s' l' /\
    (length l' <= S (length l))%nat.
Proof.
  intros Hm Hs Hnd Hk Hf. destruct (represented m s l Hs) as [t Ht].
  destruct (AllocAligned_refines fuel k size s m l t Hm Hs Hnd Ht Hk Hf) as (q & s' & m' & l' & t' & E & _ & Hg & Hs' & _ & Hl).
  by exists q, s', m', l'.
Qed.

Lemma AllocAll_full fuel reqs s m l :
  heap_inv m -> full (arenas m) s l -> NoDup l -> Forall (fun r => Allocator.IsValidAlignment (fst r) = true) reqs ->
  (length l + length reqs <= fuel)%nat ->
  exists s' m' l', AllocAll fuel reqs s m = Some (s', m') /\ grown m l m' l' /\ full (arenas m') s' l' /\
    (length l' <= length l + length reqs)%nat.
Proof.
  intros Hm Hs Hnd Hr. revert s m l Hm Hs Hnd. induction Hr as [|[k size] reqs Hk _ IH]; intros s m l Hm Hs Hnd Hf; cbn [AllocAll].
  - exists s, m, l. split; [done|]. split; [by apply grown_refl|]. split; [done|lia].
  - cbn [length] in Hf. destruct (AllocAligned_full fuel k size s m l Hm Hs Hnd Hk) as (p & s1 & m1 & l1 & -> & G1 & F1 & L1); [lia|].
    destruct (IH s1 m1 l1 (gr_heap _ _ _ _ G1) F1 (gr_nodup _ _ _ _ G1)) as (s2 & m2 & l2 & -> & G2 & F2 & L2); [lia|].
    exists s2, m2, l2. split; [done|]. split; [by eapply grown_trans|]. split; [done|cbn; lia].
Qed.

Lemma ScratchNew_full r m :
  heap_inv m -> 0 < r -> exists s m' p, ScratchNew r m = Some (s, m') /\ grown m [] m' [p] /\ full (arenas m') s [p].
Proof.
  intros Hm Hr. unfold ScratchNew. rewrite (proj2 (Z.ltb_lt _ _) Hr).
  destruct (create_inv r max_align m Hm eq_refl) as (p & a & m' & -> & Hp & Har & Hna & Hend & _ & Hm'). rewrite Har, lookup_insert_eq. cbn [option_map].
  eexists _, _, p. split; [reflexivity|]. split.
  - split; [done|by intros x ?%elem_of_nil| | |apply NoDup_singleton].
    + intros x ->%list_elem_of_singleton. by right.
    + intros x Hx. rewrite Har. apply lookup_insert_ne. intros ->. apply Hx. by left.
  - split; [cbn; split; [done|]; exists a; by rewrite Har, lookup_insert_eq|]. split; [done|]. exists p, p, (bytes_ a). split_and!; try done. by left.
Qed.
End Arenas.

(** * Programs *)

(** What an allocator holds: arenas, none, or its life has ended. *)
Inductive Holding := HFull | HEmpty | HGone.
#[export] Instance Holding_eq_dec : EqDecision Holding.
Proof. solve_decision. Defined.

Definition hold_act (c : Command) (xs : list Holding) : list Holding :=
  match c with
  | CmNew r => xs ++ [if 0 <? r then HFull else HEmpty]
  | CmMove i => <[i := HEmpty]> xs ++ [default HGone (xs !! i)]
  | CmAssign i j => <[j := default HGone (xs !! i)]> (<[i := default HGone (xs !! j)]> xs)
  | CmDestroy i => <[i := HGone]> xs
  | CmAlloc _ _ _ | CmPurge _ | CmScoped _ _ => xs
  end.

Definition is_full (i : nat) (xs : list Holding) : bool := bool_decide (xs !! i = Some HFull).
Definition is_there (i : nat) (xs : list Holding) : bool := match xs !! i with Some HFull | Some HEmpty => true | _ => false end.

(** Only allocators with arenas are asked for memory, and nothing is done with
    one whose life has ended. *)
Definition hold_ok (c : Command) (xs : list Holding) : bool :=
  match c with
  | CmNew _ => true
  | CmAlloc i k _ => is_full i xs && Allocator.IsValidAlignment k
  | CmPurge i => is_full i xs
  | CmScoped i reqs => is_full i xs && forallb (fun r => Allocator.IsValidAlignment (fst r)) reqs
  | CmMove i | CmDestroy i => is_there i xs
  | CmAssign i j => is_there i xs && is_there j xs
  end.

(** How many arenas a command can add to a chain. *)
Definition cost (c : Command) : nat := match c with CmNew _ | CmAlloc _ _ _ => 1 | CmScoped _ reqs => length reqs | _ => 0 end.

Fixpoint program_ok (cs : list Command) (xs : list Holding) : bool :=
  match cs with [] => true | c :: cs' => hold_ok c xs && program_ok cs' (hold_act c xs) end.

Fixpoint exec_all {H : Type} `{Heap H} (fuel : nat) (cs : list Command) (p : Program H) : option (Program H) :=
  match cs with [] => Some p | c :: cs' => match exec fuel c p with Some p' => exec_all fuel cs' p' | None => None end end.

Section Programs.
  Context {H : Type} `{HeapLaws H} (base : gset Z).
  Implicit Types (p : Program H) (ls : list (list Z)).

Definition holds (ar : gmap Z Arena) (x : Holding) (o : option ScratchAllocator) (l : list Z) : Prop :=
  match x, o with
  | HFull, Some s => full ar s l
  | HEmpty, Some s => empty_scratch s /\ l = []
  | HGone, None => l = []
  | _, _ => False
  end.

(** [ls]: the arenas of each allocator, at most [n] of them. *)
Record prog_inv (n : nat) p (xs : list Holding) ls : Prop := {
  pi_len : length xs = length (scratches p) /\ length ls = length (scratches p);
  pi_holds : forall i x o l, xs !! i = Some x -> scratches p !! i = Some o -> ls !! i = Some l ->
    holds (arenas (memory p)) x o l /\ NoDup l /\ (length l <= n)%nat;
  pi_disj : forall i j li lj a, ls !! i = Some li -> ls !! j = Some lj -> a ∈ li -> a ∈ lj -> i = j;
  pi_all : forall a, is_Some (arenas (memory p) !! a) -> exists i l, ls !! i = Some l /\ a ∈ l;
  pi_heap : heap_inv base (memory p)
}.

Lemma holding_in ar x o l a : holds ar x o l -> a ∈ l -> is_Some (ar !! a).
Proof.
  destruct x, o as [s|]; cbn; try done.
  - intros (Hch & _) Ha. by apply (arena_chain_in ar (head_arena_ s) l).
  - intros [_ ->] Ha. by apply elem_of_nil in Ha.
  - intros -> Ha. by apply elem_of_nil in Ha.
Qed.

Lemma holding_frame ar ar' x o l : (forall a, a ∈ l -> ar' !! a = ar !! a) -> holds ar x o l -> holds ar' x o l.
Proof. intros Hf. destruct x, o as [s|]; cbn; try done. intros (Hch & Hr). split; [by apply (chain_frame ar)|done]. Qed.

Lemma holds_there ar xs i o l :
  is_there i xs = true -> holds ar (default HGone (xs !! i)) o l -> is_Some o.
Proof. unfold is_there. destruct (xs !! i) as [[]|]; try done; destruct o; done. Qed.

(** One allocator changes. *)
Record changed (m : Memory H) (l : list Z) (m' : Memory H) (l' : list Z) : Prop := {
  ch_heap : heap_inv base m';
  ch_new : forall a, a ∈ l' -> a ∈ l \/ arenas m !! a = None;
  ch_kept : forall a, a ∉ l -> a ∉ l' -> arenas m' !! a = arenas m !! a;
  ch_all : forall a, is_Some (arenas m' !! a) -> a ∈ l -> a ∈ l'
}.

Lemma grown_changed m l m' l' : grown base m l m' l' -> changed m l m' l'.
Proof. intros [G1 G2 G3 G4 G5]. split; auto. Qed.

Lemma prog_change n n' p xs ls i l o' l' x' m' :
  prog_inv n p xs ls -> (n <= n')%nat -> ls !! i = Some l -> changed (memory p) l m' l' ->
  holds (arenas m') x' o' l' -> NoDup l' -> (length l' <= n')%nat ->
  prog_inv n' (set_scratch i o' p m') (<[i := x']> xs) (<[i := l']> ls).
Proof.
  intros [[L1 L2] I2 I3 I4 I5] Hn Hi [C1 C2 C3 C4] Hh Hnd Hl. pose proof (lookup_lt_Some _ _ _ Hi) as Hlt.
  assert (Hfar : forall j lj a, j <> i -> ls !! j = Some lj -> a ∈ lj -> a ∉ l /\ a ∉ l').
  { intros j lj a Hne Hj Ha. assert (Hal : a ∉ l) by (intros Hal; by apply Hne, (I3 j i lj l a)). split; [done|]. intros Ha'.
    destruct (C2 a Ha') as [?|Hnone]; [done|].
    destruct (lookup_lt_is_Some_2 xs j) as [x Hx]; [rewrite L1, <- L2; by eapply lookup_lt_Some|].
    destruct (lookup_lt_is_Some_2 (scratches p) j) as [o Ho]; [rewrite <- L2; by eapply lookup_lt_Some|].
    destruct (I2 j x o lj Hx Ho Hj) as (Hho & _). destruct (holding_in _ x o lj a Hho Ha). congruence. }
  split; cbn [set_scratch scratches memory].
  - by rewrite !length_insert.
  - intros j x o lj Hx Ho Hj. destruct (decide (j = i)) as [->|Hne].
    + rewrite list_lookup_insert_eq in Hx by lia. rewrite list_lookup_insert_eq in Ho by lia. rewrite list_lookup_insert_eq in Hj by lia.
      by injection Hx as <-; injection Ho as <-; injection Hj as <-.
    + rewrite list_lookup_insert_ne in Hx by done. rewrite list_lookup_insert_ne in Ho by done. rewrite list_lookup_insert_ne in Hj by done.
      destruct (I2 j x o lj Hx Ho Hj) as (Hho & Hn1 & Hn2). split; [|split; [done|lia]]. revert Hho. apply holding_frame.
      intros a Ha. destruct (Hfar j lj a Hne Hj Ha). by apply C3.
  - intros j k lj lk a Hj Hk. apply list_lookup_insert_Some in Hj as [(<- & <- & _)|[Nj Hj]];
      apply list_lookup_insert_Some in Hk as [(<- & <- & _)|[Nk Hk]]; try done.
    + intros Ha Hb. by destruct (Hfar k lk a (not_eq_sym Nk) Hk Hb).
    + intros Ha Hb. by destruct (Hfar j lj a (not_eq_sym Nj) Hj Ha).
    + by apply I3.
  - intros a Ha. destruct (decide (a ∈ l')) as [Hin|Hin].
    + exists i, l'. split; [|done]. apply list_lookup_insert_eq. lia.
    + assert (Hal : a ∉ l) by (intros Hal; by apply Hin, C4). rewrite C3 in Ha by done. destruct (I4 a Ha) as (j & lj & Hj & Haj).
      exists j, lj. split; [|done]. rewrite list_lookup_insert_ne; [done|]. intros ->. by rewrite Hi in Hj; injection Hj as <-.
  - done.
Qed.

Lemma heap_inv_start (h : H) : heap_inv (blocks h) (MkMemory h empty).
Proof.
  split; cbn [heap arenas].
  - intros x. split; [by left|]. intros [Hx|[Hx|(q & a & Hq & _)]]; [done|by apply lookup_empty_is_Some in Hx|by rewrite lookup_empty in Hq].
  - intros p q a Hp _. by apply lookup_empty_is_Some in Hp.
  - intros p q a b Hp. by rewrite lookup_empty in Hp.
  - intros p a Hp. by rewrite lookup_empty in Hp.
Qed.

(** Allocators change places, and empty ones come and go: [f] says where the
    arenas of each one were. *)
Lemma prog_permute n p xs ls ss xs' ls' (f : nat -> nat) :
  prog_inv n p xs ls -> length xs' = length ss -> length ls' = length ss ->
  (forall i x o l, xs' !! i = Some x -> ss !! i = Some o -> ls' !! i = Some l ->
     holds (arenas (memory p)) x o l /\ (l = [] \/ ls !! f i = Some l)) ->
  (forall i j li lj, ls' !! i = Some li -> ls' !! j = Some lj -> li <> [] -> lj <> [] -> f i = f j -> i = j) ->
  (forall k l, ls !! k = Some l -> l <> [] -> exists i, ls' !! i = Some l) ->
  prog_inv n (MkProgram ss (memory p)) xs' ls'.
Proof.
  intros [[L1 L2] I2 I3 I4 I5] Hx Hl Hh Hinj Hsur.
  assert (Hat : forall i l, ls' !! i = Some l -> exists x o, xs' !! i = Some x /\ ss !! i = Some o).
  { intros i l Hi. pose proof (lookup_lt_Some _ _ _ Hi).
    destruct (lookup_lt_is_Some_2 xs' i) as [x Hxi]; [lia|]. destruct (lookup_lt_is_Some_2 ss i) as [o Hoi]; [lia|]. by exists x, o. }
  assert (Hwas : forall i l, ls' !! i = Some l -> l = [] \/ ls !! f i = Some l).
  { intros i l Hi. destruct (Hat i l Hi) as (x & o & Hxi & Ho). by destruct (Hh i x o l Hxi Ho Hi). }
  split; cbn [scratches memory]; [done| | | |done].
  - intros i x o l Hxi Ho Hi. destruct (Hh i x o l Hxi Ho Hi) as [Hho [->|Hf]]; [split; [done|]; split; [constructor|cbn; lia]|].
    split; [done|]. pose proof (lookup_lt_Some _ _ _ Hf).
    destruct (lookup_lt_is_Some_2 xs (f i)) as [x1 Hx1]; [lia|]. destruct (lookup_lt_is_Some_2 (scratches p) (f i)) as [o1 Ho1]; [lia|].
    by destruct (I2 (f i) x1 o1 l Hx1 Ho1 Hf).
  - intros i j li lj a Hi Hj Ha Hb. destruct (Hwas i li Hi) as [->|Hfi]; [by apply elem_of_nil in Ha|].
    destruct (Hwas j lj Hj) as [->|Hfj]; [by apply elem_of_nil in Hb|].
    apply (Hinj i j li lj Hi Hj); [by intros ->; apply elem_of_nil in Ha|by intros ->; apply elem_of_nil in Hb|].
    by apply (I3 (f i) (f j) li lj a).
  - intros a Ha. destruct (I4 a Ha) as (k & l & Hk & Hal). destruct (Hsur k l Hk) as [i Hi]; [by intros ->; apply elem_of_nil in Hal|].
    by exists i, l.
Qed.

(** ** Commands *)

(** The allocator a command is about. *)
Lemma prog_at n p xs ls i x :
  prog_inv n p xs ls -> xs !! i = Some x -> x <> HGone ->
  exists s l, scratch_at i p = Some s /\ scratches p !! i = Some (Some s) /\ ls !! i = Some l /\
    holds (arenas (memory p)) x (Some s) l /\ NoDup l /\ (length l <= n)%nat.
Proof.
  intros Hp Hx Hne. pose proof (lookup_lt_Some _ _ _ Hx). destruct (pi_len _ _ _ _ Hp) as [L1 L2].
  destruct (lookup_lt_is_Some_2 (scratches p) i) as [o Ho]; [lia|]. destruct (lookup_lt_is_Some_2 ls i) as [l Hl]; [lia|].
  destruct (pi_holds _ _ _ _ Hp i x o l Hx Ho Hl) as (Hh & Hnd & Hn). destruct o as [s|]; [|by destruct x].
  exists s, l. unfold scratch_at. rewrite Ho. by split_and!.
Qed.

Lemma is_full_spec i xs : is_full i xs = true -> xs !! i = Some HFull.
Proof. unfold is_full. by intros ?%bool_decide_eq_true. Qed.

Lemma is_there_spec i xs : is_there i xs = true -> exists x, xs !! i = Some x /\ x <> HGone /\ default HGone (xs !! i) = x.
Proof. unfold is_there. destruct (xs !! i) as [[]|]; try done; intros _; eexists; (split; [done|]); done. Qed.

(** A command on a full allocator that keeps it full. *)
Lemma full_step n n' p xs ls i s l s' m' l' :
  prog_inv n p xs ls -> (n <= n')%nat -> xs !! i = Some HFull -> ls !! i = Some l -> grown base (memory p) l m' l' ->
  full (arenas m') s' l' -> (length l' <= n')%nat -> scratches p !! i = Some (Some s) ->
  exists ls', prog_inv n' (set_scratch i (Some s') p m') xs ls'.
Proof.
  intros Hp Hn Hx Hl Hg Hs Hlen _. exists (<[i := l']> ls).
  rewrite <- (list_insert_id xs i HFull Hx). apply (prog_change n n' p xs ls i l); try done; [by apply grown_changed|by apply (gr_nodup _ _ _ _ _ Hg)].
Qed.

Lemma new_inv fuel n p xs ls r :
  prog_inv n p xs ls ->
  exists p' ls', exec fuel (CmNew r) p = Some p' /\ prog_inv (n + 1) p' (hold_act (CmNew r) xs) ls'.
Proof.
  intros Hp. pose proof Hp as [[L1 L2] I2 I3 I4 I5]. cbn [exec hold_act].
  assert (Hsnoc : prog_inv n (MkProgram (scratches p ++ [None]) (memory p)) (xs ++ [HGone]) (ls ++ [[]])).
  { apply (prog_permute n p xs ls _ _ _ id); [done|by rewrite !length_app, L1|by rewrite !length_app, L2| | |].
    - intros i x o l Hx Ho Hi. apply lookup_app_Some in Hi as [Hi|[Hge Hi]].
      + pose proof (lookup_lt_Some _ _ _ Hi). rewrite lookup_app_l in Hx by lia. rewrite lookup_app_l in Ho by lia.
        split; [by apply (I2 i x o l)|by right].
      + rewrite lookup_app_r in Hx by lia. rewrite lookup_app_r in Ho by lia. rewrite L1, <- L2 in Hx. rewrite <- L2 in Ho.
        destruct (i - length ls)%nat; [|done]. injection Hx as <-. injection Ho as <-. injection Hi as <-. split; [done|by left].
    - by intros i j li lj _ _ _ _ E.
    - intros k l Hk _. exists k. by apply lookup_app_l_Some. }
  assert (Hlast : (ls ++ [[]]) !! length ls = Some []) by (rewrite lookup_app_r by lia; by rewrite Nat.sub_diag).
  assert (Hss : forall o, <[length ls := o]> (scratches p ++ [None]) = scratches p ++ [o]).
  { intros o. rewrite insert_app_r_alt by lia. by rewrite L2, Nat.sub_diag. }
  assert (Hxs : forall x, <[length ls := x]> (xs ++ [HGone]) = xs ++ [x]).
  { intros x. rewrite insert_app_r_alt by lia. by rewrite L2, <- L1, Nat.sub_diag. }
  destruct (Z.ltb_spec 0 r).
  - destruct (ScratchNew_full base r (memory p) I5 ltac:(lia)) as (s & m' & q & -> & Hg & Hs). cbn [option_map fst snd].
    eexists _, _. split; [reflexivity|].
    pose proof (prog_change n (n + 1) _ _ _ _ [] (Some s) [q] HFull m' Hsnoc ltac:(lia) Hlast (grown_changed _ _ _ _ Hg) Hs
      (NoDup_singleton q) ltac:(cbn; lia)) as Hn. unfold set_scratch in Hn. cbn [scratches] in Hn. rewrite Hss, Hxs in Hn. exact Hn.
  - unfold ScratchNew. rewrite (proj2 (Z.ltb_ge _ _)) by done. cbn [option_map fst snd]. eexists _, _. split; [reflexivity|].
    assert (Hch : changed (memory p) [] (memory p) []) by (split; try done; by left).
    pose proof (prog_change n (n + 1) _ _ _ _ [] (Some (MkScratch true None None None 0)) [] HEmpty (memory p) Hsnoc ltac:(lia) Hlast Hch
      (conj eq_refl eq_refl) (NoDup_nil_2) ltac:(cbn; lia)) as Hn. unfold set_scratch in Hn. cbn [scratches] in Hn.
    rewrite Hss, Hxs in Hn. exact Hn.
Qed.

Lemma ScratchAssign_swaps (this other : ScratchAllocator) : ScratchAssign this other = (other, this).
Proof. by destruct this, other. Qed.

Lemma move_inv fuel n p xs ls i :
  prog_inv n p xs ls -> is_there i xs = true ->
  exists p' ls', exec fuel (CmMove i) p = Some p' /\ prog_inv n p' (hold_act (CmMove i) xs) ls'.
Proof.
  intros Hp (x & Hx & Hne & Ed)%is_there_spec. destruct (prog_at n p xs ls i x Hp Hx Hne) as (s & l & Es & Hsi & Hl & Hs & _).
  pose proof (pi_len _ _ _ _ Hp) as [L1 L2]. pose proof (lookup_lt_Some _ _ _ Hl) as Hlt.
  cbn [exec hold_act]. rewrite Es, Ed. unfold ScratchMove. rewrite ScratchAssign_swaps.
  eexists _, (<[i := []]> ls ++ [l]). split; [reflexivity|].
  apply (prog_permute n p xs ls _ _ _ (fun j => if decide (j = length ls) then i else j)); [done|rewrite !length_app, !length_insert; cbn; lia..| | |].
  - intros j y o lj Hy Ho Hj. apply lookup_app_Some in Hj as [Hj|[Hge Hj]].
    + pose proof (lookup_lt_Some _ _ _ Hj) as Hjl. rewrite length_insert in Hjl. rewrite lookup_app_l in Hy by (rewrite length_insert; lia).
      rewrite lookup_app_l in Ho by (rewrite length_insert; lia). rewrite decide_False by lia.
      apply list_lookup_insert_Some in Hj as [(<- & <- & _)|[Nj Hj]].
      * rewrite list_lookup_insert_eq in Hy by lia. rewrite list_lookup_insert_eq in Ho by lia. injection Hy as <-. injection Ho as <-.
        split; [done|by left].
      * rewrite list_lookup_insert_ne in Hy by done. rewrite list_lookup_insert_ne in Ho by done. split; [|by right].
        by apply (pi_holds _ _ _ _ Hp j y o lj).
    + rewrite length_insert in *. rewrite lookup_app_r in Hy by (rewrite length_insert; lia).
      rewrite lookup_app_r in Ho by (rewrite length_insert; lia). rewrite length_insert in Hy. rewrite length_insert in Ho. rewrite L1, <- L2 in Hy. rewrite <- L2 in Ho.
      destruct (j - length ls)%nat eqn:Ej; [|done]. injection Hy as <-. injection Ho as <-. injection Hj as <-.
      rewrite decide_True by lia. split; [done|by right].
  - intros j k lj lk Hj Hk Nj Nk E.
    assert (Hi : forall q lq, (<[i:=[]]> ls ++ [l]) !! q = Some lq -> lq <> [] -> q <> i).
    { intros q lq Hq Nq ->. rewrite lookup_app_l in Hq by (rewrite length_insert; lia). rewrite list_lookup_insert_eq in Hq by lia. congruence. }
    specialize (Hi) as Hi'. pose proof (Hi j lj Hj Nj). pose proof (Hi k lk Hk Nk). do 2 case_decide; congruence.
  - intros k lk Hk Hne'. destruct (decide (k = i)) as [->|Nk].
    + exists (length ls). rewrite lookup_app_r by (rewrite length_insert; lia). rewrite length_insert, Nat.sub_diag.
      rewrite Hl in Hk. exact Hk.
    + exists k. apply lookup_app_l_Some. by rewrite list_lookup_insert_ne.
Qed.

Lemma assign_inv fuel n p xs ls i j :
  prog_inv n p xs ls -> is_there i xs && is_there j xs = true ->
  exists p' ls', exec fuel (CmAssign i j) p = Some p' /\ prog_inv n p' (hold_act (CmAssign i j) xs) ls'.
Proof.
  intros Hp [(x & Hx & Hnx & Ex)%is_there_spec (y & Hy & Hny & Ey)%is_there_spec]%andb_true_iff.
  destruct (prog_at n p xs ls i x Hp Hx Hnx) as (s & l & Es & Hsi & Hl & Hs & _).
  destruct (prog_at n p xs ls j y Hp Hy Hny) as (t & k & Et & Htj & Hk & Ht & _).
  pose proof (pi_len _ _ _ _ Hp) as [L1 L2]. pose proof (lookup_lt_Some _ _ _ Hl). pose proof (lookup_lt_Some _ _ _ Hk).
  cbn [exec hold_act]. rewrite Es, Et, Ex, Ey, ScratchAssign_swaps.
  eexists _, (<[j := l]> (<[i := k]> ls)). split; [reflexivity|].
  set (f := fun q => if decide (q = j) then i else if decide (q = i) then j else q).
  assert (Hget : forall {A} (u : list A) (a b : A) q, (i < length u)%nat -> (j < length u)%nat -> u !! i = Some a -> u !! j = Some b ->
    <[j := a]> (<[i := b]> u) !! q = u !! f q).
  { intros A u a b q Hi Hj Ha Hb. unfold f. destruct (decide (q = j)) as [->|Nj].
    - rewrite list_lookup_insert_eq by (by rewrite length_insert). by rewrite Ha.
    - rewrite list_lookup_insert_ne by done. destruct (decide (q = i)) as [->|Ni]; [by rewrite list_lookup_insert_eq, Hb by done|].
      by rewrite list_lookup_insert_ne. }
  assert (Hff : forall q, f (f q) = q) by (intros q; unfold f; repeat case_decide; congruence).
  apply (prog_permute n p xs ls _ _ _ f); [done|by rewrite !length_insert|by rewrite !length_insert| | |].
  - intros q z o lq. rewrite !Hget by (done || lia). intros Hz Ho Hq. split; [by apply (pi_holds _ _ _ _ Hp (f q) z o lq)|by right].
  - intros q r lq lr _ _ _ _ E. by rewrite <- (Hff q), E, Hff.
  - intros q lq Hq _. exists (f q). by rewrite Hget, Hff by (done || lia).
Qed.

Lemma destroy_inv fuel n p xs ls i :
  prog_inv n p xs ls -> is_there i xs = true -> (n <= fuel)%nat ->
  exists p' ls', exec fuel (CmDestroy i) p = Some p' /\ prog_inv n p' (hold_act (CmDestroy i) xs) ls'.
Proof.
  intros Hp (x & Hx & Hne & _)%is_there_spec Hf. destruct (prog_at n p xs ls i x Hp Hx Hne) as (s & l & Es & Hsi & Hl & Hs & Hnd & Hn).
  cbn [exec hold_act]. rewrite Es. unfold ScratchDestroy.
  assert (Hch : chain (arenas (memory p)) (head_arena_ s) l) by (destruct x; [apply Hs|destruct Hs as [E ->]; exact E|done]).
  destruct (ArenaDestroy_spec base fuel (head_arena_ s) l (memory p) (pi_heap _ _ _ _ Hp) Hch Hnd) as (m' & -> & Hm' & Hgone & Hkept); [lia|].
  cbn [option_map]. eexists _, _. split; [reflexivity|]. apply (prog_change n n p xs ls i l); try done; [|constructor|cbn; lia].
  split; [done|by intros a ?%elem_of_nil|intros a Ha _; by apply Hkept|]. intros a [y Hy] Ha. by rewrite Hgone in Hy.
Qed.

Lemma command_inv fuel n c p xs ls :
  prog_inv n p xs ls -> hold_ok c xs = true -> (n + cost c <= fuel)%nat ->
  exists p' ls', exec fuel c p = Some p' /\ prog_inv (n + cost c) p' (hold_act c xs) ls'.
Proof.
  intros Hp Hok Hf. destruct c as [r|i k size|i|i reqs|i|i j|i]; cbn [hold_ok cost] in *; rewrite ?Nat.add_0_r in *.
  - by apply (new_inv fuel n p xs ls r).
  - apply andb_true_iff in Hok as [Hi%is_full_spec Hk]. destruct (prog_at n p xs ls i HFull Hp Hi) as (s & l & Es & Hsi & Hl & Hs & Hnd & Hn); [done|].
    destruct (AllocAligned_full base fuel k size s (memory p) l (pi_heap _ _ _ _ Hp) Hs Hnd Hk) as (q & s' & m' & l' & E & Hg & Hs' & Hlen); [lia|].
    cbn [exec hold_act]. rewrite Es, E. cbn [option_map fst snd].
    destruct (full_step n (n + 1) p xs ls i s l s' m' l') as [ls' Hp']; try done; [lia..|]. by eexists _, ls'.
  - apply is_full_spec in Hok. destruct (prog_at n p xs ls i HFull Hp Hok) as (s & l & Es & Hsi & Hl & Hs & Hnd & Hn); [done|].
    pose proof Hs as (Hch & Hreal & h & c & ptr & Hh & Hc & Hcl & Hptr). destruct l as [|a l]; [by apply elem_of_nil in Hcl|].
    pose proof Hch as [Ea (y & Hy & _)]. cbn [exec hold_act]. rewrite Es. unfold Purge. rewrite Ea. cbn [mbind option_bind]. rewrite Hy. cbn [option_map].
    destruct (full_step n n p xs ls i s (a :: l) (MkScratch (real_allocator_ s) (Some a) (Some a) (Some (bytes_ y)) (total_size_ s))
      (memory p) (a :: l)) as [ls' Hp']; try done.
    + by apply grown_refl, Hnd; apply Hp.
    + rewrite Ea in Hch. split; [done|]. split; [done|]. exists a, a, (bytes_ y). split_and!; try done. by left.
    + by eexists _, ls'.
  - apply andb_true_iff in Hok as [Hi%is_full_spec Hk]. destruct (prog_at n p xs ls i HFull Hp Hi) as (s & l & Es & Hsi & Hl & Hs & Hnd & Hn); [done|].
    assert (Hks : Forall (fun r => Allocator.IsValidAlignment (fst r) = true) reqs).
    { apply List.Forall_forall. by rewrite forallb_forall in Hk. }
    destruct (AllocAll_full base fuel reqs s (memory p) l (pi_heap _ _ _ _ Hp) Hs Hnd Hks) as (s' & m' & l' & E & Hg & Hs' & Hlen); [lia|].
    cbn [exec hold_act]. rewrite Es. unfold Scoped. rewrite E. cbn [option_map fst snd].
    destruct (full_step n (n + length reqs) p xs ls i s l
      (MkScratch (real_allocator_ s') (head_arena_ s') (cur_arena_ s) (cur_ptr_ s) (total_size_ s')) m' l') as [ls' Hp']; try done; [lia| |lia|].
    + destruct Hs as (_ & _ & _ & c & ptr & _ & Hc & Hcl & Hptr). destruct Hs' as (Hch' & Hreal' & h' & _ & _ & Hh' & _).
      split; [done|]. split; [done|]. exists h', c, ptr. split_and!; try done. by apply (gr_old _ _ _ _ _ Hg).
    + by eexists _, ls'.
  - by apply (move_inv fuel n p xs ls i).
  - by apply (assign_inv fuel n p xs ls i j).
  - by apply (destroy_inv fuel n p xs ls i).
Qed.

Lemma exec_all_inv fuel cs n p xs ls :
  prog_inv n p xs ls -> program_ok cs xs = true -> (n + sum_list_with cost cs <= fuel)%nat ->
  exists p' n' ls', exec_all fuel cs p = Some p' /\ prog_inv n' p' (fold_left (fun xs c => hold_act c xs) cs xs) ls'.
Proof.
  revert n p xs ls. induction cs as [|c cs IH]; intros n p xs ls Hp Hok Hf; cbn [exec_all fold_left program_ok sum_list_with] in *.
  - by exists p, n, ls.
  - apply andb_true_iff in Hok as [Hc Hcs]. destruct (command_inv fuel n c p xs ls Hp Hc) as (p1 & ls1 & -> & Hp1); [lia|].
    by apply (IH (n + cost c)%nat p1 _ ls1 Hp1 Hcs); lia.
Qed.
End Programs.

(** * Objects

    Objects of one type made by an allocator; which ones live is a table. *)

Section Objects.
  Context {H T : Type} `{HeapLaws H} (sizeof : Z).

Record ObjectMemory := MkObjects { object_heap : H; objects : gmap Z T }.

(** source/base/allocator.h:30-35 [CreateObject] *)
Definition CreateObject (v : T) (m : ObjectMemory) : option (Z * ObjectMemory) :=
  let '(buf, h) := heap_alloc max_align sizeof (object_heap m) in
  if buf =? 0 then None else Some (buf, MkObjects h (<[buf := v]> (objects m))).

(** source/base/allocator.h:37-42 [DestroyObject] *)
Definition DestroyObject (object : Z) (m : ObjectMemory) : option ObjectMemory :=
  if object =? 0 then None
  else
    match objects m !! object with
    | None => None
    | Some _ => option_map (fun h => MkObjects h (delete object (objects m))) (Free object (object_heap m))
    end.

(** [allocator_] is set or null. *)
(** source/base/allocator.h:56-59 [StdAlloc::allocate] *)
Definition allocate (allocator_ : bool) (n : Z) (h : H) : option (Z * H) :=
  if allocator_ then Some (heap_alloc max_align (n * sizeof) h) else None.

(** source/base/allocator.h:60-63 [StdAlloc::deallocate] *)
Definition deallocate (allocator_ : bool) (p : Z) (h : H) : option H := if allocator_ then Free p h else None.

(** source/base/system_allocator.cc:36-39 [SystemAllocator::AllocAligned] *)
Definition SystemAllocAligned (alignment size : Z) (h : H) : option (Z * H) :=
  if Allocator.IsValidAlignment alignment then Some (heap_alloc alignment size h) else None.

(** Every object is a live block. *)
Definition objects_ok (m : ObjectMemory) : Prop := forall p, is_Some (objects m !! p) -> 0 < p /\ p ∈ blocks (object_heap m).

(** Creating gives a new object and keeps the others; destroying any object
    then frees its block and nothing else; destroying the new one undoes it. *)
Lemma objects_spec v m :
  objects_ok m ->
  exists p m1, CreateObject v m = Some (p, m1) /\ objects m !! p = None /\ objects m1 = <[p := v]> (objects m) /\ objects_ok m1 /\
  (forall q, is_Some (objects m1 !! q) -> exists m2, DestroyObject q m1 = Some m2 /\ objects_ok m2 /\
     objects m2 = delete q (objects m1) /\ blocks (object_heap m2) = blocks (object_heap m1) ∖ {[q]}) /\
  exists m2, DestroyObject p m1 = Some m2 /\ objects m2 = objects m /\ blocks (object_heap m2) = blocks (object_heap m).
Proof.
  intros Hm. unfold CreateObject. destruct (heap_alloc _ _ _) as [p h] eqn:E. destruct (alloc_fresh _ _ _ _ _ E) as (Hp & Hn & Hb).
  destruct (Z.eqb_spec p 0); [lia|]. set (m1 := MkObjects h (<[p := v]> (objects m))).
  assert (Hnone : objects m !! p = None) by (destruct (objects m !! p) eqn:Eo; [|done]; destruct Hn; apply Hm; by rewrite Eo).
  assert (Hm1 : objects_ok m1).
  { intros q Hq. unfold m1 in Hq. cbn [objects] in Hq. apply lookup_insert_is_Some' in Hq as [<-|Hq]; [split; [done|]; cbn; rewrite Hb; by apply elem_of_union_l, elem_of_singleton|].
    destruct (Hm q Hq). split; [done|]. cbn. rewrite Hb. by apply elem_of_union_r. }
  assert (Hdes : forall q, is_Some (objects m1 !! q) -> exists m2, DestroyObject q m1 = Some m2 /\ objects_ok m2 /\
     objects m2 = delete q (objects m1) /\ blocks (object_heap m2) = blocks (object_heap m1) ∖ {[q]}).
  { intros q Hq. destruct (Hm1 q Hq) as [Hq0 Hqb]. unfold DestroyObject. destruct (Z.eqb_spec q 0); [lia|]. destruct Hq as [y ->].
    unfold Free. rewrite decide_True by done. cbn [option_map]. eexists. split; [reflexivity|]. cbn [object_heap objects].
    split; [|split; [done|by apply free_live]]. intros z [w Hw]. cbn [objects] in Hw. apply lookup_delete_Some in Hw as [Nz Hz]. destruct (Hm1 z ltac:(by rewrite Hz)) as [Hz0 Hzb].
    split; [done|]. cbn [object_heap]. rewrite free_live by done. apply elem_of_difference. split; [done|]. by apply not_elem_of_singleton, not_eq_sym. }
  exists p, m1. split; [done|]. split; [done|]. split; [done|]. split; [done|]. split; [done|].
  destruct (Hdes p) as (m2 & E2 & _ & Ho & Hbl); [by cbn; rewrite lookup_insert_eq|].
  exists m2. split; [done|]. split; [rewrite Ho; cbn; by rewrite delete_insert_id|]. rewrite Hbl. cbn [object_heap m1]. rewrite Hb. set_solver.
Qed.
End Objects.

(** * Properties *)

(** C27. The memory of scratch allocators is freed once: a program that makes
    allocators, allocates only where there are arenas, purges, uses them
    scoped, moves and swaps them and ends their lives in any order never
    touches an arena that is gone, frees nothing twice and fails no assertion;
    at every moment the live blocks are those before and, for every arena of an
    allocator, the arena and its bytes, each arena belonging to one allocator;
    and when no allocator holds arenas any more the live blocks are those
    before. *)
Theorem scratch_memory_is_freed_once {H : Type} `{HeapLaws H} fuel cs (h : H) :
  program_ok cs [] = true -> (sum_list_with cost cs <= fuel)%nat ->
  let xs := fold_left (fun xs c => hold_act c xs) cs [] in
  exists p (ls : list (list Z)), exec_all fuel cs (MkProgram [] (MkMemory h empty)) = Some p /\
    (forall i x o l, xs !! i = Some x -> scratches p !! i = Some o -> ls !! i = Some l -> holds (arenas (memory p)) x o l) /\
    (forall i j li lj a, ls !! i = Some li -> ls !! j = Some lj -> a ∈ li -> a ∈ lj -> i = j) /\
    (forall a, is_Some (arenas (memory p) !! a) <-> exists i l, ls !! i = Some l /\ a ∈ l) /\
    (forall x, x ∈ blocks (heap (memory p)) <->
       x ∈ blocks h \/ is_Some (arenas (memory p) !! x) \/ exists q a, arenas (memory p) !! q = Some a /\ bytes_ a = x) /\
    (HFull ∉ xs -> arenas (memory p) = empty /\ blocks (heap (memory p)) = blocks h).
Proof.
  intros Hok Hf xs.
  assert (Hstart : prog_inv (blocks h) 0 (MkProgram [] (MkMemory h empty)) [] []).
  { split; cbn [scratches memory arenas]; try done; [intros a Ha; by apply lookup_empty_is_Some in Ha|by apply heap_inv_start]. }
  destruct (exec_all_inv (blocks h) fuel cs 0 _ _ _ Hstart Hok) as (p & n & ls & E & Hp); [lia|]. fold xs in Hp.
  pose proof Hp as [[L1 L2] I2 I3 I4 I5]. pose proof (hi_blocks _ _ I5) as Hb.
  assert (Hin : forall i l, ls !! i = Some l -> exists x o, xs !! i = Some x /\ scratches p !! i = Some o).
  { intros i l Hi. pose proof (lookup_lt_Some _ _ _ Hi). destruct (lookup_lt_is_Some_2 xs i) as [x Hx]; [lia|].
    destruct (lookup_lt_is_Some_2 (scratches p) i) as [o Ho]; [lia|]. by exists x, o. }
  exists p, ls. split; [done|]. split; [intros i x o l Hx Ho Hi; by apply (I2 i x o l)|]. split; [done|]. split; [|split; [done|]].
  - intros a. split; [apply I4|]. intros (i & l & Hi & Ha). destruct (Hin i l Hi) as (x & o & Hx & Ho).
    by apply (holding_in (arenas (memory p)) x o l), Ha; apply (I2 i x o l).
  - intros Hnf. assert (Hempty : arenas (memory p) = empty).
    { apply map_empty. intros a. destruct (arenas (memory p) !! a) eqn:Ea; [|done]. destruct (I4 a) as (i & l & Hi & Ha); [by rewrite Ea|].
      destruct (Hin i l Hi) as (x & o & Hx & Ho). destruct (I2 i x o l Hx Ho Hi) as (Hh & _). destruct x.
      - destruct Hnf. by eapply list_elem_of_lookup_2.
      - destruct o; [destruct Hh as [_ ->]; by apply elem_of_nil in Ha|done].
      - destruct o; [done|]. cbn in Hh. subst l. by apply elem_of_nil in Ha. }
    split; [done|]. apply set_eq. intros x. rewrite Hb, Hempty. symmetry. exact (hi_blocks _ _ (heap_inv_start h) x).
Qed.

(** A heap whose next block lies behind all live ones. *)
Definition top (used : gset Z) : Z := foldr Z.max 0 (elements used).
#[export] Instance DemoHeap_heap : Heap (gset Z) := {
  heap_alloc _ size used := (top used + 16, {[top used + 16]} ∪ used);
  heap_free p used := used ∖ {[p]};
  blocks used := used
}.

Lemma top_nonneg used : 0 <= top used.
Proof. unfold top. generalize (elements used). intros l. induction l as [|y l IH]; cbn; lia. Qed.

Lemma top_above used x : x ∈ used -> x <= top used.
Proof.
  rewrite <- elem_of_elements. unfold top. induction (elements used) as [|y l IH]; [by intros ?%elem_of_nil|].
  intros [->|Hx]%elem_of_cons; cbn; [lia|]. specialize (IH Hx). lia.
Qed.

#[export] Instance DemoHeap_laws : HeapLaws (gset Z).
Proof.
  split; [|done]. intros k size used p h' E. cbn in E. injection E as <- <-. cbn [blocks DemoHeap_heap]. split.
  - pose proof (top_nonneg used). lia.
  - split; [|done]. intros Hin%top_above. lia.
Qed.

Definition demo_program : list Command :=
  [CmNew 64; CmAlloc 0 16 40; CmAlloc 0 16 100; CmMove 0; CmScoped 1 [(8, 200); (8, 30)]; CmNew 0; CmAssign 2 1; CmPurge 2;
   CmDestroy 1; CmDestroy 2; CmDestroy 0].

Lemma scratch_memory_is_freed_once_witness :
  exists p, exec_all 6 demo_program (MkProgram [] (MkMemory ({[7]} : gset Z) empty)) = Some p /\
    arenas (memory p) = empty /\ blocks (heap (memory p)) = {[7]}.
Proof.
  destruct (scratch_memory_is_freed_once 6 demo_program ({[7]} : gset Z)) as (p & ls & E & _ & _ & _ & _ & Hend).
  - vm_compute. reflexivity.
  - vm_compute. lia.
  - exists p. split; [exact E|]. apply Hend. apply (bool_decide_unpack _). vm_compute. exact I.
Defined.
