(* ===== verification/Lifetime.v ===== *)
(** [base/dep.h]: owning handles ([Dependable]) and references ([Dep]), with
    the lifetime tracking of debug builds.

    A [std::shared_ptr] is the name of its control block, its use count the
    number of handles that hold the name.  [track] says whether the program is
    built with [XYNQ_TRACK_DEP_LIFETIME].  [None] is a failed assertion, an
    object deleted twice, or a handle that does not exist. *)
From S2P Require Import Prelude.
From stdpp Require Import fin_maps gmap.

(** * Data *)

(** A [T *]: null, an object on the heap, or the object inside a [Dependable]
    by value. *)
Inductive Ptr := PNull | PHeap (n : nat) | PInside (v : nat).

#[export] Instance Ptr_eq_dec : EqDecision Ptr.
Proof. solve_decision. Defined.

(** source/base/dep.h:56-86 [Dependable] *)
Record DependablePtr := MkDependable { object_ : Ptr; lifetime_ : option nat }.

(** The object itself has the address of its handle. *)
(** source/base/dep.h:28-54 [Dependable] *)
Record DependableVal := MkDependableVal { val_lifetime_ : option nat }.

(** source/base/dep.h:88-128 [Dep] *)
Record Dep := MkDep { ptr_ : Ptr; dep_lifetime_ : option nat }.

(** All handles of a program by name, the control blocks with the flag they
    hold, the objects that were made by [new] and not deleted. *)
(** source/base/dep.h:15-24 [DepLifetime] *)
Record Handles := MkHandles {
  by_ptr : gmap nat DependablePtr;
  by_val : gmap nat DependableVal;
  deps : gmap nat Dep;
  alive_ : gmap nat bool;
  heap : gset nat
}.

Definition no_handles : Handles := MkHandles empty empty empty empty empty.

Definition set_ptr (d : nat) (x : DependablePtr) (s : Handles) : Handles :=
  MkHandles (<[d := x]> (by_ptr s)) (by_val s) (deps s) (alive_ s) (heap s).
Definition set_val (v : nat) (x : DependableVal) (s : Handles) : Handles :=
  MkHandles (by_ptr s) (<[v := x]> (by_val s)) (deps s) (alive_ s) (heap s).
Definition set_dep (h : nat) (x : Dep) (s : Handles) : Handles :=
  MkHandles (by_ptr s) (by_val s) (<[h := x]> (deps s)) (alive_ s) (heap s).

(** * Lifetimes *)

Definition holders {A} (life : A -> option nat) (l : nat) (m : gmap nat A) : nat :=
  size (filter (fun kx => life kx.2 = Some l) m).

(** [lifetime_.use_count()] *)
Definition use_count (l : nat) (s : Handles) : nat :=
  holders lifetime_ l (by_ptr s) + holders val_lifetime_ l (by_val s) + holders dep_lifetime_ l (deps s).

(** source/base/dep.h:19-19 [DepLifetime::IsAlive] *)
Definition IsAlive (l : nat) (s : Handles) : bool := default false (alive_ s !! l).

(** source/base/dep.h:20-20 [DepLifetime::Kill] *)
Definition Kill (l : nat) (s : Handles) : Handles :=
  MkHandles (by_ptr s) (by_val s) (deps s) (<[l := false]> (alive_ s)) (heap s).

(** [XYAssert(lifetime_ != nullptr); XYAssert(lifetime_->IsAlive())] *)
Definition dead_on_arrival (l : option nat) (s : Handles) : bool :=
  match l with None => true | Some l => negb (IsAlive l s) end.

Section Ops.
  Context (track : bool).

(** [lifetime_ = std::make_shared<detail::DepLifetime>()] *)
(** source/base/dep.h:18-18 [DepLifetime] *)
Definition make_lifetime (s : Handles) : option nat * Handles :=
  if track then
    let l := fresh (dom (alive_ s)) in
    (Some l, MkHandles (by_ptr s) (by_val s) (deps s) (<[l := true]> (alive_ s)) (heap s))
  else (None, s).

(** The guarded assertions of the handles. *)
Definition asserted (nonnull : bool) (l : option nat) (s : Handles) : bool :=
  track && nonnull && dead_on_arrival l s.

Definition is_null (p : Ptr) : bool := bool_decide (p = PNull).

(** * Dependable by pointer *)

(** source/base/dep.h:186-192 [Dependable] *)
Definition DependableNew (d : nat) (object : Ptr) (s : Handles) : Handles :=
  let '(l, s) := make_lifetime s in set_ptr d (MkDependable object l) s.

(** [new T] and the handle of the result. *)
(** source/base/dep.h:160-167 [Dependable] *)
Definition DependableMake (d : nat) (s : Handles) : Handles :=
  let n := fresh (heap s) in
  DependableNew d (PHeap n) (MkHandles (by_ptr s) (by_val s) (deps s) (alive_ s) ({[n]} ∪ heap s)).

(** source/base/dep.h:169-175 [Dependable] *)
Definition DependableMove (d other : nat) (s : Handles) : option Handles :=
  match by_ptr s !! other with
  | None => None
  | Some x => Some (set_ptr d x (set_ptr other (MkDependable PNull None) s))
  end.

(** source/base/dep.h:177-184 [operator=] *)
Definition DependableAssign (d other : nat) (s : Handles) : option Handles :=
  match by_ptr s !! d, by_ptr s !! other with
  | Some x, Some y => Some (set_ptr d y (set_ptr other x s))
  | _, _ => None
  end.

Definition delete_object (p : Ptr) (s : Handles) : option Handles :=
  match p with
  | PNull => Some s
  | PHeap n =>
      if decide (n ∈ heap s)
      then Some (MkHandles (by_ptr s) (by_val s) (deps s) (alive_ s) (heap s ∖ {[n]}))
      else None
  | PInside _ => None
  end.

(** The tracked destruction of a handle on something: the assertions and the end
    of the lifetime. *)
(** source/base/dep.h:198-202 [Dependable] *)
Definition end_lifetime (l : option nat) (s : Handles) : option Handles :=
  match l with
  | None => None
  | Some l => if IsAlive l s && (use_count l s =? 1)%nat then Some (Kill l s) else None
  end.

(** source/base/dep.h:194-208 [Dependable] *)
Definition DependableDestroy (d : nat) (s : Handles) : option Handles :=
  match by_ptr s !! d with
  | None => None
  | Some x =>
      match (if track && negb (is_null (object_ x)) then end_lifetime (lifetime_ x) s else Some s) with
      | None => None
      | Some s' =>
          delete_object (object_ x) (MkHandles (delete d (by_ptr s')) (by_val s') (deps s') (alive_ s') (heap s'))
      end
  end.

(** * Dependable by value *)

(** source/base/dep.h:131-146 [Dependable] *)
Definition DependableValNew (v : nat) (s : Handles) : Handles :=
  let '(l, s) := make_lifetime s in set_val v (MkDependableVal l) s.

(** [= default]: moving a [shared_ptr] leaves a null one. *)
(** source/base/dep.h:37-37 [Dependable] *)
Definition DependableValMove (v other : nat) (s : Handles) : option Handles :=
  match by_val s !! other with
  | None => None
  | Some x => Some (set_val v x (set_val other (MkDependableVal None) s))
  end.

(** source/base/dep.h:38-38 [operator=] *)
Definition DependableValAssign (v other : nat) (s : Handles) : option Handles :=
  match by_val s !! v, by_val s !! other with
  | Some _, Some x =>
      Some (if (v =? other)%nat then s else set_val v x (set_val other (MkDependableVal None) s))
  | _, _ => None
  end.

(** source/base/dep.h:148-157 [Dependable] *)
Definition DependableValDestroy (v : nat) (s : Handles) : option Handles :=
  match by_val s !! v with
  | None => None
  | Some x =>
      match (if track then end_lifetime (val_lifetime_ x) s else Some s) with
      | None => None
      | Some s' => Some (MkHandles (by_ptr s') (delete v (by_val s')) (deps s') (alive_ s') (heap s'))
      end
  end.

(** * Dep *)

(** source/base/dep.h:222-230 [Dep] *)
Definition DepNull (h : nat) (s : Handles) : Handles := set_dep h (MkDep PNull None) s.

(** source/base/dep.h:212-220 [Dep] *)
Definition DepOfPtr (h d : nat) (s : Handles) : option Handles :=
  match by_ptr s !! d with
  | None => None
  | Some x => if asserted true (lifetime_ x) s then None else Some (set_dep h (MkDep (object_ x) (lifetime_ x)) s)
  end.

(** source/base/dep.h:232-241 [Dep] *)
Definition DepOfVal (h v : nat) (s : Handles) : option Handles :=
  match by_val s !! v with
  | None => None
  | Some x =>
      if asserted true (val_lifetime_ x) s then None
      else Some (set_dep h (MkDep (PInside v) (val_lifetime_ x)) s)
  end.

(** source/base/dep.h:279-289 [Dep] *)
Definition DepCopy (h other : nat) (s : Handles) : option Handles :=
  match deps s !! other with
  | None => None
  | Some x => if asserted (negb (is_null (ptr_ x))) (dep_lifetime_ x) s then None else Some (set_dep h x s)
  end.

(** source/base/dep.h:306-318 [Dep] *)
Definition DepMove (h other : nat) (s : Handles) : option Handles :=
  match deps s !! other with
  | None => None
  | Some x =>
      if asserted (negb (is_null (ptr_ x))) (dep_lifetime_ x) s then None
      else Some (set_dep h x (set_dep other (MkDep PNull None) s))
  end.

(** A [Ptr] names the object whatever its static type, so the conversion to a
    base class keeps it. *)
(** source/base/dep.h:243-252 [Dep] *)
Definition DepOfDerivedPtr (h d : nat) (s : Handles) : option Handles :=
  match by_ptr s !! d with
  | None => None
  | Some x => if asserted true (lifetime_ x) s then None else Some (set_dep h (MkDep (object_ x) (lifetime_ x)) s)
  end.

(** source/base/dep.h:254-263 [Dep] *)
Definition DepOfDerivedVal (h v : nat) (s : Handles) : option Handles :=
  match by_val s !! v with
  | None => None
  | Some x =>
      if asserted true (val_lifetime_ x) s then None
      else Some (set_dep h (MkDep (PInside v) (val_lifetime_ x)) s)
  end.

(** source/base/dep.h:265-277 [Dep] *)
Definition DepCopyDerived (h other : nat) (s : Handles) : option Handles :=
  match deps s !! other with
  | None => None
  | Some x => if asserted (negb (is_null (ptr_ x))) (dep_lifetime_ x) s then None else Some (set_dep h x s)
  end.

(** source/base/dep.h:291-304 [Dep] *)
Definition DepMoveDerived (h other : nat) (s : Handles) : option Handles :=
  match deps s !! other with
  | None => None
  | Some x =>
      if asserted (negb (is_null (ptr_ x))) (dep_lifetime_ x) s then None
      else Some (set_dep h x (set_dep other (MkDep PNull None) s))
  end.

(** source/base/dep.h:320-332 [operator=] *)
Definition DepAssign (h other : nat) (s : Handles) : option Handles :=
  match deps s !! h, deps s !! other with
  | Some x, Some y =>
      if asserted (negb (is_null (ptr_ x))) (dep_lifetime_ x) s then None else Some (set_dep h y s)
  | _, _ => None
  end.

(** Moving a [Dep] to itself keeps the lifetime and loses the pointer. *)
(** source/base/dep.h:334-347 [operator=] *)
Definition DepMoveAssign (h other : nat) (s : Handles) : option Handles :=
  match deps s !! h, deps s !! other with
  | Some x, Some y =>
      if asserted (negb (is_null (ptr_ x))) (dep_lifetime_ x) s then None
      else Some (if (h =? other)%nat then set_dep h (MkDep PNull (dep_lifetime_ x)) s
                 else set_dep h y (set_dep other (MkDep PNull None) s))
  | _, _ => None
  end.

(** source/base/dep.h:349-358 [Dep] *)
Definition DepDestroy (h : nat) (s : Handles) : option Handles :=
  match deps s !! h with
  | None => None
  | Some x =>
      if asserted (negb (is_null (ptr_ x))) (dep_lifetime_ x) s then None
      else Some (MkHandles (by_ptr s) (by_val s) (delete h (deps s)) (alive_ s) (heap s))
  end.

(** * The system allocator *)

(** The handle [d] of the shared instance is made with the program; [tmp] is
    the handle that is made of the assigned pointer. *)
(** source/base/system_allocator.cc:7-9 [shared_instance] *)
Definition SharedInstance (d : nat) (s : Handles) : Handles := DependableNew d PNull s.

(** source/base/system_allocator.cc:12-15 [SystemAllocator::Shared] *)
Definition SystemShared (d : nat) (s : Handles) : option Ptr :=
  match by_ptr s !! d with Some x => if is_null (object_ x) then None else Some (object_ x) | None => None end.

(** source/base/system_allocator.cc:21-23 [SystemAllocator::Initialize] *)
Definition SystemInitialize (d tmp : nat) (s : Handles) : option Handles :=
  DependableAssign d tmp (DependableMake tmp s) ≫= DependableDestroy tmp.

(** source/base/system_allocator.cc:25-27 [SystemAllocator::Shutdown] *)
Definition SystemShutdown (d tmp : nat) (s : Handles) : option Handles :=
  DependableAssign d tmp (DependableNew tmp PNull s) ≫= DependableDestroy tmp.

(** * Programs *)

(** What a program does with its handles.  A new handle has a name that is not
    in use. *)
Inductive HandleAction :=
| HMake (d : nat) | HEmpty (d : nat) | HMove (d other : nat) | HAssign (d other : nat) | HDestroy (d : nat)
| HValNew (v : nat) | HValMove (v other : nat) | HValAssign (v other : nat) | HValDestroy (v : nat)
| HDepNull (h : nat) | HDepOfPtr (h d : nat) | HDepOfVal (h v : nat) | HDepCopy (h other : nat)
| HDepOfDerivedPtr (h d : nat) | HDepOfDerivedVal (h v : nat) | HDepCopyDerived (h other : nat) | HDepMoveDerived (h other : nat)
| HDepMove (h other : nat) | HDepAssign (h other : nat) | HDepMoveAssign (h other : nat) | HDepDestroy (h : nat).

Definition unused {A} (k : nat) (m : gmap nat A) : bool := bool_decide (m !! k = None).

Definition act (a : HandleAction) (s : Handles) : option Handles :=
  match a with
  | HMake d => if unused d (by_ptr s) then Some (DependableMake d s) else None
  | HEmpty d => if unused d (by_ptr s) then Some (DependableNew d PNull s) else None
  | HMove d other => if unused d (by_ptr s) then DependableMove d other s else None
  | HAssign d other => DependableAssign d other s
  | HDestroy d => DependableDestroy d s
  | HValNew v => if unused v (by_val s) then Some (DependableValNew v s) else None
  | HValMove v other => if unused v (by_val s) then DependableValMove v other s else None
  | HValAssign v other => DependableValAssign v other s
  | HValDestroy v => DependableValDestroy v s
  | HDepNull h => if unused h (deps s) then Some (DepNull h s) else None
  | HDepOfPtr h d => if unused h (deps s) then DepOfPtr h d s else None
  | HDepOfVal h v => if unused h (deps s) then DepOfVal h v s else None
  | HDepCopy h other => if unused h (deps s) then DepCopy h other s else None
  | HDepMove h other => if unused h (deps s) then DepMove h other s else None
  | HDepOfDerivedPtr h x => if unused h (deps s) then DepOfDerivedPtr h x s else None
  | HDepOfDerivedVal h x => if unused h (deps s) then DepOfDerivedVal h x s else None
  | HDepCopyDerived h x => if unused h (deps s) then DepCopyDerived h x s else None
  | HDepMoveDerived h x => if unused h (deps s) then DepMoveDerived h x s else None
  | HDepAssign h other => DepAssign h other s
  | HDepMoveAssign h other => DepMoveAssign h other s
  | HDepDestroy h => DepDestroy h s
  end.

Definition run (acts : list HandleAction) (s : Handles) : option Handles :=
  foldl (fun os a => os ≫= act a) (Some s) acts.
End Ops.

Arguments asserted : simpl never.
Arguments delete_object : simpl never.

(** * What tracking promises *)

(** The lifetime of an owning handle, by pointer ([inl]) or by value ([inr]). *)
Definition lifetime_of (s : Handles) (k : nat + nat) : option nat :=
  match k with inl d => by_ptr s !! d ≫= lifetime_ | inr v => by_val s !! v ≫= val_lifetime_ end.

(** What a non-null [Dep] points to: an object owned with the lifetime of the
    [Dep], or the place of a handle by value that was moved away, which can
    not be destroyed any more. *)
Definition refers (s : Handles) (x : Dep) : Prop :=
  match ptr_ x with
  | PNull => True
  | PHeap n =>
      n ∈ heap s /\
      exists d l, by_ptr s !! d = Some (MkDependable (PHeap n) (Some l)) /\ dep_lifetime_ x = Some l
  | PInside v =>
      exists l ol, dep_lifetime_ x = Some l /\ by_val s !! v = Some (MkDependableVal ol) /\ (ol = Some l \/ ol = None)
  end.
Arguments refers : simpl never.

Definition object_ok (s : Handles) (x : DependablePtr) : Prop :=
  match object_ x with
  | PNull => True
  | PHeap n => n ∈ heap s /\ is_Some (lifetime_ x)
  | PInside _ => False
  end.
Arguments object_ok : simpl never.

(** Every owning handle has a lifetime of its own, which is alive, and every
    object one owner. *)
Record tracked (s : Handles) : Prop := {
  tr_alive : forall k l, lifetime_of s k = Some l -> alive_ s !! l = Some true;
  tr_inj : forall k k' l, lifetime_of s k = Some l -> lifetime_of s k' = Some l -> k = k';
  tr_object : forall d x, by_ptr s !! d = Some x -> object_ok s x;
  tr_object_inj : forall d d' x x' n, by_ptr s !! d = Some x -> by_ptr s !! d' = Some x' ->
    object_ x = PHeap n -> object_ x' = PHeap n -> d = d';
  tr_deps : forall h x, deps s !! h = Some x -> refers s x
}.

(** ** Use counts *)

Lemma holders_pos {A} (life : A -> option nat) l (m : gmap nat A) k x :
  m !! k = Some x -> life x = Some l -> 0 < holders life l m.
Proof.
  intros Hk Hl. unfold holders. destruct (size (filter _ m)) as [|n] eqn:E; [|lia].
  apply map_size_empty_inv in E.
  assert (HF : filter (fun kx => life kx.2 = Some l) m !! k = Some x) by by apply map_lookup_filter_Some.
  rewrite E in HF. by rewrite lookup_empty in HF.
Qed.

Lemma holders_zero {A} (life : A -> option nat) l (m : gmap nat A) :
  (forall k x, m !! k = Some x -> life x <> Some l) -> holders life l m = 0.
Proof.
  intros Hm. unfold holders. apply map_size_empty_iff, map_empty_filter. intros k x Hx. by apply (Hm k x).
Qed.

(** An owner whose lifetime is used once: no [Dep] holds it. *)
Lemma use_count_one s k l : lifetime_of s k = Some l -> use_count l s = 1 ->
  forall h x, deps s !! h = Some x -> dep_lifetime_ x <> Some l.
Proof.
  unfold use_count. intros Hk Hc h x Hx Hl. pose proof (holders_pos dep_lifetime_ l (deps s) h x Hx Hl).
  destruct k as [d|v]; cbn in Hk.
  - destruct (by_ptr s !! d) as [y|] eqn:E; [|done]. pose proof (holders_pos lifetime_ l _ d y E Hk). lia.
  - destruct (by_val s !! v) as [y|] eqn:E; [|done]. pose proof (holders_pos val_lifetime_ l _ v y E Hk). lia.
Qed.

(** ** The invariant is kept by references *)

Ltac handle_cases :=
  cbn in *; repeat match goal with
  | H : <[_ := _]> _ !! _ = Some _ |- _ => apply lookup_insert_Some in H as [[? H]|[? H]]
  | H : delete _ _ !! _ = Some _ |- _ => apply lookup_delete_Some in H as [? H]
  end; simplify_eq/=.

Lemma asserted_false nonnull l s : asserted true nonnull l s = false ->
  nonnull = false \/ exists l', l = Some l' /\ alive_ s !! l' = Some true.
Proof.
  unfold asserted, dead_on_arrival, IsAlive. destruct nonnull; [|auto]. cbn. destruct l as [l|]; [|done].
  destruct (alive_ s !! l) as [[]|] eqn:E; naive_solver.
Qed.

Lemma tracked_deps s D : tracked s -> (forall h x, D !! h = Some x -> refers s x) ->
  tracked (MkHandles (by_ptr s) (by_val s) D (alive_ s) (heap s)).
Proof. intros [] HD. by constructor. Qed.

Lemma dep_of_ptr_ok s d x : tracked s -> by_ptr s !! d = Some x -> asserted true true (lifetime_ x) s = false ->
  refers s (MkDep (object_ x) (lifetime_ x)).
Proof.
  intros Ht Hd Ha. destruct (asserted_false _ _ _ Ha) as [|(l & Hl & Hal)]; [done|].
  pose proof (tr_object _ Ht d x Hd) as Ho. destruct x as [[|n|v] ol]; cbn in *; subst; [done| |done].
  destruct Ho as [? _]. unfold refers; cbn. eauto 6.
Qed.

Lemma dep_of_val_ok s v x : by_val s !! v = Some x -> asserted true true (val_lifetime_ x) s = false ->
  refers s (MkDep (PInside v) (val_lifetime_ x)).
Proof.
  intros Hd Ha. destruct (asserted_false _ _ _ Ha) as [|(l & Hl & Hal)]; [done|].
  destruct x as [ol]; cbn in *; subst. unfold refers; cbn. eauto 6.
Qed.

Definition on_deps (a : HandleAction) : bool :=
  match a with
  | HDepNull _ | HDepOfPtr _ _ | HDepOfVal _ _ | HDepCopy _ _ | HDepMove _ _ | HDepOfDerivedPtr _ _ | HDepOfDerivedVal _ _
  | HDepCopyDerived _ _ | HDepMoveDerived _ _ | HDepAssign _ _ | HDepMoveAssign _ _
  | HDepDestroy _ => true
  | _ => false
  end.

Lemma tracked_on_deps s a s' : tracked s -> on_deps a = true -> act true a s = Some s' -> tracked s'.
Proof.
  intros Ht Hon. pose proof (tr_deps s Ht) as Hget.
  pose proof (fun d x => dep_of_ptr_ok s d x Ht) as Hptr. pose proof (fun v x => dep_of_val_ok s v x) as Hval.
  destruct a; try done; cbn;
    unfold DepNull, DepOfPtr, DepOfVal, DepCopy, DepMove, DepOfDerivedPtr, DepOfDerivedVal, DepCopyDerived, DepMoveDerived, DepAssign, DepMoveAssign, DepDestroy;
    intros Ha; repeat case_match; simplify_eq/=; apply (tracked_deps s); try done;
    intros h' x' Hx'; handle_cases; eauto; done.
Qed.

(** ** ... and by owners *)

Lemma lifetime_of_set_ptr s d x k :
  lifetime_of (set_ptr d x s) k = if decide (k = inl d) then lifetime_ x else lifetime_of s k.
Proof.
  destruct k as [d'|v]; cbn; [|done]. destruct (decide _) as [E|E].
  - injection E as ->. by rewrite lookup_insert_eq.
  - rewrite lookup_insert_ne by congruence. done.
Qed.

Lemma lifetime_of_set_val s v x k :
  lifetime_of (set_val v x s) k = if decide (k = inr v) then val_lifetime_ x else lifetime_of s k.
Proof.
  destruct k as [d'|v']; cbn; [done|]. destruct (decide _) as [E|E].
  - injection E as ->. by rewrite lookup_insert_eq.
  - rewrite lookup_insert_ne by congruence. done.
Qed.

(** Owners may change their handle, and places may be moved away. *)
Lemma refers_keeps s s' x :
  (forall d n l, by_ptr s !! d = Some (MkDependable (PHeap n) (Some l)) -> dep_lifetime_ x = Some l ->
     n ∈ heap s -> n ∈ heap s' /\ exists d', by_ptr s' !! d' = Some (MkDependable (PHeap n) (Some l))) ->
  (forall v l ol, ptr_ x = PInside v -> by_val s !! v = Some (MkDependableVal ol) -> dep_lifetime_ x = Some l -> ol = Some l \/ ol = None ->
     by_val s' !! v = Some (MkDependableVal ol) \/ by_val s' !! v = Some (MkDependableVal None)) ->
  refers s x -> refers s' x.
Proof.
  intros Hp Hv. unfold refers. destruct (ptr_ x) as [|n|v]; [done| |].
  - intros [Hn (d & l & Hd & Hl)]. destruct (Hp _ _ _ Hd Hl Hn) as [? [d' ?]]. eauto 6.
  - intros (l & ol & Hl & Hd & Ho). exists l. destruct (Hv _ _ _ eq_refl Hd Hl Ho) as [?|?]; eauto 6.
Qed.

Lemma lifetime_of_none s d : by_ptr s !! d = None -> lifetime_of s (inl d) = None.
Proof. cbn. by intros ->. Qed.

Lemma object_ok_heap s s' x : heap s ⊆ heap s' -> object_ok s x -> object_ok s' x.
Proof. unfold object_ok. destruct (object_ x); [done| |done]. intros Hs []. split; [set_solver|done]. Qed.

Lemma tracked_new_lifetime s l n : tracked s -> alive_ s !! l = None ->
  tracked (MkHandles (by_ptr s) (by_val s) (deps s) (<[l := true]> (alive_ s)) (n ∪ heap s)) /\
  forall k, lifetime_of s k <> Some l.
Proof.
  intros Ht Hl.
  assert (Hne : forall k, lifetime_of s k <> Some l).
  { intros k E. apply tr_alive in E; [congruence|done]. }
  split; [|done]. destruct Ht. constructor; cbn; [|done| |done|].
  - intros k l' Hk. rewrite lookup_insert_ne; [by eapply tr_alive0|]. intros ->. by eapply Hne.
  - intros d x Hd. eapply object_ok_heap, tr_object0, Hd. cbn. set_solver.
  - intros h x Hx. eapply refers_keeps, tr_deps0, Hx; cbn; [|eauto]. intros. split; [set_solver|eauto].
Qed.

Lemma tracked_add_ptr s d p l : tracked s -> by_ptr s !! d = None -> alive_ s !! l = Some true ->
  (forall k, lifetime_of s k <> Some l) ->
  (p = PNull \/ exists n, p = PHeap n /\ n ∈ heap s /\ forall d' x, by_ptr s !! d' = Some x -> object_ x <> PHeap n) ->
  tracked (set_ptr d (MkDependable p (Some l)) s).
Proof.
  intros [] Hd Hal Hl Hp. constructor.
  - intros k l'. rewrite lifetime_of_set_ptr. case_decide; intros; simplify_eq/=; eauto.
  - intros k k' l'. rewrite !lifetime_of_set_ptr. repeat case_decide; intros; simplify_eq/=; eauto; by edestruct Hl.
  - intros d' x Hx. handle_cases; [|by eapply object_ok_heap, tr_object0].
    unfold object_ok. destruct Hp as [->|(n & -> & ? & _)]; cbn; [done|]. split; [done|eauto].
  - intros d1 d2 x1 x2 n H1 H2 E1 E2.
    handle_cases; eauto; destruct Hp as [?|(n' & ? & _ & Hn)]; simplify_eq; by edestruct Hn.
  - intros h x Hx. cbn in Hx. apply (refers_keeps s); cbn; [|eauto|eauto].
    intros d' n l' Hd' _ Hn. split; [done|]. exists d'. rewrite lookup_insert_ne by congruence. done.
Qed.

Lemma tracked_add_val s v l : tracked s -> by_val s !! v = None -> alive_ s !! l = Some true ->
  (forall k, lifetime_of s k <> Some l) -> tracked (set_val v (MkDependableVal (Some l)) s).
Proof.
  intros [] Hd Hal Hl. constructor; try done.
  - intros k l'. rewrite lifetime_of_set_val. case_decide; intros; simplify_eq/=; eauto.
  - intros k k' l'. rewrite !lifetime_of_set_val. repeat case_decide; intros; simplify_eq/=; eauto; by edestruct Hl.
  - intros h x Hx. cbn in Hx. apply (refers_keeps s); cbn; [eauto| |eauto].
    intros v' l' ol _ Hv1 _ _. left. rewrite lookup_insert_ne by congruence. done.
Qed.

(** Two handles exchange what they own; a new handle owns nothing. *)
Lemma tracked_swap s d other x y : tracked s ->
  (by_ptr s !! d = Some x \/ by_ptr s !! d = None /\ x = MkDependable PNull None) -> by_ptr s !! other = Some y ->
  tracked (set_ptr d y (set_ptr other x s)).
Proof.
  intros [] Hd Ho.
  assert (Hld : lifetime_of s (inl d) = lifetime_ x) by (destruct Hd as [E|[E ->]]; cbn; by rewrite E).
  assert (Hlo : lifetime_of s (inl other) = lifetime_ y) by (cbn; by rewrite Ho).
  pose (f k := if decide (k = inl d) then inl other else if decide (k = inl other) then inl d else k : nat + nat).
  assert (Hf : forall k, lifetime_of (set_ptr d y (set_ptr other x s)) k = lifetime_of s (f k)).
  { intros k. rewrite !lifetime_of_set_ptr. unfold f. repeat case_decide; congruence. }
  assert (Hinj : forall k k', f k = f k' -> k = k').
  { intros k k'. unfold f. repeat case_decide; congruence. }
  constructor.
  - intros k l'. rewrite Hf. apply tr_alive0.
  - intros k k' l'. rewrite !Hf. intros H1 H2. eapply Hinj, tr_inj0; eauto.
  - intros d' x' Hx. cbn in Hx. eapply object_ok_heap with s; [done|].
    handle_cases; eauto. destruct Hd as [?|[_ ->]]; [eauto|done].
  - pose (g k := if decide (k = d) then other else if decide (k = other) then d else k).
    assert (Hg : forall k x' n, by_ptr (set_ptr d y (set_ptr other x s)) !! k = Some x' -> object_ x' = PHeap n ->
      by_ptr s !! g k = Some x').
    { intros k x' n Hx Hn. unfold g. handle_cases; repeat case_decide; try congruence.
      destruct Hd as [?|[_ ->]]; [congruence|done]. }
    assert (Hginj : forall k k', g k = g k' -> k = k').
    { intros k k'. unfold g. repeat case_decide; congruence. }
    intros d1 d2 x1 x2 n H1 H2 E1 E2. eapply Hginj, tr_object_inj0; eauto.
  - intros h x' Hx. cbn in Hx. apply (refers_keeps s); cbn; [|eauto|eauto].
    intros d' n l' Hd' _ Hn. split; [done|]. destruct (decide (d' = other)) as [->|Hne].
    + exists d. rewrite lookup_insert_eq. congruence.
    + destruct (decide (d' = d)) as [->|Hne'].
      * exists other. rewrite lookup_insert_ne, lookup_insert_eq by done. destruct Hd as [?|[? _]]; congruence.
      * exists d'. by rewrite !lookup_insert_ne by done.
Qed.

(** The lifetime goes to another place, to which nothing refers. *)
Lemma tracked_val_transfer s v other x : tracked s -> v <> other -> by_val s !! other = Some x ->
  (forall h y, deps s !! h = Some y -> ptr_ y <> PInside v) ->
  tracked (set_val v x (set_val other (MkDependableVal None) s)).
Proof.
  intros [] Hne Ho Hfree.
  assert (Hlo : lifetime_of s (inr other) = val_lifetime_ x) by (cbn; by rewrite Ho).
  pose (f k := if decide (k = inr v) then inr other else k : nat + nat).
  assert (Hf : forall k l, lifetime_of (set_val v x (set_val other (MkDependableVal None) s)) k = Some l ->
    k <> inr other /\ lifetime_of s (f k) = Some l).
  { intros k l. rewrite !lifetime_of_set_val. unfold f. destruct (decide (k = inr v)) as [->|]; [rewrite Hlo; split; [congruence|done]|].
    by destruct (decide (k = inr other)). }
  constructor; try done.
  - intros k l' [_ Hk]%Hf. by eapply tr_alive0.
  - intros k k' l' [N1 H1]%Hf [N2 H2]%Hf. pose proof (tr_inj0 _ _ _ H1 H2) as E. unfold f in E. repeat case_decide; congruence.
  - intros h y Hy. cbn in Hy. apply (refers_keeps s); cbn; [eauto| |eauto].
    intros v' l' ol Hp Hv1 _ _. assert (v' <> v) by (intros ->; by apply (Hfree h y)).
    rewrite lookup_insert_ne by congruence. destruct (decide (v' = other)) as [->|].
    + right. by rewrite lookup_insert_eq.
    + left. by rewrite lookup_insert_ne.
Qed.

Lemma end_lifetime_spec ol s s' : end_lifetime ol s = Some s' ->
  exists l, ol = Some l /\ alive_ s !! l = Some true /\ use_count l s = 1 /\ s' = Kill l s.
Proof.
  unfold end_lifetime, IsAlive. destruct ol as [l|]; [|done].
  destruct (alive_ s !! l) as [[]|] eqn:Ha; cbn; try done.
  destruct (Nat.eqb_spec (use_count l s) 1) as [Hu|]; [|done]. intros [= <-]. eauto.
Qed.

(** Taking an owner away whose lifetime no [Dep] holds. *)
Lemma tracked_remove_ptr s d x K : tracked s -> by_ptr s !! d = Some x ->
  (object_ x = PNull \/ forall l h y, lifetime_ x = Some l -> deps s !! h = Some y -> dep_lifetime_ y <> Some l) ->
  (forall l, lifetime_ x <> Some l -> K !! l = alive_ s !! l) ->
  tracked (MkHandles (delete d (by_ptr s)) (by_val s) (deps s) K
             (match object_ x with PHeap n => heap s ∖ {[n]} | _ => heap s end)).
Proof.
  intros [] Hd Hdep HK.
  assert (Hlt : forall k l, lifetime_of (MkHandles (delete d (by_ptr s)) (by_val s) (deps s) K
             (match object_ x with PHeap n => heap s ∖ {[n]} | _ => heap s end)) k = Some l ->
             lifetime_of s k = Some l /\ k <> inl d).
  { intros [d'|v] l; cbn; [|done]. destruct (decide (d' = d)) as [->|Hne].
    - by rewrite lookup_delete_eq.
    - rewrite lookup_delete_ne by done. split; [done|congruence]. }
  assert (Hmem : forall d' y n, d' <> d -> by_ptr s !! d' = Some y -> object_ y = PHeap n -> n ∈ heap s ->
    n ∈ match object_ x with PHeap n' => heap s ∖ {[n']} | _ => heap s end).
  { intros d' y n Hne Hy Hn Hin. destruct (object_ x) as [|n'|] eqn:Hx; [done| |done].
    assert (n <> n') by (intros ->; by apply Hne, (tr_object_inj0 d' d y x n')). set_solver. }
  constructor; cbn.
  - intros k l Hk. apply Hlt in Hk as [Hk Hne]. rewrite HK; [by eapply tr_alive0|].
    intros Hl. apply Hne. eapply tr_inj0; [exact Hk|]. cbn. by rewrite Hd.
  - intros k k' l Hk Hk'. apply Hlt in Hk as [Hk _]. apply Hlt in Hk' as [Hk' _]. eauto.
  - intros d' y Hy. apply lookup_delete_Some in Hy as [Hne Hy]. pose proof (tr_object0 _ _ Hy) as Ho.
    unfold object_ok in *. cbn. destruct (object_ y) eqn:E; [done| |done]. destruct Ho. split; eauto.
  - intros d1 d2 x1 x2 n H1 H2. handle_cases. eauto.
  - intros h y Hy. apply (refers_keeps s); cbn; [|eauto|eauto].
    intros d' n l Hd' Hl Hn. assert (d' <> d).
    { intros ->. simplify_eq. cbn in *. destruct Hdep as [?|Hdep]; [done|]. by eapply Hdep. }
    split; [by eapply (Hmem d')|]. exists d'. by rewrite lookup_delete_ne by done.
Qed.

Lemma tracked_remove_val s v x K : tracked s -> by_val s !! v = Some x ->
  (exists l, val_lifetime_ x = Some l /\ (forall h y, deps s !! h = Some y -> dep_lifetime_ y <> Some l) /\
     forall l', l' <> l -> K !! l' = alive_ s !! l') ->
  tracked (MkHandles (by_ptr s) (delete v (by_val s)) (deps s) K (heap s)).
Proof.
  intros [] Hd (l & Hl & Hdep & HK).
  assert (Hlt : forall k l, lifetime_of (MkHandles (by_ptr s) (delete v (by_val s)) (deps s) K (heap s)) k = Some l ->
             lifetime_of s k = Some l /\ k <> inr v).
  { intros [d'|v'] l'; cbn; [done|]. destruct (decide (v' = v)) as [->|Hne].
    - by rewrite lookup_delete_eq.
    - rewrite lookup_delete_ne by done. split; [done|congruence]. }
  constructor; try done; cbn.
  - intros k l' Hk. apply Hlt in Hk as [Hk Hne]. rewrite HK; [by eapply tr_alive0|].
    intros ->. apply Hne. eapply tr_inj0; [exact Hk|]. cbn. by rewrite Hd.
  - intros k k' l' Hk Hk'. apply Hlt in Hk as [Hk _]. apply Hlt in Hk' as [Hk' _]. eauto.
  - intros h y Hy. pose proof (tr_deps0 _ _ Hy) as Hr. unfold refers in *. cbn. destruct (ptr_ y); [done|done|].
    destruct Hr as (l' & ol & Hl' & Hv & Ho). exists l', ol. split_and!; [done| |done].
    rewrite lookup_delete_ne; [done|]. intros ->. simplify_eq. cbn in Hl. subst ol.
    destruct Ho as [[= ->]|?]; [|done]. by eapply Hdep.
Qed.

(** Nothing refers to a handle by value that another one is assigned to: the
    assignment drops its lifetime without an assertion. *)
Definition target_free (a : HandleAction) (s : Handles) : bool :=
  match a with
  | HValAssign v other => (v =? other)%nat || bool_decide (map_Forall (fun _ x => ptr_ x <> PInside v) (deps s))
  | _ => true
  end.

Fixpoint targets_free (acts : list HandleAction) (s : Handles) : bool :=
  match acts with
  | [] => true
  | a :: acts => target_free a s && match act true a s with Some s' => targets_free acts s' | None => true end
  end.

Lemma make_lifetime_ok s : tracked s -> forall n, exists l,
  let '(ol, s') := make_lifetime true (MkHandles (by_ptr s) (by_val s) (deps s) (alive_ s) (n ∪ heap s)) in
  ol = Some l /\ tracked s' /\ alive_ s' !! l = Some true /\ (forall k, lifetime_of s' k <> Some l) /\
  by_ptr s' = by_ptr s /\ by_val s' = by_val s /\ heap s' = n ∪ heap s.
Proof.
  intros Ht n. exists (fresh (dom (alive_ s))). cbn.
  destruct (tracked_new_lifetime s (fresh (dom (alive_ s))) n Ht) as [Ht' Hl].
  { apply not_elem_of_dom, is_fresh. }
  split_and!; try done. apply lookup_insert_eq.
Qed.

Lemma unused_true {A} k (m : gmap nat A) : unused k m = true -> m !! k = None.
Proof. unfold unused. apply bool_decide_eq_true_1. Qed.

Lemma tracked_new_ptr s d p : tracked s -> by_ptr s !! d = None -> p = PNull \/ p = PHeap (fresh (heap s)) ->
  tracked (DependableNew true d p (MkHandles (by_ptr s) (by_val s) (deps s) (alive_ s)
    ((if is_null p then ∅ else {[fresh (heap s)]}) ∪ heap s))).
Proof.
  intros Ht Hd Hp. unfold DependableNew.
  destruct (make_lifetime_ok s Ht (if is_null p then ∅ else {[fresh (heap s)]})) as [l Hm].
  destruct (make_lifetime _ _) as [ol s']. destruct Hm as (-> & Ht' & Ha & Hl & Hbp & _ & Hh).
  apply tracked_add_ptr; try done; [by rewrite Hbp|]. destruct Hp as [->| ->]; [by left|right].
  exists (fresh (heap s)). rewrite Hh, Hbp. split_and!; [done|cbn; set_solver|].
  intros d' x Hx Hn. pose proof (tr_object _ Ht _ _ Hx) as Ho. unfold object_ok in Ho. rewrite Hn in Ho.
  destruct Ho as [Ho _]. revert Ho. apply is_fresh.
Qed.

Lemma tracked_destroy s d s' : tracked s -> DependableDestroy true d s = Some s' -> tracked s'.
Proof.
  intros Ht. unfold DependableDestroy. destruct (by_ptr s !! d) as [x|] eqn:Hd; [|done].
  assert (Hdel : forall t K, tracked (MkHandles (delete d (by_ptr s)) (by_val s) (deps s) K
       (match object_ x with PHeap n => heap s ∖ {[n]} | _ => heap s end)) ->
     delete_object (object_ x) (MkHandles (delete d (by_ptr s)) (by_val s) (deps s) K (heap s)) = Some t -> tracked t).
  { intros t K Hk. unfold delete_object. repeat case_match; intros [= <-]; done. }
  destruct (is_null (object_ x)) eqn:Hn; cbn.
  - apply bool_decide_eq_true_1 in Hn. apply Hdel, tracked_remove_ptr; auto.
  - destruct (end_lifetime (lifetime_ x) s) as [t|] eqn:He; [|done].
    apply end_lifetime_spec in He as (l & Hl & Ha & Hu & ->). cbn. apply Hdel, tracked_remove_ptr; [done..| |].
    + right. intros l' h y Hl' Hy. simplify_eq. eapply (use_count_one s (inl d)); eauto. cbn. by rewrite Hd.
    + intros l' Hl'. rewrite lookup_insert_ne; [done|congruence].
Qed.

Lemma tracked_val_destroy s v s' : tracked s -> DependableValDestroy true v s = Some s' -> tracked s'.
Proof.
  intros Ht. unfold DependableValDestroy. destruct (by_val s !! v) as [x|] eqn:Hd; [|done].
  destruct (end_lifetime (val_lifetime_ x) s) as [t|] eqn:He; [|done].
  apply end_lifetime_spec in He as (l & Hl & Ha & Hu & ->). cbn. intros [= <-].
  eapply tracked_remove_val; [done..|]. exists l. split_and!; [done| |].
  - eapply (use_count_one s (inr v)); eauto. cbn. by rewrite Hd.
  - intros l' Hl'. by rewrite lookup_insert_ne.
Qed.

Lemma tracked_act s a s' : tracked s -> target_free a s = true -> act true a s = Some s' -> tracked s'.
Proof.
  intros Ht Hk Ha. destruct (on_deps a) eqn:Hon; [by eapply tracked_on_deps|].
  destruct a; try done; cbn in Ha; try (destruct (unused _ _) eqn:Hu; [apply unused_true in Hu|done]).
  - injection Ha as <-. apply (tracked_new_ptr s d (PHeap (fresh (heap s)))); auto.
  - injection Ha as <-. pose proof (tracked_new_ptr s d PNull Ht Hu) as Hn.
    change (if is_null PNull then ∅ else {[fresh (heap s)]}) with (∅ : gset nat) in Hn.
    rewrite (left_id_L ∅ (∪)) in Hn. destruct s. auto.
  - unfold DependableMove in Ha. destruct (by_ptr s !! other) eqn:Ho; [|done]. injection Ha as <-.
    apply tracked_swap; auto.
  - unfold DependableAssign in Ha. repeat case_match; try done. injection Ha as <-. apply tracked_swap; auto.
  - by eapply tracked_destroy.
  - injection Ha as <-. destruct (tracked_new_lifetime s (fresh (dom (alive_ s))) ∅ Ht) as [Ht' Hl].
    { apply not_elem_of_dom, is_fresh. }
    rewrite (left_id_L ∅ (∪)) in Ht'. apply tracked_add_val; try done. apply lookup_insert_eq.
  - unfold DependableValMove in Ha. destruct (by_val s !! other) eqn:Ho; [|done]. injection Ha as <-.
    apply tracked_val_transfer; try done; [congruence|]. intros h y Hy Hp. pose proof (tr_deps _ Ht h y Hy) as Hr.
    unfold refers in Hr. rewrite Hp in Hr. destruct Hr as (l & ol & _ & Hv & _). congruence.
  - unfold DependableValAssign in Ha. cbn in Hk. destruct (by_val s !! v) eqn:Hv; [|done]. destruct (by_val s !! other) eqn:Ho; [|done].
    injection Ha as <-. destruct (Nat.eqb_spec v other) as [|Hne]; [done|]. by apply tracked_val_transfer, (bool_decide_eq_true_1 _ Hk).
  - by eapply tracked_val_destroy.
Qed.

Lemma tracked_none : tracked no_handles.
Proof. constructor; try done. by intros [] l. by intros []. Qed.

Lemma run_app track acts1 acts2 s : run track (acts1 ++ acts2) s = run track acts1 s ≫= run track acts2.
Proof.
  unfold run. rewrite foldl_app. destruct (foldl _ (Some s) acts1) as [t|]; [done|]. cbn.
  induction acts2; [done|]. cbn. done.
Qed.

Lemma tracked_run acts : forall s s', tracked s -> targets_free acts s = true -> run true acts s = Some s' -> tracked s'.
Proof.
  induction acts as [|a acts IH]; intros s s' Ht Hk Hr; [by injection Hr as <-|].
  change (a :: acts) with ([a] ++ acts) in Hr. rewrite run_app in Hr. cbn in Hk, Hr.
  apply andb_true_iff in Hk as [Hk1 Hk2]. destruct (act true a s) as [t|] eqn:Ha; [|done]. cbn in Hr.
  eapply IH, Hr; [|done]. by eapply tracked_act.
Qed.

(** ** Which references hold a lifetime *)

(** Moving a [Dep] onto itself. *)
Definition self_move (a : HandleAction) : bool := match a with HDepMoveAssign h other => (h =? other)%nat | _ => false end.

(** A [Dep] that holds the lifetime of an owner by pointer points where the
    owner does. *)
Record straight (s : Handles) : Prop := {
  sg_known : forall h y l, deps s !! h = Some y -> dep_lifetime_ y = Some l -> is_Some (alive_ s !! l);
  sg_object : forall h y d x l, deps s !! h = Some y -> dep_lifetime_ y = Some l ->
    by_ptr s !! d = Some x -> lifetime_ x = Some l -> ptr_ y = object_ x
}.

Lemma straight_deps s D : tracked s -> straight s ->
  (forall h y, D !! h = Some y -> y = MkDep PNull None \/ (exists h', deps s !! h' = Some y) \/
     (exists d x, by_ptr s !! d = Some x /\ y = MkDep (object_ x) (lifetime_ x)) \/
     exists v x, by_val s !! v = Some x /\ y = MkDep (PInside v) (val_lifetime_ x)) ->
  straight (MkHandles (by_ptr s) (by_val s) D (alive_ s) (heap s)).
Proof.
  intros Ht [Hk Ho] HD. split; cbn.
  - intros h y l Hy Hl. destruct (HD h y Hy) as [->|[[h' E]|[(d & x & Hd & ->)|(v & x & Hv & ->)]]]; [done|by eapply Hk| |]; cbn in Hl.
    + rewrite (tr_alive _ Ht (inl d) l); [by eexists|]. cbn. by rewrite Hd.
    + rewrite (tr_alive _ Ht (inr v) l); [by eexists|]. cbn. by rewrite Hv.
  - intros h y d x l Hy Hl Hd Hlx.
    destruct (HD h y Hy) as [->|[[h' E]|[(d' & x' & Hd' & ->)|(v & x' & Hv & ->)]]]; [done|by eapply Ho| |]; cbn in Hl |- *.
    + pose proof (tr_inj _ Ht (inl d) (inl d') l) as E. cbn in E. rewrite Hd, Hd' in E. injection (E Hlx Hl) as ->. congruence.
    + pose proof (tr_inj _ Ht (inl d) (inr v) l) as E. cbn in E. rewrite Hd, Hv in E. by specialize (E Hlx Hl).
Qed.

(** Owners come from owners, or have a new lifetime. *)
Lemma straight_owners s P B K O : straight s ->
  (forall d x, P !! d = Some x -> (exists d', by_ptr s !! d' = Some x) \/ forall l, lifetime_ x = Some l -> alive_ s !! l = None) ->
  (forall l, is_Some (alive_ s !! l) -> is_Some (K !! l)) -> straight (MkHandles P B (deps s) K O).
Proof.
  intros [Hk Ho] HP HK. split; cbn; [by eauto|]. intros h y d x l Hy Hl Hd Hlx.
  destruct (HP d x Hd) as [[d' E]|Hn]; [by eapply Ho|]. destruct (Hk h y l Hy Hl) as [b Hb]. by rewrite Hn in Hb.
Qed.

Lemma straight_act s a s' : tracked s -> straight s -> self_move a = false -> act true a s = Some s' -> straight s'.
Proof.
  intros Ht Hs Hm Ha. destruct (on_deps a) eqn:Hon.
  - assert (HD : exists D, s' = MkHandles (by_ptr s) (by_val s) D (alive_ s) (heap s) /\
      forall h y, D !! h = Some y -> y = MkDep PNull None \/ (exists h', deps s !! h' = Some y) \/
        (exists d x, by_ptr s !! d = Some x /\ y = MkDep (object_ x) (lifetime_ x)) \/
        exists v x, by_val s !! v = Some x /\ y = MkDep (PInside v) (val_lifetime_ x)); [|destruct HD as (D & -> & HD); by apply straight_deps].
    destruct a; try done; cbn in Ha, Hm;
      unfold DepNull, DepOfPtr, DepOfVal, DepCopy, DepMove, DepOfDerivedPtr, DepOfDerivedVal, DepCopyDerived, DepMoveDerived, DepAssign, DepMoveAssign, DepDestroy in Ha;
      repeat case_match; simplify_eq/=; (eexists; split; [done|]); intros h' y' Hy'; handle_cases; eauto 10.
  - assert (Hfresh : forall l, is_Some (alive_ s !! l) -> is_Some (<[fresh (dom (alive_ s)) := true]> (alive_ s) !! l)).
    { intros l Hl. rewrite lookup_insert. by case_decide. }
    assert (Hnew : forall d p (P : gmap nat DependablePtr), (forall k x, P !! k = Some x -> by_ptr s !! k = Some x) ->
      forall k x, <[d := MkDependable p (Some (fresh (dom (alive_ s))))]> P !! k = Some x ->
        (exists d', by_ptr s !! d' = Some x) \/ forall l, lifetime_ x = Some l -> alive_ s !! l = None).
    { intros d p P HP k x Hx. handle_cases; [right; intros l [= <-]; apply not_elem_of_dom, is_fresh|left; eauto]. }
    assert (Hsame : forall s0, deps s0 = deps s -> (forall d x, by_ptr s0 !! d = Some x -> (exists d', by_ptr s !! d' = Some x) \/
        forall l, lifetime_ x = Some l -> alive_ s !! l = None) -> (forall l, is_Some (alive_ s !! l) -> is_Some (alive_ s0 !! l)) -> straight s0).
    { intros [P B D K O] E H1 H2. cbn in *. subst D. by apply straight_owners. }
    assert (Hkill : forall l0 b l, is_Some (alive_ s !! l) -> is_Some (<[l0 := b]> (alive_ s) !! l)).
    { intros l0 b l Hl. rewrite lookup_insert. by case_decide. }
    destruct a; try done; cbn in Ha; try (destruct (unused _ _) eqn:Hu; [apply unused_true in Hu|done]);
      unfold DependableMake, DependableNew, DependableMove, DependableAssign, DependableDestroy, DependableValNew, DependableValMove,
        DependableValAssign, DependableValDestroy, delete_object in Ha; cbn in Ha; repeat case_match; simplify_eq/=;
      try match goal with H : end_lifetime _ _ = Some _ |- _ => apply end_lifetime_spec in H as (l0 & _ & _ & _ & ->) end;
      try done; apply Hsame; try done; cbn; eauto; intros d' x' Hx'; handle_cases; eauto; right; done.
Qed.

Lemma straight_run acts : forall s s', tracked s -> straight s -> targets_free acts s = true -> forallb (fun a => negb (self_move a)) acts = true ->
  run true acts s = Some s' -> straight s'.
Proof.
  induction acts as [|a acts IH]; intros s s' Ht Hs Hk Hm Hr; [by injection Hr as <-|].
  change (a :: acts) with ([a] ++ acts) in Hr. rewrite run_app in Hr. cbn in Hk, Hm, Hr.
  apply andb_true_iff in Hk as [Hk1 Hk2]. apply andb_true_iff in Hm as [Hm1%negb_true_iff Hm2].
  destruct (act true a s) as [t|] eqn:Ha; [|done]. cbn in Hr.
  eapply IH, Hr; try done; [by eapply tracked_act|by eapply straight_act].
Qed.

(** ** When a destruction passes *)

Lemma holders_one {A} (life : A -> option nat) l (m : gmap nat A) k x :
  m !! k = Some x -> life x = Some l -> (forall k' x', m !! k' = Some x' -> life x' = Some l -> k' = k) ->
  holders life l m = 1.
Proof.
  intros Hk Hl Hu. unfold holders. rewrite <- (map_size_singleton k x). f_equal. apply map_eq. intros k'.
  destruct (decide (k' = k)) as [->|Hne].
  - rewrite lookup_singleton_eq. by apply map_lookup_filter_Some.
  - rewrite lookup_singleton_ne by done. apply map_lookup_filter_None. right. intros x' Hx' Hl'. eauto.
Qed.

(** An object is deleted exactly when no reference holds its lifetime. *)
Lemma destroy_passes_iff s d x : tracked s -> by_ptr s !! d = Some x -> object_ x <> PNull ->
  is_Some (DependableDestroy true d s) <-> (forall h y, deps s !! h = Some y -> dep_lifetime_ y <> lifetime_ x).
Proof.
  intros Ht Hd Hn. pose proof (tr_object _ Ht _ _ Hd) as Ho. unfold object_ok in Ho.
  destruct (object_ x) as [|n|] eqn:Hx; [done| |done]. destruct Ho as [Hin [l Hl]].
  pose proof (tr_alive _ Ht (inl d) l ltac:(cbn; by rewrite Hd)) as Ha.
  unfold DependableDestroy, end_lifetime, IsAlive. rewrite Hd, Hx, Hl, Ha. cbn. split.
  - destruct (Nat.eqb_spec (use_count l s) 1) as [Hu|]; cbn; [intros _|by intros []].
    eapply (use_count_one s (inl d)); [cbn; by rewrite Hd|done].
  - intros Hdep.
    assert (Huse : use_count l s = 1).
    { unfold use_count. rewrite (holders_one lifetime_ l _ d x), !holders_zero; try done.
      - intros v y Hv Hy. pose proof (tr_inj _ Ht (inl d) (inr v) l) as E. cbn in E. rewrite Hd, Hv in E. by specialize (E Hl Hy).
      - intros d' y Hy Hly. pose proof (tr_inj _ Ht (inl d') (inl d) l) as E. cbn in E. rewrite Hd, Hy in E.
        by injection (E Hly Hl). }
    rewrite Huse. unfold delete_object. change (is_null (PHeap n)) with false. cbn. destruct (decide (n ∈ heap s)); [by eexists|done].
Qed.

Lemma val_destroy_passes_iff s v x : tracked s -> by_val s !! v = Some x ->
  is_Some (DependableValDestroy true v s) <->
  is_Some (val_lifetime_ x) /\ (forall h y, deps s !! h = Some y -> dep_lifetime_ y <> val_lifetime_ x).
Proof.
  intros Ht Hv. unfold DependableValDestroy, end_lifetime, IsAlive. rewrite Hv. cbn.
  destruct (val_lifetime_ x) as [l|] eqn:Hl; [|split; [by intros []|by intros [[] _]]].
  rewrite (tr_alive _ Ht (inr v) l ltac:(cbn; by rewrite Hv)). cbn. split.
  - destruct (Nat.eqb_spec (use_count l s) 1) as [Hu|]; cbn; [intros _; split; [by eexists|]|by intros []].
    eapply (use_count_one s (inr v)); [cbn; by rewrite Hv|done].
  - intros [_ Hdep].
    assert (Huse : use_count l s = 1).
    { unfold use_count. rewrite (holders_one val_lifetime_ l _ v x), !holders_zero; try done.
      - intros d y Hd Hy. pose proof (tr_inj _ Ht (inl d) (inr v) l) as E. cbn in E. rewrite Hd, Hv in E. by specialize (E Hy Hl).
      - intros v' y Hy Hly. pose proof (tr_inj _ Ht (inr v') (inr v) l) as E. cbn in E. rewrite Hv, Hy in E.
        by injection (E Hly Hl). }
    rewrite Huse. cbn. by eexists.
Qed.

(** ** Without tracking *)

(** The handles of a program that is built without the tracking. *)
Definition erase (s : Handles) : Handles :=
  MkHandles ((fun x => MkDependable (object_ x) None) <$> by_ptr s) ((fun _ => MkDependableVal None) <$> by_val s)
    ((fun x => MkDep (ptr_ x) None) <$> deps s) empty (heap s).

Lemma erase_set_ptr d x s : erase (set_ptr d x s) = set_ptr d (MkDependable (object_ x) None) (erase s).
Proof. unfold erase, set_ptr. cbn. by rewrite fmap_insert. Qed.
Lemma erase_set_val v x s : erase (set_val v x s) = set_val v (MkDependableVal None) (erase s).
Proof. unfold erase, set_val. cbn. by rewrite fmap_insert. Qed.
Lemma erase_set_dep h x s : erase (set_dep h x s) = set_dep h (MkDep (ptr_ x) None) (erase s).
Proof. unfold erase, set_dep. cbn. by rewrite fmap_insert. Qed.

Lemma unused_fmap {A B} (f : A -> B) k (m : gmap nat A) : unused k (f <$> m) = unused k m.
Proof. unfold unused. rewrite lookup_fmap. destruct (m !! k); done. Qed.

Lemma erase_destroy d s t : DependableDestroy true d s = Some t -> DependableDestroy false d (erase s) = Some (erase t).
Proof.
  unfold DependableDestroy. cbn. rewrite lookup_fmap. destruct (by_ptr s !! d) as [x|]; [|done]. cbn.
  assert (He : forall K, delete_object (object_ x) (MkHandles (delete d (by_ptr s)) (by_val s) (deps s) K (heap s)) = Some t ->
    delete_object (object_ x) (MkHandles (delete d ((fun x => MkDependable (object_ x) None) <$> by_ptr s))
      ((fun _ => MkDependableVal None) <$> by_val s) ((fun x => MkDep (ptr_ x) None) <$> deps s) empty (heap s)) = Some (erase t)).
  { intros K. unfold delete_object, erase. repeat case_match; intros [= <-]; cbn; by rewrite fmap_delete. }
  destruct (is_null (object_ x)); cbn; [apply He|].
  destruct (end_lifetime (lifetime_ x) s) as [u|] eqn:Hu; [|done].
  apply end_lifetime_spec in Hu as (l & _ & _ & _ & ->). cbn. apply He.
Qed.

Lemma erase_act a s t : act true a s = Some t -> act false a (erase s) = Some (erase t).
Proof.
  destruct a; cbn; rewrite ?unused_fmap; try (destruct (unused _ _); [|done]).
  5: apply erase_destroy.
  all: unfold DependableMake, DependableNew, DependableMove, DependableAssign, DependableValNew, DependableValMove,
    DependableValAssign, DependableValDestroy, DepNull, DepOfPtr, DepOfVal, DepCopy, DepMove, DepOfDerivedPtr, DepOfDerivedVal,
    DepCopyDerived, DepMoveDerived, DepAssign, DepMoveAssign,
    DepDestroy; cbn; rewrite ?lookup_fmap.
  all: intros Ha; repeat case_match; simplify_eq/=; rewrite ?erase_set_ptr, ?erase_set_val, ?erase_set_dep; try done.
  all: try match goal with H : end_lifetime _ _ = Some _ |- _ =>
    apply end_lifetime_spec in H as (l & _ & _ & _ & ->) end.
  all: unfold erase; cbn; by rewrite fmap_delete.
Qed.

Lemma erase_run acts : forall s t, run true acts s = Some t -> run false acts (erase s) = Some (erase t).
Proof.
  induction acts as [|a acts IH]; intros s t Hr; [by injection Hr as <-|].
  change (a :: acts) with ([a] ++ acts) in *. rewrite run_app in *. cbn in *.
  destruct (act true a s) as [u|] eqn:Ha; [|done]. rewrite (erase_act _ _ _ Ha). cbn in *. by apply IH.
Qed.

(** ** The theorem *)

(** C38. Take any program of constructions, moves, copies, assignments and
    destructions of handles that passes the assertions of the tracking build,
    and that assigns to a [Dependable] by value only while no [Dep] points to
    it (the tracking does not notice: [value_assignment_dangles]).  Then every
    non-null [Dep] points to an object that was not deleted and is owned with
    the lifetime the [Dep] holds (or to the place of a handle by value, which
    is still there); every object has one owner; a [Dependable] by pointer that
    has an object, or one by value, can be destroyed exactly when no [Dep] holds its lifetime any
    more, and one by value only if it was not moved away; the lifetime of an
    object is held by the [Dep]s that point to it, and only by these unless a
    [Dep] is moved onto itself, which keeps it; and the same
    program does the same to pointers and objects when it is built without
    tracking, deleting no object twice. *)
Theorem tracked_handles_never_dangle acts s :
  targets_free acts no_handles = true -> run true acts no_handles = Some s ->
  (forall h x, deps s !! h = Some x -> refers s x) /\
  (forall d x n, by_ptr s !! d = Some x -> object_ x = PHeap n ->
     n ∈ heap s /\ forall d' x', by_ptr s !! d' = Some x' -> object_ x' = PHeap n -> d' = d) /\
  (forall d x, by_ptr s !! d = Some x -> object_ x <> PNull ->
     is_Some (DependableDestroy true d s) <->
     forall h y, deps s !! h = Some y -> dep_lifetime_ y <> lifetime_ x) /\
  (forall v x, by_val s !! v = Some x ->
     is_Some (DependableValDestroy true v s) <->
     is_Some (val_lifetime_ x) /\ forall h y, deps s !! h = Some y -> dep_lifetime_ y <> val_lifetime_ x) /\
  (forall d x h y, by_ptr s !! d = Some x -> object_ x <> PNull -> deps s !! h = Some y ->
     (ptr_ y = object_ x -> dep_lifetime_ y = lifetime_ x) /\
     (forallb (fun a => negb (self_move a)) acts = true -> dep_lifetime_ y = lifetime_ x -> ptr_ y = object_ x)) /\
  run false acts no_handles = Some (erase s).
Proof.
  intros Hk Hr. pose proof (tracked_run _ _ _ tracked_none Hk Hr) as Ht. split_and!.
  - apply Ht.
  - intros d x n Hd Hn. split.
    + pose proof (tr_object _ Ht _ _ Hd) as Ho. unfold object_ok in Ho. rewrite Hn in Ho. apply Ho.
    + intros d' x' Hd' Hn'. by apply (tr_object_inj _ Ht d' d x' x n).
  - intros d x Hd Hn. by apply destroy_passes_iff.
  - intros v x Hv. by apply val_destroy_passes_iff.
  - intros d x h y Hd Hn Hy. pose proof (tr_object _ Ht _ _ Hd) as Ho. unfold object_ok in Ho.
    destruct (object_ x) as [|n|] eqn:Hx; [done| |done]. destruct Ho as [_ [l Hl]]. split.
    + intros Hp. pose proof (tr_deps _ Ht h y Hy) as Hr'. unfold refers in Hr'. rewrite Hp in Hr'.
      destruct Hr' as (_ & d' & l' & Hd' & Hl'). assert (d' = d) as -> by by eapply (tr_object_inj _ Ht d' d _ x n).
      rewrite Hd in Hd'. by injection Hd' as ->.
    + intros Hm E. rewrite Hl in E. rewrite <- Hx. eapply (sg_object _ (straight_run acts no_handles s tracked_none ltac:(by split) Hk Hm Hr)); done.
  - apply (erase_run _ _ _ Hr).
Qed.

(** An object is made, referred to, handed over to a second handle, the
    reference copied and destroyed; a handle by value is assigned to another
    one. *)
Definition handover : list HandleAction :=
  [HMake 0; HDepOfPtr 0 0; HEmpty 1; HAssign 1 0; HDepCopy 1 0; HDepDestroy 0; HDepMoveAssign 1 1; HValNew 0; HDepOfVal 2 0;
   HValNew 1; HValAssign 1 0].

Lemma tracked_handles_never_dangle_witness :
  exists s, run true handover no_handles = Some s /\ is_null (default PNull (ptr_ <$> deps s !! 1)) = true /\
    run false handover no_handles = Some (erase s).
Proof.
  destruct (run true handover no_handles) as [s|] eqn:E; [|vm_compute in E; discriminate E].
  exists s. split; [reflexivity|]. split.
  - vm_compute in E. injection E as <-. reflexivity.
  - apply (tracked_handles_never_dangle handover s); [reflexivity|exact E].
Defined.

(** Moving onto a handle by value drops its lifetime, which its references
    still hold: the handle is destroyed and the reference stays. *)
Lemma value_assignment_dangles : exists s x,
  run true [HValNew 0; HDepOfVal 0 0; HValNew 1; HValAssign 0 1; HValDestroy 0] no_handles = Some s /\
  deps s !! 0 = Some x /\ ptr_ x = PInside 0 /\ by_val s !! 0 = None.
Proof. eexists _, _. split; [vm_compute; reflexivity|]. split_and!; reflexivity. Qed.

(** A handle by value that was moved away fails the assertion of its destructor. *)
Lemma moved_value_cannot_be_destroyed s v other t : DependableValMove v other s = Some t -> v <> other ->
  DependableValDestroy true other t = None.
Proof.
  unfold DependableValMove, DependableValDestroy. destruct (by_val s !! other); [|done].
  intros [= <-] Hne. cbn. rewrite lookup_insert_ne by done. by rewrite lookup_insert_eq.
Qed.

(** ** The system allocator *)

Definition demo_start (track : bool) : Handles := SharedInstance track 0 no_handles.
Definition demo_running (track : bool) : option Handles := SystemInitialize track 0 1 (demo_start track).
Definition demo_stopped (track : bool) : option Handles := demo_running track ≫= SystemShutdown track 0 1.

(** Between [Initialize] and [Shutdown] there is an allocator, before and after
    there is none, and it is deleted; a tracking build does not shut down while
    something still refers to it. *)
Example system_allocator_lives_for_the_program track :
  SystemShared 0 (demo_start track) = None /\
  option_map (SystemShared 0) (demo_running track) = Some (Some (PHeap 0)) /\
  option_map (SystemShared 0) (demo_stopped track) = Some None /\
  option_map (fun s => bool_decide (heap s = ∅)) (demo_stopped track) = Some true /\
  ((demo_running track ≫= DepOfPtr track 0 0) ≫= SystemShutdown track 0 1 = None <-> track = true).
Proof. destruct track; vm_compute; split_and!; try reflexivity; intros E; (discriminate E || reflexivity). Qed.
