(* ===== verification/Containers.v ===== *)
(** [containers/]: the intrusive singly linked list of the type registry and
    the bounded queue of the worker threads.

    A list node is a location; the [next] members of all nodes are a store the
    operations update.  The ring's counters are 32-bit and wrap around; its
    lock makes every operation one step. *)
From S2P Require Import Prelude.
Local Open Scope Z_scope.

(** * List *)

Abbreviation loc := nat.
Abbreviation last := list.last.
Abbreviation head := list.head.

(** The [next] member of every node. *)
Definition Next := loc -> option loc.
Definition set_next (nx : Next) (n : loc) (v : option loc) : Next := fun m => if decide (m = n) then v else nx m.

(** source/containers/list.h:9-45 [List] *)
Record NodeList := MkList { head_ : option loc; last_ : option loc }.

(** source/containers/list.h:49-52 [List::IsEmpty] *)
Definition IsEmpty (l : NodeList) : bool := bool_decide (head_ l = None).

(** source/containers/list.h:54-63 [List::PushBack] *)
Definition PushBack (n : loc) (nx : Next) (l : NodeList) : Next * NodeList :=
  let '(nx1, l1) :=
    match last_ l with
    | None => (nx, MkList (Some n) (Some n))
    | Some last => (set_next nx last (Some n), MkList (head_ l) (Some n))
    end in
  (set_next nx1 n None, l1).

(** source/containers/list.h:65-73 [List::PushFront] *)
Definition PushFront (n : loc) (nx : Next) (l : NodeList) : Next * NodeList :=
  match head_ l with
  | None => (nx, MkList (Some n) (Some n))
  | Some h => (set_next nx n (Some h), MkList (Some n) (last_ l))
  end.

(** The other list keeps its members. *)
(** source/containers/list.h:75-86 [List::PushFront] *)
Definition PushFrontList (another : NodeList) (nx : Next) (l : NodeList) : Next * NodeList :=
  if IsEmpty another then (nx, l)
  else
    match last_ another with
    | None => (nx, l)
    | Some al =>
        (set_next nx al (head_ l),
         MkList (head_ another) (match last_ l with None => last_ another | Some x => Some x end))
    end.

(** source/containers/list.h:88-99 [List::PopFront] *)
Definition PopFront (nx : Next) (l : NodeList) : option loc * NodeList :=
  if bool_decide (head_ l = last_ l) then (head_ l, MkList None None)
  else
    match head_ l with
    | None => (None, l)
    | Some h => (Some h, MkList (nx h) (last_ l))
    end.

(** ** What a list stands for *)

Fixpoint linked (nx : Next) (xs : list loc) : Prop :=
  match xs with
  | x :: ((y :: _) as xs') => nx x = Some y /\ linked nx xs'
  | _ => True
  end.

(** [xs] are the nodes in order, each once. *)
Definition represents (nx : Next) (l : NodeList) (xs : list loc) : Prop :=
  head_ l = head xs /\ last_ l = last xs /\ linked nx xs /\ NoDup xs.

(** A walk along [next] stops at the end. *)
Definition ends (nx : Next) (xs : list loc) : Prop :=
  match last xs with Some n => nx n = None | None => True end.

Lemma linked_set nx xs n v : n ∉ xs -> linked nx xs -> linked (set_next nx n v) xs.
Proof.
  induction xs as [|x [|y xs] IH]; intros Hn; [done|done|]. intros [H1 H2]. split.
  - unfold set_next. case_decide as Hx; [|done]. subst. exfalso. apply Hn. by left.
  - apply IH; [|done]. intros Hin. apply Hn. by right.
Qed.

Lemma linked_app nx xs x y ys :
  linked nx (xs ++ [x]) -> linked nx (y :: ys) -> nx x = Some y -> linked nx ((xs ++ [x]) ++ y :: ys).
Proof.
  induction xs as [|z xs IH]; intros H1 H2 Hxy; [done|].
  cbn [app] in *. destruct xs as [|w xs]; cbn [app] in *.
  - destruct H1. split; [done|]. by split.
  - destruct H1. split; [done|]. by apply IH.
Qed.

(** Changing the last node's [next] keeps the links. *)
Lemma linked_last nx xs x v : x ∉ xs -> linked nx (xs ++ [x]) -> linked (set_next nx x v) (xs ++ [x]).
Proof.
  induction xs as [|z xs IH]; intros Hn Hl; [done|]. cbn [app] in *.
  assert (Hz : z <> x) by (intros ->; apply Hn; by left).
  assert (Hxs : x ∉ xs) by (intros ?; apply Hn; by right).
  destruct xs as [|w xs]; cbn [app] in *; destruct Hl; (split; [unfold set_next; by case_decide|]);
    [done|by apply IH].
Qed.

Lemma PushBack_spec n nx l xs :
  represents nx l xs -> n ∉ xs ->
  let '(nx', l') := PushBack n nx l in
  represents nx' l' (xs ++ [n]) /\ ends nx' (xs ++ [n]).
Proof.
  intros (Hh & Hl & Hk & Hd) Hn. unfold PushBack. rewrite Hl.
  assert (Hd' : NoDup (xs ++ [n])).
  { apply list.NoDup_app. split; [done|]. split; [intros x Hx ->%list_elem_of_singleton; done|apply list.NoDup_singleton]. }
  assert (He : forall nx, ends (set_next nx n None) (xs ++ [n])).
  { intros nx0. unfold ends. rewrite list.last_snoc. unfold set_next. by case_decide. }
  destruct (last xs) as [x|] eqn:Ex.
  - apply last_Some in Ex as [ys ->]. apply list.NoDup_app in Hd as Hd2. destruct Hd2 as (_ & Hys & _).
    assert (Hx : x ∉ ys) by (intros ?; apply (Hys x); [done|by apply list_elem_of_singleton]).
    assert (Hnx : n <> x) by (intros ->; apply Hn, elem_of_app; right; by apply list_elem_of_singleton).
    split; [|apply He]. split; [cbn; rewrite Hh; by destruct ys|]. split; [cbn; by rewrite list.last_snoc|].
    split; [|done]. apply linked_app; [|exact I|].
    + apply linked_set; [done|]. by apply linked_last.
    + unfold set_next. by repeat case_decide.
  - apply last_None in Ex as ->. split; [|apply He]. by split_and!.
Qed.

Lemma PopFront_spec nx l xs :
  represents nx l xs ->
  fst (PopFront nx l) = head xs /\ represents nx (snd (PopFront nx l)) (tail xs).
Proof.
  intros (Hh & Hl & Hk & Hd). unfold PopFront. rewrite Hh, Hl.
  destruct xs as [|x [|y xs]]; cbn [head last tail].
  - rewrite bool_decide_true by done. cbn. split; [done|]. by split_and!.
  - rewrite bool_decide_true by done. cbn. split; [done|]. split_and!; [done|done|done|constructor].
  - inversion Hd as [|? ? Hx Hd']; subst. rewrite bool_decide_false.
    + destruct Hk as [Hxy Hk]. cbn. split; [done|]. by split_and!.
    + intros Heq. apply Hx. change (Some x = last (y :: xs)) in Heq. symmetry in Heq.
      apply last_Some in Heq as [ys ->]. apply elem_of_app. right. by apply list_elem_of_singleton.
Qed.

Lemma PushFront_spec n nx l xs :
  represents nx l xs -> n ∉ xs ->
  let '(nx', l') := PushFront n nx l in
  represents nx' l' (n :: xs) /\ (xs <> [] -> ends nx xs -> ends nx' (n :: xs)) /\ (xs = [] -> nx' = nx).
Proof.
  intros (Hh & Hl & Hk & Hd) Hn. unfold PushFront. rewrite Hh. destruct xs as [|x xs]; cbn [head].
  - split; [|done]. split_and!; try done. apply list.NoDup_singleton.
  - split; [|split; [|done]].
    + split; [done|]. split; [cbn; by rewrite Hl|]. split; [|by constructor].
      split; [unfold set_next; by case_decide|]. by apply linked_set.
    + intros _ He. unfold ends in *. change (last (n :: x :: xs)) with (last (x :: xs)).
      destruct (last (x :: xs)) as [y|] eqn:Ey; [|done]. apply last_Some in Ey as [ys Ey].
      unfold set_next. case_decide as Hy; [|done]. subst y. exfalso. apply Hn. rewrite Ey. apply elem_of_app.
      right. by apply list_elem_of_singleton.
Qed.

(** * Ring *)

(** source/containers/MRSWRing.h:9-48 [MRSWRing] *)
Record Ring (A : Type) := MkRing { data_ : list A; r_ : Z; w_ : Z }.
Arguments MkRing {A}. Arguments data_ {A}. Arguments r_ {A}. Arguments w_ {A}.

Section Ring.
  Context {A : Type}.
  Implicit Types q : Ring A.

Definition u32 : Z -> Z := wrap_u 32.
Definition slot q (i : Z) : nat := Z.to_nat (i mod Z.of_nat (length (data_ q))).

(** [dummy] is the default value the elements are made with. *)
(** source/containers/MRSWRing.h:12-14 [MRSWRing::MRSWRing] *)
Definition RingNew (max_size : nat) (dummy : A) : Ring A := MkRing (replicate max_size dummy) 0 0.

(** source/containers/MRSWRing.h:45-47 [MRSWRing::IsEmpty] *)
Definition RingIsEmpty q : bool := r_ q =? w_ q.

(** source/containers/MRSWRing.h:41-43 [MRSWRing::IsFull] *)
Definition RingIsFull q : bool := (slot q (r_ q) =? slot q (w_ q))%nat && negb (RingIsEmpty q).

(** source/containers/MRSWRing.h:16-23 [MRSWRing::Push] *)
Definition Push (value : A) q : bool * Ring A :=
  if RingIsFull q then (false, q)
  else (true, MkRing (<[slot q (w_ q) := value]> (data_ q)) (r_ q) (u32 (w_ q + 1))).

(** source/containers/MRSWRing.h:25-33 [MRSWRing::Pop] *)
Definition Pop q : option A * Ring A :=
  if RingIsEmpty q then (None, q)
  else (data_ q !! slot q (r_ q), MkRing (data_ q) (u32 (r_ q + 1)) (w_ q)).

(** ** The queue it stands for *)

(** A ring of [2^k] slots, a size that divides the counters' range, holds the
    queue [xs]. *)
Definition holds (k : Z) q (xs : list A) : Prop :=
  0 <= k < 32 /\ Z.of_nat (length (data_ q)) = 2 ^ k /\ in_u 32 (r_ q) /\
  w_ q = u32 (r_ q + Z.of_nat (length xs)) /\ Z.of_nat (length xs) <= 2 ^ k /\
  forall i x, xs !! i = Some x -> data_ q !! Z.to_nat ((r_ q + Z.of_nat i) mod 2 ^ k) = Some x.

Lemma u32_mod k z : 0 <= k < 32 -> u32 z mod 2 ^ k = z mod 2 ^ k.
Proof.
  intros Hk. unfold u32, wrap_u. apply Z.mod_mod_divide. exists (2 ^ (32 - k)).
  rewrite <- Z.pow_add_r by lia. by replace (32 - k + k) with 32 by lia.
Qed.

Lemma u32_add z a : u32 (u32 z + a) = u32 (z + a).
Proof. unfold u32, wrap_u. by rewrite Zplus_mod_idemp_l. Qed.

Lemma pow2_lt_32 k : 0 <= k < 32 -> 1 <= 2 ^ k <= 2 ^ 31.
Proof. intros Hk. pose proof (Z.pow_le_mono_r 2 k 31). pose proof (Z.pow_le_mono_r 2 0 k). lia. Qed.

(** Counters a distance below the size apart are the same only at distance 0. *)
Lemma mod_eq_dist n a d : 0 < n -> 0 <= d < n -> a mod n = (a + d) mod n -> d = 0.
Proof.
  intros Hn Hd He. pose proof (Z.div_mod a n ltac:(lia)). pose proof (Z.div_mod (a + d) n ltac:(lia)).
  set (u := (a + d) / n) in *. set (v := a / n) in *. assert (d = n * (u - v)) by (rewrite Z.mul_sub_distr_l; lia).
  destruct (Z.lt_trichotomy u v) as [|[->|]]; nia.
Qed.

Lemma slot_mod k q z : Z.of_nat (length (data_ q)) = 2 ^ k -> slot q z = Z.to_nat (z mod 2 ^ k).
Proof. intros Hn. unfold slot. by rewrite Hn. Qed.

Lemma RingIsEmpty_spec k q xs : holds k q xs -> RingIsEmpty q = bool_decide (xs = []).
Proof.
  intros (Hk & _ & Hr & Hw & Hl & _). pose proof (pow2_lt_32 k Hk). unfold RingIsEmpty. rewrite Hw.
  assert (Hu : u32 (r_ q) = r_ q) by by apply wrap_u_id.
  destruct xs as [|x xs]; cbn [length].
  - rewrite Z.add_0_r, Hu, Z.eqb_refl, bool_decide_true by done. done.
  - rewrite bool_decide_false by done. apply Z.eqb_neq. intros He. rewrite <- Hu in He.
    pose proof (mod_eq_dist (2 ^ 32) (r_ q) (Z.of_nat (S (length xs)))). cbn [length] in Hl.
    assert (2 ^ 31 < 2 ^ 32) by done. unfold u32, wrap_u in He. rewrite Zplus_mod_idemp_l in He. lia.
Qed.

Lemma RingIsFull_spec k q xs : holds k q xs -> RingIsFull q = (2 ^ k <=? Z.of_nat (length xs)).
Proof.
  intros Hh. unfold RingIsFull. rewrite (RingIsEmpty_spec k q xs Hh). destruct Hh as (Hk & Hn & Hr & Hw & Hl & _).
  pose proof (pow2_lt_32 k Hk). rewrite !(slot_mod k) by done. rewrite Hw, u32_mod by done.
  pose proof (Z.mod_pos_bound (r_ q) (2 ^ k) ltac:(lia)).
  pose proof (Z.mod_pos_bound (r_ q + Z.of_nat (length xs)) (2 ^ k) ltac:(lia)).
  destruct xs as [|x xs]; cbn [length] in *.
  { rewrite bool_decide_true, andb_false_r by done. symmetry. apply Z.leb_gt. lia. }
  rewrite bool_decide_false, andb_true_r by done. set (d := Z.of_nat (S (length xs))) in *.
  destruct (Z.leb_spec (2 ^ k) d) as [Hfull|Hroom].
  - apply Nat.eqb_eq. f_equal. replace d with (1 * 2 ^ k) by lia. by rewrite Z.mod_add by lia.
  - apply Nat.eqb_neq. intros He. apply Z2Nat.inj in He; [|lia|lia].
    apply mod_eq_dist in He; lia.
Qed.

Lemma Push_spec k q xs x :
  holds k q xs ->
  let '(b, q') := Push x q in
  if 2 ^ k <=? Z.of_nat (length xs) then b = false /\ q' = q else b = true /\ holds k q' (xs ++ [x]).
Proof.
  intros Hh. unfold Push. rewrite (RingIsFull_spec k q xs Hh). destruct Hh as (Hk & Hn & Hr & Hw & Hl & Hx).
  pose proof (pow2_lt_32 k Hk). destruct (Z.leb_spec (2 ^ k) (Z.of_nat (length xs))) as [|Hroom]; [done|].
  split; [done|]. rewrite (slot_mod k), Hw, u32_mod by done.
  pose proof (Z.mod_pos_bound (r_ q + Z.of_nat (length xs)) (2 ^ k) ltac:(lia)) as Hb.
  split_and!; cbn [data_ r_ w_]; try done; try lia.
  - by rewrite length_insert.
  - rewrite u32_add, length_app. cbn [length]. f_equal. lia.
  - rewrite length_app. cbn [length]. lia.
  - intros i y Hi. apply lookup_app_Some in Hi as [Hi|[Hge Hi]].
    + rewrite list_lookup_insert_ne; [by apply Hx|]. intros He. pose proof (lookup_lt_Some _ _ _ Hi) as Hlt.
      pose proof (Z.mod_pos_bound (r_ q + Z.of_nat i) (2 ^ k) ltac:(lia)).
      apply Z2Nat.inj in He; [|lia|lia].
      pose proof (mod_eq_dist (2 ^ k) (r_ q + Z.of_nat i) (Z.of_nat (length xs) - Z.of_nat i)) as Hd.
      replace (r_ q + Z.of_nat i + (Z.of_nat (length xs) - Z.of_nat i)) with (r_ q + Z.of_nat (length xs)) in Hd by lia.
      specialize (Hd ltac:(lia) ltac:(lia) (eq_sym He)). lia.
    + destruct (i - length xs)%nat eqn:Ei; [|done]. injection Hi as <-. replace i with (length xs) by lia.
      apply list_lookup_insert_eq. lia.
Qed.

Lemma Pop_spec k q xs :
  holds k q xs ->
  let '(r, q') := Pop q in
  match xs with
  | [] => r = None /\ q' = q
  | x :: xs' => r = Some x /\ holds k q' xs'
  end.
Proof.
  intros Hh. unfold Pop. rewrite (RingIsEmpty_spec k q xs Hh). destruct Hh as (Hk & Hn & Hr & Hw & Hl & Hx).
  pose proof (pow2_lt_32 k Hk). destruct xs as [|x xs]; [by rewrite bool_decide_true|].
  rewrite bool_decide_false by done. split.
  - rewrite (slot_mod k) by done. pose proof (Hx 0%nat x eq_refl) as H0. by rewrite Z.add_0_r in H0.
  - cbn [length] in *. split_and!; cbn [data_ r_ w_]; try done; try lia.
    + apply Z.mod_pos_bound. lia.
    + rewrite Hw, u32_add. f_equal. lia.
    + intros i y Hi. specialize (Hx (S i) y Hi).
      assert (E : (u32 (r_ q + 1) + Z.of_nat i) mod 2 ^ k = (r_ q + Z.of_nat (S i)) mod 2 ^ k).
      { rewrite <- Zplus_mod_idemp_l, u32_mod, Zplus_mod_idemp_l by done. f_equal. lia. }
      by rewrite E.
Qed.

Lemma RingNew_spec k dummy : 0 <= k < 32 -> holds k (RingNew (Z.to_nat (2 ^ k)) dummy) [].
Proof.
  intros Hk. pose proof (pow2_lt_32 k Hk). unfold RingNew. split_and!; cbn [data_ r_ w_ length]; try done; try lia.
  rewrite length_replicate. lia.
Qed.

(** A history of the ring: [Some x] pushes, [None] pops.  The results, and the
    reference: a list, refusing the push that would exceed the size. *)
Fixpoint ring_run (ops : list (option A)) q : list (option A + bool) * Ring A :=
  match ops with
  | [] => ([], q)
  | Some x :: ops' =>
      let '(b, q1) := Push x q in let '(rs, q2) := ring_run ops' q1 in (inr b :: rs, q2)
  | None :: ops' =>
      let '(r, q1) := Pop q in let '(rs, q2) := ring_run ops' q1 in (inl r :: rs, q2)
  end.

Fixpoint queue_run (n : Z) (ops : list (option A)) (xs : list A) : list (option A + bool) * list A :=
  match ops with
  | [] => ([], xs)
  | Some x :: ops' =>
      let full := n <=? Z.of_nat (length xs) in
      let '(rs, ys) := queue_run n ops' (if full then xs else xs ++ [x]) in (inr (negb full) :: rs, ys)
  | None :: ops' =>
      let '(rs, ys) := queue_run n ops' (tail xs) in (inl (head xs) :: rs, ys)
  end.

Lemma ring_run_spec k ops q xs :
  holds k q xs ->
  fst (ring_run ops q) = fst (queue_run (2 ^ k) ops xs) /\
  holds k (snd (ring_run ops q)) (snd (queue_run (2 ^ k) ops xs)).
Proof.
  revert q xs. induction ops as [|[x|] ops IH]; intros q xs Hh; cbn [ring_run queue_run]; [done| |].
  - pose proof (Push_spec k q xs x Hh) as Hp. destruct (Push x q) as [b q1].
    assert (Hq : b = negb (2 ^ k <=? Z.of_nat (length xs)) /\
      holds k q1 (if 2 ^ k <=? Z.of_nat (length xs) then xs else xs ++ [x])).
    { destruct (2 ^ k <=? _); destruct Hp as [-> Hp]; by subst. }
    destruct Hq as [-> Hq]. destruct (IH q1 _ Hq) as [E1 E2].
    destruct (ring_run ops q1), (queue_run _ ops _). cbn in *. by subst.
  - pose proof (Pop_spec k q xs Hh) as Hp. destruct (Pop q) as [r q1].
    assert (Hq : r = head xs /\ holds k q1 (tail xs)) by (destruct xs; destruct Hp as [-> Hp]; by subst).
    destruct Hq as [-> Hq]. destruct (IH q1 _ Hq) as [E1 E2].
    destruct (ring_run ops q1), (queue_run _ ops _). cbn in *. by subst.
Qed.
(** The queue as a function of the ring. *)
Definition contents q : list A :=
  omap (fun i => data_ q !! slot q (r_ q + Z.of_nat i)) (seq 0 (Z.to_nat (u32 (w_ q - r_ q)))).

Lemma contents_holds k q xs : holds k q xs -> contents q = xs.
Proof.
  intros (Hk & Hn & Hr & Hw & Hl & Hx). pose proof (pow2_lt_32 k Hk). unfold contents.
  assert (Hlen : Z.to_nat (u32 (w_ q - r_ q)) = length xs).
  { rewrite Hw. replace (u32 (r_ q + Z.of_nat (length xs)) - r_ q) with (u32 (r_ q + Z.of_nat (length xs)) + - r_ q) by lia.
    rewrite u32_add. replace (r_ q + Z.of_nat (length xs) + - r_ q) with (Z.of_nat (length xs)) by lia.
    assert (in_u 32 (Z.of_nat (length xs))) by (split; [lia|]; change (2 ^ 32) with (2 ^ 31 * 2); lia).
    unfold u32. rewrite wrap_u_id by done. lia. }
  rewrite Hlen. assert (Hx' : forall i x, xs !! i = Some x -> data_ q !! slot q (r_ q + Z.of_nat i) = Some x).
  { intros i x Hi. rewrite (slot_mod k) by done. by apply Hx. }
  clear - Hx'. generalize dependent (r_ q). intros r Hx'. revert Hx'.
  assert (G : forall n ys, (forall i x, ys !! i = Some x -> data_ q !! slot q (r + Z.of_nat (n + i)) = Some x) ->
    omap (fun i => data_ q !! slot q (r + Z.of_nat i)) (seq n (length ys)) = ys).
  { intros n ys. revert n. induction ys as [|y ys IH]; intros n Hy; [done|]. cbn [length seq omap list_omap].
    pose proof (Hy 0%nat y eq_refl) as H0. rewrite Nat.add_0_r in H0. rewrite H0. f_equal. apply IH.
    intros i x Hi. specialize (Hy (S i) x Hi). by rewrite Nat.add_succ_r in Hy. }
  intros Hx'. by apply (G 0%nat).
Qed.

Definition ring_ok (k : Z) q : Prop := exists xs, holds k q xs.

Lemma RingNew_contents k dummy : 0 <= k < 32 ->
  ring_ok k (RingNew (Z.to_nat (2 ^ k)) dummy) /\ contents (RingNew (Z.to_nat (2 ^ k)) dummy) = [].
Proof. intros Hk. pose proof (RingNew_spec k dummy Hk) as Hh. split; [by eexists|by apply (contents_holds k)]. Qed.

Lemma Push_contents k q x : ring_ok k q ->
  ring_ok k (snd (Push x q)) /\
  (contents (snd (Push x q)) = contents q ++ [x] \/ contents (snd (Push x q)) = contents q).
Proof.
  intros [xs Hh]. pose proof (Push_spec k q xs x Hh) as Hp. rewrite (contents_holds k q xs Hh).
  destruct (Push x q) as [b q']. cbn [snd]. destruct (_ <=? _); destruct Hp as [_ Hp].
  - subst. split; [by eexists|]. right. by apply (contents_holds k).
  - split; [by eexists|]. left. by apply (contents_holds k).
Qed.

Lemma Pop_contents k q : ring_ok k q ->
  match Pop q with
  | (None, q') => q' = q
  | (Some x, q') => ring_ok k q' /\ contents q = x :: contents q'
  end.
Proof.
  intros [xs Hh]. pose proof (Pop_spec k q xs Hh) as Hp. rewrite (contents_holds k q xs Hh).
  destruct (Pop q) as [r q']. destruct xs as [|x xs]; destruct Hp as [-> Hp]; [done|].
  split; [by eexists|]. f_equal. symmetry. by apply (contents_holds k).
Qed.
End Ring.

(** * Properties *)

(** The intrusive list is a sequence: on a list of distinct nodes,
    appending, prepending and removing the front node do exactly that to the
    sequence, the list stays well linked, and appending ends it; prepending to
    an empty list, however, leaves the old [next] of the node in place. *)
Theorem list_is_a_sequence nx l xs n :
  represents nx l xs -> n ∉ xs ->
  (let '(nx', l') := PushBack n nx l in represents nx' l' (xs ++ [n]) /\ ends nx' (xs ++ [n])) /\
  (let '(nx', l') := PushFront n nx l in
   represents nx' l' (n :: xs) /\ (xs <> [] -> ends nx xs -> ends nx' (n :: xs)) /\ (xs = [] -> nx' n = nx n)) /\
  fst (PopFront nx l) = head xs /\ represents nx (snd (PopFront nx l)) (tail xs) /\
  IsEmpty l = bool_decide (xs = []).
Proof.
  intros Hr Hn. split; [by apply PushBack_spec|]. split.
  - pose proof (PushFront_spec n nx l xs Hr Hn) as H. destruct (PushFront n nx l) as [nx' l'].
    destruct H as (H1 & H2 & H3). split; [done|]. split; [done|]. intros Hx. by rewrite H3.
  - destruct (PopFront_spec nx l xs Hr) as [H1 H2]. split; [done|]. split; [done|].
    destruct Hr as (Hh & _). unfold IsEmpty. rewrite Hh. by destruct xs.
Qed.

Lemma list_is_a_sequence_witness :
  let '(nx1, l1) := PushBack 7%nat (fun _ => Some 9%nat) (MkList None None) in
  let '(nx2, l2) := PushBack 8%nat nx1 l1 in
  represents nx2 l2 [7%nat; 8%nat] /\ ends nx2 [7%nat; 8%nat].
Proof.
  assert (H0 : represents (fun _ => Some 9%nat) (MkList None None) []) by (split_and!; [done|done|done|constructor]).
  destruct (list_is_a_sequence (fun _ => Some 9%nat) (MkList None None) [] 7%nat H0) as [H1 _]; [by apply not_elem_of_nil|].
  destruct (PushBack 7%nat _ _) as [nx1 l1]. destruct H1 as [H1 _].
  destruct (list_is_a_sequence nx1 l1 [7%nat] 8%nat H1) as [H2 _].
  { intros Hin%list_elem_of_singleton. discriminate. }
  exact H2.
Defined.

(** C32. The ring is a bounded queue: for every size [2^k] below [2^32] and
    every history of pushes and pops, of any length -- the 32-bit counters wrap
    around -- every result is that of a first-in-first-out list that refuses a
    push when it holds [2^k] elements. *)
Theorem ring_is_bounded_queue {A} (dummy : A) k ops :
  0 <= k < 32 ->
  fst (ring_run ops (RingNew (Z.to_nat (2 ^ k)) dummy)) = fst (queue_run (2 ^ k) ops []).
Proof. intros Hk. by apply (ring_run_spec k ops _ []), RingNew_spec. Qed.

Lemma ring_is_bounded_queue_witness :
  0 <= 1 < 32 /\
  fst (ring_run [Some 1; Some 2; Some 3; None; None; None] (RingNew (Z.to_nat (2 ^ 1)) 0)) =
    [inr true; inr true; inr false; inl (Some 1); inl (Some 2); inl None].
Proof. split; [lia|]. rewrite (ring_is_bounded_queue 0 1); [reflexivity|lia]. Defined.
