(* ===== verification/LinkedStack.v ===== *)
(** [containers/linked_stack.h]: the lock-free stack of intrusive nodes.

    A node is a location.  The threads interleave between their accesses to
    the shared memory: the loads and stores of [head_] and of the [next]
    members.  The code leaves it to the user of the stack to own the nodes and
    to avoid the ABA problem: the user of the model pushes only nodes it owns,
    and no node that a pop still looks at. *)
From S2P Require Import Prelude.
From stdpp Require Import gmap.

(** * The operations *)

(** source/containers/linked_stack.h:14-27 [LinkedStack] *)
Record Stack := MkStack { head_ : option nat; next : nat -> option nat }.

(** Where a thread is in an operation: before the load of the head, before
    the access to the next pointer, before the exchange. *)
(** source/containers/linked_stack.h:31-52 [LinkedStack] *)
Inductive Op :=
| Idle
| PushLoad (node : nat) | PushLink (node : nat) (head : option nat) | PushCas (node : nat) (head : option nat)
| PopLoad | PopNext (head : nat) | PopCas (head : nat) (nxt : option nat).

#[export] Instance Op_eq_dec : EqDecision Op.
Proof. solve_decision. Defined.

(** What an operation that returns did. *)
Inductive Event := EPush (node : nat) | EPop (result : option nat).

Definition set_next (n : nat) (p : option nat) (s : Stack) : Stack :=
  MkStack (head_ s) (fun m => if decide (m = n) then p else next s m).

(** [head_.compare_exchange_strong(expected, desired)] *)
Definition compare_exchange (expected desired : option nat) (s : Stack) : bool * Stack :=
  if decide (head_ s = expected) then (true, MkStack desired (next s)) else (false, s).

(** source/containers/linked_stack.h:31-38 [Push] *)
Definition PushStep (o : Op) (s : Stack) : Op * Stack * option Event :=
  match o with
  | PushLoad node => (PushLink node (head_ s), s, None)
  | PushLink node head => (PushCas node head, set_next node head s, None)
  | PushCas node head =>
      match compare_exchange head (Some node) s with
      | (true, s') => (Idle, s', Some (EPush node))
      | (false, s') => (PushLoad node, s', None)
      end
  | _ => (o, s, None)
  end.

(** source/containers/linked_stack.h:40-52 [Pop] *)
Definition PopStep (o : Op) (s : Stack) : Op * Stack * option Event :=
  match o with
  | PopLoad =>
      match head_ s with
      | None => (Idle, s, Some (EPop None))
      | Some head => (PopNext head, s, None)
      end
  | PopNext head => (PopCas head (next s head), s, None)
  | PopCas head nxt =>
      match compare_exchange (Some head) nxt s with
      | (true, s') => (Idle, s', Some (EPop (Some head)))
      | (false, s') => (PopLoad, s', None)
      end
  | _ => (o, s, None)
  end.

Definition OpStep (o : Op) (s : Stack) : Op * Stack * option Event :=
  match o with PushLoad _ | PushLink _ _ | PushCas _ _ => PushStep o s | _ => PopStep o s end.

(** * Interleaving *)

(** The stack, the operation of each thread, the nodes its user has. *)
Record Config := MkConfig { stack : Stack; ops : list Op; owned : gset nat }.

(** The node a pop has loaded from the head. *)
Definition looked_at (o : Op) : option nat :=
  match o with PopNext h | PopCas h _ => Some h | _ => None end.

Inductive Sched := SPush (thread node : nat) | SPop (thread : nat) | SStep (thread : nat).

(** [aba] allows the user to push a node that a pop still looks at. *)
Definition sched (aba : bool) (a : Sched) (c : Config) : option (Config * option Event) :=
  match a with
  | SPush i n =>
      if decide (ops c !! i = Some Idle) then
        if bool_decide (n ∈ owned c) && (aba || forallb (fun o => negb (bool_decide (looked_at o = Some n))) (ops c))
        then Some (MkConfig (stack c) (<[i := PushLoad n]> (ops c)) (owned c ∖ {[n]}), None)
        else None
      else None
  | SPop i =>
      if decide (ops c !! i = Some Idle) then Some (MkConfig (stack c) (<[i := PopLoad]> (ops c)) (owned c), None)
      else None
  | SStep i =>
      match ops c !! i with
      | Some Idle | None => None
      | Some o =>
          let '(o', s', e) := OpStep o (stack c) in
          Some (MkConfig s' (<[i := o']> (ops c)) (match e with Some (EPop (Some h)) => {[h]} ∪ owned c | _ => owned c end), e)
      end
  end.

(** What the operations that return did, in that order. *)
Fixpoint exec (aba : bool) (l : list Sched) (c : Config) : option (Config * list Event) :=
  match l with
  | [] => Some (c, [])
  | a :: l =>
      match sched aba a c with
      | None => None
      | Some (c', e) =>
          match exec aba l c' with
          | None => None
          | Some (c'', es) => Some (c'', match e with Some e => e :: es | None => es end)
          end
      end
  end.

Definition start (threads : nat) (nodes : gset nat) (nx : nat -> option nat) : Config :=
  MkConfig (MkStack None nx) (replicate threads Idle) nodes.

(** * The sequential stack *)

Definition replay1 (e : Event) (l : list nat) : option (list nat) :=
  match e, l with
  | EPush n, _ => Some (n :: l)
  | EPop None, [] => Some []
  | EPop (Some h), x :: l' => if (x =? h)%nat then Some l' else None
  | _, _ => None
  end.

Definition replay (es : list Event) (l : list nat) : option (list nat) :=
  foldl (fun ol e => ol ≫= replay1 e) (Some l) es.

(** The nodes of the stack in memory. *)
Fixpoint chain (nx : nat -> option nat) (p : option nat) (l : list nat) : Prop :=
  match l with [] => p = None | n :: l' => p = Some n /\ chain nx (nx n) l' end.

Lemma replay_cons e es l l' : replay1 e l = Some l' -> replay (e :: es) l = replay es l'.
Proof. intros He. unfold replay. cbn. by rewrite He. Qed.

Lemma chain_ext nx nx' p l : (forall n, n ∈ l -> nx n = nx' n) -> chain nx p l -> chain nx' p l.
Proof.
  revert p. induction l as [|n l IH]; intros p Hn; [done|]. cbn. intros [-> Hc]. split; [done|].
  rewrite <- Hn by set_solver. apply IH; [set_solver|done].
Qed.

(** * The invariant *)

Definition pushed (o : Op) : option nat :=
  match o with PushLoad n | PushLink n _ | PushCas n _ => Some n | _ => None end.

(** What a thread remembers of a next pointer is in memory. *)
Definition op_ok (s : Stack) (o : Op) : Prop :=
  match o with PushCas n h => next s n = h | PopCas h nx => next s h = nx | _ => True end.

Record stack_inv (c : Config) (l : list nat) : Prop := {
  si_chain : chain (next (stack c)) (head_ (stack c)) l;
  si_nodup : NoDup l;
  si_owned : forall n, n ∈ l -> n ∉ owned c;
  si_ok : forall i o, ops c !! i = Some o -> op_ok (stack c) o;
  si_pushed : forall i o n, ops c !! i = Some o -> pushed o = Some n ->
    n ∉ l /\ n ∉ owned c /\ forall j o', ops c !! j = Some o' -> looked_at o' <> Some n /\ (pushed o' = Some n -> i = j)
}.

Lemma stack_inv_start threads nodes nx : stack_inv (start threads nodes nx) [].
Proof.
  constructor; cbn; [done|constructor|set_solver|..].
  - intros i o Ho. apply lookup_replicate in Ho as [-> _]. done.
  - intros i o n Ho. by apply lookup_replicate in Ho as [-> _].
Qed.

(** A thread begins an operation. *)
Lemma stack_inv_begin c l i o' ow : stack_inv c l -> ops c !! i = Some Idle -> looked_at o' = None -> op_ok (stack c) o' ->
  ow ⊆ owned c ->
  (forall n, pushed o' = Some n -> n ∈ owned c /\ n ∉ ow /\ forall j o, ops c !! j = Some o -> looked_at o <> Some n) ->
  stack_inv (MkConfig (stack c) (<[i := o']> (ops c)) ow) l.
Proof.
  intros [Hc Hnd Hown Hok Hp] Hi Hl' Hok' Hsub Hnew. constructor; cbn; try done.
  - intros n Hn. pose proof (Hown n Hn). set_solver.
  - intros j o Ho. apply list_lookup_insert_Some in Ho as [(<- & <- & _)|[_ Ho]]; eauto.
  - intros j o n Ho Hpn. apply list_lookup_insert_Some in Ho as [(<- & <- & _)|[Hne Ho]].
    + destruct (Hnew n Hpn) as (Hin & Hout & Hlook). split_and!; [by intros ?%Hown|done|].
      intros k o'' Hk. apply list_lookup_insert_Some in Hk as [(<- & <- & _)|[Hne Hk]]; [by rewrite Hl'|].
      split; [eauto|]. intros Hpk. by destruct (Hp _ _ _ Hk Hpk) as (_ & ? & _).
    + destruct (Hp _ _ _ Ho Hpn) as (Hnl & Hno & Hrest). split_and!; [done|set_solver|].
      intros k o'' Hk. apply list_lookup_insert_Some in Hk as [(<- & <- & _)|[Hne' Hk]]; [|eauto].
      rewrite Hl'. split; [done|]. intros Hpk. by destruct (Hnew n Hpk) as (? & _).
Qed.

(** A thread goes on in its operation: it keeps the node it pushes, looks at
    nodes of the stack, and touches only the next pointer of its own node. *)
Lemma stack_inv_go c l i o o' s' :
  stack_inv c l -> ops c !! i = Some o -> pushed o' = pushed o -> head_ s' = head_ (stack c) ->
  (next s' = next (stack c) \/ exists n p, pushed o = Some n /\ s' = set_next n p (stack c)) ->
  (looked_at o' = looked_at o \/ looked_at o' = None \/ exists h, looked_at o' = Some h /\ h ∈ l) ->
  op_ok s' o' -> stack_inv (MkConfig s' (<[i := o']> (ops c)) (owned c)) l.
Proof.
  intros [Hc Hnd Hown Hok Hp] Hi Hpo Hh Hnx Hlk Hok'. constructor; cbn; try done.
  - rewrite Hh. destruct Hnx as [->|(n & p & Hn & ->)]; [done|].
    apply (chain_ext (next (stack c))); [|done]. intros m Hm. cbn. rewrite decide_False; [done|]. intros ->.
    by destruct (Hp _ _ _ Hi Hn) as (? & _).
  - intros j o'' Ho. apply list_lookup_insert_Some in Ho as [(<- & <- & _)|[Hne Ho]]; [done|].
    pose proof (Hok _ _ Ho) as Hoo. destruct Hnx as [Hnx|(n & p & Hn & ->)].
    + destruct o''; cbn in *; by rewrite ?Hnx.
    + destruct (Hp _ _ _ Hi Hn) as (_ & _ & Hoth). destruct (Hoth _ _ Ho) as [Hla Hpu].
      destruct o''; cbn in *; try done; (rewrite decide_False; [done|]); intros ->; [by apply Hne, Hpu|done].
  - intros j o'' n Ho Hpn.
    assert (Hold : exists o0, ops c !! j = Some o0 /\ pushed o0 = Some n).
    { apply list_lookup_insert_Some in Ho as [(<- & <- & _)|[Hne Ho]]; eauto. exists o. by rewrite <- Hpo. }
    destruct Hold as (o0 & Hj & Hp0). destruct (Hp _ _ _ Hj Hp0) as (Hnl & Hno & Hoth). split_and!; [done..|].
    intros k o1 Hk. apply list_lookup_insert_Some in Hk as [(<- & <- & _)|[Hne Hk]]; [|eauto].
    destruct (Hoth _ _ Hi) as [Ho1 Ho2]. rewrite Hpo. split; [|done].
    destruct Hlk as [->|[->|(h & -> & Hin)]]; [done..|]. congruence.
Qed.

(** The exchange of a push. *)
Lemma stack_inv_push c l i n h : stack_inv c l -> ops c !! i = Some (PushCas n h) -> head_ (stack c) = h ->
  stack_inv (MkConfig (MkStack (Some n) (next (stack c))) (<[i := Idle]> (ops c)) (owned c)) (n :: l).
Proof.
  intros [Hc Hnd Hown Hok Hp] Hi Hh. destruct (Hp _ _ n Hi eq_refl) as (Hnl & Hno & Hoth).
  pose proof (Hok _ _ Hi) as Hlink. cbn in Hlink. constructor; cbn.
  - split; [done|]. by rewrite Hlink, <- Hh.
  - by constructor.
  - intros m [->|Hm]%elem_of_cons; [done|eauto].
  - intros j o Ho. apply list_lookup_insert_Some in Ho as [(<- & <- & _)|[_ Ho]]; [done|].
    by pose proof (Hok _ _ Ho); destruct o.
  - intros j o m Ho Hm. apply list_lookup_insert_Some in Ho as [(<- & <- & _)|[Hne Ho]]; [done|].
    destruct (Hp _ _ _ Ho Hm) as (Hml & Hmo & Hm'). split_and!; [|done|].
    + intros [->|?]%elem_of_cons; [|done]. by apply Hne, (proj2 (Hoth _ _ Ho)).
    + intros k o' Hk. apply list_lookup_insert_Some in Hk as [(<- & <- & _)|[_ Hk]]; [done|eauto].
Qed.

(** The exchange of a pop. *)
Lemma stack_inv_pop c l i h nxt : stack_inv c l -> ops c !! i = Some (PopCas h nxt) -> head_ (stack c) = Some h ->
  exists l', l = h :: l' /\
    stack_inv (MkConfig (MkStack nxt (next (stack c))) (<[i := Idle]> (ops c)) ({[h]} ∪ owned c)) l'.
Proof.
  intros [Hc Hnd Hown Hok Hp] Hi Hh. destruct l as [|x l']; [cbn in Hc; congruence|].
  destruct Hc as [Hx Hc]. assert (x = h) as -> by congruence. exists l'. split; [done|].
  pose proof (Hok _ _ Hi) as Hlink. cbn in Hlink. apply NoDup_cons in Hnd as [Hnin Hnd]. constructor; cbn.
  - by rewrite <- Hlink.
  - done.
  - intros m Hm. rewrite not_elem_of_union, not_elem_of_singleton. split; [by intros ->|]. apply Hown. by right.
  - intros j o Ho. apply list_lookup_insert_Some in Ho as [(<- & <- & _)|[_ Ho]]; [done|].
    by pose proof (Hok _ _ Ho); destruct o.
  - intros j o m Ho Hm. apply list_lookup_insert_Some in Ho as [(<- & <- & _)|[Hne Ho]]; [done|].
    destruct (Hp _ _ _ Ho Hm) as (Hml & Hmo & Hm'). split_and!.
    + intros ?. apply Hml. by right.
    + rewrite not_elem_of_union, not_elem_of_singleton. split; [|done]. intros ->. apply Hml. by left.
    + intros k o' Hk. apply list_lookup_insert_Some in Hk as [(<- & <- & _)|[_ Hk]]; [done|eauto].
Qed.

Lemma chain_head nx p l : chain nx p l -> match p with None => l = [] | Some h => h ∈ l end.
Proof. destruct l; cbn; [by intros ->|]. intros [-> _]. by left. Qed.

Lemma compare_exchange_spec e d s :
  (head_ s = e /\ compare_exchange e d s = (true, MkStack d (next s))) \/
  (head_ s <> e /\ compare_exchange e d s = (false, s)).
Proof. unfold compare_exchange. destruct (decide _); auto. Qed.

Lemma stack_eta s : MkStack (head_ s) (next s) = s.
Proof. by destruct s. Qed.

(** Every step keeps the invariant, and only what a returning operation did
    changes the stack. *)
Lemma sched_inv a c l c' e : stack_inv c l -> sched false a c = Some (c', e) ->
  exists l', stack_inv c' l' /\ match e with None => l' = l | Some e => replay1 e l = Some l' end.
Proof.
  intros Hinv. pose proof (chain_head _ _ _ (si_chain _ _ Hinv)) as Hhd.
  destruct a as [i n|i|i]; unfold sched.
  - destruct (decide _) as [Hi|]; [|done]. destruct (bool_decide _ && _) eqn:Hg; [|done].
    apply andb_true_iff in Hg as [Hin%bool_decide_eq_true_1 Hf]. rewrite orb_false_l in Hf.
    intros [= <- <-]. exists l. split; [|done]. apply stack_inv_begin; try done; [set_solver|].
    intros m [= <-]. split_and!; [done|set_solver|]. intros j o Ho Hl.
    rewrite forallb_forall in Hf. specialize (Hf o). rewrite Hl, bool_decide_true in Hf by done.
    discriminate Hf. by eapply list_elem_of_In, list_elem_of_lookup_2.
  - destruct (decide _) as [Hi|]; [|done]. intros [= <- <-]. exists l. split; [|done]. by apply stack_inv_begin.
  - destruct (ops c !! i) as [o|] eqn:Hi; [|done]. destruct o as [|n|n h|n h| |h|h nxt]; try done; cbn.
    + intros [= <- <-]. exists l. split; [|done]. eapply stack_inv_go; eauto; cbn; auto.
    + intros [= <- <-]. exists l. split; [|done]. eapply stack_inv_go; eauto; cbn; eauto 8. by rewrite decide_True.
    + destruct (compare_exchange_spec h (Some n) (stack c)) as [[Hh ->]|[Hh ->]]; intros [= <- <-].
      * exists (n :: l). split; [by eapply stack_inv_push|done].
      * exists l. split; [|done]. eapply stack_inv_go; eauto; cbn; auto.
    + destruct (head_ (stack c)) as [h|] eqn:Hh; intros [= <- <-].
      * exists l. split; [|done]. eapply stack_inv_go; eauto; cbn; eauto.
      * exists []. subst l. split; [|done]. eapply stack_inv_go; eauto; cbn; auto.
    + intros [= <- <-]. exists l. split; [|done]. eapply stack_inv_go; eauto; cbn; auto.
    + destruct (compare_exchange_spec (Some h) nxt (stack c)) as [[Hh ->]|[Hh ->]]; intros [= <- <-].
      * destruct (stack_inv_pop c l i h nxt Hinv Hi Hh) as (l' & -> & Hi'). exists l'. split; [done|].
        cbn. by rewrite Nat.eqb_refl.
      * exists l. split; [|done]. eapply stack_inv_go; eauto; cbn; auto.
Qed.

(** No node gets lost. *)
Definition accounted (nodes : gset nat) (c : Config) (l : list nat) : Prop :=
  forall n, n ∈ nodes -> n ∈ owned c \/ n ∈ l \/ exists i o, ops c !! i = Some o /\ pushed o = Some n.

(** A thread changes its operation; a node it does not push any more is
    somewhere else. *)
Lemma accounted_go nodes c l i o o' s' ow l' : accounted nodes c l -> ops c !! i = Some o ->
  (forall n, n ∈ owned c -> n ∈ ow \/ pushed o' = Some n) ->
  (forall n, n ∈ l -> n ∈ l' \/ n ∈ ow) ->
  (forall n, pushed o = Some n -> pushed o' = Some n \/ n ∈ l') ->
  accounted nodes (MkConfig s' (<[i := o']> (ops c)) ow) l'.
Proof.
  intros Ha Hi How Hl Hp n Hn. unfold accounted. cbn.
  assert (Hnew : pushed o' = Some n -> exists j o0, <[i := o']> (ops c) !! j = Some o0 /\ pushed o0 = Some n).
  { intros E. exists i, o'. split; [|done]. apply list_lookup_insert_eq. by eapply lookup_lt_Some. }
  destruct (Ha n Hn) as [Ho|[Ho|(j & o0 & Hj & Ho)]].
  - destruct (How n Ho); auto.
  - destruct (Hl n Ho); auto.
  - destruct (decide (j = i)) as [->|Hne].
    + simplify_eq. destruct (Hp n Ho); auto.
    + right; right. exists j, o0. by rewrite list_lookup_insert_ne by done.
Qed.

Lemma sched_accounted nodes a c l c' e l' : accounted nodes c l -> sched false a c = Some (c', e) ->
  match e with None => l' = l | Some e => replay1 e l = Some l' end -> accounted nodes c' l'.
Proof.
  intros Hacc. destruct a as [i n|i|i]; unfold sched.
  - destruct (decide _) as [Hi|]; [|done]. destruct (bool_decide _ && _) eqn:Hg; [|done]. intros [= <- <-] ->.
    eapply accounted_go; eauto; [|done]. intros m Hm. cbn. destruct (decide (m = n)) as [->|]; [by right|left; set_solver].
  - destruct (decide _) as [Hi|]; [|done]. intros [= <- <-] ->. eapply accounted_go; eauto; done.
  - destruct (ops c !! i) as [o|] eqn:Hi; [|done]. destruct o as [|n|n h|n h| |h|h nxt]; try done; cbn;
      unfold compare_exchange; intros Hs Hr; repeat case_match; simplify_eq/=;
      eapply accounted_go; eauto; cbn; try done; try (intros m [= <-]; right; by left); try (intros m Hm; left; set_solver).
    all: destruct l as [|x l1]; simplify_eq/=; repeat case_match; simplify_eq; intros m Hm; try by apply elem_of_nil in Hm.
    match goal with E : (_ =? _)%nat = true |- _ => apply Nat.eqb_eq in E as -> end. set_solver.
Qed.

Lemma exec_inv nodes l : forall c c' xs es, stack_inv c xs -> accounted nodes c xs -> exec false l c = Some (c', es) ->
  exists xs', replay es xs = Some xs' /\ stack_inv c' xs' /\ accounted nodes c' xs'.
Proof.
  induction l as [|a l IH]; intros c c' xs es Hinv Hacc; cbn; [intros [= <- <-]; eauto|].
  destruct (sched false a c) as [[c1 e]|] eqn:Hs; [|done]. destruct (exec false l c1) as [[c2 es2]|] eqn:He; [|done].
  intros [= <- <-]. destruct (sched_inv _ _ _ _ _ Hinv Hs) as (xs1 & Hinv1 & Hr1).
  pose proof (sched_accounted _ _ _ _ _ _ _ Hacc Hs Hr1) as Hacc1.
  destruct (IH _ _ _ _ Hinv1 Hacc1 He) as (xs' & Hr & ?). exists xs'. split; [|done].
  destruct e as [e|]; [by rewrite (replay_cons e es2 xs xs1)|by subst xs1].
Qed.

(** * Progress *)

(** How many steps a thread takes before it exchanges the head, if the head
    stays. *)
Definition weight (head : option nat) (o : Op) : nat :=
  match o with
  | Idle => 4
  | PushLoad _ | PopLoad => 3
  | PushLink _ h => if decide (head = h) then 2 else 5
  | PushCas _ h => if decide (head = h) then 1 else 4
  | PopNext h => if decide (head = Some h) then 2 else 5
  | PopCas h _ => if decide (head = Some h) then 1 else 4
  end.

Definition total_weight (c : Config) : nat := sum_list_with (weight (head_ (stack c))) (ops c).

Lemma weight_bound head o : weight head o <= 5.
Proof. destruct o; cbn; repeat case_match; lia. Qed.

Lemma step_weight aba a c c' : sched aba a c = Some (c', None) -> S (total_weight c') <= total_weight c.
Proof.
  destruct a as [i n|i|i]; unfold sched.
  1,2: destruct (decide _) as [Hi|]; [|done]; repeat case_match; intros [= <-]; unfold total_weight; cbn [stack ops];
    match goal with |- context [<[_ := ?y]> _] =>
      pose proof (sum_list_with_insert (weight (head_ (stack c))) (ops c) i Idle y Hi) as Hsum end; cbn in Hsum; lia.
  destruct (ops c !! i) as [o|] eqn:Hi; [|done].
  pose proof (fun y => sum_list_with_insert (weight (head_ (stack c))) (ops c) i o y Hi) as Hsum.
  destruct o as [|n|n h|n h| |h|h nxt]; try done; cbn.
  - intros [= <-]. specialize (Hsum (PushLink n (head_ (stack c)))). unfold total_weight. cbn in *.
    rewrite decide_True in Hsum by done. lia.
  - intros [= <-]. specialize (Hsum (PushCas n h)). unfold total_weight. cbn in *. case_decide; lia.
  - destruct (compare_exchange_spec h (Some n) (stack c)) as [[Hh ->]|[Hh ->]]; intros [= <-].
    specialize (Hsum (PushLoad n)). unfold total_weight. cbn in *. rewrite decide_False in Hsum by done. lia.
  - destruct (head_ (stack c)) as [h|] eqn:Hh; intros [= <-]. specialize (Hsum (PopNext h)).
    unfold total_weight. cbn in *. rewrite Hh. rewrite decide_True in Hsum by done. lia.
  - intros [= <-]. specialize (Hsum (PopCas h (next (stack c) h))). unfold total_weight. cbn in *. case_decide; lia.
  - destruct (compare_exchange_spec (Some h) nxt (stack c)) as [[Hh ->]|[Hh ->]]; intros [= <-].
    specialize (Hsum PopLoad). unfold total_weight. cbn in *. rewrite decide_False in Hsum by done. lia.
Qed.

Lemma quiet_run_bounded aba l : forall c c', exec aba l c = Some (c', []) -> length l <= total_weight c.
Proof.
  induction l as [|a l IH]; intros c c'; cbn; [lia|].
  destruct (sched aba a c) as [[c1 e]|] eqn:Hs; [|done].
  destruct (exec aba l c1) as [[c2 es]|] eqn:He; [|done]. destruct e as [e|]; [done|]. intros [= <- ->].
  pose proof (IH _ _ He). pose proof (step_weight _ _ _ _ Hs). lia.
Qed.

(** * The theorems *)

(** C39. However the threads interleave in the pushes and pops, the operations
    take effect one after the other, each between its call and its return:
    replaying what the operations that returned did, in the order in which
    they took effect, on a sequential stack succeeds, so every pop returned
    the node on top of the stack at that moment and null only from the empty
    one; the nodes of the sequential stack are what the memory holds, linked
    from the head, without a repetition; and every node is in the stack, with
    the user, or being pushed, but never in two of these places. *)
Theorem linked_stack_linearizable threads nodes nx l c es :
  exec false l (start threads nodes nx) = Some (c, es) ->
  exists xs, replay es [] = Some xs /\
    chain (next (stack c)) (head_ (stack c)) xs /\ NoDup xs /\ (forall n, n ∈ xs -> n ∉ owned c) /\
    (forall n, n ∈ nodes -> n ∈ owned c \/ n ∈ xs \/ exists i o, ops c !! i = Some o /\ pushed o = Some n) /\
    (forall i o n, ops c !! i = Some o -> pushed o = Some n -> n ∉ xs /\ n ∉ owned c).
Proof.
  intros He. destruct (exec_inv nodes l _ _ _ _ (stack_inv_start threads nodes nx) (fun n Hn => or_introl Hn) He)
    as (xs & Hr & [] & Ha).
  exists xs. split_and!; try done. intros i o n Ho Hn. by destruct (si_pushed0 i o n Ho Hn) as (? & ? & _).
Qed.

(** Two threads: the second pops while the first is between its load and its
    exchange; the first starts again. *)
Definition two_threads : list Sched :=
  [SPush 0 7; SStep 0; SStep 0; SStep 0; SPush 0 8; SStep 0; SPop 1; SStep 1; SStep 0; SStep 1; SStep 1; SStep 0; SStep 0;
   SStep 0; SStep 0; SPop 1; SStep 1; SStep 1; SStep 1; SPop 1; SStep 1].

Lemma linked_stack_linearizable_witness :
  exists c es xs, exec false two_threads (start 2 {[7; 8]} (fun _ => None)) = Some (c, es) /\
    es = [EPush 7; EPop (Some 7); EPush 8; EPop (Some 8); EPop None] /\ replay es [] = Some xs.
Proof.
  destruct (exec false two_threads (start 2 {[7; 8]} (fun _ => None))) as [[c es]|] eqn:E; [|vm_compute in E; discriminate E].
  destruct (linked_stack_linearizable 2 {[7; 8]} (fun _ => None) two_threads c es E) as (xs & Hr & _).
  exists c, es, xs. split_and!; [reflexivity| |exact Hr]. vm_compute in E. injection E as _ <-. reflexivity.
Defined.

(** C40. The stack is lock-free: however the threads are scheduled, of more
    than five steps per thread at least one makes an operation return. *)
Theorem linked_stack_is_lock_free aba l c c' es :
  exec aba l c = Some (c', es) -> 5 * length (ops c) < length l -> es <> [].
Proof.
  intros He Hlen ->. pose proof (quiet_run_bounded _ _ _ _ He) as Hb. unfold total_weight in Hb.
  assert (Hw : forall head (ol : list Op), sum_list_with (weight head) ol <= 5 * length ol).
  { intros head. induction ol as [|o ol IH]; cbn; [done|]. pose proof (weight_bound head o). lia. }
  pose proof (Hw (head_ (stack c)) (ops c)). lia.
Qed.

Lemma linked_stack_is_lock_free_witness :
  exists c' es, exec false two_threads (start 2 {[7; 8]} (fun _ => None)) = Some (c', es) /\ es <> [].
Proof.
  destruct (exec false two_threads (start 2 {[7; 8]} (fun _ => None))) as [[c es]|] eqn:E; [|vm_compute in E; discriminate E].
  exists c, es. split; [reflexivity|]. apply (linked_stack_is_lock_free false two_threads _ c es E). vm_compute. lia.
Defined.

(** The ABA problem, for a user that pushes a popped node again at once: a
    pop between its load and its exchange puts a node it does not own back
    into the stack. *)
Lemma aba_breaks_the_stack : exists l c es,
  exec true l (start 2 {[1; 2]} (fun _ => None)) = Some (c, es) /\ replay es [] = Some [] /\ head_ (stack c) = Some 1.
Proof.
  exists [SPush 0 1; SStep 0; SStep 0; SStep 0; SPush 0 2; SStep 0; SStep 0; SStep 0;
    SPop 1; SStep 1; SStep 1; SPop 0; SStep 0; SStep 0; SStep 0; SPop 0; SStep 0; SStep 0; SStep 0;
    SPush 0 2; SStep 0; SStep 0; SStep 0; SStep 1].
  eexists _, _. split; [vm_compute; reflexivity|]. split; reflexivity.
Qed.
