(* ===== verification/StrBuild.v ===== *)
(** [base/str_build_types.h/.cc] and [base/str_builder.h]: numbers to text and
    the fixed-size string builder (doubles are in [DoubleText]).

    The number writers fill a caller-supplied buffer through a decreasing
    index, as the code does; their specification is the decoding function
    [dec_value]/[hex_value].  A [StrBuilder] is its [Size]-byte array and its
    write offset; the writers go through [Write]/[BestEffortWrite]. *)
From S2P Require Import Prelude.
Local Open Scope Z_scope.

(** * Digit counting *)

(** source/base/str_build_types.cc:11-20 [CountDigits] *)
Fixpoint CountDigits_loop (fuel : nat) (value : Z) (count : nat) : nat :=
  match fuel with
  | O => count
  | S fuel' => if value =? 0 then count else CountDigits_loop fuel' (value / 10) (S count)
  end.

(** source/base/str_build_types.cc:11-20 [CountDigits] *)
Definition CountDigits (value : Z) : nat := CountDigits_loop 64 value 0.

(** source/base/str_build_types.cc:22-31 [CountHexDigits] *)
Fixpoint CountHexDigits_loop (fuel : nat) (value : Z) (count : nat) : nat :=
  match fuel with
  | O => count
  | S fuel' =>
      if value =? 0 then count else CountHexDigits_loop fuel' (Z.shiftr value 4) (S count)
  end.

(** source/base/str_build_types.cc:22-31 [CountHexDigits] *)
Definition CountHexDigits (value : Z) : nat := CountHexDigits_loop 64 value 0.

(** * Filling a buffer *)

(** source/base/str_build_types.cc:46-51 [StrBuildUIntToStr] *)
Fixpoint UIntToStr_fill (fuel : nat) (value : Z) (i : nat) (buf : bytes) : bytes :=
  match fuel with
  | O => buf
  | S fuel' =>
      if 0 <? value then
        let next_val := value / 10 in
        UIntToStr_fill fuel' next_val (pred i)
          (<[pred i := digit_char (value - 10 * next_val)]> buf)
      else buf
  end.

(** source/base/str_build_types.cc:36-54 [StrBuildUIntToStr] *)
Definition StrBuildUIntToStr (value : Z) (buf : bytes) : nat * bytes :=
  if value =? 0 then (1%nat, <[0%nat := digit_char 0]> buf)
  else
    let num_digits := CountDigits value in
    (num_digits, UIntToStr_fill 64 value num_digits buf).

(** source/base/str_build_types.cc:56-63 [StrBuildIntToStr] *)
Definition StrBuildIntToStr (value : Z) (buf : bytes) : nat * bytes :=
  if value <? 0 then
    match buf with
    | [] => (1%nat, [])
    | _ :: buf' =>
        let '(n, buf'') := StrBuildUIntToStr (u64 (i64 (- value))) buf' in
        (S n, "-"%char :: buf'')
    end
  else StrBuildUIntToStr (u64 value) buf.

(** source/base/str_build_types.cc:8-8 [hex_digits] *)
Definition hex_digits : bytes := lit "0123456789abcdef".

(** source/base/str_build_types.cc:82-85 [StrBuildUIntToHex] *)
Fixpoint UIntToHex_fill (fuel : nat) (value : Z) (i : nat) (buf : bytes) : bytes :=
  match fuel with
  | O => buf
  | S fuel' =>
      if value =? 0 then buf
      else
        UIntToHex_fill fuel' (Z.shiftr value 4) (pred i)
          (<[pred i := nth (Z.to_nat (Z.land value 15)) hex_digits c_nul]> buf)
  end.

(** source/base/str_build_types.cc:66-87 [StrBuildUIntToHex] *)
Definition StrBuildUIntToHex (value : Z) (buf : bytes) (add0x : bool) : nat * bytes :=
  let body (b : bytes) : nat * bytes :=
    if value =? 0 then (1%nat, <[0%nat := digit_char 0]> b)
    else
      let num_digits := CountHexDigits value in
      (num_digits, UIntToHex_fill 64 value num_digits b) in
  if add0x then
    let '(n, b) := body (drop 2 buf) in
    ((2 + n)%nat, take (length buf) (lit "0x") ++ b)
  else body buf.

(** * The string builder *)

(** source/base/str_builder.h:10-55 [StrBuilder] *)
Record StrBuilder := MkStrBuilder { buf_ : bytes; offset_ : nat }.

(** A fresh builder; the array contents are whatever was there. *)
Definition StrBuilderNew (Size : nat) : StrBuilder :=
  MkStrBuilder (replicate Size c_nul) 0.

(** source/base/str_builder.h:49-50 [StrBuilder::UseSize] *)
Definition UseSize (sb : StrBuilder) : nat := pred (length (buf_ sb)).

(** source/base/str_builder.h:59-62 [StrBuilder::Clear] *)
Definition Clear (sb : StrBuilder) : StrBuilder := MkStrBuilder (buf_ sb) 0.

(** source/base/str_builder.h:64-73 [StrBuilder::Write] *)
Definition Write (sb : StrBuilder) (needed_size : nat)
    (handler : bytes -> nat * bytes) : StrBuilder :=
  if (UseSize sb - offset_ sb <? needed_size)%nat then sb
  else
    let '(n, region) := handler (take needed_size (drop (offset_ sb) (buf_ sb))) in
    MkStrBuilder
      (take (offset_ sb) (buf_ sb) ++ region ++ drop (offset_ sb + needed_size) (buf_ sb))
      (offset_ sb + n).

(** source/base/str_builder.h:115-121 [StrBuilder::BestEffortWrite] *)
Definition BestEffortWrite (sb : StrBuilder) (str : bytes) : nat * StrBuilder :=
  let sz := Nat.min (UseSize sb - offset_ sb) (length str) in
  (sz, MkStrBuilder
         (take (offset_ sb) (buf_ sb) ++ take sz str ++ drop (offset_ sb + sz) (buf_ sb))
         (offset_ sb + sz)).

(** source/base/str_builder.h:96-100 [StrBuilder::Rollback] *)
Definition Rollback (sb : StrBuilder) (num : nat) : StrBuilder :=
  MkStrBuilder (buf_ sb) (offset_ sb - num).

(** source/base/str_builder.h:103-106 [StrBuilder::Buffer] *)
Definition Buffer (sb : StrBuilder) : bytes := take (offset_ sb) (buf_ sb).

(** source/base/str_builder.h:108-113 [StrBuilder::MakeCStr] *)
Definition MakeCStr (sb : StrBuilder) : bytes * StrBuilder :=
  let sb' := MkStrBuilder (<[offset_ sb := c_nul]> (buf_ sb)) (offset_ sb) in
  (Buffer sb', sb').

(** What [operator<<] and [Append] accept; one constructor per [StrBuild]
    specialisation modelled here. *)
(** source/base/str_build_types.h:64-66 [StrBuild] *)
Inductive BuildArg :=
| AUInt (value : Z)
| AInt (value : Z)
| ABool (value : bool)
| AChar (value : ascii)
| AStr (str : bytes)
| AHex (value : Z) (add0x : bool).

(** source/base/str_build_types.h:68-91 [StrBuild unsigned] *)
Definition BuildUInt (sb : StrBuilder) (value : Z) : StrBuilder :=
  Write sb 24 (StrBuildUIntToStr value).

(** source/base/str_build_types.h:93-115 [StrBuild signed] *)
Definition BuildInt (sb : StrBuilder) (value : Z) : StrBuilder :=
  Write sb 24 (StrBuildIntToStr value).

(** source/base/str_build_types.h:117-127 [StrBuild bool] *)
Definition BuildBool (sb : StrBuilder) (value : bool) : StrBuilder :=
  Write sb 1 (fun b => (1%nat, <[0%nat := if value then "Y"%char else "N"%char]> b)).

(** source/base/str_build_types.h:129-139 [StrBuild char] *)
Definition BuildChar (sb : StrBuilder) (value : ascii) : StrBuilder :=
  Write sb 1 (fun b => (1%nat, <[0%nat := value]> b)).

(** source/base/str_build_types.h:142-192 [StrBuild StrSpan] *)
Definition BuildStr (sb : StrBuilder) (str : bytes) : StrBuilder :=
  snd (BestEffortWrite sb str).

(** source/base/str_build_types.h:194-203 [StrBuild StrHex] *)
Definition BuildHex (sb : StrBuilder) (value : Z) (add0x : bool) : StrBuilder :=
  Write sb 32 (fun b => StrBuildUIntToHex value b add0x).

(** Any pointer. *)
(** source/base/str_build_types.h:206-223 [StrBuild T*] *)
Definition BuildPtr (sb : StrBuilder) (ptr : Z) : StrBuilder := Write sb 32 (fun b => StrBuildUIntToHex ptr b true).

Definition Append1 (sb : StrBuilder) (a : BuildArg) : StrBuilder :=
  match a with
  | AUInt v => BuildUInt sb v
  | AInt v => BuildInt sb v
  | ABool v => BuildBool sb v
  | AChar c => BuildChar sb c
  | AStr s => BuildStr sb s
  | AHex v x => BuildHex sb v x
  end.

(** source/base/str_builder.h:88-94 [StrBuilder::Append] *)
Definition Append (sb : StrBuilder) (args : list BuildArg) : StrBuilder :=
  fold_left Append1 args sb.

(** * Reference: positional notation *)

(** Big-endian digits of [v] in base [b]; [[]] for zero. *)
Fixpoint radix_digits (b : Z) (dig : Z -> ascii) (fuel : nat) (v : Z) : bytes :=
  match fuel with
  | O => []
  | S fuel' =>
      if v =? 0 then [] else radix_digits b dig fuel' (v / b) ++ [dig (v mod b)]
  end.

Definition radix_value (b : Z) (val : ascii -> Z) (ds : bytes) : Z :=
  fold_left (fun acc c => b * acc + val c) ds 0.

Definition dec_value : bytes -> Z := radix_value 10 digit_val.

Definition hex_char (d : Z) : ascii := nth (Z.to_nat d) hex_digits c_nul.
Definition hex_val (c : ascii) : Z :=
  if is_digit c then digit_val c else uchar c - 87.
Definition hex_value : bytes -> Z := radix_value 16 hex_val.

(** Decimal text of an unsigned and of a signed number. *)
Definition uint_str (v : Z) : bytes :=
  if v =? 0 then lit "0" else radix_digits 10 digit_char 64 v.
Definition int_str (v : Z) : bytes :=
  if v <? 0 then "-"%char :: uint_str (- v) else uint_str v.
Definition hex_str (v : Z) : bytes :=
  if v =? 0 then lit "0" else radix_digits 16 hex_char 64 v.

Lemma radix_value_app b val xs c :
  radix_value b val (xs ++ [c]) = b * radix_value b val xs + val c.
Proof. unfold radix_value. by rewrite fold_left_app. Qed.

Section Radix.
  Context (b : Z) (dig : Z -> ascii) (val : ascii -> Z).
  Hypothesis b_gt1 : 1 < b.
  Hypothesis val_dig : forall d, 0 <= d < b -> val (dig d) = d.

Lemma radix_digits_value fuel v :
    0 <= v < b ^ Z.of_nat fuel -> radix_value b val (radix_digits b dig fuel v) = v.
  Proof.
    revert v. induction fuel as [|fuel IH]; intros v Hv; cbn [radix_digits].
    - change (Z.of_nat 0) with 0 in Hv. rewrite Z.pow_0_r in Hv. cbn. lia.
    - case_goal; bool_hyps; [by subst|].
      rewrite Nat2Z.inj_succ, Z.pow_succ_r in Hv by lia.
      rewrite radix_value_app, val_dig by (apply Z.mod_pos_bound; lia).
      rewrite IH; [symmetry; apply Z.div_mod; lia|].
      split; [apply Z.div_pos; lia|]. apply Z.div_lt_upper_bound; lia.
  Qed.

Lemma radix_digits_length fuel v k :
    0 <= v < b ^ Z.of_nat k -> (length (radix_digits b dig fuel v) <= k)%nat.
  Proof.
    revert v k. induction fuel as [|fuel IH]; intros v k Hv; cbn [radix_digits]; [cbn; lia|].
    case_goal; bool_hyps; [cbn; lia|].
    destruct k as [|k].
    { change (Z.of_nat 0) with 0 in Hv. rewrite Z.pow_0_r in Hv. lia. }
    rewrite Nat2Z.inj_succ, Z.pow_succ_r in Hv by lia.
    rewrite length_app. cbn [length].
    enough (length (radix_digits b dig fuel (v / b)) <= k)%nat by lia.
    apply IH. split; [apply Z.div_pos; lia|]. apply Z.div_lt_upper_bound; lia.
  Qed.

Lemma radix_digits_Forall (P : ascii -> Prop) fuel v :
    (forall d, 0 <= d < b -> P (dig d)) -> Forall P (radix_digits b dig fuel v).
  Proof.
    intros HP. revert v. induction fuel as [|fuel IH]; intros v; cbn [radix_digits]; [done|].
    case_goal; [done|]. apply Forall_app; split; [done|].
    constructor; [|done]. apply HP. apply Z.mod_pos_bound. lia.
  Qed.

Lemma radix_digits_nonempty fuel v : v <> 0 -> (0 < fuel)%nat -> radix_digits b dig fuel v <> [].
  Proof.
    intros Hv Hf. destruct fuel; [lia|]. cbn [radix_digits].
    case_goal; bool_hyps; [done|]. by destruct (radix_digits b dig fuel (v / b)).
  Qed.

  (** The most significant digit is not zero. *)
Lemma radix_digits_head fuel v c ds :
    0 <= v < b ^ Z.of_nat fuel -> radix_digits b dig fuel v = c :: ds -> c <> dig 0.
  Proof.
    revert v c ds. induction fuel as [|fuel IH]; intros v c ds Hv; cbn [radix_digits]; [done|].
    case_goal; bool_hyps; [done|].
    rewrite Nat2Z.inj_succ, Z.pow_succ_r in Hv by lia.
    assert (Hd : 0 <= v / b < b ^ Z.of_nat fuel).
    { split; [apply Z.div_pos; lia|]. apply Z.div_lt_upper_bound; lia. }
    destruct (radix_digits b dig fuel (v / b)) as [|c' ds'] eqn:Hds.
    - intros [= <- <-] Hc. apply (f_equal val) in Hc.
      rewrite !val_dig in Hc by (try apply Z.mod_pos_bound; lia).
      apply (f_equal (radix_value b val)) in Hds.
      rewrite radix_digits_value in Hds by done. cbn in Hds.
      pose proof (Z.div_mod v b ltac:(lia)). nia.
    - intros [= -> _]. by apply (IH _ _ _ Hd Hds).
  Qed.
End Radix.

Lemma hex_val_char d : 0 <= d < 16 -> hex_val (hex_char d) = d.
Proof.
  intros Hd. assert (H : d = 0 \/ d = 1 \/ d = 2 \/ d = 3 \/ d = 4 \/ d = 5 \/ d = 6
    \/ d = 7 \/ d = 8 \/ d = 9 \/ d = 10 \/ d = 11 \/ d = 12 \/ d = 13 \/ d = 14 \/ d = 15) by lia.
  repeat (destruct H as [->|H]; [reflexivity|]). by subst.
Qed.

(** * The number writers meet the reference *)

Lemma CountDigits_loop_spec fuel v c :
  CountDigits_loop fuel v c = (c + length (radix_digits 10 digit_char fuel v))%nat.
Proof.
  revert v c. induction fuel as [|fuel IH]; intros v c; cbn; [lia|].
  case_goal; cbn; [lia|]. rewrite IH, length_app. cbn. lia.
Qed.

Lemma CountHexDigits_loop_spec fuel v c :
  CountHexDigits_loop fuel v c = (c + length (radix_digits 16 hex_char fuel v))%nat.
Proof.
  revert v c. induction fuel as [|fuel IH]; intros v c; cbn; [lia|].
  case_goal; cbn; [lia|]. rewrite IH, length_app, Z.shiftr_div_pow2 by lia. change (2 ^ 4) with 16. cbn. lia.
Qed.

(** Storing a digit just before the already written suffix. *)
Lemma insert_drop_pred (i : nat) (c : ascii) (buf : bytes) :
  (S i <= length buf)%nat -> drop i (<[i:=c]> buf) = c :: drop (S i) buf.
Proof.
  intros Hi. rewrite (drop_S (<[i:=c]> buf) c i).
  - f_equal. by rewrite drop_insert_lt by lia.
  - apply list_lookup_insert_eq. lia.
Qed.

Lemma UIntToStr_fill_spec fuel v buf :
  0 <= v -> let ds := radix_digits 10 digit_char fuel v in
  (length ds <= length buf)%nat ->
  UIntToStr_fill fuel v (length ds) buf = ds ++ drop (length ds) buf.
Proof.
  revert v buf. induction fuel as [|fuel IH]; intros v buf Hv; cbn; [done|].
  intros Hlen. destruct (v =? 0) eqn:Hz; bool_hyps.
  - subst. done.
  - assert ((0 <? v) = true) as -> by (apply Z.ltb_lt; lia).
    rewrite length_app in Hlen |- *. cbn [length] in *.
    rewrite Nat.add_1_r in *. cbn [pred].
    assert (v - 10 * (v / 10) = v mod 10) as -> by (pose proof (Z.div_mod v 10); lia).
    rewrite IH; [|apply Z.div_pos; lia|rewrite length_insert; lia].
    by rewrite insert_drop_pred, <- app_assoc by lia.
Qed.

Lemma UIntToHex_fill_spec fuel v buf :
  0 <= v -> let ds := radix_digits 16 hex_char fuel v in
  (length ds <= length buf)%nat ->
  UIntToHex_fill fuel v (length ds) buf = ds ++ drop (length ds) buf.
Proof.
  revert v buf. induction fuel as [|fuel IH]; intros v buf Hv; cbn; [done|].
  intros Hlen. destruct (v =? 0) eqn:Hz; bool_hyps; [by subst|].
  rewrite length_app in Hlen |- *. cbn [length] in *.
  rewrite Nat.add_1_r in *. cbn [pred].
  change (Z.land v 15) with (Z.land v (Z.ones 4)). rewrite Z.shiftr_div_pow2, Z.land_ones by lia. change (2 ^ 4) with 16.
  rewrite IH; [|apply Z.div_pos; lia|rewrite length_insert; lia].
  by rewrite insert_drop_pred, <- app_assoc by lia.
Qed.

(** Text written at the front of a buffer. *)
Definition writes_front (ds buf : bytes) : nat * bytes :=
  (length ds, ds ++ drop (length ds) buf).

Lemma insert0_writes_front c buf :
  (1 <= length buf)%nat -> (1%nat, <[0%nat:=c]> buf) = writes_front [c] buf.
Proof. by destruct buf; [cbn; lia|]. Qed.

Lemma uint_str_length v : in_u 64 v -> (length (uint_str v) <= 20)%nat.
Proof.
  intros [H1 H2]. unfold uint_str. case_goal; [cbn; lia|].
  apply radix_digits_length; [lia|].
  change (Z.of_nat 20) with 20. change (2 ^ 64) with 18446744073709551616 in H2.
  change (10 ^ 20) with 100000000000000000000. lia.
Qed.

Lemma int_str_length v : in_s 64 v -> (length (int_str v) <= 21)%nat.
Proof.
  intros [H1 H2]. unfold int_str. change (2 ^ (64 - 1)) with 9223372036854775808 in *.
  assert (Hu : forall u, 0 <= u <= 9223372036854775808 -> (length (uint_str u) <= 20)%nat).
  { intros u Hu. apply uint_str_length. split; [lia|]. change (2 ^ 64) with 18446744073709551616. lia. }
  case_goal; bool_hyps; cbn [length]; [pose proof (Hu (- v) ltac:(lia))|pose proof (Hu v ltac:(lia))]; lia.
Qed.

Lemma hex_str_length v : in_u 64 v -> (length (hex_str v) <= 16)%nat.
Proof.
  intros [H1 H2]. unfold hex_str. case_goal; [cbn; lia|].
  apply radix_digits_length; [lia|]. done.
Qed.

Lemma StrBuildUIntToStr_front v buf :
  in_u 64 v -> (20 <= length buf)%nat ->
  StrBuildUIntToStr v buf = writes_front (uint_str v) buf.
Proof.
  intros Hv Hb. pose proof (uint_str_length v Hv) as Hl. destruct Hv.
  unfold StrBuildUIntToStr, uint_str in *. case_goal.
  - apply insert0_writes_front. lia.
  - unfold CountDigits, writes_front. rewrite CountDigits_loop_spec. cbn [Nat.add].
    rewrite UIntToStr_fill_spec; [done|done|lia].
Qed.

Lemma StrBuildUIntToHex_front v buf :
  in_u 64 v -> (32 <= length buf)%nat ->
  StrBuildUIntToHex v buf true = writes_front (lit "0x" ++ hex_str v) buf /\
  StrBuildUIntToHex v buf false = writes_front (hex_str v) buf.
Proof.
  intros Hv Hb. pose proof (hex_str_length v Hv) as Hl. destruct Hv.
  assert (forall b : bytes, (30 <= length b)%nat ->
    (if v =? 0 then (1%nat, <[0%nat := digit_char 0]> b)
     else (CountHexDigits v, UIntToHex_fill 64 v (CountHexDigits v) b))
    = writes_front (hex_str v) b) as Hbody.
  { intros b0 Hb0. unfold hex_str in *. case_goal.
    - apply insert0_writes_front. lia.
    - unfold CountHexDigits, writes_front. rewrite CountHexDigits_loop_spec. cbn [Nat.add].
      rewrite UIntToHex_fill_spec; [done|done|lia]. }
  unfold StrBuildUIntToHex. split; [|apply Hbody; lia].
  rewrite Hbody by (rewrite length_drop; lia). unfold writes_front.
  rewrite (take_ge (lit "0x")) by (cbn; lia). rewrite length_app. f_equal.
  by rewrite <- app_assoc, drop_drop.
Qed.

Lemma StrBuildIntToStr_front v buf :
  in_s 64 v -> (24 <= length buf)%nat ->
  StrBuildIntToStr v buf = writes_front (int_str v) buf.
Proof.
  intros [H1 H2] Hb. unfold StrBuildIntToStr, int_str. cbn [Z.sub] in *.
  change (2 ^ (64 - 1)) with 9223372036854775808 in *. case_goal; bool_hyps.
  - destruct buf as [|c buf]; cbn in Hb; [lia|].
    assert (u64 (i64 (- v)) = - v) as ->.
    { unfold u64, i64. rewrite wrap_u_wrap_s by lia. apply wrap_u_id.
      split; [lia|]. change (2 ^ 64) with 18446744073709551616. lia. }
    rewrite StrBuildUIntToStr_front; [done| |lia].
    split; [lia|]. change (2 ^ 64) with 18446744073709551616. lia.
  - assert (in_u 64 v).
    { split; [lia|]. change (2 ^ 64) with 18446744073709551616. lia. }
    unfold u64. rewrite wrap_u_id by done. apply StrBuildUIntToStr_front; [done|lia].
Qed.

(** * The builder refines bounded text accumulation *)

Definition sb_wf (sb : StrBuilder) : Prop :=
  (0 < length (buf_ sb))%nat /\ (offset_ sb <= UseSize sb)%nat.

Definition arg_ok (a : BuildArg) : Prop :=
  match a with
  | AUInt v | AHex v _ => in_u 64 v
  | AInt v => in_s 64 v
  | _ => True
  end.

(** Text of an argument and the room its writer asks for ([None]: it takes
    what is left). *)
Definition arg_text (a : BuildArg) : bytes :=
  match a with
  | AUInt v => uint_str v
  | AInt v => int_str v
  | ABool v => [if v then "Y"%char else "N"%char]
  | AChar c => [c]
  | AStr s => s
  | AHex v add0x => (if add0x then lit "0x" else []) ++ hex_str v
  end.

Definition arg_room (a : BuildArg) : option nat :=
  match a with
  | AUInt _ | AInt _ => Some 24%nat
  | ABool _ | AChar _ => Some 1%nat
  | AStr _ => None
  | AHex _ _ => Some 32%nat
  end.

(** Appending to at most [cap] bytes: a number that might not fit is dropped
    as a whole, a string is truncated. *)
Definition append_ref (cap : nat) (acc : bytes) (a : BuildArg) : bytes :=
  match arg_room a with
  | Some room => if (cap - length acc <? room)%nat then acc else acc ++ arg_text a
  | None => take cap (acc ++ arg_text a)
  end.

Definition sb_new_wf (Size : nat) : (0 < Size)%nat -> sb_wf (StrBuilderNew Size).
Proof. intros. unfold sb_wf, UseSize. cbn. rewrite length_replicate. lia. Qed.

Lemma Buffer_length sb : sb_wf sb -> length (Buffer sb) = offset_ sb.
Proof. intros [? ?]. unfold Buffer, UseSize in *. rewrite length_take. lia. Qed.

Lemma Buffer_written (xs ys zs : bytes) n m :
  n = length xs -> (m <= length ys)%nat ->
  Buffer (MkStrBuilder (xs ++ ys ++ zs) (n + m)) = xs ++ take m ys.
Proof.
  intros -> Hm. unfold Buffer. cbn [buf_ offset_].
  rewrite take_app_add, take_app_le by done. done.
Qed.

Lemma Write_into sb needed handler ds :
  sb_wf sb -> (needed <= UseSize sb - offset_ sb)%nat ->
  (forall region, length region = needed -> exists rest, handler region = (length ds, ds ++ rest) /\ length (ds ++ rest) = needed) ->
  let sb' := Write sb needed handler in
  sb_wf sb' /\ UseSize sb' = UseSize sb /\ Buffer sb' = Buffer sb ++ ds.
Proof.
  intros [H1 H2] Hroom Hh. unfold Write, UseSize in *.
  destruct (Nat.ltb_spec (pred (length (buf_ sb)) - offset_ sb) needed); [lia|].
  set (region := take needed (drop (offset_ sb) (buf_ sb))).
  assert (Hr : length region = needed).
  { unfold region. rewrite length_take, length_drop. lia. }
  destruct (Hh region Hr) as (rest & -> & Hn). unfold sb_wf, UseSize. cbn [buf_ offset_].
  assert (Hlen : length (take (offset_ sb) (buf_ sb) ++ (ds ++ rest) ++
            drop (offset_ sb + needed) (buf_ sb)) = length (buf_ sb)).
  { rewrite !length_app, length_take, !length_drop in *. lia. }
  rewrite length_app in Hn.
  rewrite Hlen. split; [lia|]. split; [done|].
  rewrite Buffer_written; [|rewrite length_take; lia|rewrite length_app; lia].
  rewrite take_app_length. done.
Qed.

Lemma Write_front sb needed handler ds :
  sb_wf sb -> (needed <= UseSize sb - offset_ sb)%nat ->
  (forall region, length region = needed -> handler region = writes_front ds region) ->
  (length ds <= needed)%nat ->
  let sb' := Write sb needed handler in
  sb_wf sb' /\ UseSize sb' = UseSize sb /\ Buffer sb' = Buffer sb ++ ds.
Proof.
  intros Hwf Hroom Hh Hds. apply Write_into; [done|done|]. intros region Hr. exists (drop (length ds) region).
  split; [by apply Hh|]. rewrite length_app, length_drop. lia.
Qed.

Lemma Write_full sb needed handler :
  (UseSize sb - offset_ sb < needed)%nat -> Write sb needed handler = sb.
Proof. intros. unfold Write. by destruct (Nat.ltb_spec (UseSize sb - offset_ sb) needed); [|lia]. Qed.

Lemma BestEffortWrite_spec sb str :
  sb_wf sb ->
  let sb' := snd (BestEffortWrite sb str) in
  sb_wf sb' /\ UseSize sb' = UseSize sb /\ Buffer sb' = take (UseSize sb) (Buffer sb ++ str).
Proof.
  intros [H1 H2]. unfold BestEffortWrite, sb_wf, UseSize in *. cbn [buf_ offset_ snd].
  set (sz := Nat.min (pred (length (buf_ sb)) - offset_ sb) (length str)).
  assert (Hlen : length (take (offset_ sb) (buf_ sb) ++ take sz str ++
            drop (offset_ sb + sz) (buf_ sb)) = length (buf_ sb)).
  { rewrite !length_app, !length_take, !length_drop. lia. }
  rewrite Hlen. split; [lia|]. split; [done|].
  rewrite Buffer_written; [|rewrite length_take; lia|rewrite length_take; lia].
  unfold Buffer. rewrite take_app. rewrite length_take, take_take. f_equal.
  - rewrite take_take. f_equal. lia.
  - rewrite Nat.min_id. destruct (Nat.le_ge_cases (length str) (pred (length (buf_ sb)) - offset_ sb)).
    + rewrite !take_ge; [done|lia..].
    + f_equal. lia.
Qed.

Lemma arg_writer a :
  arg_ok a ->
  match arg_room a with
  | None => forall sb, Append1 sb a = snd (BestEffortWrite sb (arg_text a))
  | Some room => (length (arg_text a) <= room)%nat /\
      exists h, (forall sb, Append1 sb a = Write sb room h) /\
        forall region, length region = room -> h region = writes_front (arg_text a) region
  end.
Proof.
  destruct a as [v|v|v|c|s|v x]; cbn [arg_ok arg_room arg_text Append1]; intros Hok.
  - split; [pose proof (uint_str_length v Hok); lia|].
    exists (StrBuildUIntToStr v). split; [done|]. intros. apply StrBuildUIntToStr_front; [done|lia].
  - split.
    { unfold int_str. destruct Hok as [H1 H2].
      change (2 ^ (64 - 1)) with 9223372036854775808 in *.
      case_goal; bool_hyps; cbn [length].
      - pose proof (uint_str_length (- v) ltac:(split; [lia|]; change (2 ^ 64) with 18446744073709551616; lia)). lia.
      - pose proof (uint_str_length v ltac:(split; [lia|]; change (2 ^ 64) with 18446744073709551616; lia)). lia. }
    exists (StrBuildIntToStr v). split; [done|]. intros. apply StrBuildIntToStr_front; [done|lia].
  - split; [done|]. eexists. split; [done|]. intros. apply insert0_writes_front. lia.
  - split; [done|]. eexists. split; [done|]. intros. apply insert0_writes_front. lia.
  - done.
  - split.
    { pose proof (hex_str_length v Hok). rewrite length_app. destruct x; cbn; lia. }
    eexists. split; [done|]. intros r Hr. cbn beta.
    pose proof (StrBuildUIntToHex_front v r Hok ltac:(lia)) as [E1 E2]. by destruct x.
Qed.

Lemma Append1_spec sb a :
  sb_wf sb -> arg_ok a ->
  sb_wf (Append1 sb a) /\ UseSize (Append1 sb a) = UseSize sb /\
  Buffer (Append1 sb a) = append_ref (UseSize sb) (Buffer sb) a.
Proof.
  intros Hwf Hok. pose proof (arg_writer a Hok) as Hw. unfold append_ref.
  destruct (arg_room a) as [room|].
  - destruct Hw as [Hl (h & -> & Hh)]. rewrite Buffer_length by done.
    destruct (Nat.ltb_spec (UseSize sb - offset_ sb) room).
    + by rewrite Write_full by lia.
    + by apply Write_front.
  - rewrite Hw. by apply BestEffortWrite_spec.
Qed.

Lemma Append_spec sb args :
  sb_wf sb -> Forall arg_ok args ->
  sb_wf (Append sb args) /\ UseSize (Append sb args) = UseSize sb /\
  Buffer (Append sb args) = fold_left (append_ref (UseSize sb)) args (Buffer sb).
Proof.
  intros Hwf Hok. revert sb Hwf. induction Hok as [|a args Ha _ IH]; intros sb Hwf; [done|].
  change (Append sb (a :: args)) with (Append (Append1 sb a) args). cbn [fold_left].
  pose proof (Append1_spec sb a Hwf Ha) as (H1 & H2 & H3).
  destruct (IH _ H1) as (I1 & I2 & I3). by rewrite I2, I3, H2, H3.
Qed.

(** * Properties *)

Lemma uint_str_value v : in_u 64 v -> dec_value (uint_str v) = v.
Proof.
  intros [H1 H2]. unfold uint_str, dec_value. case_goal; bool_hyps; [by subst|].
  apply (radix_digits_value 10 digit_char digit_val); [lia|intros; by apply digit_val_digit_char|].
  split; [done|]. etrans; [exact H2|]. done.
Qed.

Lemma hex_str_value v : in_u 64 v -> hex_value (hex_str v) = v.
Proof.
  intros [H1 H2]. unfold hex_str, hex_value. case_goal; bool_hyps; [by subst|].
  apply (radix_digits_value 16 hex_char hex_val); [lia|intros; by apply hex_val_char|].
  split; [done|]. etrans; [exact H2|]. done.
Qed.

(** C25. The string builder is a bounded text accumulator.  Appending any list
    of arguments to a builder of any capacity never writes outside its buffer
    and leaves the text of a simple reference: numbers that might not fit are
    dropped as a whole, strings are cut.  A 64-bit number that is appended reads
    back, in decimal or hexadecimal, as itself. *)
Theorem builder_appends_bounded sb args :
  sb_wf sb -> Forall arg_ok args ->
  let sb' := Append sb args in
  sb_wf sb' /\ UseSize sb' = UseSize sb /\ (length (Buffer sb') <= UseSize sb)%nat /\
  Buffer sb' = fold_left (append_ref (UseSize sb)) args (Buffer sb) /\
  forall v, in_u 64 v -> (UseSize sb - length (Buffer sb') >= 32)%nat ->
    (exists ds, Buffer (Append sb' [AUInt v]) = Buffer sb' ++ ds /\ dec_value ds = v) /\
    (exists ds, Buffer (Append sb' [AHex v false]) = Buffer sb' ++ ds /\ hex_value ds = v).
Proof.
  intros Hwf Hok sb'. destruct (Append_spec sb args Hwf Hok) as (H1 & H2 & H3). fold sb' in H1, H2, H3.
  split; [done|]. split; [done|]. split; [rewrite Buffer_length by done; destruct H1; lia|]. split; [done|].
  intros v Hv Hroom.
  assert (Happ : forall a, arg_ok a -> arg_room a = Some 24%nat \/ arg_room a = Some 32%nat ->
    Buffer (Append sb' [a]) = Buffer sb' ++ arg_text a).
  { intros a Ha Hr. destruct (Append_spec sb' [a] H1 (Forall_cons_2 _ _ _ Ha (Forall_nil_2 _))) as (_ & _ & ->).
    cbn [fold_left]. unfold append_ref. destruct Hr as [-> | ->]; rewrite H2.
    - by destruct (Nat.ltb_spec (UseSize sb - length (Buffer sb')) 24); [lia|].
    - by destruct (Nat.ltb_spec (UseSize sb - length (Buffer sb')) 32); [lia|]. }
  split.
  - exists (uint_str v). split; [by apply (Happ (AUInt v)); [|left]|by apply uint_str_value].
  - exists (hex_str v). split; [by apply (Happ (AHex v false)); [|right]|by apply hex_str_value].
Qed.

Lemma builder_appends_bounded_witness :
  exists ds, Buffer (Append (Append (StrBuilderNew 64) [AStr (lit "n=")]) [AUInt 255]) = lit "n=" ++ ds /\
    dec_value ds = 255.
Proof.
  destruct (builder_appends_bounded (StrBuilderNew 64) [AStr (lit "n=")]) as (_ & _ & _ & _ & H).
  - apply sb_new_wf. lia.
  - repeat constructor.
  - destruct (H 255) as [[ds [E Hd]] _]; [split; lia|vm_compute; lia|]. exists ds. split; [exact E|exact Hd].
Defined.
