(* ===== verification/CLib.v ===== *)
(** The parts of the C library and of the x86-64 ABI the program relies on:
    NUL-terminated strings, [isspace], [strtoll], [strtod], the ["%.24g"]
    conversion of [snprintf], and IEEE binary64/binary32 arithmetic with its
    bit patterns.  Floating point is the standard library's [SpecFloat]
    (integers only, no primitive floats), instantiated at 53/1024 and 24/128.
    The sign of a NaN is not represented. *)
From S2P Require Import Prelude.
From S2P Require Import StrBuild.
From Stdlib Require Import Floats.SpecFloat.
Local Open Scope Z_scope.

(** * Strings *)

Fixpoint take_while (p : ascii -> bool) (s : bytes) : bytes :=
  match s with
  | [] => []
  | c :: s' => if p c then c :: take_while p s' else []
  end.

Fixpoint drop_while (p : ascii -> bool) (s : bytes) : bytes :=
  match s with
  | [] => []
  | c :: s' => if p c then drop_while p s' else s
  end.

(** The C string that starts at the beginning of a buffer. *)
Definition c_str (s : bytes) : bytes := take_while (fun c => negb (c =c c_nul)) s.

Definition isspace (c : ascii) : bool :=
  (c =c c_space) || (c =c c_tab) || (c =c c_lf) || (c =c c_vt) || (c =c c_ff) || (c =c c_cr).

(** An optional leading sign: is it a minus, and the text after it. *)
Definition split_sign (s : bytes) : bool * bytes :=
  match s with
  | c :: s' => if c =c "-" then (true, s') else if c =c "+" then (false, s') else (false, s)
  | [] => (false, [])
  end.

(** * strtoll, base 10

    Value, offset of [*endptr], and whether [errno] became [ERANGE]. *)

Definition int64_min : Z := - 2 ^ 63.
Definition int64_max : Z := 2 ^ 63 - 1.

Definition strtoll (buf : bytes) : Z * nat * bool :=
  let s := c_str buf in
  let r := drop_while isspace s in
  let '(neg, r') := split_sign r in
  let ds := take_while is_digit r' in
  match ds with
  | [] => (0, 0%nat, false)
  | _ =>
      let endp := (length s - length r' + length ds)%nat in
      let v := if neg then - dec_value ds else dec_value ds in
      if v <? int64_min then (int64_min, endp, true)
      else if int64_max <? v then (int64_max, endp, true)
      else (v, endp, false)
  end.

(** * IEEE 754 *)

Abbreviation double := spec_float.

Definition d_add : double -> double -> double := SFadd 53 1024.
Definition d_sub : double -> double -> double := SFsub 53 1024.
Definition d_mul : double -> double -> double := SFmul 53 1024.
Definition d_div : double -> double -> double := SFdiv 53 1024.
Definition d_of_Z (z : Z) : double := binary_normalize 53 1024 z 0 false.
Definition d_nan : double := S754_nan.
Definition d_zero : double := S754_zero false.
Definition d_one : double := d_of_Z 1.

(** Conversion to an integer type: truncation towards zero; [None] for a NaN
    or an infinity (undefined behaviour in C++). *)
Definition d_trunc (x : double) : option Z :=
  match x with
  | S754_zero _ => Some 0
  | S754_finite s m e =>
      let a := if 0 <=? e then Z.pos m * 2 ^ e else Z.pos m / 2 ^ (- e) in
      Some (if s then - a else a)
  | _ => None
  end.

(** The conversions of a [double] to a 64-bit integer that x86-64 code
    performs ([cvttsd2si], and the two-range sequence for [uint64_t]); they
    agree with C++ wherever it defines the result. *)
Definition d_to_i64 (x : double) : Z :=
  match d_trunc x with
  | Some z => if (int64_min <=? z) && (z <=? int64_max) then z else int64_min
  | None => int64_min
  end.

Definition d_to_u64 (x : double) : Z :=
  match d_trunc x with
  | Some z =>
      if (int64_min <=? z) && (z <=? int64_max) then u64 z
      else if int64_max <? z then (if z <? 2 ^ 64 then z else 0)
      else 2 ^ 63
  | None => match x with S754_infinity false => 0 | _ => 2 ^ 63 end
  end.

(** [double] to [float] and back. *)
Definition f32_of_double (x : double) : spec_float :=
  match x with
  | S754_finite s m e => binary_normalize 24 128 (if s then Z.neg m else Z.pos m) e s
  | _ => x
  end.
Definition double_of_f32 (x : spec_float) : double :=
  match x with
  | S754_finite s m e => binary_normalize 53 1024 (if s then Z.neg m else Z.pos m) e s
  | _ => x
  end.

(** Bit patterns of a binary format with [mw] stored mantissa bits and [ew]
    exponent bits. *)
Section Bits.
  Context (mw ew : Z).

Definition fl_emin : Z := 3 - 2 ^ (ew - 1) - (mw + 1).

Definition fl_bits (x : spec_float) : Z :=
    let sign (s : bool) : Z := if s then 2 ^ (mw + ew) else 0 in
    match x with
    | S754_zero s => sign s
    | S754_infinity s => sign s + (2 ^ ew - 1) * 2 ^ mw
    | S754_nan => (2 ^ ew - 1) * 2 ^ mw + 2 ^ (mw - 1)
    | S754_finite s m e =>
        if Z.pos m <? 2 ^ mw then sign s + Z.pos m
        else sign s + (e - fl_emin + 1) * 2 ^ mw + (Z.pos m - 2 ^ mw)
    end.

Definition fl_of_bits (b : Z) : spec_float :=
    let s := 2 ^ (mw + ew) <=? b in
    let b' := b mod 2 ^ (mw + ew) in
    let ex := b' / 2 ^ mw in
    let m := b' mod 2 ^ mw in
    if ex =? 0 then
      match m with Z.pos p => S754_finite s p fl_emin | _ => S754_zero s end
    else if ex =? 2 ^ ew - 1 then
      (if m =? 0 then S754_infinity s else S754_nan)
    else
      match m + 2 ^ mw with
      | Z.pos p => S754_finite s p (ex - 1 + fl_emin)
      | _ => S754_nan
      end.
End Bits.

Definition d_bits : double -> Z := fl_bits 52 11.
Definition d_of_bits : Z -> double := fl_of_bits 52 11.
Definition f32_bits : spec_float -> Z := fl_bits 23 8.
Definition f32_of_bits : Z -> spec_float := fl_of_bits 23 8.

(** * strtod *)

Definition is_hex_digit (c : ascii) : bool :=
  is_digit c || ((97 <=? uchar c) && (uchar c <=? 102)) || ((65 <=? uchar c) && (uchar c <=? 70)).
Definition hex_digit_val (c : ascii) : Z :=
  if is_digit c then digit_val c else if 97 <=? uchar c then uchar c - 87 else uchar c - 55.

Definition lower (c : ascii) : ascii :=
  if (65 <=? uchar c) && (uchar c <=? 90) then char_of (uchar c + 32) else c.

(** Length of the case-insensitive prefix [p] of [s], if it is one. *)
Definition has_prefix (p s : bytes) : bool :=
  bool_decide (map lower (take (length p) s) = p).

(** Nearest double to [± m * 10^e10] (ties to even), with the [ERANGE] flag
    glibc sets on overflow and on an inexact subnormal result.  Exponents
    outside [-1500, 1500] cannot change the outcome for the at most 127
    characters the callers pass. *)
Definition dec_exact (m e10 : Z) (x : double) : bool :=
  match x with
  | S754_finite _ p e =>
      let a := m * (if 0 <=? e10 then 10 ^ e10 else 1) * (if 0 <=? e then 1 else 2 ^ (- e)) in
      let b := Z.pos p * (if 0 <=? e then 2 ^ e else 1) * (if 0 <=? e10 then 1 else 10 ^ (- e10)) in
      a =? b
  | _ => false
  end.

Definition d_erange (exact : bool) (x : double) : bool :=
  match x with
  | S754_infinity _ | S754_zero _ => true
  | S754_finite _ p _ => (Z.pos p <? 2 ^ 52) && negb exact
  | S754_nan => false
  end.

Definition dec_to_double (neg : bool) (m e10 : Z) : double * bool :=
  if m =? 0 then (S754_zero neg, false)
  else
    let e := Z.max (-1500) (Z.min 1500 e10) in
    let x :=
      if 0 <=? e then
        match m * 10 ^ e with
        | Z.pos p => binary_round 53 1024 neg p 0
        | _ => S754_nan
        end
      else
        let '(q, e', loc) := SFdiv_core_binary 53 1024 m 0 (10 ^ (- e)) 0 in
        binary_round_aux 53 1024 neg q e' loc in
    (x, d_erange (dec_exact m e x) x).

Definition hex_to_double (neg : bool) (m e2 : Z) : double * bool :=
  match m with
  | Z.pos p =>
      let e := Z.max (-3000) (Z.min 3000 e2) in
      let x := binary_round 53 1024 neg p e in
      let exact := match x with
                   | S754_finite _ q e' =>
                       Z.pos p * 2 ^ (e - Z.min e e') =? Z.pos q * 2 ^ (e' - Z.min e e')
                   | _ => false end in
      (x, d_erange exact x)
  | _ => (S754_zero neg, false)
  end.

(** An exponent part [e[+-]digits]: its value and its length, zero when it is
    not complete. *)
Definition exp_part (mark : ascii) (s : bytes) : Z * nat :=
  match s with
  | c :: s' =>
      if lower c =c mark then
        let '(neg, r) := split_sign s' in
        let ds := take_while is_digit r in
        match ds with
        | [] => (0, 0%nat)
        | _ => ((if neg then - dec_value ds else dec_value ds),
                (1 + (length s' - length r) + length ds)%nat)
        end
      else (0, 0%nat)
  | [] => (0, 0%nat)
  end.

(** Digits with an optional point: the digits, how many follow the point,
    and the length of the text. *)
Definition mantissa (dig : ascii -> bool) (s : bytes) : bytes * Z * nat :=
  let ip := take_while dig s in
  match drop_while dig s with
  | c :: r =>
      if c =c "." then
        let fp := take_while dig r in
        match ip ++ fp with
        | [] => ([], 0, 0%nat)
        | ds => (ds, Z.of_nat (length fp), (length ip + 1 + length fp)%nat)
        end
      else (ip, 0, length ip)
  | [] => (ip, 0, length ip)
  end.

Definition strtod_number (neg : bool) (s : bytes) : option (double * nat * bool) :=
  let hex := has_prefix (lit "0x") s in
  let '(hds, hfrac, hlen) := mantissa is_hex_digit (drop 2 s) in
  if hex && negb (bool_decide (hds = [])) then
    let '(ex, elen) := exp_part "p" (drop (2 + hlen) s) in
    let '(x, er) := hex_to_double neg (radix_value 16 hex_digit_val hds) (ex - 4 * hfrac) in
    Some (x, (2 + hlen + elen)%nat, er)
  else
    let '(ds, frac, len) := mantissa is_digit s in
    match ds with
    | [] => None
    | _ =>
        let '(ex, elen) := exp_part "e" (drop len s) in
        let '(x, er) := dec_to_double neg (dec_value ds) (ex - frac) in
        Some (x, (len + elen)%nat, er)
    end.

(** Characters of the [nan(n-char-sequence)] form. *)
Definition nan_paren (s : bytes) : nat :=
  match s with
  | c :: s' =>
      if c =c "(" then
        let w := take_while (fun c => is_digit c || (c =c "_")
                   || ((97 <=? uchar (lower c)) && (uchar (lower c) <=? 122))) s' in
        match drop (length w) s' with
        | d :: _ => if d =c ")" then (2 + length w)%nat else 0%nat
        | [] => 0%nat
        end
      else 0%nat
  | [] => 0%nat
  end.

Definition strtod (buf : bytes) : double * nat * bool :=
  let s := c_str buf in
  let r := drop_while isspace s in
  let '(neg, r') := split_sign r in
  let pre := (length s - length r')%nat in
  if has_prefix (lit "infinity") r' then (S754_infinity neg, (pre + 8)%nat, false)
  else if has_prefix (lit "inf") r' then (S754_infinity neg, (pre + 3)%nat, false)
  else if has_prefix (lit "nan") r' then (S754_nan, (pre + 3 + nan_paren (drop 3 r'))%nat, false)
  else
    match strtod_number neg r' with
    | Some (x, n, er) => (x, (pre + n)%nat, er)
    | None => (d_zero, 0%nat, false)
    end.

(** * snprintf "%.24g" *)

(** [floor (log10 (num / den))], found by search from [x] downwards. *)
Fixpoint dec_exponent (fuel : nat) (num den x : Z) : Z :=
  match fuel with
  | O => x
  | S fuel' =>
      let ok := if 0 <=? x then 10 ^ x * den <=? num else den <=? num * 10 ^ (- x) in
      if ok then x else dec_exponent fuel' num den (x - 1)
  end.

(** Division rounding half to even. *)
Definition div_half_even (a b : Z) : Z :=
  let q := a / b in
  let r := a mod b in
  if 2 * r <? b then q else if b <? 2 * r then q + 1 else if Z.even q then q else q + 1.

Definition pad_left (n : nat) (s : bytes) : bytes := replicate (n - length s) "0"%char ++ s.

Definition strip_zeros (s : bytes) : bytes := rev (drop_while (fun c => c =c "0") (rev s)).

Definition frac_part (s : bytes) : bytes :=
  match strip_zeros s with [] => [] | f => "."%char :: f end.

Definition fmt_g24 (x : double) : bytes :=
  match x with
  | S754_nan => lit "nan"
  | S754_infinity s => lit (if s then "-inf" else "inf")
  | S754_zero s => lit (if s then "-0" else "0")
  | S754_finite s m e =>
      let num := Z.pos m * (if 0 <=? e then 2 ^ e else 1) in
      let den := if 0 <=? e then 1 else 2 ^ (- e) in
      let x0 := dec_exponent 700 num den 310 in
      let k := 23 - x0 in
      let q0 := if 0 <=? k then div_half_even (num * 10 ^ k) den
                else div_half_even num (den * 10 ^ (- k)) in
      let '(q, ex) := if q0 =? 10 ^ 24 then (10 ^ 23, x0 + 1) else (q0, x0) in
      let ds := uint_str q in
      let body :=
        if (ex <? -4) || (24 <=? ex) then
          take 1 ds ++ frac_part (drop 1 ds) ++ lit "e" ++ lit (if ex <? 0 then "-" else "+")
            ++ pad_left 2 (uint_str (Z.abs ex))
        else if ex <? 0 then lit "0" ++ frac_part (replicate (Z.to_nat (- ex - 1)) "0"%char ++ ds)
        else take (Z.to_nat (ex + 1)) ds ++ frac_part (drop (Z.to_nat (ex + 1)) ds) in
      (if s then lit "-" else []) ++ body
  end.
