(* ===== verification/DoubleText.v ===== *)
(** [StrBuildWriteDouble] of [base/str_build_types.h]: doubles as text for
    people.

    [log10] and [pow] are the C library's; the other functions of [math.h] the
    code uses are exact and defined here.  [None] is the failed assertion of
    [StrBuilder::Rollback]. *)
From Stdlib Require Import Floats.SpecFloat.
From S2P Require Import Prelude StrBuild CLib.
Local Open Scope Z_scope.

(** * Functions of the C library *)

Definition d_is_nan (x : double) : bool := match x with S754_nan => true | _ => false end.
Definition d_is_inf (x : double) : bool := match x with S754_infinity _ => true | _ => false end.
Definition d_lt : double -> double -> bool := SFltb.
Definition d_opp : double -> double := SFopp.

(** [floor] and [modf], which are exact. *)
Definition d_floor (x : double) : double :=
  match x with
  | S754_finite s m e => if 0 <=? e then x else d_of_Z ((if s then Z.neg m else Z.pos m) / 2 ^ (- e))
  | _ => x
  end.
Definition d_modf (x : double) : double * double :=
  let hi := match d_trunc x with
            | Some z => if z =? 0 then match x with S754_finite s _ _ | S754_zero s => S754_zero s | _ => x end
                        else match x with S754_finite _ _ e => if 0 <=? e then x else d_of_Z z | _ => x end
            | None => x
            end in
  (d_sub x hi, hi).

Definition d_ten : double := d_of_Z 10.
Definition d_million : double := d_of_Z 1000000.

(** [std::clamp((unsigned)f, 0u, 9u)] *)
Definition digit_of (f : double) : Z := Z.min (wrap_u 32 (d_to_i64 f)) 9.

Section Write.
  Context (log10 : double -> double) (pow : double -> double -> double).

(** * The writer *)

(** The digits behind the point, from number [i] on; [j] is the number of the
    last one that is not 0. *)
(** source/base/str_build_types.h:263-272 [StrBuildWriteDouble] *)
Fixpoint WriteFraction (num_digits i j : nat) (lo : double) (sb : StrBuilder) : nat * StrBuilder :=
  match num_digits with
  | O => (j, sb)
  | S num_digits' =>
      let lo := d_mul lo d_ten in
      let f := d_floor lo in
      let lo := d_sub lo f in
      let d := digit_of f in
      WriteFraction num_digits' (S i) (if d =? 0 then j else i) lo (BuildChar sb (digit_char d))
  end.

(** [Rollback] with its assertion; with no digits asked for, the number wraps
    around. *)
(** source/base/str_build_types.h:273-273 [StrBuildWriteDouble] *)
Definition RollbackZeros (num_fraction_digits j : nat) (sb : StrBuilder) : option StrBuilder :=
  let num := u64 (Z.of_nat num_fraction_digits - 1 - Z.of_nat j) in
  if num <=? Z.of_nat (offset_ sb) then Some (Rollback sb (Z.to_nat num)) else None.

(** source/base/str_build_types.h:256-256 [StrBuildWriteDouble] *)
Definition fits_six_digits (value : double) : bool :=
  d_lt value d_million &&
  match d_sub (d_mul value d_million) (d_floor (d_mul value d_million)) with S754_zero _ => true | _ => false end.

(** source/base/str_build_types.h:231-301 [StrBuildWriteDouble] *)
Definition BuildDouble (value : double) (num_fraction_digits : nat) (sb : StrBuilder) : option StrBuilder :=
  if d_is_nan value then Some (Write sb 3 (fun region => (3%nat, lit "nan" ++ drop 3 region)))
  else if d_is_inf value then
    if d_lt d_zero value then Some (Write sb 3 (fun region => (3%nat, lit "inf" ++ drop 3 region)))
    else Some (Write sb 4 (fun region => (4%nat, lit "-inf" ++ drop 4 region)))
  else
    let neg := d_lt value d_zero in
    let value := if neg then d_opp value else value in
    let sb := if neg then BuildChar sb "-"%char else sb in
    if fits_six_digits value then
      let '(lo, hi) := d_modf value in
      let '(j, sb) := WriteFraction num_fraction_digits 0 0 lo (BuildChar (BuildUInt sb (d_to_u64 hi)) "."%char) in
      RollbackZeros num_fraction_digits j sb
    else
      let e := d_floor (log10 value) in
      let value := d_div value (pow d_ten e) in
      let f := d_floor value in
      let sb := BuildChar (BuildChar sb (digit_char (digit_of f))) "."%char in
      let '(j, sb) := WriteFraction num_fraction_digits 0 0 (d_sub value f) sb in
      option_map (fun sb => BuildInt (BuildChar sb "e"%char) (d_to_i64 e)) (RollbackZeros num_fraction_digits j sb).

(** A float is converted to a double. *)
(** source/base/str_build_types.h:305-320 [StrBuild double] *)
Definition BuildDouble6 (value : double) (sb : StrBuilder) : option StrBuilder := BuildDouble value 6 sb.

(** source/base/str_build_types.h:52-61 [StrPrecision] *)
Record StrPrecision := MkPrecision { value_ : double; precision_ : nat }.

(** source/base/str_build_types.h:323-329 [StrBuild StrPrecision] *)
Definition BuildPrecision (float_val : StrPrecision) (sb : StrBuilder) : option StrBuilder :=
  BuildDouble (value_ float_val) (precision_ float_val) sb.

(** * Reference *)

Fixpoint fraction_text (num_digits : nat) (lo : double) : bytes :=
  match num_digits with
  | O => []
  | S n =>
      let f := d_floor (d_mul lo d_ten) in
      digit_char (digit_of f) :: fraction_text n (d_sub (d_mul lo d_ten) f)
  end.

(** The first digit stays, zeros at the end go. *)
Definition trim_fraction (ds : bytes) : bytes := match ds with [] => [] | d :: ds' => d :: strip_zeros ds' end.

Definition double_text (value : double) (n : nat) : bytes :=
  if d_is_nan value then lit "nan"
  else if d_is_inf value then if d_lt d_zero value then lit "inf" else lit "-inf"
  else
    let neg := d_lt value d_zero in
    let value := if neg then d_opp value else value in
    (if neg then lit "-" else []) ++
    if fits_six_digits value then
      let '(lo, hi) := d_modf value in uint_str (d_to_u64 hi) ++ lit "." ++ trim_fraction (fraction_text n lo)
    else
      let e := d_floor (log10 value) in
      let value := d_div value (pow d_ten e) in
      let f := d_floor value in
      [digit_char (digit_of f)] ++ lit "." ++ trim_fraction (fraction_text n (d_sub value f)) ++
        lit "e" ++ int_str (d_to_i64 e).

(** * The writer against the reference *)

Lemma d_to_u64_range x : in_u 64 (d_to_u64 x).
Proof.
  unfold d_to_u64, in_u. destruct (d_trunc x) as [z|].
  - destruct (_ && _) eqn:E1; [apply wrap_u_range; lia|].
    destruct (int64_max <? z) eqn:E2; [|by split]. destruct (z <? 2 ^ 64) eqn:E3; [|by split].
    apply Z.ltb_lt in E2, E3. unfold int64_max in E2. split; [|done]. assert (0 < 2 ^ 63) by done. lia.
  - destruct x as [|[]| |]; by split.
Qed.

Lemma d_to_i64_range x : in_s 64 (d_to_i64 x).
Proof.
  unfold d_to_i64, in_s, int64_min, int64_max. change (64 - 1) with 63. destruct (d_trunc x) as [z|]; [|by split].
  destruct (_ && _) eqn:E; [|by split]. apply andb_true_iff in E as [E1 E2]. apply Z.leb_le in E1, E2. lia.
Qed.

(** A builder with a text in it and room for more. *)
Definition built (sb sb' : StrBuilder) (text : bytes) : Prop :=
  sb_wf sb' /\ UseSize sb' = UseSize sb /\ Buffer sb' = Buffer sb ++ text.

Lemma built_trans a b c s t : built a b s -> built b c t -> built a c (s ++ t).
Proof. intros (_ & U1 & B1) (W2 & U2 & B2). split; [done|]. split; [congruence|]. by rewrite B2, B1, <- app_assoc. Qed.

Lemma built_room a b t : built a b t -> offset_ b = (length (Buffer a) + length t)%nat.
Proof. intros (W & _ & B). by rewrite <- (Buffer_length b W), B, length_app. Qed.

Lemma Append1_built sb arg room : sb_wf sb -> arg_ok arg -> arg_room arg = Some room ->
  (offset_ sb + room <= UseSize sb)%nat -> built sb (Append1 sb arg) (arg_text arg).
Proof.
  intros Hwf Hok Hr Hroom. destruct (Append1_spec sb arg Hwf Hok) as (W & U & B). split; [done|]. split; [done|].
  rewrite B. unfold append_ref. rewrite Hr, Buffer_length by done.
  by destruct (Nat.ltb_spec (UseSize sb - offset_ sb) room); [lia|].
Qed.

Lemma BuildChar_built sb c : sb_wf sb -> (offset_ sb < UseSize sb)%nat -> built sb (BuildChar sb c) [c].
Proof. intros Hwf Hr. apply (Append1_built sb (AChar c) 1); [done|done|done|lia]. Qed.

Lemma fraction_text_length n lo : length (fraction_text n lo) = n.
Proof. revert lo. induction n as [|n IH]; intros lo; [done|]. cbn. by rewrite IH. Qed.

Lemma WriteFraction_built n : forall i j lo sb, sb_wf sb -> (offset_ sb + n <= UseSize sb)%nat ->
  built sb (snd (WriteFraction n i j lo sb)) (fraction_text n lo).
Proof.
  induction n as [|n IH]; intros i j lo sb Hwf Hr.
  - cbn. split; [done|]. split; [done|]. by rewrite app_nil_r.
  - cbn [WriteFraction fraction_text]. set (f := d_floor (d_mul lo d_ten)).
    pose proof (BuildChar_built sb (digit_char (digit_of f)) Hwf ltac:(lia)) as Hb.
    pose proof (built_room _ _ _ Hb) as Ho. cbn [length] in Ho. rewrite Buffer_length in Ho by done.
    apply (built_trans _ _ _ [_] _ Hb). apply IH; [apply Hb|]. destruct Hb as (_ & U & _). rewrite U. lia.
Qed.

(** ** The zeros at the end *)

Lemma rev_zeros k (c : ascii) : rev (replicate k c) = replicate k c.
Proof. rewrite rev_alt. exact (reverse_replicate k c). Qed.

Lemma drop_while_zeros p k (c : ascii) s : p c = true -> drop_while p (replicate k c ++ s) = drop_while p s.
Proof. intros Hc. induction k as [|k IH]; [done|]. cbn. by rewrite Hc. Qed.

Lemma strip_zeros_app a k : list.last a <> Some "0"%char -> strip_zeros (a ++ replicate k "0"%char) = a.
Proof.
  intros Hl. unfold strip_zeros. rewrite rev_app_distr, rev_zeros, drop_while_zeros by done.
  destruct a as [|c a _] using rev_ind; [done|]. rewrite rev_app_distr. cbn.
  rewrite last_snoc in Hl. destruct (c =c "0") eqn:E; [apply Ascii.eqb_eq in E; congruence|].
  cbn. by rewrite rev_involutive.
Qed.

(** Digits without trailing zeros, of which the first stays. *)
Lemma trim_fraction_app a k : a <> [] -> length a = 1%nat \/ list.last a <> Some "0"%char ->
  trim_fraction (a ++ replicate k "0"%char) = a.
Proof.
  destruct a as [|d a]; [done|]. intros _ Hl. cbn. f_equal. apply strip_zeros_app.
  destruct a as [|d' a]; [done|]. destruct Hl as [?|Hl]; [done|]. exact Hl.
Qed.

Lemma digit_of_range f : 0 <= digit_of f <= 9.
Proof. unfold digit_of. pose proof (wrap_u_range 32 (d_to_i64 f) ltac:(lia)) as [? ?]. lia. Qed.

Lemma digit_char_zero d : 0 <= d <= 9 -> digit_char d = "0"%char <-> d = 0.
Proof.
  intros Hd. split; [|by intros ->]. intros E. pose proof (digit_val_digit_char d ltac:(lia)) as H. rewrite E in H. done.
Qed.

(** What the loop returns is the number of the last digit that is not 0. *)
Lemma WriteFraction_last n : forall i j lo sb a k, i = (length a + k)%nat -> length a = S j ->
  (length a = 1%nat \/ list.last a <> Some "0"%char) ->
  exists a' k', a ++ replicate k "0"%char ++ fraction_text n lo = a' ++ replicate k' "0"%char /\
    length a' = S (fst (WriteFraction n i j lo sb)) /\ (length a' = 1%nat \/ list.last a' <> Some "0"%char).
Proof.
  induction n as [|n IH]; intros i j lo sb a k Hi Hj Hl; cbn [WriteFraction fraction_text].
  - exists a, k. by rewrite app_nil_r.
  - set (f := d_floor (d_mul lo d_ten)). pose proof (digit_of_range f) as Hf. destruct (digit_of f =? 0) eqn:Ed.
    + apply Z.eqb_eq in Ed. rewrite Ed. change (digit_char 0) with "0"%char.
      destruct (IH (S i) j (d_sub (d_mul lo d_ten) f) (BuildChar sb "0"%char) a (S k) ltac:(lia) Hj Hl) as (a' & k' & E & Hr).
      exists a', k'. split; [|exact Hr]. rewrite <- E. f_equal. set (X := fraction_text _ _).
      change (replicate k "0"%char ++ ["0"%char] ++ X = replicate (S k) "0"%char ++ X).
      by rewrite app_assoc, <- replicate_cons_app.
    + apply Z.eqb_neq in Ed. set (c := digit_char (digit_of f)).
      destruct (IH (S i) i (d_sub (d_mul lo d_ten) f) (BuildChar sb c) (a ++ replicate k "0"%char ++ [c]) 0%nat)
        as (a' & k' & E & Hr).
      * rewrite !length_app, length_replicate. cbn. lia.
      * rewrite !length_app, length_replicate. cbn. lia.
      * right. rewrite app_assoc, last_snoc. intros [= E]. by apply Ed, (digit_char_zero (digit_of f) Hf).
      * exists a', k'. split; [|exact Hr]. rewrite <- E. by rewrite <- !app_assoc.
Qed.

(** The digits and the rollback of the zeros behind them. *)
Lemma fraction_built n lo sb : sb_wf sb -> (offset_ sb + S n <= UseSize sb)%nat -> Z.of_nat n < 2 ^ 63 ->
  exists sb', RollbackZeros (S n) (fst (WriteFraction (S n) 0 0 lo sb)) (snd (WriteFraction (S n) 0 0 lo sb)) = Some sb' /\
    built sb sb' (trim_fraction (fraction_text (S n) lo)).
Proof.
  intros Hwf Hroom Hn. pose proof (WriteFraction_built (S n) 0 0 lo sb Hwf Hroom) as Hb.
  assert (Hlast : exists a k, fraction_text (S n) lo = a ++ replicate k "0"%char /\
    length a = S (fst (WriteFraction (S n) 0 0 lo sb)) /\ (length a = 1%nat \/ list.last a <> Some "0"%char)).
  { cbn [WriteFraction fraction_text]. set (f := d_floor (d_mul lo d_ten)). set (c := digit_char (digit_of f)).
    assert (E : (if digit_of f =? 0 then 0%nat else 0%nat) = 0%nat) by (by destruct (_ =? _)). rewrite E.
    exact (WriteFraction_last n 1 0 _ _ [c] 0 eq_refl eq_refl (or_introl eq_refl)). }
  destruct Hlast as (a & k & Ht & Ha & Hl). destruct (WriteFraction (S n) 0 0 lo sb) as [j sb1]. cbn [fst snd] in *.
  pose proof (fraction_text_length (S n) lo) as Hlen. rewrite Ht, length_app, length_replicate in Hlen.
  rewrite Ht, trim_fraction_app; [|by destruct a|done].
  pose proof (built_room _ _ _ Hb) as Ho. rewrite fraction_text_length in Ho.
  destruct Hb as (W & U & B). unfold RollbackZeros.
  assert (Hnum : u64 (Z.of_nat (S n) - 1 - Z.of_nat j) = Z.of_nat k).
  { unfold u64. rewrite wrap_u_id; [lia|]. split; [lia|]. change (2 ^ 64) with (2 * 2 ^ 63). lia. }
  rewrite Hnum. destruct (Z.leb_spec (Z.of_nat k) (Z.of_nat (offset_ sb1))); [|lia].
  eexists. split; [reflexivity|]. rewrite Nat2Z.id. unfold built, sb_wf, UseSize, Rollback in *. cbn [buf_ offset_].
  split; [destruct W; lia|]. split; [done|]. unfold Buffer at 1. cbn [buf_ offset_].
  replace (take (offset_ sb1 - k) (buf_ sb1)) with (take (offset_ sb1 - k) (Buffer sb1))
    by (unfold Buffer; rewrite take_take; f_equal; lia).
  rewrite B, Ht, app_assoc. rewrite take_app_le by (rewrite length_app; lia). apply take_ge. rewrite length_app. lia.
Qed.

Lemma Write_text sb text room : sb_wf sb -> (offset_ sb + room <= UseSize sb)%nat -> room = length text ->
  built sb (Write sb room (fun region => (room, text ++ drop room region))) text.
Proof.
  intros Hwf Hr ->. apply Write_into; [done|lia|]. intros region Hl. exists (drop (length text) region). split; [done|].
  rewrite length_app, length_drop. lia.
Qed.

Lemma Append1_built_text sb arg room : sb_wf sb -> arg_ok arg -> arg_room arg = Some room ->
  (offset_ sb + room <= UseSize sb)%nat ->
  built sb (Append1 sb arg) (arg_text arg) /\ (offset_ (Append1 sb arg) <= offset_ sb + room)%nat.
Proof.
  intros Hwf Hok Hr Hroom. pose proof (Append1_built sb arg room Hwf Hok Hr Hroom) as Hb. split; [done|].
  rewrite (built_room _ _ _ Hb), Buffer_length by done. pose proof (arg_writer arg Hok) as Hw. rewrite Hr in Hw.
  destruct Hw as [? _]. lia.
Qed.

Lemma trim_fraction_length ds : (length (trim_fraction ds) <= length ds)%nat.
Proof.
  destruct ds as [|d ds]; [done|]. cbn. unfold strip_zeros. rewrite length_rev.
  assert (H : forall p (s : bytes), (length (drop_while p s) <= length s)%nat).
  { intros p s. induction s as [|c s IH]; [done|]. cbn. destruct (p c); cbn; lia. }
  specialize (H (fun c => c =c "0"%char) (rev ds)). rewrite length_rev in H. lia.
Qed.

(** The digits behind a point. *)
Lemma point_fraction n lo sb : sb_wf sb -> (offset_ sb + S (S n) <= UseSize sb)%nat -> Z.of_nat n < 2 ^ 63 ->
  exists sb', (let '(j, sb1) := WriteFraction (S n) 0 0 lo (BuildChar sb "."%char) in RollbackZeros (S n) j sb1) = Some sb' /\
    built sb sb' (lit "." ++ trim_fraction (fraction_text (S n) lo)) /\ (offset_ sb' <= offset_ sb + S (S n))%nat.
Proof.
  intros Hwf Hr Hn. destruct (Append1_built_text sb (AChar "."%char) 1 Hwf I eq_refl ltac:(lia)) as [Hp Ho].
  change (Append1 sb (AChar "."%char)) with (BuildChar sb "."%char) in *.
  destruct (fraction_built n lo (BuildChar sb "."%char)) as (sb' & E & Hb); [apply Hp| |done|].
  { destruct Hp as (_ & -> & _). lia. }
  destruct (WriteFraction _ _ _ _ _) as [j sb1]. exists sb'. split; [exact E|]. split; [exact (built_trans _ _ _ _ _ Hp Hb)|].
  rewrite (built_room _ _ _ Hb), (Buffer_length (BuildChar sb "."%char)) by apply Hp.
  pose proof (trim_fraction_length (fraction_text (S n) lo)). rewrite fraction_text_length in *. lia.
Qed.

(** With room for the longest text a double is appended as the reference says,
    and nothing of what is there before changes. *)
Theorem double_appends_text value n sb : sb_wf sb -> (offset_ sb + n + 52 <= UseSize sb)%nat -> Z.of_nat n < 2 ^ 63 ->
  exists sb', BuildDouble value (S n) sb = Some sb' /\ built sb sb' (double_text value (S n)).
Proof.
  intros Hwf Hr Hn. unfold BuildDouble, double_text. destruct (d_is_nan value).
  { eexists. split; [reflexivity|]. apply Write_text; [done|lia|done]. }
  destruct (d_is_inf value).
  { destruct (d_lt d_zero value); (eexists; split; [reflexivity|]; apply Write_text; [done|lia|done]). }
  set (neg := d_lt value d_zero). set (v := if neg then d_opp value else value).
  set (sb0 := if neg then BuildChar sb "-"%char else sb).
  assert (H0 : built sb sb0 (if neg then lit "-" else []) /\ (offset_ sb0 <= offset_ sb + 1)%nat).
  { unfold sb0. destruct neg; [exact (Append1_built_text sb (AChar "-"%char) 1 Hwf I eq_refl ltac:(lia))|].
    split; [|lia]. split; [done|]. split; [done|]. by rewrite app_nil_r. }
  destruct H0 as [Hb0 Ho0]. pose proof Hb0 as (W0 & U0 & _). clearbody sb0.
  destruct (fits_six_digits v).
  - destruct (d_modf v) as [lo hi].
    destruct (Append1_built_text sb0 (AUInt (d_to_u64 hi)) 24 W0 (d_to_u64_range hi) eq_refl ltac:(lia)) as [Hb1 Ho1].
    change (Append1 sb0 (AUInt (d_to_u64 hi))) with (BuildUInt sb0 (d_to_u64 hi)) in *.
    pose proof Hb1 as (W1 & U1 & _). destruct (point_fraction n lo (BuildUInt sb0 (d_to_u64 hi)) W1 ltac:(lia) Hn) as (sb' & E & Hb2 & _).
    exists sb'. split; [exact E|]. exact (built_trans _ _ _ _ _ Hb0 (built_trans _ _ _ _ _ Hb1 Hb2)).
  - set (e := d_floor (log10 v)). set (m := d_div v (pow d_ten e)). set (f := d_floor m).
    destruct (Append1_built_text sb0 (AChar (digit_char (digit_of f))) 1 W0 I eq_refl ltac:(lia)) as [Hb1 Ho1].
    change (Append1 sb0 (AChar (digit_char (digit_of f)))) with (BuildChar sb0 (digit_char (digit_of f))) in *.
    pose proof Hb1 as (W1 & U1 & _).
    destruct (point_fraction n (d_sub m f) (BuildChar sb0 (digit_char (digit_of f))) W1 ltac:(lia) Hn) as (sb2 & E & Hb2 & Ho2).
    pose proof Hb2 as (W2 & U2 & _).
    destruct (Append1_built_text sb2 (AChar "e"%char) 1 W2 I eq_refl ltac:(lia)) as [Hb3 Ho3].
    change (Append1 sb2 (AChar "e"%char)) with (BuildChar sb2 "e"%char) in *. pose proof Hb3 as (W3 & U3 & _).
    destruct (Append1_built_text (BuildChar sb2 "e"%char) (AInt (d_to_i64 e)) 24 W3 (d_to_i64_range e) eq_refl ltac:(lia)) as [Hb4 _].
    exists (BuildInt (BuildChar sb2 "e"%char) (d_to_i64 e)). split.
    + destruct (WriteFraction _ _ _ _ _) as [j sb5]. by rewrite E.
    + pose proof (built_trans _ _ _ _ _ Hb3 Hb4) as H34. pose proof (built_trans _ _ _ _ _ Hb2 H34) as H24.
      pose proof (built_trans _ _ _ _ _ Hb1 H24) as H14. pose proof (built_trans _ _ _ _ _ Hb0 H14) as Hall.
      rewrite <- !app_assoc in Hall. exact Hall.
Qed.

(** A double's text never needs more. *)
Lemma double_text_length value n : (length (double_text value (S n)) <= n + 52)%nat.
Proof.
  unfold double_text. destruct (d_is_nan value); [cbn; lia|]. destruct (d_is_inf value); [destruct (d_lt _ _); cbn; lia|].
  set (neg := d_lt value d_zero). set (v := if neg then d_opp value else value).
  assert (Hs : (length (if neg then lit "-" else []) <= 1)%nat) by (destruct neg; cbn; lia).
  pose proof (fun lo => trim_fraction_length (fraction_text (S n) lo)) as Hf.
  rewrite length_app. destruct (fits_six_digits v).
  - destruct (d_modf v) as [lo hi]. specialize (Hf lo). rewrite fraction_text_length in Hf.
    pose proof (proj1 (arg_writer (AUInt (d_to_u64 hi)) (d_to_u64_range hi))) as Hu. cbn [arg_text] in Hu.
    rewrite !length_app. change (length (lit ".")) with 1%nat. lia.
  - set (e := d_floor (log10 v)). set (m := d_div v (pow d_ten e)). specialize (Hf (d_sub m (d_floor m))).
    rewrite fraction_text_length in Hf.
    pose proof (proj1 (arg_writer (AInt (d_to_i64 e)) (d_to_i64_range e))) as Hu. cbn [arg_text] in Hu.
    rewrite !length_app. change (length (lit ".")) with 1%nat. change (length (lit "e")) with 1%nat. cbn [length]. lia.
Qed.

(** ** Without room *)

Definition kept (sb sb' : StrBuilder) : Prop := sb_wf sb' /\ UseSize sb' = UseSize sb.

Lemma Append1_kept sb arg : sb_wf sb -> arg_ok arg -> kept sb (Append1 sb arg).
Proof. intros Hwf Hok. destruct (Append1_spec sb arg Hwf Hok) as (? & ? & _). by split. Qed.

Lemma Write_kept sb text : sb_wf sb -> kept sb (Write sb (length text) (fun region => (length text, text ++ drop (length text) region))).
Proof.
  intros Hwf. destruct (Nat.le_gt_cases (offset_ sb + length text) (UseSize sb)) as [Hr|Hr].
  - destruct (Write_text sb text (length text) Hwf Hr eq_refl) as (? & ? & _). by split.
  - rewrite Write_full by (destruct Hwf; lia). by split.
Qed.

Lemma BuildChar_offset sb c : sb_wf sb -> offset_ (BuildChar sb c) = Nat.min (S (offset_ sb)) (UseSize sb).
Proof.
  intros Hwf. destruct (Nat.lt_ge_cases (offset_ sb) (UseSize sb)) as [Hr|Hr].
  - pose proof (built_room _ _ _ (BuildChar_built sb c Hwf Hr)) as E. rewrite Buffer_length in E by done. cbn in E. lia.
  - unfold BuildChar. rewrite Write_full by lia. destruct Hwf. lia.
Qed.

Lemma WriteFraction_kept n : forall i j lo sb, sb_wf sb ->
  kept sb (snd (WriteFraction n i j lo sb)) /\
  offset_ (snd (WriteFraction n i j lo sb)) = Nat.min (offset_ sb + n) (UseSize sb) /\
  ((j <= i)%nat -> (fst (WriteFraction n i j lo sb) <= i + pred n)%nat).
Proof.
  induction n as [|n IH]; intros i j lo sb Hwf; cbn [WriteFraction fst snd].
  - split; [by split|]. split; [destruct Hwf; lia|lia].
  - set (f := d_floor (d_mul lo d_ten)). set (c := digit_char (digit_of f)).
    destruct (Append1_kept sb (AChar c) Hwf I) as [W U]. change (Append1 sb (AChar c)) with (BuildChar sb c) in *.
    set (j' := if digit_of f =? 0 then j else i).
    destruct (IH (S i) j' (d_sub (d_mul lo d_ten) f) (BuildChar sb c) W) as ((W' & U') & Ho & Hj).
    split; [split; [done|congruence]|]. split.
    + rewrite Ho, U, BuildChar_offset by done. lia.
    + intros Hji. assert (j' <= i)%nat by (unfold j'; destruct (_ =? _); lia). destruct n as [|n]; [cbn; lia|].
      specialize (Hj ltac:(lia)). cbn [pred] in *. lia.
Qed.

Lemma fraction_total n lo sb : sb_wf sb -> (n <= UseSize sb)%nat -> Z.of_nat n < 2 ^ 63 ->
  exists sb', (let '(j, sb1) := WriteFraction (S n) 0 0 lo sb in RollbackZeros (S n) j sb1) = Some sb' /\ kept sb sb'.
Proof.
  intros Hwf Hn Hz. destruct (WriteFraction_kept (S n) 0 0 lo sb Hwf) as ((W & U) & Ho & Hj). specialize (Hj ltac:(lia)).
  destruct (WriteFraction _ _ _ _ _) as [j sb1]. cbn [fst snd pred] in *. unfold RollbackZeros.
  assert (E : u64 (Z.of_nat (S n) - 1 - Z.of_nat j) = Z.of_nat (n - j)).
  { unfold u64. rewrite wrap_u_id; [lia|]. split; [lia|]. change (2 ^ 64) with (2 * 2 ^ 63). lia. }
  rewrite E. destruct (Z.leb_spec (Z.of_nat (n - j)) (Z.of_nat (offset_ sb1))); [|lia].
  eexists. split; [reflexivity|]. rewrite Nat2Z.id. unfold kept, sb_wf, UseSize, Rollback in *. cbn [buf_ offset_].
  destruct W. split; [lia|done].
Qed.

(** A double never fails an assertion in a builder that can hold its digits. *)
Lemma BuildDouble_total value n sb : sb_wf sb -> (n <= UseSize sb)%nat -> Z.of_nat n < 2 ^ 63 ->
  exists sb', BuildDouble value (S n) sb = Some sb' /\ kept sb sb'.
Proof.
  intros Hwf Hn Hz. unfold BuildDouble. destruct (d_is_nan value).
  { eexists. split; [reflexivity|]. exact (Write_kept sb (lit "nan") Hwf). }
  destruct (d_is_inf value).
  { destruct (d_lt d_zero value); (eexists; split; [reflexivity|]);
      [exact (Write_kept sb (lit "inf") Hwf)|exact (Write_kept sb (lit "-inf") Hwf)]. }
  set (neg := d_lt value d_zero). set (v := if neg then d_opp value else value).
  set (sb0 := if neg then BuildChar sb "-"%char else sb).
  assert (H0 : kept sb sb0) by (unfold sb0; destruct neg; [exact (Append1_kept sb (AChar "-"%char) Hwf I)|by split]).
  destruct H0 as [W0 U0]. clearbody sb0. destruct (fits_six_digits v).
  - destruct (d_modf v) as [lo hi]. pose proof (Append1_kept sb0 (AUInt (d_to_u64 hi)) W0 (d_to_u64_range hi)) as [W1 U1].
    pose proof (Append1_kept _ (AChar "."%char) W1 I) as [W2 U2].
    destruct (fraction_total n lo _ W2 ltac:(lia) Hz) as (sb' & E & W3 & U3). exists sb'. split; [exact E|]. split; [done|]. congruence.
  - set (e := d_floor (log10 v)). set (m := d_div v (pow d_ten e)). set (f := d_floor m).
    pose proof (Append1_kept sb0 (AChar (digit_char (digit_of f))) W0 I) as [W1 U1].
    pose proof (Append1_kept _ (AChar "."%char) W1 I) as [W2 U2].
    destruct (fraction_total n (d_sub m f) _ W2 ltac:(lia) Hz) as (sb3 & E & W3 & U3).
    pose proof (Append1_kept sb3 (AChar "e"%char) W3 I) as [W4 U4].
    pose proof (Append1_kept _ (AInt (d_to_i64 e)) W4 (d_to_i64_range e)) as [W5 U5].
    eexists. split; [|split; [exact W5|]].
    + cbn [Append1] in E. destruct (WriteFraction _ _ _ _ _) as [j sb6]. rewrite E. reflexivity.
    + rewrite U5, U4, U3, U2, U1. exact U0.
Qed.
End Write.

(** The digits are cut, not rounded, although the code has tested that six of
    them are enough: 2.3 is written as 2.299999.  Where a builder has no room
    for the digits, the zeros that were not written are taken from the text
    before. *)
Lemma double_digits_are_cut log10 pow :
  double_text log10 pow (fst (fst (strtod (lit "2.3")))) 6 = lit "2.299999" /\
  double_text log10 pow (fst (fst (strtod (lit "-12.25")))) 6 = lit "-12.25".
Proof. split; vm_compute; reflexivity. Qed.

Lemma full_builder_loses_text log10 pow :
  let sb := Append (StrBuilderNew 12) [AStr (lit "hello world")] in
  Buffer sb = lit "hello world" /\
  option_map Buffer (BuildDouble log10 pow (fst (fst (strtod (lit "0.5")))) 6 sb) = Some (lit "hello ").
Proof. split; vm_compute; reflexivity. Qed.
