(* ===== verification/Stream.v ===== *)
(** [base/stream.h/.cc], [base/file_stream.cc]: input and output streams, the
    pre-buffering [StreamReader] and the [StreamWriter].

    A stream implementation is a type with one operation, [DoRead] or
    [DoWrite] (the virtual methods); [Read]/[Write] add the sticky error.  The
    classes [InStreamLaws]/[OutStreamLaws] state what the readers and writers
    rely on; sockets are one implementation the clients never look into, the
    dummy, file and chunk streams below are the others.  The user buffer is a
    list of bytes of fixed length, the available window two offsets in it. *)
From S2P Require Import Prelude Either.

(** source/base/stream.h:9-19 [StreamError] *)
Inductive StreamError := ErrNone | Closed | IOError.

#[export] Instance StreamError_eq_dec : EqDecision StreamError.
Proof. solve_decision. Defined.

(** * Interfaces *)

(** source/base/stream.h:24-45 [InStream] *)
Class InStream (S : Type) : Type :=
  DoRead : S -> nat -> Either StreamError bytes * S.

(** source/base/stream.h:47-68 [OutStream] *)
Class OutStream (S : Type) : Type :=
  DoWrite : S -> bytes -> Either StreamError unit * S.

(** A successful read delivers between one byte and the buffer size; a failed
    one reports a real error.  Nothing is said of the reads behind it. *)
Class InStreamLaws (S : Type) `{InStream S} : Prop := {
  read_some : forall s n bs s', (0 < n)%nat ->
    DoRead s n = (Right bs, s') -> bs <> [] /\ (length bs <= n)%nat;
  read_fails : forall s n e s', DoRead s n = (Left e, s') -> e <> ErrNone
}.

(** [sent s] is what the peer of the stream has received; a failed write
    reports a real error. *)
Class OutStreamLaws (S : Type) `{OutStream S} (sent : S -> bytes) : Prop := {
  write_ok : forall s bs s', DoWrite s bs = (Right tt, s') -> sent s' = sent s ++ bs;
  write_err : forall s bs e s', DoWrite s bs = (Left e, s') -> e <> ErrNone
}.

(** * StreamReader *)

(** source/base/stream.h:75-124 [StreamReader] *)
Record StreamReader (S : Type) := MkReader {
  read_buf_ : bytes;
  available_begin_ : nat;
  available_end_ : nat;
  stream_ : S;
  read_error_ : StreamError
}.
Arguments MkReader {S}.
Arguments read_buf_ {S}. Arguments available_begin_ {S}. Arguments available_end_ {S}.
Arguments stream_ {S}. Arguments read_error_ {S}.

Section Reader.
  Context {S : Type} `{InStream S}.
  Abbreviation reader := (StreamReader S).

(** source/base/stream.cc:8-11 [StreamReader::StreamReader] *)
Definition ReaderNew (buffer : bytes) (stream : S) : reader :=
  MkReader buffer 0 0 stream ErrNone.

(** Here, in [Advance] and in [ReadAvailableCharUnsafe] the code asserts that
    the offsets stay in the window; the definitions are for callers that keep
    them there. *)
(** source/base/stream.cc:13-18 [StreamReader::StreamReader] *)
Definition ReaderNewAvailable (buffer : bytes) (stream : S) (available_bytes : nat) : reader :=
  MkReader buffer 0 available_bytes stream ErrNone.

(** source/base/stream.cc:24-26 [StreamReader::IsGood] *)
Definition ReaderIsGood (r : reader) : bool := bool_decide (read_error_ r = ErrNone).

(** source/base/stream.cc:28-34 [StreamReader::Available] *)
Definition Available (r : reader) : bytes :=
  take (available_end_ r - available_begin_ r) (drop (available_begin_ r) (read_buf_ r)).

(** source/base/stream.h:29-34 [InStream::Read] *)
Definition ReadInto (r : reader) (n : nat) : Either StreamError bytes * reader :=
  match DoRead (stream_ r) n with
  | (Left e, s') =>
      (Left e, MkReader (read_buf_ r) (available_begin_ r) (available_end_ r) s' e)
  | (Right bs, s') =>
      (Right bs, MkReader (read_buf_ r) (available_begin_ r) (available_end_ r) s' (read_error_ r))
  end.

(** Bytes [bs] stored in the buffer from offset [off]. *)
Definition buf_store (buf : bytes) (off : nat) (bs : bytes) : bytes :=
  take (length buf) (take off buf ++ bs ++ drop (off + length bs) buf).

(** The buffer refilled from its beginning. *)
Definition refilled (r : reader) (bs : bytes) : reader :=
  MkReader (buf_store (read_buf_ r) 0 bs) 0 (length bs) (stream_ r) (read_error_ r).

(** source/base/stream.cc:80-89 [StreamReader::RefillAvailable] *)
Definition RefillAvailable (r : reader) : Either StreamError bytes * reader :=
  match ReadInto r (length (read_buf_ r)) with
  | (Left error, r') =>
      (Left error, MkReader (read_buf_ r') (available_end_ r') (available_end_ r')
                     (stream_ r') (read_error_ r'))
  | (Right bs, r') => (Right bs, refilled r' bs)
  end.

(** source/base/stream.cc:36-48 [StreamReader::AvailableOrRead] *)
Definition AvailableOrRead (r : reader) : Either StreamError bytes * reader :=
  if negb (available_begin_ r =? available_end_ r)%nat then (Right (Available r), r)
  else
    match ReadInto r (length (read_buf_ r)) with
    | (Left error, r') => (Left error, r')
    | (Right bs, r') => (Right bs, refilled r' bs)
    end.

(** source/base/stream.cc:50-62 [StreamReader::DrainOrRead] *)
Definition DrainOrRead (r : reader) : Either StreamError bytes * reader :=
  if negb (available_begin_ r =? available_end_ r)%nat then
    (Right (Available r),
     MkReader (read_buf_ r) (available_end_ r) (available_end_ r) (stream_ r) (read_error_ r))
  else
    match ReadInto r (length (read_buf_ r)) with
    | (Left error, r') => (Left error, r')
    | (Right bs, r') =>
        (Right bs, MkReader (buf_store (read_buf_ r') 0 bs) (available_begin_ r')
                     (available_end_ r') (stream_ r') (read_error_ r'))
    end.

(** source/base/stream.cc:64-67 [StreamReader::Advance] *)
Definition Advance (r : reader) (add_offset : nat) : reader :=
  MkReader (read_buf_ r) (available_begin_ r + add_offset) (available_end_ r)
    (stream_ r) (read_error_ r).

(** source/base/stream.cc:69-78 [StreamReader::NormalizeAvailable] *)
Definition NormalizeAvailable (r : reader) : reader :=
  if (available_begin_ r =? 0)%nat then r
  else
    let sz := (available_end_ r - available_begin_ r)%nat in
    MkReader (buf_store (read_buf_ r) 0 (Available r)) 0 sz (stream_ r) (read_error_ r).

(** source/base/stream.h:202-205 [StreamReader::ReadAvailableCharUnsafe] *)
Definition ReadAvailableCharUnsafe (r : reader) : ascii * reader :=
  (nth (available_begin_ r) (read_buf_ r) c_nul,
   MkReader (read_buf_ r) (Datatypes.S (available_begin_ r)) (available_end_ r)
     (stream_ r) (read_error_ r)).

(** The bytes of the value; [None] when the loop is still waiting for data.
    The read goes into the span [NormalizeAvailable] returns, as in the code. *)
(** source/base/stream.h:181-200 [StreamReader::ReadValue] *)
Fixpoint ReadValue (fuel : nat) (size : nat) (r : reader)
    : option (Either StreamError bytes * reader) :=
  if (available_end_ r <? available_begin_ r + size)%nat then
    match fuel with
    | O => None
    | Datatypes.S fuel' =>
        let r1 := NormalizeAvailable r in
        match ReadInto r1 (available_end_ r1 - available_begin_ r1) with
        | (Left e, r2) => Some (Left e, r2)
        | (Right bs, r2) =>
            ReadValue fuel' size
              (MkReader (buf_store (read_buf_ r2) 0 bs) 0 (available_end_ r2 + length bs)
                 (stream_ r2) (read_error_ r2))
        end
    end
  else
    Some (Right (take size (drop (available_begin_ r) (read_buf_ r))), Advance r size).
End Reader.

(** * StreamWriter *)

(** source/base/stream.h:126-160 [StreamWriter] *)
Record StreamWriter (S : Type) := MkWriter {
  write_buf_ : bytes;
  written_size_ : nat;
  out_ : S;
  write_error_ : StreamError
}.
Arguments MkWriter {S}.
Arguments write_buf_ {S}. Arguments written_size_ {S}. Arguments out_ {S}.
Arguments write_error_ {S}.

Section Writer.
  Context {S : Type} `{OutStream S}.
  Abbreviation writer := (StreamWriter S).

(** source/base/stream.cc:93-102 [StreamWriter::StreamWriter] *)
Definition WriterNew (buffer : bytes) (stream : S) (written_size : nat) : writer :=
  MkWriter buffer written_size stream ErrNone.

(** source/base/stream.cc:112-114 [StreamWriter::IsGood] *)
Definition WriterIsGood (w : writer) : bool := bool_decide (write_error_ w = ErrNone).

(** source/base/stream.h:52-57 [OutStream::Write] *)
Definition OutWrite (w : writer) (bs : bytes) : Either StreamError unit * writer :=
  match DoWrite (out_ w) bs with
  | (Left e, s') => (Left e, MkWriter (write_buf_ w) (written_size_ w) s' e)
  | (Right u, s') => (Right u, MkWriter (write_buf_ w) (written_size_ w) s' (write_error_ w))
  end.

(** source/base/stream.cc:142-146 [StreamWriter::Flush] *)
Definition Flush (w : writer) : Either StreamError unit * writer :=
  let sz := written_size_ w in
  OutWrite (MkWriter (write_buf_ w) 0 (out_ w) (write_error_ w)) (take sz (write_buf_ w)).

(** source/base/stream.cc:104-106 [StreamWriter::~StreamWriter] *)
Definition WriterDestroy (w : writer) : writer := snd (Flush w).

(** source/base/stream.cc:116-136 [StreamWriter::WriteData] *)
Fixpoint WriteData_loop (fuel : nat) (buf : bytes) (w : writer)
    : option (Either StreamError unit * writer) :=
  match buf with
  | [] => Some (Right tt, w)
  | _ =>
      match fuel with
      | O => None
      | Datatypes.S fuel' =>
          let sz := Nat.min (length buf) (length (write_buf_ w) - written_size_ w) in
          let w1 := MkWriter (buf_store (write_buf_ w) (written_size_ w) (take sz buf))
                      (written_size_ w + sz) (out_ w) (write_error_ w) in
          match drop sz buf with
          | [] => Some (Right tt, w1)
          | rest =>
              match Flush w1 with
              | (Left e, w2) => Some (Left e, w2)
              | (Right _, w2) => WriteData_loop fuel' rest w2
              end
          end
      end
  end.

(** source/base/stream.cc:116-136 [StreamWriter::WriteData] *)
Definition WriteData (buf : bytes) (w : writer) : option (Either StreamError unit * writer) :=
  WriteData_loop (2 + length buf) buf w.
End Writer.

(** * Stream implementations *)

(** source/base/stream.h:164-169 [DummyInStream] *)
Definition DummyInStream := unit.

(** source/base/stream.cc:148-151 [DummyInStream::DoRead] *)
#[export] Instance DummyInStream_DoRead : InStream DummyInStream :=
  fun s _ => (Left Closed, s).

(** source/base/stream.h:171-175 [DummyOutStream] *)
Definition DummyOutStream := unit.

(** source/base/stream.cc:153-156 [DummyOutStream::DoWrite] *)
#[export] Instance DummyOutStream_DoWrite : OutStream DummyOutStream :=
  fun s _ => (Left Closed, s).

(** An open [std::ifstream]: the bytes not read yet, whether the file then ends
    or a read error follows, and the stream's error bits. *)
Inductive IoState := GoodBit | EofBit | BadBit.

(** source/base/file_stream.h:9-23 [InFileStream] *)
Record InFileStream := MkFile { file_rest : bytes; file_bad : bool; file_state : IoState }.

(** [istream::read]: nothing on a stream with an error bit set; fewer bytes
    than asked for set [eofbit] at the end of the file and lose the bytes on an
    error. *)
Definition istream_read (s : InFileStream) (n : nat) : bytes * InFileStream :=
  match file_state s with
  | GoodBit =>
      if (length (file_rest s) <? n)%nat then
        if file_bad s then ([], MkFile [] true BadBit) else (file_rest s, MkFile [] false EofBit)
      else (take n (file_rest s), MkFile (drop n (file_rest s)) (file_bad s) GoodBit)
  | _ => ([], s)
  end.

(** source/base/file_stream.cc:16-23 [InFileStream::DoRead] *)
#[export] Instance InFileStream_DoRead : InStream InFileStream := fun s n =>
  let '(bs, s') := istream_read s n in
  match bs with
  | [] => (Left (match file_state s' with EofBit => Closed | _ => IOError end), s')
  | _ => (Right bs, s')
  end.

(** A peer that delivers its data in segments and then closes: the stream the
    concrete examples use. *)
Definition ChunkStream := list bytes.

Fixpoint chunk_read (s : ChunkStream) (n : nat) : Either StreamError bytes * ChunkStream :=
  match s with
  | [] => (Left Closed, [])
  | [] :: s' => chunk_read s' n
  | c :: s' =>
      if (length c <=? n)%nat then (Right c, s') else (Right (take n c), drop n c :: s')
  end.

#[export] Instance ChunkStream_DoRead : InStream ChunkStream := chunk_read.

(** A sink that accepts everything. *)
Definition Sink := bytes.
#[export] Instance Sink_DoWrite : OutStream Sink := fun s bs => (Right tt, s ++ bs).

(** source/main/echo_server.h:15-26 [EchoServer::exec] *)
Fixpoint EchoServer {I O : Type} `{InStream I, OutStream O} (fuel : nat) (i : I) (o : O)
    : option (I * O) :=
  match fuel with
  | O => None
  | S fuel' =>
      let '(res_read, i') := DoRead i 1024 in
      let '(running, o') :=
        match res_read with
        | Left e => (false, o)
        | Right bs => let '(res_write, o') := DoWrite o bs in (IsRight res_write, o')
        end in
      if running then EchoServer fuel' i' o' else Some (i', o')
  end.

(** * Laws of the implementations *)

#[export] Instance DummyInStream_laws : InStreamLaws DummyInStream.
Proof. split; [done|]. by intros [] n e [] [= <-]. Qed.

#[export] Instance InFileStream_laws : InStreamLaws InFileStream.
Proof.
  split.
  - intros s n bs s' Hn. unfold DoRead, InFileStream_DoRead, istream_read.
    destruct (file_state s); [|done|done]. destruct (Nat.ltb_spec (length (file_rest s)) n) as [Hl|Hl].
    + destruct (file_bad s); [done|]. destruct (file_rest s) as [|c l] eqn:E; [done|]. intros [= <- _]. split; [done|lia].
    + destruct (take n (file_rest s)) eqn:E; [done|]. intros [= <- _]. split; [done|]. rewrite <- E, length_take. lia.
  - intros s n e s'. unfold DoRead, InFileStream_DoRead. destruct (istream_read s n) as [[|c bs] s1]; [|done].
    intros [= <- _]. by destruct (file_state s1).
Qed.

#[export] Instance ChunkStream_laws : InStreamLaws ChunkStream.
Proof.
  assert (Hr : forall s n, DoRead (S:=ChunkStream) s n = chunk_read s n) by done.
  split.
  - intros s n bs s' Hn. rewrite Hr. induction s as [|[|c cs] s IH]; cbn [chunk_read]; [done|done|].
    destruct (Nat.leb_spec (length (c :: cs)) n); intros [= <- _].
    + done.
    + split; [destruct n; [lia|done]|]. rewrite length_take. lia.
  - intros s n e s'. rewrite !Hr. induction s as [|[|c cs] s IH]; cbn [chunk_read]; [by intros [= <- <-]|done|].
    by destruct (length (c :: cs) <=? n)%nat.
Qed.

#[export] Instance Sink_laws : OutStreamLaws Sink (fun s => s).
Proof. split; intros s bs; unfold DoWrite, Sink_DoWrite; [by intros s' [= <-]|done]. Qed.

(** * The bytes a stream and a reader still have to give *)

Section Feeds.
  Context {S : Type} `{InStream S}.

(** The next [k] reads fail. *)
Fixpoint fails_for (k n : nat) (s : S) : Prop :=
  match k with
  | O => True
  | Datatypes.S k' => exists e s', DoRead s n = (Left e, s') /\ fails_for k' n s'
  end.

(** All reads fail from now on, each in its way: the stream is over. *)
Definition over (n : nat) (s : S) : Prop := forall k, fails_for k n s.

Lemma over_read n s : over n s -> exists e s', DoRead s n = (Left e, s') /\ over n s'.
Proof.
  intros Ho. destruct (Ho 1%nat) as (e & s' & E & _). exists e, s'. split; [done|]. intros k.
  destruct (Ho (Datatypes.S k)) as (e2 & s2 & E2 & Hk). rewrite E in E2. by injection E2 as _ <-.
Qed.

(** A stream that keeps failing in the state its failure left. *)
Lemma over_still n s e s' : DoRead s n = (Left e, s') -> DoRead s' n = (Left e, s') -> over n s.
Proof.
  intros E E'. assert (Hs : forall k, fails_for k n s').
  { induction k as [|k IH]; [done|]. by exists e, s'. }
  intros [|k]; [done|]. exists e, s'. split; [done|apply Hs].
Qed.

(** Reading [s] in pieces of at most [n] bytes yields [t], and then no more. *)
Inductive feeds (n : nat) : S -> bytes -> Prop :=
  | feeds_end s : over n s -> feeds n s []
  | feeds_more s bs s' rest :
      DoRead s n = (Right bs, s') -> feeds n s' rest -> feeds n s (bs ++ rest).

(** Only what reading does counts. *)
Lemma over_same n s s' : DoRead s n = DoRead s' n -> over n s -> over n s'.
Proof. intros E Ho [|k]; [done|]. destruct (Ho (Datatypes.S k)) as (e & s1 & E1 & Hk). exists e, s1. by rewrite <- E. Qed.

Lemma feeds_same n s s' t : DoRead s n = DoRead s' n -> feeds n s t -> feeds n s' t.
Proof.
  intros E Hf. destruct Hf as [s Ho|s bs s1 rest E1 Hf]; [by apply feeds_end, (over_same n s)|].
  apply (feeds_more n s' bs s1); [by rewrite <- E|done].
Qed.

Definition reader_wf (r : StreamReader S) : Prop :=
    (0 < length (read_buf_ r))%nat /\
    (available_begin_ r <= available_end_ r <= length (read_buf_ r))%nat.

  (** The text the reader will deliver. *)
Definition reader_text (r : StreamReader S) (t : bytes) : Prop :=
    reader_wf r /\
    exists rest, t = Available r ++ rest /\ feeds (length (read_buf_ r)) (stream_ r) rest.

Lemma Available_length (r : StreamReader S) : reader_wf r ->
    length (Available r) = (available_end_ r - available_begin_ r)%nat.
  Proof. intros [_ ?]. unfold Available. rewrite length_take, length_drop. lia. Qed.

Lemma buf_store_length buf off bs :
    (off + length bs <= length buf)%nat -> length (buf_store buf off bs) = length buf.
  Proof.
    intros. unfold buf_store. rewrite length_take, !length_app, length_take, length_drop. lia.
  Qed.

Lemma buf_store_fits buf off bs :
    (off + length bs <= length buf)%nat ->
    buf_store buf off bs = take off buf ++ bs ++ drop (off + length bs) buf.
  Proof.
    intros. unfold buf_store. apply take_ge.
    rewrite !length_app, length_take, length_drop. lia.
  Qed.

Lemma take_buf_store buf off bs :
    (off + length bs <= length buf)%nat ->
    take (off + length bs) (buf_store buf off bs) = take off buf ++ bs.
  Proof.
    intros. rewrite buf_store_fits by done.
    assert (Hl : length (take off buf ++ bs) = (off + length bs)%nat)
      by (rewrite length_app, length_take; lia).
    rewrite app_assoc. by rewrite <- Hl, take_app_length.
  Qed.

Lemma Available_refilled (r : StreamReader S) bs :
    (length bs <= length (read_buf_ r))%nat -> Available (refilled r bs) = bs.
  Proof.
    intros. unfold Available. cbn. rewrite Nat.sub_0_r.
    by apply (take_buf_store (read_buf_ r) 0 bs).
  Qed.

Lemma refilled_wf (r : StreamReader S) bs :
    reader_wf r -> (length bs <= length (read_buf_ r))%nat -> reader_wf (refilled r bs).
  Proof.
    intros [? ?] ?. unfold reader_wf. cbn [read_buf_ available_begin_ available_end_ refilled].
    rewrite buf_store_length by (cbn; lia). lia.
  Qed.
End Feeds.

(** [chunk_read] delivers the concatenation of its segments. *)
Lemma chunk_feeds (n : nat) (s : ChunkStream) : (0 < n)%nat -> feeds n s (concat s).
Proof.
  intros Hn. remember (length (concat s) + length s)%nat as k eqn:Hk.
  revert s Hk. induction (lt_wf k) as [k _ IH]. intros s ->.
  destruct s as [|[|c cs] s].
  - by apply (feeds_end n (S:=ChunkStream)), (over_still n _ Closed []).
  - cbn [concat app]. assert (Hs : feeds n s (concat s)) by (eapply IH; [|done]; cbn; lia).
    by apply (feeds_same n s).
  - assert (Hr : DoRead (S:=ChunkStream) ((c :: cs) :: s) n =
      if (length (c :: cs) <=? n)%nat then (Right (c :: cs), s)
      else (Right (take n (c :: cs)), drop n (c :: cs) :: s)) by done.
    destruct (Nat.leb_spec (length (c :: cs)) n).
    + cbn [concat]. eapply feeds_more; [exact Hr|]. eapply IH; [|done].
      cbn. rewrite length_app. lia.
    + replace (concat ((c :: cs) :: s)) with
        (take n (c :: cs) ++ concat (drop n (c :: cs) :: s)).
      2: { cbn [concat]. by rewrite app_assoc, take_drop. }
      eapply feeds_more; [exact Hr|]. eapply IH; [|done].
      cbn [concat length]. rewrite !length_app, length_drop. cbn [length]. lia.
Qed.

(** A readable file delivers its contents. *)
Lemma file_feeds (n : nat) (t : bytes) : (0 < n)%nat -> feeds n (MkFile t false GoodBit) t.
Proof.
  intros Hn. remember (length t) as k eqn:Hk. revert t Hk. induction (lt_wf k) as [k _ IH]. intros t ->.
  assert (Hr : DoRead (MkFile t false GoodBit) n = InFileStream_DoRead (MkFile t false GoodBit) n) by done.
  unfold InFileStream_DoRead, istream_read in Hr. cbn [file_state file_rest file_bad] in Hr.
  destruct (Nat.ltb_spec (length t) n) as [Hl|Hl].
  - destruct t as [|c t]; [by eapply feeds_end, over_still|]. rewrite <- (app_nil_r (c :: t)) at 2.
    eapply feeds_more; [exact Hr|]. by eapply feeds_end, over_still.
  - destruct (take n t) as [|c t'] eqn:E.
    + apply (f_equal length) in E. rewrite length_take in E. cbn in E. lia.
    + rewrite <- E in Hr. rewrite <- (take_drop n t) at 2. eapply feeds_more; [by rewrite E in Hr |- *|].
      eapply IH; [|done]. rewrite length_drop. lia.
Qed.

(** * Writers lose, duplicate and reorder nothing *)

Section WriterLaws.
  Context {S : Type} `{OutStream S} (sent : S -> bytes) {laws : OutStreamLaws S sent}.

Definition writer_wf (w : StreamWriter S) : Prop :=
    (0 < length (write_buf_ w))%nat /\ (written_size_ w <= length (write_buf_ w))%nat.

Definition pending (w : StreamWriter S) : bytes := take (written_size_ w) (write_buf_ w).

  (** Everything accepted so far, whether it left the buffer or not. *)
Definition accepted (w : StreamWriter S) : bytes := sent (out_ w) ++ pending w.

Lemma Flush_spec w :
    writer_wf w ->
    let '(r, w') := Flush w in
    writer_wf w' /\ length (write_buf_ w') = length (write_buf_ w) /\ written_size_ w' = 0%nat /\
    match r with
    | Right _ => accepted w' = accepted w /\ write_error_ w' = write_error_ w
    | Left e => write_error_ w' = e /\ e <> ErrNone
    end.
  Proof.
    intros [? ?]. unfold Flush, OutWrite. cbn [out_ write_buf_ write_error_ written_size_].
    destruct (DoWrite (out_ w) (take (written_size_ w) (write_buf_ w))) as [[e|[]] s'] eqn:E;
      cbn [out_ write_buf_ write_error_ written_size_]; (split; [split; cbn; lia|]);
      [by split; [|split; [|split; [|apply (write_err _ _ _ _ E)]]]|].
    split; [done|]. split; [done|]. split; [|done].
    unfold accepted, pending. cbn. rewrite (write_ok _ _ _ E), app_nil_r. done.
  Qed.

Lemma WriteData_loop_spec fuel buf w :
    writer_wf w ->
    (length buf + (if decide (written_size_ w = length (write_buf_ w)) then 1 else 0) < fuel)%nat ->
    exists r w', WriteData_loop fuel buf w = Some (r, w') /\
      writer_wf w' /\ length (write_buf_ w') = length (write_buf_ w) /\
      match r with
      | Right _ => accepted w' = accepted w ++ buf /\ write_error_ w' = write_error_ w
      | Left e => write_error_ w' = e /\ e <> ErrNone
      end.
  Proof.
    revert buf w. induction fuel as [|fuel IH]; intros buf w Hwf Hfuel; [lia|].
    destruct buf as [|c buf].
    { exists (Right tt), w. cbn. by rewrite app_nil_r. }
    destruct Hwf as [Hpos Hle]. cbn [WriteData_loop].
    set (data := c :: buf) in *.
    set (sz := Nat.min (length data) (length (write_buf_ w) - written_size_ w)).
    assert (Hst : (written_size_ w + length (take sz data) <= length (write_buf_ w))%nat)
      by (rewrite length_take; lia).
    set (w1 := MkWriter _ _ _ _).
    assert (Hwf1 : writer_wf w1).
    { unfold writer_wf, w1. cbn [write_buf_ written_size_].
      rewrite buf_store_length by done. lia. }
    assert (Hlen1 : length (write_buf_ w1) = length (write_buf_ w))
      by (by apply buf_store_length).
    assert (Hacc1 : accepted w1 = accepted w ++ take sz data).
    { unfold accepted, pending, w1. cbn [write_buf_ written_size_ out_]. rewrite <- app_assoc.
      f_equal. rewrite <- (take_buf_store _ _ (take sz data)) by done. f_equal.
      rewrite length_take. lia. }
    destruct (drop sz data) as [|d rest] eqn:Hdrop.
    { exists (Right tt), w1. split; [done|]. split; [done|]. split; [done|]. split; [|done].
      rewrite Hacc1. f_equal. rewrite <- (take_drop sz data) at 2. by rewrite Hdrop, app_nil_r. }
    pose proof (Flush_spec w1 Hwf1) as HF. destruct (Flush w1) as [[e|u] w2].
    { exists (Left e), w2. destruct HF as (? & ? & ? & ?). split; [done|]. split; [done|]. by split; [congruence|]. }
    destruct HF as (Hwf2 & Hlen2 & Hws2 & Hacc2 & Herr2).
    assert (Hrest : length (d :: rest) = (length data - sz)%nat)
      by (rewrite <- Hdrop, length_drop; done).
    destruct (IH (d :: rest) w2 Hwf2) as (r & w' & E & Hwf' & Hlen' & Hr).
    { rewrite Hrest. destruct (decide (written_size_ w2 = length (write_buf_ w2))) as [Heq|_].
      - exfalso. destruct Hwf2 as [Hp2 _]. rewrite Hws2 in Heq. rewrite <- Heq in Hp2. lia.
      - assert (0 < length data)%nat by (unfold data; cbn; lia). unfold sz in *.
        destruct (decide (written_size_ w = length (write_buf_ w))); lia. }
    exists r, w'. split; [done|]. split; [done|]. split; [by rewrite Hlen', Hlen2|].
    destruct r as [e|u']; [done|]. destruct Hr as [Hacc Herr]. split; [|by rewrite Herr, Herr2].
    rewrite Hacc, Hacc2, Hacc1, <- app_assoc, <- Hdrop, take_drop. done.
  Qed.

Lemma WriteData_spec buf w :
    writer_wf w ->
    exists r w', WriteData buf w = Some (r, w') /\
      writer_wf w' /\ length (write_buf_ w') = length (write_buf_ w) /\
      match r with
      | Right _ => accepted w' = accepted w ++ buf /\ write_error_ w' = write_error_ w
      | Left e => write_error_ w' = e /\ e <> ErrNone
      end.
  Proof. intros. apply WriteData_loop_spec; [done|]. case_decide; lia. Qed.

(** Streams that take everything, and stay such streams. *)
Definition accepts (good : S -> Prop) : Prop :=
  forall s bs, good s -> IsRight (fst (DoWrite (S:=S) s bs)) = true /\ good (snd (DoWrite (S:=S) s bs)).

Lemma Flush_accepts good w :
    accepts good -> good (out_ w) ->
    IsRight (fst (Flush w)) = true /\ write_error_ (snd (Flush w)) = write_error_ w /\ good (out_ (snd (Flush w))).
  Proof.
    intros Hok Hg. unfold Flush, OutWrite. cbn [out_]. destruct (Hok (out_ w) (take (written_size_ w) (write_buf_ w)) Hg) as [Hr Hg'].
    by destruct (DoWrite _ _) as [[] ?].
  Qed.

Lemma WriteData_accepts good buf w r w' :
    accepts good -> good (out_ w) -> WriteData buf w = Some (r, w') ->
    IsRight r = true /\ write_error_ w' = write_error_ w /\ good (out_ w').
  Proof.
    intros Hok. unfold WriteData. generalize (2 + length buf)%nat. intros fuel. revert buf w.
    induction fuel as [|fuel IH]; intros [|c buf] w Hg; cbn [WriteData_loop]; [by intros [= <- <-]|done|by intros [= <- <-]|].
    destruct (drop _ _) as [|d rest]; [by intros [= <- <-]|].
    match goal with |- context [Flush ?w1] => destruct (Flush_accepts good w1 Hok Hg) as (H1 & H2 & H3); destruct (Flush w1) as [[] w2] end;
      [done|]. cbn in H2, H3. intros E. apply IH in E as (? & E & ?); [|done]. split; [done|]. split; [|done]. by rewrite E, H2.
  Qed.
End WriterLaws.

(** * Properties *)

Section WriteAll.
  Context {S : Type} `{OutStream S} (sent : S -> bytes) {laws : OutStreamLaws S sent}.

(** The results of writing some buffers one after the other. *)
Fixpoint write_seq (bufs : list bytes) (w : StreamWriter S)
    : option (list (Either StreamError unit) * StreamWriter S) :=
  match bufs with
  | [] => Some ([], w)
  | b :: bufs' =>
      match WriteData b w with
      | None => None
      | Some (r, w1) => option_map (fun rs => (r :: fst rs, snd rs)) (write_seq bufs' w1)
      end
  end.

Lemma write_seq_spec bufs w :
  writer_wf w ->
  exists rs w', write_seq bufs w = Some (rs, w') /\ writer_wf w' /\
    (Forall (fun r => IsRight r = true) rs -> accepted sent w' = accepted sent w ++ concat bufs).
Proof.
  revert w. induction bufs as [|b bufs IH]; intros w Hw; cbn [write_seq].
  { exists [], w. split; [done|]. split; [done|]. intros _. cbn. by rewrite app_nil_r. }
  destruct (WriteData_spec sent b w Hw) as (r & w1 & -> & Hw1 & _ & Hr).
  destruct (IH w1 Hw1) as (rs & w2 & -> & Hw2 & Hacc). exists (r :: rs), w2.
  split; [done|]. split; [done|]. intros Hall. inversion Hall as [|? ? Hr1 Hrs]; subst.
  destruct r as [e|u]; [done|]. destruct Hr as [Hr _]. cbn [concat]. by rewrite Hacc, Hr, app_assoc.
Qed.

(** C17. A stream writer loses, duplicates and reorders nothing: any sequence of
    writes followed by a flush terminates, and if every write and the flush
    report success, the underlying stream has received exactly what was
    pending before, followed by all the buffers in order -- whatever the size
    of the writer's own buffer. *)
Theorem writer_delivers_everything bufs w :
  writer_wf w ->
  exists rs w' r w'', write_seq bufs w = Some (rs, w') /\ Flush w' = (r, w'') /\
    (Forall (fun r => IsRight r = true) rs -> IsRight r = true ->
     sent (out_ w'') = sent (out_ w) ++ pending w ++ concat bufs).
Proof.
  intros Hw. destruct (write_seq_spec bufs w Hw) as (rs & w' & E & Hw' & Hacc).
  pose proof (Flush_spec sent w' Hw') as HF. destruct (Flush w') as [r w''] eqn:EF. exists rs, w', r, w''.
  split; [done|]. split; [done|]. intros Hrs Hr. destruct HF as (_ & _ & Hz & HF).
  destruct r as [e|u]; [done|]. destruct HF as [HF _]. specialize (Hacc Hrs).
  unfold accepted in *. unfold pending in HF at 1. rewrite Hz in HF. cbn in HF. rewrite app_nil_r in HF.
  by rewrite HF, Hacc, app_assoc.
Qed.
End WriteAll.

Lemma writer_delivers_everything_witness :
  exists rs w' r w'',
    write_seq [lit "hello"; []; lit "world!"] (WriterNew (lit "ab") (lit "> " : Sink) 1) = Some (rs, w') /\
    Flush w' = (r, w'') /\ IsRight r = true /\ out_ w'' = lit "> ahelloworld!".
Proof.
  destruct (writer_delivers_everything (S := Sink) (fun s => s) [lit "hello"; []; lit "world!"]
    (WriterNew (lit "ab") (lit "> " : Sink) 1)) as (rs & w' & r & w'' & E & F & Hs).
  - split; vm_compute; lia.
  - exists rs, w', r, w''. split; [exact E|]. split; [exact F|].
    assert (Hrs : rs = [Right tt; Right tt; Right tt]).
    { assert (G : option_map fst (Some (rs, w')) = Some [Right tt; Right tt; Right tt]).
      { rewrite <- E. vm_compute. reflexivity. } by injection G. }
    assert (Hr : IsRight r = true).
    { unfold Flush, OutWrite in F. destruct (DoWrite _ _) as [[]] eqn:G in F; [discriminate G|]. by injection F as <- _. }
    split; [exact Hr|]. refine (eq_trans (Hs _ Hr) _); [rewrite Hrs; by repeat constructor|reflexivity].
Defined.

(** The echo server sends back exactly what it receives: connected to an
    input that gives a text and then ends or fails for good, and an output that accepts
    everything, it terminates with the whole text, in order, sent. *)
Theorem echo_server_echoes {I O} `{InStream I} `{OutStream O} (sent : O -> bytes) {laws : OutStreamLaws O sent}
    (i : I) (o : O) (text : bytes) :
  feeds 1024 i text -> (forall s bs, IsRight (fst (DoWrite (S:=O) s bs)) = true) ->
  exists fuel i' o', EchoServer fuel i o = Some (i', o') /\ sent o' = sent o ++ text.
Proof.
  intros Hf Hok. revert o. induction Hf as [s Ho|s bs s' rest E _ IH]; intros o.
  - destruct (over_read 1024 s Ho) as (e & s' & E & _). exists 1%nat, s', o. cbn. by rewrite E, app_nil_r.
  - destruct (DoWrite o bs) as [rw o1] eqn:Ew. pose proof (Hok o bs) as Hr. rewrite Ew in Hr.
    destruct rw as [|[]]; [done|]. destruct (IH o1) as (fuel & i' & o' & Er & Hs).
    exists (Datatypes.S fuel), i', o'. cbn. rewrite E, Ew. cbn. split; [done|].
    by rewrite Hs, (write_ok _ _ _ Ew), app_assoc.
Qed.

Lemma echo_server_echoes_witness :
  exists fuel i' o', EchoServer fuel ([lit "one"; lit "two"] : ChunkStream) ([] : Sink) = Some (i', o') /\
    o' = lit "onetwo".
Proof.
  apply (echo_server_echoes (fun s : Sink => s) ([lit "one"; lit "two"] : ChunkStream) ([] : Sink) (lit "onetwo")).
  - apply (chunk_feeds 1024). lia.
  - intros s bs. reflexivity.
Defined.

(** [ReadValue] cannot fetch data: it reads into the span of the bytes that
    are already available instead of the free part of the buffer.  On a reader
    of an open file with nothing available it asks the file for zero bytes and
    reports an I/O error, however much of the file is left. *)
Lemma read_value_misses_file_data (fuel size : nat) (r : StreamReader InFileStream) :
  (0 < size)%nat -> available_begin_ r = available_end_ r -> file_state (stream_ r) = GoodBit ->
  exists r', ReadValue (Datatypes.S fuel) size r = Some (Left IOError, r') /\ file_rest (stream_ r') = file_rest (stream_ r).
Proof.
  intros Hs Hav Hb. cbn [ReadValue]. rewrite Hav.
  destruct (Nat.ltb_spec (available_end_ r) (available_end_ r + size)) as [_|]; [|lia].
  assert (Hn : let r1 := NormalizeAvailable r in
    (available_end_ r1 - available_begin_ r1 = 0)%nat /\ stream_ r1 = stream_ r).
  { unfold NormalizeAvailable. destruct (Nat.eqb_spec (available_begin_ r) 0); cbn; (split; [lia|done]). }
  destruct Hn as [-> Hst]. unfold ReadInto. rewrite Hst. unfold DoRead, InFileStream_DoRead, istream_read.
  rewrite Hb. eexists. split; [reflexivity|]. done.
Qed.

Lemma read_value_misses_file_data_witness :
  exists r', ReadValue 1 1 (ReaderNew (lit "0123") (MkFile (lit "data") false GoodBit)) = Some (Left IOError, r') /\
    file_rest (stream_ r') = lit "data".
Proof.
  apply (read_value_misses_file_data 0 1 (ReaderNew (lit "0123") (MkFile (lit "data") false GoodBit)));
    [lia|reflexivity|reflexivity].
Defined.
