(* ===== verification/Lexer.v ===== *)
(** [slang/lexer.h], [slang/lexer.cc]: the lexer of prefix S-expressions.

    The main loop is written once over a [TermSource]: where characters come
    from and how the text of the pending term is kept.  [StreamCursor] is the
    code's: the buffered reader, [term_begin_] pointing into its buffer and
    [term_buf_] for a term cut by a refill.  [TextCursor] is the reference: the
    whole remaining text and the characters of the pending term.  [LexerSim]
    proves that the two run alike. *)
From S2P Require Import Prelude Either StrBuild CLib Stream.
Local Open Scope Z_scope.

(** * Term checks and conversions *)

(** source/slang/lexer.cc:12-18 [IsOpChar] *)
Definition IsOpChar (ch : ascii) : bool :=
  (32 <? schar ch)
  && negb (is_digit ch)
  && negb ((ch =c "(") || (ch =c ")") || (ch =c "{") || (ch =c "}") || (ch =c "[") || (ch =c "]"))
  && negb ((ch =c c_quote) || (ch =c "'"))
  && negb ((ch =c ":") || (ch =c ";")).

(** source/slang/lexer.cc:26-43 [LexerCheckOpName] *)
Definition LexerCheckOpName (term : bytes) : bool :=
  match term with
  | [] => true
  | c :: cs => IsOpChar c && forallb (fun ch => IsOpChar ch || is_digit ch) cs
  end.

(** source/slang/lexer.cc:45-62 [LexerParseInt64] *)
Definition LexerParseInt64 (term : bytes) : option Z :=
  let '(value, found_end, erange) := strtoll (take 63 term) in
  if (found_end =? length term)%nat && negb erange then Some value else None.

(** source/slang/lexer.cc:64-81 [LexerParseDouble] *)
Definition LexerParseDouble (term : bytes) : option double :=
  let '(value, found_end, erange) := strtod (take 127 term) in
  if (found_end =? length term)%nat && negb erange then Some value else None.

(** source/slang/lexer.cc:93-106 [LexerParseString] *)
Fixpoint LexerUnescape (escaped : bool) (str : bytes) : bytes :=
  match str with
  | [] => []
  | ch :: str' =>
      if (ch =c c_backslash) && negb escaped then LexerUnescape true str'
      else ch :: LexerUnescape false str'
  end.

(** source/slang/lexer.cc:83-109 [LexerParseString] *)
Definition LexerParseString (str : bytes) (was_escaped : bool) : bytes :=
  if was_escaped then LexerUnescape false str else str.

(** * Lexer data *)

(** source/slang/lexer.h:18-25 [LexerFailure] *)
Record LexerFailure := MkFailure {
  err_line_no_ : nat;
  err_line_offset_ : nat;
  err_msg_ : bytes
}.

(** source/slang/lexer.h:32-36 [TermType] *)
Inductive TermType := kOp | kValue | kStr.

#[export] Instance TermType_eq_dec : EqDecision TermType.
Proof. solve_decision. Defined.

(** Where characters come from and how the pending term is kept. *)
Class TermSource (C : Type) := {
  SourceRead : C -> option ascii * C;
  HasTerm : C -> bool;
  StartTermHere : C -> C;
  StartTermPrev : C -> C;
  Term : C -> bytes * C;
  DropTerm : C -> C
}.

(** The handler of the lexer's events: every callback may refuse with a
    message.  The custom-data callback also gets the source. *)
(** source/slang/lexer.h:146-180 [Lexer] *)
Class LexerHandler (H : Type) := {
  LexerBeginOp : bytes -> H -> Either bytes unit * H;
  LexerEndOp : H -> Either bytes unit * H;
  LexerStrValue : bytes -> H -> Either bytes unit * H;
  LexerIntValue : Z -> H -> Either bytes unit * H;
  LexerDoubleValue : double -> H -> Either bytes unit * H;
  LexerUnhandledValue : bytes -> H -> Either bytes unit * H
}.

Class LexerPayload (H C : Type) :=
  LexerCustomData : Z -> H -> C -> Either bytes unit * H * C.

(** The lexer object (its handler and message buffer) together with the state
    of one run. *)
(** source/slang/lexer.h:40-64 [LexerState] *)
Record LexerState (H C : Type) := MkLexer {
  handler_ : H;
  err_description_ : StrBuilder;
  source_ : C;
  cur_line_ : nat;
  cur_line_offset_ : nat;
  op_depth_ : Z;
  is_escaped_ : bool;
  was_escaped_ : bool;
  term_type_ : TermType
}.
Arguments MkLexer {H C}. Arguments handler_ {H C}. Arguments err_description_ {H C}.
Arguments source_ {H C}. Arguments cur_line_ {H C}. Arguments cur_line_offset_ {H C}.
Arguments op_depth_ {H C}. Arguments is_escaped_ {H C}. Arguments was_escaped_ {H C}.
Arguments term_type_ {H C}.

Section Loop.
  Context {H C : Type} `{LexerHandler H, LexerPayload H C, TermSource C}.
  Abbreviation state := (LexerState H C).
  Implicit Types st : state.

Definition with_handler (h : H) st : state :=
  MkLexer h (err_description_ st) (source_ st) (cur_line_ st) (cur_line_offset_ st)
    (op_depth_ st) (is_escaped_ st) (was_escaped_ st) (term_type_ st).
Definition with_err (sb : StrBuilder) st : state :=
  MkLexer (handler_ st) sb (source_ st) (cur_line_ st) (cur_line_offset_ st)
    (op_depth_ st) (is_escaped_ st) (was_escaped_ st) (term_type_ st).
Definition with_source (c : C) st : state :=
  MkLexer (handler_ st) (err_description_ st) c (cur_line_ st) (cur_line_offset_ st)
    (op_depth_ st) (is_escaped_ st) (was_escaped_ st) (term_type_ st).
Definition with_line (line offset : nat) st : state :=
  MkLexer (handler_ st) (err_description_ st) (source_ st) line offset
    (op_depth_ st) (is_escaped_ st) (was_escaped_ st) (term_type_ st).
Definition with_depth (d : Z) st : state :=
  MkLexer (handler_ st) (err_description_ st) (source_ st) (cur_line_ st) (cur_line_offset_ st)
    d (is_escaped_ st) (was_escaped_ st) (term_type_ st).
Definition with_escaped (esc was : bool) st : state :=
  MkLexer (handler_ st) (err_description_ st) (source_ st) (cur_line_ st) (cur_line_offset_ st)
    (op_depth_ st) esc was (term_type_ st).
Definition with_type (t : TermType) st : state :=
  MkLexer (handler_ st) (err_description_ st) (source_ st) (cur_line_ st) (cur_line_offset_ st)
    (op_depth_ st) (is_escaped_ st) (was_escaped_ st) t.

(** source/slang/lexer.h:66-73 [LexerState::NextChar] *)
Definition NextChar st : ascii * state :=
  match SourceRead (source_ st) with
  | (None, c) => (c_nul, with_source c st)
  | (Some ch, c) =>
      (ch, with_line (cur_line_ st) (S (cur_line_offset_ st)) (with_source c st))
  end.

(** source/slang/lexer.h:90-90 [LexerState::NewLine] *)
Definition NewLine st : state := with_line (S (cur_line_ st)) 0 st.

(** source/slang/lexer.h:91-91 [LexerState::Escape] *)
Definition Escape st : state := with_escaped true true st.

(** source/slang/lexer.h:92-92 [LexerState::ResetEscape] *)
Definition ResetEscape st : state := with_escaped false (was_escaped_ st) st.

(** source/slang/lexer.h:95-95 [LexerState::StartTerm] *)
Definition StartTerm (type : TermType) st : state :=
  with_type type (with_source (StartTermHere (source_ st)) st).

(** source/slang/lexer.h:96-100 [LexerState::FinishTerm] *)
Definition FinishTerm st : state :=
  with_type kValue (with_source (DropTerm (source_ st)) st).

(** source/slang/lexer.h:124-126 [LexerState::Fail] *)
Definition Fail st (err_msg : bytes) : LexerFailure :=
  MkFailure (cur_line_ st) (cur_line_offset_ st) err_msg.

Definition LexerResult := Either LexerFailure unit.

(** The handler's verdict, its message turned into a failure here. *)
Definition handled st (r : Either bytes unit * H) : LexerResult * state :=
  (MapLeft (fst r) (Fail st), with_handler (snd r) st).

(** A failure described in the lexer's own buffer. *)
Definition describe st (prefix term : bytes) : LexerResult * state :=
  let eb := Append (err_description_ st) [AStr prefix; AStr term] in
  (Left (Fail st (Buffer eb)), with_err eb st).

(** source/slang/lexer.h:372-389 [Lexer::FinalizeTerm] *)
Definition FinalizeOp (term : bytes) st : LexerResult * state :=
  match term with
  | [] => (Right tt, st)
  | _ =>
      if negb (LexerCheckOpName term) then describe st (lit "Invalid op name: ") term
      else handled st (LexerBeginOp term (handler_ st))
  end.

(** source/slang/lexer.h:391-419 [Lexer::FinalizeTerm] *)
Definition FinalizeValue (term : bytes) st : LexerResult * state :=
  match term with
  | [] => (Right tt, st)
  | _ =>
      match LexerParseInt64 term with
      | Some lval => handled st (LexerIntValue lval (handler_ st))
      | None =>
          match LexerParseDouble term with
          | Some dval => handled st (LexerDoubleValue dval (handler_ st))
          | None =>
              match LexerUnhandledValue term (handler_ st) with
              | (Left [], h) => describe (with_handler h st) (lit "Invalid value type: ") term
              | r => handled st r
              end
          end
      end
  end.

(** source/slang/lexer.h:421-431 [Lexer::FinalizeTerm] *)
Definition FinalizeStr (term : bytes) st : LexerResult * state :=
  let '(result, st1) :=
    handled st (LexerStrValue (LexerParseString term (was_escaped_ st)) (handler_ st)) in
  (result, with_escaped (is_escaped_ st1) false st1).

(** source/slang/lexer.h:358-438 [Lexer::FinalizeTerm] *)
Definition FinalizeTerm st : LexerResult * state :=
  if negb (HasTerm (source_ st)) then (Right tt, st)
  else if op_depth_ st <=? 0 then (Left (Fail st (lit "Expected opening bracket")), st)
  else
    let '(term, c) := Term (source_ st) in
    let st1 := with_source c st in
    let '(result, st2) :=
      match term_type_ st1 with
      | kOp => FinalizeOp term st1
      | kValue => FinalizeValue term st1
      | kStr => FinalizeStr term st1
      end in
    (result, FinishTerm st2).

(** What one turn of the main loop leads to. *)
Inductive Turn :=
| Continue (st : state)
| Return (r : LexerResult) (st : state).

(** The loop's condition, [result.IsRight()]. *)
Definition next_turn (r : LexerResult * state) : Turn :=
  match r with
  | (Right _, st) => Continue st
  | (Left f, st) => Return (Left f) st
  end.

(** source/slang/lexer.h:238-243 [Lexer::Run] *)
Definition HandleOpen st : Turn :=
  let '(result, st1) := FinalizeTerm st in
  next_turn (result, StartTerm kOp (with_depth (op_depth_ st1 + 1) st1)).

(** source/slang/lexer.h:245-265 [Lexer::Run] *)
Definition HandleClose (single_expr : bool) st : Turn :=
  let '(result, st1) :=
    match FinalizeTerm st with
    | (Left failure, st1) => (Left failure, st1)
    | (Right _, st1) => handled st1 (LexerEndOp (handler_ st1))
    end in
  let st2 := with_depth (op_depth_ st1 - 1) st1 in
  if op_depth_ st2 <? 0 then
    Return (Left (Fail st2 (lit "Redundant closing parenthesis"))) st2
  else if single_expr && IsRight result && (op_depth_ st2 =? 0) then Return (Right tt) st2
  else next_turn (result, st2).

(** source/slang/lexer.h:267-281 [Lexer::Run] *)
Definition HandleQuote st : Turn :=
  if bool_decide (term_type_ st = kStr) then next_turn (FinalizeTerm st)
  else
    match FinalizeTerm st with
    | (Left failure, st1) => Return (Left failure) st1
    | (Right _, st1) => Continue (StartTerm kStr st1)
    end.

(** source/slang/lexer.h:284-294 [Lexer::Run] *)
Fixpoint ReadToken (n : nat) (data_token : Z) st : ascii * Z * state :=
  let '(last_char, st1) := NextChar st in
  match n with
  | O => (last_char, data_token, st1)
  | S n' =>
      if (last_char =c c_nul) || (last_char =c "[") then (last_char, data_token, st1)
      else ReadToken n' (Z.lor (Z.shiftl data_token 8 mod 2 ^ 32) (uchar last_char)) st1
  end.

(** source/slang/lexer.h:283-309 [Lexer::Run] *)
Definition HandlePayload st : Turn :=
  let '(last_char, data_token, st1) := ReadToken 4 0 st in
  let '(result, st2) :=
    if last_char =c "[" then
      let '(r, h, c) := LexerCustomData data_token (handler_ st1) (source_ st1) in
      let '(result, st2) := handled (with_source c st1) (r, h) in
      let '(ch, st3) := NextChar st2 in
      if negb (ch =c "]") then (Left (Fail st3 (lit "No closing ] for custom data")), st3)
      else (result, st3)
    else (Left (Fail st1 (lit "Invalid openning tag for custom data")), st1) in
  next_turn (result, FinishTerm st2).

(** source/slang/lexer.h:311-322 [Lexer::Run] *)
Fixpoint SkipComment (fuel : nat) st : option state :=
  match fuel with
  | O => None
  | S fuel' =>
      let '(ch, st1) := NextChar st in
      if (ch =c c_nul) || (ch =c c_lf) then Some st1 else SkipComment fuel' st1
  end.

(** source/slang/lexer.h:218-337 [Lexer::Run] *)
Definition LexerTurn (fuel : nat) (single_expr : bool) (cur_char : ascii) st : option Turn :=
  let cur_escaped := is_escaped_ st in
  let st := ResetEscape st in
  if bool_decide (term_type_ st = kStr) && (negb (cur_char =c c_quote) || cur_escaped) then
    let st1 := if (cur_char =c c_backslash) && negb cur_escaped then Escape st else st in
    Some (Continue (if cur_char =c c_lf then NewLine st1 else st1))
  else if cur_char =c "(" then Some (HandleOpen st)
  else if cur_char =c ")" then Some (HandleClose single_expr st)
  else if cur_char =c c_quote then Some (HandleQuote st)
  else if cur_char =c "!" then Some (HandlePayload st)
  else if cur_char =c ";" then
    match SkipComment fuel st with
    | Some st1 => Some (Continue (NewLine st1))
    | None => None
    end
  else if cur_char =c c_lf then Some (next_turn (FinalizeTerm (NewLine st)))
  else if (cur_char =c c_space) || (cur_char =c c_tab) || (cur_char =c c_cr) then
    Some (next_turn (FinalizeTerm st))
  else
    Some (Continue
      (if negb (HasTerm (source_ st)) then
         with_type kValue (with_source (StartTermPrev (source_ st)) st)
       else st)).

(** source/slang/lexer.h:340-354 [Lexer::Run] *)
Definition LexerFinish st : LexerResult :=
  if 0 <? op_depth_ st then Left (Fail st (lit "Missing closing parenthesis"))
  else if bool_decide (term_type_ st = kStr) then
    Left (Fail st (lit "Invalid string literal - not closed"))
  else Right tt.

(** source/slang/lexer.h:212-216 [Lexer::Run] *)
Fixpoint LexerLoop (fuel : nat) (single_expr : bool) st : option (LexerResult * state) :=
  match fuel with
  | O => None
  | S fuel' =>
      let '(cur_char, st1) := NextChar st in
      if cur_char =c c_nul then Some (LexerFinish st1, st1)
      else
        match LexerTurn fuel' single_expr cur_char st1 with
        | None => None
        | Some (Return r st2) => Some (r, st2)
        | Some (Continue st2) => LexerLoop fuel' single_expr st2
        end
  end.

(** source/slang/lexer.h:205-209 [Lexer::Run] *)
Definition LexerRun (fuel : nat) (single_expr : bool) (h : H) (c : C)
    : option (LexerResult * state) :=
  LexerLoop fuel single_expr (MkLexer h (StrBuilderNew 64) c 1 0 0 false false kValue).
End Loop.

Arguments LexerResult : clear implicits.

(** * The code's source: reader, term pointer, term buffer *)

Record StreamCursor (S : Type) := MkCursor {
  cur_reader : StreamReader S;
  term_begin_ : option nat;
  term_buf_ : bytes
}.
Arguments MkCursor {S}. Arguments cur_reader {S}. Arguments term_begin_ {S}.
Arguments term_buf_ {S}.

Section StreamSource.
  Context {S : Type} `{InStream S}.
  Implicit Types c : StreamCursor S.

(** Bytes of the reader's buffer between two positions. *)
Definition span (r : StreamReader S) (b e : nat) : bytes := take (e - b) (drop b (read_buf_ r)).

(** source/slang/lexer.h:106-111 [LexerState::SaveTerm] *)
Definition SaveTerm (term_end : nat) c : StreamCursor S :=
  match term_begin_ c with
  | Some b => MkCursor (cur_reader c) None (term_buf_ c ++ span (cur_reader c) b term_end)
  | None => c
  end.

(** source/slang/lexer.h:75-88 [LexerState::RefillBuffer] *)
Definition RefillBuffer c : bool * StreamCursor S :=
  let hasTerm := bool_decide (is_Some (term_begin_ c)) in
  let c1 := SaveTerm (available_end_ (cur_reader c)) c in
  match RefillAvailable (cur_reader c1) with
  | (Left _, r) => (false, MkCursor r (term_begin_ c1) (term_buf_ c1))
  | (Right _, r) =>
      (true, MkCursor r (if hasTerm then Some (available_begin_ r) else term_begin_ c1) (term_buf_ c1))
  end.

(** source/slang/lexer.h:66-73 [LexerState::NextChar] *)
Definition CursorRead c : option ascii * StreamCursor S :=
  let '(ok, c1) :=
    match Available (cur_reader c) with
    | [] => RefillBuffer c
    | _ => (true, c)
    end in
  if ok then
    let '(ch, r) := ReadAvailableCharUnsafe (cur_reader c1) in
    (Some ch, MkCursor r (term_begin_ c1) (term_buf_ c1))
  else (None, c1).

(** source/slang/lexer.h:113-122 [LexerState::Term] *)
Definition CursorTerm c : bytes * StreamCursor S :=
  let term_end := pred (available_begin_ (cur_reader c)) in
  match term_buf_ c with
  | _ :: _ => let c1 := SaveTerm term_end c in (term_buf_ c1, c1)
  | [] =>
      match term_begin_ c with
      | Some b => (span (cur_reader c) b term_end, c)
      | None => ([], c)
      end
  end.

(** source/slang/lexer.h:95-104 [LexerState] *)
#[export] Instance StreamCursor_source : TermSource (StreamCursor S) := {
  SourceRead := CursorRead;
  HasTerm c := bool_decide (is_Some (term_begin_ c));
  StartTermHere c := MkCursor (cur_reader c) (Some (available_begin_ (cur_reader c))) (term_buf_ c);
  StartTermPrev c := MkCursor (cur_reader c) (Some (pred (available_begin_ (cur_reader c)))) (term_buf_ c);
  Term := CursorTerm;
  DropTerm c := MkCursor (cur_reader c) None []
}.

(** source/slang/lexer.h:205-209 [Lexer::Run] *)
Definition RunStream {H} `{LexerHandler H, LexerPayload H (StreamCursor S)} (fuel : nat)
    (h : H) (r : StreamReader S) (single_expr : bool) :
    option (LexerResult * LexerState H (StreamCursor S)) :=
  LexerRun fuel single_expr h (MkCursor r None []).
End StreamSource.

(** source/slang/lexer.h:195-202 [Lexer::Run] *)
Definition RunText {H} `{LexerHandler H, LexerPayload H (StreamCursor DummyInStream)} (fuel : nat)
    (h : H) (text : bytes) : option (LexerResult * LexerState H (StreamCursor DummyInStream)) :=
  RunStream fuel h (ReaderNewAvailable text (tt : DummyInStream) (length text)) false.

(** * The reference source: the remaining text, the pending term, and whether
    the end of the text was met *)

Record TextCursor := MkTextEof {
  tc_rest : bytes;
  tc_last : ascii;
  tc_term : option bytes;
  tc_eof : bool
}.
Abbreviation MkText rest last term := (MkTextEof rest last term false).

Definition text_read (c : TextCursor) : option ascii * TextCursor :=
  match tc_rest c with
  | [] => (None, MkTextEof [] (tc_last c) None true)
  | ch :: rest => (Some ch, MkTextEof rest ch (option_map (fun t => t ++ [ch]) (tc_term c)) (tc_eof c))
  end.

#[export] Instance TextCursor_source : TermSource TextCursor := {
  SourceRead := text_read;
  HasTerm c := bool_decide (is_Some (tc_term c));
  StartTermHere c := MkTextEof (tc_rest c) (tc_last c) (Some []) (tc_eof c);
  StartTermPrev c := MkTextEof (tc_rest c) (tc_last c) (Some [tc_last c]) (tc_eof c);
  Term c := (default [] (option_map (removelast (A:=ascii)) (tc_term c)), c);
  DropTerm c := MkTextEof (tc_rest c) (tc_last c) None (tc_eof c)
}.

Definition text_start (t : bytes) : TextCursor := MkText t c_nul None.
