(* ===== verification/LexerSim.v ===== *)
(** The lexer over a buffered stream runs like the lexer over the whole text,
    however the stream cuts the text into pieces and wherever a term crosses
    the end of the buffer; and it always stops.

    [cur_rel] relates the code's cursor (reader, [term_begin_], [term_buf_])
    to the reference one; [fresh] adds what holds right after a character was
    read, [rdrel] is what is left when a payload handler has used the reader. *)
From S2P Require Import Prelude Either StrBuild CLib Stream Lexer.

(** * Reading spans of the buffer *)

Section Spans.
  Context {S : Type} `{InStream S}.
  Implicit Types r : StreamReader S.

Lemma span_nil r b : span r b b = [].
  Proof. unfold span. by rewrite Nat.sub_diag. Qed.

Lemma span_snoc r b e :
    (b <= e)%nat -> (e < length (read_buf_ r))%nat ->
    span r b (Datatypes.S e) = span r b e ++ [nth e (read_buf_ r) c_nul].
  Proof.
    intros Hb He. unfold span. rewrite Nat.sub_succ_l by lia.
    rewrite (take_S_r _ _ (nth e (read_buf_ r) c_nul)); [done|].
    rewrite lookup_drop. replace (b + (e - b))%nat with e by lia.
    destruct (lookup_lt_is_Some_2 _ _ He) as [x Hx]. by rewrite nth_lookup, Hx.
  Qed.

Lemma Available_cons r c cs :
    reader_wf r -> Available r = c :: cs ->
    (available_begin_ r < available_end_ r)%nat /\
    nth (available_begin_ r) (read_buf_ r) c_nul = c /\
    Available (snd (ReadAvailableCharUnsafe r)) = cs.
  Proof.
    intros [? Hw] E. assert (Hl := Available_length r ltac:(done)). rewrite E in Hl. cbn in Hl.
    split; [lia|]. unfold Available in *. cbn.
    destruct (drop (available_begin_ r) (read_buf_ r)) as [|d ds] eqn:Ed.
    { by rewrite take_nil in E. }
    replace (available_end_ r - available_begin_ r)%nat
      with (Datatypes.S (available_end_ r - Datatypes.S (available_begin_ r))) in E by lia.
    cbn in E. injection E as -> <-. split.
    - rewrite <- (Nat.add_0_r (available_begin_ r)), nth_lookup, <- lookup_drop, Ed. done.
    - replace (Datatypes.S (available_begin_ r)) with (available_begin_ r + 1)%nat by lia.
      by rewrite <- drop_drop, Ed.
  Qed.
End Spans.

(** * The relation *)

Section Sim.
  Context {S : Type} `{InStreamLaws S} (e0 : StreamError).

Definition term_rel (c : StreamCursor S) (t : TextCursor) : Prop :=
    match tc_term t, term_begin_ c with
    | None, None => term_buf_ c = []
    | Some u, Some b =>
        (b <= available_begin_ (cur_reader c))%nat /\
        u = term_buf_ c ++ span (cur_reader c) b (available_begin_ (cur_reader c))
    | _, _ => False
    end.

Definition no_term (c : StreamCursor S) (t : TextCursor) : Prop :=
    tc_rest t = [] /\ tc_term t = None /\ term_begin_ c = None.

(** The reader fails exactly when the text's end has been met; before, its
    error is the one it started with. *)
Definition err_rel (r : StreamReader S) (t : TextCursor) : Prop :=
    if tc_eof t then read_error_ r <> ErrNone else read_error_ r = e0.

Definition rdrel (c : StreamCursor S) (t : TextCursor) : Prop :=
    reader_text (cur_reader c) (tc_rest t) /\ err_rel (cur_reader c) t.

Definition cur_rel (c : StreamCursor S) (t : TextCursor) : Prop :=
    rdrel c t /\ (term_rel c t \/ no_term c t).

Definition fresh (c : StreamCursor S) (t : TextCursor) : Prop :=
    rdrel c t /\ term_rel c t /\ (0 < available_begin_ (cur_reader c))%nat /\
    nth (pred (available_begin_ (cur_reader c))) (read_buf_ (cur_reader c)) c_nul = tc_last t /\
    (forall b, term_begin_ c = Some b -> b < available_begin_ (cur_reader c))%nat.

Lemma fresh_rel c t : fresh c t -> cur_rel c t.
  Proof. intros (? & ? & _). by split; [|left]. Qed.

  (** Reading from a non-empty window. *)
Lemma read_window c t ch rest :
    Available (cur_reader c) = ch :: rest -> rdrel c t ->
    exists rest', tc_rest t = ch :: rest' /\
      rdrel (MkCursor (snd (ReadAvailableCharUnsafe (cur_reader c))) (term_begin_ c) (term_buf_ c))
        (snd (text_read t)).
  Proof.
    intros E ((Hwf & rest0 & Ht & Hf) & Herr).
    destruct (Available_cons _ _ _ Hwf E) as (Hlt & _ & Hav).
    rewrite E in Ht. exists (rest ++ rest0). split; [done|].
    unfold rdrel, text_read. rewrite Ht. cbn [snd tc_rest cur_reader]. split; [split|exact Herr].
    - destruct Hwf as [? ?]. unfold reader_wf. cbn. lia.
    - exists rest0. by rewrite Hav.
  Qed.

Lemma read_window_term c t ch rest :
    Available (cur_reader c) = ch :: rest -> reader_wf (cur_reader c) -> term_rel c t ->
    tc_rest t <> [] -> hd c_nul (tc_rest t) = ch ->
    let c' := MkCursor (snd (ReadAvailableCharUnsafe (cur_reader c))) (term_begin_ c) (term_buf_ c) in
    term_rel c' (snd (text_read t)) /\
    (forall b, term_begin_ c' = Some b -> b < available_begin_ (cur_reader c'))%nat.
  Proof.
    intros E Hwf Ht Hne Hhd. destruct (Available_cons _ _ _ Hwf E) as (Hlt & Hnth & _).
    unfold term_rel, text_read in *. destruct (tc_rest t) as [|d ds]; [done|]. cbn in Hhd. subst d.
    unfold ReadAvailableCharUnsafe.
    cbn [snd cur_reader term_begin_ term_buf_ available_begin_ tc_term option_map].
    destruct (tc_term t) as [u|], (term_begin_ c) as [b|]; try done. cbn [option_map].
    destruct Ht as [Hb ->]. split; [split; [lia|]|intros ? [= <-]; lia].
    destruct Hwf as [? ?].
    replace (span (MkReader _ _ _ _ _) b (Datatypes.S (available_begin_ (cur_reader c))))
      with (span (cur_reader c) b (Datatypes.S (available_begin_ (cur_reader c)))) by done.
    rewrite span_snoc, Hnth, app_assoc by lia. done.
  Qed.

  (** Refilling an empty window. *)
Lemma refill_none c t :
    Available (cur_reader c) = [] -> rdrel c t -> tc_rest t = [] ->
    exists c', RefillBuffer c = (false, c') /\ term_begin_ c' = None /\ rdrel c' (snd (text_read t)).
  Proof.
    intros E ((Hwf & rest0 & Ht & Hf) & Herr) Hr. rewrite Hr, E in Ht. cbn in Ht. subst rest0.
    assert (Hd : exists e s', DoRead (stream_ (cur_reader c)) (length (read_buf_ (cur_reader c))) = (Left e, s') /\
      over (length (read_buf_ (cur_reader c))) s').
    { inversion Hf as [s Ho|s bs s' rest Hd _]; subst; [by apply over_read|].
      destruct Hwf as [Hpos _]. destruct (read_some _ _ _ _ Hpos Hd) as [Hbs _].
      by destruct bs. }
    destruct Hd as (e & s' & Hd & Hover).
    unfold RefillBuffer, RefillAvailable, ReadInto.
    assert (Hsave : cur_reader (SaveTerm (available_end_ (cur_reader c)) c) = cur_reader c /\
      term_begin_ (SaveTerm (available_end_ (cur_reader c)) c) = None).
    { unfold SaveTerm. by destruct (term_begin_ c) eqn:?. }
    destruct Hsave as [-> Htb]. rewrite Hd. cbn.
    eexists; split; [done|]. split; [done|].
    pose proof (read_fails _ _ _ _ Hd) as Hne.
    unfold rdrel, reader_text, text_read. cbn [cur_reader]. rewrite Hr. split; [split|exact Hne].
    - destruct Hwf as [? ?]. unfold reader_wf. cbn. lia.
    - exists []. unfold Available. cbn. rewrite Nat.sub_diag. cbn. split; [done|].
      by constructor.
  Qed.

Lemma refill_some c t :
    Available (cur_reader c) = [] -> rdrel c t -> tc_rest t <> [] ->
    exists c', RefillBuffer c = (true, c') /\ Available (cur_reader c') <> [] /\ rdrel c' t /\
      (term_rel c t -> term_rel c' t).
  Proof.
    intros E ((Hwf & rest0 & Ht & Hf) & Herr) Hr. rewrite E in Ht. cbn in Ht. subst rest0.
    inversion Hf as [s Ho|s bs s' rest Hd Hf' Hs Hrest]; subst; [congruence|].
    destruct Hwf as [Hpos Hw]. destruct (read_some _ _ _ _ Hpos Hd) as [Hbs Hlen].
    unfold RefillBuffer, RefillAvailable, ReadInto.
    set (c1 := SaveTerm (available_end_ (cur_reader c)) c).
    assert (Hrd : cur_reader c1 = cur_reader c) by (unfold c1, SaveTerm; by destruct (term_begin_ c)).
    assert (Htb : term_begin_ c1 = None) by (unfold c1, SaveTerm; by destruct (term_begin_ c) eqn:?).
    rewrite Hrd, Hd. eexists; split; [done|].
    set (r0 := MkReader _ _ _ _ _). cbn [cur_reader].
    rewrite (Available_refilled r0) by done. split; [done|]. split.
    - unfold rdrel, reader_text. cbn [cur_reader]. rewrite <- Hrest. split; [split|exact Herr].
      + by apply refilled_wf.
      + exists rest. rewrite (Available_refilled r0) by done. split; [done|].
        cbn [read_buf_ stream_ refilled]. by rewrite buf_store_length by (cbn; lia).
    - unfold term_rel. cbn [term_begin_ cur_reader term_buf_]. rewrite Htb.
      destruct (tc_term t) as [u|], (term_begin_ c) as [b|] eqn:Eb; try done.
      + intros [Hb ->].
        assert (Hsome : bool_decide (is_Some (Some b)) = true) by by apply bool_decide_eq_true.
        rewrite Hsome. split; [done|]. rewrite span_nil, app_nil_r.
        unfold c1, SaveTerm. rewrite Eb. cbn [term_buf_]. f_equal.
        assert (Hl := Available_length (cur_reader c) (conj Hpos Hw)). rewrite E in Hl. cbn in Hl.
        f_equal. lia.
      + cbn. unfold c1, SaveTerm. by rewrite Eb.
  Qed.

  (** Reading a character: the two sources agree. *)
Lemma read_sim c t :
    rdrel c t ->
    let '(o1, c1) := CursorRead c in
    let '(o2, t1) := text_read t in
    o1 = o2 /\ rdrel c1 t1 /\
    (cur_rel c t ->
     match o1 with Some ch => fresh c1 t1 | None => no_term c1 t1 end).
  Proof.
    intros Hrd. unfold CursorRead.
    destruct (decide (tc_rest t = [])) as [Hnil|Hne].
    { destruct (Available (cur_reader c)) as [|ch rest] eqn:E.
      - destruct (refill_none c t E Hrd Hnil) as (c' & -> & Hb & Hrd').
        unfold text_read in *. rewrite Hnil in *. by split_and!.
      - destruct (read_window c t ch rest E Hrd) as (? & Ht & _). congruence. }
    assert (Hpick : exists c', (let '(ok, c1) := match Available (cur_reader c) with
        | [] => RefillBuffer c | _ => (true, c) end in (ok, c1)) = (true, c') /\
        Available (cur_reader c') <> [] /\ rdrel c' t /\ (term_rel c t -> term_rel c' t)).
    { destruct (Available (cur_reader c)) as [|ch rest] eqn:E.
      - destruct (refill_some c t E Hrd Hne) as (c' & -> & ?). by exists c'.
      - exists c. by rewrite E. }
    destruct Hpick as (c' & Hp & Hav & Hrd' & Htr).
    destruct (match Available (cur_reader c) with [] => RefillBuffer c | _ => (true, c) end) as [ok c1].
    injection Hp as -> ->.
    destruct (Available (cur_reader c')) as [|ch rest] eqn:E; [done|].
    destruct (read_window c' t ch rest E Hrd') as (rest' & Ht & Hrd'').
    destruct (Available_cons _ _ _ (proj1 (proj1 Hrd')) E) as (Hlt & Hnth & _).
    cbn [ReadAvailableCharUnsafe]. unfold text_read in *. rewrite Ht in *. cbn [snd] in *.
    unfold ReadAvailableCharUnsafe. rewrite Hnth. split; [done|]. split; [done|].
    intros [_ [Hterm|(? & _)]]; [|congruence].
    pose proof (read_window_term c' t ch rest E (proj1 (proj1 Hrd')) (Htr Hterm)
      ltac:(by rewrite Ht) ltac:(by rewrite Ht)) as [Ht1 Hb1].
    unfold text_read in Ht1. rewrite Ht in Ht1. cbn [snd] in Ht1.
    split; [exact Hrd''|]. split; [exact Ht1|]. split; [cbn; lia|]. by split.
  Qed.
(** * Lexer states *)

  Context {T : Type} `{LexerHandler T}.
  Context `{LexerPayload T (StreamCursor S), LexerPayload T TextCursor}.
  Abbreviation state1 := (LexerState T (StreamCursor S)).
  Abbreviation state2 := (LexerState T TextCursor).

  (** A payload handler sees the same data through both sources. *)
Definition payload_sim : Prop := forall token h c t,
    rdrel c t ->
    let '(r1, h1, c1) := LexerCustomData token h c in
    let '(r2, h2, t1) := LexerCustomData token h t in
    r1 = r2 /\ h1 = h2 /\ rdrel c1 t1.
  Hypothesis Hpayload : payload_sim.

Inductive st_rel (R : StreamCursor S -> TextCursor -> Prop) : state1 -> state2 -> Prop :=
  | st_rel_intro h e c t l o d i w ty :
      R c t -> st_rel R (MkLexer h e c l o d i w ty) (MkLexer h e t l o d i w ty).
  Hint Constructors st_rel : core.

Lemma st_rel_impl (R R' : StreamCursor S -> TextCursor -> Prop) s1 s2 :
    (forall c t, R c t -> R' c t) -> st_rel R s1 s2 -> st_rel R' s1 s2.
  Proof. intros Hi Hr. inversion Hr; subst. auto. Qed.

Lemma st_fresh s1 s2 : st_rel fresh s1 s2 -> st_rel cur_rel s1 s2.
  Proof. apply st_rel_impl, fresh_rel. Qed.
Lemma st_cur s1 s2 : st_rel cur_rel s1 s2 -> st_rel rdrel s1 s2.
  Proof. apply st_rel_impl. by intros c t []. Qed.

  (** Results that carry a state. *)
Definition res_rel {A} (R : StreamCursor S -> TextCursor -> Prop)
      (x1 : A * state1) (x2 : A * state2) : Prop :=
    fst x1 = fst x2 /\ st_rel R (snd x1) (snd x2).

Lemma NextChar_sim s1 s2 :
    st_rel cur_rel s1 s2 ->
    fst (NextChar s1) = fst (NextChar s2) /\
    if fst (NextChar s1) =c c_nul then st_rel cur_rel (snd (NextChar s1)) (snd (NextChar s2))
    else st_rel fresh (snd (NextChar s1)) (snd (NextChar s2)).
  Proof.
    intros Hr. inversion Hr as [h e c t l o d i w ty Hc]; subst.
    pose proof (read_sim c t (proj1 Hc)) as Hs. unfold NextChar. cbn [source_ SourceRead StreamCursor_source TextCursor_source].
    destruct (CursorRead c) as [o1 c1], (text_read t) as [o2 t1].
    destruct Hs as (<- & Hrd & Hs). specialize (Hs Hc).
    destruct o1 as [ch|]; cbn [fst snd].
    - split; [done|]. assert (Hf : forall l' o', st_rel fresh
        (MkLexer h e c1 l' o' d i w ty) (MkLexer h e t1 l' o' d i w ty)) by (by constructor).
      case_goal; [apply st_fresh|]; apply Hf.
    - split; [done|]. cbn. constructor. split; [done|]. by right.
  Qed.

Lemma NextChar_rd s1 s2 : st_rel rdrel s1 s2 -> res_rel rdrel (NextChar s1) (NextChar s2).
  Proof.
    intros Hr. inversion Hr as [h e c t l o d i w ty Hc]; subst.
    pose proof (read_sim c t Hc) as Hs. unfold NextChar. cbn [source_ SourceRead StreamCursor_source TextCursor_source].
    destruct (CursorRead c) as [o1 c1], (text_read t) as [o2 t1].
    destruct Hs as (<- & Hrd & _). destruct o1; (split; [done|by constructor]).
  Qed.

Lemma HasTerm_sim c t : fresh c t -> HasTerm c = HasTerm t.
  Proof.
    intros (_ & Ht & _). unfold term_rel in Ht. cbn.
    destruct (tc_term t), (term_begin_ c); try done; by apply bool_decide_ext.
  Qed.

Lemma Term_sim c t : fresh c t -> HasTerm c = true ->
    fst (Term c) = fst (Term t) /\ cur_reader (snd (Term c)) = cur_reader c /\ snd (Term t) = t.
  Proof.
    intros (Hrd & Ht & Hpos & Hlast & Hb) Hhas. unfold term_rel in Ht.
    cbn in Hhas. apply bool_decide_eq_true in Hhas as [b Eb].
    cbn [Term StreamCursor_source TextCursor_source]. rewrite Eb in Ht.
    destruct (tc_term t) as [u|]; [|done]. destruct Ht as [Hle ->].
    specialize (Hb b Eb). cbn [option_map default fst snd].
    destruct c as [r tb buf]. cbn [cur_reader term_begin_ term_buf_] in *. subst tb.
    assert (Hsnoc : span r b (available_begin_ r) =
      span r b (pred (available_begin_ r)) ++ [nth (pred (available_begin_ r)) (read_buf_ r) c_nul]).
    { destruct (available_begin_ r) as [|k] eqn:Ek; [lia|]. apply span_snoc; [cbn; lia|].
      destruct Hrd as [[[? ?] _] _]. cbn in *. lia. }
    rewrite Hsnoc, app_assoc, removelast_last. unfold CursorTerm.
    cbn [cur_reader term_begin_ term_buf_]. destruct buf as [|x buf]; [done|].
    unfold SaveTerm. by cbn [cur_reader term_begin_ term_buf_].
  Qed.

Definition op_rel {A} (R : StreamCursor S -> TextCursor -> Prop)
      (f1 : state1 -> A * state1) (f2 : state2 -> A * state2) : Prop :=
    forall s1 s2, st_rel R s1 s2 -> res_rel R (f1 s1) (f2 s2).

Lemma handled_sim R r : op_rel R (fun s => handled s r) (fun s => handled s r).
  Proof. intros s1 s2 Hr. inversion Hr; subst. split; [done|]. by constructor. Qed.

Lemma describe_sim R p u : op_rel R (fun s => describe s p u) (fun s => describe s p u).
  Proof. intros s1 s2 Hr. inversion Hr; subst. split; [done|]. by constructor. Qed.

Lemma FinalizeOp_sim R u : op_rel R (FinalizeOp u) (FinalizeOp u).
  Proof.
    intros s1 s2 Hr. unfold FinalizeOp. destruct u as [|x u]; [by split|].
    inversion Hr; subst. cbn [handler_]. case_goal; [by apply describe_sim|by apply handled_sim].
  Qed.

Lemma FinalizeValue_sim R u : op_rel R (FinalizeValue u) (FinalizeValue u).
  Proof.
    intros s1 s2 Hr. unfold FinalizeValue. destruct u as [|x u]; [by split|].
    inversion Hr; subst. cbn [handler_].
    repeat case_goal; try by apply handled_sim. apply describe_sim. by constructor.
  Qed.

Lemma FinalizeStr_sim R u : op_rel R (FinalizeStr u) (FinalizeStr u).
  Proof.
    intros s1 s2 Hr. inversion Hr; subst. unfold FinalizeStr, handled. cbn.
    split; [done|]. by constructor.
  Qed.

Lemma drop_fresh c1 c t :
    fresh c t -> cur_reader c1 = cur_reader c -> fresh (DropTerm c1) (DropTerm t).
  Proof.
    intros (Hrd & _ & Hpos & Hl & _) E. unfold fresh, rdrel, term_rel.
    cbn [DropTerm StreamCursor_source TextCursor_source cur_reader tc_rest tc_last tc_term term_begin_ term_buf_].
    by rewrite E.
  Qed.

Lemma FinalizeTerm_sim s1 s2 :
    st_rel fresh s1 s2 -> res_rel fresh (FinalizeTerm s1) (FinalizeTerm s2).
  Proof.
    intros Hr. inversion Hr as [h e c t l o d i w ty Hc]; subst. unfold FinalizeTerm. cbn [source_ op_depth_].
    rewrite <- (HasTerm_sim c t Hc).
    destruct (HasTerm c) eqn:Hh; cbn [negb]; [|by split].
    destruct (d <=? 0)%Z; [by split|].
    destruct (Term_sim c t Hc Hh) as (Hterm & Hrd & Ht).
    destruct (Term c) as [u c1], (Term t) as [u' t1]. cbn [fst snd] in *. subst u' t1.
    set (R := fun c' t' => cur_reader c' = cur_reader c /\ t' = t).
    assert (Hst : st_rel R (MkLexer h e c1 l o d i w ty) (MkLexer h e t l o d i w ty)) by by constructor.
    cbn [with_source term_type_ handler_ err_description_ source_ cur_line_ cur_line_offset_ op_depth_ is_escaped_ was_escaped_].
    assert (Hm : res_rel R
      (match ty with kOp => FinalizeOp u (MkLexer h e c1 l o d i w ty)
                   | kValue => FinalizeValue u (MkLexer h e c1 l o d i w ty)
                   | kStr => FinalizeStr u (MkLexer h e c1 l o d i w ty) end)
      (match ty with kOp => FinalizeOp u (MkLexer h e t l o d i w ty)
                   | kValue => FinalizeValue u (MkLexer h e t l o d i w ty)
                   | kStr => FinalizeStr u (MkLexer h e t l o d i w ty) end)).
    { destruct ty; [by apply FinalizeOp_sim|by apply FinalizeValue_sim|by apply FinalizeStr_sim]. }
    destruct (match ty with kOp => FinalizeOp _ _ | _ => _ end) as [x1 y1].
    destruct (match ty with kOp => FinalizeOp _ _ | _ => _ end) as [x2 y2].
    destruct Hm as [Hx Hy]. cbn [fst snd] in *. split; [done|]. cbn [snd].
    inversion Hy as [h' e' c' t' l' o' d' i' w' ty' [Hc' ->]]; subst.
    unfold FinishTerm. cbn. constructor. by apply (drop_fresh c' c t).
  Qed.

Definition turn_rel (x1 : Turn (H:=T) (C:=StreamCursor S)) (x2 : Turn (H:=T) (C:=TextCursor)) : Prop :=
    match x1, x2 with
    | Continue s1, Continue s2 => st_rel cur_rel s1 s2
    | Return r1 s1, Return r2 s2 => r1 = r2 /\ st_rel rdrel s1 s2
    | _, _ => False
    end.

Lemma next_turn_sim x1 x2 : res_rel cur_rel x1 x2 -> turn_rel (next_turn x1) (next_turn x2).
  Proof.
    destruct x1 as [r1 s1], x2 as [r2 s2]. intros [Hr Hs]. cbn in Hr, Hs. subst r2.
    destruct r1; cbn; [split; [done|by apply st_cur]|done].
  Qed.

Lemma res_fresh {A} (x1 : A * state1) (x2 : A * state2) :
    res_rel fresh x1 x2 -> res_rel cur_rel x1 x2.
  Proof. intros [? ?]. split; [done|by apply st_fresh]. Qed.

Lemma start_rel c t :
    fresh c t -> tc_term t = None ->
    cur_rel (StartTermHere c) (StartTermHere t) /\ cur_rel (StartTermPrev c) (StartTermPrev t).
  Proof.
    intros (Hrd & Ht & Hpos & Hl & Hb) Hn. unfold term_rel in Ht. rewrite Hn in Ht.
    destruct c as [r [b|] buf]; [done|]. cbn in *. subst buf.
    assert (Hwf := proj1 (proj1 Hrd)). destruct Hwf as [? ?]. cbn [cur_reader] in *.
    split; (split; [done|left]); unfold term_rel; cbn [tc_term term_begin_ term_buf_ cur_reader].
    - split; [done|]. by rewrite span_nil.
    - split; [lia|]. destruct (available_begin_ r) as [|k] eqn:Ek; [lia|]. cbn [pred] in *.
      rewrite span_snoc, span_nil, Hl by lia. done.
  Qed.

Lemma StartTerm_sim ty s1 s2 :
    st_rel fresh s1 s2 -> tc_term (source_ s2) = None ->
    st_rel cur_rel (StartTerm ty s1) (StartTerm ty s2).
  Proof.
    intros Hr Hn. inversion Hr; subst. constructor. by apply start_rel.
  Qed.

Lemma FinalizeTerm_none (s s' : state2) u :
    FinalizeTerm s = (Right u, s') -> tc_term (source_ s') = None.
  Proof.
    unfold FinalizeTerm. destruct (HasTerm (source_ s)) eqn:Hh; cbn [negb].
    - destruct (_ <=? 0)%Z; [done|]. destruct (Term (source_ s)) as [x c].
      match goal with |- context [match term_type_ ?a with _ => _ end] =>
        destruct (match term_type_ a with kOp => FinalizeOp x a | _ => _ end) as [r s2] end.
      by intros [= _ <-].
    - intros [= _ <-]. cbn in Hh. apply bool_decide_eq_false in Hh. by apply eq_None_not_Some.
  Qed.

Lemma depth_rel R k s1 s2 :
    st_rel R s1 s2 -> st_rel R (with_depth (op_depth_ s1 + k) s1) (with_depth (op_depth_ s2 + k) s2).
  Proof. intros Hr. inversion Hr; subst. by constructor. Qed.

Lemma StartTerm_rd ty s1 s2 :
    st_rel rdrel s1 s2 -> st_rel rdrel (StartTerm ty s1) (StartTerm ty s2).
  Proof. intros Hr. inversion Hr; subst. by constructor. Qed.

Lemma HandleOpen_sim s1 s2 : st_rel fresh s1 s2 -> turn_rel (HandleOpen s1) (HandleOpen s2).
  Proof.
    intros Hr. unfold HandleOpen. pose proof (FinalizeTerm_sim _ _ Hr) as [Hx Hy].
    pose proof (FinalizeTerm_none s2) as Hn.
    destruct (FinalizeTerm s1) as [r1 s1'], (FinalizeTerm s2) as [r2 s2']. cbn [fst snd] in *.
    subst r2. destruct r1 as [f|[]]; cbn [next_turn].
    - split; [done|]. apply StartTerm_rd, st_cur, st_fresh, depth_rel, Hy.
    - apply StartTerm_sim; [by apply depth_rel|]. exact (Hn s2' tt eq_refl).
  Qed.

Lemma HandleClose_sim b s1 s2 :
    st_rel fresh s1 s2 -> turn_rel (HandleClose b s1) (HandleClose b s2).
  Proof.
    intros Hr. unfold HandleClose. pose proof (FinalizeTerm_sim _ _ Hr) as [Hx Hy].
    destruct (FinalizeTerm s1) as [r1 s1'], (FinalizeTerm s2) as [r2 s2']. cbn [fst snd] in *.
    subst r2.
    set (x1 := match r1 with Left failure => (Left failure, s1') | Right _ => _ end).
    set (x2 := match r1 with Left failure => (Left failure, s2') | Right _ => _ end).
    assert (Hx : res_rel fresh x1 x2).
    { unfold x1, x2. destruct r1; [by split|]. inversion Hy; subst. by apply handled_sim. }
    clearbody x1 x2. destruct x1 as [r s1''], x2 as [r' s2'']. destruct Hx as [Hr1 Hs]. cbn [fst snd] in *. subst r'.
    inversion Hs as [h e c t l o d i w ty Hc]; subst s1'' s2''. cbn [op_depth_ with_depth].
    assert (Hs' : st_rel fresh (with_depth (d - 1) (MkLexer h e c l o d i w ty))
      (with_depth (d - 1) (MkLexer h e t l o d i w ty))) by by constructor.
    destruct (d - 1 <? 0)%Z; [split; [done|by apply st_cur, st_fresh]|].
    destruct (_ && _ && _); [split; [done|by apply st_cur, st_fresh]|].
    apply next_turn_sim. split; [done|by apply st_fresh].
  Qed.

Lemma HandleQuote_sim s1 s2 : st_rel fresh s1 s2 -> turn_rel (HandleQuote s1) (HandleQuote s2).
  Proof.
    intros Hr. unfold HandleQuote. pose proof (FinalizeTerm_sim _ _ Hr) as HF.
    pose proof (FinalizeTerm_none s2) as Hn.
    assert (term_type_ s1 = term_type_ s2) as -> by by inversion Hr.
    destruct (bool_decide _); [by apply next_turn_sim, res_fresh|].
    destruct (FinalizeTerm s1) as [r1 s1'], (FinalizeTerm s2) as [r2 s2'].
    destruct HF as [Hx Hy]. cbn [fst snd] in *. subst r2. destruct r1 as [f|[]].
    - split; [done|]. by apply st_cur, st_fresh.
    - apply StartTerm_sim; [done|]. exact (Hn s2' tt eq_refl).
  Qed.

Lemma ReadToken_sim n tok s1 s2 :
    st_rel rdrel s1 s2 -> res_rel rdrel (ReadToken n tok s1) (ReadToken n tok s2).
  Proof.
    revert tok s1 s2. induction n as [|n IH]; intros tok s1 s2 Hr; cbn [ReadToken];
      pose proof (NextChar_rd _ _ Hr) as HN;
      destruct (NextChar s1) as [c1 s1'], (NextChar s2) as [c2 s2'];
      destruct HN as [Hx Hy]; cbn [fst snd] in *; subst c2.
    - by split.
    - destruct (_ || _); [by split|]. by apply IH.
  Qed.

Lemma FinishTerm_rd s1 s2 : st_rel rdrel s1 s2 -> st_rel cur_rel (FinishTerm s1) (FinishTerm s2).
  Proof. intros Hr. inversion Hr; subst. cbn. constructor. split; [done|]. by left. Qed.

Lemma HandlePayload_sim s1 s2 : st_rel rdrel s1 s2 -> turn_rel (HandlePayload s1) (HandlePayload s2).
  Proof.
    intros Hr. unfold HandlePayload. pose proof (ReadToken_sim 4 0 _ _ Hr) as HT.
    destruct (ReadToken 4 0 s1) as [[ch1 tok1] s1'], (ReadToken 4 0 s2) as [[ch2 tok2] s2'].
    destruct HT as [Hx Hy]. cbn [fst snd] in *. injection Hx as <- <-.
    enough (HX : res_rel rdrel
      (if ch1 =c "[" then
         let '(r, h, c) := LexerCustomData tok1 (handler_ s1') (source_ s1') in
         let '(result, s3) := handled (with_source c s1') (r, h) in
         let '(ch, s4) := NextChar s3 in
         if negb (ch =c "]") then (Left (Fail s4 (lit "No closing ] for custom data")), s4) else (result, s4)
       else (Left (Fail s1' (lit "Invalid openning tag for custom data")), s1'))
      (if ch1 =c "[" then
         let '(r, h, c) := LexerCustomData tok1 (handler_ s2') (source_ s2') in
         let '(result, s3) := handled (with_source c s2') (r, h) in
         let '(ch, s4) := NextChar s3 in
         if negb (ch =c "]") then (Left (Fail s4 (lit "No closing ] for custom data")), s4) else (result, s4)
       else (Left (Fail s2' (lit "Invalid openning tag for custom data")), s2'))).
    { destruct (if ch1 =c "[" then _ else _) as [r1 x1]. destruct (if ch1 =c "[" then _ else _) as [r2 x2].
      destruct HX as [Hr' Hs]. cbn [fst snd] in *. subst r2. apply next_turn_sim. split; [done|].
      by apply FinishTerm_rd. }
    destruct (ch1 =c "["); [|split; [by inversion Hy|done]].
    inversion Hy as [h e c t l o d i w ty Hc]; subst. cbn [handler_ source_].
    pose proof (Hpayload tok1 h c t Hc) as Hp.
    destruct (LexerCustomData tok1 h c) as [[r h'] c'], (LexerCustomData tok1 h t) as [[r' h''] t'].
    destruct Hp as (<- & <- & Hc').
    assert (Hr1 : res_rel rdrel (handled (with_source c' (MkLexer h e c l o d i w ty)) (r, h'))
      (handled (with_source t' (MkLexer h e t l o d i w ty)) (r, h')))
      by (apply handled_sim; by constructor).
    destruct (handled _ _) as [r1 z1], (handled _ _) as [r2 z2]. destruct Hr1 as [Hr1 Hz].
    cbn [fst snd] in *. subst r2. pose proof (NextChar_rd _ _ Hz) as [Hx' Hy'].
    destruct (NextChar z1) as [x1 y1], (NextChar z2) as [x2 y2]. cbn [fst snd] in *. subst x2.
    destruct (negb (x1 =c "]")); (split; [|done]); [by inversion Hy'|done].
  Qed.

Lemma SkipComment_sim fuel s1 s2 : st_rel cur_rel s1 s2 ->
    match SkipComment fuel s1, SkipComment fuel s2 with
    | Some s1', Some s2' => st_rel cur_rel s1' s2'
    | None, None => True
    | _, _ => False
    end.
  Proof.
    revert s1 s2. induction fuel as [|fuel IH]; intros s1 s2 Hr; cbn [SkipComment]; [done|].
    pose proof (NextChar_sim _ _ Hr) as HN.
    destruct (NextChar s1) as [c1 s1'], (NextChar s2) as [c2 s2']. cbn [fst snd] in HN.
    destruct HN as [<- HN]. assert (Hc : st_rel cur_rel s1' s2').
    { destruct (c1 =c c_nul); [done|by apply st_fresh]. }
    destruct (_ || _); [done|]. by apply IH.
  Qed.

Lemma with_fresh (f1 : state1 -> state1) (f2 : state2 -> state2) s1 s2 :
    (forall h e c t l o d i w ty, fresh c t ->
      st_rel fresh (f1 (MkLexer h e c l o d i w ty)) (f2 (MkLexer h e t l o d i w ty))) ->
    st_rel fresh s1 s2 -> st_rel fresh (f1 s1) (f2 s2).
  Proof. intros Hf Hr. inversion Hr; subst. auto. Qed.

Lemma LexerTurn_sim fuel b ch s1 s2 : st_rel fresh s1 s2 ->
    match LexerTurn fuel b ch s1, LexerTurn fuel b ch s2 with
    | Some x1, Some x2 => turn_rel x1 x2
    | None, None => True
    | _, _ => False
    end.
  Proof.
    intros Hr. unfold LexerTurn.
    assert (HR : st_rel fresh (ResetEscape s1) (ResetEscape s2))
      by (revert Hr; apply with_fresh; by constructor).
    assert (Hty : term_type_ (ResetEscape s1) = term_type_ (ResetEscape s2)) by by inversion HR.
    assert (Hesc : is_escaped_ s1 = is_escaped_ s2) by by inversion Hr.
    rewrite Hty, Hesc. set (u1 := ResetEscape s1) in *. set (u2 := ResetEscape s2) in *.
    clearbody u1 u2. destruct (_ && (_ || _)).
    { cbn [turn_rel]. apply st_fresh.
      assert (HE : st_rel fresh (Escape u1) (Escape u2))
        by (revert HR; apply with_fresh; by constructor).
      destruct (_ && _), (_ =c _); try done; (eapply with_fresh; [|done]); by constructor. }
    destruct (ch =c "("); [by apply HandleOpen_sim|].
    destruct (ch =c ")"); [by apply HandleClose_sim|].
    destruct (ch =c c_quote); [by apply HandleQuote_sim|].
    destruct (ch =c "!"); [by apply HandlePayload_sim, st_cur, st_fresh|].
    destruct (ch =c ";").
    { pose proof (SkipComment_sim fuel _ _ (st_fresh _ _ HR)) as Hs.
      destruct (SkipComment fuel u1), (SkipComment fuel u2); try done.
      inversion Hs; subst. by constructor. }
    destruct (ch =c c_lf).
    { apply next_turn_sim, res_fresh, FinalizeTerm_sim. revert HR. apply with_fresh. by constructor. }
    destruct (_ || _); [by apply next_turn_sim, res_fresh, FinalizeTerm_sim|].
    cbn [turn_rel]. inversion HR as [h e c t l o d i w ty Hc]; subst. cbn [source_].
    rewrite (HasTerm_sim c t Hc). destruct (HasTerm t) eqn:Hh; cbn [negb]; [by apply st_fresh|].
    constructor. apply start_rel; [done|]. cbn in Hh.
    apply bool_decide_eq_false in Hh. by apply eq_None_not_Some.
  Qed.

Lemma LexerFinish_sim R s1 s2 : st_rel R s1 s2 -> LexerFinish s1 = LexerFinish s2.
  Proof. intros Hr. by inversion Hr. Qed.

Lemma LexerLoop_sim fuel b s1 s2 : st_rel cur_rel s1 s2 ->
    match LexerLoop fuel b s1, LexerLoop fuel b s2 with
    | Some x1, Some x2 => res_rel rdrel x1 x2
    | None, None => True
    | _, _ => False
    end.
  Proof.
    revert s1 s2. induction fuel as [|fuel IH]; intros s1 s2 Hr; cbn [LexerLoop]; [done|].
    pose proof (NextChar_sim _ _ Hr) as HN.
    destruct (NextChar s1) as [c1 s1'], (NextChar s2) as [c2 s2']. cbn [fst snd] in HN.
    destruct HN as [<- HN]. destruct (c1 =c c_nul).
    { split; [|by apply st_cur]. cbn. by apply (LexerFinish_sim cur_rel). }
    pose proof (LexerTurn_sim fuel b c1 _ _ HN) as HT.
    destruct (LexerTurn fuel b c1 s1') as [[x1|r1 x1]|], (LexerTurn fuel b c1 s2') as [[x2|r2 x2]|];
      try done. by apply IH.
  Qed.
End Sim.

(** * Termination *)

Section Terminates.
  Context {T : Type} `{LexerHandler T, LexerPayload T TextCursor}.
  Abbreviation state := (LexerState T TextCursor).

  (** A payload handler does not give characters back. *)
Definition payload_shrinks : Prop := forall token (h : T) t,
    (length (tc_rest (snd (LexerCustomData token h t))) <= length (tc_rest t))%nat.
  Hypothesis Hshrinks : payload_shrinks.

  (** Characters left to read. *)
Definition left_in (s : state) : nat := length (tc_rest (source_ s)).

Lemma NextChar_left (s : state) ch s' : NextChar s = (ch, s') ->
    (left_in s' <= left_in s)%nat /\ (ch <> c_nul -> left_in s' < left_in s)%nat.
  Proof.
    unfold NextChar, left_in. cbn [SourceRead TextCursor_source]. unfold text_read.
    destruct (tc_rest (source_ s)) as [|c rest] eqn:E; intros [= <- <-]; cbn; [|lia].
    split; [lia|done].
  Qed.

Lemma finalize_left (s : state) term r s' :
    (FinalizeOp term s = (r, s') \/ FinalizeValue term s = (r, s') \/ FinalizeStr term s = (r, s')) ->
    source_ s' = source_ s.
  Proof.
    unfold FinalizeOp, FinalizeValue, FinalizeStr, handled, describe.
    intros [E|[E|E]]; repeat case_hyp E; by injection E as _ <-.
  Qed.

Lemma FinalizeTerm_left (s : state) r s' : FinalizeTerm s = (r, s') -> left_in s' = left_in s.
  Proof.
    unfold FinalizeTerm. destruct (negb _); [by intros [= _ <-]|].
    destruct (_ <=? 0)%Z; [by intros [= _ <-]|].
    destruct (Term (source_ s)) as [u c] eqn:Et. injection Et as _ <-.
    match goal with |- context [match term_type_ ?a with _ => _ end] =>
      destruct (match term_type_ a with kOp => FinalizeOp u a | _ => _ end) as [r2 s2] eqn:Em;
      assert (Hs : source_ s2 = source_ a)
    end.
    { apply (finalize_left _ u r2). destruct (term_type_ _); auto. }
    intros [= _ <-]. unfold left_in. cbn. by rewrite Hs.
  Qed.

Definition turn_left (x : Turn (H:=T) (C:=TextCursor)) : nat :=
    match x with Continue s | Return _ s => left_in s end.

Lemma next_turn_left x : turn_left (next_turn x) = left_in (snd x).
  Proof. by destruct x as [[]]. Qed.

Lemma ReadToken_left n tok (s : state) :
    (left_in (snd (ReadToken n tok s)) <= left_in s)%nat.
  Proof.
    revert tok s. induction n as [|n IH]; intros tok s; cbn [ReadToken];
      destruct (NextChar s) as [ch s'] eqn:E; apply NextChar_left in E as [E _]; [done|].
    destruct (_ || _); [done|]. etrans; [apply IH|done].
  Qed.

Lemma HandlePayload_left (s : state) : (turn_left (HandlePayload s) <= left_in s)%nat.
  Proof.
    unfold HandlePayload. pose proof (ReadToken_left 4 0 s) as HR.
    destruct (ReadToken 4 0 s) as [[ch tok] s1]. cbn [snd] in HR.
    destruct (ch =c "["); [|by rewrite next_turn_left].
    pose proof (Hshrinks tok (handler_ s1) (source_ s1)) as HS.
    destruct (LexerCustomData tok (handler_ s1) (source_ s1)) as [[r h] c]. cbn in HS.
    destruct (handled _ _) as [r2 s2] eqn:E2. injection E2 as _ E2.
    destruct (NextChar s2) as [ch3 s3] eqn:E3. apply NextChar_left in E3 as [E3 _].
    assert (left_in s2 <= left_in s1)%nat by (by rewrite <- E2).
    destruct (negb _); rewrite next_turn_left; change (left_in s3 <= left_in s)%nat; lia.
  Qed.

Lemma SkipComment_left fuel (s : state) : (left_in s < fuel)%nat ->
    exists s', SkipComment fuel s = Some s' /\ (left_in s' <= left_in s)%nat.
  Proof.
    revert s. induction fuel as [|fuel IH]; intros s Hf; cbn [SkipComment]; [lia|].
    destruct (NextChar s) as [ch s'] eqn:E. apply NextChar_left in E as [E1 E2].
    destruct (ch =c c_nul) eqn:Ec; cbn [orb]; [by exists s'|]. bool_hyps.
    destruct (ch =c c_lf); [by exists s'|]. specialize (E2 Ec).
    destruct (IH s' ltac:(lia)) as (s'' & -> & ?). exists s''. split; [done|lia].
  Qed.

Lemma LexerTurn_left fuel b ch (s : state) : (left_in s < fuel)%nat ->
    exists x, LexerTurn fuel b ch s = Some x /\ (turn_left x <= left_in s)%nat.
  Proof.
    intros Hf. unfold LexerTurn.
    change (left_in s) with (left_in (ResetEscape s)) in Hf |- *. set (u := ResetEscape s) in *.
    destruct (_ && (_ || _)); [eexists; split; [done|]; by repeat case_goal|].
    destruct (ch =c "(").
    { eexists; split; [done|]. unfold HandleOpen. destruct (FinalizeTerm u) as [r s'] eqn:E.
      apply FinalizeTerm_left in E. rewrite next_turn_left. by rewrite <- E. }
    destruct (ch =c ")").
    { eexists; split; [done|]. unfold HandleClose. destruct (FinalizeTerm u) as [r s'] eqn:E.
      apply FinalizeTerm_left in E. rewrite <- E.
      destruct r; cbn [handled]; repeat case_goal; rewrite ?next_turn_left; done. }
    destruct (ch =c c_quote).
    { eexists; split; [done|]. unfold HandleQuote. destruct (FinalizeTerm u) as [r s'] eqn:E.
      apply FinalizeTerm_left in E. rewrite <- E.
      case_goal; [by rewrite next_turn_left|]. by destruct r. }
    destruct (ch =c "!"); [eexists; split; [done|]; apply HandlePayload_left|].
    destruct (ch =c ";").
    { destruct (SkipComment_left fuel u Hf) as (s' & -> & ?). eexists; split; [done|]. done. }
    destruct (ch =c c_lf).
    { eexists; split; [done|]. rewrite next_turn_left.
      destruct (FinalizeTerm (NewLine u)) as [r s'] eqn:E. apply FinalizeTerm_left in E. cbn [snd]. by rewrite E. }
    destruct (_ || _).
    { eexists; split; [done|]. rewrite next_turn_left.
      destruct (FinalizeTerm u) as [r s'] eqn:E. apply FinalizeTerm_left in E. cbn [snd]. by rewrite E. }
    eexists; split; [done|]. cbn [turn_left]. by case_goal.
  Qed.

Lemma LexerLoop_total fuel b (s : state) :
    (left_in s < fuel)%nat -> is_Some (LexerLoop fuel b s).
  Proof.
    revert s. induction fuel as [|fuel IH]; intros s Hf; cbn [LexerLoop]; [lia|].
    destruct (NextChar s) as [ch s'] eqn:E. apply NextChar_left in E as [E1 E2].
    destruct (ch =c c_nul) eqn:Ec; [done|]. bool_hyps. specialize (E2 Ec).
    destruct (LexerTurn_left fuel b ch s' ltac:(lia)) as (x & -> & Hx).
    destruct x; [|done]. apply IH. cbn in Hx. lia.
  Qed.
End Terminates.

(** * More fuel does not change a run *)

Section MoreFuel.
  Context {H C : Type} `{LexerHandler H, TermSource C, LexerPayload H C}.
  Abbreviation state := (LexerState H C).

Lemma SkipComment_more fuel fuel' (s s' : state) :
    (fuel <= fuel')%nat -> SkipComment fuel s = Some s' -> SkipComment fuel' s = Some s'.
  Proof.
    revert fuel' s. induction fuel as [|fuel IH]; intros [|fuel'] s Hf; cbn [SkipComment]; try done; [lia|].
    destruct (NextChar s) as [ch s1]. destruct (_ || _); [done|]. apply IH. lia.
  Qed.

Lemma LexerTurn_more fuel fuel' b ch (s : state) x :
    (fuel <= fuel')%nat -> LexerTurn fuel b ch s = Some x -> LexerTurn fuel' b ch s = Some x.
  Proof.
    intros Hf. unfold LexerTurn. repeat (case_match; [done|]). case_match; [|done].
    destruct (SkipComment fuel _) as [s1|] eqn:Es; [|done]. by rewrite (SkipComment_more _ _ _ _ Hf Es).
  Qed.

Lemma LexerLoop_more fuel fuel' b (s : state) x :
    (fuel <= fuel')%nat -> LexerLoop fuel b s = Some x -> LexerLoop fuel' b s = Some x.
  Proof.
    revert fuel' s. induction fuel as [|fuel IH]; intros [|fuel'] s Hf; cbn [LexerLoop]; try done; [lia|].
    destruct (NextChar s) as [ch s1]. destruct (ch =c c_nul); [done|].
    destruct (LexerTurn fuel b ch s1) as [t|] eqn:Et; [|done].
    rewrite (LexerTurn_more fuel fuel' b ch s1 t ltac:(lia) Et). destruct t; [|done]. apply IH. lia.
  Qed.
End MoreFuel.

(** * A recording handler

    The events of a run, newest first; used to state what a text lexes to. *)

Inductive LexEvent :=
| EvBegin (op : bytes)
| EvEnd
| EvStr (s : bytes)
| EvInt (v : Z)
| EvDouble (d : double)
| EvName (s : bytes).

Definition Trace := list LexEvent.

#[export] Instance Trace_handler : LexerHandler Trace := {
  LexerBeginOp op h := (Right tt, EvBegin op :: h);
  LexerEndOp h := (Right tt, EvEnd :: h);
  LexerStrValue s h := (Right tt, EvStr s :: h);
  LexerIntValue v h := (Right tt, EvInt v :: h);
  LexerDoubleValue d h := (Right tt, EvDouble d :: h);
  LexerUnhandledValue s h := (Right tt, EvName s :: h)
}.

(** No payload handler is registered. *)
#[export] Instance Trace_payload {C} : LexerPayload Trace C :=
  fun _ h c => (Left (lit "Unknown payload type"), h, c).

(** * Properties *)

Lemma stream_refines_text
    {S : Type} `{InStreamLaws S} {T : Type} `{LexerHandler T}
    `{LexerPayload T (StreamCursor S), LexerPayload T TextCursor}
    (fuel : nat) (single_expr : bool) (h : T) (r : StreamReader S) (text : bytes) :
  payload_sim (S:=S) (T:=T) (read_error_ r) -> payload_shrinks (T:=T) ->
  reader_text r text -> (length text < fuel)%nat ->
  exists res s1 s2,
    RunStream fuel h r single_expr = Some (res, s1) /\
    LexerRun fuel single_expr h (text_start text) = Some (res, s2) /\
    handler_ s1 = handler_ s2 /\
    reader_text (cur_reader (source_ s1)) (tc_rest (source_ s2)) /\
    err_rel (read_error_ r) (cur_reader (source_ s1)) (source_ s2).
Proof.
  intros Hsim Hshr Hr Hf. unfold RunStream, LexerRun.
  match goal with |- exists _ _ _, LexerLoop _ _ ?a = _ /\ LexerLoop _ _ ?b = _ /\ _ =>
    assert (Hst : st_rel (cur_rel (read_error_ r)) a b) by (constructor; split; [done|by left]);
    destruct (LexerLoop_total Hshr fuel single_expr b Hf) as [[res s2] E2];
    pose proof (LexerLoop_sim _ Hsim fuel single_expr a b Hst) as Hs
  end.
  rewrite E2 in Hs |- *.
  match type of Hs with match ?x with _ => _ end => destruct x as [[res1 s1]|]; [|done] end.
  destruct Hs as [Hres Hs]. cbn in Hres, Hs. subst res1. inversion Hs as [? ? ? ? ? ? ? ? ? ? [Hrd Herr]]; subst.
  by exists res, (MkLexer h0 e c l o d i w ty), (MkLexer h0 e t l o d i w ty).
Qed.

(** C5. Chunk independence and termination of the lexer: reading a stream
    through a buffer of any size, with the stream cut anywhere, [Run] always
    stops and gives the result and the handler state of a run over the whole
    text, and leaves the reader exactly behind the text that run consumed, in
    its old state, or failed if that run met the end of the text. *)
Theorem lexer_stream_refines_text
    {S : Type} `{InStreamLaws S} {T : Type} `{LexerHandler T}
    `{LexerPayload T (StreamCursor S), LexerPayload T TextCursor}
    (fuel : nat) (single_expr : bool) (h : T) (r : StreamReader S) (text : bytes) :
  payload_sim (S:=S) (T:=T) (read_error_ r) -> payload_shrinks (T:=T) ->
  reader_text r text -> (length text < fuel)%nat ->
  exists res s1 s2,
    RunStream fuel h r single_expr = Some (res, s1) /\
    LexerRun fuel single_expr h (text_start text) = Some (res, s2) /\
    handler_ s1 = handler_ s2 /\
    reader_text (cur_reader (source_ s1)) (tc_rest (source_ s2)) /\
    err_rel (read_error_ r) (cur_reader (source_ s1)) (source_ s2).
Proof. apply stream_refines_text. Qed.

Definition demo_text : bytes := lit "(+ 10 (foo bar) 2.5) tail".
Definition demo_chunks : ChunkStream := [lit "(+ 1"; lit "0 (fo"; lit "o bar) 2.5) t"; lit "ail"].
Definition demo_reader : StreamReader ChunkStream := ReaderNew (lit "????") demo_chunks.

Lemma lexer_stream_refines_text_witness :
  (length demo_text < 100)%nat /\
  exists s1 s2,
    RunStream 100 ([] : Trace) demo_reader true = Some (Right tt, s1) /\
    LexerRun 100 true ([] : Trace) (text_start demo_text) = Some (Right tt, s2) /\
    rev (handler_ s1) =
      [EvBegin (lit "+"); EvInt 10; EvBegin (lit "foo"); EvName (lit "bar"); EvEnd;
       EvDouble (d_div (d_of_Z 5) (d_of_Z 2)); EvEnd] /\
    tc_rest (source_ s2) = lit " tail".
Proof.
  split; [vm_compute; lia|].
  assert (H1 : payload_sim (S:=ChunkStream) (T:=Trace) ErrNone) by (intros token h c t Hc; done).
  assert (H2 : payload_shrinks (T:=Trace)) by (intros token h t; done).
  assert (H3 : reader_text demo_reader demo_text).
  { split; [split; cbn; lia|]. exists demo_text. split; [done|].
    apply (chunk_feeds 4 demo_chunks). lia. }
  assert (H4 : (length demo_text < 100)%nat) by (vm_compute; lia).
  destruct (lexer_stream_refines_text 100 true ([] : Trace) demo_reader demo_text H1 H2 H3 H4)
    as (res & s1 & s2 & E1 & E2 & Eh & _).
  exists s1, s2. pose proof E2 as E2'. vm_compute in E2. injection E2 as <- <-.
  split; [exact E1|]. split; [exact E2'|]. rewrite Eh. split; vm_compute; reflexivity.
Defined.
