(* ===== verification/Syntax.v ===== *)
(** The S-expression language the lexer accepts: an abstract syntax, its
    canonical printing, and the theorem that lexing a printed expression calls
    the handler with exactly the expression's events, in order.

    The theorem is proved over the reference text source for any handler; the
    statement about chunked streams follows with [LexerSim]. *)
From S2P Require Import Prelude Either StrBuild CLib Stream Lexer LexerSim.
Local Open Scope Z_scope.

(** * Numbers *)

Definition all_digits (ds : bytes) : Prop := Forall (fun c => is_digit c = true) ds.

Lemma uint_str_digits v : 0 <= v -> all_digits (uint_str v).
Proof.
  intros. unfold uint_str. case_goal; [by repeat constructor|].
  apply radix_digits_Forall; [lia|]. intros. by apply is_digit_digit_char.
Qed.

Lemma uint_str_nonempty v : uint_str v <> [].
Proof. unfold uint_str. case_goal; bool_hyps; [done|]. apply radix_digits_nonempty; lia. Qed.

Lemma dec_value_uint_str v : 0 <= v < 10 ^ 64 -> dec_value (uint_str v) = v.
Proof.
  intros. unfold uint_str. case_goal; bool_hyps; [by subst|].
  apply radix_digits_value; [lia| |done]. intros. by apply digit_val_digit_char.
Qed.

Lemma take_while_all p (ds rest : bytes) :
  Forall (fun c => p c = true) ds -> take_while p (ds ++ rest) = ds ++ take_while p rest.
Proof. induction 1 as [|c ds Hc _ IH]; cbn; [done|]. by rewrite Hc, IH. Qed.

Lemma take_while_all_nil p (ds : bytes) :
  Forall (fun c => p c = true) ds -> take_while p ds = ds.
Proof. intros. rewrite <- (app_nil_r ds) at 1. rewrite take_while_all by done. apply app_nil_r. Qed.

Lemma digit_facts c : is_digit c = true ->
  (c =c c_nul) = false /\ isspace c = false /\ (c =c "-") = false /\ (c =c "+") = false.
Proof.
  intros Hd. apply is_digit_spec in Hd.
  assert (Hne : forall d, (uchar d < 48 \/ 57 < uchar d) -> (c =c d) = false).
  { intros d Hdd. apply Ascii.eqb_neq. intros ->. lia. }
  unfold isspace. rewrite !Hne by (left; reflexivity). done.
Qed.

Lemma c_str_digits ds : all_digits ds -> c_str ds = ds.
Proof.
  intros Hd. apply take_while_all_nil. eapply Forall_impl; [|exact Hd].
  intros c Hc. by destruct (digit_facts c Hc) as (-> & _).
Qed.

Lemma strtoll_digits ds : all_digits ds -> ds <> [] -> dec_value ds <= int64_max -> 0 <= dec_value ds ->
  strtoll ds = (dec_value ds, length ds, false).
Proof.
  intros Hd Hne Hmax Hpos. unfold strtoll. rewrite c_str_digits by done.
  destruct ds as [|c ds']; [done|]. inversion Hd as [|? ? Hc Hds]; subst.
  destruct (digit_facts c Hc) as (_ & Hs & Hm & Hp).
  cbn [drop_while]. rewrite Hs. cbn [split_sign]. rewrite Hm, Hp.
  rewrite take_while_all_nil by done. rewrite Nat.sub_diag. cbn [Nat.add].
  unfold int64_min in *. repeat case_goal; bool_hyps; try done; lia.
Qed.

Lemma strtoll_neg_digits ds : all_digits ds -> ds <> [] -> int64_min <= - dec_value ds ->
  0 <= dec_value ds ->
  strtoll ("-"%char :: ds) = (- dec_value ds, S (length ds), false).
Proof.
  intros Hd Hne Hmin Hpos. unfold strtoll.
  assert (c_str ("-"%char :: ds) = "-"%char :: ds) as ->.
  { cbn. f_equal. by apply c_str_digits. }
  change (drop_while isspace ("-"%char :: ds)) with ("-"%char :: ds). cbn [split_sign Ascii.eqb Bool.eqb].
  rewrite take_while_all_nil by done. destruct ds as [|c ds']; [done|].
  replace (length ("-"%char :: c :: ds') - length (c :: ds') + length (c :: ds'))%nat
    with (S (length (c :: ds'))) by (cbn; lia).
  unfold int64_max. repeat case_goal; bool_hyps; try done; lia.
Qed.

Lemma strtoll_int_str v : in_s 64 v -> strtoll (int_str v) = (v, length (int_str v), false).
Proof.
  intros [H1 H2]. unfold int_str. change (2 ^ (64 - 1)) with 9223372036854775808 in *.
  assert (Hb : forall u, 0 <= u <= 9223372036854775808 -> dec_value (uint_str u) = u).
  { intros u Hu. apply dec_value_uint_str. split; [lia|].
    apply Z.le_lt_trans with 9223372036854775808; [lia|]. by vm_compute. }
  unfold int64_min, int64_max. change (2 ^ 63) with 9223372036854775808 in *.
  case_goal; bool_hyps.
  - rewrite strtoll_neg_digits; rewrite ?Hb by lia; unfold int64_min;
      [f_equal; f_equal; lia|apply uint_str_digits; lia|apply uint_str_nonempty|
       change (2 ^ 63) with 9223372036854775808; lia|lia].
  - rewrite strtoll_digits; rewrite ?Hb by lia; unfold int64_max;
      [done|apply uint_str_digits; lia|apply uint_str_nonempty|
       change (2 ^ 63) with 9223372036854775808; lia|lia].
Qed.

Lemma parse_int_str v : in_s 64 v -> LexerParseInt64 (int_str v) = Some v.
Proof.
  intros Hv. unfold LexerParseInt64. pose proof (int_str_length v Hv).
  rewrite take_ge by lia. rewrite strtoll_int_str by done. by rewrite Nat.eqb_refl.
Qed.

(** Integers survive printing and lexing: the lexer reads the decimal text
    of any 64-bit integer back as that integer. *)
Lemma lexer_parses_printed_int v : in_s 64 v -> LexerParseInt64 (int_str v) = Some v.
Proof. apply parse_int_str. Qed.

Lemma lexer_parses_printed_int_witness :
  in_s 64 (- 2 ^ 63) /\ LexerParseInt64 (int_str (- 2 ^ 63)) = Some (- 2 ^ 63).
Proof.
  assert (H : in_s 64 (- 2 ^ 63)) by (split; vm_compute; [discriminate|reflexivity]).
  split; [exact H|]. exact (lexer_parses_printed_int (- 2 ^ 63) H).
Defined.

(** * Strings *)

Definition needs_escape (c : ascii) : bool := (c =c c_quote) || (c =c c_backslash).

Fixpoint escape (s : bytes) : bytes :=
  match s with
  | [] => []
  | c :: s' => if needs_escape c then c_backslash :: c :: escape s' else c :: escape s'
  end.

Lemma unescape_escape s : LexerUnescape false (escape s) = s.
Proof.
  induction s as [|c s IH]; cbn [escape]; [done|]. unfold needs_escape.
  destruct (c =c c_backslash) eqn:Eb.
  - rewrite orb_true_r. apply Ascii.eqb_eq in Eb as ->. cbn. by rewrite IH.
  - destruct (c =c c_quote) eqn:Eq; cbn [orb LexerUnescape andb negb].
    + rewrite Eb. cbn. by rewrite IH.
    + rewrite Eb. cbn. by rewrite IH.
Qed.

Definition has_escape (s : bytes) : bool := existsb needs_escape s.

Lemma escape_none s : has_escape s = false -> escape s = s.
Proof.
  induction s as [|c s IH]; cbn; [done|]. intros. bool_hyps.
  assert (needs_escape c = false) as -> by done. by rewrite IH.
Qed.

(** * Expressions *)

#[warnings="-register-all"]
Inductive sexp :=
| EInt (v : Z)
| EStr (s : bytes)
| EName (s : bytes)
| ECall (op : bytes) (args : list sexp).

Section SexpInd.
  Context (P : sexp -> Prop).
  Hypothesis HInt : forall v, P (EInt v).
  Hypothesis HStr : forall s, P (EStr s).
  Hypothesis HName : forall s, P (EName s).
  Hypothesis HCall : forall op args, Forall P args -> P (ECall op args).

(** Induction with the hypothesis on every argument. *)
Fixpoint sexp_ind' (e : sexp) : P e :=
  match e with
  | EInt v => HInt v
  | EStr s => HStr s
  | EName s => HName s
  | ECall op args =>
      HCall op args
        ((fix go (l : list sexp) : Forall P l :=
            match l with
            | [] => Forall_nil_2 P
            | a :: l' => Forall_cons_2 P a l' (sexp_ind' a) (go l')
            end) args)
  end.
End SexpInd.

Fixpoint print (e : sexp) : bytes :=
  match e with
  | EInt v => int_str v
  | EStr s => c_quote :: escape s ++ [c_quote]
  | EName s => s
  | ECall op args => "("%char :: op ++ concat (map (fun a => c_space :: print a) args) ++ [")"%char]
  end.

Fixpoint events (e : sexp) : list LexEvent :=
  match e with
  | EInt v => [EvInt v]
  | EStr s => [EvStr s]
  | EName s => [EvName s]
  | ECall op args => EvBegin op :: concat (map events args) ++ [EvEnd]
  end.

(** Characters without a meaning of their own outside a string. *)
Definition plain (c : ascii) : bool :=
  negb ((c =c c_nul) || (c =c "(") || (c =c ")") || (c =c c_quote) || (c =c "!") || (c =c ";")
        || (c =c c_lf) || (c =c c_space) || (c =c c_tab) || (c =c c_cr)).

Fixpoint sexp_ok (e : sexp) : Prop :=
  match e with
  | EInt v => in_s 64 v
  | EStr s => forallb (fun c => negb (c =c c_nul)) s = true
  | EName s => s <> [] /\ forallb plain s = true /\ LexerParseInt64 s = None /\ LexerParseDouble s = None
  | ECall op args =>
      op <> [] /\ forallb plain op = true /\ LexerCheckOpName op = true /\
      foldr (fun a P => sexp_ok a /\ P) True args
  end.

Lemma sexp_ok_args args : foldr (fun a P => sexp_ok a /\ P) True args <-> Forall sexp_ok args.
Proof.
  induction args as [|a args IH]; cbn; [done|]. rewrite IH. split; [by intros []; constructor|]. by inversion 1.
Qed.

Fixpoint sexp_ok_b (e : sexp) : bool :=
  match e with
  | EInt v => bool_decide (in_s 64 v)
  | EStr s => forallb (fun c => negb (c =c c_nul)) s
  | EName s => negb (bool_decide (s = [])) && forallb plain s &&
      bool_decide (LexerParseInt64 s = None) && bool_decide (LexerParseDouble s = None)
  | ECall op args => negb (bool_decide (op = [])) && forallb plain op && LexerCheckOpName op && forallb sexp_ok_b args
  end.

Lemma sexp_ok_b_spec e : sexp_ok_b e = true -> sexp_ok e.
Proof.
  induction e as [v|s|s|op args IH] using sexp_ind'; cbn [sexp_ok_b sexp_ok].
  - apply bool_decide_eq_true.
  - done.
  - rewrite !andb_true_iff, negb_true_iff, !bool_decide_eq_true, bool_decide_eq_false. tauto.
  - rewrite !andb_true_iff, negb_true_iff, bool_decide_eq_false, sexp_ok_args. intros [[[? ?] ?] Hall].
    split_and!; try done. induction IH as [|a args Ha _ IHargs]; [constructor|].
    cbn [forallb] in Hall. apply andb_true_iff in Hall as []. constructor; auto.
Qed.

(** Events handed to a handler, up to the first refusal. *)
Section Deliver.
  Context {T : Type} `{LexerHandler T}.

Definition deliver (ev : LexEvent) (h : T) : Either bytes unit * T :=
  match ev with
  | EvBegin op => LexerBeginOp op h
  | EvEnd => LexerEndOp h
  | EvStr s => LexerStrValue s h
  | EvInt v => LexerIntValue v h
  | EvDouble d => LexerDoubleValue d h
  | EvName s => LexerUnhandledValue s h
  end.

Fixpoint deliver_all (evs : list LexEvent) (h : T) : Either bytes unit * T :=
  match evs with
  | [] => (Right tt, h)
  | ev :: evs' =>
      match deliver ev h with
      | (Left msg, h') => (Left msg, h')
      | (Right _, h') => deliver_all evs' h'
      end
  end.

Lemma deliver_all_app evs1 evs2 h h' :
  deliver_all (evs1 ++ evs2) h = (Right tt, h') ->
  exists h1, deliver_all evs1 h = (Right tt, h1) /\ deliver_all evs2 h1 = (Right tt, h').
Proof.
  revert h. induction evs1 as [|ev evs1 IH]; intros h; cbn; [by exists h|].
  destruct (deliver ev h) as [[msg|[]] h1]; [done|]. apply IH.
Qed.

Lemma deliver_all_app_ok evs1 evs2 h h1 :
  deliver_all evs1 h = (Right tt, h1) -> deliver_all (evs1 ++ evs2) h = deliver_all evs2 h1.
Proof.
  revert h. induction evs1 as [|ev evs1 IH]; intros h; cbn; [by intros [= ->]|].
  destruct (deliver ev h) as [[msg|[]] h2]; [done|]. apply IH.
Qed.

Lemma deliver_all_cons ev evs h h' :
  deliver_all (ev :: evs) h = (Right tt, h') ->
  exists h1, deliver ev h = (Right tt, h1) /\ deliver_all evs h1 = (Right tt, h').
Proof. cbn. destruct (deliver ev h) as [[msg|[]] h1]; [done|]. by exists h1. Qed.
End Deliver.

(** * Lexing printed text *)

Section LexPrint.
  Context {T : Type} `{LexerHandler T, LexerPayload T TextCursor}.
  Abbreviation state := (LexerState T TextCursor).

(** [n] turns of the main loop lead from [s] to [s']. *)
Definition steps (b : bool) (n : nat) (s s' : state) : Prop :=
  forall fuel, LexerLoop (n + fuel) b s = LexerLoop fuel b s'.

Lemma steps_0 b s : steps b 0 s s.
Proof. by intros fuel. Qed.

Lemma steps_trans b n m s1 s2 s3 : steps b n s1 s2 -> steps b m s2 s3 -> steps b (n + m) s1 s3.
Proof. intros H12 H23 fuel. by rewrite <- Nat.add_assoc, H12, H23. Qed.

(** One turn on the character [ch]. *)
Definition read1 (ch : ascii) (rest : bytes) (s : state) : state :=
  with_line (cur_line_ s) (S (cur_line_offset_ s))
    (with_source (MkTextEof rest ch (option_map (fun t => t ++ [ch]) (tc_term (source_ s))) (tc_eof (source_ s))) s).

Lemma turn_steps b ch rest s s' :
  tc_rest (source_ s) = ch :: rest -> (ch =c c_nul) = false ->
  (forall fuel, LexerTurn fuel b ch (read1 ch rest s) = Some (Continue s')) -> steps b 1 s s'.
Proof.
  intros Hr Hn Ht fuel. cbn [Nat.add LexerLoop]. unfold NextChar.
  cbn [SourceRead TextCursor_source]. unfold text_read. rewrite Hr, Hn.
  specialize (Ht fuel). unfold read1 in Ht. by rewrite Ht.
Qed.

Lemma turn_return b ch rest s r s' fuel :
  tc_rest (source_ s) = ch :: rest -> (ch =c c_nul) = false ->
  (forall fuel, LexerTurn fuel b ch (read1 ch rest s) = Some (Return r s')) ->
  LexerLoop (S fuel) b s = Some (r, s').
Proof.
  intros Hr Hn Ht. cbn [LexerLoop]. unfold NextChar.
  cbn [SourceRead TextCursor_source]. unfold text_read. rewrite Hr, Hn.
  specialize (Ht fuel). unfold read1 in Ht. by rewrite Ht.
Qed.

(** Between terms. *)
Inductive idle (e : StrBuilder) (h : T) (d : Z) (rest : bytes) : state -> Prop :=
| idle_intro lst l o :
    idle e h d rest (MkLexer h e (MkText rest lst None) l o d false false kValue).

(** The pending term, if any, will be delivered by the next delimiter. *)
Inductive settles (e : StrBuilder) (h : T) (d : Z) (rest : bytes) : state -> Prop :=
| settles_intro h0 lst tm l o w ty :
    ty <> kStr ->
    (forall ch rest' l' o',
      FinalizeTerm (MkLexer h0 e (MkText rest' ch (option_map (fun t => t ++ [ch]) tm)) l' o' d false w ty)
      = (Right tt, MkLexer h e (MkText rest' ch None) l' o' d false false kValue)) ->
    settles e h d rest (MkLexer h0 e (MkText rest lst tm) l o d false w ty).

Lemma idle_settles e h d rest s : idle e h d rest s -> settles e h d rest s.
Proof. intros []. by constructor. Qed.

Lemma plain_facts c : plain c = true ->
  (c =c c_nul) = false /\ (c =c "(") = false /\ (c =c ")") = false /\ (c =c c_quote) = false /\
  (c =c "!") = false /\ (c =c ";") = false /\ (c =c c_lf) = false /\
  ((c =c c_space) || (c =c c_tab) || (c =c c_cr)) = false.
Proof. unfold plain. intros Hp. bool_hyps. repeat split; rewrite ?orb_false_iff, ?Ascii.eqb_neq; done. Qed.

(** A plain character extends the pending term. *)
Lemma plain_extend b ch e h t l o d w ty lst rest :
  plain ch = true -> ty <> kStr ->
  steps b 1 (MkLexer h e (MkText (ch :: rest) lst (Some t)) l o d false w ty)
    (MkLexer h e (MkText rest ch (Some (t ++ [ch]))) l (S o) d false w ty).
Proof.
  intros Hp Hty. destruct (plain_facts ch Hp) as (E1 & E2 & E3 & E4 & E5 & E6 & E7 & E8).
  apply (turn_steps b ch rest); [done|done|]. intros fuel. unfold LexerTurn. cbn [read1 is_escaped_].
  rewrite E2, E3, E4, E5, E6, E7, E8. cbn. by rewrite bool_decide_false.
Qed.

Lemma plain_run b cs e h t l o d w ty lst rest :
  forallb plain cs = true -> ty <> kStr ->
  exists lst' o',
    steps b (length cs) (MkLexer h e (MkText (cs ++ rest) lst (Some t)) l o d false w ty)
      (MkLexer h e (MkText rest lst' (Some (t ++ cs))) l o' d false w ty).
Proof.
  intros Hp Hty. revert t lst o. induction cs as [|c cs IH]; intros t lst o.
  { exists lst, o. rewrite app_nil_r. apply steps_0. }
  cbn in Hp. bool_hyps. destruct (IH ltac:(done) (t ++ [c]) c (S o)) as (lst' & o' & Hs).
  exists lst', o'. rewrite <- app_assoc in Hs. cbn [length].
  apply (steps_trans b 1 _ _ _ _ (plain_extend b c e h t l o d w ty lst (cs ++ rest) ltac:(done) Hty) Hs).
Qed.

(** The first character of a name or number starts a value. *)
Lemma plain_start b ch e h d rest s :
  plain ch = true -> idle e h d (ch :: rest) s ->
  exists l o, steps b 1 s (MkLexer h e (MkText rest ch (Some [ch])) l o d false false kValue).
Proof.
  intros Hp [lst l o]. exists l, (S o).
  destruct (plain_facts ch Hp) as (E1 & E2 & E3 & E4 & E5 & E6 & E7 & E8).
  apply (turn_steps b ch rest); [done|done|]. intros fuel. unfold LexerTurn. cbn [read1 is_escaped_].
  rewrite E2, E3, E4, E5, E6, E7, E8. done.
Qed.

(** [FinalizeTerm] on a pending term inside an expression. *)
Lemma FinalizeTerm_pending h e rest ch cs l o d w ty :
  0 < d ->
  FinalizeTerm (MkLexer h e (MkText rest ch (Some (cs ++ [ch]))) l o d false w ty : state) =
  let st := MkLexer h e (MkText rest ch (Some (cs ++ [ch]))) l o d false w ty in
  let '(result, st2) :=
    match ty with
    | kOp => FinalizeOp cs st
    | kValue => FinalizeValue cs st
    | kStr => FinalizeStr cs st
    end in
  (result, FinishTerm st2).
Proof.
  intros Hd. unfold FinalizeTerm. cbn [source_ op_depth_].
  assert (HasTerm (MkText rest ch (Some (cs ++ [ch]))) = true) as -> by done.
  assert ((d <=? 0) = false) as -> by (apply Z.leb_gt; lia). cbn [negb].
  assert (Term (MkText rest ch (Some (cs ++ [ch]))) =
    (cs, MkText rest ch (Some (cs ++ [ch])))) as ->.
  { unfold Term, TextCursor_source. cbn [tc_term option_map from_option].
    by rewrite removelast_last. }
  done.
Qed.

Lemma term_settles cs e h h' d rest l o lst ty :
  0 < d -> ty <> kStr ->
  (forall st : state, handler_ st = h ->
     match ty with kOp => FinalizeOp cs st | kValue => FinalizeValue cs st | kStr => FinalizeStr cs st end
     = (Right tt, with_handler h' st)) ->
  settles e h' d rest (MkLexer h e (MkText rest lst (Some cs)) l o d false false ty).
Proof.
  intros Hd Hty Hf. constructor; [done|]. intros ch rest' l' o'. cbn [option_map].
  rewrite FinalizeTerm_pending by done. cbv zeta. by rewrite Hf.
Qed.

(** A name or a number: its events once the delimiter is seen. *)
Lemma value_run b cs e h h' d rest s :
  0 < d -> cs <> [] -> forallb plain cs = true ->
  (forall st : state, handler_ st = h -> FinalizeValue cs st = (Right tt, with_handler h' st)) ->
  idle e h d (cs ++ rest) s ->
  exists s', steps b (length cs) s s' /\ settles e h' d rest s'.
Proof.
  intros Hd Hne Hp Hf Hi. destruct cs as [|c cs]; [done|]. cbn in Hp. bool_hyps.
  destruct (plain_start b c e h d (cs ++ rest) s ltac:(done) Hi) as (l & o & Hs).
  destruct (plain_run b cs e h [c] l o d false kValue c rest ltac:(done) ltac:(done)) as (lst' & o' & Hs').
  eexists; split; [apply (steps_trans b 1 _ _ _ _ Hs Hs')|]. by apply term_settles.
Qed.

(** Inside a string literal. *)
Lemma str_char b c e h t l o d esc w lst rest :
  (c =c c_nul) = false -> ((c =c c_quote) = false \/ esc = true) ->
  exists l' o',
  steps b 1 (MkLexer h e (MkText (c :: rest) lst (Some t)) l o d esc w kStr)
    (MkLexer h e (MkText rest c (Some (t ++ [c]))) l' o' d ((c =c c_backslash) && negb esc)
       (w || ((c =c c_backslash) && negb esc)) kStr).
Proof.
  intros Hn Hq.
  exists (if c =c c_lf then S l else l), (if c =c c_lf then 0%nat else S o).
  apply (turn_steps b c rest); [done|done|]. intros fuel. unfold LexerTurn. cbn [read1 with_line with_source is_escaped_].
  rewrite bool_decide_true by done.
  assert (negb (c =c c_quote) || esc = true) as ->
    by (destruct Hq as [-> | ->]; [done|apply orb_true_r]). cbn [andb].
  destruct (c =c c_backslash) eqn:Eb; destruct esc; cbn [andb negb];
    destruct (c =c c_lf) eqn:El; cbn; rewrite ?orb_true_r, ?orb_false_r; done.
Qed.

Lemma str_run b s e h t l o d w lst rest :
  forallb (fun c => negb (c =c c_nul)) s = true ->
  exists lst' l' o',
  steps b (length (escape s)) (MkLexer h e (MkText (escape s ++ rest) lst (Some t)) l o d false w kStr)
    (MkLexer h e (MkText rest lst' (Some (t ++ escape s))) l' o' d false (w || has_escape s) kStr).
Proof.
  revert t l o w lst. induction s as [|c s IH]; intros t l o w lst Hs.
  { exists lst, l, o. cbn. rewrite app_nil_r, orb_false_r. apply steps_0. }
  cbn in Hs. bool_hyps. cbn [escape has_escape existsb].
  destruct (needs_escape c) eqn:Ene; cbn [length app].
  - destruct (str_char b c_backslash e h t l o d false w lst (c :: escape s ++ rest))
      as (l1 & o1 & G1); [done|by left|].
    destruct (str_char b c e h (t ++ [c_backslash]) l1 o1 d true true c_backslash (escape s ++ rest))
      as (l2 & o2 & G2); [by apply Ascii.eqb_neq|by right|].
    rewrite andb_false_r, orb_false_r in G2.
    assert (Hw : (w || ((c_backslash =c c_backslash) && negb false)) = true) by (by rewrite orb_true_r).
    rewrite Hw in G1. change ((c_backslash =c c_backslash) && negb false) with true in G1.
    destruct (IH ((t ++ [c_backslash]) ++ [c]) l2 o2 true c ltac:(done)) as (lst' & l' & o' & G3).
    exists lst', l', o'. cbn [orb]. rewrite orb_true_r.
    rewrite <- !app_assoc in G3. cbn [app orb] in G3. rewrite <- !app_assoc in G2.
    apply (steps_trans b 1 (S (length (escape s))) _ _ _ G1), (steps_trans b 1 _ _ _ _ G2 G3).
  - unfold needs_escape in Ene. bool_hyps.
    destruct (str_char b c e h t l o d false w lst (escape s ++ rest)) as (l1 & o1 & G1);
      [by apply Ascii.eqb_neq|left; by apply Ascii.eqb_neq|].
    assert (Hb : ((c =c c_backslash) && negb false) = false)
      by (apply andb_false_iff; left; by apply Ascii.eqb_neq).
    rewrite Hb, orb_false_r in G1.
    destruct (IH (t ++ [c]) l1 o1 w c ltac:(done)) as (lst' & l' & o' & G3).
    exists lst', l', o'. cbn [orb]. rewrite <- app_assoc in G3. cbn [app] in G3.
    apply (steps_trans b 1 _ _ _ _ G1 G3).
Qed.

Lemma parse_escaped s : LexerParseString (escape s) (has_escape s) = s.
Proof.
  unfold LexerParseString. destruct (has_escape s) eqn:E; [apply unescape_escape|by apply escape_none].
Qed.

Lemma str_value_run b s e h h' d rest st :
  0 < d -> forallb (fun c => negb (c =c c_nul)) s = true ->
  LexerStrValue s h = (Right tt, h') ->
  idle e h d (print (EStr s) ++ rest) st ->
  exists st', steps b (length (print (EStr s))) st st' /\ idle e h' d rest st'.
Proof.
  intros Hd Hs Hh [lst l o]. cbn [print app length].
  assert (G1 : steps b 1 (MkLexer h e (MkText (c_quote :: (escape s ++ [c_quote]) ++ rest) lst None) l o d false false kValue)
    (MkLexer h e (MkText (escape s ++ [c_quote] ++ rest) c_quote (Some [])) l (S o) d false false kStr)).
  { rewrite <- app_assoc. by apply (turn_steps b c_quote (escape s ++ [c_quote] ++ rest)). }
  destruct (str_run b s e h [] l (S o) d false c_quote ([c_quote] ++ rest) Hs) as (lst2 & l2 & o2 & G2).
  cbn [orb app] in G2.
  assert (G3 : steps b 1 (MkLexer h e (MkText (c_quote :: rest) lst2 (Some (escape s))) l2 o2 d false (has_escape s) kStr)
    (MkLexer h' e (MkText rest c_quote None) l2 (S o2) d false false kValue)).
  { apply (turn_steps b c_quote rest); [done|done|]. intros fuel. unfold LexerTurn.
    cbn [read1 with_line with_source is_escaped_ ResetEscape with_escaped term_type_].
    rewrite bool_decide_true by done. cbn [andb].
    change (negb (c_quote =c c_quote) || false) with false. cbn iota.
    change (c_quote =c "(") with false. change (c_quote =c ")") with false.
    change (c_quote =c c_quote) with true. cbn iota.
    unfold HandleQuote. rewrite bool_decide_true by done.
    match goal with |- context [FinalizeTerm ?x] =>
      change x with (MkLexer h e (MkText rest c_quote (Some (escape s ++ [c_quote]))) l2 (S o2) d
        false (has_escape s) kStr : state) end.
    rewrite FinalizeTerm_pending by done. cbv zeta. unfold FinalizeStr, handled.
    cbn [was_escaped_ handler_]. rewrite parse_escaped, Hh. done. }
  eexists; split; [|constructor].
  replace (S (length (escape s ++ [c_quote]))) with (1 + (length (escape s) + 1))%nat
    by (rewrite length_app; cbn; lia).
  apply (steps_trans b 1 _ _ _ _ G1), (steps_trans b _ 1 _ _ _ G2 G3).
Qed.

(** A space delivers the pending term. *)
Lemma space_step b e h d rest s :
  settles e h d (c_space :: rest) s -> exists s', steps b 1 s s' /\ idle e h d rest s'.
Proof.
  intros [h0 lst tm l o w ty Hty Hfin].
  exists (MkLexer h e (MkText rest c_space None) l (S o) d false false kValue). split; [|constructor].
  apply (turn_steps b c_space rest); [done|done|]. intros fuel. unfold LexerTurn.
  cbn [read1 with_line with_source is_escaped_ ResetEscape with_escaped term_type_].
  rewrite bool_decide_false by done. cbn [andb].
  cbn [tc_term source_ handler_ err_description_ cur_line_ cur_line_offset_ op_depth_ was_escaped_ term_type_].
  specialize (Hfin c_space rest l (S o)).
  match goal with |- context [FinalizeTerm ?x] => match type of Hfin with FinalizeTerm ?y = _ =>
    change x with y end end.
  rewrite Hfin. done.
Qed.

(** A closing parenthesis delivers the pending term, then the end. *)
Lemma close_turn e h h' d rest s :
  settles e h d (")"%char :: rest) s -> LexerEndOp h = (Right tt, h') -> 0 < d ->
  exists s', idle e h' (d - 1) rest s' /\
  forall b fuel, LexerTurn fuel b ")"%char (read1 ")"%char rest s) =
    Some (if b && (d - 1 =? 0) then Return (Right tt) s' else Continue s').
Proof.
  intros [h0 lst tm l o w ty Hty Hfin] Hend Hd.
  exists (MkLexer h' e (MkText rest ")"%char None) l (S o) (d - 1) false false kValue).
  split; [constructor|]. intros b fuel. unfold LexerTurn.
  cbn [read1 with_line with_source is_escaped_ ResetEscape with_escaped term_type_].
  rewrite bool_decide_false by done. cbn [andb].
  cbn [tc_term source_ handler_ err_description_ cur_line_ cur_line_offset_ op_depth_ was_escaped_ term_type_].
  specialize (Hfin ")"%char rest l (S o)).
  change (")"%char =c "(") with false. change (")"%char =c ")") with true. cbn iota. unfold HandleClose.
  match goal with |- context [FinalizeTerm ?x] => match type of Hfin with FinalizeTerm ?y = _ =>
    change x with y end end.
  rewrite Hfin. unfold handled. cbn [handler_]. rewrite Hend.
  cbn -[Z.sub Z.ltb Z.eqb]. assert ((d - 1 <? 0) = false) as -> by (apply Z.ltb_ge; lia).
  rewrite andb_true_r. by destruct (b && _).
Qed.

(** An opening parenthesis and the operation's name. *)
Lemma op_run b op e h h1 d rest s :
  0 <= d -> op <> [] -> forallb plain op = true -> LexerCheckOpName op = true ->
  LexerBeginOp op h = (Right tt, h1) ->
  idle e h d ("("%char :: op ++ rest) s ->
  exists s', steps b (S (length op)) s s' /\ settles e h1 (d + 1) rest s'.
Proof.
  intros Hd Hne Hp Hop Hh [lst l o].
  assert (G1 : steps b 1 (MkLexer h e (MkText ("("%char :: op ++ rest) lst None) l o d false false kValue)
    (MkLexer h e (MkText (op ++ rest) "("%char (Some [])) l (S o) (d + 1) false false kOp))
    by by apply (turn_steps b "("%char (op ++ rest)).
  destruct (plain_run b op e h [] l (S o) (d + 1) false kOp "("%char rest Hp ltac:(done)) as (lst' & o' & G2).
  eexists; split; [apply (steps_trans b 1 _ _ _ _ G1 G2)|].
  apply term_settles; [lia|done|]. intros st Hst. unfold FinalizeOp. cbn [app].
  destruct op as [|c op]; [done|]. rewrite Hop. cbn [negb]. unfold handled. by rewrite Hst, Hh.
Qed.

Definition arg_text (a : sexp) : bytes := c_space :: print a.

(** Reading one printed argument between two terms of an expression. *)
Definition arg_runs (x : sexp) : Prop := forall b e h h' d rest s,
  sexp_ok x -> 0 < d -> deliver_all (events x) h = (Right tt, h') ->
  idle e h d (print x ++ rest) s ->
  exists s', steps b (length (print x)) s s' /\ settles e h' d rest s'.

Lemma args_run b args e h h' d rest s :
  Forall arg_runs args -> Forall sexp_ok args -> 0 < d ->
  deliver_all (concat (map events args)) h = (Right tt, h') ->
  settles e h d (concat (map arg_text args) ++ rest) s ->
  exists s', steps b (length (concat (map arg_text args))) s s' /\ settles e h' d rest s'.
Proof.
  intros Hruns Hok Hd. revert h s Hok. induction Hruns as [|a args Ha _ IH]; intros h s Hok Hdel Hs.
  { cbn in Hdel. injection Hdel as <-. exists s. split; [apply steps_0|done]. }
  inversion Hok as [|? ? Hoka Hokargs]; subst. cbn [map concat] in Hdel, Hs.
  destruct (deliver_all_app _ _ _ _ Hdel) as (h1 & Hd1 & Hd2).
  rewrite <- app_assoc in Hs.
  destruct (space_step b e h d _ s Hs) as (s1 & G1 & Hi1).
  destruct (Ha b e h h1 d _ s1 Hoka Hd Hd1 Hi1) as (s2 & G2 & Hs2).
  destruct (IH h1 s2 Hokargs Hd2 Hs2) as (s3 & G3 & Hs3).
  exists s3. split; [|done]. cbn [map concat arg_text]. rewrite length_app.
  apply (steps_trans b _ _ _ s2); [|done]. apply (steps_trans b 1 _ _ _ _ G1 G2).
Qed.

(** A whole call, up to its closing parenthesis. *)
Lemma call_run b op args e h h' d rest s :
  Forall arg_runs args -> sexp_ok (ECall op args) -> 0 <= d ->
  deliver_all (events (ECall op args)) h = (Right tt, h') ->
  idle e h d (print (ECall op args) ++ rest) s ->
  exists h2 s2, steps b (pred (length (print (ECall op args)))) s s2 /\
    settles e h2 (d + 1) (")"%char :: rest) s2 /\ LexerEndOp h2 = (Right tt, h').
Proof.
  intros Hruns (Hne & Hp & Hop & Hok) Hd Hdel Hi. apply sexp_ok_args in Hok.
  cbn [events] in Hdel. destruct (deliver_all_cons _ _ _ _ Hdel) as (h1 & Hbegin & Hdel1).
  destruct (deliver_all_app _ _ _ _ Hdel1) as (h2 & Hargs & Hdel2).
  destruct (deliver_all_cons _ _ _ _ Hdel2) as (h3 & Hend & Hdel3). injection Hdel3 as ->.
  assert (Hi' : idle e h d ("("%char :: op ++ concat (map arg_text args) ++ ")"%char :: rest) s).
  { cbn [print app] in Hi. by rewrite <- !app_assoc in Hi. }
  destruct (op_run b op e h h1 d _ s Hd Hne Hp Hop Hbegin Hi') as (s1 & G1 & Hs1).
  destruct (args_run b args e h1 h2 (d + 1) _ s1 Hruns Hok ltac:(lia) Hargs Hs1) as (s2 & G2 & Hs2).
  exists h2, s2. split; [|by split].
  replace (pred (length (print (ECall op args))))
    with (S (length op) + length (concat (map arg_text args)))%nat.
  - by apply (steps_trans b _ _ _ s1).
  - cbn [print length pred]. rewrite !length_app. fold arg_text. cbn [length]. unfold arg_text. lia.
Qed.

Lemma int_str_plain v : in_s 64 v -> forallb plain (int_str v) = true.
Proof.
  intros Hv. apply forallb_forall. intros c Hc.
  assert (Hd : forall d, is_digit d = true -> plain d = true).
  { intros d Hd. apply is_digit_spec in Hd. unfold plain. apply negb_true_iff.
    rewrite !orb_false_iff, !Ascii.eqb_neq.
    repeat split; intros ->; revert Hd; vm_compute; intros [? ?]; done. }
  assert (Hu : forall u, 0 <= u -> In c (uint_str u) -> plain c = true).
  { intros u Hu Hin. apply Hd. exact (proj1 (List.Forall_forall _ _) (uint_str_digits u Hu) c Hin). }
  unfold int_str in Hc. destruct (v <? 0) eqn:E; bool_hyps.
  - destruct Hc as [<-|Hc]; [done|]. by apply (Hu (- v) ltac:(lia)).
  - by apply (Hu v).
Qed.

Lemma int_str_nonempty v : int_str v <> [].
Proof. unfold int_str. case_goal; [done|apply uint_str_nonempty]. Qed.

Lemma sexp_arg_runs x : arg_runs x.
Proof.
  induction x as [v|cs|cs|op args IH] using sexp_ind'; intros b e h h' d rest s Hok Hd Hdel Hi.
  - apply (value_run b (int_str v) e h h' d rest s); try done.
    { apply int_str_nonempty. } { by apply int_str_plain. }
    intros st <-. unfold FinalizeValue. pose proof (parse_int_str v Hok) as Hp.
    destruct (int_str v) eqn:E; [by apply int_str_nonempty in E|]. rewrite Hp.
    cbn in Hdel. unfold handled. destruct (LexerIntValue v (handler_ st)) as [[|[]] ?]; [done|].
    by injection Hdel as ->.
  - cbn in Hdel. destruct (LexerStrValue cs h) as [[|[]] h1] eqn:Eh; [done|]. injection Hdel as ->.
    destruct (str_value_run b cs e h h' d rest s Hd Hok Eh Hi) as (s' & G & Hi').
    exists s'. split; [done|by apply idle_settles].
  - destruct Hok as (Hne & Hp & H1 & H2). apply (value_run b cs e h h' d rest s); try done.
    intros st <-. unfold FinalizeValue. destruct cs as [|c cs]; [done|]. rewrite H1, H2.
    cbn in Hdel. unfold handled. destruct (LexerUnhandledValue (c :: cs) (handler_ st)) as [[|[]] ?]; [done|].
    by injection Hdel as ->.
  - destruct (call_run b op args e h h' d rest s IH Hok ltac:(lia) Hdel Hi) as (h2 & s2 & G & Hs & Hend).
    destruct (close_turn e h2 h' (d + 1) rest s2 Hs Hend ltac:(lia)) as (s3 & Hi3 & Ht).
    rewrite Z.add_simpl_r in Hi3. exists s3. split; [|by apply idle_settles].
    replace (length (print (ECall op args))) with (pred (length (print (ECall op args))) + 1)%nat
      by (cbn; lia).
    apply (steps_trans b _ _ _ s2); [done|]. destruct Hs.
    apply (turn_steps b ")"%char rest); [done|done|]. intros fuel. rewrite Ht.
    assert ((d + 1 - 1 =? 0) = false) as -> by (apply Z.eqb_neq; lia). by rewrite andb_false_r.
Qed.

(** White space between expressions. *)
Definition is_blank (c : ascii) : bool := (c =c c_space) || (c =c c_tab) || (c =c c_cr) || (c =c c_lf).

Lemma blanks_run b cs e h d rest s :
  forallb is_blank cs = true -> idle e h d (cs ++ rest) s ->
  exists s', steps b (length cs) s s' /\ idle e h d rest s'.
Proof.
  revert s. induction cs as [|c cs IH]; intros s Hb Hi; [exists s; split; [apply steps_0|done]|].
  cbn in Hb. apply andb_true_iff in Hb as [Hc Hb].
  assert (Hs : exists s1, steps b 1 s s1 /\ idle e h d (cs ++ rest) s1).
  { destruct Hi as [lst l o]. destruct (c =c c_lf) eqn:El.
    - apply Ascii.eqb_eq in El as ->. exists (MkLexer h e (MkText (cs ++ rest) c_lf None) (S l) 0 d false false kValue).
      split; [|constructor]. by apply (turn_steps b c_lf (cs ++ rest)).
    - exists (MkLexer h e (MkText (cs ++ rest) c None) l (S o) d false false kValue). split; [|constructor].
      assert (Hc' : c = c_space \/ c = c_tab \/ c = c_cr).
      { unfold is_blank in Hc. rewrite El, orb_false_r in Hc. rewrite !orb_true_iff, !Ascii.eqb_eq in Hc. tauto. }
      destruct Hc' as [->|[->| ->]]; [apply (turn_steps b c_space (cs ++ rest))|apply (turn_steps b c_tab (cs ++ rest))|
        apply (turn_steps b c_cr (cs ++ rest))]; done. }
  destruct Hs as (s1 & G & Hi1). destruct (IH s1 Hb Hi1) as (s2 & G2 & Hi2). exists s2. split; [|done].
  exact (steps_trans b 1 _ _ _ _ G G2).
Qed.

Lemma lex_print_call cs op args fuel (h h' : T) rest :
  forallb is_blank cs = true -> sexp_ok (ECall op args) ->
  deliver_all (events (ECall op args)) h = (Right tt, h') ->
  (length (cs ++ print (ECall op args)) <= fuel)%nat ->
  exists s', LexerRun fuel true h (text_start (cs ++ print (ECall op args) ++ rest)) = Some (Right tt, s') /\
    handler_ s' = h' /\ tc_rest (source_ s') = rest /\ tc_eof (source_ s') = false.
Proof.
  intros Hcs Hok Hdel Hf. unfold LexerRun. set (e := StrBuilderNew 64).
  set (s0 := MkLexer _ _ _ _ _ _ _ _ _).
  destruct (blanks_run true cs e h 0 (print (ECall op args) ++ rest) s0 Hcs ltac:(constructor)) as (s & G0 & Hi).
  assert (Hruns : Forall arg_runs args) by (apply Forall_forall; intros; apply sexp_arg_runs).
  destruct (call_run true op args e h h' 0 rest s Hruns Hok ltac:(lia) Hdel Hi) as (h2 & s2 & G & Hs & Hend).
  destruct (close_turn e h2 h' 1 rest s2 Hs Hend ltac:(lia)) as (s3 & Hi3 & Ht).
  exists s3. assert (Hlen : (0 < length (print (ECall op args)))%nat) by (cbn; lia). rewrite length_app in Hf.
  replace fuel with (length cs + (pred (length (print (ECall op args))) +
    S (fuel - length cs - length (print (ECall op args)))))%nat by lia.
  rewrite G0, G. split; [|by destruct Hi3]. destruct Hs.
  apply (turn_return true ")"%char rest); [done|done|]. intros f. by rewrite Ht.
Qed.

(** A text of nothing but white space. *)
Lemma lex_blanks b cs fuel (h : T) :
  forallb is_blank cs = true -> (length cs < fuel)%nat ->
  exists s', LexerRun fuel b h (text_start cs) = Some (Right tt, s') /\
    handler_ s' = h /\ tc_rest (source_ s') = [] /\ tc_eof (source_ s') = true.
Proof.
  intros Hcs Hf. unfold LexerRun. set (e := StrBuilderNew 64). set (s0 := MkLexer _ _ _ _ _ _ _ _ _).
  destruct (blanks_run b cs e h 0 [] s0 Hcs) as (s & G & Hi).
  { unfold s0, text_start. rewrite app_nil_r. constructor. }
  replace fuel with (length cs + S (fuel - S (length cs)))%nat by lia. rewrite G.
  destruct Hi as [lst l o]. eexists. split; [reflexivity|]. done.
Qed.

(** A whole call at the top level of a text with more expressions behind it. *)
Lemma call_step op args e h h' rest s :
  sexp_ok (ECall op args) -> deliver_all (events (ECall op args)) h = (Right tt, h') ->
  idle e h 0 (print (ECall op args) ++ rest) s ->
  exists s', steps false (length (print (ECall op args))) s s' /\ idle e h' 0 rest s'.
Proof.
  intros Hok Hdel Hi.
  assert (Hruns : Forall arg_runs args) by (apply Forall_forall; intros; apply sexp_arg_runs).
  destruct (call_run false op args e h h' 0 rest s Hruns Hok ltac:(lia) Hdel Hi) as (h2 & s2 & G & Hs & Hend).
  destruct (close_turn e h2 h' 1 rest s2 Hs Hend ltac:(lia)) as (s3 & Hi3 & Ht).
  exists s3. split; [|done].
  replace (length (print (ECall op args))) with (pred (length (print (ECall op args))) + 1)%nat by (cbn; lia).
  apply (steps_trans false _ _ _ s2); [done|]. destruct Hs.
  apply (turn_steps false ")"%char rest); [done|done|]. intros fuel. by rewrite Ht.
Qed.

(** A text of expressions, one per line. *)
Definition print_line (x : bytes * list sexp) : bytes := print (ECall (fst x) (snd x)) ++ [c_lf].

Lemma lines_run es e h h' s :
  Forall (fun x => sexp_ok (ECall (fst x) (snd x))) es ->
  deliver_all (concat (map (fun x => events (ECall (fst x) (snd x))) es)) h = (Right tt, h') ->
  idle e h 0 (concat (map print_line es)) s ->
  exists s', steps false (length (concat (map print_line es))) s s' /\ idle e h' 0 [] s'.
Proof.
  intros Hok. revert h s. induction Hok as [|[op args] es Hx _ IH]; intros h s Hdel Hi; cbn [map concat] in *.
  { injection Hdel as <-. exists s. split; [apply steps_0|done]. }
  destruct (deliver_all_app _ _ _ _ Hdel) as (h1 & Hd1 & Hd2). unfold print_line at 1 in Hi. cbn [fst snd] in *.
  rewrite <- !app_assoc in Hi. destruct (call_step op args e h h1 _ s Hx Hd1 Hi) as (s1 & G1 & Hi1).
  destruct (blanks_run false [c_lf] e h1 0 _ s1 eq_refl Hi1) as (s2 & G2 & Hi2).
  destruct (IH h1 s2 Hd2 Hi2) as (s3 & G3 & Hi3). exists s3. split; [|done].
  unfold print_line at 1. cbn [fst snd]. rewrite !length_app.
  apply (steps_trans false _ _ _ s2); [|done]. by apply (steps_trans false _ _ _ s1).
Qed.

Lemma lex_printed_lines es fuel (h h' : T) :
  Forall (fun x => sexp_ok (ECall (fst x) (snd x))) es ->
  deliver_all (concat (map (fun x => events (ECall (fst x) (snd x))) es)) h = (Right tt, h') ->
  (length (concat (map print_line es)) < fuel)%nat ->
  exists s', LexerRun fuel false h (text_start (concat (map print_line es))) = Some (Right tt, s') /\
    handler_ s' = h'.
Proof.
  intros Hok Hdel Hf. unfold LexerRun. set (e := StrBuilderNew 64). set (s := MkLexer _ _ _ _ _ _ _ _ _).
  destruct (lines_run es e h h' s Hok Hdel ltac:(constructor)) as (s' & G & Hi).
  replace fuel with (length (concat (map print_line es)) + S (fuel - S (length (concat (map print_line es)))))%nat by lia.
  rewrite G. destruct Hi as [lst l o]. eexists. split; [reflexivity|]. done.
Qed.
End LexPrint.

(** C9. Print/lex round trip: lexing the canonical text of an expression (any
    nesting, with escaped strings, integers, names), with any white space
    before it, calls the handler with exactly the expression's events in order,
    succeeds, and stops right behind the expression. *)
Theorem lex_printed_expression {T : Type} `{LexerHandler T, LexerPayload T TextCursor}
    (blanks op : bytes) (args : list sexp) (fuel : nat) (h h' : T) (rest : bytes) :
  forallb is_blank blanks = true -> sexp_ok (ECall op args) ->
  deliver_all (events (ECall op args)) h = (Right tt, h') ->
  (length (blanks ++ print (ECall op args)) <= fuel)%nat ->
  exists s', LexerRun fuel true h (text_start (blanks ++ print (ECall op args) ++ rest)) = Some (Right tt, s') /\
    handler_ s' = h' /\ tc_rest (source_ s') = rest /\ tc_eof (source_ s') = false.
Proof. apply lex_print_call. Qed.

Lemma lex_printed_expression_witness :
  let args := [EInt (-7); EStr (c_quote :: lit "a b"); ECall (lit "f") [EName (lit "x1")]] in
  print (ECall (lit "list") args) =
    lit "(list -7 " ++ [c_quote; c_backslash; c_quote] ++ lit "a b" ++ [c_quote] ++ lit " (f x1))" /\
  exists s', LexerRun 60 true ([] : Trace) (text_start ([c_lf; c_space] ++ print (ECall (lit "list") args) ++ lit "(g)"))
      = Some (Right tt, s') /\
    rev (handler_ s') =
      [EvBegin (lit "list"); EvInt (-7); EvStr (c_quote :: lit "a b"); EvBegin (lit "f");
       EvName (lit "x1"); EvEnd; EvEnd] /\ tc_rest (source_ s') = lit "(g)".
Proof.
  intros args. split; [reflexivity|].
  destruct (lex_printed_expression [c_lf; c_space] (lit "list") args 60 ([] : Trace)
    (rev (events (ECall (lit "list") args))) (lit "(g)")) as (s' & E & Hh & Hr & _).
  - reflexivity.
  - repeat split; try done.
  - reflexivity.
  - vm_compute. lia.
  - exists s'. rewrite Hh. by repeat split.
Defined.
