(* ===== verification/Config.v ===== *)
(** [config/] and [base/fileutils]: configuration files and arguments.

    A configuration is a map from dotted keys to non-empty lists of values,
    built by a lexer handler ([ConfigParser]) from nested S-expressions.  A
    value node's list is a Rocq list, the head node being the map's value; the
    parser's list is empty when [cur_value_last_] is null.  The file system is
    a function from paths to what opening them gives. *)
From S2P Require Import Prelude Either StrBuild CLib Stream Lexer.
Local Open Scope Z_scope.

(** * Values *)

(** source/config/config_detail.h:14-14 [ConfigValue] *)
Inductive ConfigValue :=
| VNone
| VInt (i : Z)
| VDouble (d : double)
| VBool (b : bool)
| VString (s : bytes).

(** source/config/config.h:19-24 [ConfigLoadError] *)
Inductive ConfigLoadError := FileNotFound | ConfigIOError | InvalidArgs | SyntaxError.

(** source/config/config.h:27-30 [ConfigKeyError] *)
Inductive ConfigKeyError := DoesNotExist | InvalidType.

(** What [strcmp] sees of a text. *)
Fixpoint c_text (s : bytes) : bytes :=
  match s with [] => [] | c :: s => if c =c c_nul then [] else c :: c_text s end.

(** [hash] is the library's hash of a text. *)
(** source/config/config_detail.h:75-79 [ConfigKeyHasher] *)
Definition ConfigKeyHasher (hash : bytes -> Z) (str : bytes) : Z := hash str.

(** source/config/config_detail.h:80-84 [ConfigKeyEqual] *)
Definition ConfigKeyEqual (a b : bytes) : bool := bool_decide (c_text a = c_text b).

Lemma c_text_id s : c_nul ∉ s -> c_text s = s.
Proof.
  induction s as [|c s IH]; [done|]. intros [Hc Hs]%not_elem_of_cons. cbn. destruct (Ascii.eqb_spec c c_nul) as [->|_]; [done|]. by rewrite IH.
Qed.

(** On keys without a zero, as the lexer and the command line give them, equal
    is the same and has the same hash; a key with a zero can be equal to
    another one and have another hash. *)
Lemma config_keys_are_texts hash a b : c_nul ∉ a -> c_nul ∉ b ->
  (ConfigKeyEqual a b = true <-> a = b) /\ (ConfigKeyEqual a b = true -> ConfigKeyHasher hash a = ConfigKeyHasher hash b) /\
  ConfigKeyEqual (a ++ [c_nul]) a = true.
Proof.
  intros Ha Hb. unfold ConfigKeyEqual. rewrite !bool_decide_eq_true, (c_text_id a), (c_text_id b) by done.
  split; [done|]. split; [by intros ->|]. clear Hb. induction a as [|c a IH]; [done|]. apply not_elem_of_cons in Ha as [Hc Ha]. cbn.
  destruct (Ascii.eqb_spec c c_nul) as [->|_]; [done|]. by rewrite IH.
Qed.

(** [ConfigMap]; its keys have no zeros. *)
Abbreviation ConfigMap := (gmap bytes (list ConfigValue)).

(** Index check and conversion of a value to a type [T]. *)
(** source/config/config_detail.h:25-64 [ConfigTypeIndex<int>] *)
Definition as_int (v : ConfigValue) : option Z := match v with VInt i => Some (wrap_s 32 i) | _ => None end.
(** source/config/config_detail.h:25-64 [ConfigTypeIndex<int64_t>] *)
Definition as_int64 (v : ConfigValue) : option Z := match v with VInt i => Some i | _ => None end.
(** source/config/config_detail.h:25-64 [ConfigTypeIndex<size_t>] *)
Definition as_size (v : ConfigValue) : option Z := match v with VInt i => Some (u64 i) | _ => None end.
(** source/config/config_detail.h:25-64 [ConfigTypeIndex<double>] *)
Definition as_double (v : ConfigValue) : option double := match v with VDouble d => Some d | _ => None end.
(** source/config/config_detail.h:25-64 [ConfigTypeIndex<bool>] *)
Definition as_bool (v : ConfigValue) : option bool := match v with VBool b => Some b | _ => None end.
(** source/config/config_detail.h:25-64 [ConfigTypeIndex<CStrSpan>] *)
Definition as_str (v : ConfigValue) : option bytes := match v with VString s => Some s | _ => None end.

(** The loop that copies [cur] into the nodes of [cloned]: a further node is
    allocated for every further value, and the [next_] of the last one is left
    as it is. *)
(** source/config/config_detail.cc:47-66 [ConfigValueNode::CloneNode] *)
Fixpoint CloneNode (cur cloned : list ConfigValue) : list ConfigValue :=
  match cur with
  | [] => cloned
  | v :: cur' =>
      v :: match cur' with
           | [] => tail cloned
           | _ => CloneNode cur' [VNone]
           end
  end.

(** source/config/config.cc:342-350 [Config::MergeValues] *)
Definition MergeValues (left right : ConfigMap) : ConfigMap :=
  map_fold (fun key node left => <[key := CloneNode node (default [VNone] (left !! key))]> left) left right.

(** source/config/config.cc:352-355 [Config::Merge] *)
Definition Merge (left right : ConfigMap) : ConfigMap := MergeValues left right.

(** * Lookup *)

(** source/config/config.h:251-262 [Config::Get] *)
Definition Get {A} (conv : ConfigValue -> option A) (key : bytes) (conf : ConfigMap) : Either ConfigKeyError A :=
  match conf !! c_str key with
  | None => Left DoesNotExist
  | Some node =>
      match node with
      | v :: _ => match conv v with Some a => Right a | None => Left InvalidType end
      | [] => Left InvalidType
      end
  end.

(** source/config/config.cc:333-340 [Config::GetList] *)
Definition GetList (key : bytes) (conf : ConfigMap) : Either ConfigKeyError (list ConfigValue) :=
  match conf !! c_str key with
  | None => Left DoesNotExist
  | Some node => Right node
  end.

(** source/config/config.h:223-249 [ConfigList::AsArray] *)
Definition AsArray {A} (conv : ConfigValue -> option A) (values : list ConfigValue) : option (list A) :=
  (fix count (vs : list ConfigValue) : option (list A) :=
     match vs with
     | [] => Some []
     | v :: vs' =>
         match conv v with
         | None => None
         | Some a => option_map (cons a) (count vs')
         end
     end) values.

(** * fileutils *)

(** The length of the path up to its last separator. *)
(** source/base/fileutils.cc:21-25 [fileutils::ReplaceFilename] *)
Fixpoint dir_size (rev_path : bytes) : nat :=
  match rev_path with
  | [] => 0
  | c :: rest => if c =c "/" then length rev_path else dir_size rest
  end.

(** source/base/fileutils.cc:9-30 [fileutils::ReplaceFilename] *)
Definition ReplaceFilename (path new_filename : bytes) : bytes :=
  if bool_decide (path = lit ".") || bool_decide (path = lit "~") || bool_decide (path = lit "..") then
    path ++ lit "/" ++ new_filename
  else take (dir_size (rev path)) path ++ new_filename.

(** * The parser *)

(** [include_] is what [Config::LoadFromFile] gives for a path. *)
(** source/config/config.cc:230-239 [ConfigParser] *)
Record ConfigParser := MkParser {
  config_map_ : ConfigMap;
  source_path_ : bytes;
  cur_key_ : bytes;
  cur_key_stack_ : list nat;
  cur_values_ : list ConfigValue;
  is_nested_list_ : bool;
  include_ : bytes -> Either ConfigLoadError ConfigMap
}.

(** source/config/config.cc:75-86 [ConfigParser::ConfigParser] *)
Definition ParserNew (source_path : bytes) (include : bytes -> Either ConfigLoadError ConfigMap) : ConfigParser :=
  MkParser empty source_path [] [] [] false include.

Definition with_values (vs : list ConfigValue) (p : ConfigParser) : ConfigParser :=
  MkParser (config_map_ p) (source_path_ p) (cur_key_ p) (cur_key_stack_ p) vs (is_nested_list_ p) (include_ p).
Definition with_map (m : ConfigMap) (p : ConfigParser) : ConfigParser :=
  MkParser m (source_path_ p) (cur_key_ p) (cur_key_stack_ p) (cur_values_ p) (is_nested_list_ p) (include_ p).

(** source/config/config.cc:90-101 [ConfigParser::LexerBeginOp] *)
Definition ConfigBeginOp (key : bytes) (p : ConfigParser) : Either bytes unit * ConfigParser :=
  match cur_values_ p with
  | _ :: _ => (Left (lit "Invalid list. Lists cannot have nested keys."), p)
  | [] =>
      (Right tt, MkParser (config_map_ p) (source_path_ p) (cur_key_ p ++ "."%char :: key)
         (length (cur_key_ p) :: cur_key_stack_ p) [] false (include_ p))
  end.

(** The values [@locate] and [@include] loop over: the head node is there even
    when no value was added. *)
Definition value_nodes (p : ConfigParser) : list ConfigValue :=
  match cur_values_ p with [] => [VNone] | vs => vs end.

(** source/config/config.cc:113-123 [ConfigParser::LexerEndOp] *)
Fixpoint locate_values (source_path : bytes) (vs : list ConfigValue) : option (list ConfigValue) :=
  match vs with
  | [] => Some []
  | VString s :: vs' =>
      option_map (cons (VString (ReplaceFilename source_path s))) (locate_values source_path vs')
  | _ :: _ => None
  end.

(** source/config/config.cc:130-143 [ConfigParser::LexerEndOp] *)
Fixpoint include_values (load : bytes -> Either ConfigLoadError ConfigMap) (vs : list ConfigValue) (m : ConfigMap)
    : Either bytes ConfigMap :=
  match vs with
  | [] => Right m
  | VString s :: vs' =>
      match load (c_str s) with
      | Left _ => Left (lit "Failed to load config")
      | Right loaded => include_values load vs' (MergeValues m loaded)
      end
  | _ :: _ => Left (lit "Invalid include filename. Should be a string.")
  end.

(** [emplace] keeps an entry that is already there. *)
Definition emplace (key : bytes) (node : list ConfigValue) (m : ConfigMap) : ConfigMap :=
  match m !! key with Some _ => m | None => <[key := node]> m end.

(** The end of [LexerEndOp]: back to the enclosing key. *)
(** source/config/config.cc:160-163 [ConfigParser::LexerEndOp] *)
Definition pop_key (top : nat) (stack : list nat) (p : ConfigParser) : Either bytes unit * ConfigParser :=
  (Right tt, MkParser (config_map_ p) (source_path_ p) (take top (cur_key_ p)) stack (cur_values_ p)
     (negb (bool_decide (stack = []))) (include_ p)).

(** The key stack is empty only when the key is. *)
(** source/config/config.cc:103-164 [ConfigParser::LexerEndOp] *)
Definition ConfigEndOp (p : ConfigParser) : Either bytes unit * ConfigParser :=
  match cur_key_ p, cur_key_stack_ p with
  | [], _ | _, [] => (Left (lit "No key"), p)
  | key, top :: stack =>
      let cur_op := drop (S top) key in
      if bool_decide (cur_op = lit "@locate") then
        match locate_values (source_path_ p) (value_nodes p) with
        | None => (Left (lit "Expected filename string for @locate."), p)
        | Some vs => pop_key top stack (with_values vs p)
        end
      else if bool_decide (cur_op = lit "@include") then
        if bool_decide (stack <> []) then (Left (lit "@include is expected at top level"), p)
        else
          match include_values (include_ p) (value_nodes p) (config_map_ p) with
          | Left msg => (Left msg, p)
          | Right m => pop_key top stack (with_values [] (with_map m p))
          end
      else if bool_decide (head cur_op = Some "@"%char) then (Left (lit "Unknown directive."), p)
      else
        match cur_values_ p with
        | [] | VNone :: _ => pop_key top stack (with_values [] p)
        | vs => pop_key top stack (with_values [] (with_map (emplace (c_str (tail key)) vs (config_map_ p)) p))
        end
  end.

(** [AddValue] and the assignment to the new node. *)
(** source/config/config.cc:166-180 [ConfigParser::AddValue] *)
Definition AddValue (v : ConfigValue) (p : ConfigParser) : ConfigParser := with_values (cur_values_ p ++ [v]) p.

Definition nested_lists : Either bytes unit := Left (lit "Nested lists are not allowed in config").

(** source/config/config.cc:182-189 [ConfigParser::LexerStrValue] *)
Definition ConfigStrValue (value : bytes) (p : ConfigParser) : Either bytes unit * ConfigParser :=
  if is_nested_list_ p then (nested_lists, p) else (Right tt, AddValue (VString value) p).

(** A name that is no boolean goes on to [LexerStrValue] behind the node that
    was added for it. *)
(** source/config/config.cc:191-205 [ConfigParser::LexerUnhandledValue] *)
Definition ConfigUnhandledValue (value : bytes) (p : ConfigParser) : Either bytes unit * ConfigParser :=
  if is_nested_list_ p then (nested_lists, p)
  else if bool_decide (value = lit "yes") || bool_decide (value = lit "Yes") then (Right tt, AddValue (VBool true) p)
  else if bool_decide (value = lit "no") || bool_decide (value = lit "No") then (Right tt, AddValue (VBool false) p)
  else ConfigStrValue value (AddValue VNone p).

(** source/config/config.cc:207-214 [ConfigParser::LexerIntValue] *)
Definition ConfigIntValue (value : Z) (p : ConfigParser) : Either bytes unit * ConfigParser :=
  if is_nested_list_ p then (nested_lists, p) else (Right tt, AddValue (VInt value) p).

(** source/config/config.cc:216-223 [ConfigParser::LexerDoubleValue] *)
Definition ConfigDoubleValue (value : double) (p : ConfigParser) : Either bytes unit * ConfigParser :=
  if is_nested_list_ p then (nested_lists, p) else (Right tt, AddValue (VDouble value) p).

#[export] Instance ConfigParser_handler : LexerHandler ConfigParser := {
  LexerBeginOp := ConfigBeginOp;
  LexerEndOp := ConfigEndOp;
  LexerStrValue := ConfigStrValue;
  LexerIntValue := ConfigIntValue;
  LexerDoubleValue := ConfigDoubleValue;
  LexerUnhandledValue := ConfigUnhandledValue
}.

(** source/config/config.cc:225-227 [ConfigParser::LexerCustomData] *)
#[export] Instance ConfigParser_payload {C} : LexerPayload ConfigParser C :=
  fun _ p c => (Left (lit "No custom data is allowed in config"), p, c).

(** * Loading *)

(** source/config/config.cc:315-331 [Config::LoadFromStream] *)
Definition LoadFromStream {S} `{InStream S} (fuel : nat) (name : bytes)
    (include : bytes -> Either ConfigLoadError ConfigMap) (reader : StreamReader S)
    : option (Either ConfigLoadError ConfigMap) :=
  match RunStream fuel (ParserNew name include) reader false with
  | None => None
  | Some (Left _, _) => Some (Left SyntaxError)
  | Some (Right _, st) => Some (Right (config_map_ (handler_ st)))
  end.

(** source/config/config.cc:309-313 [Config::LoadFromBuffer] *)
Definition LoadFromBuffer (fuel : nat) (include : bytes -> Either ConfigLoadError ConfigMap) (buffer : bytes)
    : option (Either ConfigLoadError ConfigMap) :=
  LoadFromStream fuel (lit "n/a") include (ReaderNewAvailable buffer (tt : DummyInStream) (length buffer)).

(** Files that include each other deeper than [depth] have no result, and are
    reported as not loaded one level up. *)
(** source/config/config.cc:257-273 [Config::LoadFromFile] *)
Fixpoint LoadFromFile (depth fuel : nat) (open : bytes -> option InFileStream) (path : bytes)
    : option (Either ConfigLoadError ConfigMap) :=
  match depth with
  | O => None
  | S depth' =>
      match open path with
      | None => Some (Left FileNotFound)
      | Some file_stream =>
          LoadFromStream fuel path
            (fun p => default (Left FileNotFound) (LoadFromFile depth' fuel open p))
            (ReaderNew (replicate 512 c_nul) file_stream)
      end
  end.

(** source/config/config.cc:19-40 [CheckArg] *)
Definition CheckArg (arg : bytes) : bool :=
  match arg with
  | [] => false
  | _ => forallb (fun c => negb ((c =c c_space) || (c =c c_tab) || (c =c c_lf) || (c =c c_cr) || (c =c c_ff)
                   || (c =c c_vt) || (c =c "(") || (c =c ")"))) arg
  end.

(** source/config/config.cc:42-61 [MakeSlangExprFromArgs] *)
Definition MakeSlangExprFromArgs (key value buf : bytes) : option bytes :=
  if negb (CheckArg key) then None
  else if negb (CheckArg value) then None
  else Some (buf ++ lit "(" ++ key ++ lit " " ++ value ++ lit ")" ++ [c_lf]).

(** source/config/config.cc:278-304 [Config::LoadFromArgs] *)
Fixpoint args_text (argv : list bytes) (temp_buf : bytes) : option bytes :=
  match argv with
  | [] => Some temp_buf
  | key :: argv1 =>
      match key with
      | c :: key' =>
          if c =c "/" then
            match key', argv1 with
            | [], _ | _, [] => None
            | _, value :: argv2 =>
                match MakeSlangExprFromArgs key' value temp_buf with
                | None => None
                | Some buf => args_text argv2 buf
                end
            end
          else args_text argv1 temp_buf
      | [] => args_text argv1 temp_buf
      end
  end.

(** source/config/config.cc:275-307 [Config::LoadFromArgs] *)
Definition LoadFromArgs (fuel : nat) (include : bytes -> Either ConfigLoadError ConfigMap) (argv : list bytes)
    : option (Either ConfigLoadError ConfigMap) :=
  match args_text argv [] with
  | None => Some (Left InvalidArgs)
  | Some temp_buf => LoadFromBuffer fuel include temp_buf
  end.
