(* ===== verification/ConfigProps.v ===== *)
(** What configurations mean: loading the text of a tree of keys gives its
    flattened map, merging, lookup, and the arguments of the command line. *)
From S2P Require Import Prelude Either StrBuild CLib Stream Lexer LexerSim Syntax Config.
Local Open Scope Z_scope.

(** * Configuration trees *)

(** A value as it is written. *)
Inductive conf_value :=
| CfInt (v : Z)
| CfStr (s : bytes)
| CfBool (b : bool).

#[warnings="-register-all"]
Inductive conf_tree :=
| CfLeaf (key : bytes) (values : list conf_value)
| CfNode (key : bytes) (children : list conf_tree).

Section TreeInd.
  Context (P : conf_tree -> Prop).
  Hypothesis HLeaf : forall k vs, P (CfLeaf k vs).
  Hypothesis HNode : forall k ts, Forall P ts -> P (CfNode k ts).

Fixpoint conf_tree_ind' (t : conf_tree) : P t :=
  match t with
  | CfLeaf k vs => HLeaf k vs
  | CfNode k ts =>
      HNode k ts
        ((fix go (l : list conf_tree) : Forall P l :=
            match l with
            | [] => Forall_nil_2 P
            | a :: l' => Forall_cons_2 P a l' (conf_tree_ind' a) (go l')
            end) ts)
  end.
End TreeInd.

Definition value_sexp (v : conf_value) : sexp :=
  match v with
  | CfInt z => EInt z
  | CfStr s => EStr s
  | CfBool b => EName (if b then lit "yes" else lit "no")
  end.

Definition config_value (v : conf_value) : ConfigValue :=
  match v with CfInt z => VInt z | CfStr s => VString s | CfBool b => VBool b end.

Fixpoint tree_call (t : conf_tree) : bytes * list sexp :=
  match t with
  | CfLeaf k vs => (k, map value_sexp vs)
  | CfNode k ts => (k, map (fun t => ECall (fst (tree_call t)) (snd (tree_call t))) ts)
  end.

Definition tree_sexp (t : conf_tree) : sexp := ECall (fst (tree_call t)) (snd (tree_call t)).

(** The dotted keys with their values, in the order of the text. *)
Definition dotted (prefix key : bytes) : bytes :=
  match prefix with [] => key | _ => prefix ++ "."%char :: key end.

Fixpoint entries (prefix : bytes) (t : conf_tree) : list (bytes * list ConfigValue) :=
  match t with
  | CfLeaf k vs => match vs with [] => [] | _ => [(dotted prefix k, map config_value vs)] end
  | CfNode k ts => concat (map (entries (dotted prefix k)) ts)
  end.

(** The first entry of a key wins. *)
Definition add_entries (es : list (bytes * list ConfigValue)) (m : ConfigMap) : ConfigMap :=
  fold_left (fun m kv => emplace (fst kv) (snd kv) m) es m.

Definition key_ok (k : bytes) : Prop :=
  k <> [] /\ forallb plain k = true /\ LexerCheckOpName k = true /\ head k <> Some "@"%char.

Definition value_ok (v : conf_value) : Prop :=
  match v with
  | CfInt z => in_s 64 z
  | CfStr s => forallb (fun c => negb (c =c c_nul)) s = true
  | CfBool _ => True
  end.

Fixpoint tree_ok (t : conf_tree) : Prop :=
  match t with
  | CfLeaf k vs => key_ok k /\ Forall value_ok vs
  | CfNode k ts => key_ok k /\ foldr (fun t P => tree_ok t /\ P) True ts
  end.

Lemma tree_ok_children ts : foldr (fun t P => tree_ok t /\ P) True ts <-> Forall tree_ok ts.
Proof.
  induction ts as [|t ts IH]; cbn; [done|]. rewrite IH. split; [by intros []; constructor|]. by inversion 1.
Qed.

Lemma value_sexp_ok v : value_ok v -> sexp_ok (value_sexp v).
Proof. destruct v as [z|s|[]]; cbn; [done|done|intros _|intros _]; repeat split; try done; vm_compute; done. Qed.

Lemma tree_sexp_ok t : tree_ok t -> sexp_ok (tree_sexp t).
Proof.
  induction t as [k vs|k ts IH] using conf_tree_ind'; cbn -[sexp_ok]; intros [(H1 & H2 & H3 & _) Hc].
  - split; [done|]. split; [done|]. split; [done|]. apply sexp_ok_args, Forall_map.
    eapply Forall_impl; [|exact Hc]. intros v. apply value_sexp_ok.
  - apply tree_ok_children in Hc. split; [done|]. split; [done|]. split; [done|]. apply sexp_ok_args, Forall_map.
    apply List.Forall_forall. intros t Hin. rewrite List.Forall_forall in IH, Hc. by apply IH, Hc.
Qed.

(** * The parser on a tree *)

(** A key as [cur_key_] holds it, with its leading dot. *)
Definition raw (prefix : bytes) : bytes := match prefix with [] => [] | _ => "."%char :: prefix end.

Lemma raw_dotted prefix k : k <> [] -> raw (dotted prefix k) = raw prefix ++ "."%char :: k.
Proof. destruct prefix; [by destruct k|]. done. Qed.

Lemma dotted_nonempty prefix k : k <> [] -> dotted prefix k <> [].
Proof. by destruct prefix, k. Qed.

Definition no_nul (s : bytes) : Prop := Forall (fun c => (c =c c_nul) = false) s.

Lemma c_str_no_nul s : no_nul s -> c_str s = s.
Proof. intros H. apply take_while_all_nil. eapply Forall_impl; [|exact H]. cbn. by intros c ->. Qed.

Lemma plain_no_nul s : forallb plain s = true -> no_nul s.
Proof.
  intros H. apply List.Forall_forall. intros c Hc. rewrite forallb_forall in H. by destruct (plain_facts c (H c Hc)).
Qed.

Lemma dotted_no_nul prefix k : no_nul prefix -> no_nul k -> no_nul (dotted prefix k).
Proof.
  intros Hp Hk. unfold dotted, no_nul. destruct prefix; [done|]. apply Forall_app. split; [done|]. by constructor.
Qed.

(** The parser at a key, between values. *)
Definition at_key (p : ConfigParser) (prefix : bytes) (stack : list nat) (m : ConfigMap) (nested : bool)
    : ConfigParser :=
  MkParser m (source_path_ p) (raw prefix) stack [] nested (include_ p).

Lemma begin_at p prefix stack m nested k :
  k <> [] ->
  ConfigBeginOp k (at_key p prefix stack m nested) =
    (Right tt, at_key p (dotted prefix k) (length (raw prefix) :: stack) m false).
Proof. intros Hk. unfold ConfigBeginOp, at_key. cbn. by rewrite raw_dotted. Qed.

Lemma end_at p prefix stack m nested k vs :
  key_ok k -> no_nul prefix -> head vs <> Some VNone ->
  ConfigEndOp (with_values vs (at_key p (dotted prefix k) (length (raw prefix) :: stack) m nested)) =
    (Right tt, at_key p prefix stack
       (match vs with [] => m | _ => emplace (dotted prefix k) vs m end) (negb (bool_decide (stack = [])))).
Proof.
  intros (Hk & Hp & _ & Hat) Hn Hv. unfold ConfigEndOp, at_key. cbn [with_values cur_key_ cur_key_stack_].
  pose proof (raw_dotted prefix k Hk) as Hraw. pose proof (dotted_nonempty prefix k Hk) as Hd.
  assert (Hop : drop (S (length (raw prefix))) (raw (dotted prefix k)) = k).
  { rewrite Hraw. replace (S (length (raw prefix))) with (length (raw prefix) + 1)%nat by lia.
    rewrite <- drop_drop, drop_app_length. done. }
  assert (Htake : take (length (raw prefix)) (raw (dotted prefix k)) = raw prefix) by (rewrite Hraw; apply take_app_length).
  assert (Htail : tail (raw (dotted prefix k)) = dotted prefix k) by (unfold raw; by destruct (dotted prefix k)).
  destruct (raw (dotted prefix k)) as [|c0 key0] eqn:Er; [unfold raw in Er; by destruct (dotted prefix k)|].
  rewrite Hop.
  assert (Hne : forall d, head d = Some "@"%char -> bool_decide (k = d) = false).
  { intros d Hhd. apply bool_decide_false. intros ->. done. }
  rewrite (Hne (lit "@locate")), (Hne (lit "@include")), (bool_decide_false (head k = Some "@"%char)) by done.
  rewrite Htail, c_str_no_nul by (apply dotted_no_nul; [done|by apply plain_no_nul]).
  destruct vs as [|v vs]; [by unfold pop_key; cbn; rewrite Htake|].
  destruct v; try done; unfold pop_key; cbn; by rewrite Htake.
Qed.

Lemma values_at p vs acc :
  is_nested_list_ p = false ->
  deliver_all (concat (map (fun v => events (value_sexp v)) vs)) (with_values acc p) =
    (Right tt, with_values (acc ++ map config_value vs) p).
Proof.
  intros Hn. revert acc. induction vs as [|v vs IH]; intros acc; cbn [map concat]; [by rewrite app_nil_r|].
  assert (E : deliver_all (events (value_sexp v)) (with_values acc p) =
    (Right tt, with_values (acc ++ [config_value v]) p)).
  { destruct v as [z|s|[]]; cbn; unfold ConfigIntValue, ConfigStrValue, ConfigUnhandledValue; cbn; by rewrite Hn. }
  rewrite (deliver_all_app_ok _ _ _ _ E), IH, <- app_assoc. done.
Qed.

Lemma tree_at p prefix stack m nested t :
  tree_ok t -> no_nul prefix ->
  deliver_all (events (tree_sexp t)) (at_key p prefix stack m nested) =
    (Right tt, at_key p prefix stack (add_entries (entries prefix t) m) (negb (bool_decide (stack = [])))).
Proof.
  revert prefix stack m nested. induction t as [k vs|k ts IH] using conf_tree_ind';
    intros prefix stack m nested Hok Hn; cbn in Hok; destruct Hok as [Hk Hc]; pose proof Hk as (Hne & Hpl & _);
    cbn [events tree_sexp tree_call fst snd deliver_all deliver LexerBeginOp ConfigParser_handler];
    rewrite begin_at by done.
  - rewrite map_map. set (q := at_key p (dotted prefix k) _ m false).
    pose proof (values_at q vs [] eq_refl) as Hv. change (with_values [] q) with q in Hv.
    rewrite (deliver_all_app_ok _ _ _ _ Hv). cbn [deliver_all deliver LexerEndOp ConfigParser_handler app].
    unfold q. rewrite end_at; [|done|done|by destruct vs as [|[] ?]]. by destruct vs.
  - rewrite map_map. apply tree_ok_children in Hc.
    assert (Hts : forall ts' m' nested', Forall tree_ok ts' ->
      Forall (fun t => forall prefix stack m nested, tree_ok t -> no_nul prefix ->
        deliver_all (events (tree_sexp t)) (at_key p prefix stack m nested) =
        (Right tt, at_key p prefix stack (add_entries (entries prefix t) m) (negb (bool_decide (stack = []))))) ts' ->
      exists nested'', deliver_all (concat (map (fun t => events (tree_sexp t)) ts'))
        (at_key p (dotted prefix k) (length (raw prefix) :: stack) m' nested') =
      (Right tt, at_key p (dotted prefix k) (length (raw prefix) :: stack)
         (add_entries (concat (map (entries (dotted prefix k)) ts')) m') nested'')).
    { clear -Hn Hpl. induction ts' as [|t ts' IHt]; intros m' nested' Hok Hall; cbn [map concat]; [by exists nested'|].
      inversion Hok; subst. inversion Hall as [|? ? Ht Hts]; subst.
      rewrite (deliver_all_app_ok _ _ _ _ (Ht _ _ m' nested' ltac:(done)
        (dotted_no_nul _ _ Hn (plain_no_nul _ Hpl)))).
      destruct (IHt (add_entries (entries (dotted prefix k) t) m')
        (negb (bool_decide (length (raw prefix) :: stack = []))) ltac:(done) Hts) as [n2 E].
      exists n2. rewrite E. unfold add_entries. by rewrite fold_left_app. }
    destruct (Hts ts m false Hc IH) as [n2 E]. unfold tree_sexp in E.
    rewrite (deliver_all_app_ok _ _ _ _ E). cbn [deliver_all deliver LexerEndOp ConfigParser_handler].
    pose proof (end_at p prefix stack (add_entries (concat (map (entries (dotted prefix k)) ts)) m) n2 k []
      Hk Hn ltac:(done)) as He.
    change (with_values [] ?q) with q in He. by rewrite He.
Qed.

Lemma trees_at p ts m :
  Forall tree_ok ts ->
  exists nested, deliver_all (concat (map (fun t => events (tree_sexp t)) ts)) (at_key p [] [] m false) =
    (Right tt, at_key p [] [] (add_entries (concat (map (entries []) ts)) m) nested).
Proof.
  intros Hok. assert (G : forall n, exists nested,
    deliver_all (concat (map (fun t => events (tree_sexp t)) ts)) (at_key p [] [] m n) =
    (Right tt, at_key p [] [] (add_entries (concat (map (entries []) ts)) m) nested)); [|apply G].
  revert m. induction Hok as [|t ts Ht _ IH]; intros m n; cbn [map concat]; [by exists n|].
  rewrite (deliver_all_app_ok _ _ _ _ (tree_at p [] [] m n t Ht ltac:(constructor))).
  destruct (IH (add_entries (entries [] t) m) (negb (bool_decide (@nil nat = [])))) as [n2 E].
  exists n2. rewrite E. unfold add_entries. by rewrite fold_left_app.
Qed.

(** * Loading text *)

Lemma config_payload_sim {S} `{InStream S} e0 : payload_sim (S:=S) (T:=ConfigParser) e0.
Proof. intros token h c t Hc. done. Qed.

Lemma config_payload_shrinks : payload_shrinks (T:=ConfigParser).
Proof. intros token h t. done. Qed.

(** The text of some trees, one expression per line. *)
Definition tree_lines (ts : list conf_tree) : bytes := concat (map (fun t => print_line (tree_call t)) ts).

Lemma load_trees {S} `{InStreamLaws S} fuel name inc (reader : StreamReader S) ts :
  Forall tree_ok ts -> reader_text reader (tree_lines ts) -> (length (tree_lines ts) < fuel)%nat ->
  LoadFromStream fuel name inc reader = Some (Right (add_entries (concat (map (entries []) ts)) ∅)).
Proof.
  intros Hok Hr Hf. unfold LoadFromStream.
  assert (Ht : tree_lines ts = concat (map print_line (map tree_call ts))) by (unfold tree_lines; by rewrite map_map).
  destruct (trees_at (ParserNew name inc) ts ∅ Hok) as [nested Hd].
  change (at_key (ParserNew name inc) [] [] ∅ false) with (ParserNew name inc) in Hd.
  destruct (lex_printed_lines (map tree_call ts) fuel (ParserNew name inc)
    (at_key (ParserNew name inc) [] [] (add_entries (concat (map (entries []) ts)) ∅) nested)) as (s2 & E2 & Hh2).
  - apply Forall_map. eapply Forall_impl; [|exact Hok]. intros t. apply tree_sexp_ok.
  - rewrite map_map. exact Hd.
  - by rewrite <- Ht.
  - destruct (stream_refines_text fuel false (ParserNew name inc) reader (tree_lines ts)
      (config_payload_sim _) config_payload_shrinks Hr Hf) as (res & s1 & s2' & E1 & E2' & Hh & _).
    rewrite Ht in E2'. rewrite E2 in E2'. injection E2' as <- <-. rewrite E1. by rewrite Hh, Hh2.
Qed.

(** The first entry of a key. *)
Fixpoint find_entry (key : bytes) (es : list (bytes * list ConfigValue)) : option (list ConfigValue) :=
  match es with
  | [] => None
  | (k, vs) :: es' => if decide (k = key) then Some vs else find_entry key es'
  end.

Lemma add_entries_lookup es m key :
  add_entries es m !! key = match m !! key with Some vs => Some vs | None => find_entry key es end.
Proof.
  unfold add_entries. revert m. induction es as [|[k vs] es IH]; intros m; cbn [fold_left find_entry];
    [by destruct (m !! key)|].
  rewrite IH. unfold emplace. cbn [fst snd]. destruct (decide (k = key)) as [->|Hne].
  - destruct (m !! key) as [vs'|] eqn:E; [by rewrite E|by rewrite lookup_insert_eq].
  - destruct (m !! k); cbn; [done|]. by rewrite lookup_insert_ne.
Qed.

(** * Merging *)

Lemma CloneNode_spec cur cloned :
  CloneNode cur cloned =
  match cur with [] => cloned | [v] => v :: tail cloned | _ => cur end.
Proof.
  revert cloned. induction cur as [|v cur IH]; intros cloned; [done|]. cbn [CloneNode].
  destruct cur as [|v' cur]; [done|]. rewrite IH. by destruct cur.
Qed.

Lemma MergeValues_lookup left right key :
  MergeValues left right !! key =
  match right !! key with
  | None => left !! key
  | Some node => Some (CloneNode node (default [VNone] (left !! key)))
  end.
Proof.
  unfold MergeValues.
  apply (map_fold_weak_ind (fun (acc right : gmap bytes (list ConfigValue)) => acc !! key =
    match right !! key with
    | None => left !! key
    | Some node => Some (CloneNode node (default [VNone] (left !! key)))
    end)); [by rewrite lookup_empty|].
  intros k node right' acc Hk IH. cbv beta. destruct (decide (k = key)) as [->|Hne].
  - rewrite Hk in IH. by rewrite !lookup_insert_eq, IH.
  - by rewrite !lookup_insert_ne.
Qed.

(** * Properties *)

(** C18. Loading a configuration is flattening it: the text of any list of key
    trees (one top-level key per line, any nesting), read through any buffered
    stream cut anywhere, loads, and every dotted key has the values of its
    first leaf in the text; a key without a leaf does not exist. *)
Theorem config_text_loads {S} `{InStreamLaws S} fuel name inc (reader : StreamReader S) ts :
  Forall tree_ok ts -> reader_text reader (tree_lines ts) -> (length (tree_lines ts) < fuel)%nat ->
  exists conf, LoadFromStream fuel name inc reader = Some (Right conf) /\
    forall key, conf !! key = find_entry key (concat (map (entries []) ts)).
Proof.
  intros Hok Hr Hf. eexists. split; [by apply load_trees|]. intros key.
  by rewrite add_entries_lookup, lookup_empty.
Qed.

Definition demo_trees : list conf_tree :=
  [CfNode (lit "tcp") [CfLeaf (lit "bind") [CfStr (lit "a b"); CfStr (lit "c")];
                       CfNode (lit "keep-alive") [CfLeaf (lit "idle") [CfInt 20]]];
   CfLeaf (lit "tcp.bind") [CfInt 1]].

Lemma demo_trees_ok : Forall tree_ok demo_trees.
Proof.
  assert (K : forall k, k <> [] -> forallb plain k = true -> LexerCheckOpName k = true -> head k <> Some "@"%char ->
    key_ok k) by (intros; by repeat split).
  repeat constructor; try (apply K; [done|by vm_compute|by vm_compute|done]); by vm_compute.
Qed.

Lemma config_text_loads_witness :
  let reader := ReaderNew (lit "01234567") ([tree_lines demo_trees] : ChunkStream) in
  exists conf, LoadFromStream 200 (lit "f") (fun _ => Left FileNotFound) reader = Some (Right conf) /\
    conf !! lit "tcp.keep-alive.idle" = Some [VInt 20] /\
    conf !! lit "tcp.bind" = Some [VString (lit "a b"); VString (lit "c")].
Proof.
  intros reader.
  destruct (config_text_loads 200 (lit "f") (fun _ => Left FileNotFound) reader demo_trees demo_trees_ok)
    as (conf & E & Hc).
  - split; [split; cbn; lia|]. eexists; split; [|apply (chunk_feeds 8); lia]. cbn -[tree_lines]. by rewrite app_nil_r.
  - vm_compute. lia.
  - exists conf. split; [exact E|]. split; rewrite Hc; reflexivity.
Defined.

(** An unquoted string is not stored.  A key whose value is a name other
    than yes and no loads without an error, but the key is then missing from
    the configuration: an empty node is added in front of the string. *)
Lemma unquoted_value_is_dropped {S} `{InStreamLaws S} fuel name inc (reader : StreamReader S) key value :
  key_ok key -> sexp_ok (EName value) ->
  value <> lit "yes" -> value <> lit "Yes" -> value <> lit "no" -> value <> lit "No" ->
  reader_text reader (print_line (key, [EName value])) ->
  (length (print_line (key, [EName value])) < fuel)%nat ->
  LoadFromStream fuel name inc reader = Some (Right ∅).
Proof.
  intros Hk Hv H1 H2 H3 H4 Hr Hf. unfold LoadFromStream. set (p := ParserNew name inc).
  pose proof Hk as (Hne & Hpl & Hop & Hat).
  assert (Hd : deliver_all (events (ECall key [EName value])) p = (Right tt, p)).
  { cbn [events map concat deliver_all deliver app LexerBeginOp ConfigParser_handler].
    change p with (at_key p [] [] ∅ false). rewrite begin_at by done.
    cbn [deliver LexerUnhandledValue ConfigParser_handler]. unfold ConfigUnhandledValue at 1. cbn [is_nested_list_ at_key].
    rewrite !bool_decide_false by done. cbn [orb]. unfold ConfigStrValue. cbn [is_nested_list_ AddValue with_values].
    cbn [deliver LexerEndOp ConfigParser_handler]. unfold ConfigEndOp, at_key, dotted, raw, pop_key.
    cbn -[lit]. destruct key as [|c key]; [done|]. cbn -[lit].
    rewrite (bool_decide_false (c :: key = lit "@locate")), (bool_decide_false (c :: key = lit "@include"));
      [|by intros [= -> _]..].
    by rewrite (bool_decide_false (Some c = Some "@"%char)). }
  destruct (lex_printed_lines [(key, [EName value])] fuel p p) as (s2 & E2 & Hh2).
  - constructor; [|done]. cbn [fst snd]. split; [done|]. split; [done|]. split; [done|]. by split.
  - cbn [map concat fst snd]. by rewrite app_nil_r.
  - cbn [map concat]. by rewrite app_nil_r.
  - cbn [map concat] in E2. rewrite app_nil_r in E2.
    destruct (stream_refines_text fuel false p reader _ (config_payload_sim _) config_payload_shrinks Hr Hf)
      as (res & s1 & s2' & E1 & E2' & Hh & _).
    rewrite E2 in E2'. injection E2' as <- <-. rewrite E1. by rewrite Hh, Hh2.
Qed.

Lemma unquoted_value_is_dropped_witness :
  LoadFromStream 60 (lit "f") (fun _ => Left FileNotFound)
    (ReaderNew (lit "01234567") ([print_line (lit "log.level", [EName (lit "verbose")])] : ChunkStream)) = Some (Right ∅).
Proof.
  apply (unquoted_value_is_dropped 60 (lit "f") (fun _ => Left FileNotFound) _ (lit "log.level") (lit "verbose"));
    try discriminate.
  - repeat split; try discriminate; by vm_compute.
  - repeat split; try discriminate; by vm_compute.
  - split; [split; cbn; lia|]. eexists; split; [|apply (chunk_feeds 8); lia]. reflexivity.
  - vm_compute. lia.
Defined.

(** What merging does: keys of the left configuration that the right one
    does not set are kept; the first value of a key the right one sets is
    always the right one's.  A list of several values replaces the old list,
    but a single value only replaces the head: the tail of the old list stays
    behind it. *)
Lemma merge_overrides_head (left right : ConfigMap) key :
  Merge left right !! key =
  match right !! key with
  | None => left !! key
  | Some [] => Some (default [VNone] (left !! key))
  | Some [v] => Some (v :: tail (default [VNone] (left !! key)))
  | Some vs => Some vs
  end.
Proof.
  unfold Merge. rewrite MergeValues_lookup. destruct (right !! key) as [node|]; [|done].
  rewrite CloneNode_spec. by destruct node as [|v [|v' vs]].
Qed.

(** ** Arguments *)

Definition arg_pair (kv : bytes * conf_value) : list bytes :=
  ["/"%char :: fst kv; print (value_sexp (snd kv))].

Definition arg_leaf (kv : bytes * conf_value) : conf_tree := CfLeaf (fst kv) [snd kv].

Definition arg_pair_ok (kv : bytes * conf_value) : Prop :=
  key_ok (fst kv) /\ value_ok (snd kv) /\ CheckArg (fst kv) = true /\ CheckArg (print (value_sexp (snd kv))) = true.

Lemma args_text_pairs kvs buf :
  Forall arg_pair_ok kvs ->
  args_text (concat (map arg_pair kvs)) buf = Some (buf ++ tree_lines (map arg_leaf kvs)).
Proof.
  intros Hok. revert buf. induction Hok as [|[k v] kvs (Hk & Hv & C1 & C2) _ IH]; intros buf.
  { cbn. by rewrite app_nil_r. }
  cbn [map concat arg_pair app args_text fst snd]. change ("/"%char =c "/") with true. cbn iota.
  destruct k as [|c k]; [by destruct Hk|]. cbn [fst snd] in *. unfold MakeSlangExprFromArgs. rewrite C1, C2. cbn [negb].
  rewrite IH, <- app_assoc. f_equal. f_equal.
  unfold tree_lines. cbn [map concat arg_leaf tree_call fst snd]. unfold print_line. cbn [print map concat fst snd].
  rewrite app_nil_r. cbn [app lit String.list_ascii_of_string]. rewrite <- !app_assoc.
  cbn [app]. by rewrite <- !app_assoc.
Qed.

Lemma args_buffer_loads fuel inc kvs :
  Forall arg_pair_ok kvs -> (length (tree_lines (map arg_leaf kvs)) + 1 < fuel)%nat ->
  exists conf, LoadFromBuffer fuel inc (tree_lines (map arg_leaf kvs)) = Some (Right conf) /\
    forall key, conf !! key = find_entry key (map (fun kv => (fst kv, [config_value (snd kv)])) kvs).
Proof.
  intros Hok Hf. unfold LoadFromBuffer. destruct kvs as [|kv0 kvs0] eqn:Ekvs.
  { change (length (tree_lines (map arg_leaf []))) with 0%nat in Hf. destruct fuel as [|[|fuel]]; [lia..|]. exists empty. split; [reflexivity|done]. }
  rewrite <- Ekvs in *. assert (Hne : kvs <> []) by (by rewrite Ekvs). clear Ekvs kv0 kvs0. eexists. split.
  - apply (load_trees fuel _ _ _ (map arg_leaf kvs)); [| |lia].
    + apply Forall_map. eapply Forall_impl; [|exact Hok]. cbn. intros kv (? & ? & _). split; [done|]. by constructor.
    + assert (Hlen : (0 < length (tree_lines (map arg_leaf kvs)))%nat).
      { destruct kvs as [|kv kvs]; [done|]. unfold tree_lines. cbn. lia. }
      split; [split; cbn; lia|]. exists []. cbn. rewrite app_nil_r. split; [|by eapply feeds_end, over_still].
      unfold Available. cbn. by rewrite Nat.sub_0_r, firstn_all.
  - intros key. rewrite add_entries_lookup, lookup_empty. f_equal. clear. induction kvs as [|kv kvs IH]; [done|].
    cbn [map concat arg_leaf entries app dotted]. by rewrite IH.
Qed.

(** Command-line arguments are configuration: a list of pairs of a slashed
    key and the text of a value, accepted by the argument check, loads as the
    configuration with those keys and values, the first value of a key
    winning. *)
Theorem args_load_as_config fuel inc kvs :
  Forall arg_pair_ok kvs -> (length (tree_lines (map arg_leaf kvs)) + 1 < fuel)%nat ->
  exists conf, LoadFromArgs fuel inc (concat (map arg_pair kvs)) = Some (Right conf) /\
    forall key, conf !! key = find_entry key (map (fun kv => (fst kv, [config_value (snd kv)])) kvs).
Proof.
  intros Hok Hf. unfold LoadFromArgs. rewrite args_text_pairs by done. by apply args_buffer_loads.
Qed.

Lemma args_load_as_config_witness :
  exists conf, LoadFromArgs 100 (fun _ => Left FileNotFound) [lit "/task.num-threads"; lit "4"; lit "/log.stdout"; lit "no"]
    = Some (Right conf) /\ conf !! lit "task.num-threads" = Some [VInt 4] /\ conf !! lit "log.stdout" = Some [VBool false].
Proof.
  destruct (args_load_as_config 100 (fun _ => Left FileNotFound)
    [(lit "task.num-threads", CfInt 4); (lit "log.stdout", CfBool false)]) as (conf & E & Hc).
  - repeat constructor; try discriminate; by vm_compute.
  - vm_compute. lia.
  - exists conf. split; [exact E|]. split; rewrite Hc; reflexivity.
Defined.
