(* ===== verification/ConfigList.v ===== *)
(** Listing a configuration: [Config::Enumerate] of [config/config.h] and
    [ConfigValueToString] of [config/config_detail.cc].

    [std::sort] is a sort: the keys of a map are different, so the order of
    [strcmp] leaves it no choice.  [None] is a failed assertion. *)
From stdpp Require Import sorting.
From S2P Require Import Prelude Either StrBuild CLib DoubleText Config.
Local Open Scope Z_scope.

(** * [strcmp] *)

(** [strcmp(a, b) <= 0], on strings without NUL. *)
Fixpoint strcmp_leb (a b : bytes) : bool :=
  match a, b with
  | [], _ => true
  | _, [] => false
  | c :: a', d :: b' => (uchar c <? uchar d) || ((uchar c =? uchar d) && strcmp_leb a' b')
  end.

Definition strcmp_le (a b : bytes) : Prop := strcmp_leb a b = true.

#[export] Instance strcmp_le_dec : RelDecision strcmp_le.
Proof. intros a b. unfold strcmp_le. apply _. Defined.

#[export] Instance strcmp_le_total : Total strcmp_le.
Proof.
  intros a. unfold strcmp_le. induction a as [|c a IH]; intros [|d b]; cbn; auto.
  destruct (Z.lt_trichotomy (uchar c) (uchar d)) as [Hc|[Hc|Hc]].
  - left. apply orb_true_iff. left. by apply Z.ltb_lt.
  - rewrite Hc, Z.eqb_refl. destruct (IH b) as [->| ->]; [left|right]; by rewrite orb_comm.
  - right. apply orb_true_iff. left. by apply Z.ltb_lt.
Qed.

Lemma strcmp_cons c d a b : strcmp_le (c :: a) (d :: b) <-> uchar c < uchar d \/ c = d /\ strcmp_le a b.
Proof.
  unfold strcmp_le. cbn. rewrite orb_true_iff, andb_true_iff, Z.ltb_lt, Z.eqb_eq. split.
  - intros [H|[H1 H2]]; [by left|right]. split; [by apply uchar_inj|done].
  - intros [H|[-> H2]]; [by left|by right].
Qed.

#[export] Instance strcmp_le_trans : Transitive strcmp_le.
Proof.
  intros a. induction a as [|c a IH]; intros [|d b] [|e f] H1 H2; try done.
  apply strcmp_cons in H1 as [H1|[-> H1]]; apply strcmp_cons in H2 as [H2|[-> H2]]; apply strcmp_cons; [left; lia|by left..|].
  right. split; [done|]. by apply (IH b).
Qed.

#[export] Instance strcmp_le_antisymm : AntiSymm (=) strcmp_le.
Proof.
  intros a. induction a as [|c a IH]; intros [|d b] H1 H2; try done.
  apply strcmp_cons in H1 as [H1|[-> H1]]; apply strcmp_cons in H2 as [H2|[E H2]]; [lia|subst; lia|lia|].
  f_equal. by apply IH.
Qed.

(** * The listing *)

Section List.
  Context (log10 : double -> double) (pow : double -> double -> double).

(** source/config/config_detail.cc:9-29 [ConfigValueToString] *)
Definition ConfigValueToString (value : ConfigValue) (builder : StrBuilder) : option StrBuilder :=
  match value with
  | VString s => Some (BuildStr builder s)
  | VInt i => Some (BuildInt builder i)
  | VDouble d => BuildDouble log10 pow d 6 builder
  | VBool b => Some (BuildStr builder (if b then lit "Yes" else lit "No"))
  | VNone => None
  end.

(** The values behind the opening bracket. *)
(** source/config/config.h:291-296 [Config::Enumerate] *)
Fixpoint ListValues (node : list ConfigValue) (value_builder : StrBuilder) : option StrBuilder :=
  match node with
  | [] => Some value_builder
  | v :: next =>
      match ConfigValueToString v value_builder with
      | None => None
      | Some sb => ListValues next (match next with [] => sb | _ => BuildStr sb (lit ", ") end)
      end
  end.

(** source/config/config.h:284-299 [Config::Enumerate] *)
Definition NodeText (node : list ConfigValue) : option bytes :=
  let value_builder := StrBuilderNew 256 in
  match node with
  | [v] => option_map Buffer (ConfigValueToString v value_builder)
  | _ => option_map (fun sb => Buffer (BuildChar sb "]"%char)) (ListValues node (BuildChar value_builder "["%char))
  end.

(** The calls of the callback. *)
(** source/config/config.h:264-303 [Config::Enumerate] *)
Definition Enumerate (conf : ConfigMap) : option (list (bytes * bytes)) :=
  mapM (fun key => option_map (fun text => (key, text)) (conf !! key ≫= NodeText))
    (merge_sort strcmp_le (map fst (map_to_list conf))).

(** * Reference *)

Definition value_text (v : ConfigValue) : bytes :=
  match v with
  | VNone => []
  | VInt i => int_str i
  | VDouble d => double_text log10 pow d 6
  | VBool b => if b then lit "Yes" else lit "No"
  | VString s => s
  end.

Fixpoint values_text (vs : list ConfigValue) : bytes :=
  match vs with [] => [] | v :: next => value_text v ++ match next with [] => [] | _ => lit ", " ++ values_text next end end.

Definition node_text (vs : list ConfigValue) : bytes :=
  match vs with [v] => value_text v | _ => lit "[" ++ values_text vs ++ lit "]" end.

(** The room a value is sure to fit in. *)
Definition value_room (v : ConfigValue) : nat :=
  match v with VNone => 0 | VInt _ => 24 | VDouble _ => 57 | VBool _ => 3 | VString s => length s end.
Definition node_room (vs : list ConfigValue) : nat := 2 + sum_list_with (fun v => value_room v + 2)%nat vs.

Definition printable (v : ConfigValue) : Prop := match v with VNone => False | VInt i => in_s 64 i | _ => True end.

(** ** Values *)

Lemma BuildStr_built sb str : sb_wf sb -> (offset_ sb + length str <= UseSize sb)%nat -> built sb (BuildStr sb str) str.
Proof.
  intros Hwf Hr. destruct (BestEffortWrite_spec sb str Hwf) as (W & U & B). split; [done|]. split; [done|].
  unfold BuildStr. rewrite B. apply take_ge. rewrite length_app, Buffer_length by done. lia.
Qed.

Lemma ConfigValueToString_text v sb : sb_wf sb -> printable v -> (offset_ sb + value_room v <= UseSize sb)%nat ->
  exists sb', ConfigValueToString v sb = Some sb' /\ built sb sb' (value_text v).
Proof.
  intros Hwf Hp Hr. destruct v as [|i|d|b|str]; cbn [ConfigValueToString value_text value_room printable] in *; [done|..].
  - eexists. split; [reflexivity|]. exact (Append1_built sb (AInt i) 24 Hwf Hp eq_refl Hr).
  - apply double_appends_text; [done|lia|done].
  - eexists. split; [reflexivity|]. apply BuildStr_built; [done|]. destruct b; cbn in *; lia.
  - eexists. split; [reflexivity|]. by apply BuildStr_built.
Qed.

Lemma ConfigValueToString_total v sb : sb_wf sb -> printable v -> (5 <= UseSize sb)%nat ->
  exists sb', ConfigValueToString v sb = Some sb' /\ kept sb sb'.
Proof.
  intros Hwf Hp Hr. destruct v as [|i|d|b|str]; cbn [ConfigValueToString printable] in *; [done|..].
  - eexists. split; [reflexivity|]. exact (Append1_kept sb (AInt i) Hwf Hp).
  - by apply BuildDouble_total.
  - eexists. split; [reflexivity|]. exact (Append1_kept sb (AStr _) Hwf I).
  - eexists. split; [reflexivity|]. exact (Append1_kept sb (AStr _) Hwf I).
Qed.

(** ** Lists *)

Lemma ListValues_total vs : forall sb, sb_wf sb -> Forall printable vs -> (5 <= UseSize sb)%nat ->
  exists sb', ListValues vs sb = Some sb' /\ kept sb sb'.
Proof.
  induction vs as [|v vs IH]; intros sb Hwf Hp Hr; [by exists sb|]. apply List.Forall_cons_iff in Hp as [Hv Hp]. cbn [ListValues].
  destruct (ConfigValueToString_total v sb Hwf Hv Hr) as (sb1 & -> & W1 & U1).
  assert (Hk : kept sb1 (match vs with [] => sb1 | _ => BuildStr sb1 (lit ", ") end)).
  { destruct vs; [by split|]. exact (Append1_kept sb1 (AStr (lit ", ")) W1 I). }
  destruct Hk as [W2 U2]. destruct (IH _ W2 Hp ltac:(lia)) as (sb' & E & W3 & U3). exists sb'. split; [exact E|].
  split; [done|]. congruence.
Qed.

Lemma built_offset a b t : sb_wf a -> built a b t -> offset_ b = (offset_ a + length t)%nat.
Proof. intros Hwf Hb. by rewrite (built_room _ _ _ Hb), Buffer_length. Qed.

Lemma value_text_room v sb : sb_wf sb -> printable v -> (offset_ sb + value_room v <= UseSize sb)%nat ->
  exists sb', ConfigValueToString v sb = Some sb' /\ built sb sb' (value_text v) /\ (offset_ sb' <= offset_ sb + value_room v)%nat.
Proof.
  intros Hwf Hp Hr. destruct (ConfigValueToString_text v sb Hwf Hp Hr) as (sb' & E & Hb). exists sb'. split; [exact E|].
  split; [exact Hb|]. rewrite (built_offset _ _ _ Hwf Hb). destruct v as [|i|d|b|str]; cbn [value_text value_room printable] in *.
  - done.
  - pose proof (int_str_length i Hp). lia.
  - pose proof (double_text_length log10 pow d 5). lia.
  - destruct b; cbn; lia.
  - lia.
Qed.

Lemma ListValues_text vs : forall sb, sb_wf sb -> Forall printable vs ->
  (offset_ sb + sum_list_with (fun v => value_room v + 2)%nat vs <= UseSize sb)%nat ->
  exists sb', ListValues vs sb = Some sb' /\ built sb sb' (values_text vs) /\
    (offset_ sb' <= offset_ sb + sum_list_with (fun v => value_room v + 2)%nat vs)%nat.
Proof.
  induction vs as [|v vs IH]; intros sb Hwf Hp Hr; cbn [ListValues values_text sum_list_with] in *.
  { exists sb. split; [done|]. split; [|lia]. split; [done|]. split; [done|]. by rewrite app_nil_r. }
  apply List.Forall_cons_iff in Hp as [Hv Hp]. destruct (value_text_room v sb Hwf Hv ltac:(lia)) as (sb1 & -> & Hb1 & Ho1).
  pose proof Hb1 as (W1 & U1 & _). destruct vs as [|v' vs]; [exists sb1; split; [done|]; split; [by rewrite app_nil_r|lia]|].
  pose proof (BuildStr_built sb1 (lit ", ") W1 ltac:(cbn; lia)) as Hb2. pose proof (built_offset _ _ _ W1 Hb2) as Ho2.
  change (length (lit ", ")) with 2%nat in Ho2. pose proof Hb2 as (W2 & U2 & _).
  destruct (IH _ W2 Hp ltac:(lia)) as (sb' & E & Hb3 & Ho3). exists sb'. split; [exact E|]. split; [|lia].
  exact (built_trans _ _ _ _ _ Hb1 (built_trans _ _ _ _ _ Hb2 Hb3)).
Qed.

Lemma builder_start : sb_wf (StrBuilderNew 256) /\ offset_ (StrBuilderNew 256) = 0%nat /\ UseSize (StrBuilderNew 256) = 255%nat /\
  Buffer (StrBuilderNew 256) = [].
Proof. split; [apply sb_new_wf; lia|]. repeat split. Qed.

Lemma kept_length sb sb' : kept sb sb' -> (length (Buffer sb') <= UseSize sb)%nat.
Proof. intros [W U]. rewrite Buffer_length by done. destruct W. lia. Qed.

Lemma NodeText_list vs : length vs <> 1%nat -> NodeText vs =
  option_map (fun sb => Buffer (BuildChar sb "]"%char)) (ListValues vs (BuildChar (StrBuilderNew 256) "["%char)).
Proof. by destruct vs as [|v [|v' vs]]. Qed.

Lemma node_text_list vs : length vs <> 1%nat -> node_text vs = lit "[" ++ values_text vs ++ lit "]".
Proof. by destruct vs as [|v [|v' vs]]. Qed.

Lemma NodeText_spec vs : Forall printable vs ->
  exists text, NodeText vs = Some text /\ (length text <= 255)%nat /\ ((node_room vs <= 255)%nat -> text = node_text vs).
Proof.
  intros Hp. destruct builder_start as (W0 & O0 & U0 & B0). destruct (decide (length vs = 1%nat)) as [Hl|Hl].
  - destruct vs as [|v [|v' vs]]; try done. apply List.Forall_cons_iff in Hp as [Hv _]. cbn [NodeText node_text].
    destruct (ConfigValueToString_total v (StrBuilderNew 256) W0 Hv ltac:(lia)) as (sb' & E & Hk). rewrite E.
    eexists. split; [reflexivity|]. split; [pose proof (kept_length _ _ Hk); lia|]. unfold node_room. cbn [sum_list_with]. intros Hr.
    destruct (ConfigValueToString_text v (StrBuilderNew 256) W0 Hv ltac:(lia)) as (sb2 & E2 & _ & _ & B). rewrite E in E2.
    injection E2 as <-. by rewrite B, B0.
  - rewrite NodeText_list, node_text_list by done.
    pose proof (BuildChar_built (StrBuilderNew 256) "["%char W0 ltac:(lia)) as Hb1. pose proof (built_offset _ _ _ W0 Hb1) as O1.
    cbn [length] in O1. pose proof Hb1 as (W1 & U1 & _).
    destruct (ListValues_total vs _ W1 Hp ltac:(lia)) as (sb2 & E & W2 & U2). rewrite E. cbn [option_map].
    eexists. split; [reflexivity|]. pose proof (Append1_kept sb2 (AChar "]"%char) W2 I) as Hk. split.
    { pose proof (kept_length _ _ Hk) as Hle. rewrite U2, U1, U0 in Hle. exact Hle. }
    unfold node_room. intros Hr. destruct (ListValues_text vs _ W1 Hp ltac:(lia)) as (sb3 & E3 & Hb3 & O3).
    rewrite E in E3. injection E3 as <-. pose proof (BuildChar_built sb2 "]"%char W2 ltac:(lia)) as Hb4.
    destruct (built_trans _ _ _ _ _ Hb1 (built_trans _ _ _ _ _ Hb3 Hb4)) as (_ & _ & ->). by rewrite B0.
Qed.

Lemma NodeText_none vs : VNone ∈ vs -> NodeText vs = None.
Proof.
  intros Hin. assert (Hl : forall us sb, VNone ∈ us -> ListValues us sb = None).
  { induction us as [|u us IH]; intros sb Hu; [by apply elem_of_nil in Hu|]. apply elem_of_cons in Hu as [<-|Hu]; [done|].
    cbn [ListValues]. destruct (ConfigValueToString u sb); [|done]. by apply IH. }
  destruct (decide (length vs = 1%nat)) as [Hlen|Hlen].
  - destruct vs as [|v [|v' vs]]; try done. apply list_elem_of_singleton in Hin as <-. done.
  - by rewrite NodeText_list, Hl.
Qed.

(** ** All keys *)

Definition sorted_keys (conf : ConfigMap) : list bytes := merge_sort strcmp_le (map fst (map_to_list conf)).

Lemma sorted_keys_spec conf : Sorted strcmp_le (sorted_keys conf) /\ NoDup (sorted_keys conf) /\
  forall key, key ∈ sorted_keys conf <-> is_Some (conf !! key).
Proof.
  unfold sorted_keys. pose proof (merge_sort_Permutation strcmp_le (map fst (map_to_list conf))) as Hperm.
  split; [apply Sorted_merge_sort, _|]. split; [rewrite Hperm; apply NoDup_fst_map_to_list|].
  intros key. rewrite Hperm. change (map fst (map_to_list conf)) with ((map_to_list conf).*1).
  rewrite list_elem_of_fmap. split.
  - intros ([k vs] & -> & Hin). apply elem_of_map_to_list in Hin. by eexists.
  - intros [vs Hk]. exists (key, vs). split; [done|]. by apply elem_of_map_to_list.
Qed.

(** A configuration without empty values is listed: its keys in order, each
    once, with the text of its values, cut at 255 characters; one with an
    empty value fails the assertion of [ConfigValueToString]. *)
Lemma Enumerate_spec (conf : ConfigMap) :
  ((forall key vs, conf !! key = Some vs -> Forall printable vs) ->
   exists l, Enumerate conf = Some l /\ map fst l = sorted_keys conf /\
     forall key text, (key, text) ∈ l -> exists vs, conf !! key = Some vs /\ (length text <= 255)%nat /\
       ((node_room vs <= 255)%nat -> text = node_text vs)) /\
  (forall key vs, conf !! key = Some vs -> VNone ∈ vs -> Enumerate conf = None).
Proof.
  destruct (sorted_keys_spec conf) as (_ & _ & Hdom). split.
  - intros Hp. assert (Hf : Forall (fun key => is_Some (conf !! key)) (sorted_keys conf)).
    { apply List.Forall_forall. intros key Hin. by apply Hdom, list_elem_of_In. }
    unfold Enumerate. fold (sorted_keys conf). clear Hdom. induction Hf as [|key keys [vs Hk] _ IH].
    + exists []. split; [done|]. split; [done|]. by intros ? ? ?%elem_of_nil.
    + destruct IH as (l & E & Hm & Hl). destruct (NodeText_spec vs (Hp key vs Hk)) as (text & Et & Hlen & Ht).
      exists ((key, text) :: l). split; [|split].
      * cbn [mapM]. unfold mbind, option_bind. rewrite Hk. cbn. rewrite Et. cbn. unfold mbind, option_bind in E. by rewrite E.
      * cbn. by rewrite Hm.
      * intros k t Hin. apply elem_of_cons in Hin as [[= -> ->]|Hin]; [by exists vs|by apply Hl].
  - intros key vs Hk Hin. unfold Enumerate. fold (sorted_keys conf). apply mapM_None. apply Exists_exists.
    exists key. split; [apply list_elem_of_In, Hdom; by eexists|]. rewrite Hk. cbn. by rewrite NodeText_none.
Qed.
End List.
