(* ===== verification/ConfigNodes.v ===== *)
(** The memory of configurations ([config/config_detail], [config/config.h]):
    value nodes linked by pointers, their texts, and who frees them.

    [Config] has a node's list as a Rocq list.  Here memory is a finite map from
    addresses to blocks, one for each allocation, with the allocator that will
    free it: the scratch allocator of a configuration, its hash map (the first
    node of a key), the system allocator (lists made by [ConfigList::Make]), or
    nobody (literals).  A text is the text it is made of, a [CStrSpan] the
    address of its block. *)
From S2P Require Import Prelude Either CLib Config ConfigProps.
From stdpp Require Import fin_maps fin_map_dom functions.

(** * Memory *)

(** The variant of a node, with the address of a string's text. *)
(** source/config/config_detail.h:14-23 [ConfigValue] *)
Inductive NodeValue := NNone | NInt (i : Z) | NDouble (d : double) | NBool (b : bool) | NString (text : nat).

(** source/config/config_detail.h:65-67 [ConfigValueNode] *)
Record ConfigValueNode := MkNode { value_ : NodeValue; next_ : option nat }.

Inductive Owner := Scratch (allocator : nat) | MapNode (config : nat) | System | Static.
Inductive Content := CNode (node : ConfigValueNode) | CText (text : bytes).
Record Block := MkBlock { owner : Owner; content : Content }.
Abbreviation Memory := (gmap nat Block).

#[global] Instance Owner_eq : EqDecision Owner.
Proof. solve_decision. Defined.

(** An allocation takes an address that is not in use. *)
Definition alloc (o : Owner) (c : Content) (m : Memory) : nat * Memory :=
  let p := fresh (dom m) in (p, <[p := MkBlock o c]> m).

Definition node_at (m : Memory) (p : nat) : option ConfigValueNode :=
  match m !! p with Some (MkBlock _ (CNode n)) => Some n | _ => None end.
Definition text_at (m : Memory) (p : nat) : option bytes :=
  match m !! p with Some (MkBlock _ (CText t)) => Some t | _ => None end.

(** Assigning to a part of a node. *)
Definition put_node (p : nat) (n : ConfigValueNode) (m : Memory) : Memory :=
  alter (fun b => MkBlock (owner b) (CNode n)) p m.

(** * Nodes *)

(** source/config/config_detail.cc:30-32 [ConfigValueNode::CreateScratch] *)
Definition CreateScratch (a : nat) (m : Memory) : nat * Memory := alloc (Scratch a) (CNode (MkNode NNone None)) m.

(** source/config/config_detail.cc:34-36 [ConfigValueNode::Create] *)
Definition Create (m : Memory) : nat * Memory := alloc System (CNode (MkNode NNone None)) m.

(** [None]: the walk meets a block that is not a node the system allocator can
    free. *)
(** source/config/config_detail.cc:38-45 [ConfigValueNode::Destroy] *)
Fixpoint Destroy (fuel : nat) (cur : option nat) (m : Memory) : option Memory :=
  match cur with
  | None => Some m
  | Some p =>
      match fuel, m !! p with
      | S fuel, Some (MkBlock System (CNode n)) => Destroy fuel (next_ n) (delete p m)
      | _, _ => None
      end
  end.

(** source/containers/str.cc:5-10 [MakeScratchCStrCopy] *)
Definition MakeScratchCStrCopy (text : nat) (a : nat) (m : Memory) : option (nat * Memory) :=
  match text_at m text with Some t => Some (alloc (Scratch a) (CText t) m) | None => None end.

(** source/config/config_detail.cc:53-58 [ConfigValueNode::CloneNode] *)
Definition CloneValue (v : NodeValue) (a : nat) (m : Memory) : option (NodeValue * Memory) :=
  match v with
  | NString str => option_map (fun r => (NString (fst r), snd r)) (MakeScratchCStrCopy str a m)
  | _ => Some (v, m)
  end.

(** source/config/config_detail.cc:47-66 [ConfigValueNode::CloneNode] *)
Fixpoint CloneNode (fuel : nat) (cur cur_cloned : nat) (a : nat) (m : Memory) : option Memory :=
  match fuel, node_at m cur, node_at m cur_cloned with
  | S fuel, Some n, Some c =>
      match CloneValue (value_ n) a m with
      | None => None
      | Some (v, m) =>
          match next_ n with
          | None => Some (put_node cur_cloned (MkNode v (next_ c)) m)
          | Some next =>
              let '(q, m) := CreateScratch a m in
              CloneNode fuel next q a (put_node cur_cloned (MkNode v (Some q)) m)
          end
      end
  | _, _, _ => None
  end.

(** * Configurations *)

(** [ConfigMap]: a key's text and its first node, which the hash map holds. *)
Abbreviation NodeMap := (gmap bytes (nat * nat)).

(** [insert] finds the key or adds an empty node. *)
(** source/config/config.cc:345-349 [Config::MergeValues] *)
Definition MergeValue (fuel : nat) (a : nat) (it : bytes * (nat * nat)) (s : NodeMap * Memory) : option (NodeMap * Memory) :=
  let '(k, (text, head)) := it in
  match MakeScratchCStrCopy text a (snd s) with
  | None => None
  | Some (key, m) =>
      let '(new_it, values, m) :=
        match fst s !! k with
        | Some (_, cloned) => (cloned, fst s, m)
        | None => let '(cloned, m) := alloc (MapNode a) (CNode (MkNode NNone None)) m in
                  (cloned, <[k := (key, cloned)]> (fst s), m)
        end in
      option_map (fun m => (values, m)) (CloneNode fuel head new_it a m)
  end.

(** [items]: the elements of the right map in the order it is iterated. *)
(** source/config/config.cc:342-350 [Config::MergeValues] *)
Fixpoint MergeValues (fuel : nat) (a : nat) (items : list (bytes * (nat * nat))) (s : NodeMap * Memory)
    : option (NodeMap * Memory) :=
  match items with
  | [] => Some s
  | it :: items => MergeValue fuel a it s ≫= MergeValues fuel a items
  end.

(** The map and the allocator free what they own. *)
(** source/config/config.cc:252-255 [Config::~Config] *)
Definition ConfigDestroy (a : nat) (m : Memory) : Memory :=
  filter (fun b => owner (snd b) <> Scratch a /\ owner (snd b) <> MapNode a) m.

(** * What memory represents *)

Section Represents.
  Context (P : Owner -> Prop).

(** A text, and values, that blocks with owners in [P] hold. *)
Definition text_held (m : Memory) (p : nat) (t : bytes) : Prop := exists o, m !! p = Some (MkBlock o (CText t)) /\ P o.

Definition value_held (m : Memory) (n : NodeValue) (v : ConfigValue) : Prop :=
  match n, v with
  | NNone, VNone => True
  | NInt i, VInt j => i = j
  | NDouble d, VDouble e => d = e
  | NBool b, VBool c => b = c
  | NString p, VString t => text_held m p t
  | _, _ => False
  end.

(** The list that starts at [p] has the nodes [ps] and the values [vs]. *)
Fixpoint chain (m : Memory) (p : option nat) (ps : list nat) (vs : list ConfigValue) : Prop :=
  match ps, vs with
  | [], [] => p = None
  | a :: ps, v :: vs =>
      p = Some a /\ exists o n, m !! a = Some (MkBlock o (CNode n)) /\ P o /\ value_held m (value_ n) v /\ chain m (next_ n) ps vs
  | _, _ => False
  end.

(** Blocks keep what they hold, except [x]. *)
Definition kept (x : nat) (m m' : Memory) : Prop := forall p b, m !! p = Some b -> p <> x -> m' !! p = Some b.
(** The same for the owners in [P]. *)
Definition kept_in (m m' : Memory) : Prop := forall p b, m !! p = Some b -> P (owner b) -> m' !! p = Some b.

Lemma value_held_kept x m m' n v :
  kept x m m' -> is_Some (node_at m x) -> value_held m n v -> value_held m' n v.
Proof.
  intros Hk [c Hx]. destruct n, v; try done. intros (o & Ho & HP). exists o. split; [|done].
  apply Hk; [done|]. intros ->. unfold node_at in Hx. by rewrite Ho in Hx.
Qed.

Lemma chain_kept x m m' p ps vs :
  kept x m m' -> is_Some (node_at m x) -> x ∉ ps -> chain m p ps vs -> chain m' p ps vs.
Proof.
  intros Hk Hx. revert p vs. induction ps as [|a ps IH]; intros p [|v vs] Hn; cbn [chain]; try done.
  intros (-> & o & n & Ha & Ho & Hv & Hc). apply not_elem_of_cons in Hn as [Hne Hn]. split; [done|]. exists o, n.
  split_and!; [by apply Hk|done|by apply (value_held_kept x m)|by apply IH].
Qed.

Lemma chain_kept_in m m' p ps vs : kept_in m m' -> chain m p ps vs -> chain m' p ps vs.
Proof.
  intros Hk. revert p vs. induction ps as [|a ps IH]; intros p [|v vs]; cbn [chain]; try done.
  intros (-> & o & n & Ha & Ho & Hv & Hc). split; [done|]. exists o, n.
  split_and!; [by apply Hk|done| |by apply IH].
  destruct (value_ n), v; try done. destruct Hv as (o' & Ht & HP). exists o'. by split; [apply Hk|].
Qed.

Lemma chain_in m p ps vs a : chain m p ps vs -> a ∈ ps -> is_Some (node_at m a).
Proof.
  revert p vs. induction ps as [|b ps IH]; intros p [|v vs]; cbn [chain]; try done.
  - by intros _ ?%elem_of_nil.
  - intros (-> & o & n & Hb & _ & _ & Hc) [->|Ha]%elem_of_cons; [unfold node_at; by rewrite Hb|by eapply IH].
Qed.

Lemma chain_owner m p ps vs a : chain m p ps vs -> a ∈ ps -> exists b, m !! a = Some b /\ P (owner b).
Proof.
  revert p vs. induction ps as [|b ps IH]; intros p [|v vs]; cbn [chain]; try done.
  - by intros _ ?%elem_of_nil.
  - intros (-> & o & n & Hb & Ho & _ & Hc) [->|Ha]%elem_of_cons; [by eexists|by eapply IH].
Qed.
End Represents.

Lemma chain_weaken (P Q : Owner -> Prop) m p ps vs :
  (forall o, P o -> Q o) -> chain P m p ps vs -> chain Q m p ps vs.
Proof.
  intros HPQ. revert p vs. induction ps as [|a ps IH]; intros p [|v vs]; cbn [chain]; try done.
  intros (-> & o & n & Ha & Ho & Hv & Hc). split; [done|]. exists o, n. split_and!; auto.
  destruct (value_ n), v; try done. destruct Hv as (o' & Ht & HP). exists o'. auto.
Qed.

Lemma alloc_fresh o c m : m !! (fst (alloc o c m)) = None.
Proof. apply not_elem_of_dom, is_fresh. Qed.

Lemma alloc_kept o c m x : kept x m (snd (alloc o c m)).
Proof.
  intros p b Hp _. cbn. rewrite lookup_insert_ne; [done|]. intros <-. pose proof (alloc_fresh o c m) as Hf. cbn in Hf. congruence.
Qed.

Lemma node_at_kept x m m' y : kept x m m' -> y <> x -> is_Some (node_at m y) -> is_Some (node_at m' y).
Proof.
  intros Hk Hne. unfold node_at. destruct (m !! y) as [[o [n|t]]|] eqn:E; try by intros []. intros _. by rewrite (Hk _ _ E Hne).
Qed.

Lemma put_node_kept x n m : kept x m (put_node x n m).
Proof. intros p b Hp Hne. unfold put_node. by rewrite lookup_alter_ne. Qed.

Lemma kept_trans x m1 m2 m3 : kept x m1 m2 -> kept x m2 m3 -> kept x m1 m3.
Proof. intros H12 H23 p b Hp Hne. apply H23; [by apply H12|done]. Qed.

(** Besides [x] the second memory has what the first has, and blocks of the
    allocator [a] where the first had none. *)
Definition only_adds (a x : nat) (m m' : Memory) : Prop :=
  forall p b, m' !! p = Some b -> p <> x -> m !! p = Some b \/ (m !! p = None /\ owner b = Scratch a).

Lemma only_adds_trans a x m1 m2 m3 :
  kept x m1 m2 -> only_adds a x m1 m2 -> only_adds a x m2 m3 -> only_adds a x m1 m3.
Proof.
  intros Hk H12 H23 p b Hp Hne. destruct (H23 p b Hp Hne) as [H2|[H2 Ho]]; [by apply H12|].
  right. split; [|done]. destruct (m1 !! p) as [b'|] eqn:E; [|done]. by rewrite (Hk p b' E Hne) in H2.
Qed.

Lemma alloc_only_adds a c m x : only_adds a x m (snd (alloc (Scratch a) c m)).
Proof.
  intros p b. cbn. destruct (decide (fresh (dom m) = p)) as [<-|Hne].
  - rewrite lookup_insert_eq. intros [= <-] _. right. split; [|done]. apply not_elem_of_dom, is_fresh.
  - rewrite lookup_insert_ne by done. auto.
Qed.

Lemma put_only_adds a x n m : only_adds a x m (put_node x n m).
Proof. intros p b. unfold put_node. intros Hp Hne. rewrite lookup_alter_ne in Hp by done. by left. Qed.

(** * Cloning *)

Lemma CloneValue_spec (P Q : Owner -> Prop) n v a m :
  Q (Scratch a) -> value_held P m n v ->
  exists n' m', CloneValue n a m = Some (n', m') /\ value_held Q m' n' v /\
    (forall x, kept x m m') /\ (forall x, only_adds a x m m').
Proof.
  intros HQ Hv.
  assert (Hid : forall n', CloneValue n a m = Some (n', m) -> value_held Q m n' v ->
    exists n'' m', CloneValue n a m = Some (n'', m') /\ value_held Q m' n'' v /\
      (forall x, kept x m m') /\ (forall x, only_adds a x m m')).
  { intros n' E H'. exists n', m. split_and!; [done|done|by intros x p b|intros x p b ? _; by left]. }
  destruct n as [|i|d|b|p], v as [|j|e|c|t]; try done; try (by eapply Hid).
  destruct Hv as (o & Ho & _). cbn [CloneValue]. unfold MakeScratchCStrCopy, text_at. rewrite Ho. cbn [option_map].
  eexists _, _. split; [reflexivity|]. split_and!; [|intros x; apply alloc_kept|intros x; apply alloc_only_adds].
  exists (Scratch a). split; [|done]. cbn. apply lookup_insert_eq.
Qed.

(** The nodes of the clone: the first is [x], whose block keeps its owner. *)
Record cloned (Q : Owner -> Prop) (a x : nat) (oc : Owner) (qs rs : list nat) (vs : list ConfigValue) (m m' : Memory) : Prop := {
  cl_kept : kept x m m';
  cl_adds : only_adds a x m m';
  cl_head : exists n, m' !! x = Some (MkBlock oc (CNode n));
  cl_chain : chain Q m' (Some x) (x :: rs) vs;
  cl_nodes : forall r, r ∈ rs -> r ∈ qs \/ m !! r = None;
  cl_once : NoDup (x :: rs)
}.

Lemma chain_cons P m p a ps v vs :
  chain P m p (a :: ps) (v :: vs) <->
  p = Some a /\ exists o n, m !! a = Some (MkBlock o (CNode n)) /\ P o /\ value_held P m (value_ n) v /\ chain P m (next_ n) ps vs.
Proof. done. Qed.

Lemma put_node_eq x n m o c : m !! x = Some (MkBlock o c) -> put_node x n m !! x = Some (MkBlock o (CNode n)).
Proof. intros E. unfold put_node. rewrite lookup_alter, E. by destruct (decide (x = x)). Qed.

(** The last value: the node keeps what it was linked to. *)
Lemma cloned_last Q a x oc c qs n v ws m m1 :
  m !! x = Some (MkBlock oc (CNode c)) -> Q oc -> chain Q m (next_ c) qs ws -> NoDup (x :: qs) ->
  (forall y, kept y m m1) -> (forall y, only_adds a y m m1) -> value_held Q m1 n v ->
  cloned Q a x oc qs qs (v :: ws) m (put_node x (MkNode n (next_ c)) m1).
Proof.
  intros Hm Hoc Hq Hnd K1 A1 Hv. assert (Hm1 : m1 !! x = Some (MkBlock oc (CNode c))) by (by apply (K1 (S x)); [|lia]).
  assert (K2 : kept x m (put_node x (MkNode n (next_ c)) m1)) by (eapply kept_trans; [apply K1|apply put_node_kept]).
  assert (Hx := put_node_eq x (MkNode n (next_ c)) m1 _ _ Hm1).
  split; try done; [eapply only_adds_trans; [apply K1|apply A1|apply put_only_adds]|by eexists| |by left].
  apply chain_cons. split; [done|]. eexists oc, _. split; [exact Hx|]. split_and!; [done| |].
  - apply (value_held_kept Q x m1); [apply put_node_kept|unfold node_at; by rewrite Hm1|done].
  - apply (chain_kept Q x m); [done|unfold node_at; by rewrite Hm| |done]. by apply NoDup_cons_1_1.
Qed.

(** A further value: a new node [q] is linked behind. *)
Record linked (Q : Owner -> Prop) (a x q : nat) (oc : Owner) (n : NodeValue) (v : ConfigValue) (m m' : Memory) : Prop := {
  ln_kept : kept x m m';
  ln_adds : only_adds a x m m';
  ln_new : m !! q = None /\ q <> x;
  ln_q : m' !! q = Some (MkBlock (Scratch a) (CNode (MkNode NNone None)));
  ln_x : m' !! x = Some (MkBlock oc (CNode (MkNode n (Some q))));
  ln_value : value_held Q m' n v
}.

Lemma link_next Q a x oc c n v m m1 :
  m !! x = Some (MkBlock oc (CNode c)) -> (forall y, kept y m m1) -> (forall y, only_adds a y m m1) -> value_held Q m1 n v ->
  let '(q, m2) := CreateScratch a m1 in linked Q a x q oc n v m (put_node x (MkNode n (Some q)) m2).
Proof.
  intros Hm K1 A1 Hv. unfold CreateScratch. set (c0 := CNode (MkNode NNone None)).
  pose proof (alloc_fresh (Scratch a) c0 m1) as Hqf. pose proof (alloc_kept (Scratch a) c0 m1) as K2.
  pose proof (alloc_only_adds a c0 m1) as A2.
  assert (Hq2 : snd (alloc (Scratch a) c0 m1) !! fst (alloc (Scratch a) c0 m1) = Some (MkBlock (Scratch a) c0)) by apply lookup_insert_eq.
  destruct (alloc (Scratch a) c0 m1) as [q m2]. cbn [fst snd] in *.
  assert (Hm1 : m1 !! x = Some (MkBlock oc (CNode c))) by (by apply (K1 (S x)); [|lia]).
  assert (Hm2 : m2 !! x = Some (MkBlock oc (CNode c))) by (by apply (K2 (S x)); [|lia]).
  assert (Hqx : q <> x) by congruence.
  split; [|eapply only_adds_trans; [| |apply put_only_adds]| |unfold put_node; by rewrite lookup_alter_ne|by eapply put_node_eq|].
  - eapply kept_trans; [apply K1|]. eapply kept_trans; [apply K2|apply put_node_kept].
  - eapply kept_trans; [apply K1|apply K2].
  - eapply only_adds_trans; [apply K1|apply A1|apply A2].
  - split; [|done]. destruct (m !! q) as [b|] eqn:E; [|done]. by rewrite (K1 (S q) q b E ltac:(lia)) in Hqf.
  - apply (value_held_kept Q x m1); [eapply kept_trans; [apply K2|apply put_node_kept]|unfold node_at; by rewrite Hm1|done].
Qed.

Lemma cloned_more Q a x oc qs n q rs v vs m m1 m' :
  Q oc -> linked Q a x q oc n v m m1 -> cloned Q a q (Scratch a) [] rs vs m1 m' ->
  cloned Q a x oc qs (q :: rs) (v :: vs) m m'.
Proof.
  intros Hoc [K1 A1 [Hqm Hqx] Hq Hx Hv] [C1 C2 C3 C4 C5 C6].
  assert (Hkx : m' !! x = Some (MkBlock oc (CNode (MkNode n (Some q))))) by (by apply C1).
  assert (Hnew : forall r, r ∈ rs -> m1 !! r = None) by (intros r Hr; by destruct (C5 r Hr) as [?%elem_of_nil|?]).
  assert (Hold : forall r, m1 !! r = None -> m !! r = None).
  { intros r Hr. destruct (m !! r) as [b|] eqn:Er; [|done]. rewrite (K1 r b Er) in Hr; congruence. }
  split.
  - intros p b Hp Hne. apply C1; [by apply K1|]. congruence.
  - intros p b Hp Hne. destruct (decide (p = q)) as [->|Hpq].
    + destruct C3 as [nq Hnq]. rewrite Hnq in Hp. injection Hp as <-. by right.
    + destruct (C2 p b Hp Hpq) as [Hb|[Hb Ho]]; [by apply A1|]. right. split; [|done]. by apply Hold.
  - by eexists.
  - apply chain_cons. split; [done|]. exists oc, (MkNode n (Some q)). split_and!; [done|done| |done].
    apply (value_held_kept Q q m1); [done|unfold node_at; by rewrite Hq|done].
  - intros r [->|Hr]%elem_of_cons; right; [done|]. by apply Hold, Hnew.
  - constructor; [|done]. intros [Hxe|Hr]%elem_of_cons; [done|]. specialize (Hnew x Hr). congruence.
Qed.

(** Cloning ends, and gives the list [Config.CloneNode] gives. *)
Lemma CloneNode_copies (P Q : Owner -> Prop) a vs :
  Q (Scratch a) -> forall fuel cur ps x oc c qs v0 ws m,
  chain P m (Some cur) ps vs -> (length vs <= fuel)%nat -> x ∉ ps ->
  m !! x = Some (MkBlock oc (CNode c)) -> Q oc -> chain Q m (next_ c) qs ws -> NoDup (x :: qs) ->
  exists m' rs, CloneNode fuel cur x a m = Some m' /\ cloned Q a x oc qs rs (Config.CloneNode vs (v0 :: ws)) m m'.
Proof.
  intros HQ. induction vs as [|v vs IH]; intros fuel cur ps x oc c qs v0 ws m Hc Hf Hx Hm Hoc Hq Hnd;
    [by destruct ps|]. destruct ps as [|cur' ps]; [done|]. cbn [chain] in Hc.
  destruct Hc as ([= <-] & o & n & Hn & _ & Hv & Hc). destruct fuel as [|fuel]; [cbn in Hf; lia|].
  apply not_elem_of_cons in Hx as [Hxc Hx].
  destruct (CloneValue_spec P Q _ v a m HQ Hv) as (n' & m1 & E1 & Hv1 & K1 & A1).
  cbn [CloneNode]. unfold node_at at 1 2. rewrite Hn, Hm, E1. destruct (next_ n) as [next|] eqn:En.
  - destruct vs as [|v' vs]; [by destruct ps|].
    pose proof (link_next Q a x oc c n' v m m1 Hm K1 A1 Hv1) as Hl. destruct (CreateScratch a m1) as [q m2].
    pose proof Hl as [L1 L2 [L3 L4] L5 L6 L7].
    destruct (IH fuel next ps q (Scratch a) (MkNode NNone None) [] VNone [] (put_node x (MkNode n' (Some q)) m2))
      as (m' & rs & E & HC); try done.
    + eapply (chain_kept P x m); [done|unfold node_at; by rewrite Hm|done|done].
    + cbn in Hf |- *. lia.
    + intros Hin. destruct (chain_in P m _ _ _ q Hc Hin) as [nq Hnq]. unfold node_at in Hnq. by rewrite L3 in Hnq.
    + by apply NoDup_singleton.
    + exists m', (q :: rs). split; [done|]. by eapply cloned_more.
  - destruct ps as [|p' ps]; [|by destruct vs, Hc]. destruct vs as [|v' vs]; [|done].
    eexists _, qs. split; [reflexivity|]. by eapply (cloned_last Q a x oc c).
Qed.

(** * Merging *)

(** What the allocator and the map of a configuration will free. *)
Definition owned_by (a : nat) (o : Owner) : Prop := o = Scratch a \/ o = MapNode a.

(** A map in memory holds a configuration in blocks with owners in [P]; the
    key [k] has the nodes [cells k], which no other key has. *)
Record holds (P : Owner -> Prop) (m : Memory) (values : NodeMap) (cells : bytes -> list nat) (conf : ConfigMap) : Prop := {
  ho_key : forall k, match values !! k with
    | None => conf !! k = None
    | Some (text, head) => exists vs, conf !! k = Some vs /\ text_held P m text k /\
        chain P m (Some head) (cells k) vs /\ NoDup (cells k)
    end;
  ho_apart : forall k1 k2 p, is_Some (values !! k1) -> is_Some (values !! k2) -> p ∈ cells k1 -> p ∈ cells k2 -> k1 = k2
}.

Lemma text_held_kept P x m m' p t : kept x m m' -> is_Some (node_at m x) -> text_held P m p t -> text_held P m' p t.
Proof. apply (value_held_kept P x m m' (NString p) (VString t)). Qed.

Lemma holds_in P m values cells conf k p :
  holds P m values cells conf -> is_Some (values !! k) -> p ∈ cells k -> is_Some (node_at m p).
Proof.
  intros [Hk _] [[text head] E] Hp. specialize (Hk k). rewrite E in Hk. destruct Hk as (vs & _ & _ & Hc & _).
  by apply (chain_in P m _ _ _ p Hc).
Qed.

(** The configuration after the value of one key was cloned into its nodes. *)
Lemma holds_cloned P a x oc qs rs vs m m' values values' cells conf k text :
  holds P m values cells conf -> cloned P a x oc qs rs vs m m' -> is_Some (node_at m x) ->
  values' !! k = Some (text, x) -> (forall k', k' <> k -> values' !! k' = values !! k') -> text_held P m text k ->
  (forall k' p, k' <> k -> is_Some (values !! k') -> p ∈ x :: qs -> p ∉ cells k') ->
  holds P m' values' (<[k := x :: rs]> cells) (<[k := vs]> conf).
Proof.
  intros Hh [C1 _ _ C4 C5 C6] Hx Hk Hne Ht Hap. pose proof Hh as [Hkey Hapart].
  assert (Hnew : forall k' p, k' <> k -> is_Some (values !! k') -> p ∈ x :: rs -> p ∉ cells k').
  { intros k' p Hk' Hs [->|Hp]%elem_of_cons; [apply Hap; [done|done|left]|].
    destruct (C5 p Hp) as [Hq|Hm]; [apply Hap; [done|done|by right]|]. intros Hin.
    destruct (holds_in P m values cells conf k' p Hh Hs Hin) as [n Hn]. unfold node_at in Hn. by rewrite Hm in Hn. }
  split.
  - intros k'. destruct (decide (k' = k)) as [->|Hn].
    + rewrite Hk, fn_lookup_insert. exists vs. rewrite lookup_insert_eq. split_and!; try done. by apply (text_held_kept P x m).
    + rewrite Hne, fn_lookup_insert_ne, lookup_insert_ne by done. specialize (Hkey k').
      destruct (values !! k') as [[t h]|] eqn:E; [|done]. destruct Hkey as (ws & E1 & E2 & E3 & E4). exists ws.
      split_and!; [done|by apply (text_held_kept P x m)| |done]. apply (chain_kept P x m); [done|done| |done].
      apply Hap; [done|by rewrite E|left].
  - intros k1 k2 p. destruct (decide (k1 = k)) as [->|Hn1], (decide (k2 = k)) as [->|Hn2]; try done.
    + rewrite fn_lookup_insert, fn_lookup_insert_ne, (Hne k2) by done. intros _ Hs Hp Hp2. by destruct (Hnew k2 p).
    + rewrite fn_lookup_insert, fn_lookup_insert_ne, (Hne k1) by done. intros Hs _ Hp2 Hp. by destruct (Hnew k1 p).
    + rewrite !fn_lookup_insert_ne, !Hne by done. apply Hapart.
Qed.

Lemma holds_kept_in P m m' values cells conf :
  kept_in P m m' -> holds P m values cells conf -> holds P m' values cells conf.
Proof.
  intros K [Hk Ha]. split; [|done]. intros k. specialize (Hk k). destruct (values !! k) as [[t h]|]; [|done].
  destruct Hk as (vs & E1 & (o & Eo & HP) & E3 & E4). exists vs. split_and!; [done| |by apply (chain_kept_in P m)|done].
  exists o. split; [|done]. by apply K.
Qed.

(** What blocks others own is as before. *)
Definition leaves_others (a : nat) (m m' : Memory) : Prop := kept_in (fun o => ~ owned_by a o) m m'.

Lemma kept_in_all P m m' : (forall x, kept x m m') -> kept_in P m m'.
Proof. intros K p b Hp _. by apply (K (S p)); [|lia]. Qed.

Lemma alloc_facts o c m x m1 : alloc o c m = (x, m1) ->
  m !! x = None /\ m1 !! x = Some (MkBlock o c) /\ forall y, kept y m m1.
Proof.
  intros E. pose proof (alloc_fresh o c m) as Hx. rewrite E in Hx. split; [done|]. split.
  - injection E as -> <-. apply lookup_insert_eq.
  - intros y. pose proof (alloc_kept o c m y) as K. by rewrite E in K.
Qed.

(** A key that is not there yet gets a node of its own. *)
Lemma MergeValue_absent (Q : Owner -> Prop) a fuel k key head ps vs m1 L lc lconf x m2 :
  (forall o, owned_by a o -> ~ Q o) -> holds (owned_by a) m1 L lc lconf -> text_held (owned_by a) m1 key k ->
  chain Q m1 (Some head) ps vs -> (length vs <= fuel)%nat -> L !! k = None -> lconf !! k = None ->
  alloc (MapNode a) (CNode (MkNode NNone None)) m1 = (x, m2) ->
  exists m' lc', CloneNode fuel head x a m2 = Some m' /\ leaves_others a m1 m' /\
    holds (owned_by a) m' (<[k := (key, x)]> L) lc' (<[k := Config.CloneNode vs [VNone]]> lconf).
Proof.
  intros Hd Hl1 Hkey Hc1 Hf EL HkL Ex. destruct (alloc_facts _ _ _ _ _ Ex) as (Hx1 & Hx2 & K2).
  assert (Hxps : x ∉ ps).
  { intros Hin. destruct (chain_owner Q m1 _ _ _ x Hc1 Hin) as (b & Hb & _). congruence. }
  destruct (CloneNode_copies Q (owned_by a) a vs (or_introl eq_refl) fuel head ps x (MapNode a) (MkNode NNone None) [] VNone [] m2)
    as (m' & rs & E & HC); [|done|done|done|by right|done|by apply NoDup_singleton|].
  { eapply chain_kept_in; [by apply kept_in_all|done]. }
  exists m', (<[k := x :: rs]> lc). split; [done|]. split.
  - intros p b Hp _. apply (cl_kept _ _ _ _ _ _ _ _ _ HC); [by apply (K2 (S p)); [|lia]|]. intros ->. congruence.
  - eapply (holds_cloned (owned_by a) a x (MapNode a) [] rs _ m2 m' L _ lc lconf k key);
      [by eapply holds_kept_in; [apply kept_in_all|]|done|unfold node_at; by rewrite Hx2|by rewrite lookup_insert_eq| | |].
    + intros k' Hk'. by rewrite lookup_insert_ne.
    + destruct Hkey as (o & Eo & HPo). exists o. split; [apply (K2 (S key)); [done|lia]|done].
    + intros k' p Hk' Hs ->%list_elem_of_singleton Hin.
      destruct (holds_in _ m1 L lc lconf k' x Hl1 Hs Hin) as [n Hn]. unfold node_at in Hn. by rewrite Hx1 in Hn.
Qed.

(** One key: its values are cloned into the nodes the left map has for it, or
    into a new node. *)
Lemma MergeValue_spec (Q : Owner -> Prop) a fuel k text head ps vs m L lc lconf :
  (forall o, owned_by a o -> ~ Q o) -> holds (owned_by a) m L lc lconf ->
  text_held Q m text k -> chain Q m (Some head) ps vs -> (length vs <= fuel)%nat ->
  exists L' m' lc', MergeValue fuel a (k, (text, head)) (L, m) = Some (L', m') /\ leaves_others a m m' /\
    holds (owned_by a) m' L' lc' (<[k := Config.CloneNode vs (default [VNone] (lconf !! k))]> lconf).
Proof.
  intros Hd Hl (ot & Et & _) Hc Hf. unfold MergeValue, MakeScratchCStrCopy, text_at. cbn [fst snd]. rewrite Et.
  destruct (alloc (Scratch a) (CText k) m) as [key m1] eqn:Ea.
  destruct (alloc_facts _ _ _ _ _ Ea) as (_ & Hk & K1).
  assert (Hkey : text_held (owned_by a) m1 key k) by (exists (Scratch a); split; [done|by left]).
  assert (Hl1 : holds (owned_by a) m1 L lc lconf) by (eapply holds_kept_in; [by apply kept_in_all|done]).
  assert (Hc1 : chain Q m1 (Some head) ps vs) by (eapply chain_kept_in; [by apply kept_in_all|done]).
  assert (Hout : forall o c x, m1 !! x = Some (MkBlock o c) -> owned_by a o -> x ∉ ps).
  { intros o c x Hx Ho Hin. destruct (chain_owner Q m1 _ _ _ x Hc1 Hin) as (b & Hb & HQ). rewrite Hx in Hb.
    injection Hb as <-. by apply (Hd o). }
  pose proof (ho_key _ _ _ _ _ Hl1 k) as HkL. destruct (L !! k) as [[kt x]|] eqn:EL.
  - destruct HkL as (ws & Ews & Hkt & Hcx & Hnd). rewrite Ews. cbn [default].
    destruct ws as [|w0 ws]; [by destruct (lc k)|]. destruct (lc k) as [|x' qs] eqn:Elc; [done|].
    apply chain_cons in Hcx as ([= <-] & oc & c & Ex & Hoc & Hv & Hqs).
    destruct (CloneNode_copies Q (owned_by a) a vs (or_introl eq_refl) fuel head ps x oc c qs w0 ws m1) as (m' & rs & E & HC);
      [done|done|by eapply Hout|done|done|done|done|].
    exists L, m', (<[k := x :: rs]> lc). rewrite E. split; [done|]. split.
    + intros p b Hp Hb. apply (cl_kept _ _ _ _ _ _ _ _ _ HC); [by apply (K1 (S p)); [|lia]|]. intros ->.
      rewrite (K1 (S x) x b Hp ltac:(lia)) in Ex. injection Ex as ->. by apply Hb.
    + eapply holds_cloned; [done|done|unfold node_at; by rewrite Ex|done|done|done|].
      intros k' p Hk' Hs Hp Hin. apply Hk'. apply (ho_apart _ _ _ _ _ Hl1 k' k p); [done|by eexists|done|by rewrite Elc].
  - rewrite HkL. cbn [default].
    destruct (alloc (MapNode a) (CNode (MkNode NNone None)) m1) as [x m2] eqn:Ex.
    destruct (MergeValue_absent Q a fuel k key head ps vs m1 L lc lconf x m2) as (m' & lc' & E & HC & HL); try done.
    eexists _, m', lc'. rewrite E. split; [done|]. split; [|done]. intros p b Hp Hb. apply HC; [by apply (K1 (S p)); [|lia]|done].
Qed.

(** The values of a merged map, one key at a time. *)
Definition merge_key (rconf : ConfigMap) (conf : ConfigMap) (it : bytes * (nat * nat)) : ConfigMap :=
  <[fst it := Config.CloneNode (default [] (rconf !! fst it)) (default [VNone] (conf !! fst it))]> conf.

Lemma MergeValues_spec a r fuel R rc rconf items m L lc lconf :
  a <> r -> (forall k vs, rconf !! k = Some vs -> (length vs <= fuel)%nat) -> holds (owned_by r) m R rc rconf ->
  Forall (fun it => R !! fst it = Some (snd it)) items -> holds (owned_by a) m L lc lconf ->
  exists L' m' lc', MergeValues fuel a items (L, m) = Some (L', m') /\ leaves_others a m m' /\
    holds (owned_by a) m' L' lc' (fold_left (merge_key rconf) items lconf).
Proof.
  intros Har Hf Hr Hit. revert m L lc lconf Hr. induction Hit as [|[k [text head]] items Hk _ IH]; intros m L lc lconf Hr Hl.
  - exists L, m, lc. split; [done|]. split; [by intros p b|done].
  - assert (Hd : forall o, owned_by a o -> ~ owned_by r o) by (intros o [-> | ->] [E|E]; congruence).
    pose proof (ho_key _ _ _ _ _ Hr k) as Hrk. cbn [fst snd] in Hk. rewrite Hk in Hrk.
    destruct Hrk as (vs & Evs & Ht & Hc & _).
    destruct (MergeValue_spec (owned_by r) a fuel k text head (rc k) vs m L lc lconf Hd Hl Ht Hc (Hf k vs Evs))
      as (L1 & m1 & lc1 & E1 & K1 & H1).
    assert (Hr1 : holds (owned_by r) m1 R rc rconf).
    { apply (holds_kept_in _ m); [|done]. intros p b Hp Ho. apply K1; [done|]. by intros Ha; apply (Hd _ Ha). }
    destruct (IH m1 L1 lc1 _ Hr1 H1) as (L' & m' & lc' & E & K & HL).
    exists L', m', lc'. cbn [MergeValues]. rewrite E1. split; [exact E|]. split.
    + intros p b Hp Ho. apply K; [by apply K1|done].
    + cbn [fold_left]. unfold merge_key at 2. cbn [fst]. by rewrite Evs.
Qed.

Lemma merged_lookup rconf items conf k :
  NoDup (map fst items) ->
  fold_left (merge_key rconf) items conf !! k =
  if decide (k ∈ map fst items) then Some (Config.CloneNode (default [] (rconf !! k)) (default [VNone] (conf !! k)))
  else conf !! k.
Proof.
  revert conf. induction items as [|[k1 x] items IH]; intros conf Hnd.
  - cbn. case_decide as Hin; [by apply elem_of_nil in Hin|done].
  - cbn [map fst fold_left] in *. pose proof (NoDup_cons_1_1 _ _ Hnd) as Hk1. rewrite IH by (by apply NoDup_cons_1_2 in Hnd).
    unfold merge_key. cbn [fst]. destruct (decide (k = k1)) as [->|Hne].
    + rewrite !decide_False by done. rewrite decide_True by left. by rewrite lookup_insert_eq.
    + rewrite lookup_insert_ne by done. case_decide as Hin; [rewrite decide_True by (by right); done|].
      rewrite decide_False; [done|]. intros [?|?]%elem_of_cons; done.
Qed.

(** Whatever the order in which the map is iterated, the result is
    [Config.Merge]. *)
Lemma merged_conf P m R rc rconf items lconf :
  holds P m R rc rconf -> items ≡ₚ map_to_list R -> fold_left (merge_key rconf) items lconf = Config.Merge lconf rconf.
Proof.
  intros Hr Hp. apply map_eq. intros k. unfold Config.Merge. rewrite MergeValues_lookup, merged_lookup.
  2: { rewrite Hp. apply NoDup_fst_map_to_list. }
  pose proof (ho_key _ _ _ _ _ Hr k) as Hk. destruct (R !! k) as [[t h]|] eqn:E.
  - destruct Hk as (vs & Evs & _). rewrite Evs, decide_True; [done|]. apply list_elem_of_fmap. exists (k, (t, h)).
    split; [done|]. rewrite Hp. by apply elem_of_map_to_list.
  - rewrite Hk, decide_False; [done|]. intros ([k' v] & Ek & Hin)%list_elem_of_fmap. cbn in Ek. subst k'.
    rewrite Hp in Hin. apply elem_of_map_to_list in Hin. congruence.
Qed.

Lemma items_found (R : NodeMap) items : items ≡ₚ map_to_list R -> Forall (fun it => R !! fst it = Some (snd it)) items.
Proof.
  intros Hp. rewrite Hp. apply List.Forall_forall. intros [k v] Hin%list_elem_of_In. by apply elem_of_map_to_list in Hin.
Qed.

Lemma ConfigDestroy_kept a r m : a <> r -> kept_in (owned_by a) m (ConfigDestroy r m).
Proof.
  intros Har p b Hp Ho. unfold ConfigDestroy. apply map_lookup_filter_Some. split; [done|]. cbn.
  destruct Ho as [-> | ->]; split; congruence.
Qed.

(** C19. A merged configuration stands on its own: merging copies every value
    and text, so in memory -- whatever the order in which the map on the right
    is iterated, with blocks of any other owner left alone -- the result
    represents the merge of the two configurations, and it still does after
    the configuration on the right and all it owned have been freed. *)
Theorem merged_config_outlives_right a r m L lc lconf R rc rconf items fuel :
  a <> r -> holds (owned_by a) m L lc lconf -> holds (owned_by r) m R rc rconf -> items ≡ₚ map_to_list R ->
  (forall k vs, rconf !! k = Some vs -> (length vs <= fuel)%nat) ->
  exists L' m' lc', MergeValues fuel a items (L, m) = Some (L', m') /\ leaves_others a m m' /\
    holds (owned_by a) (ConfigDestroy r m') L' lc' (Config.Merge lconf rconf).
Proof.
  intros Har Hl Hr Hp Hf.
  destruct (MergeValues_spec a r fuel R rc rconf items m L lc lconf Har Hf Hr (items_found R items Hp) Hl)
    as (L' & m' & lc' & E & K & HL).
  exists L', m', lc'. split; [done|]. split; [done|]. rewrite (merged_conf _ _ _ _ _ _ _ Hr Hp) in HL.
  eapply holds_kept_in; [by apply ConfigDestroy_kept|done].
Qed.

(** [(a 1 2)] with [(a "x") (b yes)] merged in: the tail of the longer list
    stays, as in [Config]. *)
Definition demo_left : NodeMap := {[ lit "a" := (0, 1)%nat ]}.
Definition demo_right : NodeMap := {[ lit "a" := (3, 4)%nat; lit "b" := (6, 7)%nat ]}.
Definition demo_nodes (k : bytes) : list nat := if decide (k = lit "a") then [1; 2]%nat else [].
Definition demo_nodes2 (k : bytes) : list nat :=
  if decide (k = lit "a") then [4%nat] else if decide (k = lit "b") then [7%nat] else [].
Definition demo_memory : Memory := list_to_map (zip (seq 0 8) [
  MkBlock (Scratch 0) (CText (lit "a"));
  MkBlock (MapNode 0) (CNode (MkNode (NInt 1) (Some 2%nat)));
  MkBlock (Scratch 0) (CNode (MkNode (NInt 2) None));
  MkBlock (Scratch 1) (CText (lit "a"));
  MkBlock (MapNode 1) (CNode (MkNode (NString 5) None));
  MkBlock (Scratch 1) (CText (lit "x"));
  MkBlock (Scratch 1) (CText (lit "b"));
  MkBlock (MapNode 1) (CNode (MkNode (NBool true) None))]).
Definition demo_left_conf : ConfigMap := {[ lit "a" := [VInt 1; VInt 2] ]}.
Definition demo_right_conf : ConfigMap := {[ lit "a" := [VString (lit "x")]; lit "b" := [VBool true] ]}.

Ltac demo_block := eexists; split; [vm_compute; reflexivity|by (left + right)].

Lemma demo_left_holds : holds (owned_by 0) demo_memory demo_left demo_nodes demo_left_conf.
Proof.
  unfold demo_left, demo_left_conf, demo_nodes. split.
  - intros k. destruct (decide (k = lit "a")) as [->|Hk]; [|by rewrite !lookup_singleton_ne by done].
    rewrite !lookup_singleton_eq. eexists. split; [done|]. split_and!; [demo_block| |].
    + do 2 (apply chain_cons; split; [done|]; eexists _, _; split; [vm_compute; reflexivity|];
        split; [by (left + right)|]; split; [done|]). done.
    + apply (bool_decide_unpack _). vm_compute. exact I.
  - intros k1 k2 p [x1 Hx1] [x2 Hx2] _ _. apply lookup_singleton_Some in Hx1 as [<- _], Hx2 as [<- _]. done.
Qed.

Lemma demo_right_holds : holds (owned_by 1) demo_memory demo_right demo_nodes2 demo_right_conf.
Proof.
  unfold demo_right, demo_right_conf, demo_nodes2. split.
  - intros k. destruct (decide (k = lit "a")) as [->|Ha]; [|destruct (decide (k = lit "b")) as [->|Hb]].
    + rewrite !lookup_insert_eq. eexists. split; [done|]. split_and!; [demo_block| |by apply NoDup_singleton].
      apply chain_cons. split; [done|]. eexists _, _. split; [vm_compute; reflexivity|]. split; [by right|]. split; [|done].
      demo_block.
    + rewrite !lookup_insert_ne, !lookup_singleton_eq by done. eexists. split; [done|]. split_and!; [demo_block| |by apply NoDup_singleton].
      apply chain_cons. split; [done|]. eexists _, _. split; [vm_compute; reflexivity|]. split; [by right|]. by split.
    + by rewrite !lookup_insert_ne, !lookup_singleton_ne by done.
  - intros k1 k2 p _ _. repeat case_decide; subst; rewrite ?list_elem_of_singleton; try done; try (by intros ?%elem_of_nil);
      try (by intros _ ?%elem_of_nil); congruence.
Qed.

Lemma merged_config_outlives_right_witness :
  exists L' m' lc', MergeValues 1 0 (map_to_list demo_right) (demo_left, demo_memory) = Some (L', m') /\
    holds (owned_by 0) (ConfigDestroy 1 m') L' lc'
      {[ lit "a" := [VString (lit "x"); VInt 2]; lit "b" := [VBool true] ]}.
Proof.
  destruct (merged_config_outlives_right 0 1 demo_memory demo_left demo_nodes demo_left_conf demo_right demo_nodes2 demo_right_conf
    (map_to_list demo_right) 1) as (L' & m' & lc' & E & _ & Hh); [lia|apply demo_left_holds|apply demo_right_holds|done| |].
  - intros k vs. unfold demo_right_conf. destruct (decide (k = lit "a")) as [->|Ha]; [rewrite lookup_insert_eq; by intros [= <-]|].
    rewrite lookup_insert_ne by done. intros [_ <-]%lookup_singleton_Some. done.
  - exists L', m', lc'. split; [exact E|]. exact Hh.
Defined.
