(* ===== verification/ConfigHandles.v ===== *)
(** [ConfigList] ([config/config.h]) over the memory of [ConfigNodes]: handles
    that own a list of nodes or look at one, their iterators, and reading a
    list as an array. *)
From S2P Require Import Prelude Either CLib Config ConfigNodes.
From stdpp Require Import fin_maps fin_map_dom functions.

(** * Operations *)

(** The arguments a list can be made of; an [int] and a [long] become 64-bit
    values, a [char] pointer the span of its text. *)
Inductive ListArg := AInt (i : Z) | ALong (i : Z) | ADouble (d : double) | ABool (b : bool) | AChars (text : nat).

(** source/config/config_detail.h:90-118 [ConfigValueConvertType] *)
Definition ConvertArg (a : ListArg) : NodeValue :=
  match a with
  | AInt i | ALong i => NInt i
  | ADouble d => NDouble d
  | ABool b => NBool b
  | AChars text => NString text
  end.

(** source/config/config_detail.h:120-131 [ConfigCreateList] *)
Fixpoint ConfigCreateList (args : list ListArg) (m : Memory) : option nat * Memory :=
  match args with
  | [] => (None, m)
  | head :: tail =>
      let '(node, m) := Create m in
      let m := put_node node (MkNode (ConvertArg head) None) m in
      let '(next, m) := ConfigCreateList tail m in
      (Some node, put_node node (MkNode (ConvertArg head) next) m)
  end.

(** source/config/config.h:107-114 [ConfigList] *)
Record ConfigList := MkList { head_ : option nat; owned_ : bool }.

(** source/config/config.h:208-211 [ConfigList::Make] *)
Definition Make (args : list ListArg) (m : Memory) : ConfigList * Memory :=
  let '(head, m) := ConfigCreateList args m in (MkList head true, m).

(** The new list, and the one it was moved from. *)
(** source/config/config.h:84-88 [ConfigList::ConfigList] *)
Definition ConfigListMove (other : ConfigList) : ConfigList * ConfigList :=
  (MkList (head_ other) (owned_ other), MkList (head_ other) false).

(** source/config/config.h:92-97 [ConfigList::~ConfigList] *)
Definition ConfigListDestroy (fuel : nat) (l : ConfigList) (m : Memory) : option Memory :=
  if owned_ l then match head_ l with None => None | Some _ => Destroy fuel (head_ l) m end else Some m.

(** A list of the configuration's own nodes. *)
(** source/config/config.cc:333-340 [Config::GetList] *)
Definition GetList (key : bytes) (values : NodeMap) : Either ConfigKeyError ConfigList :=
  match values !! c_str key with
  | None => Left DoesNotExist
  | Some (_, node) => Right (MkList (Some node) false)
  end.

(** ** Iterators *)

(** [ConfigList::Iterator]: the node it is at. *)
Abbreviation Iterator := (option nat).

(** source/config/config.h:104-104 [ConfigList::begin] *)
Definition begin_ (l : ConfigList) : Iterator := head_ l.
(** source/config/config.h:105-105 [ConfigList::end] *)
Definition end_ : Iterator := None.

(** source/config/config.h:55-59 [ConfigList::Iterator::operator++] *)
Definition IterNext (m : Memory) (it : Iterator) : option Iterator :=
  match it with None => None | Some node => option_map next_ (node_at m node) end.

(** The iterator before, and the moved one. *)
(** source/config/config.h:61-66 [ConfigList::Iterator::operator++] *)
Definition IterPostNext (m : Memory) (it : Iterator) : option (Iterator * Iterator) :=
  match it with None => None | Some node => option_map (fun n => (it, next_ n)) (node_at m node) end.

(** source/config/config.h:69-69 [ConfigList::Iterator::operator==] *)
Definition IterEq (it other : Iterator) : bool := bool_decide (it = other).
(** source/config/config.h:70-70 [ConfigList::Iterator::operator!=] *)
Definition IterNe (it other : Iterator) : bool := bool_decide (it <> other).

(** What a value is, with the text of a string. *)
Definition read_value (m : Memory) (v : NodeValue) : option ConfigValue :=
  match v with
  | NNone => Some VNone
  | NInt i => Some (VInt i)
  | NDouble d => Some (VDouble d)
  | NBool b => Some (VBool b)
  | NString p => option_map VString (text_at m p)
  end.

Section Arrays.
  Context {A : Type} (conv : ConfigValue -> option A) (default_ : A).

(** source/config/config.h:213-221 [ConfigList::Iterator::Get] *)
Definition IterGet (m : Memory) (it : Iterator) : option (Either ConfigKeyError A) :=
  match it with
  | None => None
  | Some node =>
      match node_at m node ≫= fun n => read_value m (value_ n) with
      | None => None
      | Some v => Some (match conv v with None => Left InvalidType | Some a => Right a end)
      end
  end.

(** The number of items, [None] if one has another type. *)
(** source/config/config.h:225-234 [ConfigList::AsArray] *)
Fixpoint CountItems (fuel : nat) (m : Memory) (it : Iterator) (num_items : nat) : option (option nat) :=
  if negb (IterNe it end_) then Some (Some num_items) else
  match fuel, IterGet m it, IterNext m it with
  | S fuel, Some (Left _), _ => Some None
  | S fuel, Some (Right _), Some it => CountItems fuel m it (S num_items)
  | _, _, _ => None
  end.

(** source/config/config.h:240-246 [ConfigList::AsArray] *)
Fixpoint FillItems (fuel : nat) (m : Memory) (it : Iterator) (i : nat) (result : list A) : option (list A) :=
  if negb (IterNe it end_) then Some result else
  match fuel, IterGet m it, IterNext m it with
  | S fuel, Some (Right a), Some it =>
      if bool_decide (i < length result)%nat then FillItems fuel m it (S i) (<[i := a]> result) else None
  | _, _, _ => None
  end.

(** source/config/config.h:223-249 [ConfigList::AsArray] *)
Definition AsArray (fuel : nat) (m : Memory) (l : ConfigList) : option (option (list A)) :=
  match CountItems fuel m (begin_ l) 0 with
  | None => None
  | Some None => Some None
  | Some (Some num_items) => option_map Some (FillItems fuel m (begin_ l) 0 (replicate num_items default_))
  end.

(** ** Reading *)

Lemma read_value_held m n v : value_held (fun _ => True) m n v -> read_value m n = Some v.
Proof.
  destruct n, v; cbn; try done; try (by intros ->).
  intros (o & Ho & _). unfold text_at. by rewrite Ho.
Qed.

Lemma chain_first m p ps v vs :
  chain (fun _ => True) m p ps (v :: vs) ->
  exists a ps' next, ps = a :: ps' /\ p = Some a /\ IterNext m p = Some next /\
    IterGet m p = Some (match conv v with None => Left InvalidType | Some a => Right a end) /\
    chain (fun _ => True) m next ps' vs.
Proof.
  destruct ps as [|a ps]; [done|]. intros (-> & o & n & Ha & _ & Hv & Hc). exists a, ps, (next_ n).
  cbn [IterNext IterGet]. unfold node_at. rewrite Ha. cbn [option_map mbind option_bind].
  by rewrite (read_value_held m _ v Hv).
Qed.

Lemma CountItems_spec m fuel p ps vs n :
  chain (fun _ => True) m p ps vs -> (length vs <= fuel)%nat ->
  CountItems fuel m p n = Some (option_map (fun l => n + length l)%nat (Config.AsArray conv vs)).
Proof.
  revert fuel p ps n. induction vs as [|v vs IH]; intros fuel p ps n Hc Hf.
  - destruct ps; [|done]. cbn in Hc. subst p. destruct fuel; cbn; by rewrite Nat.add_0_r.
  - destruct (chain_first m p ps v vs Hc) as (a & ps' & next & -> & -> & En & Eg & Hc').
    destruct fuel as [|fuel]; [cbn in Hf; lia|]. cbn [CountItems]. rewrite Eg, En.
    unfold Config.AsArray. fold (Config.AsArray conv). destruct (conv v) as [x|]; [|done].
    change ((fix count (vs0 : list ConfigValue) : option (list A) := _) vs) with (Config.AsArray conv vs).
    rewrite (IH fuel next ps') by (try done; cbn in Hf; lia). destruct (Config.AsArray conv vs); [|done].
    cbn. do 2 f_equal. lia.
Qed.

Lemma AsArray_cons v vs :
  Config.AsArray conv (v :: vs) = match conv v with None => None | Some a => option_map (cons a) (Config.AsArray conv vs) end.
Proof. done. Qed.

Lemma FillItems_spec m fuel p ps vs l pre :
  chain (fun _ => True) m p ps vs -> (length vs <= fuel)%nat -> Config.AsArray conv vs = Some l ->
  FillItems fuel m p (length pre) (pre ++ replicate (length l) default_) = Some (pre ++ l).
Proof.
  revert fuel p ps l pre. induction vs as [|v vs IH]; intros fuel p ps l pre Hc Hf E.
  - destruct ps; [|done]. cbn in Hc. subst p. injection E as <-. by destruct fuel.
  - destruct (chain_first m p ps v vs Hc) as (a & ps' & next & -> & -> & En & Eg & Hc').
    destruct fuel as [|fuel]; [cbn in Hf; lia|]. cbn [FillItems]. rewrite Eg, En.
    rewrite AsArray_cons in E. destruct (conv v) as [x|]; [|done]. destruct (Config.AsArray conv vs) as [l'|]; [|done].
    injection E as <-. cbn [length replicate]. rewrite bool_decide_eq_true_2 by (rewrite length_app; cbn; lia).
    replace (<[length pre := x]> (pre ++ default_ :: replicate (length l') default_))
      with ((pre ++ [x]) ++ replicate (length l') default_).
    2: { rewrite insert_app_r_alt, Nat.sub_diag by lia. by rewrite <- app_assoc. }
    replace (S (length pre)) with (length (pre ++ [x])) by (rewrite length_app; cbn; lia).
    rewrite (IH fuel next ps' l') by (try done; cbn in Hf; lia). by rewrite <- app_assoc.
Qed.

(** Reading a list in memory is [Config.AsArray] of its values. *)
Lemma AsArray_spec m fuel l ps vs :
  chain (fun _ => True) m (head_ l) ps vs -> (length vs <= fuel)%nat ->
  AsArray fuel m l = Some (Config.AsArray conv vs).
Proof.
  intros Hc Hf. unfold AsArray, begin_. rewrite (CountItems_spec m fuel _ ps vs 0 Hc Hf).
  destruct (Config.AsArray conv vs) as [r|] eqn:E; [|done]. cbn [option_map Nat.add].
  apply (f_equal (option_map Some) (FillItems_spec m fuel _ ps vs r [] Hc Hf E)).
Qed.
End Arrays.

(** What [GetList] looks at in the memory of a configuration is what it has in
    [Config]. *)
Lemma GetList_spec P m values cells conf key :
  holds P m values cells conf ->
  match GetList key values with
  | Left e => Config.GetList key conf = Left e
  | Right l => exists vs, Config.GetList key conf = Right vs /\ owned_ l = false /\ chain P m (head_ l) (cells (c_str key)) vs
  end.
Proof.
  intros [Hk _]. specialize (Hk (c_str key)). unfold GetList, Config.GetList.
  destruct (values !! c_str key) as [[t h]|]; [|by rewrite Hk]. destruct Hk as (vs & -> & _ & Hc & _). by exists vs.
Qed.

(** * Who frees a list *)

(** The nodes of a list that was made. *)
Fixpoint made (m : Memory) (p : option nat) (ps : list nat) (vs : list NodeValue) : Prop :=
  match ps, vs with
  | [], [] => p = None
  | a :: ps, v :: vs => p = Some a /\ exists next, m !! a = Some (MkBlock System (CNode (MkNode v next))) /\ made m next ps vs
  | _, _ => False
  end.

Lemma made_mono m m' p ps vs : (forall a, a ∈ ps -> m' !! a = m !! a) -> made m p ps vs -> made m' p ps vs.
Proof.
  revert p vs. induction ps as [|a ps IH]; intros p [|v vs] Hm; cbn [made]; try done.
  intros (-> & next & Ha & Hc). split; [done|]. exists next. rewrite Hm by left. split; [done|].
  apply IH; [|done]. intros b Hb. apply Hm. by right.
Qed.

Lemma made_length m p ps vs : made m p ps vs -> length ps = length vs.
Proof.
  revert p vs. induction ps as [|a ps IH]; intros p [|v vs]; cbn [made]; try done.
  intros (_ & next & _ & Hc). cbn. f_equal. by eapply IH.
Qed.

(** Memory with the nodes [ps] besides. *)
Definition adds (ps : list nat) (m m' : Memory) : Prop :=
  (forall p b, m !! p = Some b -> m' !! p = Some b) /\ (forall p, p ∈ dom m' <-> p ∈ dom m \/ p ∈ ps) /\
  NoDup ps /\ (forall p, p ∈ ps -> m !! p = None).

Lemma ConfigCreateList_spec vs m :
  let '(h, m') := ConfigCreateList vs m in exists ps, made m' h ps (map ConvertArg vs) /\ adds ps m m'.
Proof.
  revert m. induction vs as [|v vs IH]; intros m; cbn [ConfigCreateList].
  - exists []. split; [done|]. split_and!; [done|set_solver|constructor|by intros p ?%elem_of_nil].
  - unfold Create, alloc. set (a := fresh (dom m)). assert (Ha : m !! a = None) by apply not_elem_of_dom, is_fresh.
    set (m1 := put_node a (MkNode (ConvertArg v) None) (<[a:=MkBlock System (CNode (MkNode NNone None))]> m)).
    assert (E1 : m1 = <[a := MkBlock System (CNode (MkNode (ConvertArg v) None))]> m) by (unfold m1, put_node; by rewrite alter_insert_eq).
    specialize (IH m1). destruct (ConfigCreateList vs m1) as [next m2]. destruct IH as (ps & Hmade & K & D & Hnd & Hnew).
    assert (Hap : a ∉ ps) by (intros Hin; specialize (Hnew a Hin); rewrite E1, lookup_insert_eq in Hnew; done).
    assert (H2 : m2 !! a = Some (MkBlock System (CNode (MkNode (ConvertArg v) None)))) by (apply K; rewrite E1; apply lookup_insert_eq).
    exists (a :: ps). split; [cbn [made]; split; [done|]; exists next; split; [by eapply put_node_eq|]|split_and!].
    + eapply made_mono; [|done]. intros b Hb. unfold put_node. rewrite lookup_alter_ne; [done|]. by intros ->.
    + intros p b Hp. assert (p <> a) by congruence. unfold put_node. rewrite lookup_alter_ne by done. apply K.
      rewrite E1. by rewrite lookup_insert_ne.
    + intros p. unfold put_node. rewrite dom_alter, D, E1, dom_insert. set_solver.
    + by constructor.
    + intros p [->|Hp]%elem_of_cons; [done|]. specialize (Hnew p Hp). rewrite E1 in Hnew.
      by apply lookup_insert_None in Hnew as [? _].
Qed.

Lemma Destroy_spec vs fuel p ps m :
  made m p ps vs -> NoDup ps -> (length vs <= fuel)%nat ->
  exists m', Destroy fuel p m = Some m' /\ forall q, m' !! q = if decide (q ∈ ps) then None else m !! q.
Proof.
  revert fuel p ps m. induction vs as [|v vs IH]; intros fuel p [|a ps] m; cbn [made]; try done.
  - intros -> _ _. exists m. by destruct fuel.
  - intros (-> & next & Ha & Hc) Hnd Hf. destruct fuel as [|fuel]; [cbn in Hf; lia|]. cbn [Destroy]. rewrite Ha.
    pose proof (NoDup_cons_1_1 _ _ Hnd) as Hn. pose proof (NoDup_cons_1_2 _ _ Hnd) as Hnd'.
    destruct (IH fuel next ps (delete a m)) as (m' & E & Hm'); [|done|cbn in Hf; lia|].
    { eapply made_mono; [|done]. intros b Hb. rewrite lookup_delete_ne; [done|]. by intros ->. }
    exists m'. split; [exact E|]. intros q. rewrite Hm'. destruct (decide (q = a)) as [->|Hne].
    + rewrite decide_False by done. rewrite decide_True by left. apply lookup_delete_eq.
    + rewrite lookup_delete_ne by done. destruct (decide (q ∈ ps)) as [Hin|Hin].
      * by rewrite decide_True by (by right).
      * rewrite decide_False; [done|]. by intros [?|?]%elem_of_cons.
Qed.

(** ** Programs of handles *)

(** What a program does with lists: it makes one, moves one into a new handle,
    or a handle's life ends. *)
Inductive ListOp := OpMake (args : list ListArg) | OpMove (i : nat) | OpDestroy (i : nat).

(** Handles by number, [None] once destroyed; nothing names a destroyed handle. *)
Definition ListState : Type := list (option ConfigList) * Memory.

Definition list_act (fuel : nat) (op : ListOp) (s : ListState) : option ListState :=
  let '(hs, m) := s in
  match op with
  | OpMake args => let '(l, m) := Make args m in Some (hs ++ [Some l], m)
  | OpMove i =>
      match hs !! i with
      | Some (Some other) => let '(l, other) := ConfigListMove other in Some (<[i := Some other]> hs ++ [Some l], m)
      | _ => Some s
      end
  | OpDestroy i =>
      match hs !! i with
      | Some (Some l) => option_map (fun m => (<[i := None]> hs, m)) (ConfigListDestroy fuel l m)
      | _ => Some s
      end
  end.

Fixpoint list_run (fuel : nat) (ops : list ListOp) (s : ListState) : option ListState :=
  match ops with [] => Some s | op :: ops => list_act fuel op s ≫= list_run fuel ops end.

(** What the handles own: values, no values because they were moved from or
    only look, or nothing because they are gone. *)
Inductive Holding := Owns (values : list NodeValue) | Looks | Gone.

Definition hold_act (op : ListOp) (s : list Holding) : list Holding :=
  match op with
  | OpMake args => s ++ [Owns (map ConvertArg args)]
  | OpMove i => match s !! i with
                | Some (Owns vs) => <[i := Looks]> s ++ [Owns vs]
                | Some Looks => s ++ [Looks]
                | _ => s
                end
  | OpDestroy i => match s !! i with Some _ => <[i := Gone]> s | None => s end
  end.

Definition op_ok (fuel : nat) (op : ListOp) : Prop :=
  match op with OpMake args => args <> [] /\ (length args <= fuel)%nat | _ => True end.

(** A handle and what it holds, in the nodes [ps]. *)
Definition holding (fuel : nat) (m : Memory) (h : option ConfigList) (x : Holding) (ps : list nat) : Prop :=
  match x with
  | Owns vs => (length vs <= fuel)%nat /\ vs <> [] /\ NoDup ps /\ exists p, h = Some (MkList p true) /\ made m p ps vs
  | Looks => ps = [] /\ exists p, h = Some (MkList p false)
  | Gone => ps = [] /\ h = None
  end.

(** The memory is that before with the nodes of the lists that are owned, each
    in one. *)
Record list_inv (fuel : nat) (m0 : Memory) (s : ListState) (xs : list Holding) (cells : nat -> list nat) : Prop := {
  li_length : length (fst s) = length xs;
  li_holding : forall i h x, fst s !! i = Some h -> xs !! i = Some x -> holding fuel (snd s) h x (cells i);
  li_none : forall i, xs !! i = None -> cells i = [];
  li_apart : forall i j p, p ∈ cells i -> p ∈ cells j -> i = j;
  li_new : forall i p, p ∈ cells i -> m0 !! p = None;
  li_old : forall p, snd s !! p = m0 !! p \/ exists i, p ∈ cells i
}.

Lemma holding_mono fuel m m' h x ps :
  (forall p, p ∈ ps -> m' !! p = m !! p) -> holding fuel m h x ps -> holding fuel m' h x ps.
Proof.
  intros Hm. destruct x; cbn; [|done|done]. intros (? & ? & ? & p & ? & ?). split_and!; [done..|]. exists p. split; [done|].
  by apply (made_mono m).
Qed.

Lemma list_inv_start fuel m : list_inv fuel m ([], m) [] (fun _ => []).
Proof. split; try done; [by intros i j p ?%elem_of_nil|by intros i p ?%elem_of_nil|by left]. Qed.

Lemma made_adds m ps m' p : adds ps m m' -> m' !! p = m !! p \/ p ∈ ps.
Proof.
  intros (K & D & _). destruct (m !! p) as [b|] eqn:E; [left; by apply K|].
  destruct (m' !! p) as [b|] eqn:E'; [|by left]. right. apply elem_of_dom_2 in E'. apply D in E' as [Hin|Hin]; [|done].
  apply elem_of_dom in Hin as [b' ?]. congruence.
Qed.

Lemma made_dom m p ps vs q : made m p ps vs -> q ∈ ps -> is_Some (m !! q).
Proof.
  revert p vs. induction ps as [|a ps IH]; intros p [|v vs]; cbn [made]; try done; [by intros _ ?%elem_of_nil|].
  intros (_ & next & Ha & Hc) [->|Hq]%elem_of_cons; [by eexists|by eapply IH].
Qed.

Lemma list_inv_cell fuel m0 s xs cells i p : list_inv fuel m0 s xs cells -> p ∈ cells i -> is_Some (snd s !! p).
Proof.
  intros [I1 I2 I3 I4 I5 I6] Hp. destruct (xs !! i) as [x|] eqn:Ex; [|rewrite (I3 i Ex) in Hp; by apply elem_of_nil in Hp].
  destruct (lookup_lt_is_Some_2 (fst s) i) as [h Hh]; [rewrite I1; by eapply lookup_lt_Some|].
  specialize (I2 i h x Hh Ex). destruct x; cbn in I2.
  - destruct I2 as (_ & _ & _ & q & _ & Hm). by eapply made_dom.
  - destruct I2 as [E _]. rewrite E in Hp. by apply elem_of_nil in Hp.
  - destruct I2 as [E _]. rewrite E in Hp. by apply elem_of_nil in Hp.
Qed.

Lemma list_inv_make fuel m0 hs m xs cells vs :
  list_inv fuel m0 (hs, m) xs cells -> vs <> [] -> (length vs <= fuel)%nat ->
  let '(l, m') := Make vs m in exists ps, list_inv fuel m0 (hs ++ [Some l], m') (xs ++ [Owns (map ConvertArg vs)]) (<[length xs := ps]> cells).
Proof.
  intros Hinv Hne Hf. pose proof Hinv as [I1 I2 I3 I4 I5 I6]. cbn [fst snd] in *. unfold Make.
  pose proof (ConfigCreateList_spec vs m) as Hc. destruct (ConfigCreateList vs m) as [p m'].
  destruct Hc as (ps & Hmade & Ha). pose proof Ha as (K & D & Hnd & Hnew). exists ps.
  assert (Hcell : forall i q, q ∈ cells i -> is_Some (m !! q) /\ q ∉ ps).
  { intros i q Hq. destruct (list_inv_cell _ _ _ _ _ i q Hinv Hq) as [b Hb]. split; [by eexists|]. intros Hin.
    specialize (Hnew q Hin). cbn in Hb. congruence. }
  split; cbn [fst snd].
  - rewrite !length_app. cbn. lia.
  - intros i h x Hh Hx. apply lookup_snoc_Some in Hx as [[Hlt Hx]|[-> <-]].
    + rewrite lookup_app_l in Hh by lia. rewrite fn_lookup_insert_ne by lia.
      apply (holding_mono fuel m); [|by apply I2]. intros q Hq. destruct (Hcell i q Hq) as [[b Hb] _]. rewrite Hb. by apply K.
    + rewrite fn_lookup_insert. rewrite <- I1, list_lookup_middle in Hh by done. injection Hh as <-. cbn [holding].
      split_and!; [by rewrite length_map|by destruct vs|done|]. by exists p.
  - intros i Hi. apply lookup_ge_None in Hi. rewrite length_app in Hi. cbn in Hi. rewrite fn_lookup_insert_ne by lia.
    apply I3, lookup_ge_None. lia.
  - intros i j q. destruct (decide (i = length xs)) as [->|Hi], (decide (j = length xs)) as [->|Hj]; try done;
      rewrite ?fn_lookup_insert, ?fn_lookup_insert_ne by done; [| |by apply I4]; intros Hq1 Hq2.
    + by destruct (Hcell j q Hq2).
    + by destruct (Hcell i q Hq1).
  - intros i q. destruct (decide (i = length xs)) as [->|Hi]; rewrite ?fn_lookup_insert, ?fn_lookup_insert_ne by done; [|apply I5].
    intros Hq. destruct (I6 q) as [E|[j Hj]]; [|by destruct (Hcell j q Hj)]. rewrite <- E. by apply Hnew.
  - intros q. destruct (made_adds m ps m' q Ha) as [E|Hin]; [|right; exists (length xs); by rewrite fn_lookup_insert].
    destruct (I6 q) as [E'|[j Hj]]; [left; congruence|right; exists j]. rewrite fn_lookup_insert_ne; [done|].
    intros <-. rewrite (I3 (length xs)) in Hj by (by apply lookup_ge_None). by apply elem_of_nil in Hj.
Qed.

Lemma list_inv_look fuel m0 hs m xs cells i x p :
  list_inv fuel m0 (hs, m) xs cells -> xs !! i = Some x -> x = Looks \/ x = Gone ->
  list_inv fuel m0 (hs ++ [Some (MkList p false)], m) (xs ++ [Looks]) cells.
Proof.
  intros [I1 I2 I3 I4 I5 I6] Hx Hl. cbn [fst snd] in *. split; try done; cbn [fst snd].
  - rewrite !length_app. cbn. lia.
  - intros j h y Hh Hy. apply lookup_snoc_Some in Hy as [[Hlt Hy]|[-> <-]].
    + rewrite lookup_app_l in Hh by lia. by apply I2.
    + rewrite <- I1, list_lookup_middle in Hh by done. injection Hh as <-. split; [|by eexists].
      apply I3, lookup_ge_None. lia.
  - intros j Hj. apply I3. apply lookup_ge_None in Hj. rewrite length_app in Hj. apply lookup_ge_None. lia.
Qed.

(** Ending the part of one handle. *)
Lemma list_inv_end fuel m0 hs m m' xs cells i x h' y :
  list_inv fuel m0 (hs, m) xs cells -> xs !! i = Some x -> holding fuel m' h' y [] ->
  (forall q, m' !! q = if decide (q ∈ cells i) then None else m !! q) ->
  list_inv fuel m0 (<[i := h']> hs, m') (<[i := y]> xs) (<[i := []]> cells).
Proof.
  intros Hinv Hx Hy Hm. pose proof Hinv as [I1 I2 I3 I4 I5 I6]. cbn [fst snd] in *.
  assert (Hi : (i < length hs)%nat) by (rewrite I1; by eapply lookup_lt_Some).
  assert (Hother : forall j q, j <> i -> q ∈ cells j -> m' !! q = m !! q).
  { intros j q Hj Hq. rewrite Hm, decide_False; [done|]. intros Hin. by apply Hj, (I4 j i q). }
  split; cbn [fst snd].
  - by rewrite !length_insert.
  - intros j h z Hh Hz. destruct (decide (j = i)) as [->|Hne].
    + rewrite list_lookup_insert_eq in Hh by lia. rewrite list_lookup_insert_eq in Hz by lia. injection Hh as <-. injection Hz as <-.
      by rewrite fn_lookup_insert.
    + rewrite list_lookup_insert_ne in Hh by done. rewrite list_lookup_insert_ne in Hz by done.
      rewrite fn_lookup_insert_ne by done. apply (holding_mono fuel m); [|by apply I2]. intros q. by apply Hother.
  - intros j. destruct (decide (j = i)) as [->|Hne]; [by rewrite fn_lookup_insert|].
    rewrite list_lookup_insert_ne, fn_lookup_insert_ne by done. apply I3.
  - intros j k q. destruct (decide (j = i)) as [->|Hj]; [rewrite fn_lookup_insert; by intros ?%elem_of_nil|].
    destruct (decide (k = i)) as [->|Hk]; [rewrite fn_lookup_insert; by intros _ ?%elem_of_nil|].
    rewrite !fn_lookup_insert_ne by done. apply I4.
  - intros j q. destruct (decide (j = i)) as [->|Hj]; [rewrite fn_lookup_insert; by intros ?%elem_of_nil|].
    rewrite fn_lookup_insert_ne by done. apply I5.
  - intros q. rewrite Hm. case_decide as Hin; [left; symmetry; by apply (I5 i)|].
    destruct (I6 q) as [E|[j Hj]]; [by left|right; exists j]. rewrite fn_lookup_insert_ne; [done|]. by intros ->.
Qed.

(** Moving: the new handle has the nodes. *)
Lemma list_inv_hand fuel m0 hs m xs cells i vs p :
  list_inv fuel m0 (hs, m) xs cells -> xs !! i = Some (Owns vs) -> hs !! i = Some (Some (MkList p true)) ->
  list_inv fuel m0 (<[i := Some (MkList p false)]> hs ++ [Some (MkList p true)], m) (<[i := Looks]> xs ++ [Owns vs])
    (<[length xs := cells i]> (<[i := []]> cells)).
Proof.
  intros Hinv Hx Hh. pose proof Hinv as [I1 I2 I3 I4 I5 I6]. cbn [fst snd] in *.
  assert (Hi : (i < length xs)%nat) by (by eapply lookup_lt_Some).
  pose proof (I2 i _ _ Hh Hx) as Hhold.
  assert (Hc : forall j, (<[length xs := cells i]> (<[i := []]> cells) : nat -> list nat) j =
    if decide (j = length xs) then cells i else if decide (j = i) then [] else cells j).
  { intros j. destruct (decide (j = length xs)) as [->|H1]; [by rewrite fn_lookup_insert|]. rewrite fn_lookup_insert_ne by done.
    destruct (decide (j = i)) as [->|H2]; [by rewrite fn_lookup_insert|by rewrite fn_lookup_insert_ne]. }
  assert (Hfree : cells (length xs) = []) by (apply I3, lookup_ge_None; lia).
  split; cbn [fst snd].
  - rewrite !length_app, !length_insert. cbn. lia.
  - intros j h z Hj Hz. rewrite Hc. apply lookup_snoc_Some in Hz as [[Hlt Hz]|[-> <-]]; rewrite length_insert in *.
    + rewrite lookup_app_l in Hj by (rewrite length_insert; lia). rewrite decide_False by lia. case_decide as Hji.
      * subst j. rewrite list_lookup_insert_eq in Hj by lia. rewrite list_lookup_insert_eq in Hz by lia.
        injection Hj as <-. injection Hz as <-. split; [done|by eexists].
      * rewrite list_lookup_insert_ne in Hj by done. rewrite list_lookup_insert_ne in Hz by done. by apply I2.
    + rewrite decide_True by done. rewrite lookup_app_r in Hj by (rewrite length_insert; lia).
      rewrite length_insert, I1, Nat.sub_diag in Hj. injection Hj as <-. destruct Hhold as (? & ? & ? & q & [= <-] & ?).
      split_and!; [done..|]. by exists p.
  - intros j Hj. apply lookup_ge_None in Hj. rewrite length_app, length_insert in Hj. cbn in Hj. rewrite Hc.
    rewrite !decide_False by lia. apply I3, lookup_ge_None. lia.
  - intros j k q. rewrite !Hc. repeat case_decide; subst; try done; try (by intros ?%elem_of_nil); try (by intros _ ?%elem_of_nil).
    + intros Hq Hq'. destruct (I4 _ _ _ Hq Hq'). done.
    + intros Hq Hq'. destruct (I4 _ _ _ Hq Hq'). done.
    + apply I4.
  - intros j q. rewrite Hc. repeat case_decide; [apply I5|by intros ?%elem_of_nil|apply I5].
  - intros q. destruct (I6 q) as [E|[j Hj]]; [by left|right].
    destruct (decide (j = i)) as [->|Hne]; [exists (length xs); by rewrite Hc, decide_True|].
    exists j. rewrite Hc, decide_False, decide_False; [done|done|]. intros ->. rewrite Hfree in Hj. by apply elem_of_nil in Hj.
Qed.

Lemma list_act_inv fuel m0 op s xs cells :
  list_inv fuel m0 s xs cells -> op_ok fuel op ->
  exists s' cells', list_act fuel op s = Some s' /\ list_inv fuel m0 s' (hold_act op xs) cells'.
Proof.
  intros Hinv Hop. destruct s as [hs m]. pose proof Hinv as [I1 I2 _ _ _ _]. cbn [fst snd] in *. destruct op as [vs|i|i]; cbn [list_act hold_act].
  - destruct Hop as [Hne Hf]. pose proof (list_inv_make fuel m0 hs m xs cells vs Hinv Hne Hf) as Hm.
    destruct (Make vs m) as [l m']. destruct Hm as [ps Hm]. by eexists _, _.
  - destruct (hs !! i) as [h|] eqn:Eh.
    2: { apply lookup_ge_None in Eh. rewrite (lookup_ge_None_2 xs) by lia. by exists (hs, m), cells. }
    destruct (lookup_lt_is_Some_2 xs i) as [x Hx]; [rewrite <- I1; by eapply lookup_lt_Some|].
    pose proof (I2 i h x Eh Hx) as Hh. rewrite Hx. destruct x as [vs| |].
    + destruct Hh as (_ & _ & _ & p & -> & _). cbn [ConfigListMove head_ owned_]. eexists _, _. split; [done|]. by apply list_inv_hand.
    + destruct Hh as (_ & p & ->). cbn [ConfigListMove head_ owned_]. rewrite list_insert_id by done.
      eexists _, cells. split; [done|]. by apply (list_inv_look fuel m0 hs m xs cells i Looks p); [| |left].
    + destruct Hh as [_ ->]. by exists (hs, m), cells.
  - destruct (hs !! i) as [h|] eqn:Eh.
    2: { apply lookup_ge_None in Eh. rewrite (lookup_ge_None_2 xs) by lia. by exists (hs, m), cells. }
    destruct (lookup_lt_is_Some_2 xs i) as [x Hx]; [rewrite <- I1; by eapply lookup_lt_Some|].
    pose proof (I2 i h x Eh Hx) as Hh. rewrite Hx. destruct x as [vs| |].
    + destruct Hh as (Hf & Hne & Hnd & p & -> & Hm). destruct vs as [|v vs]; [done|].
      destruct (Destroy_spec _ fuel p (cells i) m Hm Hnd Hf) as (m' & E & Hm').
      destruct p as [p|]; [|by destruct (cells i), Hm].
      unfold ConfigListDestroy. cbn [owned_ head_]. rewrite E. eexists _, _. split; [done|].
      by eapply list_inv_end.
    + destruct Hh as (E & p & ->). cbn [ConfigListDestroy owned_]. eexists _, _. split; [done|].
      eapply list_inv_end; [done|done|done|]. intros q. rewrite E, decide_False by (by apply not_elem_of_nil). done.
    + destruct Hh as [E ->]. eexists _, _. split; [done|]. rewrite <- (list_insert_id hs i None Eh).
      eapply list_inv_end; [done|done|done|]. intros q. by rewrite E, decide_False by (by apply not_elem_of_nil).
Qed.

Lemma list_run_inv fuel m0 ops s xs cells :
  list_inv fuel m0 s xs cells -> Forall (op_ok fuel) ops ->
  exists s' cells', list_run fuel ops s = Some s' /\ list_inv fuel m0 s' (fold_left (fun xs op => hold_act op xs) ops xs) cells'.
Proof.
  intros Hinv Hops. revert s xs cells Hinv. induction Hops as [|op ops Hop _ IH]; intros s xs cells Hinv; [by exists s, cells|].
  destruct (list_act_inv fuel m0 op s xs cells Hinv Hop) as (s1 & c1 & E & H1). cbn [list_run fold_left]. rewrite E. by apply (IH s1 _ c1).
Qed.

(** C20. Lists made for configurations are freed exactly once: a program that
    makes non-empty lists, moves them and lets their handles' lives end in any
    order never frees a node twice and fails no assertion; at every moment the
    memory is that before with exactly the nodes of the lists owned by a
    handle, each in one list, and every owner reads the values its list was
    made of; when no list is owned any more the memory is as it was. *)
Theorem config_lists_are_freed_once fuel m ops :
  Forall (op_ok fuel) ops ->
  let xs := fold_left (fun xs op => hold_act op xs) ops [] in
  exists hs m' cells, list_run fuel ops ([], m) = Some (hs, m') /\
    (forall i h x, hs !! i = Some h -> xs !! i = Some x -> holding fuel m' h x (cells i)) /\
    (forall i j p, p ∈ cells i -> p ∈ cells j -> i = j) /\
    (forall p, m' !! p = m !! p \/ exists i, p ∈ cells i) /\
    (Forall (fun x => x = Looks \/ x = Gone) xs -> m' = m).
Proof.
  intros Hops xs. destruct (list_run_inv fuel m ops ([], m) [] _ (list_inv_start fuel m) Hops) as ([hs m'] & cells & E & Hinv).
  fold xs in Hinv. pose proof Hinv as [I1 I2 I3 I4 I5 I6]. cbn [fst snd] in *. exists hs, m', cells. split_and!; [done..|].
  intros Hend. apply map_eq. intros p. destruct (I6 p) as [Ep|[i Hi]]; [done|].
  destruct (xs !! i) as [x|] eqn:Ex; [|rewrite (I3 i Ex) in Hi; by apply elem_of_nil in Hi].
  destruct (lookup_lt_is_Some_2 hs i) as [h Hh]; [rewrite I1; by eapply lookup_lt_Some|].
  pose proof (I2 i h x Hh Ex) as Hx. rewrite Forall_lookup in Hend.
  destruct (Hend i x Ex) as [-> | ->]; destruct Hx as [Ec _]; rewrite Ec in Hi; by apply elem_of_nil in Hi.
Qed.

(** A default list is made, handed over, and both handles end. *)
Lemma config_lists_are_freed_once_witness :
  let ops := [OpMake [AInt 1; ABool true]; OpMake [AChars 0]; OpMove 0; OpDestroy 0; OpDestroy 2; OpDestroy 1] in
  exists hs, list_run 2 ops ([], {[ 0%nat := MkBlock Static (CText (lit "0.0.0.0:9920")) ]}) =
    Some (hs, {[ 0%nat := MkBlock Static (CText (lit "0.0.0.0:9920")) ]}).
Proof.
  intros ops. destruct (config_lists_are_freed_once 2 {[ 0%nat := MkBlock Static (CText (lit "0.0.0.0:9920")) ]} ops)
    as (hs & m' & cells & E & _ & _ & _ & Hend).
  - repeat constructor; cbn; try discriminate; lia.
  - exists hs. rewrite E. f_equal. f_equal. apply Hend. vm_compute. repeat (constructor; [tauto|]). constructor.
Defined.

(** An empty list owns nothing, and its destructor fails its assertion. *)
Lemma empty_list_cannot_be_destroyed fuel m :
  ConfigListDestroy fuel (fst (Make [] m)) (snd (Make [] m)) = None.
Proof. done. Qed.
