(* ===== verification/Types.v ===== *)
(** [types/schema.h], [types/basic_types.h/.cc], [types/value_types.h]: type
    schemas, the built-in types, and the untyped value union.

    A [TypeSchemaPtr] is a schema together with its address: the code compares
    schemas by pointer, so two schemas are the same type when their addresses
    are.  The null pointer is [None]. *)
From S2P Require Import Prelude CLib.
Local Open Scope Z_scope.

(** * Schemas *)

(** source/types/schema.h:14-36 [TypeSchema] *)
#[warnings="-register-all"]
Inductive TypeSchema := MkSchema {
  schema_addr : Z;
  schema_name : bytes;
  schema_alignment : Z;
  schema_size : Z;
  schema_flags : Z;
  schema_fields : list (bytes * TypeSchema)
}.

(** source/types/schema.h:19-26 [TypeSchemaFlags] *)
Definition kBasic : Z := Z.shiftl 1 0.
Definition kSignedInt : Z := Z.shiftl 1 1.
Definition kUnsignedInt : Z := Z.shiftl 1 2.
Definition kFloatingPoint : Z := Z.shiftl 1 3.

Definition has_flag (t : TypeSchema) (flag : Z) : bool := negb (Z.land (schema_flags t) flag =? 0).

(** source/types/schema.h:38-38 [TypeSchema::IsBasic] *)
Definition IsBasic (t : TypeSchema) : bool := has_flag t kBasic.
(** source/types/schema.h:39-39 [TypeSchema::IsSignedInt] *)
Definition IsSignedInt (t : TypeSchema) : bool := has_flag t kSignedInt.
(** source/types/schema.h:40-40 [TypeSchema::IsUnsignedInt] *)
Definition IsUnsignedInt (t : TypeSchema) : bool := has_flag t kUnsignedInt.
(** source/types/schema.h:41-41 [TypeSchema::IsFloatingPoint] *)
Definition IsFloatingPoint (t : TypeSchema) : bool := has_flag t kFloatingPoint.
(** source/types/schema.h:43-43 [TypeSchema::IsIntegral] *)
Definition IsIntegral (t : TypeSchema) : bool := IsSignedInt t || IsUnsignedInt t.
(** source/types/schema.h:42-42 [TypeSchema::IsNumeric] *)
Definition IsNumeric (t : TypeSchema) : bool := IsIntegral t || IsFloatingPoint t.

(** source/types/schema.h:44-47 [TypeSchema::IsAligned] *)
Definition IsAligned (t : TypeSchema) (object : Z) : bool :=
  Z.land object (u64 (schema_alignment t - 1)) =? 0.

(** source/types/schema.h:49-57 [TypeSchema::AlignPtr] *)
Definition AlignPtr (ptr alignment : Z) : Z := align_bits ptr alignment.

(** source/types/schema.h:59-67 [TypeSchema::OffsetPtr] *)
Definition OffsetPtr (ptr offset_bytes : Z) : Z := u64 (ptr + offset_bytes).

(** Comparing [TypeSchemaPtr]s. *)
Definition same_type (a b : TypeSchema) : bool := schema_addr a =? schema_addr b.

(** * Built-in types

    Statically allocated; their addresses are the numbers 1 to 14. *)

Definition basic (addr : Z) (name : string) (size flags : Z) : TypeSchema :=
  MkSchema addr (lit name) size size (Z.lor flags kBasic) [].

(** source/types/basic_types.cc:20-20 [XYBasicType] *)
Definition T_int : TypeSchema := basic 1 "int" 4 kSignedInt.
(** source/types/basic_types.cc:21-21 [XYBasicType] *)
Definition T_int8 : TypeSchema := basic 2 "int8" 1 kSignedInt.
(** source/types/basic_types.cc:22-22 [XYBasicType] *)
Definition T_int16 : TypeSchema := basic 3 "int16" 2 kSignedInt.
(** source/types/basic_types.cc:23-23 [XYBasicType] *)
Definition T_int32 : TypeSchema := basic 4 "int32" 4 kSignedInt.
(** source/types/basic_types.cc:24-24 [XYBasicType] *)
Definition T_int64 : TypeSchema := basic 5 "int64" 8 kSignedInt.
(** source/types/basic_types.cc:26-26 [XYBasicType] *)
Definition T_uint8 : TypeSchema := basic 6 "uint8" 1 kUnsignedInt.
(** source/types/basic_types.cc:27-27 [XYBasicType] *)
Definition T_uint16 : TypeSchema := basic 7 "uint16" 2 kUnsignedInt.
(** source/types/basic_types.cc:28-28 [XYBasicType] *)
Definition T_uint32 : TypeSchema := basic 8 "uint32" 4 kUnsignedInt.
(** source/types/basic_types.cc:29-29 [XYBasicType] *)
Definition T_uint64 : TypeSchema := basic 9 "uint64" 8 kUnsignedInt.
(** source/types/basic_types.cc:31-31 [XYBasicType] *)
Definition T_float : TypeSchema := basic 10 "float" 4 kFloatingPoint.
(** source/types/basic_types.cc:32-32 [XYBasicType] *)
Definition T_double : TypeSchema := basic 11 "double" 8 kFloatingPoint.
(** source/types/basic_types.cc:34-34 [XYBasicType] *)
Definition T_FrameBarrier : TypeSchema := basic 12 "FrameBarrier" 4 0.
(** source/types/basic_types.cc:35-35 [XYBasicType] *)
Definition T_StrSpan : TypeSchema :=
  MkSchema 13 (lit "StrSpan") 8 16 kBasic [].

(** source/slang/call.cc:8-14 [k_slang_field_type] *)
Definition T_Field : TypeSchema := MkSchema 14 (lit "Field") 8 16 0 [].

Definition last_static_addr : Z := 14.

(** The element types of [GetBasicType<T>]; the first match wins, so
    [int32_t], the same type as [int], gives the schema of [int]. *)
Inductive BasicT := TInt8 | TInt16 | TInt32 | TInt64 | TUInt8 | TUInt16 | TUInt64 | TFloat | TDouble | TStr.

(** source/types/basic_types.h:37-54 [GetBasicType] *)
Definition GetBasicType (t : BasicT) : TypeSchema :=
  match t with
  | TInt32 => T_int
  | TInt8 => T_int8
  | TInt16 => T_int16
  | TInt64 => T_int64
  | TUInt8 => T_uint8
  | TUInt16 => T_uint16
  | TUInt64 => T_uint64
  | TFloat => T_float
  | TDouble => T_double
  | TStr => T_StrSpan
  end.

(** * Values *)

(** The union's contents: a 64-bit word ([u64], [i64], [dbl] and [ptr] are
    readings of it) or a string span, whose first word is its data pointer. *)
(** source/types/value_types.h:11-43 [Value] *)
Inductive Value :=
| VWord (word : Z)
| VStr (data : Z) (str : bytes).

(** source/types/value_types.h:14-17 [Value::Value] *)
Definition VU64 (u : Z) : Value := VWord (u64 u).
(** source/types/value_types.h:18-25 [Value::Value] *)
Definition VI64 (i : Z) : Value := VWord (u64 i).
(** source/types/value_types.h:26-29 [Value::Value] *)
Definition VDbl (d : double) : Value := VWord (d_bits d).
(** source/types/value_types.h:30-33 [Value::Value] *)
Definition VPtr (p : Z) : Value := VWord (u64 p).

(** source/types/value_types.h:38-38 [Value::u64] *)
Definition val_u64 (v : Value) : Z := match v with VWord w => w | VStr data _ => data end.
(** source/types/value_types.h:39-39 [Value::i64] *)
Definition val_i64 (v : Value) : Z := i64 (val_u64 v).
(** source/types/value_types.h:40-40 [Value::dbl] *)
Definition val_dbl (v : Value) : double := d_of_bits (val_u64 v).
(** source/types/value_types.h:41-41 [Value::ptr] *)
Definition val_ptr (v : Value) : Z := val_u64 v.

(** Reading [str] when it is not the stored member has no meaning in C++. *)
(** source/types/value_types.h:42-42 [Value::str] *)
Definition val_str (v : Value) : option bytes := match v with VStr _ s => Some s | VWord _ => None end.

(** source/types/value_types.h:46-55 [TypedValue] *)
Record TypedValue := MkTyped { tv_type : TypeSchema; tv_value : Value }.

(** A typed value stores the member its type reads. *)
Definition typed_ok (v : TypedValue) : Prop :=
  if same_type (tv_type v) T_StrSpan || same_type (tv_type v) T_Field
  then is_Some (val_str (tv_value v))
  else in_u 64 (val_u64 (tv_value v)).

(** * Lemmas *)

Lemma val_i64_VI64 z : in_s 64 z -> val_i64 (VI64 z) = z.
Proof.
  intros Hz. unfold val_i64, VI64, val_u64, i64, u64. rewrite wrap_s_mod by lia.
  by apply wrap_s_id.
Qed.

Lemma val_u64_VU64 z : in_u 64 z -> val_u64 (VU64 z) = z.
Proof. intros Hz. cbn. by apply wrap_u_id. Qed.

Lemma same_type_refl t : same_type t t = true.
Proof. apply Z.eqb_refl. Qed.

#[export] Hint Rewrite same_type_refl : xynq_rw.
