(* ===== verification/Call.v ===== *)
(** [slang/call.h]: the calling convention of slang functions.

    Arguments are read from the top of the evaluation stack down to the frame
    barrier: an [Iterator] is the list of the stack slots from the current
    argument down to the bottom of the stack.  Moving or looking below the
    bottom is outside the vector and has no result ([None]). *)
From S2P Require Import Prelude Either StrBuild CLib Types.
Local Open Scope Z_scope.

(** source/slang/call.h:76-113 [CallArgs::Iterator] *)
Definition Iterator := list TypedValue.

Definition is_barrier (v : TypedValue) : bool := same_type (tv_type v) T_FrameBarrier.

(** source/slang/call.h:82-85 [Iterator::IsEnd] *)
Definition IsEnd (it : Iterator) : option bool :=
  match it with [] => None | a :: _ => Some (is_barrier a) end.

(** The conversion [Get<T>] makes, for an arithmetic [T]. *)
(** source/slang/call.h:165-174 [Iterator::Get] *)
Definition GetArith {A} (of_u64 : Z -> A) (of_i64 : Z -> A) (of_dbl : double -> A)
    (arg : TypedValue) : option A :=
  let v := tv_value arg in
  if IsUnsignedInt (tv_type arg) then Some (of_u64 (val_u64 v))
  else if IsSignedInt (tv_type arg) then Some (of_i64 (val_i64 v))
  else if IsFloatingPoint (tv_type arg) then Some (of_dbl (val_dbl v))
  else None.

(** source/slang/call.h:165-174 [Iterator::Get<int64_t>] *)
Definition GetI64 : TypedValue -> option Z := GetArith i64 i64 d_to_i64.
(** source/slang/call.h:165-174 [Iterator::Get<int16_t>] *)
Definition GetI16 : TypedValue -> option Z :=
  GetArith (wrap_s 16) (wrap_s 16) (fun d => wrap_s 16 (d_to_i64 d)).
(** source/slang/call.h:165-174 [Iterator::Get<double>] *)
Definition GetDouble : TypedValue -> option double := GetArith d_of_Z d_of_Z (fun d => d).

(** source/slang/call.h:175-178 [Iterator::Get<StrSpan>] *)
Definition GetStr (arg : TypedValue) : option bytes :=
  if same_type (tv_type arg) T_StrSpan then val_str (tv_value arg) else None.
(** source/slang/call.h:179-182 [Iterator::Get<Field>] *)
Definition GetField (arg : TypedValue) : option bytes :=
  if same_type (tv_type arg) T_Field then val_str (tv_value arg) else None.

(** source/slang/call.h:148-164 [Iterator::GetUnsafe<StrSpan>] *)
Definition GetUnsafeStr (arg : TypedValue) : bytes := default [] (val_str (tv_value arg)).

(** source/slang/call.h:31-44 [CallContext] *)
Record CallContext (W : Type) := MkCtx {
  args : Iterator;
  output : list TypedValue;
  error_text : StrBuilder;
  user_data : W
}.
Arguments MkCtx {W}. Arguments args {W}. Arguments output {W}.
Arguments error_text {W}. Arguments user_data {W}.

(** source/slang/call.h:46-46 [Call] *)
Definition Call (W : Type) : Type := CallContext W -> option (bool * CallContext W).

Section Context.
  Context {W : Type}.
  Implicit Types ctx : CallContext W.

(** source/slang/call.h:137-146 [CallOutput::AddTyped] *)
Definition AddTyped (v : TypedValue) ctx : CallContext W :=
  MkCtx (args ctx) (output ctx ++ [v]) (error_text ctx) (user_data ctx).

(** [error_text << ...; return false;] *)
Definition fail_with (parts : list bytes) ctx : option (bool * CallContext W) :=
  Some (false, MkCtx (args ctx) (output ctx) (Append (error_text ctx) (map AStr parts)) (user_data ctx)).

Definition with_user_data (w : W) ctx : CallContext W :=
  MkCtx (args ctx) (output ctx) (error_text ctx) w.
End Context.

(** * Frames

    What a call may look at: the arguments above the first barrier.  A call is
    local when the stack below its barrier does not matter. *)

Definition no_barrier (vs : list TypedValue) : Prop := Forall (fun v => is_barrier v = false) vs.

Definition with_args {W} (it : Iterator) (ctx : CallContext W) : CallContext W :=
  MkCtx it (output ctx) (error_text ctx) (user_data ctx).

Definition call_local {W} (c : Call W) : Prop :=
  forall frame barrier below out err w,
    no_barrier frame -> is_barrier barrier = true ->
    option_map (fun r => (fst r, with_args [] (snd r))) (c (MkCtx (frame ++ barrier :: below) out err w)) =
    option_map (fun r => (fst r, with_args [] (snd r))) (c (MkCtx (frame ++ [barrier]) out err w)).
