(* ===== verification/MathFuncs.v ===== *)
(** [slang/math_funcs.cc]: the arithmetic functions.

    [+], [-], [*] choose between integer and floating-point arithmetic by
    their arguments; integers are reduced at the width of the template
    argument the code uses ([int64_t] for [+], [int16_t] for [-] and [*]).
    [int64_t] sums wrap, as the generated two's-complement code does. *)
From S2P Require Import Prelude Either StrBuild CLib Types Call.
Local Open Scope Z_scope.

(** Fold the rest of the arguments, reading each with [get]. *)
Fixpoint fold_args {A} (get : TypedValue -> option A) (op : A -> A -> A) (it : Iterator) (res : A)
    : option A :=
  match it with
  | [] => None
  | a :: it' =>
      if is_barrier a then Some res
      else match get a with Some v => fold_args get op it' (op res v) | None => None end
  end.

Section Arith.
  Context {A : Type} (get : TypedValue -> option A) (add sub mul : A -> A -> A) (zero one : A).

(** source/slang/math_funcs.cc:10-19 [sum] *)
Definition sum (it : Iterator) : option A := fold_args get add it zero.

(** source/slang/math_funcs.cc:22-37 [sub] *)
Definition sub_args (it : Iterator) : option A :=
  match it with
  | [] => None
  | a :: it' =>
      if is_barrier a then Some zero
      else match get a with Some v => fold_args get sub it' v | None => None end
  end.

(** source/slang/math_funcs.cc:40-50 [mul] *)
Definition mul_args (it : Iterator) : option A := fold_args get mul it one.
End Arith.

(** source/slang/math_funcs.cc:53-73 [div] *)
Definition div_args (it : Iterator) : option double :=
  match it with
  | [] => None
  | a :: it1 =>
      if is_barrier a then Some d_nan
      else
        match GetDouble a with
        | None => None
        | Some d0 =>
            match IsEnd it1 with
            | None => None
            | Some true => Some (d_div d_one d0)
            | Some false => option_map (d_div d0) (fold_args GetDouble d_mul it1 d_one)
            end
        end
  end.

(** source/slang/math_funcs.cc:76-80 [MathOpType] *)
Inductive MathOpType := Invalid | SignedInt | Double.

(** source/slang/math_funcs.cc:82-95 [CheckOperationType] *)
Fixpoint CheckOperationType (it : Iterator) (is_float : bool) : option MathOpType :=
  match it with
  | [] => None
  | a :: it' =>
      if is_barrier a then Some (if is_float then Double else SignedInt)
      else if IsNumeric (tv_type a) then
        CheckOperationType it' (is_float || IsFloatingPoint (tv_type a))
      else Some Invalid
  end.

(** source/slang/math_funcs.cc:97-97 [k_invalid_type_error] *)
Definition k_invalid_type_error : bytes := lit "Operation expects numeric type".

Definition add_i64 (r v : Z) : Z := i64 (r + v).
Definition sub_i16 (r v : Z) : Z := wrap_s 16 (r - v).
Definition mul_i16 (r v : Z) : Z := wrap_s 16 (r * v).

Section Functions.
  Context {W : Type}.
  Implicit Types ctx : CallContext W.

(** [output->Add(value)] with the value just computed. *)
Definition add_output (t : BasicT) (v : option Value) ctx : option (bool * CallContext W) :=
  option_map (fun v => (true, AddTyped (MkTyped (GetBasicType t) v) ctx)) v.

(** The shape the four functions share. *)
Definition math_call (dbl int : CallContext W -> option (bool * CallContext W)) : Call W := fun ctx =>
  match CheckOperationType (args ctx) false with
  | None => None
  | Some Invalid => fail_with [k_invalid_type_error] ctx
  | Some Double => dbl ctx
  | Some SignedInt => int ctx
  end.

(** source/slang/math_funcs.cc:103-115 [operator +] *)
Definition math_add : Call W :=
  math_call
    (fun ctx => add_output TDouble (option_map VDbl (sum GetDouble d_add d_zero (args ctx))) ctx)
    (fun ctx => add_output TInt64 (option_map VI64 (sum GetI64 add_i64 0 (args ctx))) ctx).

(** source/slang/math_funcs.cc:117-129 [operator -] *)
Definition math_sub : Call W :=
  math_call
    (fun ctx => add_output TDouble (option_map VDbl (sub_args GetDouble d_sub d_zero (args ctx))) ctx)
    (fun ctx => add_output TInt16 (option_map VI64 (sub_args GetI16 sub_i16 0 (args ctx))) ctx).

(** source/slang/math_funcs.cc:131-143 [operator *] *)
Definition math_mul : Call W :=
  math_call
    (fun ctx => add_output TDouble (option_map VDbl (mul_args GetDouble d_mul d_one (args ctx))) ctx)
    (fun ctx => add_output TInt16 (option_map VI64 (mul_args GetI16 mul_i16 1 (args ctx))) ctx).

(** source/slang/math_funcs.cc:145-155 [operator /] *)
Definition math_div : Call W :=
  math_call
    (fun ctx => add_output TDouble (option_map VDbl (div_args (args ctx))) ctx)
    (fun ctx => add_output TDouble (option_map VDbl (div_args (args ctx))) ctx).

(** source/slang/math_funcs.cc:102-155 [RegisterMathFunctions] *)
Definition RegisterMathFunctions (func_table : gmap bytes (Call W)) : gmap bytes (Call W) :=
  <[lit "/" := math_div]> (<[lit "*" := math_mul]> (<[lit "-" := math_sub]>
    (<[lit "+" := math_add]> func_table))).
End Functions.

(** * What the functions compute *)

(** An argument of an integer type, and the number it stands for. *)
Definition is_int (v : TypedValue) : Prop :=
  is_barrier v = false /\ IsIntegral (tv_type v) = true /\ IsFloatingPoint (tv_type v) = false.

Definition int_of (v : TypedValue) : Z :=
  if IsUnsignedInt (tv_type v) then val_u64 (tv_value v) else val_i64 (tv_value v).

Definition Zsum (zs : list Z) : Z := foldr Z.add 0 zs.
Definition Zprod (zs : list Z) : Z := foldr Z.mul 1 zs.

(** The frame of a call: arguments, barrier, the rest of the stack. *)
Definition frame (vs : list TypedValue) (barrier : TypedValue) (below : Iterator) : Iterator :=
  vs ++ barrier :: below.

Section Laws.
  Context (w : Z).
  Hypothesis Hw : 0 < w.

Lemma wrap_s_add_l a b : wrap_s w (wrap_s w a + b) = wrap_s w (a + b).
  Proof.
    rewrite <- (wrap_s_mod w (wrap_s w a + b)), <- (wrap_s_mod w (a + b)) by lia.
    f_equal. unfold wrap_u. rewrite Zplus_mod, (Zplus_mod a b). do 2 f_equal.
    apply (wrap_u_wrap_s w a). lia.
  Qed.

Lemma wrap_s_mul_l a b : wrap_s w (wrap_s w a * b) = wrap_s w (a * b).
  Proof.
    rewrite <- (wrap_s_mod w (wrap_s w a * b)), <- (wrap_s_mod w (a * b)) by lia.
    f_equal. unfold wrap_u. rewrite Zmult_mod, (Zmult_mod a b). do 2 f_equal.
    apply (wrap_u_wrap_s w a). lia.
  Qed.

Lemma wrap_s_add_r a b : wrap_s w (a + wrap_s w b) = wrap_s w (a + b).
  Proof. by rewrite Z.add_comm, wrap_s_add_l, Z.add_comm. Qed.
Lemma wrap_s_mul_r a b : wrap_s w (a * wrap_s w b) = wrap_s w (a * b).
  Proof. by rewrite Z.mul_comm, wrap_s_mul_l, Z.mul_comm. Qed.
Lemma wrap_s_sub_r a b : wrap_s w (a - wrap_s w b) = wrap_s w (a - b).
  Proof.
    rewrite <- (wrap_s_mod w (a - wrap_s w b)), <- (wrap_s_mod w (a - b)) by lia.
    f_equal. unfold wrap_u. rewrite Zminus_mod, (Zminus_mod a b). do 2 f_equal.
    apply (wrap_u_wrap_s w b). lia.
  Qed.
Lemma wrap_s_idem a : wrap_s w (wrap_s w a) = wrap_s w a.
  Proof. apply wrap_s_id; [done|]. by apply wrap_s_range. Qed.
End Laws.

Lemma GetI64_int v : is_int v -> GetI64 v = Some (i64 (int_of v)).
Proof.
  intros (_ & Hi & _). unfold GetI64, GetArith, int_of, IsIntegral in *.
  destruct (IsUnsignedInt (tv_type v)); [done|]. rewrite orb_false_r in Hi. by rewrite Hi.
Qed.

Lemma GetI16_int v : is_int v -> GetI16 v = Some (wrap_s 16 (int_of v)).
Proof.
  intros (_ & Hi & _). unfold GetI16, GetArith, int_of, IsIntegral in *.
  destruct (IsUnsignedInt (tv_type v)); [done|]. rewrite orb_false_r in Hi. by rewrite Hi.
Qed.

Lemma CheckOperationType_ints vs barrier below b :
  Forall is_int vs -> is_barrier barrier = true ->
  CheckOperationType (frame vs barrier below) b = Some (if b then Double else SignedInt).
Proof.
  intros Hvs Hb. unfold frame. induction Hvs as [|v vs (Hv & Hi & Hf) _ IH]; cbn [app CheckOperationType].
  - by rewrite Hb.
  - rewrite Hv. unfold IsNumeric. rewrite Hi, Hf. cbn [orb]. by rewrite orb_false_r.
Qed.

Lemma CheckOperationType_bad vs v rest b :
  Forall (fun a => is_barrier a = false /\ IsNumeric (tv_type a) = true) vs ->
  is_barrier v = false -> IsNumeric (tv_type v) = false ->
  CheckOperationType (vs ++ v :: rest) b = Some Invalid.
Proof.
  intros Hvs Hv Hn. revert b. induction Hvs as [|a vs [Ha1 Ha2] _ IH]; intros b; cbn [app CheckOperationType].
  - by rewrite Hv, Hn.
  - rewrite Ha1, Ha2. apply IH.
Qed.

(** Folding integer arguments through a wrapped operation. *)
Lemma fold_ints w (get : TypedValue -> option Z) (op ref : Z -> Z -> Z) vs barrier below r :
  0 < w -> (forall v, is_int v -> get v = Some (wrap_s w (int_of v))) ->
  (forall a b, op (wrap_s w a) (wrap_s w b) = wrap_s w (ref a b)) ->
  Forall is_int vs -> is_barrier barrier = true ->
  fold_args get op (frame vs barrier below) (wrap_s w r) =
    Some (wrap_s w (fold_left ref (map int_of vs) r)).
Proof.
  intros Hw Hget Hop Hvs Hb. unfold frame. revert r.
  induction Hvs as [|v vs Hv _ IH]; intros r; cbn [app fold_args map fold_left].
  - by rewrite Hb.
  - destruct Hv as (Hv & Hv'). rewrite Hv, Hget by done. rewrite Hop. apply IH.
Qed.

Lemma fold_left_add zs r : fold_left Z.add zs r = r + Zsum zs.
Proof.
  revert r. induction zs as [|z zs IH]; intros r; cbn [fold_left]; [cbn; lia|].
  rewrite IH. change (Zsum (z :: zs)) with (z + Zsum zs). lia.
Qed.
Lemma fold_left_sub zs r : fold_left Z.sub zs r = r - Zsum zs.
Proof.
  revert r. induction zs as [|z zs IH]; intros r; cbn [fold_left]; [cbn; lia|].
  rewrite IH. change (Zsum (z :: zs)) with (z + Zsum zs). lia.
Qed.
Lemma fold_left_mul zs r : fold_left Z.mul zs r = r * Zprod zs.
Proof.
  revert r. induction zs as [|z zs IH]; intros r; cbn [fold_left]; [cbn; lia|].
  rewrite IH. change (Zprod (z :: zs)) with (z * Zprod zs). by rewrite Z.mul_assoc.
Qed.

Section Spec.
  Context {W : Type}.
  Implicit Types ctx : CallContext W.

  (** [+], [-] and [*] on integer arguments. *)
Lemma math_add_ints vs barrier below ctx :
    Forall is_int vs -> is_barrier barrier = true -> args ctx = frame vs barrier below ->
    math_add ctx = Some (true, AddTyped (MkTyped T_int64 (VI64 (i64 (Zsum (map int_of vs))))) ctx).
  Proof.
    intros Hvs Hb Ha. unfold math_add, math_call. rewrite Ha, CheckOperationType_ints by done.
    unfold sum. rewrite <- (wrap_s_id 64 0) by (split; vm_compute; congruence).
    rewrite (fold_ints 64 GetI64 add_i64 Z.add); try done.
    - by rewrite fold_left_add.
    - apply GetI64_int.
    - intros a b. unfold add_i64, i64. by rewrite wrap_s_add_l, wrap_s_add_r by lia.
  Qed.

Lemma math_mul_ints vs barrier below ctx :
    Forall is_int vs -> is_barrier barrier = true -> args ctx = frame vs barrier below ->
    math_mul ctx = Some (true, AddTyped (MkTyped T_int16 (VI64 (wrap_s 16 (Zprod (map int_of vs))))) ctx).
  Proof.
    intros Hvs Hb Ha. unfold math_mul, math_call. rewrite Ha, CheckOperationType_ints by done.
    unfold mul_args. rewrite <- (wrap_s_id 16 1) at 1 by (split; vm_compute; congruence).
    rewrite (fold_ints 16 GetI16 mul_i16 Z.mul); try done.
    - by rewrite fold_left_mul, Z.mul_1_l.
    - apply GetI16_int.
    - intros a b. unfold mul_i16. by rewrite wrap_s_mul_l, wrap_s_mul_r by lia.
  Qed.

Lemma math_sub_ints v vs barrier below ctx :
    Forall is_int (v :: vs) -> is_barrier barrier = true -> args ctx = frame (v :: vs) barrier below ->
    math_sub ctx = Some (true, AddTyped (MkTyped T_int16
      (VI64 (wrap_s 16 (int_of v - Zsum (map int_of vs))))) ctx).
  Proof.
    intros Hvs Hb Ha. unfold math_sub, math_call. rewrite Ha, CheckOperationType_ints by done.
    inversion Hvs as [|? ? Hv Hvs']; subst. unfold frame. cbn [app sub_args].
    destruct Hv as (Hvb & Hv'). rewrite Hvb, GetI16_int by done.
    pose proof (fold_ints 16 GetI16 sub_i16 Z.sub vs barrier below (int_of v)) as Hf.
    unfold frame in Hf. rewrite Hf; try done.
    - by rewrite fold_left_sub.
    - apply GetI16_int.
    - intros a b. unfold sub_i16. rewrite wrap_s_sub_r by lia. unfold Z.sub. by rewrite wrap_s_add_l by lia.
  Qed.
End Spec.

(** * The functions only look at their own frame *)

Section Locality.
  Context {W : Type}.

Lemma fold_args_local {A} (get : TypedValue -> option A) op fr barrier below r :
    no_barrier fr -> is_barrier barrier = true ->
    fold_args get op (fr ++ barrier :: below) r = fold_args get op (fr ++ [barrier]) r.
  Proof.
    intros Hf Hb. revert r. induction Hf as [|v fr Hv _ IH]; intros r; cbn; [by rewrite Hb|].
    rewrite Hv. destruct (get v); [apply IH|done].
  Qed.

Lemma CheckOperationType_local fr barrier below b :
    no_barrier fr -> is_barrier barrier = true ->
    CheckOperationType (fr ++ barrier :: below) b = CheckOperationType (fr ++ [barrier]) b.
  Proof.
    intros Hf Hb. revert b. induction Hf as [|v fr Hv _ IH]; intros b; cbn; [by rewrite Hb|].
    rewrite Hv. destruct (IsNumeric _); [apply IH|done].
  Qed.

Lemma sub_args_local {A} (get : TypedValue -> option A) op z fr barrier below :
    no_barrier fr -> is_barrier barrier = true ->
    sub_args get op z (fr ++ barrier :: below) = sub_args get op z (fr ++ [barrier]).
  Proof.
    intros Hf Hb. inversion Hf as [|v fr' Hv Hf']; subst; cbn; [by rewrite Hb|].
    rewrite Hv. destruct (get v); [by apply fold_args_local|done].
  Qed.

Lemma div_args_local fr barrier below :
    no_barrier fr -> is_barrier barrier = true ->
    div_args (fr ++ barrier :: below) = div_args (fr ++ [barrier]).
  Proof.
    intros Hf Hb. inversion Hf as [|v fr' Hv Hf']; subst; cbn [app div_args]; [by rewrite Hb|].
    rewrite Hv. destruct (GetDouble v); [|done].
    assert (HE : IsEnd (fr' ++ barrier :: below) = IsEnd (fr' ++ [barrier])) by (by destruct fr').
    by rewrite HE, fold_args_local.
  Qed.

Lemma math_call_local (dbl int : CallContext W -> option (bool * CallContext W)) :
    call_local dbl -> call_local int -> call_local (math_call dbl int).
  Proof.
    intros Hd Hi fr barrier below out err w Hf Hb. unfold math_call. cbn [args].
    rewrite CheckOperationType_local by done.
    destruct (CheckOperationType _ _) as [[]|]; [done|by apply Hi|by apply Hd|done].
  Qed.

Lemma add_output_local t (f : Iterator -> option Value) :
    (forall fr barrier below, no_barrier fr -> is_barrier barrier = true ->
       f (fr ++ barrier :: below) = f (fr ++ [barrier])) ->
    call_local (fun ctx : CallContext W => add_output t (f (args ctx)) ctx).
  Proof.
    intros Hl fr barrier below out err w Hf Hb. unfold add_output. cbn [args].
    rewrite Hl by done. by destruct (f _).
  Qed.

Lemma math_local : call_local (W:=W) math_add /\ call_local (W:=W) math_sub /\
    call_local (W:=W) math_mul /\ call_local (W:=W) math_div.
  Proof.
    split; [|split; [|split]]; apply math_call_local.
    - apply (add_output_local TDouble (fun it => option_map VDbl (sum GetDouble d_add d_zero it))).
      intros. unfold sum. by rewrite fold_args_local.
    - apply (add_output_local TInt64 (fun it => option_map VI64 (sum GetI64 add_i64 0 it))).
      intros. unfold sum. by rewrite fold_args_local.
    - apply (add_output_local TDouble (fun it => option_map VDbl (sub_args GetDouble d_sub d_zero it))).
      intros. by rewrite sub_args_local.
    - apply (add_output_local TInt16 (fun it => option_map VI64 (sub_args GetI16 sub_i16 0 it))).
      intros. by rewrite sub_args_local.
    - apply (add_output_local TDouble (fun it => option_map VDbl (mul_args GetDouble d_mul d_one it))).
      intros. unfold mul_args. by rewrite fold_args_local.
    - apply (add_output_local TInt16 (fun it => option_map VI64 (mul_args GetI16 mul_i16 1 it))).
      intros. unfold mul_args. by rewrite fold_args_local.
    - apply (add_output_local TDouble (fun it => option_map VDbl (div_args it))).
      intros. by rewrite div_args_local.
    - apply (add_output_local TDouble (fun it => option_map VDbl (div_args it))).
      intros. by rewrite div_args_local.
  Qed.
End Locality.

(** * Properties *)

Definition bar : TypedValue := MkTyped T_FrameBarrier (VI64 0).
Definition int_val (z : Z) : TypedValue := MkTyped T_int64 (VI64 z).
Definition demo_ctx (vs : list TypedValue) : CallContext unit :=
  MkCtx (frame vs bar []) [] (StrBuilderNew 128) tt.

(** C33. The width of integer arithmetic: on any positive number of integer
    arguments, signed or unsigned, of any widths, [(+ ...)] gives one [int64]
    value, the sum reduced to 64 bits, so exactly the sum whenever that fits,
    even if partial sums do not; [(- ...)] and [( * ...)] give an [int16]
    value, the exact result reduced to 16 bits, although their arguments are
    64-bit integers too. *)
Theorem integer_arithmetic_widths {W} (v : TypedValue) (vs : list TypedValue) barrier below
    (ctx : CallContext W) :
  Forall is_int (v :: vs) -> is_barrier barrier = true -> args ctx = frame (v :: vs) barrier below ->
  (exists r, math_add ctx = Some (true, AddTyped (MkTyped T_int64 r) ctx) /\
     val_i64 r = wrap_s 64 (Zsum (map int_of (v :: vs))) /\
     (in_s 64 (Zsum (map int_of (v :: vs))) -> val_i64 r = Zsum (map int_of (v :: vs)))) /\
  (exists r, math_sub ctx = Some (true, AddTyped (MkTyped T_int16 r) ctx) /\
     val_i64 r = wrap_s 16 (int_of v - Zsum (map int_of vs))) /\
  (exists r, math_mul ctx = Some (true, AddTyped (MkTyped T_int16 r) ctx) /\
     val_i64 r = wrap_s 16 (Zprod (map int_of (v :: vs)))).
Proof.
  intros Hvs Hb Ha.
  assert (Hr : forall z, in_s 64 (wrap_s 16 z)).
  { intros z. pose proof (wrap_s_range 16 z ltac:(lia)) as [H1 H2].
    change (2 ^ (16 - 1)) with 32768 in *. split; change (2 ^ (64 - 1)) with 9223372036854775808; lia. }
  split; [|split; eexists; (split; [first [by apply (math_sub_ints v vs barrier below)
                                 |by apply (math_mul_ints (v :: vs) barrier below)]|]);
    by apply val_i64_VI64].
  eexists; split; [by apply (math_add_ints (v :: vs) barrier below)|].
  rewrite val_i64_VI64 by (apply wrap_s_range; lia). split; [done|]. by apply wrap_s_id.
Qed.

Lemma integer_arithmetic_widths_witness :
  let vs := [int_val (2 ^ 63 - 1); int_val (- 2 ^ 63)] in
  Forall is_int vs /\
  (exists r, math_add (demo_ctx (int_val (2 ^ 63 - 1) :: vs)) =
      Some (true, AddTyped (MkTyped T_int64 r) (demo_ctx (int_val (2 ^ 63 - 1) :: vs))) /\ val_i64 r = 2 ^ 63 - 2) /\
  (exists r, math_mul (demo_ctx [int_val 200; int_val 200]) =
      Some (true, AddTyped (MkTyped T_int16 r) (demo_ctx [int_val 200; int_val 200])) /\ val_i64 r = - 25536).
Proof.
  intros vs. assert (Hvs : Forall is_int vs) by by repeat constructor. split; [exact Hvs|].
  destruct (integer_arithmetic_widths (int_val (2 ^ 63 - 1)) vs bar [] (demo_ctx (int_val (2 ^ 63 - 1) :: vs)))
    as [(r1 & E1 & H1 & _) _]; [by repeat constructor|reflexivity|reflexivity|].
  destruct (integer_arithmetic_widths (int_val 200) [int_val 200] bar [] (demo_ctx [int_val 200; int_val 200]))
    as [_ [_ (r2 & E2 & H2)]]; [by repeat constructor|reflexivity|reflexivity|].
  split; [exists r1; split; [exact E1|rewrite H1; reflexivity]|].
  exists r2. split; [exact E2|rewrite H2; reflexivity].
Defined.

(** C24. Type errors are refused: when any argument of the frame is not
    numeric, all four functions fail with the same message, add no output and
    leave the program's data alone. *)
Theorem math_rejects_non_numeric {W} (vs : list TypedValue) v rest (ctx : CallContext W) (f : Call W) :
  Forall (fun a => is_barrier a = false /\ IsNumeric (tv_type a) = true) vs ->
  is_barrier v = false -> IsNumeric (tv_type v) = false ->
  args ctx = vs ++ v :: rest ->
  f ∈ [math_add; math_sub; math_mul; math_div] ->
  exists ctx', f ctx = Some (false, ctx') /\ output ctx' = output ctx /\ user_data ctx' = user_data ctx /\
    error_text ctx' = Append (error_text ctx) [AStr k_invalid_type_error].
Proof.
  intros Hvs Hv Hn Ha Hf. set (ctx' := MkCtx (args ctx) (output ctx)
    (Append (error_text ctx) [AStr k_invalid_type_error]) (user_data ctx)).
  exists ctx'. split; [|done]. assert (HC : CheckOperationType (args ctx) false = Some Invalid)
    by (rewrite Ha; by apply CheckOperationType_bad).
  rewrite !elem_of_cons, elem_of_nil in Hf.
  destruct Hf as [->|[->|[->|[->|[]]]]];
    unfold math_add, math_sub, math_mul, math_div, math_call; by rewrite HC.
Qed.

Lemma math_rejects_non_numeric_witness :
  let vs := [int_val 1; MkTyped T_StrSpan (VStr 64 (lit "x")); bar] in
  let ctx := MkCtx vs [] (StrBuilderNew 128) tt in
  exists ctx', math_mul ctx = Some (false, ctx') /\
    Buffer (error_text ctx') = lit "Operation expects numeric type".
Proof.
  intros vs ctx.
  destruct (math_rejects_non_numeric [int_val 1] (MkTyped T_StrSpan (VStr 64 (lit "x"))) [bar] ctx math_mul)
    as (ctx' & E & _ & _ & Ht).
  - by repeat constructor.
  - reflexivity.
  - reflexivity.
  - reflexivity.
  - do 2 apply list_elem_of_further. apply list_elem_of_here.
  - exists ctx'. split; [exact E|]. rewrite Ht. reflexivity.
Defined.
