(* ===== verification/Program.v ===== *)
(** [slang/env], [slang/compiler], [slang/program], [slang/slang]: the compiler
    from lexer events to stack code, the stack machine, and [slang::Execute].

    The compiler emits instructions in reading order and the program is the
    reversed list, so a call's arguments are evaluated last to first and its
    first argument ends up on top of the stack.  A payload handler and the
    serializer are reached through interfaces, as in the code. *)
From S2P Require Import Prelude Either StrBuild CLib Stream Types Call Lexer.
Local Open Scope Z_scope.

(** * Instructions and environment *)

(** source/slang/call.h:125-133 [Instruction] *)
Inductive Instruction (W : Type) :=
| IPush (data : TypedValue)
| ICall (call : Call W).
Arguments IPush {W}. Arguments ICall {W}.

(** The payload handlers of the program. *)
(** source/slang/env.h:22-27 [PayloadHandler] *)
Inductive PayloadHandler := JsonPayloadHandler.

(** source/main/json_payload_handler.cc:11-24 [JsonPayloadHandler::ProcessPayload] *)
Definition ProcessPayload {C} (p : PayloadHandler) (reader : C) : Either bytes unit * C :=
  match p with JsonPayloadHandler => (Left (lit "Not supported"), reader) end.

(** source/slang/env.h:18-20 [MakePayloadHandlerToken] *)
Definition MakePayloadHandlerToken (str : bytes) : Z :=
  let ch (i : nat) : Z := schar (nth i str c_nul) in
  u64 (Z.lor (Z.lor (Z.lor (Z.shiftl (ch 0%nat) 24) (Z.shiftl (ch 1%nat) 16)) (Z.shiftl (ch 2%nat) 8)) (ch 3%nat))
  mod 2 ^ 32.

(** source/slang/env.h:32-42 [Env] *)
Record Env (W : Type) := MkEnv {
  functions_ : gmap bytes (Call W);
  payload_handlers_ : gmap Z PayloadHandler
}.
Arguments MkEnv {W}. Arguments functions_ {W}. Arguments payload_handlers_ {W}.

(** source/slang/env.cc:12-19 [Env::FindCall] *)
Definition FindCall {W} (env : Env W) (name : bytes) : option (Call W) := functions_ env !! name.

(** source/slang/env.cc:21-28 [Env::FindPayloadHandler] *)
Definition FindPayloadHandler {W} (env : Env W) (token : Z) : option PayloadHandler :=
  payload_handlers_ env !! token.

(** * Compiler *)

(** The scratch allocator only matters through the addresses it hands out for
    string constants: [cur_allocator_ n] is the result of the [n]-th next
    [Alloc].  [code_] is in emission order. *)
(** source/slang/compiler.h:16-39 [Compiler] *)
Record Compiler (W : Type) := MkCompiler {
  env_ : Env W;
  code_ : list (Instruction W);
  cur_allocator_ : nat -> Z;
  error_builder_ : StrBuilder
}.
Arguments MkCompiler {W}. Arguments env_ {W}. Arguments code_ {W}.
Arguments cur_allocator_ {W}. Arguments error_builder_ {W}.

Section Compile.
  Context {W : Type}.
  Implicit Types c : Compiler W.

Definition emit (i : Instruction W) c : Compiler W :=
  MkCompiler (env_ c) (code_ c ++ [i]) (cur_allocator_ c) (error_builder_ c).

Definition compile_error (parts : list BuildArg) c : Either bytes unit * Compiler W :=
  let eb := Append (error_builder_ c) parts in
  (Left (Buffer eb), MkCompiler (env_ c) (code_ c) (cur_allocator_ c) eb).

(** source/slang/compiler.cc:84-90 [Compiler::AddStrValue] *)
Definition AddStrValue (type : TypeSchema) (value : bytes) c : Compiler W :=
  let buf := cur_allocator_ c 0%nat in
  emit (IPush (MkTyped type (VStr buf value)))
    (MkCompiler (env_ c) (code_ c) (fun n => cur_allocator_ c (S n)) (error_builder_ c)).

(** source/slang/compiler.cc:26-36 [Compiler::LexerBeginOp] *)
Definition CompilerBeginOp (op_name : bytes) c : Either bytes unit * Compiler W :=
  match FindCall (env_ c) op_name with
  | None => compile_error [AStr (lit "Unknown function '"); AStr op_name; AStr (lit "'")] c
  | Some call => (Right tt, emit (ICall call) c)
  end.

(** source/slang/compiler.cc:38-42 [Compiler::LexerEndOp] *)
Definition CompilerEndOp c : Either bytes unit * Compiler W :=
  (Right tt, emit (IPush (MkTyped T_FrameBarrier (VI64 0))) c).

(** source/slang/compiler.cc:44-47 [Compiler::LexerStrValue] *)
Definition CompilerStrValue (value : bytes) c : Either bytes unit * Compiler W :=
  (Right tt, AddStrValue T_StrSpan value c).

(** source/slang/compiler.cc:49-53 [Compiler::LexerIntValue] *)
Definition CompilerIntValue (value : Z) c : Either bytes unit * Compiler W :=
  (Right tt, emit (IPush (MkTyped T_int64 (VI64 value))) c).

(** source/slang/compiler.cc:55-59 [Compiler::LexerDoubleValue] *)
Definition CompilerDoubleValue (value : double) c : Either bytes unit * Compiler W :=
  (Right tt, emit (IPush (MkTyped T_double (VDbl value))) c).

(** source/slang/compiler.cc:61-68 [Compiler::LexerUnhandledValue] *)
Definition CompilerUnhandledValue (value : bytes) c : Either bytes unit * Compiler W :=
  match value with
  | ch :: ((_ :: _) as name) =>
      if ch =c ":" then (Right tt, AddStrValue T_Field name c) else CompilerStrValue value c
  | _ => CompilerStrValue value c
  end.

(** source/slang/compiler.h:27-36 [Compiler] *)
#[export] Instance Compiler_handler : LexerHandler (Compiler W) := {
  LexerBeginOp := CompilerBeginOp;
  LexerEndOp := CompilerEndOp;
  LexerStrValue := CompilerStrValue;
  LexerIntValue := CompilerIntValue;
  LexerDoubleValue := CompilerDoubleValue;
  LexerUnhandledValue := CompilerUnhandledValue
}.

(** source/slang/compiler.cc:70-82 [Compiler::LexerCustomData] *)
#[export] Instance Compiler_payload {C} : LexerPayload (Compiler W) C := fun token c reader =>
  match FindPayloadHandler (env_ c) token with
  | None => (compile_error [AStr (lit "Unknown payload type: "); AUInt token] c, reader)
  | Some payload_handler =>
      let '(r, reader') := ProcessPayload payload_handler reader in ((r, c), reader')
  end.

(** source/slang/compiler_def.h:9-22 [CompileError] *)
Definition CompileError : Type := LexerFailure.

Definition Program := list (Instruction W).

(** source/slang/compiler.cc:7-9 [Compiler::Compiler] *)
Definition CompilerNew (env : Env W) (allocator : nat -> Z) : Compiler W :=
  MkCompiler env [] allocator (StrBuilderNew 128).

(** The outcome, with the reader behind the text that was consumed. *)
(** source/slang/compiler.cc:11-24 [Compiler::Build] *)
Definition Build {S} `{InStream S} (fuel : nat) (compiler : Compiler W) (reader : StreamReader S)
    : option (Either CompileError Program * StreamReader S) :=
  match RunStream fuel compiler reader true with
  | None => None
  | Some (parse_result, st) =>
      Some (MapRight parse_result (fun _ => rev (code_ (handler_ st))), cur_reader (source_ st))
  end.
End Compile.

(** * The stack machine *)

(** source/types/serializer.h:14-26 [Serializer] *)
Class Serializer (W X : Type) := {
  SerializeValue : W -> TypedValue -> X -> option (Either bytes unit * X);
  SerializeList : W -> list TypedValue -> X -> option (Either bytes unit * X);
  SerializeStr : bytes -> X -> option (Either bytes unit * X)
}.

(** source/types/serializer.h:30-35 [DummySerializer] *)
#[export] Instance DummySerializer {W} : Serializer W unit := {
  SerializeValue _ _ x := Some (Right tt, x);
  SerializeList _ _ x := Some (Right tt, x);
  SerializeStr _ x := Some (Right tt, x)
}.

Section Machine.
  Context {W : Type}.

(** source/slang/program.cc:11-19 [PurgeStackFrame] *)
Fixpoint PurgeStackFrame_loop (sz : nat) (stack : list TypedValue) : list TypedValue :=
  match sz with
  | O => stack
  | S sz' =>
      match stack !! sz' with
      | Some v => if is_barrier v then take sz' stack else PurgeStackFrame_loop sz' stack
      | None => stack
      end
  end.

(** source/slang/program.cc:11-19 [PurgeStackFrame] *)
Definition PurgeStackFrame (stack : list TypedValue) : list TypedValue :=
  PurgeStackFrame_loop (length stack) stack.

(** How the instruction loop ends: a failed call with its message, or the
    final stack; always with the program's data. *)
Inductive RunEnd :=
| Aborted (text : bytes) (w : W)
| Finished (stack : list TypedValue) (err : StrBuilder) (w : W).

(** source/slang/program.cc:29-61 [Program::Execute] *)
Fixpoint run (code : list (Instruction W)) (stack : list TypedValue) (err : StrBuilder) (w : W)
    : option RunEnd :=
  match code with
  | [] => Some (Finished stack err w)
  | IPush data :: code' => run code' (stack ++ [data]) err w
  | ICall call :: code' =>
      match call (MkCtx (rev stack) [] err w) with
      | None => None
      | Some (false, ctx) => Some (Aborted (Buffer (error_text ctx)) (user_data ctx))
      | Some (true, ctx) =>
          run code' (PurgeStackFrame stack ++ output ctx) (error_text ctx) (user_data ctx)
      end
  end.

(** source/slang/program.cc:23-67 [Program::Execute] *)
Definition ProgramExecute {X} `{Serializer W X} (code : list (Instruction W)) (w : W) (x : X)
    : option (W * X) :=
  match run code [] (StrBuilderNew 128) w with
  | None => None
  | Some (Aborted text w') => option_map (fun r => (w', snd r)) (SerializeStr text x)
  | Some (Finished stack _ w') => option_map (fun r => (w', snd r)) (SerializeList w' stack x)
  end.

(** * slang::Execute *)

(** source/slang/slang.cc:12-19 [BuildCompileErrorText] *)
Definition BuildCompileErrorText (error : CompileError) : StrBuilder :=
  Append (StrBuilderNew 128)
    [AStr (lit "Error(ln "); AUInt (Z.of_nat (err_line_no_ error)); AStr (lit ", col ");
     AUInt (Z.of_nat (err_line_offset_ error)); AStr (lit "): "); AStr (err_msg_ error)].

(** source/slang/slang.cc:23-41 [Execute] *)
Definition Execute {S X} `{InStream S} `{Serializer W X} (fuel : nat) (reader : StreamReader S)
    (env : Env W) (allocator : nat -> Z) (w : W) (x : X)
    : option (Either CompileError unit * W * X * StreamReader S) :=
  match Build fuel (CompilerNew env allocator) reader with
  | None => None
  | Some (Left error, reader') =>
      match SerializeStr (Buffer (BuildCompileErrorText error)) x with
      | None => None
      | Some (_, x') => Some (Left error, w, x', reader')
      end
  | Some (Right program, reader') =>
      match ProgramExecute program w x with
      | None => None
      | Some (w', x') => Some (Right tt, w', x', reader')
      end
  end.

(** source/slang/slang.cc:43-47 [Execute] *)
Definition ExecuteStr {X} `{Serializer W X} (fuel : nat) (code : bytes)
    (env : Env W) (allocator : nat -> Z) (w : W) (x : X) :=
  Execute fuel (ReaderNew code (tt : DummyInStream)) env allocator w x.
End Machine.
Arguments RunEnd : clear implicits.
Arguments Program : clear implicits.

(** * The stack machine's frames *)

Section Frames.
  Context {W : Type}.

(** A slot above an existing barrier does not matter to the search below it. *)
Lemma purge_loop_snoc (n : nat) (l : list TypedValue) v i b :
  (n <= length l)%nat -> (i < n)%nat -> l !! i = Some b -> is_barrier b = true ->
  PurgeStackFrame_loop n (l ++ [v]) = PurgeStackFrame_loop n l.
Proof.
  intros Hn Hi Hb Hbar. induction n as [|n IHn]; [lia|].
  cbn [PurgeStackFrame_loop]. rewrite lookup_app_l by lia.
  destruct (lookup_lt_is_Some_2 l n ltac:(lia)) as [y Hy]. rewrite Hy.
  destruct (is_barrier y) eqn:Ey; [by rewrite take_app_le by lia|].
  apply IHn; [lia|]. destruct (decide (i = n)) as [->|]; [congruence|lia].
Qed.

Lemma PurgeStackFrame_frame (below : list TypedValue) barrier fr :
  is_barrier barrier = true -> no_barrier fr ->
  PurgeStackFrame (below ++ barrier :: fr) = below.
Proof.
  intros Hb Hf. unfold PurgeStackFrame. induction fr as [|v fr IH] using rev_ind.
  - rewrite length_app. cbn [length]. rewrite Nat.add_1_r. cbn [PurgeStackFrame_loop].
    rewrite lookup_app_r, Nat.sub_diag by lia. cbn. by rewrite Hb, take_app_length.
  - apply Forall_app in Hf as [Hf Hv]. inversion Hv as [|? ? Hv' _]; subst. specialize (IH Hf).
    replace (below ++ barrier :: fr ++ [v]) with ((below ++ barrier :: fr) ++ [v])
      by (by rewrite <- app_assoc).
    set (l := below ++ barrier :: fr) in *.
    rewrite length_app. cbn [length]. rewrite Nat.add_1_r. cbn [PurgeStackFrame_loop].
    rewrite lookup_app_r, Nat.sub_diag by lia. cbn [lookup list_lookup]. rewrite Hv'.
    etrans; [|exact IH]. apply (purge_loop_snoc _ l v (length below) barrier); try done.
    + unfold l. rewrite length_app. cbn. lia.
    + unfold l. by rewrite lookup_app_r, Nat.sub_diag by lia.
Qed.
End Frames.
