(* ===== verification/Eval.v ===== *)
(** The meaning of slang programs: a recursive evaluator, and the theorem that
    compiling and running the printed text of an expression, over any chunked
    stream, computes it.

    Arguments are evaluated right to left; a call's frame is the outputs of
    its arguments, the first argument on top.  An [rexp] is an expression whose
    operations are resolved and whose string constants have addresses. *)
From S2P Require Import Prelude Either StrBuild CLib Stream Types Call Lexer LexerSim Syntax Program.
From S2P Require Import MathFuncs.
Local Open Scope Z_scope.

(** * Resolved expressions *)

#[warnings="-register-all"]
Inductive rexp (W : Type) :=
| RVal (v : TypedValue)
| RCall (c : Call W) (args : list (rexp W)).
Arguments RVal {W}. Arguments RCall {W}.

Section RexpInd.
  Context {W : Type} (P : rexp W -> Prop).
  Hypothesis HVal : forall v, P (RVal v).
  Hypothesis HCall : forall c args, Forall P args -> P (RCall c args).

Fixpoint rexp_ind' (e : rexp W) : P e :=
  match e with
  | RVal v => HVal v
  | RCall c args =>
      HCall c args
        ((fix go (l : list (rexp W)) : Forall P l :=
            match l with
            | [] => Forall_nil_2 P
            | a :: l' => Forall_cons_2 P a l' (rexp_ind' a) (go l')
            end) args)
  end.
End RexpInd.

Section Eval.
  Context {W : Type}.

(** Names: a [:name] of at least two characters is a field, anything else a
    string. *)
Definition resolve_name (s : bytes) (a : nat -> Z) : TypedValue :=
  match s with
  | ch :: ((_ :: _) as name) =>
      if ch =c ":" then MkTyped T_Field (VStr (a 0%nat) name) else MkTyped T_StrSpan (VStr (a 0%nat) s)
  | _ => MkTyped T_StrSpan (VStr (a 0%nat) s)
  end.

Definition next_addrs (a : nat -> Z) : nat -> Z := fun n => a (S n).

(** [None]: some operation is not in the environment. *)
Fixpoint resolve (env : Env W) (e : sexp) (a : nat -> Z) : option (rexp W * (nat -> Z)) :=
  match e with
  | EInt v => Some (RVal (MkTyped T_int64 (VI64 v)), a)
  | EStr s => Some (RVal (MkTyped T_StrSpan (VStr (a 0%nat) s)), next_addrs a)
  | EName s => Some (RVal (resolve_name s a), next_addrs a)
  | ECall op es =>
      match FindCall env op with
      | None => None
      | Some c =>
          match (fix go (l : list sexp) (a : nat -> Z) : option (list (rexp W) * (nat -> Z)) :=
                   match l with
                   | [] => Some ([], a)
                   | x :: l' =>
                       match resolve env x a with
                       | None => None
                       | Some (r, a1) =>
                           match go l' a1 with
                           | None => None
                           | Some (rs, a2) => Some (r :: rs, a2)
                           end
                       end
                   end) es a with
          | None => None
          | Some (rs, a') => Some (RCall c rs, a')
          end
      end
  end.

Fixpoint resolve_list (env : Env W) (l : list sexp) (a : nat -> Z) : option (list (rexp W) * (nat -> Z)) :=
  match l with
  | [] => Some ([], a)
  | x :: l' =>
      match resolve env x a with
      | None => None
      | Some (r, a1) =>
          match resolve_list env l' a1 with
          | None => None
          | Some (rs, a2) => Some (r :: rs, a2)
          end
      end
  end.

Lemma resolve_call env op es a :
  resolve env (ECall op es) a =
  match FindCall env op with
  | None => None
  | Some c => match resolve_list env es a with
              | None => None
              | Some (rs, a') => Some (RCall c rs, a')
              end
  end.
Proof.
  cbn [resolve]. destruct (FindCall env op) as [c|]; [|done].
  match goal with |- match ?x with _ => _ end = match ?y with _ => _ end =>
    enough (x = y) as -> by done end.
  revert a. induction es as [|x es IH]; intros a; [done|]. cbn [resolve_list].
  destruct (resolve env x a) as [[r a1]|]; [|done]. by rewrite <- IH.
Qed.

(** The code of a resolved expression, in emission order. *)
Fixpoint code_of (e : rexp W) : list (Instruction W) :=
  match e with
  | RVal v => [IPush v]
  | RCall c es => ICall c :: concat (map code_of es) ++ [IPush bar]
  end.

(** * The evaluator *)

Inductive Outcome :=
| Failed (text : bytes) (w : W)
| Values (vs : list TypedValue) (err : StrBuilder) (w : W).

Definition bind (r : option Outcome) (k : list TypedValue -> StrBuilder -> W -> option Outcome) :=
  match r with
  | None => None
  | Some (Failed text w) => Some (Failed text w)
  | Some (Values vs err w) => k vs err w
  end.

Fixpoint eval (e : rexp W) (err : StrBuilder) (w : W) : option Outcome :=
  match e with
  | RVal v => Some (Values [v] err w)
  | RCall c es =>
      bind ((fix go (l : list (rexp W)) : option Outcome :=
               match l with
               | [] => Some (Values [] err w)
               | x :: l' => bind (go l') (fun fr err1 w1 =>
                              bind (eval x err1 w1) (fun vs err2 w2 => Some (Values (fr ++ vs) err2 w2)))
               end) es)
        (fun fr err1 w1 =>
           match c (MkCtx (rev fr ++ [bar]) [] err1 w1) with
           | None => None
           | Some (false, ctx) => Some (Failed (Buffer (error_text ctx)) (user_data ctx))
           | Some (true, ctx) => Some (Values (output ctx) (error_text ctx) (user_data ctx))
           end)
  end.

(** The frame the arguments leave, bottom first. *)
Fixpoint eval_args (l : list (rexp W)) (err : StrBuilder) (w : W) : option Outcome :=
  match l with
  | [] => Some (Values [] err w)
  | x :: l' => bind (eval_args l' err w) (fun fr err1 w1 =>
                 bind (eval x err1 w1) (fun vs err2 w2 => Some (Values (fr ++ vs) err2 w2)))
  end.

Lemma eval_call c es err w :
  eval (RCall c es) err w =
  bind (eval_args es err w) (fun fr err1 w1 =>
    match c (MkCtx (rev fr ++ [bar]) [] err1 w1) with
    | None => None
    | Some (false, ctx) => Some (Failed (Buffer (error_text ctx)) (user_data ctx))
    | Some (true, ctx) => Some (Values (output ctx) (error_text ctx) (user_data ctx))
    end).
Proof.
  cbn [eval]. f_equal. induction es as [|x es IH]; [done|]. cbn [eval_args]. by rewrite <- IH.
Qed.

(** * Well-behaved calls *)

(** An invariant of the program's data. *)
Context (Inv : W -> Prop).

(** A call looks at its own frame only, keeps the invariant, and never outputs
    a barrier. *)
Definition call_ok (c : Call W) : Prop :=
  call_local c /\
  forall fr err w b ctx, no_barrier fr -> Inv w ->
    c (MkCtx (fr ++ [bar]) [] err w) = Some (b, ctx) -> Inv (user_data ctx) /\ no_barrier (output ctx).

Definition env_ok (env : Env W) : Prop := forall name c, FindCall env name = Some c -> call_ok c.

Fixpoint rexp_ok (e : rexp W) : Prop :=
  match e with
  | RVal v => is_barrier v = false
  | RCall c es => call_ok c /\ foldr (fun x P => rexp_ok x /\ P) True es
  end.

Lemma rexp_ok_args es : foldr (fun x P => rexp_ok x /\ P) True es <-> Forall rexp_ok es.
Proof.
  induction es as [|x es IH]; cbn; [done|]. rewrite IH.
  split; [by intros []; constructor|]. by inversion 1.
Qed.

Lemma resolve_name_ok s a : is_barrier (resolve_name s a) = false.
Proof. unfold resolve_name. destruct s as [|c [|d s]]; [done|done|]. by case_goal. Qed.

Lemma resolve_ok env e a r a' : env_ok env -> resolve env e a = Some (r, a') -> rexp_ok r.
Proof.
  intros Henv. revert a r a'. induction e as [v|s|s|op es IH] using sexp_ind'; intros a r a'.
  - by intros [= <- _].
  - by intros [= <- _].
  - intros [= <- _]. apply resolve_name_ok.
  - rewrite resolve_call. destruct (FindCall env op) as [c|] eqn:Ec; [|done].
    destruct (resolve_list env es a) as [[rs a1]|] eqn:El; [|done]. intros [= <- _].
    split; [by apply (Henv op)|]. apply rexp_ok_args. revert a rs a1 El.
    induction IH as [|x es Hx _ IHes]; intros a rs a1 El; cbn in El; [by injection El as <- _; constructor|].
    destruct (resolve env x a) as [[r1 a2]|] eqn:Ex; [|done].
    destruct (resolve_list env es a2) as [[rs' a3]|] eqn:Es; [|done]. injection El as <- _.
    constructor; [by apply (Hx a _ a2)|by apply (IHes a2 _ a3)].
Qed.

(** * Compiling emits the code *)

Definition emitted (c : Compiler W) (code : list (Instruction W)) (a : nat -> Z) : Compiler W :=
  MkCompiler (env_ c) (code_ c ++ code) a (error_builder_ c).

Lemma compile_events env e (c : Compiler W) r a' :
  env_ c = env -> resolve env e (cur_allocator_ c) = Some (r, a') ->
  deliver_all (events e) c = (Right tt, emitted c (code_of r) a').
Proof.
  revert c r a'. induction e as [v|s|s|op es IH] using sexp_ind'; intros c r a' Henv.
  - by intros [= <- <-].
  - by intros [= <- <-].
  - intros [= <- <-]. cbn. unfold CompilerUnhandledValue, CompilerStrValue, resolve_name.
    destruct s as [|ch [|d s]]; [done|done|]. by destruct (ch =c ":").
  - rewrite resolve_call. destruct (FindCall env op) as [call|] eqn:Ec; [|done].
    destruct (resolve_list env es (cur_allocator_ c)) as [[rs a1]|] eqn:El; [|done]. intros [= <- <-].
    cbn [events deliver_all deliver LexerBeginOp Compiler_handler]. unfold CompilerBeginOp. rewrite Henv, Ec.
    set (c1 := emit (ICall call) c).
    assert (Hargs : forall c0 : Compiler W, env_ c0 = env -> resolve_list env es (cur_allocator_ c0) = Some (rs, a1) ->
      deliver_all (concat (map events es)) c0 = (Right tt, emitted c0 (concat (map code_of rs)) a1)).
    { clear El c1 Ec Henv c. revert rs a1. induction IH as [|x es Hx _ IHes]; intros rs a1 c0 Henv El; cbn in El.
      - injection El as <- <-. cbn. unfold emitted. rewrite app_nil_r. by destruct c0.
      - destruct (resolve env x (cur_allocator_ c0)) as [[r1 a2]|] eqn:Ex; [|done].
        destruct (resolve_list env es a2) as [[rs' a3]|] eqn:Es; [|done]. injection El as <- <-.
        cbn [map concat]. rewrite (deliver_all_app_ok _ _ _ _ (Hx c0 r1 a2 Henv Ex)).
        rewrite (IHes rs' a3 (emitted c0 (code_of r1) a2)) by done.
        unfold emitted. cbn. by rewrite <- app_assoc. }
    rewrite (deliver_all_app_ok _ _ _ _ (Hargs c1 Henv El)).
    cbn. unfold emitted, emit. cbn. by rewrite <- !app_assoc.
Qed.

(** * Running the code evaluates the expression *)

Lemma bar_is_barrier : is_barrier bar = true.
Proof. done. Qed.

Lemma no_barrier_rev (vs : list TypedValue) : no_barrier vs -> no_barrier (rev vs).
Proof. unfold no_barrier. rewrite !List.Forall_forall. intros Hv v Hin. apply Hv. by apply in_rev. Qed.

Definition outcome_ok (o : Outcome) : Prop :=
  match o with
  | Failed _ w => Inv w
  | Values vs _ w => Inv w /\ no_barrier vs
  end.

Lemma bind_ok r k o :
  (forall o', r = Some o' -> outcome_ok o') ->
  (forall vs err w o', outcome_ok (Values vs err w) -> k vs err w = Some o' -> outcome_ok o') ->
  bind r k = Some o -> outcome_ok o.
Proof.
  intros Hr Hk. destruct r as [[text w|vs err w]|]; cbn; [|intros Ho|done].
  - intros [= <-]. by apply (Hr (Failed text w)).
  - by apply (Hk vs err w); [apply Hr|].
Qed.

Lemma eval_args_ok es err w o :
  Forall (fun x => forall err w o, rexp_ok x -> Inv w -> eval x err w = Some o -> outcome_ok o) es ->
  Forall rexp_ok es -> Inv w -> eval_args es err w = Some o -> outcome_ok o.
Proof.
  intros Hes Hok Hw. revert o. induction Hes as [|x es Hx _ IH]; intros o; cbn [eval_args].
  - intros [= <-]. split; [done|constructor].
  - inversion Hok as [|? ? Hokx Hokes]; subst. apply bind_ok; [by apply IH|].
    intros fr err1 w1 o1 [Hw1 Hfr]. apply bind_ok; [by intros o' ?; apply (Hx err1 w1 o')|].
    intros vs err2 w2 o2 [Hw2 Hvs] [= <-]. split; [done|]. by apply Forall_app.
Qed.

Lemma eval_ok e err w o : rexp_ok e -> Inv w -> eval e err w = Some o -> outcome_ok o.
Proof.
  revert err w o. induction e as [v|c es IH] using rexp_ind'; intros err w o Hok Hw.
  - intros [= <-]. split; [done|]. by constructor.
  - destruct Hok as [[_ Hc] Hes]. apply rexp_ok_args in Hes. rewrite eval_call.
    apply bind_ok; [by intros o' ?; apply (eval_args_ok es err w)|].
    intros fr err1 w1 o1 [Hw1 Hfr].
    destruct (c _) as [[b ctx]|] eqn:Ec; [|done].
    destruct (Hc _ _ _ _ _ (no_barrier_rev fr Hfr) Hw1 Ec) as [Hi Hn].
    destruct b; intros [= <-]; [by split|done].
Qed.

Lemma eval_args_all_ok es err w o : Forall rexp_ok es -> Inv w -> eval_args es err w = Some o -> outcome_ok o.
Proof.
  intros Hok Hw E. apply (eval_args_ok es err w o); try done.
  apply List.Forall_forall. intros x _ err' w' o'. apply eval_ok.
Qed.

(** What a run does after evaluating to [o] on top of [stack]. *)
Definition resume (o : option (Outcome)) (stack : list TypedValue) (k : list (Instruction W))
    : option (RunEnd W) :=
  match o with
  | None => None
  | Some (Failed text w) => Some (Aborted text w)
  | Some (Values vs err w) => run k (stack ++ vs) err w
  end.

Lemma run_call (c : Call W) k stack fr err w :
  call_local c -> no_barrier fr ->
  run (ICall c :: k) (stack ++ bar :: fr) err w =
  match c (MkCtx (rev fr ++ [bar]) [] err w) with
  | None => None
  | Some (false, ctx) => Some (Aborted (Buffer (error_text ctx)) (user_data ctx))
  | Some (true, ctx) => run k (stack ++ output ctx) (error_text ctx) (user_data ctx)
  end.
Proof.
  intros Hl Hf. cbn [run]. rewrite PurgeStackFrame_frame by done.
  rewrite rev_app_distr. cbn [rev]. rewrite <- app_assoc. cbn [app].
  pose proof (Hl (rev fr) bar (rev stack) [] err w (no_barrier_rev fr Hf) eq_refl) as HL.
  destruct (c (MkCtx (rev fr ++ bar :: rev stack) [] err w)) as [[r1 ctx1]|],
           (c (MkCtx (rev fr ++ [bar]) [] err w)) as [[r2 ctx2]|]; try done.
  unfold with_args in HL. cbn in HL. injection HL as -> Ho He Hu. by rewrite Ho, He, Hu.
Qed.

Lemma run_eval e k stack err w :
  rexp_ok e -> Inv w -> run (rev (code_of e) ++ k) stack err w = resume (eval e err w) stack k.
Proof.
  revert k stack err w. induction e as [v|c es IH] using rexp_ind'; intros k stack err w Hok Hw; [done|].
  destruct Hok as [[Hl Hc] Hes]. apply rexp_ok_args in Hes. rewrite eval_call.
  assert (Hargs : forall k stack err w, Inv w ->
    run (rev (concat (map code_of es)) ++ k) stack err w = resume (eval_args es err w) stack k).
  { clear Hl Hc k stack err w Hw. induction IH as [|x es Hx _ IHes]; intros k stack err w Hw.
    - cbn. by rewrite app_nil_r.
    - inversion Hes as [|? ? Hokx Hokes]; subst. cbn [map concat].
      rewrite rev_app_distr, <- app_assoc, IHes by done. cbn [eval_args].
      destruct (eval_args es err w) as [[?|fr1 err1 w1]|] eqn:Ea; [done| |done]. cbn [bind resume].
      destruct (eval_args_all_ok es err w _ Hokes Hw Ea) as [Hw1 _].
      rewrite Hx by done. destruct (eval x err1 w1) as [[?|vs2 err2 w2]|]; [done| |done].
      cbn [resume bind]. by rewrite app_assoc. }
  cbn [code_of rev]. rewrite rev_app_distr. cbn [rev app]. rewrite <- app_assoc. cbn [app run].
  rewrite Hargs by done. destruct (eval_args es err w) as [[?|fr err1 w1]|] eqn:Ea; [done| |done].
  destruct (eval_args_all_ok es err w _ Hes Hw Ea) as [_ Hfr].
  cbn [bind resume]. rewrite <- app_assoc. cbn [app]. rewrite run_call by done.
  by destruct (c _) as [[[] ctx]|].
Qed.

Lemma compiler_payload_sim {S} `{InStream S} e0 : payload_sim (S:=S) (T:=Compiler W) e0.
Proof.
  intros token h c t Hc. unfold LexerCustomData, Compiler_payload.
  destruct (FindPayloadHandler _ _) as [[]|]; done.
Qed.

Lemma compiler_payload_shrinks : payload_shrinks (T:=Compiler W).
Proof.
  intros token h t. unfold LexerCustomData, Compiler_payload.
  destruct (FindPayloadHandler _ _) as [[]|]; done.
Qed.

(** The compiler's result does not depend on the fuel. *)
Lemma Build_fuel {S} `{InStream S} fuel fuel' (c : Compiler W) (reader : StreamReader S) x y :
  Build fuel c reader = Some x -> Build fuel' c reader = Some y -> x = y.
Proof.
  unfold Build, RunStream, LexerRun.
  destruct (LexerLoop fuel _ _) as [[r s]|] eqn:E1, (LexerLoop fuel' _ _) as [[r' s']|] eqn:E2; try done.
  destruct (Nat.le_ge_cases fuel fuel') as [Hf|Hf].
  - rewrite (LexerLoop_more _ _ _ _ _ Hf E1) in E2. injection E2 as -> ->. by intros [= <-] [= <-].
  - rewrite (LexerLoop_more _ _ _ _ _ Hf E2) in E1. injection E1 as -> ->. by intros [= <-] [= <-].
Qed.

(** The compiler on a printed expression. *)
Lemma Build_printed {S} `{InStreamLaws S} fuel env a cs op es r a' (reader : StreamReader S) rest :
  forallb is_blank cs = true -> sexp_ok (ECall op es) -> resolve env (ECall op es) a = Some (r, a') ->
  reader_text reader (cs ++ print (ECall op es) ++ rest) ->
  (length (cs ++ print (ECall op es) ++ rest) < fuel)%nat ->
  exists reader', Build fuel (CompilerNew env a) reader = Some (Right (rev (code_of r)), reader') /\
    reader_text reader' rest /\ read_error_ reader' = read_error_ reader.
Proof.
  intros Hcs Hok Hr Hread Hf.
  destruct (lex_print_call cs op es fuel (CompilerNew env a) _ rest Hcs Hok
    (compile_events env (ECall op es) (CompilerNew env a) r a' eq_refl Hr)
    ltac:(rewrite !length_app in *; lia)) as (s2 & E2 & Hh & Hrest & Heof).
  destruct (stream_refines_text fuel true (CompilerNew env a) reader _
    (compiler_payload_sim _) compiler_payload_shrinks Hread Hf) as (res & s1 & s2' & E1 & E2' & Hh' & Hread' & Herr).
  rewrite E2 in E2'. injection E2' as <- <-.
  exists (cur_reader (source_ s1)). unfold Build. rewrite E1. cbn [MapRight]. rewrite Hh', Hh.
  unfold err_rel in Herr. rewrite Heof in Herr. rewrite Hrest in Hread'. done.
Qed.

(** The compiler at the end of the input: an empty program. *)
Lemma Build_blank {S} `{InStreamLaws S} fuel (env : Env W) (a : nat -> Z) cs (reader : StreamReader S) :
  forallb is_blank cs = true -> reader_text reader cs -> (length cs < fuel)%nat ->
  exists reader', Build fuel (CompilerNew env a) reader = Some (Right [], reader') /\
    reader_text reader' [] /\ read_error_ reader' <> ErrNone.
Proof.
  intros Hcs Hread Hf.
  destruct (lex_blanks true cs fuel (CompilerNew env a) Hcs Hf) as (s2 & E2 & Hh & Hrest & Heof).
  destruct (stream_refines_text fuel true (CompilerNew env a) reader _
    (compiler_payload_sim _) compiler_payload_shrinks Hread Hf) as (res & s1 & s2' & E1 & E2' & Hh' & Hread' & Herr).
  rewrite E2 in E2'. injection E2' as <- <-.
  exists (cur_reader (source_ s1)). unfold Build. rewrite E1. cbn [MapRight]. rewrite Hh', Hh.
  unfold err_rel in Herr. rewrite Heof in Herr. rewrite Hrest in Hread'. done.
Qed.
End Eval.
Arguments Outcome : clear implicits.

(** * The arithmetic functions are well behaved *)

Section MathOk.
  Context {W : Type} (Inv : W -> Prop).

Lemma basic_not_barrier t v : is_barrier (MkTyped (GetBasicType t) v) = false.
Proof. by destruct t. Qed.

Lemma math_call_ok t1 t2 (f g : CallContext W -> option Value) :
  let dbl ctx := add_output t1 (f ctx) ctx in
  let int ctx := add_output t2 (g ctx) ctx in
  call_local (math_call dbl int) -> call_ok Inv (math_call dbl int).
Proof.
  intros dbl int Hl. split; [done|]. intros fr err w b ctx _ Hw. unfold math_call.
  destruct (CheckOperationType _ _) as [[]|];
    [intros [= _ <-]; split; [done|constructor]| | |done];
    unfold int, dbl, add_output; [destruct (g _) | destruct (f _)]; try done;
    intros [= _ <-]; cbn; (split; [done|]); (constructor; [apply basic_not_barrier|done]).
Qed.

Lemma math_ok : call_ok Inv (W:=W) math_add /\ call_ok Inv (W:=W) math_sub /\
  call_ok Inv (W:=W) math_mul /\ call_ok Inv (W:=W) math_div.
Proof.
  destruct (math_local (W:=W)) as (H1 & H2 & H3 & H4).
  split; [|split; [|split]]; by apply math_call_ok.
Qed.

Lemma RegisterMathFunctions_ok (table : gmap bytes (Call W)) :
  (forall name c, table !! name = Some c -> call_ok Inv c) ->
  forall name c, RegisterMathFunctions table !! name = Some c -> call_ok Inv c.
Proof.
  intros Ht name c. destruct math_ok as (H1 & H2 & H3 & H4). unfold RegisterMathFunctions.
  rewrite !lookup_insert_Some. naive_solver.
Qed.
End MathOk.

(** * Properties *)

(** What [slang::Execute] gives for an outcome of the evaluator: a failed call's
    message, or the list of values, goes to the serializer. *)
Definition serialized {W X} `{Serializer W X} (o : option (Outcome W)) (x : X) : option (W * X) :=
  match o with
  | None => None
  | Some (Failed text w) => option_map (fun r => (w, snd r)) (SerializeStr text x)
  | Some (Values vs _ w) => option_map (fun r => (w, snd r)) (SerializeList w vs x)
  end.

(** [Execute] on a printed expression. *)
Lemma Execute_printed {W X S} `{Serializer W X} `{InStreamLaws S}
    (Inv : W -> Prop) (fuel : nat) (env : Env W) (a : nat -> Z) cs op es r a' (reader : StreamReader S)
    rest (w : W) (x : X) :
  env_ok Inv env -> Inv w -> forallb is_blank cs = true ->
  sexp_ok (ECall op es) -> resolve env (ECall op es) a = Some (r, a') ->
  reader_text reader (cs ++ print (ECall op es) ++ rest) ->
  (length (cs ++ print (ECall op es) ++ rest) < fuel)%nat ->
  exists reader', reader_text reader' rest /\ read_error_ reader' = read_error_ reader /\
    Execute fuel reader env a w x =
      option_map (fun wx => (Right tt, fst wx, snd wx, reader'))
        (serialized (eval r (StrBuilderNew 128) w) x) /\
    forall w' x', serialized (eval r (StrBuilderNew 128) w) x = Some (w', x') -> Inv w'.
Proof.
  intros Henv Hw Hcs Hok Hr Hread Hf.
  destruct (Build_printed fuel env a cs op es r a' reader rest Hcs Hok Hr Hread Hf) as (reader' & E & Hread' & Herr).
  exists reader'. split; [done|]. split; [done|]. unfold Execute. rewrite E. unfold ProgramExecute.
  rewrite <- (app_nil_r (rev (code_of r))), (run_eval Inv) by (try done; by apply (resolve_ok Inv env (ECall op es) a r a')).
  pose proof (eval_ok Inv r (StrBuilderNew 128) w) as Heval.
  destruct (eval r _ w) as [[text w'|vs err w']|]; cbn [resume serialized option_map]; [| |done];
    specialize (Heval _ (resolve_ok Inv env (ECall op es) a r a' Henv Hr) Hw eq_refl).
  - destruct (SerializeStr text x) as [[]|]; [|done]. split; [done|]. by intros ? ? [= <- _].
  - cbn [run app]. destruct Heval as [Hi _].
    destruct (SerializeList w' vs x) as [[]|]; [|done]. split; [done|]. by intros ? ? [= <- _].
Qed.

(** [Execute] at the end of the input: the empty list is serialized. *)
Lemma Execute_blank {W X S} `{Serializer W X} `{InStreamLaws S} (fuel : nat) (env : Env W) (a : nat -> Z) cs
    (reader : StreamReader S) (w : W) (x : X) :
  forallb is_blank cs = true -> reader_text reader cs -> (length cs < fuel)%nat ->
  exists reader', reader_text reader' [] /\ read_error_ reader' <> ErrNone /\
    Execute fuel reader env a w x = option_map (fun r => (Right tt, w, snd r, reader')) (SerializeList w [] x).
Proof.
  intros Hcs Hread Hf. destruct (Build_blank fuel env a cs reader Hcs Hread Hf) as (reader' & E & Hread' & Herr).
  exists reader'. split; [done|]. split; [done|]. unfold Execute. rewrite E. unfold ProgramExecute. cbn [run].
  by destruct (SerializeList w [] x) as [[]|].
Qed.

(** C6. Correctness of the compiler and the stack machine: executing the
    printed text of an expression, with any white space before it and read
    from any chunked stream, serializes exactly what the recursive evaluator
    gives, never looks below a frame, leaves the reader behind the expression
    in the state it was in, and keeps every invariant of the data that the
    functions of the environment keep. *)
Theorem execute_is_eval {W X S} `{Serializer W X} `{InStreamLaws S}
    (Inv : W -> Prop) (fuel : nat) (env : Env W) (a : nat -> Z) blanks op es r a' (reader : StreamReader S)
    rest (w : W) (x : X) :
  env_ok Inv env -> Inv w -> forallb is_blank blanks = true ->
  sexp_ok (ECall op es) -> resolve env (ECall op es) a = Some (r, a') ->
  reader_text reader (blanks ++ print (ECall op es) ++ rest) ->
  (length (blanks ++ print (ECall op es) ++ rest) < fuel)%nat ->
  exists reader', reader_text reader' rest /\ read_error_ reader' = read_error_ reader /\
    Execute fuel reader env a w x =
      option_map (fun wx => (Right tt, fst wx, snd wx, reader'))
        (serialized (eval r (StrBuilderNew 128) w) x) /\
    forall w' x', serialized (eval r (StrBuilderNew 128) w) x = Some (w', x') -> Inv w'.
Proof. apply Execute_printed. Qed.

(** Records the lists it is asked to serialize. *)
Definition Capture := list (list TypedValue).
#[export] Instance Capture_serializer {W} : Serializer W Capture := {
  SerializeValue _ v x := Some (Right tt, x ++ [[v]]);
  SerializeList _ vs x := Some (Right tt, x ++ [vs]);
  SerializeStr s x := Some (Right tt, x ++ [[MkTyped T_StrSpan (VStr 0 s)]])
}.

Definition math_env : Env unit := MkEnv (RegisterMathFunctions empty) empty.
(** The text of [(+ 1 ( * 2 3) (- 10 4))]. *)
Definition demo_args : list sexp :=
  [EInt 1; ECall (lit "*") [EInt 2; EInt 3]; ECall (lit "-") [EInt 10; EInt 4]].
Definition demo_code : bytes := print (ECall (lit "+") demo_args).
Definition demo_source : StreamReader ChunkStream :=
  ReaderNew (lit "0123456") [take 5 demo_code; drop 5 demo_code; lit " (rest)"].

Definition demo_rexp : rexp unit :=
  RCall math_add [RVal (int_val 1); RCall math_mul [RVal (int_val 2); RVal (int_val 3)];
                  RCall math_sub [RVal (int_val 10); RVal (int_val 4)]].

Lemma math_env_add : FindCall math_env (lit "+") = Some math_add.
Proof. unfold FindCall, math_env, RegisterMathFunctions. cbn [functions_]. by simplify_map_eq. Qed.
Lemma math_env_sub : FindCall math_env (lit "-") = Some math_sub.
Proof. unfold FindCall, math_env, RegisterMathFunctions. cbn [functions_]. by simplify_map_eq. Qed.
Lemma math_env_mul : FindCall math_env (lit "*") = Some math_mul.
Proof. unfold FindCall, math_env, RegisterMathFunctions. cbn [functions_]. by simplify_map_eq. Qed.

Lemma execute_is_eval_witness :
  env_ok (fun _ => True) math_env /\
  exists reader', reader_text reader' (lit " (rest)") /\
    Execute 100 demo_source math_env (fun n => 16 * Z.of_nat n) tt ([] : Capture) =
      Some (Right tt, tt, [[int_val 13]], reader').
Proof.
  assert (Henv : env_ok (fun _ => True) math_env).
  { intros name c. apply RegisterMathFunctions_ok. intros ? ?. by rewrite lookup_empty. }
  split; [exact Henv|].
  assert (Er : resolve math_env (ECall (lit "+") demo_args) (fun n => 16 * Z.of_nat n)
    = Some (demo_rexp, fun n => 16 * Z.of_nat n)).
  { unfold demo_args, demo_rexp, resolve. rewrite math_env_add, math_env_sub, math_env_mul. reflexivity. }
  destruct (execute_is_eval (fun _ => True) 100 math_env (fun n => 16 * Z.of_nat n) [] (lit "+") demo_args demo_rexp
    (fun n => 16 * Z.of_nat n) demo_source (lit " (rest)") tt ([] : Capture) Henv I) as (reader' & Hr & _ & E & _).
  - reflexivity.
  - repeat split; try done; vm_compute; congruence.
  - exact Er.
  - split; [split; cbn; lia|]. eexists; split; [|apply (chunk_feeds 7); lia]. reflexivity.
  - vm_compute. lia.
  - exists reader'. split; [exact Hr|]. rewrite E. vm_compute. reflexivity.
Defined.

(** [Execute] on a string does not run the string: its reader is built
    without marking the text as available, so whatever the code is, the
    compiler sees an empty input and the empty list of values is serialized,
    with nothing executed. *)
Lemma execute_string_runs_nothing {W X} `{Serializer W X} (fuel : nat) (code : bytes)
    (env : Env W) (a : nat -> Z) (w : W) (x : X) :
  exists reader,
  ExecuteStr (S fuel) code env a w x =
    option_map (fun r => (Right tt, w, snd r, reader)) (SerializeList w [] x).
Proof.
  eexists. unfold ExecuteStr, Execute, Build, RunStream, LexerRun.
  lazy -[SerializeList StrBuilderNew]. by destruct (SerializeList w [] x) as [[]|].
Qed.
