(* ===== verification/Contract.v ===== *)
(** Contracts of slang functions and what evaluation inherits from them.

    [Eval] says that evaluating keeps an invariant of the program's data.  A
    [Contract] says more: which values may be on the stack in a state, and how
    states may change; a function keeps it when it turns such arguments into
    such results.  Evaluation keeps every contract its functions keep, and is
    defined when they are defined on every frame. *)
From S2P Require Import Prelude Either StrBuild CLib Types Call Syntax Program MathFuncs Eval.
Local Open Scope Z_scope.

(** [later] is how the data may change; a value that fits goes on to fit. *)
Class Contract (W : Type) := {
  holds : W -> Prop;
  fits : W -> TypedValue -> Prop;
  later : W -> W -> Prop;
  later_preorder :: PreOrder later;
  fits_later w w' v : later w w' -> fits w v -> fits w' v;
  fits_plain w v : fits w v -> is_barrier v = false
}.

(** * Properties of the constants and the functions of an expression *)

Section All.
  Context {W : Type} (P : TypedValue -> Prop) (Q : Call W -> Prop).

Fixpoint rexp_all (e : rexp W) : Prop :=
  match e with
  | RVal v => P v
  | RCall c es => Q c /\ foldr (fun x A => rexp_all x /\ A) True es
  end.

Lemma rexp_all_args es : foldr (fun x A => rexp_all x /\ A) True es <-> Forall rexp_all es.
Proof.
  induction es as [|x es IH]; cbn; [done|]. rewrite IH.
  split; [by intros []; constructor|]. by inversion 1.
Qed.

(** The values of constants, with texts in memory of the compiler. *)
Inductive constant (ok : Z -> Prop) : TypedValue -> Prop :=
| constant_int z : constant ok (MkTyped T_int64 (VI64 z))
| constant_str p s : ok p -> constant ok (MkTyped T_StrSpan (VStr p s))
| constant_field p s : ok p -> constant ok (MkTyped T_Field (VStr p s)).

Lemma resolve_name_constant ok s a : ok (a 0%nat) -> constant ok (resolve_name s a).
Proof. unfold resolve_name. intros Ha. destruct s as [|c [|d s]]; [by constructor|by constructor|]. case_goal; by constructor. Qed.

Lemma resolve_all ok env e a r a' :
  (forall v, constant ok v -> P v) -> (forall name c, FindCall env name = Some c -> Q c) -> (forall n, ok (a n)) ->
  resolve env e a = Some (r, a') -> rexp_all r /\ forall n, ok (a' n).
Proof.
  intros HP HQ. revert a r a'. induction e as [v|s|s|op es IH] using sexp_ind'; intros a r a' Ha.
  - intros [= <- <-]. split; [|done]. apply HP. constructor.
  - intros [= <- <-]. split; [apply HP; by constructor|]. intros n. apply Ha.
  - intros [= <- <-]. split; [by apply HP, resolve_name_constant|]. intros n. apply Ha.
  - rewrite resolve_call. destruct (FindCall env op) as [c|] eqn:Ec; [|done].
    destruct (resolve_list env es a) as [[rs a1]|] eqn:El; [|done]. intros [= <- <-].
    assert (Hl : Forall rexp_all rs /\ forall n, ok (a1 n)).
    { revert a rs a1 Ha El. induction IH as [|x es Hx _ IHes]; intros a rs a1 Ha El; cbn in El; [injection El as <- <-; by split; [constructor|]|].
      destruct (resolve env x a) as [[r1 a2]|] eqn:Ex; [|done].
      destruct (resolve_list env es a2) as [[rs' a3]|] eqn:Es; [|done]. injection El as <- <-.
      destruct (Hx a _ a2 Ha Ex) as [H1 Ha2]. destruct (IHes a2 _ a3 Ha2 Es) as [H2 Ha3]. split; [by constructor|done]. }
    destruct Hl as [Hl Ha1]. split; [|done]. split; [by apply (HQ op)|]. by apply rexp_all_args.
Qed.
End All.

(** ** Expressions whose functions exist *)

Section Known.
  Context {W : Type} (env : Env W).

Fixpoint known (e : sexp) : Prop :=
  match e with
  | EInt _ | EStr _ | EName _ => True
  | ECall op es => is_Some (FindCall env op) /\ foldr (fun x A => known x /\ A) True es
  end.

Lemma known_resolve e a : known e -> is_Some (resolve env e a).
Proof.
  revert a. induction e as [v|s|s|op es IH] using sexp_ind'; intros a; [by eexists..|].
  intros [[c Hc] Hes]. rewrite resolve_call, Hc.
  assert (Hl : is_Some (resolve_list env es a)).
  { clear Hc c. revert a Hes. induction IH as [|x es Hx _ IHes]; intros a Hes; [by eexists|].
    destruct Hes as [Hk Hes]. cbn [resolve_list]. destruct (Hx a Hk) as [[r a1] ->].
    destruct (IHes a1 Hes) as [[rs a2] ->]. by eexists. }
  destruct Hl as [[rs a1] ->]. by eexists.
Qed.
End Known.

(** * Evaluation keeps contracts *)

Section Keeps.
  Context {W : Type} `{Contract W}.

Definition call_keeps (c : Call W) : Prop :=
  forall fr err w b ctx, Forall (fits w) fr -> holds w ->
    c (MkCtx (fr ++ [bar]) [] err w) = Some (b, ctx) ->
    holds (user_data ctx) /\ later w (user_data ctx) /\ Forall (fits (user_data ctx)) (output ctx).

Definition outcome_keeps (w : W) (o : Outcome W) : Prop :=
  match o with
  | Failed _ w' => holds w' /\ later w w'
  | Values vs _ w' => holds w' /\ later w w' /\ Forall (fits w') vs
  end.

Lemma fits_no_barrier w vs : Forall (fits w) vs -> no_barrier vs.
Proof. intros Hvs. eapply Forall_impl; [|exact Hvs]. intros v. apply fits_plain. Qed.

Lemma fits_all_later w w' vs : later w w' -> Forall (fits w) vs -> Forall (fits w') vs.
Proof. intros Hl Hvs. eapply Forall_impl; [|exact Hvs]. intros v. by apply fits_later. Qed.

Lemma outcome_keeps_later w0 w o : later w0 w -> outcome_keeps w o -> outcome_keeps w0 o.
Proof. destruct o; cbn; intros Hl; [intros [? ?]|intros (? & ? & ?)]; split_and!; try done; by etrans. Qed.

Lemma bind_keeps w r k o :
  (forall o', r = Some o' -> outcome_keeps w o') ->
  (forall vs err w1 o', holds w1 -> later w w1 -> Forall (fits w1) vs -> k vs err w1 = Some o' -> outcome_keeps w1 o') ->
  bind r k = Some o -> outcome_keeps w o.
Proof.
  intros Hr Hk. destruct r as [[text w1|vs err w1]|]; cbn [bind]; [|intros Ho|done].
  - intros [= <-]. by apply (Hr (Failed text w1)).
  - destruct (Hr _ eq_refl) as (Hw1 & Hl & Hvs). apply (outcome_keeps_later w w1 o Hl). by apply (Hk vs err w1).
Qed.

(** Constants fit in every state. *)
Definition fits_always (v : TypedValue) : Prop := forall w, holds w -> fits w v.

Lemma eval_args_keeps es err w o :
  Forall (fun x => forall err w o, rexp_all fits_always call_keeps x -> holds w -> eval x err w = Some o -> outcome_keeps w o) es ->
  Forall (rexp_all fits_always call_keeps) es -> holds w -> eval_args es err w = Some o -> outcome_keeps w o.
Proof.
  intros Hes Hok Hw. revert o. induction Hes as [|x es Hx _ IH]; intros o; cbn [eval_args].
  { intros [= <-]. by split_and!. }
  inversion Hok as [|? ? Hokx Hokes]; subst. apply bind_keeps; [by apply IH|].
  intros fr err1 w1 o1 Hw1 _ Hfr. apply bind_keeps; [intros o2; by apply Hx|].
  intros vs err2 w2 o2 Hw2 Hl Hvs [= <-]. cbn. split_and!; [done|done|].
  apply Forall_app. split; [by apply (fits_all_later w1)|done].
Qed.

Lemma eval_keeps e err w o :
  rexp_all fits_always call_keeps e -> holds w -> eval e err w = Some o -> outcome_keeps w o.
Proof.
  revert err w o. induction e as [v|c es IH] using rexp_ind'; intros err w o Hok Hw.
  - intros [= <-]. cbn. split_and!; [done|done|]. constructor; [by apply Hok|done].
  - destruct Hok as [Hc Hes]. apply rexp_all_args in Hes. rewrite eval_call.
    apply bind_keeps; [by intros o'; apply eval_args_keeps|].
    intros fr err1 w1 o1 Hw1 _ Hfr. destruct (c _) as [[b ctx]|] eqn:Ec; [|done].
    apply Hc in Ec as (Hw2 & Hl & Hout); [|by apply Forall_rev|done].
    destruct b; intros [= <-]; cbn; by split_and!.
Qed.
End Keeps.

(** * Evaluation is defined *)

Section Defined.
  Context {W : Type} (Inv : W -> Prop).

(** No frame takes the function outside its frame or to a value it cannot
    read. *)
Definition call_defined (c : Call W) : Prop :=
  forall fr err w, no_barrier fr -> is_Some (c (MkCtx (fr ++ [bar]) [] err w)).

Lemma bind_defined (r : option (Outcome W)) k :
  is_Some r -> (forall vs err w, r = Some (Values vs err w) -> is_Some (k vs err w)) -> is_Some (bind r k).
Proof. intros [[text w|vs err w] ->] Hk; cbn; [by eexists|by apply Hk]. Qed.

Lemma eval_defined e err w :
  rexp_ok Inv e -> rexp_all (fun _ => True) call_defined e -> Inv w -> is_Some (eval e err w).
Proof.
  revert err w. induction e as [v|c es IH] using rexp_ind'; intros err w Hok Hd Hw; [by eexists|].
  destruct Hok as [Hc Hes], Hd as [Hcd Hds]. apply rexp_ok_args in Hes. apply rexp_all_args in Hds.
  rewrite eval_call. apply bind_defined.
  - clear Hc Hcd. revert err. induction IH as [|x es Hx _ IHes]; intros err; cbn [eval_args]; [by eexists|].
    inversion Hes as [|? ? Hokx Hokes]; inversion Hds as [|? ? Hdx Hdes]; subst.
    apply bind_defined; [by apply IHes|]. intros fr err1 w1 E.
    destruct (eval_args_all_ok Inv es err w _ Hokes Hw E) as [Hw1 _].
    apply bind_defined; [by apply Hx|]. intros vs err2 w2 _. by eexists.
  - intros fr err1 w1 E. destruct (eval_args_all_ok Inv es err w _ Hes Hw E) as [Hw1 Hfr].
    destruct (Hcd (rev fr) err1 w1 (no_barrier_rev fr Hfr)) as [[[] ctx] ->]; by eexists.
Qed.
End Defined.
