(* ===== verification/TypeVault.v ===== *)
(** [types/type_vault.h/.cc]: the shared list of type schemas and the
    per-thread vaults that cache it.

    The manager's list only grows at its end.  A vault is a name map filled
    from the list up to [current_] (the number of nodes taken over; the code
    keeps a pointer to the last one) and a dirty flag, [updated_].  The locks
    make [FindSchema]'s refresh and [CreateSchema] atomic steps; several vaults
    interleave at that granularity. *)
From S2P Require Import Prelude Types.
Local Open Scope Z_scope.

(** source/types/type_vault.h:30-60 [TypeVault] *)
Record TypeVault := MkVault {
  updated_ : bool;
  schemas_map_ : gmap bytes TypeSchema;
  current_ : nat
}.

(** [allocator_ n] is the address the [n]-th next schema gets. *)
(** source/types/type_vault.h:64-93 [TypeManager] *)
Record TypeManager := MkTypes {
  types_list_ : list TypeSchema;
  vaults_ : list TypeVault;
  allocator_ : nat -> Z
}.

(** [HashMap::insert] keeps an entry that is already there. *)
Definition map_insert (m : gmap bytes TypeSchema) (s : TypeSchema) : gmap bytes TypeSchema :=
  match m !! schema_name s with Some _ => m | None => <[schema_name s := s]> m end.

(** source/types/type_vault.cc:21-35 [TypeVault::FindSchema] *)
Definition VaultFind (list_ : list TypeSchema) (v : TypeVault) (type_name : bytes)
    : option TypeSchema * TypeVault :=
  let v' :=
    if updated_ v then v
    else MkVault true (fold_left map_insert (drop (current_ v) list_) (schemas_map_ v)) (length list_) in
  (schemas_map_ v' !! type_name, v').

(** source/types/type_vault.cc:37-39 [TypeVault::InvalidateCache] *)
Definition InvalidateCache (v : TypeVault) : TypeVault :=
  MkVault false (schemas_map_ v) (current_ v).

Definition set_vault (i : nat) (v : TypeVault) (tm : TypeManager) : TypeManager :=
  MkTypes (types_list_ tm) (<[i := v]> (vaults_ tm)) (allocator_ tm).

(** A call through the [i]-th vault; there is no such call without the vault. *)
(** source/types/type_vault.cc:21-35 [TypeVault::FindSchema] *)
Definition FindSchema (i : nat) (type_name : bytes) (tm : TypeManager) : option TypeSchema * TypeManager :=
  match vaults_ tm !! i with
  | None => (None, tm)
  | Some v =>
      let '(r, v') := VaultFind (types_list_ tm) v type_name in (r, set_vault i v' tm)
  end.

(** source/types/type_vault.cc:17-19 [TypeVault::HasType] *)
Definition HasType (i : nat) (type_name : bytes) (tm : TypeManager) : bool * TypeManager :=
  let '(r, tm') := FindSchema i type_name tm in
  (match r with Some _ => true | None => false end, tm').

(** source/types/type_vault.cc:100-104 [TypeManager::InvalidateCaches] *)
Definition InvalidateCaches (tm : TypeManager) : TypeManager :=
  MkTypes (types_list_ tm) (map InvalidateCache (vaults_ tm)) (allocator_ tm).

(** source/types/type_vault.cc:86-98 [TypeManager::EnqueueSchema] *)
Definition EnqueueSchema (schema : TypeSchema) (tm : TypeManager) : TypeManager :=
  InvalidateCaches (MkTypes (types_list_ tm ++ [schema]) (vaults_ tm) (allocator_ tm)).

(** source/types/type_vault.cc:43-53 [TypeManager::TypeManager] *)
Definition TypeManagerNew (allocator : nat -> Z) (initial_types : list TypeSchema) : TypeManager :=
  fold_left (fun tm schema => EnqueueSchema schema tm) initial_types (MkTypes [] [] allocator).

(** source/types/type_vault.cc:55-58 [TypeManager::CreateVault] *)
Definition CreateVault (tm : TypeManager) : nat * TypeManager :=
  (length (vaults_ tm),
   MkTypes (types_list_ tm) (vaults_ tm ++ [MkVault false empty 0]) (allocator_ tm)).

(** What the handler fills in: alignment, size, fields. *)
Definition SchemaBody : Type := Z * Z * list (bytes * TypeSchema).

(** source/types/type_vault.cc:60-71 [TypeManager::AllocateSchema] *)
Definition AllocateSchema (type_name : bytes) (tm : TypeManager) (body : SchemaBody) : TypeSchema :=
  let '(alignment, size, fields) := body in
  MkSchema (allocator_ tm 0%nat) type_name alignment size 0 fields.

Definition mark_updated (v : TypeVault) : TypeVault := MkVault true (schemas_map_ v) (current_ v).

(** The handler runs with the flag set, and reports a result of its own.  When
    it fails the block is freed, so the allocator is as before. *)
(** source/types/type_vault.h:98-129 [TypeVault::CreateSchema] *)
Definition CreateSchema {A} (i : nat) (type_name : bytes)
    (handler : TypeManager -> option SchemaBody * TypeManager * A) (tm : TypeManager)
    : option TypeSchema * TypeManager * option A :=
  match vaults_ tm !! i with
  | None => (None, tm, None)
  | Some v =>
      let tm1 := set_vault i (mark_updated v) tm in
      let '(dup_schema, tm2) := FindSchema i type_name tm1 in
      let invalidate (tm : TypeManager) : TypeManager :=
        match vaults_ tm !! i with Some v => set_vault i (InvalidateCache v) tm | None => tm end in
      match dup_schema with
      | Some _ => (None, invalidate tm2, None)
      | None =>
          let '(filled, tm3, a) := handler tm2 in
          match filled with
          | None => (None, invalidate tm3, Some a)
          | Some body =>
              let new_schema := AllocateSchema type_name tm3 body in
              let tm4 := MkTypes (types_list_ tm3) (vaults_ tm3) (fun n => allocator_ tm3 (S n)) in
              (Some new_schema, EnqueueSchema new_schema tm4, Some a)
          end
      end
  end.

(** * Reference: the first schema of a name *)

Definition has_name (n : bytes) (s : TypeSchema) : Prop := schema_name s = n.

Fixpoint first_named (n : bytes) (l : list TypeSchema) : option TypeSchema :=
  match l with
  | [] => None
  | s :: l' => if decide (schema_name s = n) then Some s else first_named n l'
  end.

Lemma first_named_app n l1 l2 :
  first_named n (l1 ++ l2) = match first_named n l1 with Some s => Some s | None => first_named n l2 end.
Proof. induction l1 as [|s l1 IH]; cbn; [done|]. by destruct (decide _). Qed.

Lemma fold_map_insert l m n :
  fold_left map_insert l m !! n = match m !! n with Some s => Some s | None => first_named n l end.
Proof.
  revert m. induction l as [|s l IH]; intros m; cbn [fold_left first_named]; [by destruct (m !! n)|].
  rewrite IH. unfold map_insert. destruct (decide (schema_name s = n)) as [<-|Hne].
  - destruct (m !! schema_name s) as [s'|] eqn:E; [by rewrite E|by rewrite lookup_insert_eq].
  - destruct (m !! schema_name s); [done|]. by rewrite lookup_insert_ne.
Qed.

(** * Invariant *)

Definition vault_ok (l : list TypeSchema) (v : TypeVault) : Prop :=
  (current_ v <= length l)%nat /\
  (updated_ v = true -> current_ v = length l) /\
  forall n, schemas_map_ v !! n = first_named n (take (current_ v) l).

Definition types_ok (tm : TypeManager) : Prop := Forall (vault_ok (types_list_ tm)) (vaults_ tm).

Lemma VaultFind_spec l v n :
  vault_ok l v ->
  let '(r, v') := VaultFind l v n in
  r = first_named n l /\ vault_ok l v' /\ updated_ v' = true /\ schemas_map_ v' = schemas_map_ (snd (VaultFind l v n)).
Proof.
  intros (Hc & Hu & Hm). unfold VaultFind. destruct (updated_ v) eqn:E; cbn.
  - rewrite Hm, Hu, firstn_all by done. repeat split; try done. by rewrite Hu.
  - assert (Hall : forall k, fold_left map_insert (drop (current_ v) l) (schemas_map_ v) !! k = first_named k l).
    { intros k. rewrite fold_map_insert, Hm.
      by rewrite <- first_named_app, take_drop. }
    split; [apply Hall|]. split; [|done]. split; [cbn; lia|]. split; [done|].
    intros k. cbn. by rewrite Hall, firstn_all.
Qed.

Lemma set_vault_ok i v tm : types_ok tm -> vault_ok (types_list_ tm) v -> types_ok (set_vault i v tm).
Proof. intros Ht Hv. unfold types_ok. cbn. by apply Forall_insert. Qed.

Lemma FindSchema_ok i n tm :
  types_ok tm -> (i < length (vaults_ tm))%nat ->
  fst (FindSchema i n tm) = first_named n (types_list_ tm) /\
  types_ok (snd (FindSchema i n tm)) /\
  types_list_ (snd (FindSchema i n tm)) = types_list_ tm /\
  length (vaults_ (snd (FindSchema i n tm))) = length (vaults_ tm) /\
  allocator_ (snd (FindSchema i n tm)) = allocator_ tm.
Proof.
  intros Ht Hi. unfold FindSchema. destruct (lookup_lt_is_Some_2 _ _ Hi) as [v Hv]. rewrite Hv.
  pose proof (Forall_lookup_1 _ _ _ _ Ht Hv) as Hok.
  pose proof (VaultFind_spec _ _ n Hok) as Hs. destruct (VaultFind _ v n) as [r v'].
  destruct Hs as (-> & Hok' & _). cbn. split; [done|]. split; [by apply set_vault_ok|].
  split; [done|]. by rewrite length_insert.
Qed.

Lemma invalidated_ok l s v : vault_ok l v -> vault_ok (l ++ [s]) (InvalidateCache v).
Proof.
  intros (Hc & _ & Hm). split; [|split]; cbn.
  - rewrite length_app. cbn. lia.
  - done.
  - intros n. by rewrite Hm, take_app_le.
Qed.

Lemma EnqueueSchema_ok s tm : types_ok tm -> types_ok (EnqueueSchema s tm).
Proof.
  intros Ht. unfold types_ok. cbn. apply Forall_map. eapply Forall_impl; [|exact Ht].
  intros v. apply invalidated_ok.
Qed.

Lemma TypeManagerNew_ok a l : types_ok (TypeManagerNew a l) /\ types_list_ (TypeManagerNew a l) = l /\
  vaults_ (TypeManagerNew a l) = [].
Proof.
  unfold TypeManagerNew.
  assert (H : forall l0 tm, types_list_ tm = l0 -> vaults_ tm = [] -> types_ok tm ->
    let tm' := fold_left (fun tm schema => EnqueueSchema schema tm) l tm in
    types_ok tm' /\ types_list_ tm' = l0 ++ l /\ vaults_ tm' = []).
  { induction l as [|s l IH]; intros l0 tm Hl Hv Ht; cbn; [by rewrite app_nil_r|].
    destruct (IH (l0 ++ [s]) (EnqueueSchema s tm)) as (G1 & G2 & G3).
    - cbn. by rewrite Hl.
    - cbn. by rewrite Hv.
    - by apply EnqueueSchema_ok.
    - split; [exact G1|]. split; [|exact G3]. by rewrite G2, <- app_assoc. }
  apply (H [] (MkTypes [] [] a)); [done|done|by constructor].
Qed.

Lemma CreateVault_ok tm : types_ok tm -> types_ok (snd (CreateVault tm)).
Proof.
  intros Ht. unfold types_ok. cbn. apply Forall_app; split; [done|].
  constructor; [|done]. split; [cbn; lia|]. split; [done|]. intros n. cbn. by rewrite lookup_empty.
Qed.

(** * Creating schemas *)

(** The handler looks types up through the calling vault only. *)
Definition handler_reads {A} (i : nat) (handler : TypeManager -> option SchemaBody * TypeManager * A) : Prop :=
  forall tm v, vaults_ tm !! i = Some v -> updated_ v = true -> snd (fst (handler tm)) = tm.

Lemma FindSchema_updated i n tm v :
  vaults_ tm !! i = Some v -> updated_ v = true -> FindSchema i n tm = (schemas_map_ v !! n, tm).
Proof.
  intros Hv Hu. unfold FindSchema, VaultFind. rewrite Hv, Hu. f_equal.
  unfold set_vault. rewrite list_insert_id by done. by destruct tm.
Qed.

Lemma set_vault_twice i v v' tm : set_vault i v' (set_vault i v tm) = set_vault i v' tm.
Proof. unfold set_vault. cbn. by rewrite list_insert_insert_eq. Qed.

(** What [CreateSchema] does, by what the caller's cache and the handler say.
    The cache that is asked for a duplicate is the vault's own, as far as it
    was filled. *)
Lemma CreateSchema_spec {A} i n (handler : TypeManager -> option SchemaBody * TypeManager * A) tm v :
  types_ok tm -> vaults_ tm !! i = Some v -> handler_reads i handler ->
  let '(r, tm', _) := CreateSchema i n handler tm in
  types_ok tm' /\ length (vaults_ tm') = length (vaults_ tm) /\
  (forall k, exists j, allocator_ tm' k = allocator_ tm j) /\
  match first_named n (take (current_ v) (types_list_ tm)),
        fst (fst (handler (set_vault i (mark_updated v) tm))) with
  | None, Some body =>
      r = Some (AllocateSchema n tm body) /\ types_list_ tm' = types_list_ tm ++ [AllocateSchema n tm body]
  | _, _ => r = None /\ types_list_ tm' = types_list_ tm
  end.
Proof.
  intros Ht Hv Hh. assert (Hlt : (i < length (vaults_ tm))%nat) by (by apply lookup_lt_Some in Hv).
  pose proof (Forall_lookup_1 _ _ _ _ Ht Hv) as (Hc & _ & Hm).
  set (tm1 := set_vault i (mark_updated v) tm).
  assert (Hv1 : vaults_ tm1 !! i = Some (mark_updated v)) by (cbn; by rewrite list_lookup_insert_eq).
  assert (Hback : vault_ok (types_list_ tm) (InvalidateCache (mark_updated v))) by by split.
  unfold CreateSchema. rewrite Hv. fold tm1. rewrite (FindSchema_updated i n tm1 _ Hv1) by done.
  cbn [schemas_map_ mark_updated]. rewrite Hm.
  destruct (first_named n (take (current_ v) (types_list_ tm))) as [s|].
  { rewrite Hv1. unfold tm1. rewrite set_vault_twice. split; [by apply set_vault_ok|].
    split; [cbn; by rewrite length_insert|]. split; [by eexists|done]. }
  pose proof (Hh tm1 _ Hv1 eq_refl) as Hfr. destruct (handler tm1) as [[body tm3] a]. cbn in Hfr |- *. subst tm3.
  destruct body as [body|].
  - split; [|split; [cbn; by rewrite length_map, length_insert|split; [by eexists|done]]].
    unfold types_ok. cbn. rewrite list_fmap_insert.
    apply Forall_insert; [|exact (invalidated_ok _ _ _ Hback)].
    apply Forall_map. eapply Forall_impl; [|exact Ht]. intros u. apply invalidated_ok.
  - rewrite Hv1. unfold tm1. rewrite set_vault_twice. split; [by apply set_vault_ok|].
    split; [cbn; by rewrite length_insert|]. split; [by eexists|done].
Qed.

(** * Interleavings *)

Inductive types_step : TypeManager -> TypeManager -> Prop :=
| step_find i n tm : (i < length (vaults_ tm))%nat -> types_step tm (snd (FindSchema i n tm))
| step_vault tm : types_step tm (snd (CreateVault tm))
| step_create {A} i n (handler : TypeManager -> option SchemaBody * TypeManager * A) tm :
    (i < length (vaults_ tm))%nat -> handler_reads i handler ->
    types_step tm (snd (fst (CreateSchema i n handler tm))).

Lemma types_step_ok tm tm' :
  types_step tm tm' -> types_ok tm -> types_ok tm' /\ (length (vaults_ tm) <= length (vaults_ tm'))%nat /\
    exists new, types_list_ tm' = types_list_ tm ++ new.
Proof.
  intros [i n tm0 Hi|tm0|A i n handler tm0 Hi Hh] Ht.
  - destruct (FindSchema_ok i n tm0 Ht Hi) as (_ & H1 & H2 & H3 & _).
    split; [done|]. split; [lia|]. exists []. by rewrite app_nil_r.
  - split; [by apply CreateVault_ok|]. cbn. rewrite length_app. split; [lia|]. exists []. by rewrite app_nil_r.
  - destruct (lookup_lt_is_Some_2 _ _ Hi) as [v Hv].
    pose proof (CreateSchema_spec i n handler tm0 v Ht Hv Hh) as Hs.
    destruct (CreateSchema i n handler tm0) as [[r tm1] a]. destruct Hs as (H1 & H2 & _ & H3). cbn.
    split; [done|]. split; [lia|].
    repeat case_hyp H3; destruct H3 as [_ ->];
      first [by eexists | exists []; by rewrite app_nil_r].
Qed.

Lemma types_steps_ok tm tm' :
  rtc types_step tm tm' -> types_ok tm -> types_ok tm' /\ (length (vaults_ tm) <= length (vaults_ tm'))%nat /\
    exists new, types_list_ tm' = types_list_ tm ++ new.
Proof.
  induction 1 as [tm|tm tm1 tm2 Hs _ IH]; intros Ht.
  - split; [done|]. split; [done|]. exists []. by rewrite app_nil_r.
  - destruct (types_step_ok _ _ Hs Ht) as (Ht1 & Hl1 & new1 & E1).
    destruct (IH Ht1) as (Ht2 & Hl2 & new2 & E2). split; [done|]. split; [lia|].
    exists (new1 ++ new2). by rewrite E2, E1, app_assoc.
Qed.

(** * Properties *)

(** C14. Type lookup is correct and stable: after any interleaving of lookups,
    schema creations and vault creations, [FindSchema] through any vault gives
    the first schema registered under the name (the null schema if there is
    none); and what it gave once, every vault gives ever after. *)
Theorem find_schema_first_and_stable (a : nat -> Z) (initial : list TypeSchema) tm i n :
  rtc types_step (TypeManagerNew a initial) tm -> (i < length (vaults_ tm))%nat ->
  fst (FindSchema i n tm) = first_named n (types_list_ tm) /\
  forall s tm' j, fst (FindSchema i n tm) = Some s ->
    rtc types_step (snd (FindSchema i n tm)) tm' -> (j < length (vaults_ tm'))%nat ->
    fst (FindSchema j n tm') = Some s.
Proof.
  intros Hr Hi. destruct (TypeManagerNew_ok a initial) as (Hok0 & _).
  destruct (types_steps_ok _ _ Hr Hok0) as (Hok & _).
  destruct (FindSchema_ok i n tm Hok Hi) as (Hf & Hok1 & Hl & _). split; [done|].
  intros s tm' j Hs Hr' Hj. destruct (types_steps_ok _ _ Hr' Hok1) as (Hok' & _ & new & Hnew).
  destruct (FindSchema_ok j n tm' Hok' Hj) as (-> & _). rewrite Hnew, Hl, first_named_app.
  rewrite Hf in Hs. by rewrite Hs.
Qed.

Definition demo_types : TypeManager :=
  snd (CreateVault (snd (CreateVault (TypeManagerNew (fun n => 1000 + Z.of_nat n) [T_int32; T_double])))).

Definition point_handler : TypeManager -> option SchemaBody * TypeManager * unit :=
  fun tm => (Some (4, 8, [(lit "x", T_int32); (lit "y", T_int32)]), tm, tt).

Lemma point_handler_reads i : handler_reads i point_handler.
Proof. by intros tm v. Qed.

Lemma demo_types_reached : rtc types_step (TypeManagerNew (fun n => 1000 + Z.of_nat n) [T_int32; T_double]) demo_types.
Proof. eapply rtc_l; [apply step_vault|]. eapply rtc_l; [apply step_vault|]. apply rtc_refl. Qed.

Lemma find_schema_first_and_stable_witness :
  let tm := snd (fst (CreateSchema 0 (lit "Point") point_handler demo_types)) in
  exists s, fst (FindSchema 1 (lit "Point") tm) = Some s /\ schema_addr s = 1000 /\
    fst (FindSchema 0 (lit "Point") (snd (FindSchema 1 (lit "Point") tm))) = Some s.
Proof.
  intros tm. assert (Hr : rtc types_step (TypeManagerNew (fun n => 1000 + Z.of_nat n) [T_int32; T_double]) tm).
  { eapply rtc_r; [exact demo_types_reached|]. apply (step_create 0 (lit "Point") point_handler).
    - cbn. lia.
    - apply point_handler_reads. }
  assert (H1 : (1 < length (vaults_ tm))%nat) by (vm_compute; lia).
  destruct (find_schema_first_and_stable _ _ tm 1 (lit "Point") Hr H1) as [Hf Hst].
  destruct (fst (FindSchema 1 (lit "Point") tm)) as [s|] eqn:E; [|vm_compute in Hf; discriminate Hf].
  exists s. split; [reflexivity|]. split.
  - vm_compute in Hf. injection Hf as ->. reflexivity.
  - apply (Hst s _ 0%nat eq_refl); [apply rtc_refl|]. vm_compute. lia.
Defined.

(** The duplicate check of [CreateSchema] can miss a type: the check asks
    the caller's own cache, with the refresh suppressed, so when a type was
    registered by another vault since the caller last refreshed, a second
    schema of the same name is registered too. *)
Lemma create_schema_misses_duplicates {A} tm i v n s
    (handler : TypeManager -> option SchemaBody * TypeManager * A) body :
  types_ok tm -> vaults_ tm !! i = Some v -> handler_reads i handler ->
  fst (fst (handler (set_vault i (mark_updated v) tm))) = Some body ->
  s ∈ types_list_ tm -> schema_name s = n ->
  first_named n (take (current_ v) (types_list_ tm)) = None ->
  exists s', fst (fst (CreateSchema i n handler tm)) = Some s' /\ schema_name s' = n /\
    types_list_ (snd (fst (CreateSchema i n handler tm))) = types_list_ tm ++ [s'].
Proof.
  intros Ht Hv Hh Hb _ _ Hn. pose proof (CreateSchema_spec i n handler tm v Ht Hv Hh) as Hs.
  destruct (CreateSchema i n handler tm) as [[r tm'] a]. destruct Hs as (_ & _ & _ & H3).
  rewrite Hn, Hb in H3. cbn [fst snd]. destruct H3 as [-> ->]. exists (AllocateSchema n tm body).
  split; [done|]. split; [|done]. by destruct body as [[]].
Qed.

Lemma create_schema_misses_duplicates_witness :
  let tm := snd (fst (CreateSchema 0 (lit "Point") point_handler demo_types)) in
  exists s', fst (fst (CreateSchema 1 (lit "Point") point_handler tm)) = Some s' /\
    map schema_name (types_list_ (snd (fst (CreateSchema 1 (lit "Point") point_handler tm)))) =
      [lit "int32"; lit "double"; lit "Point"; lit "Point"].
Proof.
  intros tm. assert (Hok : types_ok tm).
  { destruct (types_steps_ok _ _ demo_types_reached) as (Hd & _).
    - apply TypeManagerNew_ok.
    - apply (types_step_ok demo_types); [|exact Hd]. apply (step_create 0 (lit "Point") point_handler).
      + cbn. lia.
      + apply point_handler_reads. }
  destruct (create_schema_misses_duplicates tm 1 (MkVault false empty 0) (lit "Point")
    (MkSchema 1000 (lit "Point") 4 8 0 [(lit "x", T_int32); (lit "y", T_int32)])
    point_handler (4, 8, [(lit "x", T_int32); (lit "y", T_int32)]) Hok) as (s' & E & Hn & El).
  - reflexivity.
  - apply point_handler_reads.
  - reflexivity.
  - vm_compute. do 2 apply list_elem_of_further. apply list_elem_of_here.
  - reflexivity.
  - reflexivity.
  - exists s'. split; [exact E|]. rewrite El, map_app. cbn [map]. rewrite Hn. reflexivity.
Defined.
