(* ===== verification/TypeMem.v ===== *)
(** The memory of the type registry ([types/type_vault.cc]): the nodes of the
    schema list and the schemas made at run time, from the constructor of the
    [TypeManager] to its destructor, which frees them.

    [TypeVault] has the list as a value; here its nodes are linked objects with
    their [next] pointers ([Containers]) in a heap that other parts of the
    program use as well.  [None] is a free of, or an access to, what is not
    there. *)
From S2P Require Import Prelude Types Containers.
From S2P Require TypeVault.
From stdpp Require Import fin_maps gmap.

(** A [TypeSchema *]: one of the schemas of the program text, or a block. *)
Inductive SchemaPtr := Static (s : TypeSchema) | Dynamic (p : loc).

(** A node, with the schema it points to and whether it owns it. *)
(** source/types/type_vault.h:18-22 [TypeNode] *)
Record TypeNode := MkNode { schema : SchemaPtr; owned : bool }.

(** What is in a block: something of the rest of the program, a node, a
    schema. *)
Inductive Object := OOther | ONode (n : TypeNode) | OSchema (s : TypeSchema).

Record Registry := MkRegistry { objects : gmap loc Object; links : Next; types_list_ : NodeList }.

Definition Alloc (o : Object) (m : Registry) : loc * Registry :=
  let p := fresh (dom (objects m)) in (p, MkRegistry (<[p := o]> (objects m)) (links m) (types_list_ m)).

Definition Free (p : loc) (m : Registry) : option Registry :=
  match objects m !! p with
  | Some _ => Some (MkRegistry (delete p (objects m)) (links m) (types_list_ m))
  | None => None
  end.

(** source/types/type_vault.cc:86-92 [TypeManager::EnqueueSchema] *)
Definition EnqueueSchema (s : SchemaPtr) (is_owned : bool) (m : Registry) : Registry :=
  let '(node, m) := Alloc (ONode (MkNode s is_owned)) m in
  let '(nx, l) := PushBack node (links m) (types_list_ m) in MkRegistry (objects m) nx l.

(** source/types/type_vault.cc:43-53 [TypeManager::TypeManager] *)
Definition RegistryNew (initial_types : list TypeSchema) (heap : gmap loc Object) (nx : Next) : Registry :=
  fold_left (fun m s => EnqueueSchema (Static s) false m) initial_types (MkRegistry heap nx (MkList None None)).

(** source/types/type_vault.cc:73-75 [TypeManager::DeallocateSchema] *)
Definition DeallocateSchema (s : SchemaPtr) (m : Registry) : option Registry :=
  match s with Dynamic p => Free p m | Static _ => None end.

(** [CreateSchema] behind the search for a duplicate: what the handler makes of
    the new schema. *)
(** source/types/type_vault.h:113-127 [TypeVault::CreateSchema] *)
Definition CreateSchema (made : option TypeSchema) (m : Registry) : option Registry :=
  match made with
  | None => let '(p, m) := Alloc OOther m in DeallocateSchema (Dynamic p) m
  | Some s => let '(p, m) := Alloc (OSchema s) m in Some (EnqueueSchema (Dynamic p) true m)
  end.

Fixpoint CreateSchemas (made : list (option TypeSchema)) (m : Registry) : option Registry :=
  match made with [] => Some m | x :: made => CreateSchema x m ≫= CreateSchemas made end.

(** source/types/type_vault.cc:77-84 [TypeManager::~TypeManager] *)
Fixpoint RegistryDestroy (fuel : nat) (m : Registry) : option Registry :=
  match fuel with
  | O => None
  | S fuel =>
      let '(node, l) := PopFront (links m) (types_list_ m) in
      let m := MkRegistry (objects m) (links m) l in
      match node with
      | None => Some m
      | Some node =>
          match objects m !! node with
          | Some (ONode n) =>
              ((if owned n then DeallocateSchema (schema n) m else Some m) ≫= Free node) ≫= RegistryDestroy fuel
          | _ => None
          end
      end
  end.

(** * Who owns what *)

(** The schema behind a pointer. *)
Definition schema_at (m : gmap loc Object) (s : SchemaPtr) : option TypeSchema :=
  match s with
  | Static s => Some s
  | Dynamic p => match m !! p with Some (OSchema s) => Some s | _ => None end
  end.

(** A node that owns its schema points to a block, the others to the program
    text. *)
Definition node_holds (m : gmap loc Object) (x : loc) (t : TypeSchema) : Prop :=
  exists n, m !! x = Some (ONode n) /\ schema_at m (schema n) = Some t /\
    owned n = match schema n with Dynamic _ => true | Static _ => false end.

Definition points_to (m : gmap loc Object) (x p : loc) : Prop := exists o, m !! x = Some (ONode (MkNode (Dynamic p) o)).

(** The nodes [xs], linked in order, hold the schemas [ts]; every node is among
    them, every schema block belongs to one of them; the rest of the heap is
    [base]. *)
Record registry_ok (base : gset loc) (xs : list loc) (ts : list TypeSchema) (m : Registry) : Prop := {
  ro_list : represents (links m) (types_list_ m) xs;
  ro_holds : Forall2 (node_holds (objects m)) xs ts;
  ro_nodes : forall x n, objects m !! x = Some (ONode n) -> x ∈ xs;
  ro_schemas : forall p s, objects m !! p = Some (OSchema s) -> exists x, points_to (objects m) x p;
  ro_inj : forall x y p, points_to (objects m) x p -> points_to (objects m) y p -> x = y;
  ro_base : forall p, objects m !! p = Some OOther <-> p ∈ base
}.

Lemma fresh_lookup (m : gmap loc Object) : m !! fresh (dom m) = None.
Proof. apply not_elem_of_dom, is_fresh. Qed.

(** ** Growing *)

(** What is in the heap already stays and means the same. *)
Lemma schema_at_insert m p o s t : m !! p = None -> schema_at m s = Some t -> schema_at (<[p := o]> m) s = Some t.
Proof.
  intros Hp. destruct s as [s|q]; cbn; [done|]. destruct (decide (p = q)) as [->|Hne]; [by rewrite Hp|by rewrite lookup_insert_ne].
Qed.

Lemma node_holds_insert m p o x t : m !! p = None -> node_holds m x t -> node_holds (<[p := o]> m) x t.
Proof.
  intros Hp (n & Hx & Hs & Ho). exists n. split; [|split; [by apply schema_at_insert|done]].
  rewrite lookup_insert_ne; [done|]. intros ->. congruence.
Qed.

Lemma points_to_insert m p o x q : (forall n, o <> ONode n) -> points_to (<[p := o]> m) x q -> points_to m x q.
Proof.
  intros Ho [b Hb]. destruct (decide (p = x)) as [->|Hne]; [rewrite lookup_insert_eq in Hb; injection Hb as ->; by destruct (Ho (MkNode (Dynamic q) b))|].
  rewrite lookup_insert_ne in Hb by done. by exists b.
Qed.

(** A new node for a schema that no node points to yet. *)
Lemma EnqueueNode_ok base xs ts m s t is_owned :
  represents (links m) (types_list_ m) xs -> Forall2 (node_holds (objects m)) xs ts ->
  (forall x n, objects m !! x = Some (ONode n) -> x ∈ xs) ->
  (forall x y p, points_to (objects m) x p -> points_to (objects m) y p -> x = y) ->
  (forall p, objects m !! p = Some OOther <-> p ∈ base) ->
  (forall p u, objects m !! p = Some (OSchema u) -> s = Dynamic p \/ exists x, points_to (objects m) x p) ->
  (forall x p, s = Dynamic p -> ~ points_to (objects m) x p) ->
  schema_at (objects m) s = Some t -> is_owned = match s with Dynamic _ => true | Static _ => false end ->
  exists x, registry_ok base (xs ++ [x]) (ts ++ [t]) (EnqueueSchema s is_owned m).
Proof.
  intros Hl Hh Hn Hi Hb Hsch Hnew Hs Ho. unfold EnqueueSchema, Alloc. set (x := fresh (dom (objects m))).
  pose proof (fresh_lookup (objects m)) as Hx. fold x in Hx. cbn [objects links types_list_].
  assert (Hxs : x ∉ xs).
  { intros Hin. apply list_elem_of_lookup in Hin as [i Hi']. destruct (Forall2_lookup_l _ _ _ _ _ Hh Hi') as (u & _ & n & E & _). congruence. }
  pose proof (PushBack_spec x (links m) (types_list_ m) xs Hl Hxs) as HP. destruct (PushBack _ _ _) as [nx l]. destruct HP as [HP _].
  exists x. set (node := ONode (MkNode s is_owned)).
  assert (Hnew_points : forall y p, points_to (<[x := node]> (objects m)) y p -> y = x /\ s = Dynamic p \/ y <> x /\ points_to (objects m) y p).
  { intros y p [b Hy]. destruct (decide (x = y)) as [<-|Hne].
    - rewrite lookup_insert_eq in Hy. injection Hy as -> _. by left.
    - rewrite lookup_insert_ne in Hy by done. right. split; [done|by exists b]. }
  split; cbn [objects links types_list_].
  - done.
  - apply Forall2_app; [eapply Forall2_impl; [exact Hh|]; intros y u; by apply node_holds_insert|]. constructor; [|done].
    exists (MkNode s is_owned). rewrite lookup_insert_eq. split; [done|]. split; [by apply schema_at_insert|done].
  - intros y n Hy. apply elem_of_app. destruct (decide (x = y)) as [<-|Hne]; [right; by left|left]. rewrite lookup_insert_ne in Hy by done. by eapply Hn.
  - intros p u Hp. destruct (decide (x = p)) as [<-|Hne]; [by rewrite lookup_insert_eq in Hp|]. rewrite lookup_insert_ne in Hp by done.
    destruct (Hsch p u Hp) as [->|[y [b Hy]]]; [exists x, is_owned; by rewrite lookup_insert_eq|].
    exists y, b. rewrite lookup_insert_ne; [done|]. intros <-. congruence.
  - intros y z p [[-> E]|[Hy1 Hy2]]%Hnew_points [[-> E']|[Hz1 Hz2]]%Hnew_points; [done|by destruct (Hnew z p)|by destruct (Hnew y p)|by apply (Hi y z p)].
  - intros p. destruct (decide (x = p)) as [<-|Hne]; [|by rewrite lookup_insert_ne]. rewrite lookup_insert_eq. split; [done|]. intros Hin%Hb. congruence.
Qed.

Lemma registry_new_ok base xs ts m initial : registry_ok base xs ts m ->
  exists ys, registry_ok base (xs ++ ys) (ts ++ initial) (fold_left (fun m s => EnqueueSchema (Static s) false m) initial m).
Proof.
  revert xs ts m. induction initial as [|s initial IH]; intros xs ts m Hm; cbn [fold_left].
  - exists []. by rewrite !app_nil_r.
  - destruct Hm as [L H N S I B]. destruct (EnqueueNode_ok base xs ts m (Static s) s false) as [x Hx]; try done.
    { intros p u Hp. right. by apply (S p u). }
    destruct (IH _ _ _ Hx) as [ys Hys]. exists (x :: ys). by rewrite <- !app_assoc in Hys.
Qed.

Lemma CreateSchema_ok base xs ts m made : registry_ok base xs ts m ->
  exists ys m', CreateSchema made m = Some m' /\ registry_ok base (xs ++ ys) (ts ++ option_list made) m'.
Proof.
  intros [L H N S I B]. unfold CreateSchema, DeallocateSchema, Free, Alloc. set (p := fresh (dom (objects m))).
  pose proof (fresh_lookup (objects m)) as Hp. fold p in Hp. destruct made as [s|]; cbn [objects links types_list_ option_list].
  - eassert (Hx : exists x, registry_ok base (xs ++ [x]) (ts ++ [s]) (EnqueueSchema (Dynamic p) true _)).
    { apply (EnqueueNode_ok base xs ts (MkRegistry (<[p := OSchema s]> (objects m)) (links m) (types_list_ m)));
        cbn [objects links types_list_]; try done.
      - eapply Forall2_impl; [exact H|]. intros y u. by apply node_holds_insert.
      - intros x n Hx. destruct (decide (p = x)) as [<-|Hne]; [by rewrite lookup_insert_eq in Hx|]. rewrite lookup_insert_ne in Hx by done. by eapply N.
      - intros x y q Hx%points_to_insert Hy%points_to_insert; [by eapply I|done..].
      - intros q. destruct (decide (p = q)) as [<-|Hne]; [|by rewrite lookup_insert_ne]. rewrite lookup_insert_eq. split; [done|]. intros Hin%B. congruence.
      - intros q u Hq. destruct (decide (p = q)) as [<-|Hne]; [by left|right]. rewrite lookup_insert_ne in Hq by done.
        destruct (S q u Hq) as [x [b Hx]]. exists x, b. rewrite lookup_insert_ne; [done|]. intros <-. congruence.
      - intros x q [= <-] Hx%points_to_insert; [|done]. destruct Hx as [b Hx].
        assert (Hin : x ∈ xs) by by eapply N. apply list_elem_of_lookup in Hin as [i Hi'].
        destruct (Forall2_lookup_l _ _ _ _ _ H Hi') as (u & _ & n & E & E' & _). rewrite Hx in E. injection E as <-. cbn in E'. by rewrite Hp in E'.
      - cbn. by rewrite lookup_insert_eq. }
    destruct Hx as [x Hx]. eexists [x], _. split; [reflexivity|done].
  - rewrite lookup_insert_eq. eexists [], _. split; [reflexivity|]. rewrite !app_nil_r, delete_insert_id by done. by destruct m.
Qed.

Lemma CreateSchemas_ok base made xs ts m : registry_ok base xs ts m ->
  exists ys m', CreateSchemas made m = Some m' /\ registry_ok base (xs ++ ys) (ts ++ omap id made) m'.
Proof.
  revert xs ts m. induction made as [|x made IH]; intros xs ts m Hm; cbn [CreateSchemas].
  - exists [], m. by rewrite !app_nil_r.
  - destruct (CreateSchema_ok base xs ts m x Hm) as (ys & m1 & -> & Hm1). destruct (IH _ _ _ Hm1) as (zs & m' & E & Hm').
    exists (ys ++ zs), m'. split; [done|]. rewrite <- !app_assoc in Hm'. by destruct x.
Qed.

(** ** Freeing *)

(** Without the first node and the schema it owns. *)
Lemma registry_ok_tail base x n xs t ts m objs l : registry_ok base (x :: xs) (t :: ts) m ->
  represents (links m) l xs -> objects m !! x = Some (ONode n) ->
  objs !! x = None -> (forall q, schema n = Dynamic q -> objs !! q = None) ->
  (forall q, q <> x -> schema n <> Dynamic q -> objs !! q = objects m !! q) ->
  registry_ok base xs ts (MkRegistry objs (links m) l).
Proof.
  intros [L H N S I B] Hl Ex Dx Dq K. inversion H as [|? ? ? ? Hx Hxs]; subst.
  assert (Hnd : x ∉ xs) by (destruct L as (_ & _ & _ & Hd); by inversion Hd).
  destruct Hx as (n' & Ex' & Es & Eo). rewrite Ex in Ex'. injection Ex' as <-.
  assert (Hsome : forall q o, objs !! q = Some o -> q <> x /\ schema n <> Dynamic q /\ objects m !! q = Some o).
  { intros q o Hq. assert (H1 : q <> x) by (intros ->; congruence). assert (H2 : schema n <> Dynamic q) by (intros E%Dq; congruence).
    split; [done|]. split; [done|]. by rewrite <- K. }
  assert (Hblock : forall q o, objects m !! q = Some o -> (forall u, o <> OSchema u) -> schema n <> Dynamic q).
  { intros q o Hq Ho E. rewrite E in Es. cbn in Es. rewrite Hq in Es. destruct o; try done. by destruct (Ho s). }
  assert (Hpt : forall y q, points_to objs y q -> points_to (objects m) y q) by (intros y q [b Hy]; destruct (Hsome _ _ Hy) as (_ & _ & ?); by exists b).
  assert (Hxp : forall q, schema n = Dynamic q -> points_to (objects m) x q) by (intros q E; exists (owned n); rewrite Ex; destruct n; cbn in *; by subst).
  split; cbn [objects links types_list_]; [done| | | | |].
  - apply Forall2_same_length_lookup. split; [by eapply Forall2_length|]. intros i y u Hy Hu.
    destruct (Forall2_lookup_lr _ _ _ _ _ _ Hxs Hy Hu) as (k & Ek & Ek' & Eko). exists k.
    assert (Hne : y <> x) by (intros ->; apply Hnd; by eapply list_elem_of_lookup_2).
    split; [by rewrite K by (done || by eapply Hblock)|]. split; [|done]. destruct (schema k) as [v|q] eqn:Eq; [done|]. cbn in Ek' |- *.
    assert (Hyp : points_to (objects m) y q) by (exists (owned k); rewrite Ek; destruct k; cbn in *; by subst).
    rewrite K; [done| |].
    + intros ->. by rewrite Ex in Ek'.
    + intros E%Hxp. by apply Hne, (I y x q).
  - intros y k Hy. destruct (Hsome _ _ Hy) as (Hne & _ & Hy'). apply N in Hy'. by apply elem_of_cons in Hy' as [?|?].
  - intros q u Hq. destruct (Hsome _ _ Hq) as (_ & Hnq & Hq'). destruct (S q u Hq') as [y [b Hy]]. exists y, b. rewrite K; [done| |by eapply Hblock].
    intros ->. rewrite Ex in Hy. by injection Hy as ->.
  - intros y z q Hy%Hpt Hz%Hpt. by apply (I y z q).
  - intros q. rewrite <- B. split; [by intros (_ & _ & ?)%Hsome|]. intros Hq. rewrite K; [done|intros ->; congruence|by eapply Hblock].
Qed.

(** One turn frees the first node, and the schema it owns. *)
Lemma RegistryDestroy_turn base x xs t ts m : registry_ok base (x :: xs) (t :: ts) m ->
  exists m', registry_ok base xs ts m' /\ forall fuel, RegistryDestroy (S fuel) m = RegistryDestroy fuel m'.
Proof.
  intros Hm. pose proof (ro_list _ _ _ _ Hm) as L. destruct (PopFront_spec _ _ _ L) as [P1 P2]. cbn [RegistryDestroy].
  destruct (PopFront (links m) (types_list_ m)) as [o l]. cbn [fst snd head tail] in P1, P2. subst o.
  pose proof (ro_holds _ _ _ _ Hm) as H. inversion H as [|? ? ? ? Hx _]; subst. destruct Hx as (n & Ex & Es & Eo).
  cbn [objects]. rewrite Ex, Eo. pose proof (registry_ok_tail base x n xs t ts m) as Htail. unfold DeallocateSchema, Free.
  destruct (schema n) as [s|p] eqn:En; cbn [schema_at] in Es; cbn [mbind option_bind objects links types_list_].
  - rewrite Ex. cbn [mbind option_bind]. eexists. split; [|reflexivity]. apply Htail; [done|done|done|apply lookup_delete_eq|done|].
    intros q Hq _. by rewrite lookup_delete_ne.
  - destruct (objects m !! p) as [[|k|u]|] eqn:Ep; try done. assert (Hne : p <> x) by (intros ->; congruence).
    cbn [mbind option_bind objects links types_list_]. rewrite lookup_delete_ne, Ex by done. cbn [mbind option_bind]. eexists. split; [|reflexivity].
    apply Htail; [done|done|done|apply lookup_delete_eq| |].
    + intros q [= <-]. rewrite lookup_delete_ne by done. apply lookup_delete_eq.
    + intros q Hq Hqp. rewrite !lookup_delete_ne; [done|congruence|done].
Qed.

Lemma RegistryDestroy_ok base xs ts m fuel : registry_ok base xs ts m -> length xs < fuel ->
  exists m', RegistryDestroy fuel m = Some m' /\ registry_ok base [] [] m'.
Proof.
  revert ts m fuel. induction xs as [|x xs IH]; intros ts m fuel Hm Hf; destruct fuel as [|fuel]; cbn [length] in Hf; try lia.
  - pose proof (ro_holds _ _ _ _ Hm) as H. inversion H; subst. destruct (PopFront_spec _ _ _ (ro_list _ _ _ _ Hm)) as [P1 P2].
    cbn [RegistryDestroy]. destruct (PopFront _ _) as [o l]. cbn [fst snd head tail] in P1, P2. subst o. eexists. split; [reflexivity|].
    destruct Hm as [L Hh N S I B]. by split.
  - pose proof (ro_holds _ _ _ _ Hm) as H. inversion H as [|? t ? ts' _ _]; subst.
    destruct (RegistryDestroy_turn base x xs t ts' m Hm) as (m' & Hm' & ->). apply (IH ts'); [done|lia].
Qed.

(** The registry of initial types in which types are made, with and without
    success: its list has the nodes of the initial types and of those made, in
    order, as [TypeVault.EnqueueSchema] adds them; and its destructor, given a
    turn for every node and one more, frees every node and every schema made,
    each once, and nothing else. *)
Theorem registry_memory_is_freed base initial made heap nx :
  (forall p, heap !! p = Some OOther <-> p ∈ base) -> (forall p o, heap !! p = Some o -> o = OOther) ->
  exists m xs, CreateSchemas made (RegistryNew initial heap nx) = Some m /\
    registry_ok base xs (initial ++ omap id made) m /\
    (forall allocator, TypeVault.types_list_ (fold_left (fun tm s => TypeVault.EnqueueSchema s tm) (omap id made)
       (TypeVault.TypeManagerNew allocator initial)) = initial ++ omap id made) /\
    exists m', RegistryDestroy (S (length xs)) m = Some m' /\ objects m' = heap /\ IsEmpty (types_list_ m') = true.
Proof.
  intros Hb Ho. assert (H0 : registry_ok base [] [] (MkRegistry heap nx (MkList None None))).
  { split; cbn [objects links types_list_]; [split_and!; (done || constructor)|done| | | |done].
    - intros x n Hx. by apply Ho in Hx.
    - intros p s Hp. by apply Ho in Hp.
    - intros x y p [b Hx]. by apply Ho in Hx. }
  destruct (registry_new_ok base [] [] _ initial H0) as [ys H1].
  destruct (CreateSchemas_ok base made _ _ _ H1) as (zs & m & E & H2). exists m, (([] ++ ys) ++ zs).
  split; [exact E|]. split; [exact H2|]. split.
  { intros allocator. unfold TypeVault.TypeManagerNew.
    assert (Hf : forall l tm, TypeVault.types_list_ (fold_left (fun tm s => TypeVault.EnqueueSchema s tm) l tm) = TypeVault.types_list_ tm ++ l).
    { induction l as [|s l IH]; intros tm; cbn [fold_left]; [by rewrite app_nil_r|]. rewrite IH. cbn. by rewrite <- app_assoc. }
    by rewrite !Hf. }
  destruct (RegistryDestroy_ok base _ _ m (S (length (([] ++ ys) ++ zs))) H2) as (m' & E' & [L _ N S _ B]); [lia|].
  exists m'. split; [exact E'|]. split; [|destruct L as (L & _); unfold IsEmpty; by rewrite L].
  apply map_eq. intros p. destruct (objects m' !! p) as [[|n|s]|] eqn:Ep.
  - apply B in Ep. symmetry. by apply Hb.
  - apply N in Ep. by apply elem_of_nil in Ep.
  - destruct (S p s Ep) as [x [b Hx]]. apply N in Hx. by apply elem_of_nil in Hx.
  - destruct (heap !! p) as [o|] eqn:Eh; [|done]. pose proof (Ho p o Eh) as ->. apply Hb, B in Eh. congruence.
Qed.
