(* ===== verification/Storage.v ===== *)
(** [storage/]: objects, the per-type vaults, the storage, and the writer that
    stores typed values into an object's fields.

    Memory is a function from addresses to bytes, so what an object's buffer
    holds before it is written is arbitrary.  [new Object] is the C++ runtime's:
    [heap_ n] is the address of the data buffer of the [n]-th next object. *)
From S2P Require Import Prelude Either CLib Types TypeVault.
Local Open Scope Z_scope.

(** * Memory *)

Definition Mem := Z -> Z.

(** Little-endian words of [n] bytes. *)
Fixpoint load (m : Mem) (a : Z) (n : nat) : Z :=
  match n with
  | O => 0
  | S n' => m a mod 256 + 256 * load m (a + 1) n'
  end.

Fixpoint store (m : Mem) (a : Z) (n : nat) (v : Z) : Mem :=
  match n with
  | O => m
  | S n' => fun x => if x =? a then v mod 256 else store m (a + 1) n' (v / 256) x
  end.

(** * Objects and vaults *)

(** [data_] is the address of [buf], 128-byte aligned. *)
(** source/storage/object.h:14-22 [Object] *)
Record Object := MkObject { guid_ : Z; data_ : Z }.

(** The size of the data buffer. *)
(** source/storage/object.h:19-19 [Object::buf] *)
Definition object_buf_size : Z := 256.

(** source/storage/object_vault.h:15-39 [ObjectVault] *)
Record ObjectVault := MkObjectVault {
  schema_ : TypeSchema;
  store_ : list Object;
  object_id_index_ : gmap Z Object
}.

(** [last_guid_] is the function-static counter every vault shares. *)
(** source/storage/storage.h:14-38 [Storage] *)
Record Storage := MkStorage {
  objects_ : gmap bytes ObjectVault;
  last_guid_ : Z;
  heap_ : nat -> Z
}.

(** source/storage/storage.cc:5-6 [Storage::Storage] *)
Definition StorageNew (heap : nat -> Z) : Storage := MkStorage empty 0 heap.

(** source/storage/object_vault.cc:5-8 [ObjectVault::ObjectVault] *)
Definition ObjectVaultNew (schema : TypeSchema) : ObjectVault := MkObjectVault schema [] empty.

(** source/storage/object_vault.cc:10-18 [ObjectVault::CreateObject] *)
Definition VaultCreateObject (v : ObjectVault) (last_guid data : Z) : Object * ObjectVault :=
  let obj := MkObject (u64 (last_guid + 1)) data in
  (obj, MkObjectVault (schema_ v) (store_ v ++ [obj]) (<[guid_ obj := obj]> (object_id_index_ v))).

(** As one thread alone executes it; [Creations] has its steps. *)
(** source/storage/storage.cc:14-24 [Storage::CreateObject] *)
Definition CreateObject (type_name : bytes) (s : Storage) : Either bytes (Object * TypeSchema) * Storage :=
  match objects_ s !! type_name with
  | None => (Left (lit "No storage for type"), s)
  | Some vault =>
      let '(obj, vault') := VaultCreateObject vault (last_guid_ s) (heap_ s 0%nat) in
      (Right (obj, schema_ vault'),
       MkStorage (<[type_name := vault']> (objects_ s)) (guid_ obj) (fun n => heap_ s (S n)))
  end.

(** source/storage/storage.cc:38-47 [Storage::FindVaultWithType] *)
Definition FindVaultWithType (type_name : bytes) (s : Storage) : option ObjectVault :=
  objects_ s !! type_name.

(** The objects with their schema, in creation order; [None]: no vault. *)
(** source/storage/storage.h:41-50 [Storage::Enumerate] *)
Definition Enumerate (type_name : bytes) (s : Storage) : option (list (Object * TypeSchema)) :=
  match FindVaultWithType type_name s with
  | None => None
  | Some v => Some (map (fun o => (o, schema_ v)) (store_ v))
  end.

(** source/storage/storage.cc:49-65 [Storage::EnsureVaultWithType] *)
Definition EnsureVaultWithType (vault : nat) (tm : TypeManager) (type_name : bytes) (s : Storage)
    : option ObjectVault * TypeManager * Storage :=
  match objects_ s !! type_name with
  | Some v => (Some v, tm, s)
  | None =>
      let '(schema, tm') := FindSchema vault type_name tm in
      match schema with
      | None => (None, tm', s)
      | Some schema =>
          if IsBasic schema then (None, tm', s)
          else
            let v := ObjectVaultNew schema in
            (Some v, tm', MkStorage (<[schema_name schema := v]> (objects_ s)) (last_guid_ s) (heap_ s))
      end
  end.

(** * The object writer *)

(** source/storage/object_writer.cc:7-15 [ValueToDouble] *)
Definition ValueToDouble (type : TypeSchema) (value : Value) : double :=
  if same_type type T_double then val_dbl value
  else if IsSignedInt type then d_of_Z (val_i64 value)
  else d_of_Z (val_u64 value).

(** source/storage/object_writer.cc:17-23 [ValueToUInt64] *)
Definition ValueToUInt64 (type : TypeSchema) (value : Value) : Z :=
  if same_type type T_double then d_to_u64 (val_dbl value) else val_u64 value.

(** The last branch, an assertion in the code, is for sizes that no type of a
    number has. *)
(** source/storage/object_writer.cc:25-48 [WriteBasicValue] *)
Definition WriteBasicValue (type : TypeSchema) (value : Value) (dst_type : TypeSchema) (dst_buf : Z)
    (m : Mem) : Mem :=
  if same_type dst_type T_double then store m dst_buf 8 (d_bits (ValueToDouble type value))
  else if same_type dst_type T_float then
    store m dst_buf 4 (f32_bits (f32_of_double (ValueToDouble type value)))
  else
    let v := ValueToUInt64 type value in
    if schema_size dst_type =? 1 then store m dst_buf 1 (wrap_u 8 v)
    else if schema_size dst_type =? 2 then store m dst_buf 2 (wrap_u 16 v)
    else if schema_size dst_type =? 4 then store m dst_buf 4 (wrap_u 32 v)
    else if schema_size dst_type =? 8 then store m dst_buf 8 (wrap_u 64 v)
    else m.

(** source/storage/object_writer.cc:63-78 [ObjectWriter::FindDataStore] *)
Fixpoint FindDataStore_loop (fields : list (bytes * TypeSchema)) (field_name : bytes) (cur : Z)
    : Z * option TypeSchema :=
  match fields with
  | [] => (0, None)
  | (name, schema) :: fields' =>
      let cur := AlignPtr cur (schema_alignment schema) in
      if bool_decide (name = field_name) then (cur, Some schema)
      else FindDataStore_loop fields' field_name (OffsetPtr cur (schema_size schema))
  end.

(** source/storage/object_writer.cc:63-78 [ObjectWriter::FindDataStore] *)
Definition FindDataStore (object : Object) (schema : TypeSchema) (field_name : bytes)
    : Z * option TypeSchema :=
  FindDataStore_loop (schema_fields schema) field_name (data_ object).

(** source/storage/object_writer.cc:80-91 [ObjectWriter::WriteTyped] *)
Definition WriteTyped (object : Object) (schema : TypeSchema) (field_name : bytes)
    (type : TypeSchema) (value : Value) (m : Mem) : Either bytes unit * Mem :=
  match FindDataStore object schema field_name with
  | (field_ptr, Some field_type) =>
      if field_ptr =? 0 then (Left (lit "Field does not exist"), m)
      else if IsBasic field_type then (Right tt, WriteBasicValue type value field_type field_ptr m)
      else (Left (lit "Unsupported type"), m)
  | (_, None) => (Left (lit "Field does not exist"), m)
  end.

(** * Memory lemmas *)

Lemma store_outside m a n v x : ~ (a <= x < a + Z.of_nat n) -> store m a n v x = m x.
Proof.
  revert a v. induction n as [|n IH]; intros a v Hx; cbn; [done|].
  destruct (Z.eqb_spec x a); [lia|]. apply IH. lia.
Qed.

Lemma load_ext m m' a n :
  (forall x, a <= x < a + Z.of_nat n -> m x = m' x) -> load m a n = load m' a n.
Proof.
  revert a. induction n as [|n IH]; intros a Hx; cbn [load]; [done|].
  rewrite (Hx a) by lia. rewrite (IH (a + 1)); [done|]. intros x Hr. apply Hx. lia.
Qed.

Lemma load_store m a n v : load (store m a n v) a n = v mod 256 ^ Z.of_nat n.
Proof.
  revert m a v. induction n as [|n IH]; intros m a v; cbn [load store].
  - change (Z.of_nat 0) with 0. by rewrite Z.pow_0_r, Z.mod_1_r.
  - rewrite Z.eqb_refl, Z.mod_mod by lia.
    rewrite (load_ext _ (store m (a + 1) n (v / 256)) (a + 1) n).
    + rewrite IH, Nat2Z.inj_succ, Z.pow_succ_r by lia.
      rewrite Z.rem_mul_r by (try apply Z.pow_nonzero; lia). done.
    + intros x Hx. destruct (Z.eqb_spec x a); [lia|done].
Qed.

Lemma load_store_small m a n v :
  0 <= v < 256 ^ Z.of_nat n -> load (store m a n v) a n = v.
Proof. intros. rewrite load_store. by apply Z.mod_small. Qed.

Lemma load_store_disjoint m a n v b k :
  b + Z.of_nat k <= a \/ a + Z.of_nat n <= b -> load (store m a n v) b k = load m b k.
Proof. intros Hd. apply load_ext. intros x Hx. apply store_outside. lia. Qed.

(** A basic value's store stays inside the destination's size. *)
Lemma WriteBasicValue_outside type value dst dst_buf m x :
  IsBasic dst = true -> (same_type dst T_double = true -> schema_size dst = 8) ->
  (same_type dst T_float = true -> schema_size dst = 4) ->
  ~ (dst_buf <= x < dst_buf + schema_size dst) -> WriteBasicValue type value dst dst_buf m x = m x.
Proof.
  intros _ Hd Hf Hx. unfold WriteBasicValue.
  destruct (same_type dst T_double); [rewrite Hd in Hx by done; by apply store_outside|].
  destruct (same_type dst T_float); [rewrite Hf in Hx by done; by apply store_outside|].
  repeat case_goal; bool_hyps; try done; apply store_outside; lia.
Qed.
