(* ===== verification/Layout.v ===== *)
(** The layout of an object: where [defstruct], [ObjectWriter] and
    [JsonSerializer] place the fields of a schema.

    The three walk the fields with [AlignPtr]/[OffsetPtr]; [slots] is that
    walk.  The lemmas give its geometry: aligned, disjoint, inside the size
    [defstruct] computes, and the same at every well-aligned address. *)
From S2P Require Import Prelude Either CLib Types TypeVault Storage.
Local Open Scope Z_scope.

Definition Fields := list (bytes * TypeSchema).

(** Induction on a schema and the types of its fields. *)
Section SchemaInd.
  Context (P : TypeSchema -> Prop).
  Hypothesis HP : forall s, Forall (fun nt => P (snd nt)) (schema_fields s) -> P s.

Fixpoint TypeSchema_ind' (s : TypeSchema) : P s :=
  HP s (match s return Forall (fun nt => P (snd nt)) (schema_fields s) with
        | MkSchema _ _ _ _ _ fields =>
            (fix go (l : list (bytes * TypeSchema)) : Forall (fun nt => P (snd nt)) l :=
               match l with
               | [] => Forall_nil_2 _
               | (n, t) :: l' => Forall_cons_2 _ (n, t) l' (TypeSchema_ind' t) (go l')
               end) fields
        end).
End SchemaInd.

(** Name, type and address of every field, from address [cur]. *)
Fixpoint slots (fields : Fields) (cur : Z) : list (bytes * TypeSchema * Z) :=
  match fields with
  | [] => []
  | (n, t) :: fields' =>
      let p := AlignPtr cur (schema_alignment t) in
      (n, t, p) :: slots fields' (OffsetPtr p (schema_size t))
  end.

(** The address behind the last field. *)
Fixpoint slots_end (fields : Fields) (cur : Z) : Z :=
  match fields with
  | [] => cur
  | (n, t) :: fields' => slots_end fields' (OffsetPtr (AlignPtr cur (schema_alignment t)) (schema_size t))
  end.

Definition max_alignment (fields : Fields) : Z := foldr (fun nt a => Z.max a (schema_alignment (snd nt))) 0 fields.

(** A type that can be laid out: power-of-two alignment of at most 8, a size
    that is a positive multiple of it. *)
Definition wf_type (t : TypeSchema) : Prop :=
  exists k, 0 <= k <= 3 /\ schema_alignment t = 2 ^ k /\ 0 < schema_size t < 2 ^ 40 /\ (2 ^ k | schema_size t).

Lemma wf_size_pos t : wf_type t -> 0 < schema_size t.
Proof. intros (k & _ & _ & Hs & _). lia. Qed.

Definition wf_fields (fields : Fields) : Prop := Forall (fun nt => wf_type (snd nt)) fields.

(** Room for [fields] behind [cur] in the address space. *)
Definition room (fields : Fields) : Z := foldr (fun nt a => schema_size (snd nt) + 8 + a) 8 fields.

Lemma room_pos fields : wf_fields fields -> 8 <= room fields.
Proof.
  induction 1 as [|[n t] fields (k & _ & _ & Hs & _) _ IH]; [done|].
  change (room ((n, t) :: fields)) with (schema_size t + 8 + room fields). cbn [snd] in Hs. lia.
Qed.

Lemma pow_le_8 k : 0 <= k <= 3 -> 1 <= 2 ^ k <= 8.
Proof.
  intros. assert (k = 0 \/ k = 1 \/ k = 2 \/ k = 3) as [->|[->|[->| ->]]] by lia; vm_compute; split; congruence.
Qed.

(** One step of the walk. *)
Lemma align_step t cur rest :
  wf_type t -> 0 <= cur -> 8 <= rest -> cur + (schema_size t + 8 + rest) < 2 ^ 64 ->
  let p := AlignPtr cur (schema_alignment t) in
  (schema_alignment t | p) /\ cur <= p < cur + 8 /\ OffsetPtr p (schema_size t) = p + schema_size t /\
  p + schema_size t + rest < 2 ^ 64.
Proof.
  intros (k & Hk & Ha & Hs & Hd) Hc Hr Hb p. pose proof (pow_le_8 k Hk).
  destruct (align_bits_spec cur k) as [H1 H2]; [lia|lia|lia|]. unfold p, AlignPtr. rewrite Ha.
  split; [done|]. split; [lia|]. unfold OffsetPtr, u64.
  rewrite wrap_u_id; [split; [done|lia]|]. split; lia.
Qed.

(** Slots in address order between [cur] and [e]. *)
Fixpoint placed (cur : Z) (l : list (bytes * TypeSchema * Z)) (e : Z) : Prop :=
  match l with
  | [] => cur <= e
  | (n, t, p) :: l' => cur <= p /\ (schema_alignment t | p) /\ placed (p + schema_size t) l' e
  end.

Lemma slots_placed fields cur :
  wf_fields fields -> 0 <= cur -> cur + room fields < 2 ^ 64 ->
  placed cur (slots fields cur) (slots_end fields cur).
Proof.
  intros Hw. revert cur. induction Hw as [|[n t] fields Ht Hw IH]; intros cur Hc Hb; cbn [slots slots_end placed]; [lia|].
  pose proof (room_pos _ Hw).
  change (room ((n, t) :: fields)) with (schema_size t + 8 + room fields) in Hb.
  destruct (align_step t cur (room fields) Ht Hc ltac:(done) Hb) as (H1 & H2 & H3 & H4).
  rewrite H3. split; [lia|]. split; [done|]. apply IH; [|lia].
  pose proof (wf_size_pos t Ht). lia.
Qed.

Lemma placed_le cur l e : placed cur l e -> Forall (fun s => wf_type (snd (fst s))) l -> cur <= e.
Proof.
  revert cur. induction l as [|[[n t] p] l IH]; intros cur; cbn [placed]; [done|].
  intros (H1 & _ & H2) Hw. inversion Hw as [|? ? Ht Hw']; subst.
  specialize (IH _ H2 Hw'). pose proof (wf_size_pos t Ht). lia.
Qed.

Lemma slots_types fields cur : wf_fields fields -> Forall (fun s => wf_type (snd (fst s))) (slots fields cur).
Proof.
  intros Hw. revert cur. induction Hw as [|[n t] fields Ht _ IH]; intros cur; cbn [slots]; constructor; auto.
Qed.

(** Every slot lies in [cur, e), and different slots do not overlap. *)
Lemma placed_bounds cur l e n t p :
  placed cur l e -> Forall (fun s => wf_type (snd (fst s))) l -> (n, t, p) ∈ l ->
  cur <= p /\ (schema_alignment t | p) /\ p + schema_size t <= e.
Proof.
  revert cur. induction l as [|[[n' t'] p'] l IH]; intros cur; cbn [placed]; [by intros _ _ ?%elem_of_nil|].
  intros (H1 & H2 & H3) Hw Hin. inversion Hw as [|? ? Ht Hw']; subst.
  apply elem_of_cons in Hin as [[= -> -> ->]|Hin].
  - split; [done|]. split; [done|]. by apply (placed_le _ l).
  - destruct (IH _ H3 Hw' Hin) as (? & ? & ?). split; [|done].
    pose proof (wf_size_pos t' Ht). lia.
Qed.

Lemma placed_disjoint cur l e i j n1 t1 p1 n2 t2 p2 :
  placed cur l e -> Forall (fun s => wf_type (snd (fst s))) l -> (i < j)%nat ->
  l !! i = Some (n1, t1, p1) -> l !! j = Some (n2, t2, p2) -> p1 + schema_size t1 <= p2.
Proof.
  revert cur i j. induction l as [|[[n t] p] l IH]; intros cur i j; cbn [placed]; [done|].
  intros (H1 & H2 & H3) Hw Hij Hi Hj. inversion Hw as [|? ? Ht Hw']; subst.
  destruct j as [|j]; [lia|]. cbn in Hj. destruct i as [|i].
  - injection Hi as -> -> ->. apply list_elem_of_lookup_2 in Hj.
    by destruct (placed_bounds _ _ _ _ _ _ H3 Hw' Hj).
  - apply (IH _ i j H3 Hw'); [lia|done|done].
Qed.

(** [FindDataStore] finds the first slot of the name. *)
Fixpoint find_slot (name : bytes) (l : list (bytes * TypeSchema * Z)) : Z * option TypeSchema :=
  match l with
  | [] => (0, None)
  | (n, t, p) :: l' => if bool_decide (n = name) then (p, Some t) else find_slot name l'
  end.

Lemma FindDataStore_slots fields name cur :
  FindDataStore_loop fields name cur = find_slot name (slots fields cur).
Proof.
  revert cur. induction fields as [|[n t] fields IH]; intros cur; cbn [FindDataStore_loop slots find_slot]; [done|].
  by rewrite IH.
Qed.

Lemma find_slot_in name l p t : find_slot name l = (p, Some t) -> (name, t, p) ∈ l.
Proof.
  induction l as [|[[n t'] p'] l IH]; cbn; [done|]. case_bool_decide as Hn.
  - intros [= -> ->]. subst. apply list_elem_of_here.
  - intros Hf. by apply list_elem_of_further, IH.
Qed.

(** * Moving a layout *)

Lemma AlignPtr_shift base cur k :
  0 <= k <= 3 -> 0 <= base -> 0 <= cur -> base + cur + 8 < 2 ^ 64 -> (2 ^ k | base) ->
  AlignPtr (base + cur) (2 ^ k) = base + AlignPtr cur (2 ^ k).
Proof.
  intros Hk Hb Hc Hr [q Hq]. pose proof (pow_le_8 k Hk). unfold AlignPtr.
  rewrite !align_bits_pow2 by lia.
  replace (base + cur + 2 ^ k - 1) with (cur + 2 ^ k - 1 + q * 2 ^ k) by lia.
  rewrite Z.div_add by lia. rewrite Hq. ring.
Qed.

Definition shift (d : Z) (s : bytes * TypeSchema * Z) : bytes * TypeSchema * Z := (fst s, d + snd s).

Lemma slots_shift fields base cur :
  wf_fields fields -> 0 <= base -> 0 <= cur -> base + cur + room fields < 2 ^ 64 ->
  Forall (fun nt => (schema_alignment (snd nt) | base)) fields ->
  slots fields (base + cur) = map (shift base) (slots fields cur) /\
  slots_end fields (base + cur) = base + slots_end fields cur.
Proof.
  intros Hw Hb. revert cur. induction Hw as [|[n t] fields Ht Hw IH]; intros cur Hc Hr Hal; [done|].
  inversion Hal as [|? ? Hat Hal']; subst. cbn [snd] in Hat. cbn [slots slots_end map]. cbn [snd] in Ht. pose proof (room_pos _ Hw).
  change (room ((n, t) :: fields)) with (schema_size t + 8 + room fields) in Hr.
  destruct (align_step t cur (room fields) Ht Hc ltac:(done) ltac:(lia)) as (_ & G2 & G3 & G4).
  destruct (align_step t (base + cur) (room fields) Ht ltac:(lia) ltac:(done) Hr) as (_ & K2 & K3 & K4).
  assert (Hs : AlignPtr (base + cur) (schema_alignment t) = base + AlignPtr cur (schema_alignment t)).
  { destruct Ht as (k & Hk & Ha & Hs & _). rewrite Ha in Hat |- *. apply AlignPtr_shift; try done; lia. }
  pose proof (wf_size_pos t Ht).
  rewrite K3, G3, Hs, <- Z.add_assoc.
  destruct (IH (AlignPtr cur (schema_alignment t) + schema_size t)) as [E1 E2]; [lia|lia|done|].
  split; [|exact E2]. rewrite E1. done.
Qed.
