(* ===== verification/SlangEnv.v ===== *)
(** [main/slang_env.cc]: the database functions of the language, [create],
    [select], [list] and [defstruct], and the environment they are registered
    in.

    [World] is what a call reaches through its user data: the storage, the
    type registry with the calling thread's vault, and the memory objects live
    in. *)
From S2P Require Import Prelude Either StrBuild CLib Types Call MathFuncs TypeVault Storage Layout.
From S2P Require Import Program.
Local Open Scope Z_scope.

(** source/main/shared_deps.h:11-15 [SharedDeps] *)
Record World := MkWorld {
  storage : Storage;
  types : TypeManager;
  vault : nat;
  mem : Mem
}.

Definition with_storage (s : Storage) (w : World) : World := MkWorld s (types w) (vault w) (mem w).
Definition with_types (tm : TypeManager) (w : World) : World := MkWorld (storage w) tm (vault w) (mem w).
Definition with_mem (m : Mem) (w : World) : World := MkWorld (storage w) (types w) (vault w) m.

Abbreviation ctx_t := (CallContext World).
Definition upd_world (f : World -> World) (ctx : ctx_t) : ctx_t := with_user_data (f (user_data ctx)) ctx.

(** * create *)

(** source/main/slang_env.cc:46-72 [create] *)
Fixpoint create_fields (type_name : bytes) (obj : Object) (schema : TypeSchema) (it : Iterator) (ctx : ctx_t)
    : option (bool * ctx_t) :=
  match it with
  | [] => None
  | f :: it1 =>
      if is_barrier f then Some (true, AddTyped (MkTyped schema (VPtr (data_ obj))) ctx)
      else
        match GetField f with
        | None => fail_with [lit "Expected field name for type '"; type_name; lit "'"] ctx
        | Some field_name =>
            match it1 with
            | [] => None
            | v :: it2 =>
                if is_barrier v then
                  fail_with [lit "Expected value for field '"; field_name; lit "'"] ctx
                else
                  let '(written, m') :=
                    WriteTyped obj schema field_name (tv_type v) (tv_value v) (mem (user_data ctx)) in
                  let ctx' := upd_world (with_mem m') ctx in
                  match written with
                  | Left e =>
                      fail_with [lit "Failed to write a field: '"; field_name; lit "': "; e] ctx'
                  | Right _ => create_fields type_name obj schema it2 ctx'
                  end
            end
        end
  end.

(** source/main/slang_env.cc:21-73 [create] *)
Definition create : Call World := fun ctx =>
  match args ctx with
  | [] => None
  | a :: it =>
      if is_barrier a then
        fail_with [lit "Not enough arguments for a function. Expected (create type_name [fields])."] ctx
      else
        match GetStr a with
        | None => fail_with [lit "Expected a type name."] ctx
        | Some type_name =>
            let w := user_data ctx in
            let '(_, tm, s1) := EnsureVaultWithType (vault w) (types w) type_name (storage w) in
            let '(result, s2) := CreateObject type_name s1 in
            let ctx1 := upd_world (fun w => with_storage s2 (with_types tm w)) ctx in
            match result with
            | Left e => fail_with [lit "Failed to create new object of type '"; type_name; lit "': "; e] ctx1
            | Right (new_object, new_object_schema) =>
                create_fields type_name new_object new_object_schema it ctx1
            end
        end
  end.

(** * select *)

(** source/main/slang_env.cc:76-91 [select] *)
Definition select : Call World := fun ctx =>
  match args ctx with
  | [] => None
  | a :: _ =>
      if is_barrier a || negb (same_type (tv_type a) T_StrSpan) then
        fail_with [lit "Expected type name."] ctx
      else
        let type_name := GetUnsafeStr a in
        let found := default [] (Enumerate type_name (storage (user_data ctx))) in
        Some (true, fold_left (fun c os => AddTyped (MkTyped (snd os) (VPtr (data_ (fst os)))) c) found ctx)
  end.

(** * list *)

(** source/main/slang_env.cc:95-98 [list] *)
Fixpoint list_args (it : Iterator) (ctx : ctx_t) : option (bool * ctx_t) :=
  match it with
  | [] => None
  | a :: it' => if is_barrier a then Some (true, ctx) else list_args it' (AddTyped a ctx)
  end.

(** source/main/slang_env.cc:93-100 [list] *)
Definition list_ : Call World := fun ctx => list_args (args ctx) ctx.

(** * defstruct *)

(** source/main/slang_env.cc:118-127 [defstruct] *)
Fixpoint count_fields (it : Iterator) (num_fields fields_size : nat) : option (nat * nat) :=
  match it with
  | [] => None
  | a :: it' =>
      if is_barrier a then Some (num_fields, fields_size)
      else if same_type (tv_type a) T_Field then
        count_fields it' (S num_fields) (fields_size + length (GetUnsafeStr a))
      else count_fields it' num_fields fields_size
  end.

Definition barrier_or_end (it : Iterator) : bool :=
  match it with [] => true | a :: _ => is_barrier a end.

(** The fields read so far, the running size and alignment; the failure is the
    message.  The frame's barrier was seen by [count_fields], so the list does
    not end before it. *)
(** source/main/slang_env.cc:136-167 [defstruct] *)
Fixpoint defstruct_fields (vault : nat) (it : Iterator) (tm : TypeManager)
    (fields : list (bytes * TypeSchema)) (total_size alignment : Z)
    : Either (list bytes) SchemaBody * TypeManager :=
  match it with
  | [] => (Left [], tm)
  | f :: it1 =>
      if is_barrier f then
        (Right (alignment, AlignPtr total_size alignment, fields), tm)
      else if negb (same_type (tv_type f) T_Field) then
        (Left [lit "Expected field name but got '"; schema_name (tv_type f); lit "'"], tm)
      else
        match it1 with
        | [] => (Left [], tm)
        | t :: it2 =>
            if is_barrier t || negb (same_type (tv_type t) T_StrSpan) then
              (Left [lit "Expected type name, but got '";
                     (if is_barrier t then lit "none" else schema_name (tv_type t)); lit "'"], tm)
            else
              let '(schema, tm') := FindSchema vault (GetUnsafeStr t) tm in
              match schema with
              | None => (Left [lit "Unknown type name '"; GetUnsafeStr t; lit "'"], tm')
              | Some schema =>
                  let total := u64 (AlignPtr total_size (schema_alignment schema) + schema_size schema) in
                  defstruct_fields vault it2 tm' (fields ++ [(GetUnsafeStr f, schema)]) total
                    (Z.max alignment (schema_alignment schema))
              end
        end
  end.

(** source/main/slang_env.cc:129-175 [defstruct] *)
Definition defstruct_handler (vault : nat) (it : Iterator) (tm : TypeManager)
    : option SchemaBody * TypeManager * list bytes :=
  match defstruct_fields vault it tm [] 0 0 with
  | (Left msg, tm') => (None, tm', msg)
  | (Right body, tm') => (Some body, tm', [])
  end.

(** source/main/slang_env.cc:102-178 [defstruct] *)
Definition defstruct : Call World := fun ctx =>
  match args ctx with
  | [] => None
  | a :: it =>
      if is_barrier a || negb (same_type (tv_type a) T_StrSpan) then
        fail_with [lit "Expected type name."] ctx
      else
        let type_name := GetUnsafeStr a in
        let w := user_data ctx in
        let '(exists_, tm1) := HasType (vault w) type_name (types w) in
        let ctx1 := upd_world (with_types tm1) ctx in
        if exists_ then fail_with [lit "Type '"; type_name; lit "' already exists."] ctx1
        else
          match count_fields it 0 0 with
          | None => None
          | Some _ =>
              let '(schema, tm2, msg) :=
                CreateSchema (vault w) type_name (defstruct_handler (vault w) it) tm1 in
              let ctx2 := upd_world (with_types tm2) ctx1 in
              match schema with
              | Some _ => Some (true, ctx2)
              | None => fail_with (default [] msg) ctx2
              end
          end
  end.

(** * The environment *)

(** source/main/slang_env.cc:15-187 [CreateSlangEnv] *)
Definition CreateSlangEnv (json_payload_handler : PayloadHandler) : Env World :=
  let func_table := empty in
  let func_table := <[lit "create" := create]> func_table in
  let func_table := <[lit "select" := select]> func_table in
  let func_table := <[lit "list" := list_]> func_table in
  let func_table := <[lit "defstruct" := defstruct]> func_table in
  let func_table := RegisterMathFunctions func_table in
  MkEnv func_table
    (<[MakePayloadHandlerToken (lit "json") := json_payload_handler]> (<[0 := json_payload_handler]> empty)).

(** * What defstruct registers *)

Lemma first_named_in n l s : first_named n l = Some s -> s ∈ l.
Proof.
  induction l as [|x l IH]; cbn; [done|]. destruct (decide _).
  - intros [= ->]. apply list_elem_of_here.
  - intros Hf. by apply list_elem_of_further, IH.
Qed.

Lemma first_named_name n l s : first_named n l = Some s -> schema_name s = n.
Proof.
  induction l as [|x l IH]; cbn; [done|]. destruct (decide _); [by intros [= <-]|done].
Qed.

Lemma slots_end_snoc fields n t cur :
  slots_end (fields ++ [(n, t)]) cur =
  OffsetPtr (AlignPtr (slots_end fields cur) (schema_alignment t)) (schema_size t).
Proof. revert cur. induction fields as [|[n' t'] fields IH]; intros cur; [done|]. cbn. apply IH. Qed.

Lemma max_alignment_cons n t fields :
  max_alignment ((n, t) :: fields) = Z.max (max_alignment fields) (schema_alignment t).
Proof. done. Qed.

Lemma max_alignment_snoc fields n t :
  0 <= schema_alignment t ->
  max_alignment (fields ++ [(n, t)]) = Z.max (max_alignment fields) (schema_alignment t).
Proof.
  intros Ht. induction fields as [|[n' t'] fields IH].
  - cbn. lia.
  - cbn [app]. rewrite !max_alignment_cons, IH. lia.
Qed.

(** Reference for the arguments behind the name: pairs of a field name and the
    name of one of the types [l], nothing else. *)
Fixpoint call_fields (l : list TypeSchema) (it : Iterator) : option Fields :=
  match it with
  | [] => Some []
  | f :: t :: it' =>
      if same_type (tv_type f) T_Field && same_type (tv_type t) T_StrSpan then
        match first_named (GetUnsafeStr t) l with
        | Some s => option_map (cons (GetUnsafeStr f, s)) (call_fields l it')
        | None => None
        end
      else None
  | _ => None
  end.

Lemma call_fields_in l it fields : call_fields l it = Some fields -> Forall (fun nt => snd nt ∈ l) fields.
Proof.
  remember (length it) as k eqn:Hk. revert it Hk fields. induction (lt_wf k) as [k _ IH]. intros it -> fields.
  destruct it as [|f [|t it]]; cbn [call_fields]; [intros [= <-]; constructor|done|]. destruct (_ && _); [|done].
  destruct (first_named (GetUnsafeStr t) l) as [s|] eqn:Es; [|done]. destruct (call_fields l it) as [new|] eqn:E; [|done].
  intros [= <-]. constructor; [by apply (first_named_in (GetUnsafeStr t))|by apply (IH (length it) ltac:(cbn; lia) it)].
Qed.

Section Defstruct.
  Context (vault : nat) (v : TypeVault) (l : list TypeSchema).
  Hypothesis Hup : updated_ v = true.
  Hypothesis Hl : forall n, schemas_map_ v !! n = first_named n l.
  Hypothesis Hnn : Forall (fun s => 0 <= schema_alignment s) l.

(** With the flag set, lookups read the vault's map and change nothing; the
    fields are those of the call, the alignment the greatest, the size that of
    the walk over all of them. *)
Lemma defstruct_fields_spec fr tm fields total al :
  vaults_ tm !! vault = Some v -> no_barrier fr -> total = slots_end fields 0 -> al = max_alignment fields ->
  let '(r, tm') := defstruct_fields vault (fr ++ [bar]) tm fields total al in
  tm' = tm /\
  match call_fields l fr with
  | Some new => r = Right (max_alignment (fields ++ new), AlignPtr (slots_end (fields ++ new) 0) (max_alignment (fields ++ new)), fields ++ new)
  | None => IsLeft r = true
  end.
Proof.
  intros Hv. remember (length fr) as k eqn:Hk. revert fr Hk fields total al.
  induction (lt_wf k) as [k _ IH]. intros fr -> fields total al Hb Htot Hal.
  destruct fr as [|f fr1]; cbn [app defstruct_fields call_fields].
  { change (is_barrier bar) with true. cbn iota. subst. by rewrite app_nil_r. }
  inversion Hb as [|? ? Hf Hb1]; subst. rewrite Hf. destruct fr1 as [|t fr2]; cbn [app].
  { destruct (same_type (tv_type f) T_Field); [|done]. cbn [negb]. by change (is_barrier bar) with true. }
  inversion Hb1 as [|? ? Ht Hb2]; subst. rewrite Ht.
  destruct (same_type (tv_type f) T_Field); [|done]. cbn [negb orb andb].
  destruct (same_type (tv_type t) T_StrSpan); [|done]. cbn [negb]. rewrite (FindSchema_updated vault _ tm v Hv Hup), Hl.
  destruct (first_named (GetUnsafeStr t) l) as [s|] eqn:Es; [|done].
  specialize (IH (length fr2) ltac:(cbn; lia) fr2 eq_refl (fields ++ [(GetUnsafeStr f, s)]) _ _ Hb2 eq_refl eq_refl).
  rewrite slots_end_snoc, max_alignment_snoc in IH.
  2: { rewrite List.Forall_forall in Hnn. apply Hnn, list_elem_of_In. by apply (first_named_in (GetUnsafeStr t)). }
  destruct (defstruct_fields vault (fr2 ++ [bar]) tm _ _ _) as [r tm'].
  destruct IH as [-> IH]. split; [done|]. destruct (call_fields l fr2) as [new|]; [|done].
  cbn [option_map]. by rewrite <- app_assoc in IH.
Qed.
End Defstruct.

Lemma defstruct_handler_reads vault it : handler_reads vault (defstruct_handler vault it).
Proof.
  intros tm v Hv Hu. unfold defstruct_handler.
  assert (H : forall k it fields total al, length it = k ->
    snd (defstruct_fields vault it tm fields total al) = tm).
  { intros k. induction (lt_wf k) as [k _ IH]. intros it' fields total al <-.
    destruct it' as [|f it1]; cbn [defstruct_fields]; [done|].
    destruct (is_barrier f); [done|]. destruct (negb _); [done|]. destruct it1 as [|t it2]; [done|].
    destruct (_ || _); [done|]. rewrite (FindSchema_updated vault _ tm v Hv Hu).
    destruct (schemas_map_ v !! GetUnsafeStr t) as [s|]; [|done].
    apply (IH (length it2)); [cbn; lia|done]. }
  specialize (H _ it [] 0 0 eq_refl).
  destruct (defstruct_fields vault it tm [] 0 0) as [[msg|body] tm']; exact H.
Qed.

(** A schema objects can be laid out by: well-formed, and at every address
    aligned for it its fields are aligned, in order without overlap, and within
    its size. *)
Definition layout_ok (s : TypeSchema) : Prop :=
  wf_type s /\
  forall base, (schema_alignment s | base) -> 0 <= base -> base + room (schema_fields s) < 2 ^ 64 ->
    placed base (slots (schema_fields s) base) (base + schema_size s).

Lemma max_alignment_wf fields :
  wf_fields fields -> fields <> [] ->
  exists k, 0 <= k <= 3 /\ max_alignment fields = 2 ^ k /\
    Forall (fun nt => schema_alignment (snd nt) <= 2 ^ k) fields.
Proof.
  intros Hw Hne. induction Hw as [|[n t] fields Ht Hw IH]; [done|].
  destruct Ht as (k & Hk & Ha & _). cbn [snd] in Ha. pose proof (pow_le_8 k Hk).
  rewrite max_alignment_cons. destruct (decide (fields = [])) as [->|Hf].
  { exists k. rewrite Ha. split; [done|]. split; [cbn; lia|]. constructor; [cbn; lia|done]. }
  destruct (IH Hf) as (k' & Hk' & -> & Hall). rewrite Ha.
  exists (Z.max k k'). split; [lia|].
  assert (Hmono : forall a b, 0 <= a <= b -> 2 ^ a <= 2 ^ b) by (intros; apply Z.pow_le_mono_r; lia).
  destruct (Z.max_spec k k') as [[Hlt ->]|[Hlt ->]].
  - pose proof (Hmono k k' ltac:(lia)). split; [lia|]. constructor; [cbn; lia|done].
  - pose proof (Hmono k' k ltac:(lia)). split; [lia|]. constructor; [cbn; lia|].
    eapply Forall_impl; [|exact Hall]. cbn. intros. lia.
Qed.

(** A multiple of the greatest alignment is one of each. *)
Lemma alignments_divide fields k base :
  wf_fields fields -> 0 <= k -> Forall (fun nt => schema_alignment (snd nt) <= 2 ^ k) fields -> (2 ^ k | base) ->
  Forall (fun nt => (schema_alignment (snd nt) | base)) fields.
Proof.
  intros Hw Hk Hle Hb. unfold wf_fields in Hw. rewrite List.Forall_forall in Hw, Hle. apply List.Forall_forall.
  intros nt Hnt. destruct (Hw nt Hnt) as (j & Hj & Ha & _). specialize (Hle nt Hnt). cbn in Hle. rewrite Ha in *.
  assert (j <= k) by (apply (Z.pow_le_mono_r_iff 2); lia).
  apply (Z.divide_trans _ (2 ^ k)); [|done]. exists (2 ^ (k - j)). rewrite <- Z.pow_add_r by lia. f_equal. lia.
Qed.

(** The schema of a non-empty list of well-formed fields. *)
Lemma struct_layout_ok addr name fields :
  wf_fields fields -> fields <> [] -> room fields < 2 ^ 40 ->
  layout_ok (MkSchema addr name (max_alignment fields)
    (AlignPtr (slots_end fields 0) (max_alignment fields)) 0 fields).
Proof.
  intros Hw Hne Hroom. destruct (max_alignment_wf fields Hw Hne) as (k & Hk & Ha & Hmax).
  pose proof (pow_le_8 k Hk).
  assert (Hbig : 2 ^ 40 < 2 ^ 64) by (apply Z.pow_lt_mono_r; lia).
  pose proof (slots_placed fields 0 Hw ltac:(lia) ltac:(lia)) as Hpl.
  assert (Hend : 0 < slots_end fields 0 /\ slots_end fields 0 + 8 <= room fields).
  { assert (Hgen : forall l cur, wf_fields l -> 0 <= cur -> cur + room l < 2 ^ 64 ->
      cur <= slots_end l cur /\ (l <> [] -> cur < slots_end l cur) /\ slots_end l cur + 8 <= cur + room l).
    { clear. induction l as [|[n t] l IH]; intros cur Hw Hc Hr; cbn [slots_end].
      { split; [lia|]. split; [done|]. change (room []) with 8. lia. }
      inversion Hw as [|? ? Ht Hw']; subst. pose proof (room_pos _ Hw'). cbn [snd] in Ht.
      change (room ((n, t) :: l)) with (schema_size t + 8 + room l) in *.
      destruct (align_step t cur (room l) Ht Hc ltac:(done) Hr) as (_ & H2 & H3 & H4).
      pose proof (wf_size_pos t Ht). rewrite H3.
      destruct (IH (AlignPtr cur (schema_alignment t) + schema_size t) Hw' ltac:(lia) ltac:(lia)) as (? & _ & ?).
      split; [lia|]. split; [|lia]. intros _. lia. }
    destruct (Hgen fields 0 Hw ltac:(lia) ltac:(lia)) as (_ & H1 & H2). specialize (H1 Hne). lia. }
  destruct (align_bits_spec (slots_end fields 0) k ltac:(lia) ltac:(lia) ltac:(lia)) as [Hdiv Hle].
  unfold layout_ok. cbn [schema_fields schema_size schema_alignment]. unfold AlignPtr. rewrite Ha. split.
  - exists k. cbn [schema_alignment schema_size]. split; [done|]. split; [done|]. split; [lia|done].
  - intros base H8 Hb Hr.
    destruct (slots_shift fields base 0 Hw Hb ltac:(lia) ltac:(lia)) as [E1 E2].
    { apply (alignments_divide fields k); done || lia. }
    rewrite Z.add_0_r in E1, E2.
    pose proof (slots_placed fields base Hw Hb Hr) as Hp. rewrite E2 in Hp.
    assert (Hw2 : forall cur l e e', placed cur l e -> e <= e' -> placed cur l e').
    { clear. intros cur l. revert cur. induction l as [|[[n t] p] l IH]; intros cur e e'; cbn [placed]; [lia|].
      intros (? & ? & ?) ?. split; [done|]. split; [done|]. by apply (IH _ e). }
    apply (Hw2 _ _ _ _ Hp). lia.
Qed.
