(* ===== verification/Typing.v ===== *)
(** The types of arithmetic expressions: an expression of integers and the
    arithmetic functions has a static type, evaluates without an error, and
    to one value of that type. *)
From S2P Require Import Prelude Either StrBuild CLib Stream Lexer LexerSim Syntax Types Call MathFuncs Program Eval.
From S2P Require Import TypeVault Storage SlangEnv.
Local Open Scope Z_scope.

(** * Progress of the functions *)

Definition numeric (v : TypedValue) : Prop := is_barrier v = false /\ IsNumeric (tv_type v) = true.
Definition is_float (v : TypedValue) : bool := IsFloatingPoint (tv_type v).

Lemma GetArith_total {A} (f g : Z -> A) h v : numeric v -> is_Some (GetArith f g h v).
Proof.
  intros [_ Hn]. unfold GetArith, IsNumeric, IsIntegral in *.
  destruct (IsUnsignedInt _); [by eexists|]. destruct (IsSignedInt _); [by eexists|]. cbn in Hn. rewrite Hn. by eexists.
Qed.

Lemma fold_args_total {A} (get : TypedValue -> option A) op fr r :
  (forall v, numeric v -> is_Some (get v)) -> Forall numeric fr -> is_Some (fold_args get op (fr ++ [bar]) r).
Proof.
  intros Hget Hfr. revert r. induction Hfr as [|v fr [Hb Hn] _ IH]; intros r; [by eexists|]. cbn [app fold_args]. rewrite Hb.
  destruct (Hget v (conj Hb Hn)) as [x ->]. apply IH.
Qed.

Lemma sub_args_total {A} (get : TypedValue -> option A) op z fr :
  (forall v, numeric v -> is_Some (get v)) -> Forall numeric fr -> is_Some (sub_args get op z (fr ++ [bar])).
Proof.
  intros Hget Hfr. destruct Hfr as [|v fr [Hb Hn] Hfr]; [by eexists|]. cbn [app sub_args]. rewrite Hb.
  destruct (Hget v (conj Hb Hn)) as [x ->]. by apply fold_args_total.
Qed.

Lemma div_args_total fr : Forall numeric fr -> is_Some (div_args (fr ++ [bar])).
Proof.
  intros Hfr. destruct Hfr as [|v fr [Hb Hn] Hfr]; [by eexists|]. cbn [app div_args]. rewrite Hb.
  destruct (GetArith_total d_of_Z d_of_Z (fun d => d) v (conj Hb Hn)) as [x Hx]. unfold GetDouble at 1. rewrite Hx.
  destruct (IsEnd (fr ++ [bar])) as [[]|] eqn:E; [by eexists| |by destruct fr].
  destruct (fold_args_total GetDouble d_mul fr d_one (fun v => GetArith_total _ _ _ v) Hfr) as [y ->]. by eexists.
Qed.

Lemma CheckOperationType_numeric fr b :
  Forall numeric fr -> CheckOperationType (fr ++ [bar]) b = Some (if b || existsb is_float fr then Double else SignedInt).
Proof.
  intros Hfr. revert b. induction Hfr as [|v fr [Hb Hn] _ IH]; intros b; [by rewrite orb_false_r|].
  cbn [app CheckOperationType existsb]. rewrite Hb, Hn, IH. by rewrite orb_assoc.
Qed.

(** * Static types *)

Inductive NumType := NtInt64 | NtInt16 | NtDouble.

Definition schema_of (t : NumType) : TypeSchema := match t with NtInt64 => T_int64 | NtInt16 => T_int16 | NtDouble => T_double end.

Definition is_double (t : NumType) : bool := match t with NtDouble => true | _ => false end.

(** The result of a function, and whether an argument is floating-point. *)
Definition op_type (op : bytes) (float : bool) : option NumType :=
  if bool_decide (op = lit "/") then Some NtDouble
  else if bool_decide (op = lit "+") then Some (if float then NtDouble else NtInt64)
  else if bool_decide (op = lit "-") || bool_decide (op = lit "*") then Some (if float then NtDouble else NtInt16)
  else None.

Fixpoint type_of (e : sexp) : option NumType :=
  match e with
  | EInt _ => Some NtInt64
  | EStr _ | EName _ => None
  | ECall op es =>
      match (fix go (l : list sexp) : option bool :=
               match l with
               | [] => Some false
               | x :: l' => match type_of x, go l' with Some t, Some b => Some (is_double t || b) | _, _ => None end
               end) es with
      | Some float => op_type op float
      | None => None
      end
  end.

(** Whether some argument has a floating-point type. *)
Fixpoint types_of (l : list sexp) : option bool :=
  match l with
  | [] => Some false
  | x :: l' => match type_of x, types_of l' with Some t, Some b => Some (is_double t || b) | _, _ => None end
  end.

Lemma type_of_call op es : type_of (ECall op es) = match types_of es with Some float => op_type op float | None => None end.
Proof. done. Qed.

Section Soundness.
  Context {W : Type}.

Definition typed (v : TypedValue) (t : NumType) : Prop := tv_type v = schema_of t.

Lemma typed_numeric v t : typed v t -> numeric v /\ is_float v = is_double t.
Proof. unfold typed, numeric, is_float, is_barrier. intros ->. by destruct t. Qed.

(** A function called on numbers gives one value of its result type and
    changes nothing. *)
Definition result_is (f : Call W) (fr : list TypedValue) (t : NumType) : Prop :=
  forall err w, exists v, typed v t /\
    f (MkCtx (fr ++ [bar]) [] err w) = Some (true, MkCtx (fr ++ [bar]) [v] err w).

Lemma add_output_one t (v : option Value) (ctx : CallContext W) :
  is_Some v -> exists x, tv_type x = GetBasicType t /\ add_output t v ctx = Some (true, AddTyped x ctx).
Proof. intros [x ->]. by exists (MkTyped (GetBasicType t) x). Qed.

Lemma is_Some_map {A B} (f : A -> B) x : is_Some x -> is_Some (option_map f x).
Proof. intros [y ->]. by eexists. Qed.

(** The four functions. *)
Lemma math_results fr :
  Forall numeric fr ->
  let d := existsb is_float fr in
  result_is math_add fr (if d then NtDouble else NtInt64) /\ result_is math_sub fr (if d then NtDouble else NtInt16) /\
  result_is math_mul fr (if d then NtDouble else NtInt16) /\ result_is math_div fr NtDouble.
Proof.
  intros Hfr d. pose proof (fun A f g (h : double -> A) v => GetArith_total f g h v) as Hget.
  assert (Hcall : forall (fd fi : Iterator -> option Value) ti,
    is_Some (fd (fr ++ [bar])) -> is_Some (fi (fr ++ [bar])) ->
    forall t, schema_of t = (if d then T_double else GetBasicType ti) ->
    result_is (math_call (fun ctx => add_output TDouble (fd (args ctx)) ctx) (fun ctx => add_output ti (fi (args ctx)) ctx)) fr t).
  { intros fd fi ti Hfd Hfi t Ht err w. unfold math_call. cbn [args]. rewrite CheckOperationType_numeric by done. fold d. cbn [orb].
    destruct d.
    - destruct (add_output_one TDouble (fd (fr ++ [bar])) (MkCtx (fr ++ [bar]) [] err w) Hfd) as (x & Hx & ->).
      exists x. split; [by unfold typed; rewrite Ht|done].
    - destruct (add_output_one ti (fi (fr ++ [bar])) (MkCtx (fr ++ [bar]) [] err w) Hfi) as (x & Hx & ->).
      exists x. split; [by unfold typed; rewrite Ht|done]. }
  split; [|split; [|split]].
  - apply (Hcall (fun it => option_map VDbl (sum GetDouble d_add d_zero it)) (fun it => option_map VI64 (sum GetI64 add_i64 0 it)) TInt64);
      [..|by destruct d]; apply is_Some_map, fold_args_total; done || apply Hget.
  - apply (Hcall (fun it => option_map VDbl (sub_args GetDouble d_sub d_zero it)) (fun it => option_map VI64 (sub_args GetI16 sub_i16 0 it)) TInt16);
      [..|by destruct d]; apply is_Some_map, sub_args_total; done || apply Hget.
  - apply (Hcall (fun it => option_map VDbl (mul_args GetDouble d_mul d_one it)) (fun it => option_map VI64 (mul_args GetI16 mul_i16 1 it)) TInt16);
      [..|by destruct d]; apply is_Some_map, fold_args_total; done || apply Hget.
  - apply (Hcall (fun it => option_map VDbl (div_args it)) (fun it => option_map VDbl (div_args it)) TDouble);
      [..|by destruct d]; by apply is_Some_map, div_args_total.
Qed.

(** An environment with the arithmetic functions. *)
Definition has_math (env : Env W) : Prop :=
  FindCall env (lit "+") = Some math_add /\ FindCall env (lit "-") = Some math_sub /\
  FindCall env (lit "*") = Some math_mul /\ FindCall env (lit "/") = Some math_div.

Lemma op_result env op float t :
  has_math env -> op_type op float = Some t ->
  exists f, FindCall env op = Some f /\ forall fr, Forall numeric fr -> existsb is_float fr = float -> result_is f fr t.
Proof.
  intros (Hadd & Hsub & Hmul & Hdiv). unfold op_type.
  destruct (bool_decide_reflect (op = lit "/")) as [->|]; [|destruct (bool_decide_reflect (op = lit "+")) as [->|];
    [|destruct (bool_decide_reflect (op = lit "-")) as [->|]; cbn [orb]; [|destruct (bool_decide_reflect (op = lit "*")) as [->|]; [|done]]]];
    intros [= <-]; (eexists; split; [eassumption|]); intros fr Hfr <-; by apply math_results.
Qed.

(** Arguments give the values of the frame, in order. *)
Lemma args_typed env es float a :
  Forall (fun e => forall t a, type_of e = Some t -> exists r a', resolve env e a = Some (r, a') /\
    forall err (w : W), exists v, typed v t /\ eval r err w = Some (Values [v] err w)) es ->
  types_of es = Some float ->
  exists rs a', resolve_list env es a = Some (rs, a') /\
    forall err w, exists fr, eval_args rs err w = Some (Values fr err w) /\ Forall numeric fr /\ existsb is_float (rev fr) = float.
Proof.
  intros Hes. revert float a. induction Hes as [|e es He _ IH]; intros float a; cbn [types_of resolve_list].
  - intros [= <-]. exists [], a. split; [done|]. intros err w. by exists [].
  - destruct (type_of e) as [t|] eqn:Et; [|done]. destruct (types_of es) as [b|]; [|done]. intros [= <-].
    destruct (He t a eq_refl) as (r & a1 & Hr & Hv). destruct (IH b a1 eq_refl) as (rs & a2 & Hrs & Ha).
    rewrite Hr, Hrs. exists (r :: rs), a2. split; [done|]. intros err w. destruct (Ha err w) as (fr & Ea & Hn & Hf).
    destruct (Hv err w) as (v & Ht & Ev). destruct (typed_numeric v t Ht) as [Hvn Hvf].
    exists (fr ++ [v]). cbn [eval_args]. rewrite Ea. cbn [bind]. rewrite Ev. split; [done|].
    split; [apply Forall_app; split; [done|by constructor]|]. rewrite rev_app_distr. cbn. by rewrite Hf, Hvf.
Qed.

Lemma arith_eval env e t a :
  has_math env -> type_of e = Some t ->
  exists r a', resolve env e a = Some (r, a') /\
    forall err (w : W), exists v, typed v t /\ eval r err w = Some (Values [v] err w).
Proof.
  intros Hm. revert t a. induction e as [z|s|s|op es IH] using sexp_ind'; intros t a; [|done|done|].
  - intros [= <-]. eexists _, _. split; [reflexivity|]. intros err w. eexists. split; [|reflexivity]. done.
  - rewrite type_of_call, resolve_call. destruct (types_of es) as [float|] eqn:Es; [|done]. intros Hop.
    destruct (op_result env op float t Hm Hop) as (f & -> & Hres). destruct (args_typed env es float a IH Es) as (rs & a' & -> & Ha).
    eexists _, _. split; [reflexivity|]. intros err w. rewrite eval_call.
    destruct (Ha err w) as (fr & -> & Hn & Hfl). cbn [bind].
    assert (Hrev : Forall numeric (rev fr)) by (rewrite List.Forall_forall in *; intros v Hv; apply Hn; by apply in_rev).
    destruct (Hres (rev fr) Hrev Hfl err w) as (v & Ht & ->). by exists v.
Qed.
End Soundness.

(** The database environment has them. *)
Lemma database_has_math json : has_math (CreateSlangEnv json).
Proof. unfold has_math, FindCall, CreateSlangEnv, RegisterMathFunctions. cbn [functions_]. by split_and!; simplify_map_eq. Qed.

(** * Properties *)

(** C7. Arithmetic is type-safe: an expression of integers and the four
    functions, nested in any way, whose static type is [t] -- a double behind
    a division, else an integer of 64 bits or, from a difference or a product,
    of 16 -- compiles, evaluates in every state without an error, to exactly
    one value, of type [t], and changes nothing. *)
Theorem arithmetic_is_type_safe json e t a :
  type_of e = Some t ->
  exists r a', resolve (CreateSlangEnv json) e a = Some (r, a') /\
    forall err w, exists v, tv_type v = schema_of t /\ eval r err w = Some (Values [v] err w).
Proof. intros He. apply (arith_eval (CreateSlangEnv json) e t a (database_has_math json) He). Qed.

(** [( - (+ 1 2) ( * 3 (/ 4 5)))]. *)
Definition typed_demo : sexp :=
  ECall (lit "-") [ECall (lit "+") [EInt 1; EInt 2]; ECall (lit "*") [EInt 3; ECall (lit "/") [EInt 4; EInt 5]]].

Lemma arithmetic_is_type_safe_witness :
  type_of typed_demo = Some NtDouble /\ type_of (ECall (lit "-") [EInt 5]) = Some NtInt16 /\
  forall json err w, exists r a' v, resolve (CreateSlangEnv json) typed_demo (fun _ => 0) = Some (r, a') /\
    tv_type v = T_double /\ eval r err w = Some (Values [v] err w).
Proof.
  split; [reflexivity|]. split; [reflexivity|]. intros json err w.
  destruct (arithmetic_is_type_safe json typed_demo NtDouble (fun _ => 0) eq_refl) as (r & a' & Hr & He).
  destruct (He err w) as (v & Ht & Ev). exists r, a', v. split; [exact Hr|]. split; [exact Ht|exact Ev].
Defined.
