(* ===== verification/World.v ===== *)
(** The invariant of the database state, and what its functions do to it.

    [storage_ok] is the storage's own consistency (guids, index), [world_ok]
    adds the type registry and that objects only have registered types.  Every
    function of the environment keeps it, so [Eval] applies to the whole
    language. *)
From S2P Require Import Prelude Either StrBuild CLib Types Call MathFuncs TypeVault Storage Layout.
From S2P Require Import Program Eval Contract SlangEnv.
Local Open Scope Z_scope.

(** * Storage *)

Definition vault_objs_ok (last : Z) (v : ObjectVault) : Prop :=
  Forall (fun o => 0 < guid_ o <= last) (store_ v) /\
  (forall g o, object_id_index_ v !! g = Some o <-> o ∈ store_ v /\ guid_ o = g).

Definition storage_ok (s : Storage) : Prop :=
  0 <= last_guid_ s /\
  map_Forall (fun _ v => vault_objs_ok (last_guid_ s) v) (objects_ s) /\
  forall n1 v1 n2 v2 o1 o2,
    objects_ s !! n1 = Some v1 -> objects_ s !! n2 = Some v2 ->
    o1 ∈ store_ v1 -> o2 ∈ store_ v2 -> guid_ o1 = guid_ o2 -> n1 = n2 /\ o1 = o2.

Lemma StorageNew_ok heap : storage_ok (StorageNew heap).
Proof.
  split; [done|]. split; [apply map_Forall_empty|]. intros n1 v1 n2 v2 o1 o2 H. cbn in H. by rewrite lookup_empty in H.
Qed.

Lemma EnsureVault_storage vault tm n s :
  storage_ok s -> storage_ok (snd (EnsureVaultWithType vault tm n s)).
Proof.
  intros (Hl & Hv & Hg). unfold EnsureVaultWithType.
  destruct (objects_ s !! n) as [v|] eqn:E; [done|].
  destruct (FindSchema vault n tm) as [[schema|] tm'] eqn:Ef; [|done].
  destruct (IsBasic schema); [done|]. cbn.
  assert (Hnew : forall m u o, <[schema_name schema := ObjectVaultNew schema]> (objects_ s) !! m = Some u ->
    o ∈ store_ u -> objects_ s !! m = Some u).
  { intros m u o. rewrite lookup_insert_Some. intros [[<- <-]|[_ ?]] Ho; [by apply elem_of_nil in Ho|done]. }
  split; [done|]. split.
  - apply map_Forall_insert_2; [|done]. split; [constructor|]. intros g o. cbn.
    rewrite lookup_empty, elem_of_nil. naive_solver.
  - intros n1 v1 n2 v2 o1 o2 H1 H2 Ho1 Ho2. apply (Hg n1 v1 n2 v2); eauto.
Qed.

Lemma VaultCreateObject_ok last data v :
  0 <= last -> last + 1 < 2 ^ 64 -> vault_objs_ok last v ->
  vault_objs_ok (last + 1) (snd (VaultCreateObject v last data)).
Proof.
  intros Hl Hm [Hf Hi]. assert (Hu : u64 (last + 1) = last + 1) by (apply wrap_u_id; split; lia).
  unfold VaultCreateObject. cbn. rewrite Hu. split.
  - apply Forall_app; split; [|constructor; [cbn; lia|done]].
    eapply Forall_impl; [|exact Hf]. cbn. lia.
  - intros g o. cbn. rewrite lookup_insert_Some, elem_of_app, list_elem_of_singleton, Hi.
    rewrite List.Forall_forall in Hf. split.
    + intros [[<- <-]|[_ [? ?]]]; [split; [by right|done]|split; [by left|done]].
    + intros [[Ho| ->] Hgo]; [|left; done]. right. split; [|done].
      assert (Hin : In o (store_ v)) by (by apply list_elem_of_In). specialize (Hf o Hin). lia.
Qed.

Lemma CreateObject_storage n s :
  storage_ok s -> last_guid_ s + 1 < 2 ^ 64 -> storage_ok (snd (CreateObject n s)).
Proof.
  intros (Hl & Hv & Hg) Hm. unfold CreateObject. destruct (objects_ s !! n) as [v|] eqn:E; [|done].
  assert (Hu : u64 (last_guid_ s + 1) = last_guid_ s + 1) by (apply wrap_u_id; split; lia).
  pose proof (map_Forall_lookup_1 _ _ _ _ Hv E) as Hvv.
  pose proof (VaultCreateObject_ok (last_guid_ s) (heap_ s 0%nat) v Hl Hm Hvv) as Hv'.
  unfold VaultCreateObject in *. cbn in *. rewrite Hu in *.
  assert (Hold : forall m u o, objects_ s !! m = Some u -> o ∈ store_ u -> guid_ o <= last_guid_ s).
  { intros m u o Hmu Ho. destruct (map_Forall_lookup_1 _ _ _ _ Hv Hmu) as [Hf _].
    rewrite List.Forall_forall in Hf. apply Hf. by apply list_elem_of_In. }
  split; [cbn; lia|]. split; cbn.
  - apply map_Forall_insert_2; [done|]. intros m u Hmu. destruct (map_Forall_lookup_1 _ _ _ _ Hv Hmu) as [Hf Hi].
    split; [|done]. eapply Forall_impl; [|exact Hf]. cbn. lia.
  - intros n1 v1 n2 v2 o1 o2. rewrite !lookup_insert_Some.
    intros [[<- <-]|[Hn1 H1]] [[<- <-]|[Hn2 H2]]; cbn; rewrite ?elem_of_app, ?list_elem_of_singleton.
    + intros [Ho1| ->] [Ho2| ->] Heq; [by apply (Hg n v n v)| | |done]; exfalso; cbn in Heq.
      * pose proof (Hold n v o1 E Ho1). lia.
      * pose proof (Hold n v o2 E Ho2). lia.
    + intros [Ho1| ->] Ho2 Heq; [by apply (Hg n v n2 v2)|exfalso]; cbn in Heq.
      pose proof (Hold n2 v2 o2 H2 Ho2). lia.
    + intros Ho1 [Ho2| ->] Heq; [by apply (Hg n1 v1 n v)|exfalso]; cbn in Heq.
      pose proof (Hold n1 v1 o1 H1 Ho1). lia.
    + by apply (Hg n1 v1 n2 v2).
Qed.

(** Storage steps, fewer than [2^64] objects. *)
Inductive storage_step : Storage -> Storage -> Prop :=
| step_ensure vault tm n s : storage_step s (snd (EnsureVaultWithType vault tm n s))
| step_object n s : last_guid_ s + 1 < 2 ^ 64 -> storage_step s (snd (CreateObject n s)).

Lemma storage_steps_ok s s' : rtc storage_step s s' -> storage_ok s -> storage_ok s'.
Proof.
  induction 1 as [s|s s1 s2 Hs _ IH]; intros Hok; [done|]. apply IH.
  destruct Hs; [by apply EnsureVault_storage|by apply CreateObject_storage].
Qed.

(** * Locality of the database functions *)

Section Local.
  Implicit Types ctx : CallContext World.

Definition strip (r : option (bool * CallContext World)) : option (bool * CallContext World) :=
  option_map (fun r => (fst r, with_args [] (snd r))) r.

Lemma create_fields_args tn obj sch it ctx :
  strip (create_fields tn obj sch it ctx) = create_fields tn obj sch it (with_args [] ctx).
Proof.
  remember (length it) as k eqn:Hk. revert it ctx Hk. induction (lt_wf k) as [k _ IH]. intros it ctx ->.
  destruct it as [|f it1]; cbn [create_fields]; [done|]. destruct (is_barrier f); [done|].
  destruct (GetField f) as [fname|]; [|done]. destruct it1 as [|v it2]; [done|].
  destruct (is_barrier v); [done|]. cbn [user_data with_args].
  destruct (WriteTyped obj sch fname (tv_type v) (tv_value v) (mem (user_data ctx))) as [[e|u] m']; [done|].
  apply (IH (length it2)); [cbn; lia|done].
Qed.

Lemma create_fields_local tn obj sch fr barrier below ctx :
  no_barrier fr -> is_barrier barrier = true ->
  create_fields tn obj sch (fr ++ barrier :: below) ctx = create_fields tn obj sch (fr ++ [barrier]) ctx.
Proof.
  intros Hf Hb. remember (length fr) as k eqn:Hk. revert fr ctx Hk Hf.
  induction (lt_wf k) as [k _ IH]. intros fr ctx -> Hf.
  inversion Hf as [|f fr1 Hf1 Hfr1]; subst; cbn [app create_fields]; [by rewrite Hb|].
  rewrite Hf1. destruct (GetField f) as [fname|]; [|done].
  inversion Hfr1 as [|v fr2 Hv Hfr2]; subst; cbn [app]; [by rewrite Hb|]. rewrite Hv.
  destruct (WriteTyped _ _ _ _ _ _) as [[e|u] m']; [done|].
  apply (IH (length fr2)); [cbn; lia|done|done].
Qed.

Lemma create_local : call_local create.
Proof.
  intros fr barrier below out err w Hf Hb. fold (strip (create (MkCtx (fr ++ barrier :: below) out err w))).
  fold (strip (create (MkCtx (fr ++ [barrier]) out err w))).
  inversion Hf as [|a fr1 Ha Hfr1]; subst; unfold create; cbn [args app user_data]; [by rewrite Hb|].
  rewrite Ha. destruct (GetStr a) as [tn|]; [|done].
  destruct (EnsureVaultWithType _ _ _ _) as [[v tm] s1].
  destruct (CreateObject tn s1) as [[e|[obj sch]] s2]; [done|].
  by rewrite !create_fields_args, create_fields_local by done.
Qed.

Lemma fold_AddTyped_args (found : list (Object * TypeSchema)) ctx :
  with_args [] (fold_left (fun c os => AddTyped (MkTyped (snd os) (VPtr (data_ (fst os)))) c) found ctx) =
  fold_left (fun c os => AddTyped (MkTyped (snd os) (VPtr (data_ (fst os)))) c) found (with_args [] ctx).
Proof. revert ctx. induction found as [|os found IH]; intros ctx; [done|]. cbn [fold_left]. apply IH. Qed.

Lemma select_local : call_local select.
Proof.
  intros fr barrier below out err w Hf Hb.
  inversion Hf as [|a fr1 Ha Hfr1]; subst; unfold select; cbn [args app user_data]; [by rewrite Hb|].
  rewrite Ha. cbn [orb]. destruct (negb _); [done|]. cbn [option_map fst snd]. by rewrite !fold_AddTyped_args.
Qed.

Lemma list_local : call_local list_.
Proof.
  intros fr barrier below out err w Hf Hb. unfold list_. cbn [args].
  assert (Ha : forall it ctx, strip (list_args it ctx) = list_args it (with_args [] ctx)).
  { induction it as [|a it IH]; intros ctx; cbn [list_args]; [done|]. by destruct (is_barrier a). }
  assert (Hl : forall ctx, list_args (fr ++ barrier :: below) ctx = list_args (fr ++ [barrier]) ctx).
  { clear out err w. induction Hf as [|a fr Hfa _ IH]; intros ctx; cbn; [by rewrite Hb|].
    rewrite Hfa. apply IH. }
  fold (strip (list_args (fr ++ barrier :: below) (MkCtx (fr ++ barrier :: below) out err w))).
  fold (strip (list_args (fr ++ [barrier]) (MkCtx (fr ++ [barrier]) out err w))).
  by rewrite !Ha, Hl.
Qed.

Lemma count_fields_local fr barrier below n m :
  no_barrier fr -> is_barrier barrier = true ->
  count_fields (fr ++ barrier :: below) n m = count_fields (fr ++ [barrier]) n m.
Proof.
  intros Hf Hb. revert n m. induction Hf as [|a fr Ha _ IH]; intros n m; cbn; [by rewrite Hb|].
  rewrite Ha. destruct (same_type _ _); apply IH.
Qed.

Lemma defstruct_fields_local vault fr barrier below tm fields total al :
  no_barrier fr -> is_barrier barrier = true ->
  defstruct_fields vault (fr ++ barrier :: below) tm fields total al =
  defstruct_fields vault (fr ++ [barrier]) tm fields total al.
Proof.
  intros Hf Hb. remember (length fr) as k eqn:Hk. revert fr tm fields total al Hk Hf.
  induction (lt_wf k) as [k _ IH]. intros fr tm fields total al -> Hf.
  inversion Hf as [|f fr1 Hf1 Hfr1]; subst; cbn [app defstruct_fields]; [by rewrite Hb|].
  rewrite Hf1. destruct (negb _); [done|].
  inversion Hfr1 as [|t fr2 Ht Hfr2]; subst; cbn [app]; [by rewrite Hb|]. rewrite Ht. cbn [orb].
  destruct (negb _); [done|]. destruct (FindSchema _ _ _) as [[s|] tm']; [|done].
  apply (IH (length fr2)); [cbn; lia|done|done].
Qed.

Lemma CreateSchema_ext {A} i n (h1 h2 : TypeManager -> option SchemaBody * TypeManager * A) tm :
  (forall tm, h1 tm = h2 tm) -> CreateSchema i n h1 tm = CreateSchema i n h2 tm.
Proof.
  intros He. unfold CreateSchema. destruct (vaults_ tm !! i); [|done].
  destruct (FindSchema _ _ _) as [[s|] tm2]; [done|]. by rewrite He.
Qed.

Lemma defstruct_local : call_local defstruct.
Proof.
  intros fr barrier below out err w Hf Hb.
  inversion Hf as [|a fr1 Ha Hfr1]; subst; unfold defstruct; cbn [args app user_data]; [by rewrite Hb|].
  rewrite Ha. cbn [orb]. destruct (negb _); [done|].
  destruct (HasType _ _ _) as [[] tm1]; [done|]. rewrite count_fields_local by done.
  destruct (count_fields _ _ _) as [nfields|]; [|done].
  rewrite (CreateSchema_ext _ _ (defstruct_handler (vault w) (fr1 ++ barrier :: below))
    (defstruct_handler (vault w) (fr1 ++ [barrier]))).
  - by destruct (CreateSchema _ _ _ _) as [[[s|] tm2] msg].
  - intros tm. unfold defstruct_handler. by rewrite defstruct_fields_local.
Qed.
End Local.

(** * The state invariant *)

(** The types [main] registers. *)
(** source/main/main.cc:276-287 [XYEntrypoint] *)
Definition initial_types : list TypeSchema :=
  [T_double; T_float; T_int8; T_int16; T_int32; T_int64; T_uint8; T_uint16; T_uint32; T_uint64].

Lemma initial_type_wf t : t ∈ initial_types -> wf_type t /\ IsBasic t = true.
Proof.
  intros Ht%list_elem_of_In.
  assert (G : forall k, 0 <= k <= 3 -> schema_alignment t = 2 ^ k -> schema_size t = 2 ^ k -> wf_type t).
  { intros k Hk H1 H2. exists k. split; [done|]. split; [done|]. rewrite H2. split; [|apply Z.divide_refl].
    pose proof (pow_le_8 k Hk). lia. }
  assert (K : forall k, 0 <= k <= 3 -> schema_alignment t = 2 ^ k -> schema_size t = 2 ^ k -> IsBasic t = true ->
    wf_type t /\ IsBasic t = true) by (intros; split; eauto).
  repeat (destruct Ht as [<-|Ht];
    [first [by apply (K 0)|by apply (K 1)|by apply (K 2)|by apply (K 3)]|]). done.
Qed.

(** A schema is one of the initial types, or a struct whose alignment and size
    are those of its fields laid out in order, whose types are registered. *)
Definition laid_out (l : list TypeSchema) (s : TypeSchema) : Prop :=
  schema_alignment s = max_alignment (schema_fields s) /\
  schema_size s = AlignPtr (slots_end (schema_fields s) 0) (schema_alignment s) /\
  Forall (fun nt => snd nt ∈ l) (schema_fields s).

Definition schema_ok (l : list TypeSchema) (s : TypeSchema) : Prop :=
  0 <= schema_alignment s /\ (s ∈ initial_types \/ (IsBasic s = false /\ laid_out l s)).

Lemma max_alignment_nonneg fields : 0 <= max_alignment fields.
Proof.
  induction fields as [|[n t] fields IH]; [done|].
  change (max_alignment ((n, t) :: fields)) with (Z.max (max_alignment fields) (schema_alignment t)). lia.
Qed.

Lemma schema_ok_mono l l' s : l ⊆ l' -> schema_ok l s -> schema_ok l' s.
Proof.
  intros Hl [H0 H]. split; [done|]. destruct H as [H|(H0' & H1 & H2 & H3)]; [by left|right].
  split; [done|]. split; [done|]. split; [done|]. eapply Forall_impl; [|exact H3]. cbn. intros nt. apply Hl.
Qed.

Record world_ok (w : World) : Prop := {
  wo_types : types_ok (types w);
  wo_vault : (vault w < length (vaults_ (types w)))%nat;
  wo_addrs : Forall (fun s => schema_addr s <> schema_addr T_FrameBarrier) (types_list_ (types w));
  wo_alloc : forall n, allocator_ (types w) n <> schema_addr T_FrameBarrier;
  wo_storage : forall n v, objects_ (storage w) !! n = Some v -> schema_ v ∈ types_list_ (types w);
  wo_layout : Forall (schema_ok (types_list_ (types w))) (types_list_ (types w))
}.

Lemma registered_not_barrier l s v :
  Forall (fun s => schema_addr s <> schema_addr T_FrameBarrier) l -> s ∈ l -> is_barrier (MkTyped s v) = false.
Proof.
  intros Hl Hs. rewrite List.Forall_forall in Hl. apply Z.eqb_neq. apply Hl. by apply list_elem_of_In.
Qed.

Lemma EnsureVault_world tn w :
  world_ok w ->
  let '(_, tm, s) := EnsureVaultWithType (vault w) (types w) tn (storage w) in
  world_ok (with_storage s (with_types tm w)).
Proof.
  intros [H1 H2 H3 H4 H5 H6]. unfold EnsureVaultWithType.
  destruct (objects_ (storage w) !! tn) as [v|] eqn:E; [by split|].
  destruct (FindSchema_ok (vault w) tn (types w) H1 H2) as (Hf & G1 & G2 & G3 & G4).
  destruct (FindSchema (vault w) tn (types w)) as [r tm]. cbn [fst snd] in *. subst r.
  assert (Hsame : world_ok (with_storage (storage w) (with_types tm w))).
  { split; cbn; rewrite ?G2, ?G3, ?G4; done. }
  destruct (first_named tn _) as [sch|] eqn:Es; [|done]. destruct (IsBasic sch); [done|].
  destruct Hsame. split; cbn; try done. intros n v. rewrite lookup_insert_Some.
  intros [[<- <-]|[_ Hn]]; cbn; rewrite G2; [by apply (first_named_in tn)|by apply (H5 n)].
Qed.

Lemma CreateObject_world tn w :
  world_ok w ->
  world_ok (with_storage (snd (CreateObject tn (storage w))) w) /\
  forall obj sch, fst (CreateObject tn (storage w)) = Right (obj, sch) -> sch ∈ types_list_ (types w).
Proof.
  intros [H1 H2 H3 H4 H5 H6]. unfold CreateObject.
  destruct (objects_ (storage w) !! tn) as [v|] eqn:E; [|split; [by split|done]].
  cbn. split; [|by intros ? ? [= _ <-]; apply (H5 tn)]. split; cbn; try done.
  intros n u. rewrite lookup_insert_Some. intros [[<- <-]|[_ Hn]]; [by apply (H5 tn v)|by apply (H5 n)].
Qed.

Lemma create_fields_world tn obj sch it ctx b ctx' :
  create_fields tn obj sch it ctx = Some (b, ctx') -> world_ok (user_data ctx) ->
  sch ∈ types_list_ (types (user_data ctx)) -> output ctx = [] ->
  world_ok (user_data ctx') /\ no_barrier (output ctx').
Proof.
  remember (length it) as k eqn:Hk. revert it ctx Hk. induction (lt_wf k) as [k _ IH]. intros it ctx ->.
  intros E Hw Hs Ho. destruct it as [|f it1]; cbn [create_fields] in E; [done|].
  destruct (is_barrier f).
  { injection E as <- <-. cbn. rewrite Ho. split; [done|]. constructor; [|done].
    by apply (registered_not_barrier (types_list_ (types (user_data ctx)))); [apply wo_addrs|]. }
  destruct (GetField f) as [fname|]; [|injection E as <- <-; cbn; rewrite Ho; split; [done|constructor]].
  destruct it1 as [|v it2]; [done|].
  destruct (is_barrier v); [injection E as <- <-; cbn; rewrite Ho; split; [done|constructor]|].
  destruct (WriteTyped _ _ _ _ _ _) as [r m'].
  assert (Hw' : world_ok (with_mem m' (user_data ctx))) by by destruct Hw; split.
  destruct r as [e|u]; [injection E as <- <-; cbn; rewrite Ho; split; [done|constructor]|].
  apply (IH (length it2) ltac:(cbn; lia) it2 _ eq_refl E); done.
Qed.

Lemma create_ok : call_ok world_ok create.
Proof.
  split; [apply create_local|]. intros fr err w b ctx Hf Hw E. unfold create in E. cbn [args user_data] in E.
  destruct (fr ++ [bar]) as [|a it]; [done|].
  destruct (is_barrier a); [injection E as <- <-; split; [done|constructor]|].
  destruct (GetStr a) as [tn|]; [|injection E as <- <-; split; [done|constructor]].
  pose proof (EnsureVault_world tn w Hw) as Hw1.
  destruct (EnsureVaultWithType (vault w) (types w) tn (storage w)) as [[v tm] s1].
  destruct (CreateObject_world tn _ Hw1) as [Hw2 Hs]. cbn [storage with_storage] in Hw2, Hs.
  destruct (CreateObject tn s1) as [[e|[obj sch]] s2].
  - injection E as <- <-. split; [exact Hw2|constructor].
  - eapply create_fields_world; [exact E|exact Hw2|by apply (Hs obj)|done].
Qed.

Lemma fold_AddTyped_output (found : list (Object * TypeSchema)) (ctx : CallContext World) :
  let c := fold_left (fun c os => AddTyped (MkTyped (snd os) (VPtr (data_ (fst os)))) c) found ctx in
  output c = output ctx ++ map (fun os => MkTyped (snd os) (VPtr (data_ (fst os)))) found /\
  user_data c = user_data ctx /\ error_text c = error_text ctx.
Proof.
  revert ctx. induction found as [|os found IH]; intros ctx; cbn [fold_left map]; [by rewrite app_nil_r|].
  destruct (IH (AddTyped (MkTyped (snd os) (VPtr (data_ (fst os)))) ctx)) as (-> & -> & ->).
  cbn. by rewrite <- app_assoc.
Qed.

Lemma select_ok : call_ok world_ok select.
Proof.
  split; [apply select_local|]. intros fr err w b ctx Hf Hw E. unfold select in E. cbn [args user_data] in E.
  destruct (fr ++ [bar]) as [|a it]; [done|].
  destruct (_ || _); [injection E as <- <-; split; [done|constructor]|].
  injection E as <- <-. edestruct fold_AddTyped_output as (-> & -> & _). cbn. split; [done|].
  unfold Enumerate, FindVaultWithType.
  destruct (objects_ (storage w) !! GetUnsafeStr a) as [v|] eqn:Ev; cbn; [|constructor].
  apply Forall_map, Forall_map. cbn. apply List.Forall_forall. intros o _.
  apply (registered_not_barrier (types_list_ (types w))); [by apply wo_addrs|].
  by apply (wo_storage w Hw (GetUnsafeStr a)).
Qed.

Lemma list_args_spec fr barrier below (ctx : CallContext World) :
  no_barrier fr -> is_barrier barrier = true ->
  list_args (fr ++ barrier :: below) ctx =
    Some (true, MkCtx (args ctx) (output ctx ++ fr) (error_text ctx) (user_data ctx)).
Proof.
  intros Hf Hb. revert ctx. induction Hf as [|a fr Ha _ IH]; intros ctx; cbn [app list_args].
  - rewrite Hb, app_nil_r. by destruct ctx.
  - rewrite Ha, IH. cbn. by rewrite <- app_assoc.
Qed.

Lemma list_ok : call_ok world_ok list_.
Proof.
  split; [apply list_local|]. intros fr err w b ctx Hf Hw. unfold list_. cbn [args].
  rewrite list_args_spec by done. by intros [= _ <-].
Qed.

(** Reference for a whole call of [defstruct]: a free name and the fields, if
    the call is one that succeeds. *)
Definition call_struct (l : list TypeSchema) (fr : Iterator) : option (bytes * Fields) :=
  match fr with
  | [] => None
  | a :: fr1 =>
      if same_type (tv_type a) T_StrSpan then
        match first_named (GetUnsafeStr a) l with
        | None => option_map (pair (GetUnsafeStr a)) (call_fields l fr1)
        | Some _ => None
        end
      else None
  end.

(** The schema of a struct: its alignment is the greatest of its fields', its
    size that of the fields laid out in order, filled up to the alignment. *)
Definition struct_schema (addr : Z) (name : bytes) (fields : Fields) : TypeSchema :=
  MkSchema addr name (max_alignment fields) (AlignPtr (slots_end fields 0) (max_alignment fields)) 0 fields.

Lemma vault_after_find w n :
  world_ok w ->
  let tm1 := snd (FindSchema (vault w) n (types w)) in
  exists v, vaults_ tm1 !! vault w = Some v /\ current_ v = length (types_list_ tm1).
Proof.
  intros Hw tm1. destruct (lookup_lt_is_Some_2 _ _ (wo_vault w Hw)) as [v Hv].
  destruct (FindSchema_ok (vault w) n (types w) (wo_types w Hw) (wo_vault w Hw)) as (_ & Hok & _ & Hlen & _).
  fold tm1 in Hok, Hlen. assert (Hlt : (vault w < length (vaults_ tm1))%nat) by (rewrite Hlen; apply Hw).
  destruct (lookup_lt_is_Some_2 _ _ Hlt) as [v1 Hv1]. exists v1. split; [done|].
  destruct (Forall_lookup_1 _ _ _ _ Hok Hv1) as (_ & Hu & _). apply Hu.
  unfold tm1, FindSchema in Hv1. rewrite Hv in Hv1. destruct (VaultFind _ v n) as [r v'] eqn:E.
  cbn in Hv1. rewrite list_lookup_insert_eq in Hv1 by apply Hw. injection Hv1 as <-.
  unfold VaultFind in E. injection E as _ <-. by destruct (updated_ v) eqn:?.
Qed.

Lemma defstruct_handler_spec w tm1 v fr :
  types_ok tm1 -> vaults_ tm1 !! vault w = Some v -> current_ v = length (types_list_ tm1) ->
  Forall (fun s => 0 <= schema_alignment s) (types_list_ tm1) -> no_barrier fr ->
  fst (fst (defstruct_handler (vault w) (fr ++ [bar]) (set_vault (vault w) (mark_updated v) tm1))) =
    option_map (fun fields => (max_alignment fields, AlignPtr (slots_end fields 0) (max_alignment fields), fields))
      (call_fields (types_list_ tm1) fr).
Proof.
  intros Ht Hv Hcur Hnn Hb. destruct (Forall_lookup_1 _ _ _ _ Ht Hv) as (_ & _ & Hm). rewrite Hcur, firstn_all in Hm.
  pose proof (defstruct_fields_spec (vault w) (mark_updated v) (types_list_ tm1) eq_refl Hm Hnn fr
    (set_vault (vault w) (mark_updated v) tm1) [] 0 0) as Hs.
  unfold defstruct_handler. destruct (defstruct_fields _ _ _ _ _ _) as [r tm'].
  destruct Hs as [_ Hs]; try done; [cbn; apply list_lookup_insert_eq; by apply lookup_lt_Some in Hv|].
  destruct (call_fields (types_list_ tm1) fr) as [new|]; [by subst r|by destruct r].
Qed.

(** The registry grows behind. *)
Lemma world_ok_extended w tm tm' new :
  world_ok (with_types tm w) -> types_ok tm' -> length (vaults_ tm') = length (vaults_ tm) ->
  (forall k, exists j, allocator_ tm' k = allocator_ tm j) -> types_list_ tm' = types_list_ tm ++ new ->
  Forall (fun s => schema_addr s <> schema_addr T_FrameBarrier) new -> Forall (schema_ok (types_list_ tm)) new ->
  world_ok (with_types tm' w).
Proof.
  intros [G1 G2 G3 G4 G5 G6] Ht Hn Ha Hl Hb Ho. split; cbn in *; rewrite ?Hl; try done.
  - by rewrite Hn.
  - by apply Forall_app.
  - intros k. destruct (Ha k) as [j ->]. apply G4.
  - intros n u Hu. apply elem_of_app. left. by apply (G5 n).
  - apply Forall_app; split; (eapply Forall_impl; [|first [exact G6|exact Ho]]); intros s; apply schema_ok_mono; intros x Hx;
      apply elem_of_app; by left.
Qed.

Lemma defstruct_spec fr out err w b ctx' :
  world_ok w -> no_barrier fr ->
  defstruct (MkCtx (fr ++ [bar]) out err w) = Some (b, ctx') ->
  output ctx' = out /\ storage (user_data ctx') = storage w /\ mem (user_data ctx') = mem w /\
  world_ok (user_data ctx') /\
  match call_struct (types_list_ (types w)) fr with
  | Some (name, fields) => b = true /\ Forall (fun nt => snd nt ∈ types_list_ (types w)) fields /\
      exists addr, types_list_ (types (user_data ctx')) = types_list_ (types w) ++ [struct_schema addr name fields]
  | None => b = false /\ types_list_ (types (user_data ctx')) = types_list_ (types w)
  end.
Proof.
  intros Hw Hf.
  assert (Hnn : Forall (fun s => 0 <= schema_alignment s) (types_list_ (types w))).
  { eapply Forall_impl; [|exact (wo_layout w Hw)]. by intros s []. }
  unfold defstruct, call_struct. cbn [args user_data].
  destruct fr as [|a fr1]; cbn [app]; [by intros [= <- <-]|].
  inversion Hf as [|? ? Ha Hf1]; subst. rewrite Ha. cbn [orb].
  destruct (same_type (tv_type a) T_StrSpan); [|by intros [= <- <-]]. cbn [negb].
  pose proof (vault_after_find w (GetUnsafeStr a) Hw) as (v & Hv & Hcur).
  destruct (FindSchema_ok (vault w) (GetUnsafeStr a) (types w) (wo_types w Hw) (wo_vault w Hw))
    as (Hfind & Hok1 & Hl1 & Hn1 & Ha1).
  unfold HasType. destruct (FindSchema (vault w) (GetUnsafeStr a) (types w)) as [r tm1].
  cbn [fst snd] in *. subst r.
  assert (Hw1 : world_ok (with_types tm1 w)).
  { destruct Hw. split; cbn; rewrite ?Hl1, ?Hn1, ?Ha1; done. }
  destruct (first_named (GetUnsafeStr a) (types_list_ (types w))) as [s|] eqn:Ef.
  { by intros [= <- <-]. }
  destruct (count_fields _ _ _) as [nfields|]; [|done].
  pose proof (CreateSchema_spec (vault w) (GetUnsafeStr a) (defstruct_handler (vault w) (fr1 ++ [bar])) tm1 v
    Hok1 Hv (defstruct_handler_reads _ _)) as Hs.
  rewrite (defstruct_handler_spec w tm1 v fr1) in Hs by (try done; by rewrite Hl1).
  rewrite Hcur, firstn_all, Hl1, Ef in Hs.
  destruct (CreateSchema _ _ _ _) as [[r tm2] msg]. destruct Hs as (Hok2 & Hn2 & Hal2 & Hs).
  destruct (call_fields (types_list_ (types w)) fr1) as [fields|] eqn:Ec; cbn [option_map] in *; destruct Hs as [-> Hl2].
  - pose proof (call_fields_in _ _ _ Ec) as Hin.
    intros [= <- <-]. cbn [output user_data upd_world with_user_data]. split; [done|]. split; [done|].
    split; [done|]. split.
    + eapply (world_ok_extended w tm1 tm2); [done|done|done|done|by rewrite Hl1| |]; (constructor; [|done]).
      * apply (wo_alloc _ Hw1).
      * rewrite Hl1. split; [apply max_alignment_nonneg|right; by split].
    + split; [done|]. split; [done|]. eexists. exact Hl2.
  - intros [= <- <-]. cbn. split; [done|]. split; [done|]. split; [done|]. split; [|done].
    apply (world_ok_extended w tm1 tm2 []); try done. by rewrite app_nil_r, Hl1.
Qed.

(** * Every function is defined on every frame *)

Lemma create_fields_defined tn obj sch fr ctx : no_barrier fr -> is_Some (create_fields tn obj sch (fr ++ [bar]) ctx).
Proof.
  remember (length fr) as k eqn:Hk. revert fr ctx Hk. induction (lt_wf k) as [k _ IH]. intros fr ctx -> Hf.
  inversion Hf as [|f fr1 Hf1 Hfr1]; subst; cbn [app create_fields]; [by eexists|]. rewrite Hf1.
  destruct (GetField f) as [fname|]; [|by eexists].
  inversion Hfr1 as [|v fr2 Hv Hfr2]; subst; cbn [app]; [by eexists|]. rewrite Hv.
  destruct (WriteTyped _ _ _ _ _ _) as [[e|u] m']; [by eexists|]. apply (IH (length fr2)); [cbn; lia|done|done].
Qed.

Lemma count_fields_defined fr n m : no_barrier fr -> is_Some (count_fields (fr ++ [bar]) n m).
Proof.
  intros Hf. revert n m. induction Hf as [|v fr Hv _ IH]; intros n m; cbn; [by eexists|]. rewrite Hv.
  destruct (same_type _ _); apply IH.
Qed.

Lemma create_defined : call_defined create.
Proof.
  intros fr err w Hf. unfold create. cbn [args user_data].
  inversion Hf as [|a fr1 Ha Hf1]; subst; cbn [app]; [by eexists|]. rewrite Ha.
  destruct (GetStr a) as [n|]; [|by eexists].
  destruct (EnsureVaultWithType _ _ _ _) as [[v tm] s1]. destruct (CreateObject n s1) as [[e|[obj sch]] s2]; [by eexists|].
  by apply create_fields_defined.
Qed.

Lemma select_defined : call_defined select.
Proof.
  intros fr err w Hf. unfold select. cbn [args user_data].
  destruct fr as [|a fr1]; cbn [app]; [by eexists|]. destruct (_ || _); by eexists.
Qed.

Lemma list_defined : call_defined list_.
Proof. intros fr err w Hf. unfold list_. cbn [args]. rewrite list_args_spec by done. by eexists. Qed.

Lemma defstruct_defined : call_defined defstruct.
Proof.
  intros fr err w Hf. unfold defstruct. cbn [args user_data].
  inversion Hf as [|a fr1 Ha Hf1]; subst; cbn [app]; [by eexists|]. destruct (_ || _); [by eexists|].
  destruct (HasType _ _ _) as [[] tm1]; [by eexists|].
  destruct (count_fields_defined fr1 0 0 Hf1) as [n ->]. destruct (CreateSchema _ _ _ _) as [[[s|] tm2] msg]; by eexists.
Qed.
