(* ===== verification/Creations.v ===== *)
(** Concurrent calls of [ObjectVault::CreateObject]: the locks of the vaults and
    the counter of all vaults.

    A creation takes the lock of its vault, loads the counter, and stores what
    it loaded plus one; the threads interleave in between.  Making and filing
    the object and releasing the lock concerns the locked vault only.  The
    creations of one thread alone, one after the other, are those of
    [Storage.CreateObject]. *)
From S2P Require Import Prelude Types TypeVault Storage World.
Local Open Scope Z_scope.

(** * The steps *)

(** Where a thread is in a creation in the vault number [v]. *)
(** source/storage/object_vault.cc:10-18 [ObjectVault::CreateObject] *)
Inductive CreatePc := CIdle | CLocked (v : nat) | CLoaded (v : nat) (x : Z).

#[export] Instance CreatePc_eq_dec : EqDecision CreatePc.
Proof. solve_decision. Defined.

(** [heap n] is the buffer of the [n]-th next object. *)
Record Creations := MkCreations { x_ : Z; vaults : list ObjectVault; creators : list CreatePc; heap : nat -> Z }.

Definition holds_lock (v : nat) (p : CreatePc) : bool :=
  match p with CIdle => false | CLocked u | CLoaded u _ => (u =? v)%nat end.

(** A new vault; a thread takes the lock of a vault; a thread goes on. *)
Inductive CreateAction := CVault (schema : TypeSchema) | CBegin (i v : nat) | CGo (i : nat).

(** The lock of the storage is held around it. *)
(** source/storage/storage.cc:58-60 [Storage::EnsureVaultWithType] *)
Definition add_vault (schema : TypeSchema) (s : Creations) : Creations :=
  MkCreations (x_ s) (vaults s ++ [ObjectVaultNew schema]) (creators s) (heap s).

(** With the counter loaded: the object is made and filed, the lock given back. *)
(** source/storage/object_vault.cc:13-17 [ObjectVault::CreateObject] *)
Definition file_object (i v : nat) (x : Z) (s : Creations) : option Creations :=
  match vaults s !! v with
  | None => None
  | Some vault =>
      let '(obj, vault') := VaultCreateObject vault x (heap s 0%nat) in
      Some (MkCreations (guid_ obj) (<[v := vault']> (vaults s)) (<[i := CIdle]> (creators s)) (fun n => heap s (S n)))
  end.

(** source/storage/object_vault.cc:10-18 [ObjectVault::CreateObject] *)
Definition create_step (a : CreateAction) (s : Creations) : option Creations :=
  match a with
  | CVault schema => Some (add_vault schema s)
  | CBegin i v =>
      match creators s !! i, vaults s !! v with
      | Some CIdle, Some _ =>
          if existsb (holds_lock v) (creators s) then None
          else Some (MkCreations (x_ s) (vaults s) (<[i := CLocked v]> (creators s)) (heap s))
      | _, _ => None
      end
  | CGo i =>
      match creators s !! i with
      | Some (CLocked v) => Some (MkCreations (x_ s) (vaults s) (<[i := CLoaded v (x_ s)]> (creators s)) (heap s))
      | Some (CLoaded v x) => file_object i v x s
      | _ => None
      end
  end.

Fixpoint create_run (l : list CreateAction) (s : Creations) : option Creations :=
  match l with [] => Some s | a :: l => match create_step a s with Some s' => create_run l s' | None => None end end.

Definition creations_start (threads : nat) (heap : nat -> Z) : Creations := MkCreations 0 [] (replicate threads CIdle) heap.

(** * Creations of different types that do not overlap *)

Definition idle_or (v : nat) (p : CreatePc) : bool := bool_decide (p = CIdle) || holds_lock v p.

(** No creation begins while one of another type is under way. *)
Fixpoint apart (l : list CreateAction) (s : Creations) : bool :=
  match l with
  | [] => true
  | a :: l =>
      match a with CBegin _ v => forallb (idle_or v) (creators s) | _ => true end &&
      match create_step a s with Some s' => apart l s' | None => true end
  end.

(** Reference: vaults and whole creations, one after the other; [None] when
    there is no such vault. *)
Inductive SerialOp := SVault (schema : TypeSchema) | SCreate (v : nat).

Definition serial_step (op : SerialOp) (s : Z * list ObjectVault * (nat -> Z)) : option (Z * list ObjectVault * (nat -> Z)) :=
  let '(x, vs, h) := s in
  match op with
  | SVault schema => Some (x, vs ++ [ObjectVaultNew schema], h)
  | SCreate v =>
      match vs !! v with
      | None => None
      | Some vault => let '(obj, vault') := VaultCreateObject vault x (h 0%nat) in Some (guid_ obj, <[v := vault']> vs, fun n => h (S n))
      end
  end.

Fixpoint serial (ops : list SerialOp) (s : Z * list ObjectVault * (nat -> Z)) : option (Z * list ObjectVault * (nat -> Z)) :=
  match ops with [] => Some s | op :: ops => match serial_step op s with Some s' => serial ops s' | None => None end end.

Definition data_of (s : Creations) : Z * list ObjectVault * (nat -> Z) := (x_ s, vaults s, heap s).


(** ** The data *)

Record data_ok (x : Z) (vs : list ObjectVault) : Prop := {
  d_nonneg : 0 <= x;
  d_vault : forall n v, vs !! n = Some v -> vault_objs_ok x v /\ NoDup (guid_ <$> store_ v);
  d_unique : forall n1 v1 n2 v2 o1 o2, vs !! n1 = Some v1 -> vs !! n2 = Some v2 ->
    o1 ∈ store_ v1 -> o2 ∈ store_ v2 -> guid_ o1 = guid_ o2 -> n1 = n2 /\ o1 = o2
}.

Lemma data_ok_vault x vs schema : data_ok x vs -> data_ok x (vs ++ [ObjectVaultNew schema]).
Proof.
  intros [Hx Hv Hu].
  assert (Hn : forall n v, (vs ++ [ObjectVaultNew schema]) !! n = Some v -> vs !! n = Some v \/ v = ObjectVaultNew schema).
  { intros n v [Hl|[_ Hl]]%lookup_app_Some; [by left|right]. apply list_lookup_singleton_Some in Hl as [_ Hl]. done. }
  split; [done| |].
  - intros n v [Hl| ->]%Hn; [by apply (Hv n)|]. split; [|constructor]. split; [constructor|]. intros g o. cbn.
    rewrite lookup_empty, elem_of_nil. naive_solver.
  - intros n1 v1 n2 v2 o1 o2 H1%Hn H2%Hn Ho1 Ho2. destruct H1 as [H1| ->]; [|by apply elem_of_nil in Ho1].
    destruct H2 as [H2| ->]; [by apply (Hu n1 v1 n2 v2)|by apply elem_of_nil in Ho2].
Qed.

Lemma data_ok_create x vs v vault data :
  data_ok x vs -> x + 1 < 2 ^ 64 -> vs !! v = Some vault ->
  data_ok (x + 1) (<[v := snd (VaultCreateObject vault x data)]> vs) /\ guid_ (fst (VaultCreateObject vault x data)) = x + 1.
Proof.
  intros [Hx Hv Hu] Hm Hl. destruct (Hv v vault Hl) as [Ho Hnd].
  assert (Hg : u64 (x + 1) = x + 1) by (apply wrap_u_id; split; lia).
  pose proof (VaultCreateObject_ok x data vault Hx Hm Ho) as Hn.
  assert (Hold : forall n u o, vs !! n = Some u -> o ∈ store_ u -> guid_ o <= x).
  { intros n u o Hnu Ho'. destruct (Hv n u Hnu) as [[Hf _] _]. rewrite List.Forall_forall in Hf.
    apply Hf. by apply list_elem_of_In. }
  unfold VaultCreateObject in *. cbn in *. rewrite Hg in *. split; [|done].
  split; [lia| |].
  - intros n u [(<- & <- & _)|[_ Hnu]]%list_lookup_insert_Some.
    + split; [exact Hn|]. cbn. rewrite fmap_app. apply list.NoDup_app. split; [done|]. split; [|apply NoDup_singleton].
      intros g (o & -> & Hin)%list_elem_of_fmap Hg2. apply list_elem_of_singleton in Hg2. cbn in Hg2.
      pose proof (Hold v vault o Hl Hin). lia.
    + destruct (Hv n u Hnu) as [[Hf Hi] Hd]. split; [|done]. split; [|done]. eapply Forall_impl; [|exact Hf]. cbn. lia.
  - intros n1 v1 n2 v2 o1 o2 [(<- & <- & _)|[Hn1 H1]]%list_lookup_insert_Some [(<- & <- & _)|[Hn2 H2]]%list_lookup_insert_Some;
      cbn; rewrite ?elem_of_app, ?list_elem_of_singleton.
    + intros [Ho1| ->] [Ho2| ->] Heq; [by apply (Hu v vault v vault)| | |done]; exfalso; cbn in Heq.
      * pose proof (Hold v vault o1 Hl Ho1). lia.
      * pose proof (Hold v vault o2 Hl Ho2). lia.
    + intros [Ho1| ->] Ho2 Heq; [by apply (Hu v vault n2 v2)|exfalso]; cbn in Heq. pose proof (Hold n2 v2 o2 H2 Ho2). lia.
    + intros Ho1 [Ho2| ->] Heq; [by apply (Hu n1 v1 v vault)|exfalso]; cbn in Heq. pose proof (Hold n1 v1 o1 H1 Ho1). lia.
    + by apply (Hu n1 v1 n2 v2).
Qed.

(** ** The threads *)

(** At most one thread is in a creation, and what it loaded is still the
    counter. *)
Record apart_ok (bound : Z) (s : Creations) : Prop := {
  a_bound : x_ s <= bound;
  a_data : data_ok (x_ s) (vaults s);
  a_loaded : forall i v x, creators s !! i = Some (CLoaded v x) -> x = x_ s;
  a_one : forall i j p q, creators s !! i = Some p -> creators s !! j = Some q -> p <> CIdle -> q <> CIdle -> i = j
}.

Lemma nobody_creates v (l : list CreatePc) :
  existsb (holds_lock v) l = false -> forallb (idle_or v) l = true -> forall i p, l !! i = Some p -> p = CIdle.
Proof.
  intros He Ha i p Hi%list_elem_of_lookup_2%list_elem_of_In. rewrite forallb_forall in Ha. specialize (Ha p Hi).
  apply orb_true_iff in Ha as [Ha|Ha]; [by apply bool_decide_eq_true in Ha|].
  assert (existsb (holds_lock v) l = true) by (apply existsb_exists; by exists p). congruence.
Qed.

(** The creator [i] moves on and the others stay. *)
Lemma one_moves i p0 (l : list CreatePc) p' :
  l !! i = Some p0 -> (p0 <> CIdle \/ forall j q, l !! j = Some q -> q = CIdle) ->
  (forall i j p q, l !! i = Some p -> l !! j = Some q -> p <> CIdle -> q <> CIdle -> i = j) ->
  forall j k p q, <[i := p']> l !! j = Some p -> <[i := p']> l !! k = Some q -> p <> CIdle -> q <> CIdle -> j = k.
Proof.
  intros Hi Hc Hone j k p q [(<- & _ & _)|[Hj1 Hj]]%list_lookup_insert_Some [(<- & _ & _)|[Hk1 Hk]]%list_lookup_insert_Some Hp Hq;
    [done|destruct Hc as [Hc|Hc]; [by eapply Hone|by destruct Hq; eapply Hc]
    |destruct Hc as [Hc|Hc]; [by eapply Hone|by destruct Hp; eapply Hc]|by eapply Hone].
Qed.

Lemma apart_step bound a s s' :
  apart_ok bound s -> bound + 1 < 2 ^ 64 -> apart [a] s = true -> create_step a s = Some s' ->
  apart_ok (bound + 1) s' /\ exists ops, serial ops (data_of s) = Some (data_of s').
Proof.
  intros [Hb Hd Hl Hone] Hm Ha. cbn [apart] in Ha. apply andb_true_iff in Ha as [Ha _]. destruct a as [schema|i v|i]; cbn [create_step].
  - intros [= <-]. split; [|by exists [SVault schema]]. split; cbn; [lia|by apply data_ok_vault|done|done].
  - destruct (creators s !! i) as [[]|] eqn:Hi; try done. destruct (vaults s !! v); [|done].
    destruct (existsb _ _) eqn:He; [done|]. intros [= <-]. split; [|by exists []]. pose proof (nobody_creates v _ He Ha) as Hall.
    split; cbn; [lia|done| |apply (one_moves i CIdle); [done|by right|done]].
    intros j u x [(_ & ? & _)|[_ Hj]]%list_lookup_insert_Some; [done|by apply (Hl j u)].
  - destruct (creators s !! i) as [[|v|v x]|] eqn:Hi; try done.
    + intros [= <-]. split; [|by exists []].
      split; cbn; [lia|done| |apply (one_moves i (CLocked v)); [done|by left|done]].
      intros j u x [(_ & [= _ <-] & _)|[_ Hj]]%list_lookup_insert_Some; [done|by apply (Hl j u)].
    + pose proof (Hl _ _ _ Hi) as ->. unfold file_object. destruct (vaults s !! v) as [vault|] eqn:Hv; [|done].
      destruct (data_ok_create _ _ v vault (heap s 0%nat) Hd ltac:(lia) Hv) as [Hd' Hg].
      destruct (VaultCreateObject vault (x_ s) (heap s 0%nat)) as [obj vault'] eqn:Ev. cbn [fst snd] in Hd', Hg. intros [= <-].
      split; [|exists [SCreate v]; cbn [serial serial_step data_of x_ vaults heap]; by rewrite Hv, Ev].
      rewrite Hg. split; cbn; [lia|done| |apply (one_moves i (CLoaded v (x_ s))); [done|by left|done]].
      intros j u x [(_ & ? & _)|[Hne Hj]]%list_lookup_insert_Some; [done|]. destruct Hne. by apply (Hone i j _ _ Hi Hj).
Qed.

Lemma serial_app ops1 ops2 s s1 : serial ops1 s = Some s1 -> serial (ops1 ++ ops2) s = serial ops2 s1.
Proof.
  revert s. induction ops1 as [|o ops IH]; intros s; cbn [serial app]; [by intros [= ->]|].
  destruct (serial_step o s) as [s2|]; [apply IH|done].
Qed.

Lemma apart_run l : forall bound s s', apart_ok bound s -> bound + Z.of_nat (length l) < 2 ^ 64 -> apart l s = true ->
  create_run l s = Some s' -> (exists b, apart_ok b s') /\ exists ops, serial ops (data_of s) = Some (data_of s').
Proof.
  induction l as [|a l IH]; intros bound s s' Hok Hm Ha.
  - intros [= <-]. split; [by exists bound|by exists []].
  - cbn [create_run length apart] in *. apply andb_true_iff in Ha as [Ha1 Ha2].
    destruct (create_step a s) as [s1|] eqn:Es; [|done]. intros Hr.
    destruct (apart_step bound a s s1 Hok ltac:(lia)) as [H1 (ops1 & Hs1)]; [cbn [apart]; by rewrite Ha1, Es|done|].
    destruct (IH (bound + 1) s1 s' H1 ltac:(lia) Ha2 Hr) as [H2 (ops2 & Hs2)]. split; [done|]. exists (ops1 ++ ops2).
    by rewrite (serial_app _ _ _ _ Hs1).
Qed.

(** * Properties *)

(** C13. The storage stays consistent: over any history of vaults made and
    objects created by any number of threads, interleaved at every access to
    the lock of a vault and to the shared counter, in which no creation of one
    type begins while one of another type is under way (creations of the same
    type may overlap as they like), fewer than 2^64 steps long: the storage is
    one that whole creations, one after the other, make; no two objects
    anywhere have the same guid, guids are positive and at most the counter,
    and every vault's index finds exactly the objects of its store. *)
Theorem storage_stays_consistent threads heap0 l s :
  Z.of_nat (length l) < 2 ^ 64 -> apart l (creations_start threads heap0) = true ->
  create_run l (creations_start threads heap0) = Some s ->
  (exists ops, serial ops (0, [], heap0) = Some (x_ s, vaults s, heap s)) /\
  (forall n v, vaults s !! n = Some v ->
    (forall o, o ∈ store_ v -> 0 < guid_ o <= x_ s) /\ NoDup (guid_ <$> store_ v) /\
    (forall g o, object_id_index_ v !! g = Some o <-> o ∈ store_ v /\ guid_ o = g)) /\
  (forall n1 v1 n2 v2 o1 o2, vaults s !! n1 = Some v1 -> vaults s !! n2 = Some v2 ->
    o1 ∈ store_ v1 -> o2 ∈ store_ v2 -> guid_ o1 = guid_ o2 -> n1 = n2 /\ o1 = o2).
Proof.
  intros Hm Ha Hr. assert (H0 : apart_ok 0 (creations_start threads heap0)).
  { split; cbn; [lia|by split|by intros i v x [? _]%lookup_replicate|by intros i j p q [-> _]%lookup_replicate]. }
  destruct (apart_run l 0 _ s H0 ltac:(lia) Ha Hr) as [[b [_ [_ Hv Hu] _ _]] Hs]. split; [exact Hs|]. split; [|exact Hu].
  intros n v Hn. destruct (Hv n v Hn) as [[Hf Hi] Hnd]. split; [|done]. rewrite List.Forall_forall in Hf.
  intros o Ho. by apply Hf, list_elem_of_In.
Qed.

Definition point_schema : TypeSchema := MkSchema 100 (lit "point") 0 0 0 [].
Definition line_schema : TypeSchema := MkSchema 101 (lit "line") 0 0 0 [].
Definition rows (n : nat) : Z := 128 * Z.of_nat n.

(** Two threads: the second one waits for the first one to give the lock back;
    a line is made between two points. *)
Definition some_creations : list CreateAction :=
  [CVault point_schema; CBegin 1 0; CGo 1; CVault line_schema; CGo 1; CBegin 0 1; CGo 0; CGo 0; CBegin 0 0; CGo 0; CGo 0].

Lemma storage_stays_consistent_witness :
  exists s v, create_run some_creations (creations_start 2 rows) = Some s /\
    vaults s !! 0%nat = Some v /\ (guid_ <$> store_ v) = [1; 3] /\ NoDup (guid_ <$> store_ v).
Proof.
  destruct (create_run some_creations (creations_start 2 rows)) as [s|] eqn:E; [|vm_compute in E; discriminate E].
  destruct (storage_stays_consistent 2 rows some_creations s ltac:(vm_compute; reflexivity) ltac:(vm_compute; reflexivity) E)
    as (_ & Hv & _).
  assert (H : option_map (fun v => guid_ <$> store_ v) (vaults s !! 0%nat) = Some [1; 3])
    by (vm_compute in E; injection E as <-; reflexivity).
  destruct (vaults s !! 0%nat) as [v|] eqn:Ev; [|discriminate H]. injection H as H. destruct (Hv 0%nat v Ev) as (_ & Hnd & _).
  exists s, v. split; [reflexivity|]. split; [exact Ev|]. split; [exact H|exact Hnd].
Defined.

(** The condition is needed: the counter is shared by all vaults and their
    locks are not.  While one thread is between its load and its store,
    creations of another type are overtaken by the counter going back, and
    later objects of their own vault get their guids again; the index then
    finds only the later object. *)
Lemma two_types_share_guids : exists l s v o1 o2 o3,
  create_run l (creations_start 2 rows) = Some s /\
  vaults s !! 1%nat = Some v /\ store_ v = [o1; o2; o3] /\ o2 <> o3 /\ guid_ o2 = guid_ o3 /\
  object_id_index_ v !! guid_ o2 = Some o3.
Proof.
  exists [CVault point_schema; CVault line_schema; CBegin 0 0; CGo 0; CBegin 1 1; CGo 1; CGo 1; CBegin 1 1; CGo 1; CGo 1; CGo 0; CBegin 1 1; CGo 1; CGo 1].
  eexists _, _, _, _, _. split; [vm_compute; reflexivity|]. split; [reflexivity|]. split; [reflexivity|].
  split; [discriminate|]. split; reflexivity.
Qed.
