(* ===== verification/Database.v ===== *)
(** The database functions: their environment keeps the state invariant,
    [defstruct] registers schemas objects can be laid out by, [create] makes one
    object and writes only inside it, [select] and [list] give what they should.

    The starting point is the state [main] builds: the ten basic types of
    [initial_types], one vault, an empty storage. *)
From S2P Require Import Prelude Either StrBuild CLib Types Call MathFuncs TypeVault Storage Layout.
From S2P Require Import Program Eval SlangEnv World.
Local Open Scope Z_scope.

(** * The initial state *)

(** One thread's view: the registry, the vault of the thread, an empty
    storage. *)
(** source/main/main.cc:276-291 [XYEntrypoint] *)
Definition InitialWorld (allocator heap : nat -> Z) (m : Mem) : World :=
  let '(vault, tm) := CreateVault (TypeManagerNew allocator initial_types) in
  MkWorld (StorageNew heap) tm vault m.

Lemma InitialWorld_ok allocator heap m :
  (forall n, allocator n <> schema_addr T_FrameBarrier) -> world_ok (InitialWorld allocator heap m).
Proof.
  intros Ha. unfold InitialWorld, CreateVault.
  destruct (TypeManagerNew_ok allocator initial_types) as (H1 & H2 & H3).
  assert (Hal : allocator_ (TypeManagerNew allocator initial_types) = allocator) by done.
  split; cbn.
  - constructor; [|constructor]. split; [cbn; lia|]. split; [done|]. intros n. cbn. apply lookup_empty.
  - lia.
  - repeat (constructor; [done|]). constructor.
  - done.
  - intros n v. by rewrite lookup_empty.
  - apply List.Forall_forall. intros s Hs. split; [|left; by apply list_elem_of_In].
    repeat (destruct Hs as [<-|Hs]; [done|]). destruct Hs.
Qed.

(** * The environment *)

Lemma defstruct_ok : call_ok world_ok defstruct.
Proof.
  split; [apply defstruct_local|]. intros fr err w b ctx Hf Hw E.
  destruct (defstruct_spec fr [] err w b ctx Hw Hf E) as (Ho & _ & _ & Hw' & _).
  split; [done|]. rewrite Ho. constructor.
Qed.

Lemma database_env_ok json : env_ok world_ok (CreateSlangEnv json).
Proof.
  intros name c. apply RegisterMathFunctions_ok. intros n c'. rewrite !lookup_insert_Some, lookup_empty.
  pose proof create_ok. pose proof select_ok. pose proof list_ok. pose proof defstruct_ok. naive_solver.
Qed.

(** Every function the environment of the server offers -- arithmetic and
    database functions -- depends only on its own argument frame, keeps the
    invariant of the database state (registry and caches consistent, every
    vault's type registered, every schema initial or laid out from registered
    types) and never puts a frame barrier on the stack; and the state the
    server starts with satisfies the invariant. *)
Lemma database_functions_keep_invariant (json : PayloadHandler) (allocator heap : nat -> Z) (m : Mem) :
  (forall n, allocator n <> schema_addr T_FrameBarrier) ->
  world_ok (InitialWorld allocator heap m) /\
  forall name c, FindCall (CreateSlangEnv json) name = Some c ->
    call_local c /\
    forall frame err w b ctx, no_barrier frame -> world_ok w ->
      c (MkCtx (frame ++ [bar]) [] err w) = Some (b, ctx) ->
      world_ok (user_data ctx) /\ no_barrier (output ctx).
Proof.
  intros Ha. split; [by apply InitialWorld_ok|]. intros name c Hc. exact (database_env_ok json name c Hc).
Qed.

Definition demo_heap : nat -> Z := fun n => 4096 + 256 * Z.of_nat n.
Definition demo_alloc : nat -> Z := fun n => 1024 + 64 * Z.of_nat n.
Definition demo_world : World := InitialWorld demo_alloc demo_heap (fun _ => 255).
Definition str_val (s : string) : TypedValue := MkTyped T_StrSpan (VStr 64 (lit s)).
Definition field_val (s : string) : TypedValue := MkTyped T_Field (VStr 64 (lit s)).
(** [(defstruct "p" :x "int8" :y "int32")]. *)
Definition demo_frame : Iterator :=
  [str_val "p"; field_val "x"; str_val "int8"; field_val "y"; str_val "int32"].
Definition demo_defstruct : option (bool * CallContext World) :=
  defstruct (MkCtx (demo_frame ++ [bar]) [] (StrBuilderNew 128) demo_world).

Lemma demo_alloc_ok n : demo_alloc n <> schema_addr T_FrameBarrier.
Proof. unfold demo_alloc. cbn. lia. Qed.

Lemma FindCall_defstruct json : FindCall (CreateSlangEnv json) (lit "defstruct") = Some defstruct.
Proof. unfold FindCall, CreateSlangEnv, RegisterMathFunctions. cbn [functions_]. by simplify_map_eq. Qed.

Lemma database_functions_keep_invariant_example :
  match demo_defstruct with
  | Some (_, ctx) => world_ok (user_data ctx)
  | None => False
  end.
Proof.
  destruct (database_functions_keep_invariant JsonPayloadHandler demo_alloc demo_heap (fun _ => 255) demo_alloc_ok)
    as [Hw Hc].
  destruct (Hc (lit "defstruct") defstruct (FindCall_defstruct _)) as [_ Hk].
  assert (Hf : no_barrier demo_frame) by (repeat (constructor; [done|]); constructor).
  destruct demo_defstruct as [[b ctx]|] eqn:E.
  - apply (Hk demo_frame _ demo_world b ctx Hf Hw E).
  - revert E. vm_compute. discriminate.
Defined.

(** * defstruct *)

(** A type that can be laid out: a basic one, or a struct that has fields, all
    of types that can be laid out, of less than 2^40 bytes together. *)
Inductive has_layout : TypeSchema -> Prop :=
| has_layout_basic t : t ∈ initial_types -> has_layout t
| has_layout_struct t :
    schema_fields t <> [] -> Forall (fun nt => has_layout (snd nt)) (schema_fields t) -> room (schema_fields t) < 2 ^ 40 ->
    has_layout t.

(** The layout of a struct depends on alignment, size and fields only. *)
Lemma laid_out_layout l t :
  laid_out l t -> wf_fields (schema_fields t) -> schema_fields t <> [] -> room (schema_fields t) < 2 ^ 40 -> layout_ok t.
Proof.
  intros (Ha & Hsz & _) Hwf Hne Hr.
  destruct (struct_layout_ok (schema_addr t) (schema_name t) (schema_fields t) Hwf Hne Hr) as [Hwt Hl]. split.
  - destruct Hwt as (k & Hk & G). exists k. split; [done|]. cbn in G. by rewrite <- Ha, <- Hsz in G.
  - intros base Hal Hb0 Hb. cbn [schema_alignment schema_fields schema_size] in Hl. rewrite <- Ha, <- Hsz in Hl. by apply Hl.
Qed.

Lemma has_layout_wf w t : world_ok w -> t ∈ types_list_ (types w) -> has_layout t -> wf_type t.
Proof.
  intros Hw. induction t as [t IH] using TypeSchema_ind'. intros Hin Ht.
  destruct Ht as [t Ht|t Hne Hf Hr]; [by apply initial_type_wf|].
  pose proof (wo_layout w Hw) as Hl. rewrite List.Forall_forall in Hl. apply list_elem_of_In in Hin.
  destruct (Hl t Hin) as [_ [Hi|[_ Ho]]]; [by apply initial_type_wf|].
  apply (laid_out_layout _ t Ho); [|done|done]. destruct Ho as (_ & _ & Hreg). unfold wf_fields.
  rewrite List.Forall_forall in *. intros nt Hnt. by apply IH; [|apply Hreg|apply Hf].
Qed.

(** C10. [defstruct] does what its arguments say: from a consistent state, on
    any frame, it returns; it succeeds exactly when it is given a string, not
    the name of a registered type, and then pairs of a field name and the name
    of a registered type, and then it appends exactly one schema to the
    registry: under that name, with exactly these fields in that order, each
    of the type first registered under its name, and with the alignment and
    size of its fields; a failing call registers nothing.  If there are fields
    and all their types can be laid out, the schema can be, at every address
    aligned for it: its fields aligned, in order, without overlap and within
    its size.  The call outputs nothing and touches neither objects nor memory. *)
Theorem defstruct_registers_layout frame err w :
  world_ok w -> no_barrier frame ->
  exists b ctx, defstruct (MkCtx (frame ++ [bar]) [] err w) = Some (b, ctx) /\
    output ctx = [] /\ storage (user_data ctx) = storage w /\ mem (user_data ctx) = mem w /\
    match call_struct (types_list_ (types w)) frame with
    | Some (name, fields) =>
        b = true /\ Forall (fun nt => snd nt ∈ types_list_ (types w)) fields /\
        exists addr, types_list_ (types (user_data ctx)) = types_list_ (types w) ++ [struct_schema addr name fields] /\
          (fields <> [] -> Forall (fun nt => has_layout (snd nt)) fields -> room fields < 2 ^ 40 ->
           layout_ok (struct_schema addr name fields))
    | None => b = false /\ types_list_ (types (user_data ctx)) = types_list_ (types w)
    end.
Proof.
  intros Hw Hf. destruct (defstruct_defined frame err w Hf) as [[b ctx] E]. exists b, ctx. split; [done|].
  destruct (defstruct_spec frame [] err w b ctx Hw Hf E) as (H1 & H2 & H3 & _ & H4).
  split; [done|]. split; [done|]. split; [done|]. destruct (call_struct _ frame) as [[name fields]|]; [|done].
  destruct H4 as (Hb & Hin & addr & Hl). split; [done|]. split; [done|]. exists addr. split; [done|]. intros Hne Hly Hr.
  apply (laid_out_layout (types_list_ (types w))); [done| |done|done]. unfold wf_fields. cbn [struct_schema schema_fields].
  rewrite List.Forall_forall in *. intros nt Hnt. by apply (has_layout_wf w); [|apply Hin|apply Hly].
Qed.

Lemma defstruct_registers_layout_witness :
  exists ctx addr, demo_defstruct = Some (true, ctx) /\
    let s := struct_schema addr (lit "p") [(lit "x", T_int8); (lit "y", T_int32)] in
    types_list_ (types (user_data ctx)) = types_list_ (types demo_world) ++ [s] /\ layout_ok s.
Proof.
  assert (Hw : world_ok demo_world) by (apply InitialWorld_ok, demo_alloc_ok).
  assert (Hf : no_barrier demo_frame) by (repeat (constructor; [done|]); constructor).
  assert (Hc : call_struct (types_list_ (types demo_world)) demo_frame = Some (lit "p", [(lit "x", T_int8); (lit "y", T_int32)]))
    by (vm_compute; reflexivity).
  destruct (defstruct_registers_layout demo_frame (StrBuilderNew 128) demo_world Hw Hf) as (b & ctx & E & _ & _ & _ & H).
  rewrite Hc in H. destruct H as (-> & _ & addr & Hl & Hly). exists ctx, addr. split; [exact E|]. split; [exact Hl|]. apply Hly.
  - discriminate.
  - repeat (constructor; [apply has_layout_basic; apply list_elem_of_In; cbn; tauto|]). constructor.
  - vm_compute. reflexivity.
Defined.

(** The schema [defstruct] gives a type without fields. *)
Definition empty_struct (addr : Z) (name : bytes) : TypeSchema :=
  MkSchema addr name (max_alignment []) (AlignPtr (slots_end [] 0) (max_alignment [])) 0 [].

Lemma existsb_false_forall {A} (p : A -> bool) l : existsb p l = false -> Forall (fun x => p x = false) l.
Proof. induction l as [|x l IH]; cbn; [constructor|]. rewrite orb_false_iff. intros [? ?]. constructor; auto. Qed.

Lemma AlignPtr_0 p : AlignPtr p 0 = 0.
Proof. unfold AlignPtr, align_bits. change (u64 (Z.lnot (u64 (0 - 1)))) with 0. apply Z.land_0_r. Qed.

Lemma slots_app l1 l2 cur : slots (l1 ++ l2) cur = slots l1 cur ++ slots l2 (slots_end l1 cur).
Proof. revert cur. induction l1 as [|[n t] l1 IH]; intros cur; [done|]. cbn. by rewrite IH. Qed.

Lemma find_slot_app n l1 l2 :
  ~ In n (map (fun s => fst (fst s)) l1) -> find_slot n (l1 ++ l2) = find_slot n l2.
Proof.
  induction l1 as [|[[n' t] p] l1 IH]; cbn; [done|]. intros Hn. case_bool_decide; [subst; tauto|]. apply IH. tauto.
Qed.

Lemma slots_names l cur : map (fun s => fst (fst s)) (slots l cur) = map fst l.
Proof. revert cur. induction l as [|[n t] l IH]; intros cur; cbn; [done|]. by rewrite IH. Qed.

(** A type without fields breaks the types that use it.  [defstruct]
    accepts it and gives it alignment 0, and aligning any address to 0 gives 0:
    wherever the object is, the walk over its fields restarts at the null
    address behind a field of such a type, and writing that field reports that
    it does not exist. *)
Lemma empty_struct_field_resets_layout addr name before n after base :
  let e := empty_struct addr name in
  slots (before ++ (n, e) :: after) base = slots before base ++ (n, e, 0) :: slots after 0 /\
  forall obj schema type value m,
    schema_fields schema = before ++ (n, e) :: after ->
    existsb (fun f => bool_decide (fst f = n)) before = false ->
    WriteTyped obj schema n type value m = (Left (lit "Field does not exist"), m).
Proof.
  assert (Hs : forall base, slots (before ++ (n, empty_struct addr name) :: after) base =
    slots before base ++ (n, empty_struct addr name, 0) :: slots after 0).
  { intros b. rewrite slots_app. cbn [slots].
    change (schema_alignment (empty_struct addr name)) with 0. by rewrite AlignPtr_0. }
  split; [apply Hs|]. intros obj schema type value m Hf Hn.
  unfold WriteTyped, FindDataStore. rewrite Hf, FindDataStore_slots, Hs, find_slot_app.
  - cbn. by rewrite bool_decide_true.
  - rewrite slots_names. intros ([n' t] & <- & Hin)%in_map_iff.
    apply (existsb_false_forall) in Hn. rewrite List.Forall_forall in Hn. specialize (Hn _ Hin).
    cbn in Hn. by rewrite bool_decide_true in Hn.
Qed.
