(* ===== verification/Objects.v ===== *)
(** Objects: what [create] puts into the storage and into an object's memory,
    what [select] finds, and the storage's consistency over every history of
    its operations. *)
From S2P Require Import Prelude Either StrBuild CLib Types Call MathFuncs TypeVault Storage Layout.
From S2P Require Import Program Eval SlangEnv World Database.
Local Open Scope Z_scope.

(** The objects of a type with their schema, none if there is no vault. *)
Definition enumerated (n : bytes) (s : Storage) : list (Object * TypeSchema) := default [] (Enumerate n s).

(** The type [create] makes objects of under a name: that of an existing
    vault, or a registered type that is not basic. *)
Definition object_type (n : bytes) (w : World) : option TypeSchema :=
  match objects_ (storage w) !! n with
  | Some v => Some (schema_ v)
  | None =>
      match first_named n (types_list_ (types w)) with
      | Some s => if IsBasic s then None else Some s
      | None => None
      end
  end.

Lemma object_type_registered n w sch : world_ok w -> object_type n w = Some sch -> sch ∈ types_list_ (types w).
Proof.
  intros Hw. unfold object_type. destruct (objects_ (storage w) !! n) as [v|] eqn:E.
  - intros [= <-]. by apply (wo_storage w Hw n).
  - destruct (first_named n _) as [s|] eqn:Es; [|done]. destruct (IsBasic s); [done|]. intros [= <-].
    by apply (first_named_in n).
Qed.

(** The bytes of a data buffer, and those of the objects there are. *)
Definition block (base x : Z) : Prop := base <= x < base + object_buf_size.
Definition used (w : World) (x : Z) : Prop :=
  exists n os, os ∈ enumerated n (storage w) /\ block (data_ (fst os)) x.

(** The next object the storage makes. *)
Definition next_object (s : Storage) : Object := MkObject (u64 (last_guid_ s + 1)) (heap_ s 0%nat).

Lemma EnsureVault_spec n w :
  world_ok w ->
  let '(_, tm, s) := EnsureVaultWithType (vault w) (types w) n (storage w) in
  types_list_ tm = types_list_ (types w) /\ last_guid_ s = last_guid_ (storage w) /\ heap_ s = heap_ (storage w) /\
  (forall n', enumerated n' s = enumerated n' (storage w)) /\
  match object_type n w with
  | Some sch => exists v, objects_ s !! n = Some v /\ schema_ v = sch
  | None => objects_ s !! n = None
  end.
Proof.
  intros Hw. unfold EnsureVaultWithType, object_type.
  destruct (objects_ (storage w) !! n) as [v|] eqn:E; [naive_solver|].
  destruct (FindSchema_ok (vault w) n (types w) (wo_types w Hw) (wo_vault w Hw)) as (Hf & _ & G2 & _ & _).
  destruct (FindSchema (vault w) n (types w)) as [r tm]. cbn [fst snd] in *. subst r.
  destruct (first_named n _) as [sch|] eqn:Es; [|done]. destruct (IsBasic sch); [done|].
  pose proof (first_named_name _ _ _ Es) as Hname. cbn. split; [done|]. split; [done|]. split; [done|].
  rewrite Hname. split.
  - intros n'. unfold enumerated, Enumerate, FindVaultWithType. cbn.
    destruct (decide (n = n')) as [<-|]; [by rewrite lookup_insert_eq, E|by rewrite lookup_insert_ne].
  - exists (ObjectVaultNew sch). by rewrite lookup_insert_eq.
Qed.

Lemma CreateObject_spec n s :
  match objects_ s !! n with
  | None => CreateObject n s = (Left (lit "No storage for type"), s)
  | Some v =>
      exists s', CreateObject n s = (Right (next_object s, schema_ v), s') /\
        enumerated n s' = enumerated n s ++ [(next_object s, schema_ v)] /\
        forall n', n' <> n -> enumerated n' s' = enumerated n' s
  end.
Proof.
  unfold CreateObject. destruct (objects_ s !! n) as [v|] eqn:E; [|done].
  eexists. split; [done|]. unfold enumerated, Enumerate, FindVaultWithType. cbn. split.
  - rewrite lookup_insert_eq, E. cbn. by rewrite map_app.
  - intros n' Hn. by rewrite lookup_insert_ne.
Qed.

(** * Writing the fields *)

(** The bits a basic field holds after a value was written to it. *)
Definition stored_bits (t type : TypeSchema) (v : Value) : Z :=
  if same_type t T_double then d_bits (ValueToDouble type v)
  else if same_type t T_float then f32_bits (f32_of_double (ValueToDouble type v))
  else ValueToUInt64 type v.

(** Reference for a basic field: its bytes are the value's, at its width. *)
Lemma WriteBasicValue_store type v t p m :
  t ∈ initial_types ->
  exists b, WriteBasicValue type v t p m = store m p (Z.to_nat (schema_size t)) b /\
    b mod 256 ^ schema_size t = stored_bits t type v mod 256 ^ schema_size t.
Proof.
  intros Ht%list_elem_of_In. unfold WriteBasicValue, stored_bits.
  repeat (destruct Ht as [<-|Ht]; [eexists; split; [reflexivity|]; try done; cbn -[Z.pow];
    unfold wrap_u; change (256 ^ 1) with (2 ^ 8); change (256 ^ 2) with (2 ^ 16);
    change (256 ^ 4) with (2 ^ 32); change (256 ^ 8) with (2 ^ 64); by rewrite Z.mod_mod|]).
  done.
Qed.

(** A schema objects can be made of: laid out, from well-formed types of which
    the basic ones are initial. *)
Definition flat (sch : TypeSchema) : Prop :=
  layout_ok sch /\ wf_fields (schema_fields sch) /\
  Forall (fun nt => IsBasic (snd nt) = true -> snd nt ∈ initial_types) (schema_fields sch) /\
  room (schema_fields sch) < 2 ^ 40.

(** Where the storage's memory lies. *)
Definition aligned_at (base : Z) : Prop := (8 | base) /\ 0 < base < 2 ^ 63.

Lemma flat_placed sch base :
  flat sch -> aligned_at base ->
  placed base (slots (schema_fields sch) base) (base + schema_size sch) /\
  Forall (fun s => wf_type (snd (fst s))) (slots (schema_fields sch) base).
Proof.
  intros ([(k & Hk & Ha & _) Hl] & Hf & _ & Hr) [H8 Hb].
  assert (2 ^ 40 + 2 ^ 63 < 2 ^ 64) by done.
  split; [apply Hl; [|lia|lia]|].
  { rewrite Ha. apply (Z.divide_trans _ 8); [|done]. change 8 with (2 ^ 3). exists (2 ^ (3 - k)).
    rewrite <- Z.pow_add_r by lia. f_equal. lia. } by apply slots_types.
Qed.

Lemma slots_field_types fields cur n t p :
  (n, t, p) ∈ slots fields cur -> (n, t) ∈ fields.
Proof.
  revert cur. induction fields as [|[n' t'] fields IH]; intros cur; cbn [slots]; [by intros ?%elem_of_nil|].
  rewrite !elem_of_cons. intros [[= -> -> _]|Hin]; [by left|right]. by apply (IH _ Hin).
Qed.

(** The slot of a field: inside the object, of a well-formed type. *)
Lemma flat_slot sch base n t p :
  flat sch -> aligned_at base -> find_slot n (slots (schema_fields sch) base) = (p, Some t) ->
  (IsBasic t = true -> t ∈ initial_types) /\ 0 < schema_size t /\ base <= p /\
  p + schema_size t <= base + schema_size sch.
Proof.
  intros Hs Hb Hf. destruct (flat_placed sch base Hs Hb) as [Hp Hw].
  apply find_slot_in in Hf. pose proof (slots_field_types _ _ _ _ _ Hf) as Hin%list_elem_of_In.
  destruct Hs as (_ & Hwf & Hfl & _). unfold wf_fields in Hwf. rewrite List.Forall_forall in Hfl, Hwf.
  split; [apply (Hfl _ Hin)|]. split; [apply wf_size_pos, (Hwf _ Hin)|].
  destruct (placed_bounds _ _ _ _ _ _ Hp Hw Hf) as (? & _ & ?). lia.
Qed.


(** A successful write: the field's slot, and the store. *)
Lemma WriteTyped_spec obj sch f type v m r m' :
  flat sch -> aligned_at (data_ obj) -> WriteTyped obj sch f type v m = (r, m') ->
  match r with
  | Left _ => m' = m
  | Right _ => exists t p b, t ∈ initial_types /\
      find_slot f (slots (schema_fields sch) (data_ obj)) = (p, Some t) /\
      m' = store m p (Z.to_nat (schema_size t)) b /\
      b mod 256 ^ schema_size t = stored_bits t type v mod 256 ^ schema_size t
  end.
Proof.
  intros Hs Hb. unfold WriteTyped, FindDataStore. rewrite FindDataStore_slots.
  destruct (find_slot f _) as [p [t|]] eqn:E; [|by intros [= <- <-]].
  destruct (p =? 0); [by intros [= <- <-]|]. destruct (IsBasic t) eqn:Hbasic; [|by intros [= <- <-]].
  intros [= <- <-]. destruct (flat_slot sch _ f t p Hs Hb E) as (Ht & _). specialize (Ht Hbasic).
  destruct (WriteBasicValue_store type v t p m Ht) as (b & E1 & E2). by exists t, p, b.
Qed.

(** ** The field loop *)


Lemma create_fields_frame tn obj sch it ctx b ctx' :
  flat sch -> aligned_at (data_ obj) -> create_fields tn obj sch it ctx = Some (b, ctx') ->
  storage (user_data ctx') = storage (user_data ctx) /\ types (user_data ctx') = types (user_data ctx) /\
  output ctx' = output ctx ++ (if b then [MkTyped sch (VPtr (data_ obj))] else []) /\
  forall x, ~ (data_ obj <= x < data_ obj + schema_size sch) -> mem (user_data ctx') x = mem (user_data ctx) x.
Proof.
  intros Hs Hb. remember (length it) as k eqn:Hk. revert it ctx Hk. induction (lt_wf k) as [k _ IH]. intros it ctx -> E.
  destruct it as [|f it1]; cbn [create_fields] in E; [done|].
  destruct (is_barrier f); [by injection E as <- <-|].
  destruct (GetField f) as [fname|]; [|injection E as <- <-; cbn; by rewrite app_nil_r].
  destruct it1 as [|v it2]; [done|].
  destruct (is_barrier v); [injection E as <- <-; cbn; by rewrite app_nil_r|].
  destruct (WriteTyped _ _ _ _ _ _) as [r m'] eqn:Ew. apply WriteTyped_spec in Ew; [|done|done].
  destruct r as [e|u]; [injection E as <- <-; cbn; rewrite app_nil_r; by subst|].
  destruct (IH (length it2) ltac:(cbn; lia) it2 _ eq_refl E) as (G1 & G2 & G3 & G4).
  split; [done|]. split; [done|]. split; [done|]. intros x Hx. rewrite G4 by done. cbn.
  destruct Ew as (t & p & bb & _ & Ef & -> & _). destruct (flat_slot sch _ _ _ _ Hs Hb Ef) as (_ & ? & ? & ?).
  apply store_outside. lia.
Qed.

Lemma create_fields_output tn obj sch it ctx b ctx' :
  create_fields tn obj sch it ctx = Some (b, ctx') ->
  output ctx' = output ctx ++ (if b then [MkTyped sch (VPtr (data_ obj))] else []).
Proof.
  remember (length it) as k eqn:Hk. revert it ctx Hk. induction (lt_wf k) as [k _ IH]. intros it ctx -> E.
  destruct it as [|f it1]; cbn [create_fields] in E; [done|].
  destruct (is_barrier f); [by injection E as <- <-|].
  destruct (GetField f) as [fname|]; [|injection E as <- <-; cbn; by rewrite app_nil_r].
  destruct it1 as [|v it2]; [done|].
  destruct (is_barrier v); [injection E as <- <-; cbn; by rewrite app_nil_r|].
  destruct (WriteTyped _ _ _ _ _ _) as [[e|u] m']; [injection E as <- <-; cbn; by rewrite app_nil_r|].
  by apply (IH (length it2) ltac:(cbn; lia) it2 _ eq_refl) in E.
Qed.

(** The bytes of the basic fields of a schema, where [create] puts them in an
    object. *)
Definition field_bytes (sch : TypeSchema) (base x : Z) : Prop :=
  exists n t p, (n, t, p) ∈ slots (schema_fields sch) base /\ t ∈ initial_types /\ p <= x < p + schema_size t.

(** Whatever the schema, and wherever its fields come to lie, no other byte
    changes. *)
Lemma create_fields_bytes tn obj sch it ctx b ctx' :
  Forall (fun nt => IsBasic (snd nt) = true -> snd nt ∈ initial_types) (schema_fields sch) ->
  create_fields tn obj sch it ctx = Some (b, ctx') ->
  forall x, ~ field_bytes sch (data_ obj) x -> mem (user_data ctx') x = mem (user_data ctx) x.
Proof.
  intros Hs. remember (length it) as k eqn:Hk. revert it ctx Hk. induction (lt_wf k) as [k _ IH]. intros it ctx -> E x Hx.
  destruct it as [|f it1]; cbn [create_fields] in E; [done|].
  destruct (is_barrier f); [by injection E as <- <-|].
  destruct (GetField f) as [fname|]; [|by injection E as <- <-].
  destruct it1 as [|v it2]; [done|].
  destruct (is_barrier v); [by injection E as <- <-|].
  assert (Hw : snd (WriteTyped obj sch fname (tv_type v) (tv_value v) (mem (user_data ctx))) x = mem (user_data ctx) x).
  { unfold WriteTyped, FindDataStore. rewrite FindDataStore_slots. destruct (find_slot fname _) as [p [t|]] eqn:Ef; [|done].
    destruct (p =? 0); [done|]. destruct (IsBasic t) eqn:Eb; [|done]. apply find_slot_in in Ef.
    pose proof (slots_field_types _ _ _ _ _ Ef) as Hin%list_elem_of_In. rewrite List.Forall_forall in Hs.
    pose proof (Hs _ Hin Eb) as Ht. cbn [snd] in *. destruct (WriteBasicValue_store (tv_type v) (tv_value v) t p (mem (user_data ctx)) Ht) as (bb & -> & _).
    apply store_outside. rewrite Z2Nat.id by (pose proof (wf_size_pos t (proj1 (initial_type_wf t Ht))); lia).
    intros Hp. apply Hx. by exists fname, t, p. }
  destruct (WriteTyped _ _ _ _ _ _) as [[e|u] m']; [by injection E as <- <-|].
  rewrite (IH (length it2) ltac:(cbn; lia) it2 _ eq_refl E x Hx). exact Hw.
Qed.

(** Whatever the schema, the loop changes memory only. *)
Lemma create_fields_local_data tn obj sch it ctx b ctx' :
  create_fields tn obj sch it ctx = Some (b, ctx') ->
  storage (user_data ctx') = storage (user_data ctx) /\ types (user_data ctx') = types (user_data ctx).
Proof.
  remember (length it) as k eqn:Hk. revert it ctx Hk. induction (lt_wf k) as [k _ IH]. intros it ctx -> E.
  destruct it as [|f it1]; cbn [create_fields] in E; [done|].
  destruct (is_barrier f); [by injection E as <- <-|].
  destruct (GetField f) as [fname|]; [|by injection E as <- <-].
  destruct it1 as [|v it2]; [done|]. destruct (is_barrier v); [by injection E as <- <-|].
  destruct (WriteTyped _ _ _ _ _ _) as [[e|u] m']; [by injection E as <- <-|].
  by destruct (IH (length it2) ltac:(cbn; lia) it2 _ eq_refl E).
Qed.



Lemma registered_basic_fields w sch :
  world_ok w -> sch ∈ types_list_ (types w) ->
  Forall (fun nt => IsBasic (snd nt) = true -> snd nt ∈ initial_types) (schema_fields sch).
Proof.
  intros Hw Hin%list_elem_of_In. pose proof (wo_layout w Hw) as Hl. rewrite List.Forall_forall in Hl.
  destruct (Hl _ Hin) as [_ [Hi|[_ (_ & _ & Hf)]]].
  { apply list_elem_of_In in Hi. repeat (destruct Hi as [<-|Hi]; [constructor|]). done. }
  eapply Forall_impl; [|exact Hf]. cbn. intros nt Hnt%list_elem_of_In Hb.
  by destruct (Hl _ Hnt) as [_ [Hi|[Hi _]]]; [|congruence].
Qed.

Lemma create_spec frame err w b ctx :
  world_ok w -> no_barrier frame -> create (MkCtx (frame ++ [bar]) [] err w) = Some (b, ctx) ->
  let w' := user_data ctx in
  types_list_ (types w') = types_list_ (types w) /\
  match frame with
  | a :: _ =>
      match GetStr a with
      | Some n =>
          match object_type n w with
          | Some sch =>
              let obj := next_object (storage w) in
              enumerated n (storage w') = enumerated n (storage w) ++ [(obj, sch)] /\
              (forall n', n' <> n -> enumerated n' (storage w') = enumerated n' (storage w)) /\
              output ctx = (if b then [MkTyped sch (VPtr (data_ obj))] else []) /\
              (forall x, ~ field_bytes sch (data_ obj) x -> mem w' x = mem w x) /\
              (flat sch -> aligned_at (data_ obj) ->
               forall x, ~ (data_ obj <= x < data_ obj + schema_size sch) -> mem w' x = mem w x)
          | None => b = false /\ output ctx = [] /\ mem w' = mem w /\
              forall n', enumerated n' (storage w') = enumerated n' (storage w)
          end
      | None => b = false /\ w' = w
      end
  | [] => b = false /\ w' = w
  end.
Proof.
  intros Hw Hf E w'. unfold create in E. cbn [args user_data] in E.
  destruct frame as [|a fr]; cbn [app] in E; [by injection E as <- <-|].
  inversion Hf as [|? ? Ha Hfr]; subst. rewrite Ha in E.
  destruct (GetStr a) as [n|]; [|by injection E as <- <-].
  pose proof (EnsureVault_spec n w Hw) as He.
  destruct (EnsureVaultWithType (vault w) (types w) n (storage w)) as [[ov tm] s1].
  destruct He as (Ht & Hg & Hh & Hen & Hty). pose proof (CreateObject_spec n s1) as Hc.
  destruct (object_type n w) as [sch|] eqn:Eo.
  - destruct Hty as (v & Hv & <-). rewrite Hv in Hc. destruct Hc as (s2 & Ec & H1 & H2).
    rewrite Ec in E. assert (Hobj : next_object s1 = next_object (storage w)) by (unfold next_object; by rewrite Hg, Hh).
    rewrite Hobj in *. pose proof (create_fields_output _ _ _ _ _ _ _ E) as Hout.
    assert (Hsame : storage w' = s2 /\ types w' = tm).
    { apply (create_fields_local_data _ _ _ _ _ _ _ E). }
    destruct Hsame as [Hs2 Htm]. rewrite Hs2, Htm, H1, Hen. split; [done|]. split; [done|]. split.
    + intros n' Hn. by rewrite H2, Hen.
    + split; [by rewrite Hout; destruct b|]. split.
      * intros x Hx. refine (create_fields_bytes _ _ _ _ _ _ _ _ E x Hx).
        by apply (registered_basic_fields w), (object_type_registered n).
      * intros Hflat Hal. by destruct (create_fields_frame _ _ _ _ _ _ _ Hflat Hal E) as (_ & _ & _ & G4).
  - rewrite Hty in Hc. rewrite Hc in E. injection E as <- <-. unfold w'. cbn. done.
Qed.

(** * Properties *)

(** One thread alone: after any history of vault and object creations, each as
    one step, from the empty storage (fewer than 2^64 objects), guids are
    unique and the indices exact.  [Creations] has the steps of several
    threads. *)
Theorem serial_storage_consistent (heap : nat -> Z) s :
  rtc storage_step (StorageNew heap) s ->
  0 <= last_guid_ s /\
  (forall n v, objects_ s !! n = Some v ->
    (forall o, o ∈ store_ v -> 0 < guid_ o <= last_guid_ s) /\
    (forall g o, object_id_index_ v !! g = Some o <-> o ∈ store_ v /\ guid_ o = g)) /\
  (forall n1 v1 n2 v2 o1 o2,
    objects_ s !! n1 = Some v1 -> objects_ s !! n2 = Some v2 ->
    o1 ∈ store_ v1 -> o2 ∈ store_ v2 -> guid_ o1 = guid_ o2 -> n1 = n2 /\ o1 = o2).
Proof.
  intros Hs. destruct (storage_steps_ok _ _ Hs (StorageNew_ok heap)) as (H1 & H2 & H3).
  split; [done|]. split; [|done]. intros n v Hv. destruct (map_Forall_lookup_1 _ _ _ _ H2 Hv) as [Hg Hi].
  split; [|done]. rewrite List.Forall_forall in Hg. intros o Ho. by apply Hg, list_elem_of_In.
Qed.

Definition point : TypeSchema :=
  MkSchema 1024 (lit "p") 4 8 0 [(lit "x", T_int8); (lit "y", T_int32)].

(** C11. [create] makes exactly one object, exactly when the type name it is
    given has a vault or is a registered type that is not basic -- also when the
    call then fails on a field, in which case the new object stays in the
    vault.  The object is appended to its type's objects, those of every other
    type and the registry are unchanged, and a successful call outputs a
    pointer to the object, a failing one nothing.  Of the memory, only bytes of
    the type's basic fields change, where the walk over the fields puts them;
    if the type can be laid out, they are in the type's size from the object's
    address; and if that size also is within the object's buffer, which nothing
    else uses, no byte of another object changes. *)
Theorem create_makes_one_object frame err w :
  world_ok w -> no_barrier frame ->
  exists b ctx, create (MkCtx (frame ++ [bar]) [] err w) = Some (b, ctx) /\
  let w' := user_data ctx in
  types_list_ (types w') = types_list_ (types w) /\
  match frame with
  | a :: _ =>
      match GetStr a with
      | Some n =>
          match object_type n w with
          | Some sch =>
              let obj := next_object (storage w) in
              enumerated n (storage w') = enumerated n (storage w) ++ [(obj, sch)] /\
              (forall n', n' <> n -> enumerated n' (storage w') = enumerated n' (storage w)) /\
              output ctx = (if b then [MkTyped sch (VPtr (data_ obj))] else []) /\
              (forall x, ~ field_bytes sch (data_ obj) x -> mem w' x = mem w x) /\
              (flat sch -> aligned_at (data_ obj) ->
               (forall x, ~ (data_ obj <= x < data_ obj + schema_size sch) -> mem w' x = mem w x) /\
               (schema_size sch <= object_buf_size -> (forall x, block (data_ obj) x -> ~ used w x) ->
                forall x, used w x -> mem w' x = mem w x))
          | None => b = false /\ output ctx = [] /\ mem w' = mem w /\
              forall n', enumerated n' (storage w') = enumerated n' (storage w)
          end
      | None => b = false /\ w' = w
      end
  | [] => b = false /\ w' = w
  end.
Proof.
  intros Hw Hf. destruct (create_defined frame err w Hf) as [[b ctx] E]. exists b, ctx. split; [done|].
  destruct (create_spec frame err w b ctx Hw Hf E) as [Ht Hs]. split; [done|].
  destruct frame as [|a fr]; [done|]. destruct (GetStr a) as [n|]; [|done]. destruct (object_type n w) as [sch|]; [|done].
  destruct Hs as (H1 & H2 & H3 & H4 & H5). split_and!; try done. intros Hflat Hal. specialize (H5 Hflat Hal).
  split; [done|]. intros Hsz Hfree x Hx. apply H5. intros Hin. apply (Hfree x); [|done]. unfold block. lia.
Qed.

(** The state after [demo_defstruct]. *)
Definition demo_world2 : World :=
  match demo_defstruct with Some (_, ctx) => user_data ctx | None => demo_world end.
Definition int_arg (z : Z) : TypedValue := MkTyped T_int64 (VI64 z).
(** [(create "p" :y 258 :x -3)]. *)
Definition demo_create_frame : Iterator := [str_val "p"; field_val "y"; int_arg 258; field_val "x"; int_arg (-3)].
Definition demo_create_ctx : CallContext World :=
  MkCtx (demo_create_frame ++ [bar]) [] (StrBuilderNew 128) demo_world2.

Lemma demo_create_succeeds : exists ctx, create demo_create_ctx = Some (true, ctx).
Proof.
  destruct (create demo_create_ctx) as [[[] ctx]|] eqn:E; [by exists ctx| |];
    apply (f_equal (option_map fst)) in E; vm_compute in E; discriminate.
Qed.

Lemma demo_world2_ok : world_ok demo_world2.
Proof.
  assert (Hw : world_ok demo_world) by (apply InitialWorld_ok, demo_alloc_ok).
  assert (Hf : no_barrier demo_frame) by (repeat (constructor; [done|]); constructor).
  pose proof (defstruct_spec demo_frame [] (StrBuilderNew 128) demo_world) as Hs.
  change (defstruct _) with demo_defstruct in Hs. unfold demo_world2.
  destruct demo_defstruct as [[b ctx]|]; [|done]. by destruct (Hs b ctx Hw Hf eq_refl) as (_ & _ & _ & H & _).
Qed.

Lemma demo_create_frame_ok : no_barrier demo_create_frame.
Proof. repeat (constructor; [done|]). constructor. Qed.

Lemma demo_object_type : object_type (lit "p") demo_world2 = Some point.
Proof. vm_compute. reflexivity. Qed.

Lemma point_flat : flat point.
Proof.
  assert (Hi : Forall (fun nt => snd nt ∈ initial_types) (schema_fields point)).
  { repeat (constructor; [vm_compute; apply list_elem_of_In; vm_compute; tauto|]). constructor. }
  assert (Hw : wf_fields (schema_fields point)).
  { eapply Forall_impl; [|exact Hi]. cbn. intros nt Hnt. by apply initial_type_wf. }
  split; [exact (struct_layout_ok 1024 (lit "p") (schema_fields point) Hw ltac:(done) ltac:(vm_compute; done))|].
  split; [done|]. split; [|vm_compute; done]. eapply Forall_impl; [|exact Hi]. by cbn.
Qed.

Lemma demo_aligned : aligned_at (data_ (next_object (storage demo_world2))).
Proof. vm_compute. split; [by exists 512|done]. Qed.

Lemma create_makes_one_object_witness :
  exists ctx, create demo_create_ctx = Some (true, ctx) /\
    enumerated (lit "p") (storage (user_data ctx)) =
      enumerated (lit "p") (storage demo_world2) ++ [(next_object (storage demo_world2), point)] /\
    forall x, used demo_world2 x -> mem (user_data ctx) x = mem demo_world2 x.
Proof.
  destruct demo_create_succeeds as [ctx E]. exists ctx. split; [exact E|].
  destruct (create_makes_one_object demo_create_frame (StrBuilderNew 128) demo_world2
    demo_world2_ok demo_create_frame_ok) as (b & ctx' & E' & _ & T). fold demo_create_ctx in E'. rewrite E in E'.
  injection E' as <- <-. cbn [demo_create_frame] in T.
  change (GetStr (str_val "p")) with (Some (lit "p")) in T. cbv iota in T.
  rewrite demo_object_type in T. destruct T as (T1 & _ & _ & _ & T2). split; [exact T1|].
  destruct (T2 point_flat demo_aligned) as [_ T3]. apply T3; [vm_compute; discriminate|].
  intros x _ (n & os & Hos & _). revert Hos. unfold enumerated, Enumerate, FindVaultWithType.
  change (objects_ (storage demo_world2)) with (@empty (gmap bytes ObjectVault) _). rewrite lookup_empty. by intros ?%elem_of_nil.
Defined.



Lemma select_spec a n rest err w :
  GetStr a = Some n -> is_barrier a = false ->
  exists ctx, select (MkCtx (a :: rest) [] err w) = Some (true, ctx) /\ user_data ctx = w /\
    output ctx = map (fun os => MkTyped (snd os) (VPtr (data_ (fst os)))) (enumerated n (storage w)).
Proof.
  intros Hn Ha. unfold select. cbn [args]. rewrite Ha. unfold GetStr in Hn.
  destruct (same_type (tv_type a) T_StrSpan); [|done]. cbn [orb negb].
  assert (Hu : GetUnsafeStr a = n) by (unfold GetUnsafeStr; by rewrite Hn). rewrite Hu.
  eexists. split; [reflexivity|]. edestruct fold_AddTyped_output as (Ho & Hw & _). rewrite Ho, Hw. done.
Qed.

(** What [create] makes, [select] finds: in the state a call of [create]
    leaves, [select] on the same type outputs pointers to the objects the type
    had before, in creation order, followed by the new one, each with the
    type's schema, and changes nothing. *)
Theorem select_finds_created a n fr err w b ctx sch rest err2 :
  world_ok w -> no_barrier (a :: fr) -> GetStr a = Some n -> object_type n w = Some sch ->
  create (MkCtx ((a :: fr) ++ [bar]) [] err w) = Some (b, ctx) ->
  exists ctx2, select (MkCtx (a :: rest) [] err2 (user_data ctx)) = Some (true, ctx2) /\
    user_data ctx2 = user_data ctx /\
    output ctx2 = map (fun os => MkTyped (snd os) (VPtr (data_ (fst os))))
      (enumerated n (storage w) ++ [(next_object (storage w), sch)]).
Proof.
  intros Hw Hf Hn Hty E. pose proof (create_spec (a :: fr) err w b ctx Hw Hf E) as Hc. cbv zeta iota in Hc.
  rewrite Hn, Hty in Hc. destruct Hc as (_ & <- & _). inversion Hf; subst. by apply select_spec.
Qed.

Lemma select_finds_created_witness :
  exists ctx ctx2, create demo_create_ctx = Some (true, ctx) /\
    select (MkCtx [str_val "p"] [] (StrBuilderNew 128) (user_data ctx)) = Some (true, ctx2) /\
    output ctx2 = [MkTyped point (VPtr 4096)].
Proof.
  destruct demo_create_succeeds as [ctx E].
  destruct (select_finds_created (str_val "p") (lit "p") (tail demo_create_frame) (StrBuilderNew 128) demo_world2
    true ctx point [] (StrBuilderNew 128) demo_world2_ok demo_create_frame_ok eq_refl demo_object_type E)
    as (ctx2 & H1 & _ & H2).
  exists ctx, ctx2. split; [exact E|]. split; [exact H1|]. rewrite H2. vm_compute. reflexivity.
Defined.
