(* ===== verification/Soundness.v ===== *)
(** Requests cannot go wrong: evaluating an expression whose functions exist is
    defined in every state of the database, and every value on the stack
    stores the member its type reads.

    The second part is the contract [members]: schemas of user types do not
    have the addresses of the two string types, so a value is read as a string
    exactly if it was stored as one. *)
From S2P Require Import Prelude Either StrBuild CLib Stream Types Call MathFuncs TypeVault Storage Layout.
From S2P Require Import Lexer Syntax Program Eval Contract Typing SlangEnv World Database Objects.
Local Open Scope Z_scope.

(** What holds of the eight functions holds of the environment. *)
Lemma database_calls (Q : Call World -> Prop) json :
  Q create -> Q select -> Q list_ -> Q defstruct -> Forall Q [math_add; math_sub; math_mul; math_div] ->
  forall name c, FindCall (CreateSlangEnv json) name = Some c -> Q c.
Proof.
  intros H1 H2 H3 H4 Hm name c. unfold FindCall, CreateSlangEnv, RegisterMathFunctions. cbn [functions_].
  rewrite !Forall_cons_iff in Hm. rewrite !lookup_insert_Some, lookup_empty. naive_solver.
Qed.

(** * Every function is defined on every frame *)

Lemma CheckOperationType_cases fr b :
  no_barrier fr -> CheckOperationType (fr ++ [bar]) b = Some Invalid \/ Forall numeric fr.
Proof.
  intros Hf. revert b. induction Hf as [|v fr Hv _ IH]; intros b; cbn; [by right|]. rewrite Hv.
  destruct (IsNumeric (tv_type v)) eqn:En; [|by left].
  destruct (IH (b || IsFloatingPoint (tv_type v))) as [Hi|Hn]; [by left|right]. by constructor.
Qed.

(** An arithmetic function refuses the frame or gives one number. *)
Lemma math_outcome {W} (c : Call W) fr err w :
  c ∈ [math_add; math_sub; math_mul; math_div] -> no_barrier fr ->
  (exists ctx, c (MkCtx (fr ++ [bar]) [] err w) = Some (false, ctx) /\ output ctx = [] /\ user_data ctx = w) \/
  (exists t v, c (MkCtx (fr ++ [bar]) [] err w) = Some (true, MkCtx (fr ++ [bar]) [v] err w) /\
     tv_type v = schema_of t).
Proof.
  intros Hc Hf. destruct (CheckOperationType_cases fr false Hf) as [Hi|Hn].
  - left. apply list_elem_of_In in Hc. repeat (destruct Hc as [<-|Hc];
      [unfold math_add, math_sub, math_mul, math_div, math_call; cbn [args]; rewrite Hi; by eexists|]). done.
  - right. destruct (math_results (W:=W) fr Hn) as (H1 & H2 & H3 & H4). apply list_elem_of_In in Hc.
    destruct Hc as [<-|[<-|[<-|[<-|[]]]]];
      [destruct (H1 err w) as (v & Hv & ->)|destruct (H2 err w) as (v & Hv & ->)
      |destruct (H3 err w) as (v & Hv & ->)|destruct (H4 err w) as (v & Hv & ->)]; by eexists _, v.
Qed.

Lemma database_defined json name c : FindCall (CreateSlangEnv json) name = Some c -> call_defined c.
Proof.
  apply database_calls; [apply create_defined|apply select_defined|apply list_defined|apply defstruct_defined|].
  apply List.Forall_forall. intros f Hin fr err w Hf. apply list_elem_of_In in Hin.
  destruct (math_outcome f fr err w Hin Hf) as [(ctx & -> & _)|(t & v & -> & _)]; by eexists.
Qed.

(** * The addresses of schemas *)

(** Every schema has its address from a set: those there were, or one the
    allocator gave. *)
Definition addresses_in (A : Z -> Prop) (tm : TypeManager) : Prop :=
  Forall (fun s => A (schema_addr s)) (types_list_ tm) /\ forall n, A (allocator_ tm n).

Lemma FindSchema_addresses A i n tm :
  types_ok tm -> (i < length (vaults_ tm))%nat -> addresses_in A tm -> addresses_in A (snd (FindSchema i n tm)).
Proof.
  intros Ht Hi [H1 H2]. destruct (FindSchema_ok i n tm Ht Hi) as (_ & _ & E1 & _ & E2).
  split; [by rewrite E1|]. intros k. rewrite E2. apply H2.
Qed.

Lemma create_addresses A frame err w b ctx :
  world_ok w -> create (MkCtx frame [] err w) = Some (b, ctx) -> addresses_in A (types w) ->
  addresses_in A (types (user_data ctx)).
Proof.
  intros Hw E HA. unfold create in E. cbn [args user_data] in E. destruct frame as [|a fr]; [done|].
  destruct (is_barrier a); [by injection E as <- <-|].
  destruct (GetStr a) as [n|]; [|by injection E as <- <-].
  assert (Htm : addresses_in A (snd (fst (EnsureVaultWithType (vault w) (types w) n (storage w))))).
  { unfold EnsureVaultWithType. destruct (objects_ (storage w) !! n); [done|].
    pose proof (FindSchema_addresses A (vault w) n (types w) (wo_types w Hw) (wo_vault w Hw) HA) as Hf.
    destruct (FindSchema _ _ _) as [[s|] tm]; [|done]. by destruct (IsBasic s). }
  destruct (EnsureVaultWithType _ _ _ _) as [[v tm] s1]. cbn [fst snd] in Htm.
  destruct (CreateObject n s1) as [[e|[obj sch]] s2]; [by injection E as <- <-|].
  by destruct (create_fields_local_data _ _ _ _ _ _ _ E) as [_ ->].
Qed.

Lemma defstruct_addresses A frame err w b ctx :
  world_ok w -> defstruct (MkCtx frame [] err w) = Some (b, ctx) -> addresses_in A (types w) ->
  addresses_in A (types (user_data ctx)).
Proof.
  intros Hw E HA. unfold defstruct in E. cbn [args user_data] in E. destruct frame as [|a fr]; [done|].
  destruct (_ || _); [by injection E as <- <-|].
  pose proof (FindSchema_addresses A (vault w) (GetUnsafeStr a) (types w) (wo_types w Hw) (wo_vault w Hw) HA) as [Hf1 Hf2].
  destruct (FindSchema_ok (vault w) (GetUnsafeStr a) (types w) (wo_types w Hw) (wo_vault w Hw)) as (_ & Hok & _ & Hn & _).
  unfold HasType in E. destruct (FindSchema _ _ _) as [r tm1]. cbn [fst snd] in *.
  destruct r as [s|]; [by injection E as <- <-|]. destruct (count_fields _ _ _) as [nf|]; [|done].
  assert (Hlt : (vault w < length (vaults_ tm1))%nat) by (rewrite Hn; apply Hw).
  destruct (lookup_lt_is_Some_2 _ _ Hlt) as [v Hv].
  pose proof (CreateSchema_spec (vault w) (GetUnsafeStr a) (defstruct_handler (vault w) fr) tm1 v Hok Hv
    (defstruct_handler_reads _ _)) as Hs.
  destruct (CreateSchema _ _ _ _) as [[r tm2] msg]. destruct Hs as (_ & _ & Hal & Hs).
  assert (HA2 : addresses_in A tm2).
  { split; [|intros k; by destruct (Hal k) as [j ->]].
    destruct (first_named _ _); [by destruct Hs as [_ ->]|].
    destruct (fst (fst _)) as [body|]; [|by destruct Hs as [_ ->]]. destruct Hs as [_ ->].
    apply Forall_app. split; [done|]. constructor; [|done]. destruct body as [[al size] fields]. apply Hf2. }
  by destruct r; injection E as <- <-.
Qed.

(** * Values store the member their type reads *)

Definition string_address (a : Z) : bool := (a =? schema_addr T_StrSpan) || (a =? schema_addr T_Field).

(** Every schema of the registry has an address of its own. *)
Definition sound (w : World) : Prop := world_ok w /\ addresses_in (fun a => string_address a = false) (types w).

Definition member_ok (v : TypedValue) : Prop :=
  match tv_value v with VStr _ _ => string_address (schema_addr (tv_type v)) = true
                      | VWord _ => string_address (schema_addr (tv_type v)) = false end.

Lemma InitialWorld_sound allocator heap m :
  (forall n, last_static_addr < allocator n) -> sound (InitialWorld allocator heap m).
Proof.
  intros Ha. split; [apply InitialWorld_ok; intros n E; specialize (Ha n); unfold last_static_addr in Ha; cbn in E; lia|].
  split; [repeat constructor|]. intros n. cbn. specialize (Ha n). unfold last_static_addr in Ha.
  apply orb_false_iff. split; apply Z.eqb_neq; cbn; lia.
Qed.

Definition members : Contract World.
Proof.
  refine {| holds := sound; fits _ v := is_barrier v = false /\ member_ok v; later _ _ := True |}.
  - by split.
  - done.
  - by intros w v [].
Defined.
#[local] Existing Instance members.

Lemma registered_fits w s p :
  sound w -> s ∈ types_list_ (types w) -> fits w (MkTyped s (VPtr p)).
Proof.
  intros [Hw [Ha _]] Hs. split; [by apply (registered_not_barrier (types_list_ (types w))); [apply wo_addrs|]|].
  rewrite List.Forall_forall in Ha. by apply Ha, list_elem_of_In.
Qed.

(** The types of the objects are registered. *)
Lemma enumerated_registered w n os : world_ok w -> os ∈ enumerated n (storage w) -> snd os ∈ types_list_ (types w).
Proof.
  intros Hw. unfold enumerated, Enumerate, FindVaultWithType.
  destruct (objects_ (storage w) !! n) as [v|] eqn:E; cbn; [|by intros ?%elem_of_nil].
  intros (o & -> & _)%list_elem_of_fmap. by apply (wo_storage w Hw n).
Qed.

(** A call's outputs: none, or a pointer to the new object. *)
Lemma create_output frame err w b ctx :
  world_ok w -> create (MkCtx frame [] err w) = Some (b, ctx) ->
  output ctx = [] \/
  exists a fr n sch, frame = a :: fr /\ GetStr a = Some n /\ object_type n w = Some sch /\
    output ctx = [MkTyped sch (VPtr (data_ (next_object (storage w))))].
Proof.
  intros Hw E. unfold create in E. cbn [args user_data] in E. destruct frame as [|a fr]; [done|].
  destruct (is_barrier a); [injection E as <- <-; by left|].
  destruct (GetStr a) as [n|] eqn:En; [|injection E as <- <-; by left].
  pose proof (EnsureVault_spec n w Hw) as He.
  destruct (EnsureVaultWithType (vault w) (types w) n (storage w)) as [[ov tm] s1].
  destruct He as (_ & Hg & Hh & _ & Hty). pose proof (CreateObject_spec n s1) as Hc.
  destruct (object_type n w) as [sch|] eqn:Eo.
  - destruct Hty as (v & Hv & <-). rewrite Hv in Hc. destruct Hc as (s2 & Ec & _). rewrite Ec in E.
    apply create_fields_output in E. destruct b; [right|by left]. exists a, fr, n, (schema_ v). split_and!; [done..|].
    rewrite E. unfold next_object. by rewrite Hg, Hh.
  - rewrite Hty in Hc. rewrite Hc in E. injection E as <- <-. by left.
Qed.

(** An arithmetic function changes nothing and gives at most one number. *)
Definition number_result {W} (w : W) (r : option (bool * CallContext W)) : Prop :=
  forall b ctx, r = Some (b, ctx) -> user_data ctx = w /\
    (output ctx = [] \/ exists t z, t <> TStr /\ output ctx = [MkTyped (GetBasicType t) (VWord z)]).

Lemma add_output_number {W A} t (mk : A -> Value) (x : option A) it err (w : W) :
  t <> TStr -> (forall a, exists z, mk a = VWord z) ->
  number_result w (add_output t (option_map mk x) (MkCtx it [] err w)).
Proof.
  intros Ht Hmk b ctx. destruct x as [a|]; [|done]. intros [= _ <-]. split; [done|right].
  destruct (Hmk a) as [z Hz]. exists t, z. cbn. by rewrite Hz.
Qed.

Lemma math_number {W} (c : Call W) it err w :
  c ∈ [math_add; math_sub; math_mul; math_div] -> number_result w (c (MkCtx it [] err w)).
Proof.
  intros Hc. apply list_elem_of_In in Hc.
  repeat (destruct Hc as [<-|Hc];
    [unfold math_add, math_sub, math_mul, math_div, math_call; cbn [args];
     destruct (CheckOperationType it false) as [[]|];
       [intros b ctx [= _ <-]; split; [done|by left]
       |apply add_output_number; [done|by eexists]..|done]|]). done.
Qed.

Lemma number_fits (w : World) t z : t <> TStr -> fits w (MkTyped (GetBasicType t) (VWord z)).
Proof. by destruct t. Qed.

(** ** The functions keep it *)

(** What is left to show of a function that keeps the state invariant. *)
Lemma keeps_members c :
  call_ok world_ok c ->
  (forall fr err w b ctx, Forall (fits w) fr -> sound w -> c (MkCtx (fr ++ [bar]) [] err w) = Some (b, ctx) ->
     sound (user_data ctx) -> Forall (fits (user_data ctx)) (output ctx)) ->
  (forall fr err w b ctx, world_ok w -> c (MkCtx fr [] err w) = Some (b, ctx) ->
     forall A, addresses_in A (types w) -> addresses_in A (types (user_data ctx))) ->
  call_keeps c.
Proof.
  intros [_ Hok] Hout Hadd fr err w b ctx Hfr Hw E.
  assert (Hw' : sound (user_data ctx)).
  { split; [by apply (Hok fr err w b ctx (fits_no_barrier w fr Hfr) (proj1 Hw))|].
    by apply (Hadd _ _ _ _ _ (proj1 Hw) E), Hw. }
  split_and!; [done|done|by apply (Hout fr err w b)].
Qed.

Lemma math_keeps_members c : c ∈ [math_add; math_sub; math_mul; math_div] -> call_keeps c.
Proof.
  intros Hc fr err w b ctx _ Hw E. destruct (math_number c _ err w Hc _ _ E) as [-> Ho].
  split_and!; [done|done|]. destruct Ho as [->|(t & z & Ht & ->)]; [constructor|].
  constructor; [by apply number_fits|constructor].
Qed.

Lemma create_keeps_members : call_keeps create.
Proof.
  apply keeps_members; [apply create_ok| |].
  - intros fr err w b ctx Hfr Hw E Hw'. pose proof (create_spec fr err w b ctx (proj1 Hw) (fits_no_barrier w fr Hfr) E) as [Ht _].
    destruct (create_output _ _ _ _ _ (proj1 Hw) E) as [->|(a & fr' & n & sch & _ & _ & Ho & ->)]; [constructor|].
    constructor; [|constructor]. apply registered_fits; [done|]. rewrite Ht.
    by apply (object_type_registered n); [apply Hw|].
  - intros fr err w b ctx Hw E A. by apply create_addresses with (err := err) (b := b) (frame := fr).
Qed.

Lemma select_outcome fr err w b ctx :
  select (MkCtx fr [] err w) = Some (b, ctx) ->
  user_data ctx = w /\
  (output ctx = [] \/
   exists n, output ctx = map (fun os => MkTyped (snd os) (VPtr (data_ (fst os)))) (enumerated n (storage w))).
Proof.
  unfold select. cbn [args user_data]. destruct fr as [|a fr]; [done|].
  destruct (_ || _); [intros [= _ <-]; split; [done|by left]|]. intros [= _ <-].
  edestruct fold_AddTyped_output as (-> & -> & _). cbn. split; [done|right]. by exists (GetUnsafeStr a).
Qed.

Lemma select_keeps_members : call_keeps select.
Proof.
  intros fr err w b ctx _ Hw E. destruct (select_outcome _ _ _ _ _ E) as [-> Ho].
  split_and!; [done|done|]. destruct Ho as [->|[n ->]]; [constructor|].
  apply Forall_map, List.Forall_forall. intros os Hos%list_elem_of_In.
  apply (registered_fits w); [done|]. by apply (enumerated_registered w n); [apply Hw|].
Qed.

Lemma list_keeps_members : call_keeps list_.
Proof.
  intros fr err w b ctx Hfr Hw. unfold list_. cbn [args].
  rewrite list_args_spec by (try done; by apply (fits_no_barrier w)). intros [= _ <-]. by split_and!.
Qed.

Lemma defstruct_keeps_members : call_keeps defstruct.
Proof.
  apply keeps_members; [apply defstruct_ok| |].
  - intros fr err w b ctx Hfr Hw E _.
    destruct (defstruct_spec fr [] err w b ctx (proj1 Hw) (fits_no_barrier w fr Hfr) E) as (-> & _). constructor.
  - intros fr err w b ctx Hw E A. by apply defstruct_addresses with (err := err) (b := b) (frame := fr).
Qed.

Lemma database_keeps_members json name c : FindCall (CreateSlangEnv json) name = Some c -> call_keeps c.
Proof.
  apply database_calls; [apply create_keeps_members|apply select_keeps_members|apply list_keeps_members
    |apply defstruct_keeps_members|].
  apply List.Forall_forall. intros f Hf%list_elem_of_In. by apply math_keeps_members.
Qed.

Lemma constant_fits v : constant (fun _ => True) v -> fits_always v.
Proof. by intros [] w _. Qed.

(** The world an evaluation ends in. *)
Definition outcome_world {W} (o : Outcome W) : W := match o with Failed _ w => w | Values _ _ w => w end.

Lemma resolved_evaluates json e a err w r a' :
  resolve (CreateSlangEnv json) e a = Some (r, a') -> sound w ->
  exists o, eval r err w = Some o /\ sound (outcome_world o) /\
    match o with Failed _ _ => True | Values vs _ _ => Forall (fun v => is_barrier v = false /\ member_ok v) vs end.
Proof.
  intros Er Hw. destruct (eval_defined world_ok r err w) as [o Eo].
  - by apply (resolve_ok world_ok _ e a r a' (database_env_ok json)).
  - apply (resolve_all _ _ (fun _ => True) (CreateSlangEnv json) e a r a'); [done|by apply database_defined|done|done].
  - apply Hw.
  - exists o. split; [done|].
    pose proof (eval_keeps r err w o) as Ho.
    assert (Hall : rexp_all fits_always call_keeps r)
      by (apply (resolve_all _ _ (fun _ => True) (CreateSlangEnv json) e a r a'); [apply constant_fits|by apply database_keeps_members|done|done]).
    specialize (Ho Hall Hw Eo). destruct o as [text w'|vs err' w']; cbn in Ho |- *; [by destruct Ho|].
    by destruct Ho as (Hw' & _ & Hvs).
Qed.

Lemma request_evaluates json e a err w :
  known (CreateSlangEnv json) e -> sound w ->
  exists r a' o, resolve (CreateSlangEnv json) e a = Some (r, a') /\ eval r err w = Some o /\ sound (outcome_world o).
Proof.
  intros Hk Hw. destruct (known_resolve _ e a Hk) as [[r a'] Er]. exists r, a'.
  destruct (resolved_evaluates json e a err w r a' Er Hw) as (o & Eo & Ho & _). by exists o.
Qed.

(** * Property *)

(** C3. Programs cannot go wrong: the program compiled from any expression runs
    to an end in every sound state, whatever its functions are given -- no
    function violates a check, leaves its frame or reads a value as something
    it is not -- and leaves a sound state; the values a finished program leaves
    each store the member their type reads, and none is the frame marker. *)
Theorem programs_cannot_go_wrong json e a err w r a' :
  resolve (CreateSlangEnv json) e a = Some (r, a') -> sound w ->
  exists fin, run (rev (code_of r)) [] err w = Some fin /\
    match fin with
    | Aborted _ w' => sound w'
    | Finished stack _ w' => sound w' /\ Forall (fun v => is_barrier v = false /\ member_ok v) stack
    end.
Proof.
  intros Er Hw. destruct (resolved_evaluates json e a err w r a' Er Hw) as (o & Eo & Ho & Hvs).
  rewrite <- (app_nil_r (rev (code_of r))), (run_eval world_ok)
    by (try apply Hw; by apply (resolve_ok world_ok (CreateSlangEnv json) e a r a' (database_env_ok json))).
  rewrite Eo. destruct o as [text w'|vs err' w']; cbn [resume run app]; by eexists.
Qed.

(** The type is defined while the arguments are computed, and the field then
    has no value. *)
Definition demo_program : sexp :=
  ECall (lit "create") [EStr (lit "p"); EName (lit ":x"); ECall (lit "defstruct") [EStr (lit "p"); EName (lit ":x"); EStr (lit "int8")]].

Lemma programs_cannot_go_wrong_witness :
  exists r a' fin, resolve (CreateSlangEnv JsonPayloadHandler) demo_program demo_alloc = Some (r, a') /\
    run (rev (code_of r)) [] (StrBuilderNew 128) demo_world = Some fin.
Proof.
  destruct (resolve (CreateSlangEnv JsonPayloadHandler) demo_program demo_alloc) as [[r a']|] eqn:E.
  - destruct (programs_cannot_go_wrong JsonPayloadHandler demo_program demo_alloc (StrBuilderNew 128) demo_world r a')
      as (fin & Hf & _); [exact E|apply InitialWorld_sound; intros n; unfold demo_alloc, last_static_addr; lia|].
    exists r, a', fin. split; [reflexivity|exact Hf].
  - exfalso. apply (f_equal (fun x : option _ => if x then true else false)) in E. vm_compute in E. discriminate.
Defined.
