(* ===== verification/Json.v ===== *)
(** [json/json_serializer.h/.cc]: values as JSON text on a stream writer.

    The serializer ignores the result of its writes and asks [IsGood] at the
    end; what it writes is a list of chunks, one per [Write] call.  A string
    literal goes through the generic [Write<T>] template, which writes its
    [sizeof]: the terminating NUL is part of the output.  A failed assertion is
    [None]. *)
From S2P Require Import Prelude Either StrBuild CLib Stream Types Call Storage SlangEnv Program.
Local Open Scope Z_scope.

(** [writer_.Write("...")]: the literal's bytes and its terminator. *)
(** source/base/stream.h:208-211 [StreamWriter::Write] *)
Definition literal (s : bytes) : bytes := s ++ [c_nul].

(** [writer_.Write(c)] for a character. *)
(** source/base/stream.h:208-211 [StreamWriter::Write] *)
Definition one (c : ascii) : bytes := [c].

(** * Strings *)

(** The chunks one character causes; the pending span is always empty because
    every branch moves [prev] behind the character. *)
(** source/json/json_serializer.cc:188-238 [JsonSerializer::WriteEscapedString] *)
Definition escape_char (c : ascii) : list bytes :=
  if (c =c c_backslash) || (c =c c_quote) then [[]; literal [c_backslash; c_quote]]
  else if c =c c_bs then [[]; literal (lit "\b")]
  else if c =c c_tab then [[]; literal (lit "\t")]
  else if c =c c_lf then [[]; literal (lit "\n")]
  else if c =c c_ff then [[]; literal (lit "\f")]
  else if c =c c_cr then [[]; literal (lit "\r")]
  else if uchar c <? 16 then
    [[]; Buffer (Append (StrBuilderNew 64) [AStr (lit "\u000"); AHex (uchar c) false])]
  else if uchar c <? 32 then
    [[]; Buffer (Append (StrBuilderNew 64) [AStr (lit "\u00"); AHex (uchar c) false])]
  else [one c].

(** source/json/json_serializer.cc:180-243 [JsonSerializer::WriteEscapedString] *)
Definition WriteEscapedString (str : bytes) : list bytes :=
  [one c_quote] ++ concat (map escape_char str) ++ [[]; one c_quote].

(** * Values *)

(** [snprintf] into the region, with its terminator. *)
(** source/base/str_build_types.h:332-344 [StrBuild<StrHiPrecision>] *)
Definition BuildHiPrecision (sb : StrBuilder) (value : double) : StrBuilder :=
  let text := fmt_g24 value in
  Write sb (S (length text)) (fun region => (length text, text ++ [c_nul])).

(** source/json/json_serializer.cc:150-178 [JsonSerializer::WriteBasicValue] *)
Definition WriteTypedValue (value : TypedValue) : list bytes :=
  let sb := StrBuilderNew 128 in
  if IsUnsignedInt (tv_type value) then [Buffer (Append sb [AUInt (val_u64 (tv_value value))])]
  else if IsSignedInt (tv_type value) then [Buffer (Append sb [AInt (val_i64 (tv_value value))])]
  else if IsFloatingPoint (tv_type value) then
    let sb' := BuildHiPrecision sb (val_dbl (tv_value value)) in
    match Buffer sb' with
    | [] => [fmt_g24 (val_dbl (tv_value value)); Buffer sb']
    | text => [text]
    end
  else if same_type (tv_type value) T_StrSpan then
    WriteEscapedString (GetUnsafeStr value) ++ [Buffer sb]
  else [Buffer sb].

(** A stored number as a value; a basic type of another size than 1, 2, 4 or 8
    leaves the code's variable unset, and no such type is ever registered. *)
(** source/json/json_serializer.cc:90-148 [JsonSerializer::WriteBasicValue] *)
Definition LoadBasicValue (m : Mem) (type : TypeSchema) (data : Z) : TypedValue :=
  let sz := schema_size type in
  let raw (n : Z) : Z := load m data (Z.to_nat n) in
  if IsFloatingPoint type then
    MkTyped type (VDbl (if sz =? 4 then double_of_f32 (f32_of_bits (raw 4)) else d_of_bits (raw 8)))
  else if IsUnsignedInt type then
    MkTyped type (VU64 (if sz =? 1 then raw 1 else if sz =? 2 then raw 2 else if sz =? 4 then raw 4 else raw 8))
  else
    MkTyped type (VI64 (if sz =? 1 then wrap_s 8 (raw 1) else if sz =? 2 then wrap_s 16 (raw 2)
                        else if sz =? 4 then wrap_s 32 (raw 4) else wrap_s 64 (raw 8))).

(** source/json/json_serializer.cc:90-148 [JsonSerializer::WriteBasicValue] *)
Definition WriteStoredValue (m : Mem) (type : TypeSchema) (data : Z) : list bytes :=
  WriteTypedValue (LoadBasicValue m type data).

(** source/json/json_serializer.cc:61-88 [JsonSerializer::WriteObject] *)
Fixpoint WriteObject (m : Mem) (schema : TypeSchema) (object : Z) {struct schema} : list bytes :=
  match schema with
  | MkSchema _ _ _ _ _ fields =>
      let fix go (fields : list (bytes * TypeSchema)) (object : Z) : list bytes :=
        match fields with
        | [] => []
        | (name, t) :: fields' =>
            let object := AlignPtr object (schema_alignment t) in
            [literal [c_quote]; name; literal [c_quote; ":"%char]]
            ++ (if IsBasic t then WriteStoredValue m t object else WriteObject m t object)
            ++ match fields' with [] => [] | _ => [literal (lit ", ")] end
            ++ go fields' (OffsetPtr object (schema_size t))
        end in
      [one "{"%char] ++ go fields object ++ [one "}"%char]
  end.

(** ** Assertions

    What the serializer asserts of a value.  A failed assertion ends the
    process, whatever part of the value was written before. *)

(** source/json/json_serializer.cc:150-178 [JsonSerializer::WriteBasicValue] *)
Definition basic_checked (type : TypeSchema) : bool :=
  IsUnsignedInt type || IsSignedInt type || IsFloatingPoint type || same_type type T_StrSpan.

(** The assertion of the size of the field is [WriteObject]'s. *)
(** source/json/json_serializer.cc:90-148 [JsonSerializer::WriteBasicValue] *)
Definition stored_checked (type : TypeSchema) (data : Z) : bool :=
  let sz := schema_size type in
  (sz <=? 16) && negb (data =? 0) &&
  (if IsFloatingPoint type then (sz =? 4) || (sz =? 8) else (sz =? 1) || (sz =? 2) || (sz =? 4) || (sz =? 8)) &&
  basic_checked type.

(** source/json/json_serializer.cc:61-88 [JsonSerializer::WriteObject] *)
Fixpoint object_checked (schema : TypeSchema) (object : Z) {struct schema} : bool :=
  IsAligned schema object &&
  match schema with
  | MkSchema _ _ _ _ _ fields =>
      (fix go (fields : list (bytes * TypeSchema)) (object : Z) : bool :=
        match fields with
        | [] => true
        | (name, t) :: fields' =>
            let object := AlignPtr object (schema_alignment t) in
            (if IsBasic t then stored_checked t object else object_checked t object)
            && go fields' (OffsetPtr object (schema_size t))
        end) fields object
  end.

(** source/json/json_serializer.cc:30-34 [JsonSerializer::Serialize] *)
Definition value_checked (v : TypedValue) : bool :=
  if IsBasic (tv_type v) then basic_checked (tv_type v) else object_checked (tv_type v) (val_ptr (tv_value v)).

(** source/json/json_serializer.cc:30-34 [JsonSerializer::Serialize] *)
Definition WriteValue (m : Mem) (v : TypedValue) : list bytes :=
  if IsBasic (tv_type v) then WriteTypedValue v else WriteObject m (tv_type v) (val_ptr (tv_value v)).

(** source/json/json_serializer.cc:26-41 [JsonSerializer::Serialize] *)
Fixpoint WriteValues (m : Mem) (values : list TypedValue) : list bytes :=
  match values with
  | [] => []
  | [v] => WriteValue m v
  | v :: values' => WriteValue m v ++ [literal (lit ", ")] ++ WriteValues m values'
  end.

(** * On the stream *)

Section OnStream.
  Context {O : Type} `{OutStream O}.

(** The chunks written one after the other, results ignored. *)
Fixpoint write_all (chunks : list bytes) (w : StreamWriter O) : option (StreamWriter O) :=
  match chunks with
  | [] => Some w
  | c :: chunks' =>
      match WriteData c w with
      | None => None
      | Some (_, w') => write_all chunks' w'
      end
  end.

(** source/json/json_serializer.cc:50-59 [JsonSerializer::FinalizeWrite] *)
Definition FinalizeWrite (w : StreamWriter O) : option (Either bytes unit * StreamWriter O) :=
  match write_all [one c_lf] w with
  | None => None
  | Some w1 =>
      let '(_, w2) := Flush w1 in
      Some (if WriterIsGood w2 then Right tt else Left (lit "Failed to serialize - I/O error"), w2)
  end.

Definition serialize_chunks (chunks : list bytes) (w : StreamWriter O)
    : option (Either bytes unit * StreamWriter O) :=
  match write_all chunks w with None => None | Some w1 => FinalizeWrite w1 end.

(** source/json/json_serializer.cc:26-43 [JsonSerializer::Serialize] *)
Definition list_chunks (m : Mem) (values : list TypedValue) : list bytes :=
  [one "["%char] ++ WriteValues m values ++ [one "]"%char].

(** source/json/json_serializer.cc:16-48 [JsonSerializer] *)
#[export] Instance JsonSerializer : Serializer World (StreamWriter O) := {
  SerializeValue w v x := if value_checked v then serialize_chunks (WriteValue (mem w) v) x else None;
  SerializeList w vs x := if forallb value_checked vs then serialize_chunks (list_chunks (mem w) vs) x else None;
  SerializeStr s x := serialize_chunks (WriteEscapedString s) x
}.
End OnStream.

(** The whole output of a serialization. *)
Definition rendered (chunks : list bytes) : bytes := concat chunks ++ [c_lf].

Section Delivery.
  Context {O : Type} {sent : O -> bytes} `{OutStreamLaws O sent}.

Lemma write_all_spec chunks w :
  writer_wf w ->
  exists w', write_all chunks w = Some w' /\ writer_wf w' /\
    (write_error_ w' = ErrNone ->
     write_error_ w = ErrNone /\ accepted sent w' = accepted sent w ++ concat chunks).
Proof.
  revert w. induction chunks as [|c chunks IH]; intros w Hwf; cbn [write_all].
  { exists w. cbn. rewrite app_nil_r. done. }
  destruct (WriteData_spec sent c w Hwf) as (r & w1 & -> & Hwf1 & _ & Hr).
  destruct (IH w1 Hwf1) as (w2 & E & Hwf2 & Hgood). exists w2. split; [done|]. split; [done|].
  intros Hg. destruct (Hgood Hg) as [He Ha]. destruct r as [e|[]].
  - destruct Hr as [Hr Hne]. congruence.
  - destruct Hr as [Hacc Herr]. rewrite Herr in He. split; [done|].
    cbn [concat]. by rewrite Ha, Hacc, app_assoc.
Qed.

Lemma serialize_chunks_spec chunks w :
  writer_wf w ->
  exists r w', serialize_chunks chunks w = Some (r, w') /\ writer_wf w' /\
    (r = Right tt -> write_error_ w = ErrNone /\ sent (out_ w') = accepted sent w ++ rendered chunks).
Proof.
  intros Hwf. unfold serialize_chunks, FinalizeWrite.
  destruct (write_all_spec chunks w Hwf) as (w1 & -> & Hwf1 & Hg1).
  destruct (write_all_spec [one c_lf] w1 Hwf1) as (w2 & -> & Hwf2 & Hg2).
  pose proof (Flush_spec sent w2 Hwf2) as HF. destruct (Flush w2) as [rf w3].
  destruct HF as (Hwf3 & _ & Hws & Hr). eexists _, w3. split; [done|]. split; [done|].
  unfold WriterIsGood. case_bool_decide as Hgood; [|done]. intros _.
  destruct rf as [e|[]]; [destruct Hr; congruence|]. destruct Hr as [Hacc Herr].
  destruct (Hg2 ltac:(congruence)) as [He2 Ha2]. destruct (Hg1 He2) as [He1 Ha1]. split; [done|].
  assert (Hsent : accepted sent w3 = sent (out_ w3)).
  { unfold accepted, pending. rewrite Hws. cbn. apply app_nil_r. }
  rewrite <- Hsent, Hacc, Ha2, Ha1. unfold rendered. cbn. by rewrite <- app_assoc.
Qed.

(** On a stream that takes everything nothing fails. *)
Lemma write_all_accepts good chunks w w' :
  accepts (S:=O) good -> good (out_ w) -> write_all chunks w = Some w' -> write_error_ w' = write_error_ w /\ good (out_ w').
Proof.
  intros Hok. revert w. induction chunks as [|c chunks IH]; intros w Hg; cbn [write_all]; [by intros [= ->]|].
  destruct (WriteData c w) as [[r w1]|] eqn:E; [|done]. apply (WriteData_accepts good c w r w1 Hok Hg) in E as (_ & E & Hg1).
  intros E2. rewrite <- E. by apply IH.
Qed.

Lemma serialize_chunks_accepts good chunks w :
  accepts (S:=O) good -> good (out_ w) -> writer_wf w -> write_error_ w = ErrNone ->
  exists w', serialize_chunks chunks w = Some (Right tt, w') /\ writer_wf w' /\ write_error_ w' = ErrNone /\
    good (out_ w') /\ accepted sent w' = accepted sent w ++ rendered chunks.
Proof.
  intros Hok Hgood Hwf He. unfold serialize_chunks, FinalizeWrite.
  destruct (write_all_spec chunks w Hwf) as (w1 & E1 & Hwf1 & Hg1). rewrite E1.
  destruct (write_all_spec [one c_lf] w1 Hwf1) as (w2 & E2 & Hwf2 & Hg2). rewrite E2.
  apply (write_all_accepts good _ _ _ Hok Hgood) in E1 as [E1 G1]. apply (write_all_accepts good _ _ _ Hok G1) in E2 as [E2 G2].
  pose proof (Flush_spec sent w2 Hwf2) as HF. destruct (Flush_accepts good w2 Hok G2) as (HR & HE & G3).
  destruct (Flush w2) as [[e|[]] w3]; [done|]. cbn in HE, G3. destruct HF as (Hwf3 & _ & Hws & Ha & _).
  assert (Hg : write_error_ w3 = ErrNone) by congruence.
  eexists w3. unfold WriterIsGood. rewrite bool_decide_true by done. split; [done|]. split; [done|]. split; [done|]. split; [done|].
  destruct (Hg2 ltac:(congruence)) as [_ Ha2]. destruct (Hg1 ltac:(congruence)) as [_ Ha1].
  rewrite Ha, Ha2, Ha1. unfold rendered. cbn. by rewrite <- app_assoc.
Qed.
End Delivery.
