(* ===== verification/JsonText.v ===== *)
(** What the JSON serializer's text means: its delivery through the stream
    writer, the escaping of strings against a decoder of JSON strings, and
    stored integers against their decimal text. *)
From S2P Require Import Prelude Either StrBuild CLib Stream Types Call TypeVault Storage Layout Program.
From S2P Require Import SlangEnv World Database Objects Json.
Local Open Scope Z_scope.

(** * JSON strings (RFC 8259), restricted to the escapes below U+0100 *)

Definition hex_digit (c : ascii) : option Z :=
  if is_digit c then Some (digit_val c)
  else if (97 <=? uchar c) && (uchar c <=? 102) then Some (uchar c - 87)
  else if (65 <=? uchar c) && (uchar c <=? 70) then Some (uchar c - 55)
  else None.

Definition simple_escape (c : ascii) : option ascii :=
  if c =c c_quote then Some c_quote
  else if c =c c_backslash then Some c_backslash
  else if c =c "/" then Some "/"%char
  else if c =c "b" then Some c_bs
  else if c =c "f" then Some c_ff
  else if c =c "n" then Some c_lf
  else if c =c "r" then Some c_cr
  else if c =c "t" then Some c_tab
  else None.

Definition push (c : ascii) (r : option (bytes * bytes)) : option (bytes * bytes) :=
  option_map (fun sr => (c :: fst sr, snd sr)) r.

(** The string up to its closing quote, and the text behind it. *)
Fixpoint json_string (s : bytes) : option (bytes * bytes) :=
  match s with
  | [] => None
  | c :: s1 =>
      if c =c c_quote then Some ([], s1)
      else if c =c c_backslash then
        match s1 with
        | [] => None
        | e :: s2 =>
            if e =c "u" then
              match s2 with
              | h1 :: h2 :: h3 :: h4 :: s6 =>
                  match hex_digit h1, hex_digit h2, hex_digit h3, hex_digit h4 with
                  | Some 0, Some 0, Some d3, Some d4 => push (char_of (16 * d3 + d4)) (json_string s6)
                  | _, _, _, _ => None
                  end
              | _ => None
              end
            else
              match simple_escape e with
              | Some c' => push c' (json_string s2)
              | None => None
              end
        end
      else push c (json_string s1)
  end.

(** The text without the NUL bytes the literals bring with them. *)
Definition strip_nuls (s : bytes) : bytes := List.filter (fun c => negb (c =c c_nul)) s.

Definition quote_backslash (c : ascii) : ascii := if c =c c_backslash then c_quote else c.

Lemma strip_nuls_app s1 s2 : strip_nuls (s1 ++ s2) = strip_nuls s1 ++ strip_nuls s2.
Proof. apply List.filter_app. Qed.

(** The text of one character. *)
Definition escape_text (c : ascii) : bytes := strip_nuls (concat (escape_char c)).

Lemma json_string_char c rest :
  json_string (escape_text c ++ rest) = push (quote_backslash c) (json_string rest).
Proof. destruct c as [[] [] [] [] [] [] [] []]; reflexivity. Qed.

(** C16. String escaping round trip.  Without its NUL bytes, what
    [WriteEscapedString] writes for a string is an opening quote and a text
    that a JSON decoder reads back, up to a closing quote and nothing behind
    it, as the same string with every backslash turned into a quote. *)
Theorem escaped_string_reads_back (str : bytes) :
  exists body, strip_nuls (concat (WriteEscapedString str)) = c_quote :: body /\
    json_string body = Some (map quote_backslash str, []).
Proof.
  exists (concat (map escape_text str) ++ [c_quote]). split.
  - unfold WriteEscapedString. rewrite !concat_app, !strip_nuls_app. cbn -[concat map]. f_equal. f_equal.
    induction str as [|c str IH]; [done|]. cbn [map concat]. rewrite concat_app, strip_nuls_app, IH. done.
  - induction str as [|c str IH]; [done|]. cbn [map concat]. rewrite <- app_assoc, json_string_char, IH. done.
Qed.

Example escaped_backslash :
  concat (WriteEscapedString [c_backslash]) = [c_quote; c_backslash; c_quote; c_nul; c_quote].
Proof. reflexivity. Qed.

(** * Numbers *)

Lemma Buffer_one Size a :
  (129 <= Size + 1)%nat -> arg_ok a -> (length (arg_text a) <= 24)%nat ->
  Buffer (Append (StrBuilderNew Size) [a]) = arg_text a.
Proof.
  intros Hs Ha Hl. assert (Hwf : sb_wf (StrBuilderNew Size)) by (apply sb_new_wf; lia).
  destruct (Append_spec (StrBuilderNew Size) [a] Hwf (Forall_cons_2 _ _ _ Ha (Forall_nil_2 _))) as (_ & _ & ->).
  assert (Hu : UseSize (StrBuilderNew Size) = pred Size) by (unfold UseSize; cbn; by rewrite length_replicate).
  cbn [fold_left]. unfold append_ref. rewrite Hu. change (Buffer (StrBuilderNew Size)) with (@nil ascii).
  destruct (arg_room a) as [room|] eqn:Er; cbn [length app].
  - destruct (Nat.ltb_spec (pred Size - 0) room) as [Hlt|]; [|done].
    destruct a; cbn in Er; inversion Er; subst; lia.
  - apply take_ge. lia.
Qed.

(** The number an integer field of type [t] holds after [z] was written. *)
Definition field_number (t : TypeSchema) (z : Z) : Z :=
  if IsUnsignedInt t then wrap_u (8 * schema_size t) z else wrap_s (8 * schema_size t) z.

Lemma uint_in_u64 k z : 0 <= k <= 64 -> in_u 64 (wrap_u k z).
Proof.
  intros Hk. unfold wrap_u. pose proof (Z.mod_pos_bound z (2 ^ k) ltac:(apply Z.pow_pos_nonneg; lia)).
  pose proof (Z.pow_le_mono_r 2 k 64). split; lia.
Qed.

Lemma sint_in_s64 k z : 0 < k <= 64 -> in_s 64 (wrap_s k z).
Proof.
  intros Hk. unfold wrap_s. pose proof (Z.mod_pos_bound (z + 2 ^ (k - 1)) (2 ^ k) ltac:(apply Z.pow_pos_nonneg; lia)).
  pose proof (Z.pow_le_mono_r 2 (k - 1) 63 ltac:(lia) ltac:(lia)).
  assert (2 ^ k = 2 * 2 ^ (k - 1)) as E by (rewrite <- Z.pow_succ_r by lia; f_equal; lia).
  split; lia.
Qed.

(** Reading an integer field. *)
Lemma LoadBasicValue_int m t p z :
  t ∈ initial_types -> IsIntegral t = true ->
  load m p (Z.to_nat (schema_size t)) = z mod 256 ^ schema_size t ->
  LoadBasicValue m t p =
    MkTyped t (if IsUnsignedInt t then VU64 (field_number t z) else VI64 (field_number t z)).
Proof.
  intros Ht%list_elem_of_In Hi Hl. unfold LoadBasicValue, field_number.
  repeat (destruct Ht as [<-|Ht]; [try discriminate Hi; cbn -[Z.pow load] in Hl |- *; rewrite Hl;
    try reflexivity; change (256 ^ 1) with (2 ^ 8); change (256 ^ 2) with (2 ^ 16);
    change (256 ^ 4) with (2 ^ 32); change (256 ^ 8) with (2 ^ 64);
    match goal with |- context [z mod 2 ^ ?k] => change (z mod 2 ^ k) with (wrap_u k z) end;
    rewrite ?wrap_s_mod by lia; reflexivity|]). done.
Qed.

(** The decimal text of an integer of type [t]. *)
Definition number_text (t : TypeSchema) (z : Z) : bytes := if IsUnsignedInt t then uint_str z else int_str z.

Lemma WriteStoredValue_int m t p z :
  t ∈ initial_types -> IsIntegral t = true ->
  load m p (Z.to_nat (schema_size t)) = z mod 256 ^ schema_size t ->
  WriteStoredValue m t p = [number_text t (field_number t z)].
Proof.
  intros Ht Hi Hl. unfold WriteStoredValue. rewrite (LoadBasicValue_int m t p z) by done.
  unfold WriteTypedValue, number_text, field_number. cbn [tv_type tv_value].
  assert (Hsz : 0 < 8 * schema_size t <= 64).
  { apply list_elem_of_In in Ht. repeat (destruct Ht as [<-|Ht]; [done|]). done. }
  unfold IsIntegral in Hi. destruct (IsUnsignedInt t).
  - rewrite val_u64_VU64 by (apply uint_in_u64; lia). rewrite Buffer_one; [done|lia|apply uint_in_u64; lia|].
    pose proof (uint_str_length _ (uint_in_u64 (8 * schema_size t) z ltac:(lia))). cbn [arg_text]. lia.
  - rewrite orb_false_r in Hi. rewrite Hi, val_i64_VI64 by (apply sint_in_s64; lia).
    rewrite Buffer_one; [done|lia|apply sint_in_s64; lia|]. cbn [arg_text].
    pose proof (int_str_length _ (sint_in_s64 (8 * schema_size t) z ltac:(lia))). lia.
Qed.

Lemma stored_bits_int64 t z :
  t ∈ initial_types -> IsIntegral t = true ->
  stored_bits t T_int64 (VI64 z) mod 256 ^ schema_size t = z mod 256 ^ schema_size t.
Proof.
  intros Ht%list_elem_of_In Hi. unfold stored_bits.
  assert (Hm : forall k, 0 <= k <= 8 -> u64 z mod 256 ^ k = z mod 256 ^ k).
  { intros k Hk. unfold u64, wrap_u. replace (2 ^ 64) with (256 ^ k * 256 ^ (8 - k)).
    - rewrite Z.rem_mul_r by (try apply Z.pow_nonzero; lia).
      rewrite (Z.mul_comm (256 ^ k)), Z.mod_add by (apply Z.pow_nonzero; lia). apply Z.mod_mod, Z.pow_nonzero; lia.
    - rewrite <- Z.pow_add_r by lia. by replace (k + (8 - k)) with 8 by lia. }
  repeat (destruct Ht as [<-|Ht]; [try discriminate Hi; cbn -[Z.pow u64 Z.modulo]; apply Hm; lia|]). done.
Qed.

(** C15. Integers survive the database: writing a 64-bit integer [z] of the
    language to an integer field of any registered type and serializing the
    field prints exactly the decimal text of [z] reduced to the field's width
    and signedness. *)
Theorem stored_integer_prints m t p z :
  t ∈ initial_types -> IsIntegral t = true ->
  WriteStoredValue (WriteBasicValue T_int64 (VI64 z) t p m) t p = [number_text t (field_number t z)].
Proof.
  intros Ht Hi. apply WriteStoredValue_int; [done|done|].
  destruct (WriteBasicValue_store T_int64 (VI64 z) t p m Ht) as (b & -> & Hb).
  rewrite load_store, Z2Nat.id by (by apply initial_type_wf in Ht as [(k & _ & _ & ? & _) _]; lia).
  by rewrite Hb, stored_bits_int64.
Qed.

Lemma stored_integer_prints_witness :
  IsIntegral T_uint8 = true /\
  WriteStoredValue (WriteBasicValue T_int64 (VI64 (-1)) T_uint8 4096 (fun _ => 0)) T_uint8 4096 = [lit "255"].
Proof.
  split; [reflexivity|]. rewrite (stored_integer_prints (fun _ => 0) T_uint8 4096 (-1)).
  - vm_compute. reflexivity.
  - apply list_elem_of_In. vm_compute. tauto.
  - reflexivity.
Defined.

(** * Objects *)

Fixpoint join (sep : bytes) (l : list bytes) : bytes :=
  match l with
  | [] => []
  | [x] => x
  | x :: l' => x ++ sep ++ join sep l'
  end.

(** One member, with its value's text. *)
Definition member_text (m : Mem) (s : bytes * TypeSchema * Z) : bytes :=
  let '(n, t, p) := s in
  c_quote :: strip_nuls n ++ c_quote :: ":"%char ::
    strip_nuls (concat (if IsBasic t then WriteStoredValue m t p else WriteObject m t p)).

(** The loop of [WriteObject]. *)
Fixpoint fields_chunks (m : Mem) (fields : list (bytes * TypeSchema)) (object : Z) : list bytes :=
  match fields with
  | [] => []
  | (name, t) :: fields' =>
      let object := AlignPtr object (schema_alignment t) in
      [literal [c_quote]; name; literal [c_quote; ":"%char]]
      ++ (if IsBasic t then WriteStoredValue m t object else WriteObject m t object)
      ++ match fields' with [] => [] | _ => [literal (lit ", ")] end
      ++ fields_chunks m fields' (OffsetPtr object (schema_size t))
  end.

Lemma WriteObject_fields m schema object :
  WriteObject m schema object = [one "{"%char] ++ fields_chunks m (schema_fields schema) object ++ [one "}"%char].
Proof.
  destruct schema as [a nm al sz fl fields]. cbn [WriteObject schema_fields]. f_equal. f_equal.
  revert object. induction fields as [|[n t] fields IH]; intros object; [done|]. cbn [fields_chunks]. by rewrite <- IH.
Qed.

(** An object is rendered by the layout it is written by: without NUL
    bytes, the text is the members in field order, each with the field's name
    and the text of the value at the field's slot, separated by commas, in
    braces. *)
Lemma object_text_follows_layout m schema object :
  strip_nuls (concat (WriteObject m schema object)) =
  "{"%char :: join (lit ", ") (map (member_text m) (slots (schema_fields schema) object)) ++ ["}"%char].
Proof.
  rewrite WriteObject_fields, !concat_app, !strip_nuls_app. cbn -[concat join lit fields_chunks slots]. f_equal. f_equal.
  generalize (schema_fields schema) as fields. intros fields.
  revert object. induction fields as [|[n t] fields IH]; intros object; [done|].
  cbn [slots map fields_chunks]. set (p := AlignPtr object (schema_alignment t)).
  rewrite !concat_app, !strip_nuls_app, IH.
  change (strip_nuls (concat [literal [c_quote]; n; literal [c_quote; ":"%char]]))
    with (c_quote :: strip_nuls (n ++ [c_quote; ":"%char; c_nul])).
  rewrite (strip_nuls_app n). unfold member_text.
  destruct fields as [|[n2 t2] fields].
  - cbn -[concat]. rewrite !app_nil_r, <- app_assoc. done.
  - cbn [slots map join]. change (strip_nuls (concat [literal (lit ", ")])) with (lit ", ").
    cbn -[concat join lit]. rewrite <- !app_assoc. done.
Qed.

(** * Delivery *)

(** Nothing of a serialized result is lost or reordered on the way out:
    serializing a list of values to a stream writer, whatever its buffer and
    however full, succeeds only if the underlying stream has received, behind
    everything written before, the rendered list and a newline, with the
    buffer empty; and it always ends with a result, if the values pass the
    assertions. *)
Lemma serialize_list_delivers {O} {sent : O -> bytes} `{OutStreamLaws O sent} (w : World)
    (values : list TypedValue) (x : StreamWriter O) :
  writer_wf x -> forallb value_checked values = true ->
  exists r x', SerializeList w values x = Some (r, x') /\ writer_wf x' /\
    (r = Right tt -> write_error_ x = ErrNone /\
      sent (out_ x') = accepted sent x ++ concat (list_chunks (mem w) values) ++ [c_lf]).
Proof. intros Hx Hc. cbn [SerializeList JsonSerializer]. rewrite Hc. exact (serialize_chunks_spec (list_chunks (mem w) values) x Hx). Qed.

Lemma serialize_list_delivers_witness :
  exists r x', SerializeList demo_world [int_arg 7; int_arg (-20)] (WriterNew (lit "012") ([] : Sink) 0) = Some (r, x') /\
    (r = Right tt -> out_ x' = lit "[7, " ++ [c_nul] ++ lit "-20]" ++ [c_lf]).
Proof.
  destruct (serialize_list_delivers (sent := fun s => s) demo_world [int_arg 7; int_arg (-20)]
    (WriterNew (lit "012") ([] : Sink) 0)) as (r & x' & E & _ & Hr).
  - split; vm_compute; lia.
  - reflexivity.
  - exists r, x'. split; [exact E|]. intros Hok. destruct (Hr Hok) as [_ Hs]. refine (eq_trans Hs _). vm_compute. reflexivity.
Defined.
