(* ===== verification/Stable.v ===== *)
(** What serializing a value reads, and that later requests leave it alone.

    [WriteObject] reads an object's bytes only; objects live in blocks of
    their own, and a function of the environment writes only to the block of
    the object it makes.  So once a value is on a program's output stack, its
    text is settled, whatever requests run before it is written out.  This
    needs the registered types to fit into the blocks ([sane]), which
    [defstruct] does not check. *)
From S2P Require Import Prelude Either StrBuild CLib Stream Types Call MathFuncs TypeVault Storage Layout.
From S2P Require Import Lexer Syntax Program Eval Contract SlangEnv World Database Objects Soundness Json JsonText.
Local Open Scope Z_scope.

(** A type objects can be made of. *)
Definition sane_type (s : TypeSchema) : Prop :=
  IsBasic s = true \/ (flat s /\ schema_size s <= object_buf_size).

(** Types that fit into the blocks, and addresses below [2^63], as user space
    has them. *)
Definition sane (w : World) : Prop :=
  Forall sane_type (types_list_ (types w)) /\
  forall n os, os ∈ enumerated n (storage w) -> data_ (fst os) < 2 ^ 63.

(** * Reading an object *)

(** Two memories hold the same at [n] bytes from [p]. *)
Definition agree (m m' : Mem) (p n : Z) : Prop := forall x, p <= x < p + n -> m x = m' x.

Lemma agree_sub m m' p n q k : agree m m' p n -> p <= q -> q + k <= p + n -> agree m m' q k.
Proof. intros Ha Hq Hk x Hx. apply Ha. lia. Qed.

Lemma stored_agree m m' t p :
  t ∈ initial_types -> agree m m' p (schema_size t) -> WriteStoredValue m t p = WriteStoredValue m' t p.
Proof.
  intros Ht Ha. unfold WriteStoredValue. f_equal. unfold LoadBasicValue.
  assert (Hl : load m p (Z.to_nat (schema_size t)) = load m' p (Z.to_nat (schema_size t))).
  { apply load_ext. intros x Hx. apply Ha. apply list_elem_of_In in Ht.
    repeat (destruct Ht as [<-|Ht]; [cbn in Hx |- *; lia|]). done. }
  clear Ha. apply list_elem_of_In in Ht.
  repeat (destruct Ht as [<-|Ht]; [cbn -[load] in Hl |- *; by rewrite Hl|]). done.
Qed.

Lemma fields_chunks_agree m m' fields p :
  Forall (fun s => let '(n, t, q) := s in
    (if IsBasic t then WriteStoredValue m t q else WriteObject m t q) =
    (if IsBasic t then WriteStoredValue m' t q else WriteObject m' t q)) (slots fields p) ->
  fields_chunks m fields p = fields_chunks m' fields p.
Proof.
  revert p. induction fields as [|[n t] fields IH]; intros p; cbn [slots fields_chunks]; [done|].
  intros Hall. inversion Hall as [|? ? Ht Hall']; subst. rewrite Ht. by rewrite IH.
Qed.

(** The assertions, field by field. *)
Lemma object_checked_fields s p :
  object_checked s p = IsAligned s p &&
    forallb (fun x => let '(n, t, q) := x in if IsBasic t then stored_checked t q else object_checked t q) (slots (schema_fields s) p).
Proof.
  destruct s as [addr name al size flags fields]. cbn [object_checked schema_fields]. f_equal. revert p.
  induction fields as [|[n t] fields IH]; intros p; [done|]. cbn [slots forallb]. f_equal. apply IH.
Qed.

Lemma IsAligned_divides s p k :
  0 <= k < 64 -> schema_alignment s = 2 ^ k -> (2 ^ k | p) -> IsAligned s p = true.
Proof.
  intros Hk E [q ->]. unfold IsAligned. rewrite E. apply Z.eqb_eq. assert (2 ^ k < 2 ^ 64) by (apply Z.pow_lt_mono_r; lia).
  pose proof (pow2_pos k ltac:(lia)). unfold u64. rewrite (wrap_u_id 64 (2 ^ k - 1)) by (split; lia).
  replace (2 ^ k - 1) with (Z.ones k) by (rewrite Z.ones_equiv; lia). rewrite Z.land_ones by lia. apply Z_mod_mult.
Qed.

Lemma stored_checked_initial t q : t ∈ initial_types -> q <> 0 -> stored_checked t q = true.
Proof.
  intros Ht Hq. apply Z.eqb_neq in Hq. unfold stored_checked. rewrite Hq. unfold initial_types in Ht.
  repeat (apply elem_of_cons in Ht as [->|Ht]; [done|]). by apply elem_of_nil in Ht.
Qed.

Section Registry.
  Context (l : list TypeSchema) (Hl : Forall (schema_ok l) l) (Hs : Forall sane_type l).

Lemma registered_cases s :
  s ∈ l -> (s ∈ initial_types /\ IsBasic s = true) \/
    (IsBasic s = false /\ laid_out l s /\ flat s /\ schema_size s <= object_buf_size).
Proof.
  intros Hin%list_elem_of_In. pose proof Hl as Hl'. pose proof Hs as Hs'. rewrite List.Forall_forall in Hl', Hs'.
  destruct (Hl' s Hin) as [_ [Hi|[Hb Ho]]]; [left; by destruct (initial_type_wf s Hi)|right].
  destruct (Hs' s Hin) as [|[]]; [congruence|done].
Qed.

Lemma WriteObject_agree m m' s p :
  s ∈ l -> IsBasic s = false -> (schema_alignment s | p) -> 0 <= p -> p + schema_size s <= 2 ^ 63 + 256 ->
  agree m m' p (schema_size s) -> WriteObject m s p = WriteObject m' s p.
Proof.
  revert p. induction s as [s IH] using TypeSchema_ind'. intros p Hin Hb Hal Hp Hend Ha.
  destruct (registered_cases s Hin) as [[_ ?]|(_ & (_ & _ & Hf) & ([_ Hlay] & Hwf & Hfl & Hroom) & Hsz)]; [congruence|].
  assert (2 ^ 63 + 256 + 2 ^ 40 < 2 ^ 64) by done.
  assert (H0 : 0 <= schema_size s).
  { pose proof (Hlay 0 (Z.divide_0_r _) ltac:(lia) ltac:(lia)) as Hpl.
    pose proof (placed_le _ _ _ Hpl (slots_types _ 0 Hwf)). lia. }
  pose proof (Hlay p Hal Hp ltac:(lia)) as Hpl. pose proof (slots_types _ p Hwf) as Hst.
  rewrite !WriteObject_fields. f_equal. f_equal. apply fields_chunks_agree, List.Forall_forall.
  intros [[n t] q] Hq%list_elem_of_In. destruct (placed_bounds _ _ _ _ _ _ Hpl Hst Hq) as (H1 & H2 & H3).
  pose proof (slots_field_types _ _ _ _ _ Hq) as Hnt%list_elem_of_In.
  rewrite List.Forall_forall in IH, Hf, Hfl. specialize (Hf _ Hnt). cbn [snd] in Hf.
  destruct (IsBasic t) eqn:Ebt.
  - apply stored_agree; [by apply (Hfl _ Hnt)|]. by apply (agree_sub m m' p (schema_size s)).
  - apply (IH _ Hnt q Hf Ebt H2); [lia|cbn [snd]; lia|]. by apply (agree_sub m m' p (schema_size s)).
Qed.

(** An object of a registered type passes them where such an object can lie. *)
Lemma object_checked_ok s p :
  s ∈ l -> IsBasic s = false -> (schema_alignment s | p) -> 0 < p -> p + schema_size s <= 2 ^ 63 + 256 ->
  object_checked s p = true.
Proof.
  revert p. induction s as [s IH] using TypeSchema_ind'. intros p Hin Hb Hal Hp Hend.
  destruct (registered_cases s Hin) as [[_ ?]|(_ & (_ & _ & Hf) & ([(k & Hk & Ek & _) Hlay] & Hwf & Hfl & Hroom) & Hsz)]; [congruence|].
  assert (2 ^ 63 + 256 + 2 ^ 40 < 2 ^ 64) by done.
  assert (H0 : 0 <= schema_size s).
  { pose proof (Hlay 0 (Z.divide_0_r _) ltac:(lia) ltac:(lia)) as Hpl.
    pose proof (placed_le _ _ _ Hpl (slots_types _ 0 Hwf)). lia. }
  pose proof (Hlay p Hal ltac:(lia) ltac:(lia)) as Hpl. pose proof (slots_types _ p Hwf) as Hst.
  rewrite object_checked_fields. apply andb_true_iff. split; [apply (IsAligned_divides s p k); [lia|done|by rewrite <- Ek]|].
  apply forallb_forall. intros [[n t] q] Hq%list_elem_of_In. destruct (placed_bounds _ _ _ _ _ _ Hpl Hst Hq) as (H1 & H2 & H3).
  pose proof (slots_field_types _ _ _ _ _ Hq) as Hnt%list_elem_of_In.
  rewrite List.Forall_forall in IH, Hf, Hfl. specialize (Hf _ Hnt). cbn [snd] in Hf.
  destruct (IsBasic t) eqn:Ebt.
  - apply stored_checked_initial; [by apply (Hfl _ Hnt)|lia].
  - apply (IH _ Hnt q Hf Ebt H2); [lia|cbn [snd]; lia].
Qed.
End Registry.

(** * The contract *)

(** What is asked of [new Object]: aligned blocks that nothing else uses. *)
Record heap_ok (w : World) : Prop := {
  ho_aligned : forall k, (8 | heap_ (storage w) k) /\ 0 < heap_ (storage w) k;
  ho_apart : forall i j x, block (heap_ (storage w) i) x -> block (heap_ (storage w) j) x -> i = j;
  ho_fresh : forall k x, block (heap_ (storage w) k) x -> ~ used w x;
  ho_objects : forall n os, os ∈ enumerated n (storage w) -> (8 | data_ (fst os)) /\ 0 < data_ (fst os)
}.

(** The value can be written, and its text does not depend on memory outside
    the objects. *)
Definition text_settled (w : World) (v : TypedValue) : Prop :=
  sane w -> value_checked v = true /\ forall m m' : Mem, (forall x, used w x -> m x = m' x) -> WriteValue m v = WriteValue m' v.

Definition extends (w w' : World) : Prop :=
  types_list_ (types w) ⊆ types_list_ (types w') /\
  forall n os, os ∈ enumerated n (storage w) -> os ∈ enumerated n (storage w').

Definition grows (w w' : World) : Prop :=
  extends w w' /\ (sane w' -> forall x, used w x -> mem w' x = mem w x).

Lemma sane_earlier w w' : extends w w' -> sane w' -> sane w.
Proof.
  intros [Ht Ho] [Hs Ha]. split; [|by intros n os Hos; apply (Ha n), Ho].
  rewrite List.Forall_forall in Hs. apply List.Forall_forall. intros s Hin. apply list_elem_of_In in Hin.
  by apply Hs, list_elem_of_In, Ht.
Qed.

Lemma used_extends w w' x : extends w w' -> used w x -> used w' x.
Proof. intros [_ Ho] (n & os & Hos & Hb). exists n, os. auto. Qed.

#[export] Instance grows_preorder : PreOrder grows.
Proof.
  split; [by intros w; split|]. intros w1 w2 w3 [[H1 H2] H3] [[G1 G2] G3].
  split; [split; [by etrans|by auto]|]. intros Hs x Hx.
  rewrite G3; [|done|by apply (used_extends w1)]. apply H3; [by apply (sane_earlier w2 w3)|done].
Qed.

Definition settled : Contract World.
Proof.
  refine {| holds w := world_ok w /\ heap_ok w; fits w v := is_barrier v = false /\ text_settled w v; later := grows |}.
  - intros w w' v [He _] [Hb Hv]. split; [done|]. intros Hs.
    destruct (Hv (sane_earlier w w' He Hs)) as [Hc Hv']. split; [done|]. intros m m' Hm.
    apply Hv'. intros x Hx. by apply Hm, (used_extends w).
  - by intros w v [].
Defined.
#[local] Existing Instance settled.

Lemma registered_basic_checked l s : Forall (schema_ok l) l -> s ∈ l -> IsBasic s = true -> basic_checked s = true.
Proof.
  intros Hl Hs Hb. rewrite List.Forall_forall in Hl. apply list_elem_of_In in Hs. destruct (Hl s Hs) as [_ [Hi|[? _]]]; [|congruence].
  unfold initial_types in Hi. repeat (apply elem_of_cons in Hi as [->|Hi]; [done|]). by apply elem_of_nil in Hi.
Qed.

Lemma object_fits w n os : holds w -> os ∈ enumerated n (storage w) -> fits w (MkTyped (snd os) (VPtr (data_ (fst os)))).
Proof.
  intros [Hw Hh] Hos. pose proof (enumerated_registered w n os Hw Hos) as Hreg. split.
  { by apply (registered_not_barrier (types_list_ (types w))); [apply wo_addrs|]. }
  intros [Hs Haddr]. unfold WriteValue, value_checked. cbn [tv_type tv_value].
  destruct (IsBasic (snd os)) eqn:Eb; [split; [|done]; by eapply (registered_basic_checked (types_list_ (types w))); [apply (wo_layout w Hw)|..]|].
  destruct (ho_objects w Hh n os Hos) as [H8 Hlo]. pose proof (Haddr n os Hos) as Hhi.
  assert (Hp : val_ptr (VPtr (data_ (fst os))) = data_ (fst os)).
  { unfold val_ptr, VPtr, val_u64, u64. apply wrap_u_id. split; [lia|]. assert (2 ^ 63 < 2 ^ 64) by done. lia. }
  rewrite Hp.
  destruct (registered_cases _ (wo_layout w Hw) Hs (snd os) Hreg) as [[_ ?]|(_ & _ & Hflat & Hsz)]; [congruence|].
  assert (Hal : (schema_alignment (snd os) | data_ (fst os))).
  { destruct Hflat as ([(k & Hk & -> & _) _] & _). apply (Z.divide_trans _ 8); [|done].
    change 8 with (2 ^ 3). exists (2 ^ (3 - k)). rewrite <- Z.pow_add_r by lia. f_equal. lia. }
  unfold object_buf_size in Hsz. split; [apply (object_checked_ok _ (wo_layout w Hw) Hs); [done..|lia|lia]|].
  intros m m' Hm. apply (WriteObject_agree _ (wo_layout w Hw) Hs); [done|done|done|lia|lia|].
  - intros x Hx. apply Hm. exists n, os. split; [done|]. unfold block, object_buf_size. lia.
Qed.

(** A change of types only. *)
Lemma keeps_storage w w' :
  holds w -> world_ok w' -> storage w' = storage w -> mem w' = mem w ->
  types_list_ (types w) ⊆ types_list_ (types w') -> holds w' /\ later w w'.
Proof.
  intros [Hw Hh] Hw' Es Em Ht.
  assert (Hu : forall x, used w x <-> used w' x) by (intros x; unfold used; by rewrite Es).
  split; [split; [done|]|split; [split; [done|by rewrite Es]|by rewrite Em]].
  destruct Hh as [G1 G2 G3 G4]. split; rewrite ?Es; try done. intros k x Hx Hx'. by apply (G3 k x Hx), Hu.
Qed.

Lemma math_settled c : c ∈ [math_add; math_sub; math_mul; math_div] -> call_keeps c.
Proof.
  intros Hc fr err w b ctx _ Hw E. destruct (math_number c _ err w Hc _ _ E) as [-> Ho].
  split_and!; [done|reflexivity|]. destruct Ho as [->|(t & z & Ht & ->)]; [constructor|].
  constructor; [|constructor]. split; [by destruct t|]. intros _. unfold WriteValue, value_checked. by destruct t.
Qed.

Lemma select_settled : call_keeps select.
Proof.
  intros fr err w b ctx _ Hw E. destruct (select_outcome _ _ _ _ _ E) as [-> Ho].
  split_and!; [done|reflexivity|]. destruct Ho as [->|[n ->]]; [constructor|].
  apply Forall_map, List.Forall_forall. intros os Hos%list_elem_of_In. by apply (object_fits w n os Hw).
Qed.

Lemma list_settled : call_keeps list_.
Proof.
  intros fr err w b ctx Hfr Hw. unfold list_. cbn [args].
  rewrite list_args_spec by (try done; by apply (fits_no_barrier w)). intros [= _ <-]. by split_and!.
Qed.

Lemma defstruct_settled : call_keeps defstruct.
Proof.
  intros fr err w b ctx Hfr Hw E.
  destruct (defstruct_spec fr [] err w b ctx (proj1 Hw) (fits_no_barrier w fr Hfr) E) as (-> & Es & Em & Hw' & Ht).
  assert (Hsub : types_list_ (types w) ⊆ types_list_ (types (user_data ctx))).
  { destruct (call_struct _ fr) as [[n fields]|]; [|by destruct Ht as [_ ->]]. destruct Ht as (_ & _ & addr & ->). set_solver. }
  destruct (keeps_storage w (user_data ctx) Hw Hw' Es Em Hsub) as [Hh Hl]. split_and!; [done|done|constructor].
Qed.

(** ** create *)

(** It takes the next block, or leaves heap and objects alone. *)
Lemma create_heap frame err w b ctx :
  world_ok w -> create (MkCtx frame [] err w) = Some (b, ctx) ->
  let s := storage w in let s' := storage (user_data ctx) in
  (heap_ s' = heap_ s /\ (forall n, enumerated n s' = enumerated n s)) \/ (forall k, heap_ s' k = heap_ s (S k)).
Proof.
  intros Hw E. unfold create in E. cbn [args user_data] in E. destruct frame as [|a fr]; [done|].
  destruct (is_barrier a); [injection E as <- <-; by left|].
  destruct (GetStr a) as [n|]; [|injection E as <- <-; by left].
  pose proof (EnsureVault_spec n w Hw) as He.
  destruct (EnsureVaultWithType (vault w) (types w) n (storage w)) as [[ov tm] s1].
  destruct He as (_ & _ & Hh & Hen & _). unfold CreateObject in E.
  destruct (objects_ s1 !! n) as [v|]; [|injection E as <- <-; by left]. cbn [VaultCreateObject] in E.
  apply create_fields_local_data in E as [-> _]. right. intros k. cbn. by rewrite Hh.
Qed.

(** What [create] does to the objects and the memory, and its output. *)
Lemma create_effect fr err w b ctx :
  world_ok w -> no_barrier fr -> create (MkCtx (fr ++ [bar]) [] err w) = Some (b, ctx) ->
  let w' := user_data ctx in
  types_list_ (types w') = types_list_ (types w) /\
  ((mem w' = mem w /\ (forall n, enumerated n (storage w') = enumerated n (storage w)) /\ output ctx = []) \/
   exists n sch, let obj := next_object (storage w) in
     sch ∈ types_list_ (types w) /\ (forall k, heap_ (storage w') k = heap_ (storage w) (S k)) /\
     enumerated n (storage w') = enumerated n (storage w) ++ [(obj, sch)] /\
     (forall n', n' <> n -> enumerated n' (storage w') = enumerated n' (storage w)) /\
     (flat sch -> aligned_at (data_ obj) ->
      forall x, ~ (data_ obj <= x < data_ obj + schema_size sch) -> mem w' x = mem w x) /\
     (output ctx = [] \/ output ctx = [MkTyped sch (VPtr (data_ obj))])).
Proof.
  intros Hw Hf E w'. pose proof (create_output _ _ _ _ _ Hw E) as Ho.
  destruct (create_spec fr err w b ctx Hw Hf E) as [Ht Hs]. split; [done|].
  destruct fr as [|a fr1].
  { destruct Hs as [_ Hs]. left. unfold w'. rewrite Hs. split_and!; [done..|]. cbn [app] in Ho.
    destruct Ho as [Ho|(a & fr' & n & sch & [= <- _] & En & _)]; [done|]. by cbn in En. }
  destruct (GetStr a) as [n|] eqn:En.
  2:{ destruct Hs as [_ Hs]. left. unfold w'. rewrite Hs. split_and!; [done..|].
      destruct Ho as [Ho|(a' & fr' & n & sch & [= <- _] & En' & _)]; [done|]. congruence. }
  destruct (object_type n w) as [sch|] eqn:Eo; [right|destruct Hs as (_ & ? & ? & ?); by left].
  destruct Hs as (H1 & H2 & _ & _ & H3). exists n, sch. split; [by apply (object_type_registered n)|].
  split; [|split_and!; [done|done|intros Hfl Hal; by apply H3|]].
  - destruct (create_heap _ _ _ _ _ Hw E) as [[_ Hen]|Hh]; [|done]. exfalso.
    specialize (Hen n). rewrite H1 in Hen. apply (f_equal length) in Hen. rewrite length_app in Hen. cbn in Hen. lia.
  - destruct Ho as [Ho|(a' & fr' & n' & sch' & [= <- _] & En' & Eo' & ->)]; [by left|right]. congruence.
Qed.

Lemma heap_ok_shift w w' :
  heap_ok w -> (forall k, heap_ (storage w') k = heap_ (storage w) (S k)) ->
  (forall n os, os ∈ enumerated n (storage w') ->
     os ∈ enumerated n (storage w) \/ fst os = next_object (storage w)) -> heap_ok w'.
Proof.
  intros [G1 G2 G3 G4] Hh He. split.
  - intros k. rewrite Hh. apply G1.
  - intros i j x. rewrite !Hh. intros Hi Hj. specialize (G2 _ _ x Hi Hj). lia.
  - intros k x. rewrite Hh. intros Hx (n & os & Hos & Hb).
    destruct (He n os Hos) as [Hold|Hnew]; [by apply (G3 _ x Hx); exists n, os|].
    rewrite Hnew in Hb. cbn in Hb. by specialize (G2 _ _ x Hx Hb).
  - intros n os Hos. destruct (He n os Hos) as [Hold| ->]; [by apply (G4 n)|]. apply G1.
Qed.

Lemma InitialWorld_heap_ok allocator heap m :
  (forall k, (8 | heap k) /\ 0 < heap k) ->
  (forall i j x, block (heap i) x -> block (heap j) x -> i = j) -> heap_ok (InitialWorld allocator heap m).
Proof.
  intros Ha Hd. assert (Hn : forall n os, os ∉ enumerated n (storage (InitialWorld allocator heap m))).
  { intros n os. unfold enumerated, Enumerate, FindVaultWithType.
    change (objects_ (storage (InitialWorld allocator heap m))) with (∅ : gmap bytes ObjectVault).
    rewrite lookup_empty. apply not_elem_of_nil. }
  split; [exact Ha|exact Hd|intros k x _ (n & os & Hos & _)|intros n os Hos]; by apply Hn in Hos.
Qed.

Lemma InitialWorld_sane allocator heap m : sane (InitialWorld allocator heap m).
Proof.
  split; [repeat (constructor; [by left|]); constructor|]. intros n os. unfold enumerated, Enumerate, FindVaultWithType.
  change (objects_ (storage (InitialWorld allocator heap m))) with (∅ : gmap bytes ObjectVault). rewrite lookup_empty.
  by intros ?%elem_of_nil.
Qed.

Lemma demo_world_sane : sane demo_world.
Proof. apply InitialWorld_sane. Qed.

Lemma demo_alloc_aligned n : (8 | demo_alloc n).
Proof. exists (128 + 8 * Z.of_nat n). unfold demo_alloc. lia. Qed.

Lemma demo_heap_ok : heap_ok demo_world.
Proof.
  apply InitialWorld_heap_ok; unfold demo_heap.
  - intros k. split; [|lia]. exists (512 + 32 * Z.of_nat k). lia.
  - unfold block. intros i j x. unfold object_buf_size. lia.
Qed.

Lemma heap_ok_same w w' :
  heap_ok w -> heap_ (storage w') = heap_ (storage w) ->
  (forall n, enumerated n (storage w') = enumerated n (storage w)) -> heap_ok w'.
Proof.
  intros [G1 G2 G3 G4] Hk He. split; rewrite ?Hk; try done.
  - intros k x Hx (n & os & Hos & Hb). apply (G3 k x Hx). exists n, os. split; [|done]. by rewrite <- He.
  - intros n os. rewrite He. apply G4.
Qed.

Lemma initial_flat s : s ∈ initial_types -> flat s /\ schema_size s <= object_buf_size.
Proof.
  intros Hs. destruct (initial_type_wf s Hs) as [Hwf _].
  assert (Hf : schema_fields s = [] /\ schema_size s <= object_buf_size).
  { apply list_elem_of_In in Hs. repeat (destruct Hs as [<-|Hs]; [done|]). done. }
  destruct Hf as [Hf Hsz]. split; [|done]. unfold flat, layout_ok, wf_fields. rewrite Hf. split_and!; try done.
  intros base _ _ _. cbn. pose proof (wf_size_pos s Hwf). lia.
Qed.

Lemma create_settled : call_keeps create.
Proof.
  intros fr err w b ctx Hfr [Hw Hh] E. pose proof (fits_no_barrier w fr Hfr) as Hf.
  pose proof (proj1 (proj2 create_ok fr err w b ctx Hf Hw E)) as Hw'.
  destruct (create_effect fr err w b ctx Hw Hf E) as [Ht Hs]. set (w' := user_data ctx) in *.
  destruct Hs as [(Hm & Hen & ->)|(n0 & sch & Hreg & Hk & H1 & H2 & Hmem & Ho)].
  - assert (Hl : grows w w') by (split; [split; [by rewrite Ht|intros n; by rewrite Hen]|by rewrite Hm]).
    split; [split; [done|]|by split].
    destruct (create_heap _ _ _ _ _ Hw E) as [[Hk _]|Hk]; [by apply (heap_ok_same w)|].
    apply (heap_ok_shift w); [done|done|]. intros n os. rewrite Hen. by left.
  - assert (Hobj : forall n os, os ∈ enumerated n (storage w) -> os ∈ enumerated n (storage w')).
    { intros n os Hos. destruct (decide (n = n0)) as [->|Hn]; [rewrite H1; apply elem_of_app; by left|by rewrite (H2 n Hn)]. }
    assert (Hh' : heap_ok w').
    { apply (heap_ok_shift w); [done|done|]. intros n os. destruct (decide (n = n0)) as [->|Hn]; [|rewrite (H2 n Hn); intros ?; by left].
      rewrite H1, elem_of_app, list_elem_of_singleton. intros [Hos| ->]; [by left|by right]. }
    assert (Hext : extends w w') by (split; [by rewrite Ht|done]).
    assert (Hnew : (next_object (storage w), sch) ∈ enumerated n0 (storage w')).
    { rewrite H1. apply elem_of_app. right. by apply list_elem_of_singleton. }
    split; [by split|]. split; [split; [done|]|].
    + intros Hsane x Hx. pose proof (proj1 (sane_earlier w w' Hext Hsane)) as Hsane0.
      assert (Hal : aligned_at (data_ (next_object (storage w)))).
      { destruct (ho_aligned w Hh 0) as [H8 Hlo]. split; [done|]. split; [done|]. by apply (proj2 Hsane n0 _ Hnew). }
      assert (Hfs : flat sch /\ schema_size sch <= object_buf_size)
        by (destruct (registered_cases _ (wo_layout w Hw) Hsane0 sch Hreg) as [[Hi _]|(_ & _ & ?)]; [by apply initial_flat|done]).
      destruct Hfs as [Hfl Hsz]. apply Hmem; [done|done|].
      intros Hin. apply (ho_fresh w Hh 0 x); [|done]. unfold block. cbn [next_object data_] in Hin. lia.
    + destruct Ho as [->| ->]; [constructor|]. constructor; [|constructor].
      apply (object_fits w' n0 (next_object (storage w), sch)); [by split|done].
Qed.

Lemma database_settled json name c : FindCall (CreateSlangEnv json) name = Some c -> call_keeps c.
Proof.
  apply database_calls; [apply create_settled|apply select_settled|apply list_settled|apply defstruct_settled|].
  apply List.Forall_forall. intros f Hf%list_elem_of_In. by apply math_settled.
Qed.

Lemma constant_settled v : constant (fun p => (8 | p)) v -> fits_always v.
Proof.
  intros [] w _; (split; [done|]); intros _; (split; [|done]); try done.
  unfold value_checked. cbn [tv_type tv_value]. change (IsBasic T_Field) with false. cbv iota.
  rewrite object_checked_fields. apply andb_true_iff. split; [by apply (IsAligned_divides T_Field _ 3)|done].
Qed.

(** What evaluating a request leaves: a later state, and settled texts. *)
Lemma request_settles json e a r a' err w o :
  resolve (CreateSlangEnv json) e a = Some (r, a') -> (forall n, (8 | a n)) -> world_ok w -> heap_ok w -> eval r err w = Some o ->
  heap_ok (outcome_world o) /\ grows w (outcome_world o) /\
  match o with Failed _ _ => True | Values vs _ w' => Forall (text_settled w') vs end.
Proof.
  intros Er Ha Hw Hh Eo.
  assert (Hall : rexp_all fits_always call_keeps r)
    by (apply (resolve_all _ _ (fun p => (8 | p)) (CreateSlangEnv json) e a r a'); [apply constant_settled|by apply database_settled|done|done]).
  pose proof (eval_keeps r err w o Hall (conj Hw Hh) Eo) as Ho.
  destruct o as [text w'|vs err' w']; cbn in Ho |- *; [by destruct Ho as [[_ ?] ?]|].
  destruct Ho as ([_ ?] & ? & Hvs). split_and!; [done|done|]. eapply Forall_impl; [|exact Hvs]. by intros v [].
Qed.

(** A settled list of values has one text from then on. *)
Lemma settled_chunks w vs m m' :
  sane w -> Forall (text_settled w) vs -> (forall x, used w x -> m x = m' x) -> list_chunks m vs = list_chunks m' vs.
Proof.
  intros Hs Hvs Hm. unfold list_chunks. f_equal. f_equal.
  induction Hvs as [|v vs Hv _ IH]; [done|]. cbn [WriteValues]. rewrite (proj2 (Hv Hs) m m' Hm). by rewrite IH.
Qed.

(** And it can be written. *)
Lemma settled_checked w vs : sane w -> Forall (text_settled w) vs -> forallb value_checked vs = true.
Proof. intros Hs Hvs. induction Hvs as [|v vs Hv _ IH]; [done|]. cbn [forallb]. by rewrite (proj1 (Hv Hs)), IH. Qed.
