(* ===== verification/Endpoint.v ===== *)
(** [main/endpoint.h/.cc], [main/endpoint_handler.h], [main/execute_files.h]:
    serving the requests of a connection, and running the configured files.

    The two directions of a connection are two streams.  The allocator is
    purged after every request, so every request is compiled at the same
    addresses [a]. *)
From S2P Require Import Prelude Either StrBuild Stream Lexer LexerSim Syntax Types Call Program Eval.
From S2P Require Import TypeVault Storage SlangEnv Contract World Database Soundness Json Stable.
Local Open Scope Z_scope.

(** * Operations *)

(** source/main/endpoint.h:11-19 [EndpointMode] *)
Inductive EndpointMode := ModeNone | ModeRepl | ModeReplica.

(** source/main/endpoint.h:27-50 [Endpoint] *)
Record Endpoint := MkEndpoint { name_ : bytes; mode_ : EndpointMode; in_buf_ : bytes; out_buf_ : bytes }.

(** The buffers are not initialised: [in_buf] and [out_buf] are what is there. *)
(** source/main/endpoint.cc:16-21 [Endpoint::Endpoint] *)
Definition EndpointNew (name in_buf out_buf : bytes) : Endpoint := MkEndpoint name ModeRepl in_buf out_buf.

(** source/main/endpoint.cc:23-25 [Endpoint::SetMode] *)
Definition SetMode (mode : EndpointMode) (ep : Endpoint) : Endpoint :=
  MkEndpoint (name_ ep) mode (in_buf_ ep) (out_buf_ ep).

Section Endpoint.
  Context {In Out : Type} `{InStream In} `{OutStream Out} (env : Env World) (a : nat -> Z).

(** source/main/endpoint.cc:54-57 [Endpoint::ServeCommandMode] *)
Fixpoint ServeRequests (fuel : nat) (request_reader : StreamReader In) (response_writer : StreamWriter Out) (w : World)
    : option (StreamReader In * StreamWriter Out * World) :=
  match fuel with
  | O => None
  | S fuel' =>
      if ReaderIsGood request_reader && WriterIsGood response_writer then
        match Execute fuel' request_reader env a w response_writer with
        | None => None
        | Some (_, w', response_writer', request_reader') => ServeRequests fuel' request_reader' response_writer' w'
        end
      else Some (request_reader, response_writer, w)
  end.

(** The writer's destructor flushes it. *)
(** source/main/endpoint.cc:43-61 [Endpoint::ServeCommandMode] *)
Definition ServeCommandMode (fuel : nat) (ep : Endpoint) (i : In) (o : Out) (w : World) : option (Endpoint * In * Out * World) :=
  match ServeRequests fuel (ReaderNew (in_buf_ ep) i) (WriterNew (out_buf_ ep) o 0) w with
  | None => None
  | Some (request_reader, response_writer, w') =>
      Some (SetMode ModeNone ep, stream_ request_reader, out_ (WriterDestroy response_writer), w')
  end.

(** The replica mode fails an assertion. *)
(** source/main/endpoint.cc:27-41 [Endpoint::Serve] *)
Fixpoint Serve (fuel : nat) (ep : Endpoint) (i : In) (o : Out) (w : World) : option (Endpoint * In * Out * World) :=
  match fuel with
  | O => None
  | S fuel' =>
      match mode_ ep with
      | ModeNone => Some (ep, i, o, w)
      | ModeRepl =>
          match ServeCommandMode fuel' ep i o w with
          | None => None
          | Some (ep', i', o', w') => Serve fuel' ep' i' o' w'
          end
      | ModeReplica => None
      end
  end.

(** source/main/endpoint_handler.h:14-17 [EndpointHandler] *)
Definition EndpointHandler (fuel : nat) (name in_buf out_buf : bytes) (i : In) (o : Out) (w : World) :=
  Serve fuel (EndpointNew name in_buf out_buf) i o w.
End Endpoint.

(** The files that can be opened are those [open] knows; the allocator is not
    purged in between, [a k] are the addresses for the [k]-th file.  The flag
    says whether the task asked the task manager to exit. *)
(** source/main/execute_files.h:17-40 [ExecuteFiles] *)
Fixpoint ExecuteFiles (fuel : nat) (open : bytes -> option InFileStream) (env : Env World) (a : nat -> nat -> Z)
    (files : list bytes) (w : World) : option (bool * World) :=
  match files with
  | [] => Some (false, w)
  | filepath :: files' =>
      match open filepath with
      | None => Some (true, w)
      | Some stream =>
          match Execute fuel (ReaderNew (replicate 512 c_nul) stream) env (a 0%nat) w tt with
          | None => None
          | Some (_, w', _, _) => ExecuteFiles fuel open env (fun k => a (S k)) files' w'
          end
      end
  end.

(** * Sessions *)

(** A request: the white space before it, the function's name, the arguments. *)
Definition Request : Type := bytes * bytes * list sexp.
Definition request_call (q : Request) : sexp := ECall (snd (fst q)) (snd q).
Definition request_text (q : Request) : bytes := fst (fst q) ++ print (request_call q).
Definition request_ok (q : Request) : Prop := forallb is_blank (fst (fst q)) = true /\ sexp_ok (request_call q).

(** The text of an evaluation's answer. *)
Definition answer (o : Outcome World) : World * bytes :=
  match o with
  | Failed text w => (w, rendered (WriteEscapedString text))
  | Values vs _ w => (w, rendered (list_chunks (mem w) vs))
  end.

(** The answers to a session, by the evaluator; after the last request the end
    of the input is answered by an empty list. *)
Fixpoint answers (env : Env World) (a : nat -> Z) (qs : list Request) (w : World) : option (World * list bytes) :=
  match qs with
  | [] => Some (w, [rendered (list_chunks (mem w) [])])
  | q :: qs' =>
      match resolve env (request_call q) a with
      | None => None
      | Some (r, _) =>
          match eval r (StrBuilderNew 128) w with
          | None => None
          | Some o => option_map (fun x => (fst x, snd (answer o) :: snd x)) (answers env a qs' (fst (answer o)))
          end
      end
  end.

(** The values of all answers pass the assertions of the serializer. *)
Definition outcome_checked (o : Outcome World) : bool :=
  match o with Failed _ _ => true | Values vs _ _ => forallb value_checked vs end.
Fixpoint answers_checked (env : Env World) (a : nat -> Z) (qs : list Request) (w : World) : bool :=
  match qs with
  | [] => true
  | q :: qs' =>
      match resolve env (request_call q) a ≫= fun x => eval (fst x) (StrBuilderNew 128) w with
      | None => false
      | Some o => outcome_checked o && answers_checked env a qs' (fst (answer o))
      end
  end.

Section Session.
  Context {In Out : Type} `{InStreamLaws In} {sent : Out -> bytes} `{OutStreamLaws Out sent}.
  Context {good : Out -> Prop} (Hacc : accepts good) (env : Env World) (a : nat -> Z) (Henv : env_ok world_ok env).

(** The writer between two requests: everything sent, no error. *)
Definition drained (x : StreamWriter Out) (text : bytes) : Prop :=
  writer_wf x /\ write_error_ x = ErrNone /\ good (out_ x) /\ accepted sent x = text.

Lemma serialized_drained o x text :
  drained x text -> outcome_checked o = true ->
  exists x', serialized (Some o) x = Some (fst (answer o), x') /\ drained x' (text ++ snd (answer o)).
Proof.
  intros (Hwf & He & Hg & Ht) Hc. destruct o as [msg w|vs e w]; cbn [serialized answer fst snd].
  - destruct (serialize_chunks_accepts good (WriteEscapedString msg) x Hacc Hg Hwf He) as (x' & E & Hd). exists x'.
    change (SerializeStr msg x) with (serialize_chunks (WriteEscapedString msg) x). rewrite E. split; [done|].
    by rewrite <- Ht.
  - destruct (serialize_chunks_accepts good (list_chunks (mem w) vs) x Hacc Hg Hwf He) as (x' & E & Hd). exists x'.
    cbn [SerializeList JsonSerializer]. cbn [outcome_checked] in Hc. rewrite Hc, E. split; [done|].
    by rewrite <- Ht.
Qed.

Lemma ServeRequests_spec qs trailing fuel reader x text w w' outs :
  Forall request_ok qs -> forallb is_blank trailing = true -> world_ok w ->
  reader_text reader (concat (map request_text qs) ++ trailing) -> read_error_ reader = ErrNone -> drained x text ->
  answers env a qs w = Some (w', outs) -> answers_checked env a qs w = true ->
  (length (concat (map request_text qs) ++ trailing) + length qs + 2 < fuel)%nat ->
  exists reader' x', ServeRequests env a fuel reader x w = Some (reader', x', w') /\
    drained x' (text ++ concat outs) /\ world_ok w'.
Proof.
  intros Hqs Htr. revert fuel reader x text w outs.
  induction Hqs as [|q qs [Hb Hq] Hqs IH]; intros fuel reader x text w outs Hw Hread He Hx Hans Hch Hf;
    (destruct fuel as [|fuel]; [lia|]); cbn [ServeRequests map concat answers answers_checked] in *.
  - injection Hans as <- <-. destruct fuel as [|fuel]; [lia|]. cbn [app] in *.
    destruct (Execute_blank (S fuel) env a trailing reader w x Htr Hread ltac:(lia)) as (reader' & _ & He' & E).
    destruct (serialized_drained (Values [] (StrBuilderNew 128) w) x text Hx eq_refl) as (x' & Es & Hx').
    cbn [serialized answer fst snd] in Es, Hx'. pose proof Hx as (_ & Hx0 & _).
    unfold ReaderIsGood at 1, WriterIsGood at 1. rewrite !bool_decide_true by done. cbn [andb]. rewrite E.
    destruct (SerializeList w [] x) as [[r x1]|]; [|done]. cbn [option_map snd] in Es |- *. injection Es as ->.
    cbn [ServeRequests]. unfold ReaderIsGood. rewrite bool_decide_false by done. cbn [andb].
    exists reader', x'. cbn [concat]. rewrite app_nil_r. done.
  - destruct (resolve env (request_call q) a) as [[r a']|] eqn:Er; [|done].
    cbn [mbind option_bind fst] in Hch. destruct (eval r _ w) as [o|] eqn:Eo; [|done].
    destruct (answers env a qs (fst (answer o))) as [[w2 outs']|] eqn:Ea; [|done]. injection Hans as <- <-.
    apply andb_true_iff in Hch as [Hco Hch]. destruct q as [[cs op] es].
    change (request_text (cs, op, es)) with (cs ++ print (ECall op es)) in Hread, Hf.
    unfold request_call in Er, Hq. cbn [fst snd] in *.
    rewrite <- !app_assoc in Hread, Hf.
    destruct (Execute_printed world_ok fuel env a cs op es r a' reader _ w x Henv Hw Hb Hq Er Hread)
      as (reader' & Hread' & He' & E & Hinv).
    { rewrite length_app in Hf |- *. cbn [length] in Hf. lia. }
    rewrite Eo in E, Hinv. destruct (serialized_drained o x text Hx Hco) as (x' & Es & Hx'). rewrite Es in E, Hinv.
    cbn [option_map fst snd] in E. pose proof Hx as (_ & Hx0 & _).
    unfold ReaderIsGood at 1, WriterIsGood at 1. rewrite !bool_decide_true by done. cbn [andb]. rewrite E.
    destruct (IH fuel reader' x' (text ++ snd (answer o)) (fst (answer o)) outs' (Hinv _ _ eq_refl) Hread'
      ltac:(congruence) Hx' Ea Hch) as (r2 & x2 & E2 & Hx2 & Hw2).
    { rewrite !length_app in Hf. rewrite !length_app. cbn [length] in Hf. lia. }
    exists r2, x2. split; [done|]. cbn [concat]. by rewrite app_assoc.
Qed.
End Session.

(** The world after the first expressions of some files, by the evaluator. *)
Fixpoint run_each (env : Env World) (a : nat -> nat -> Z) (qs : list Request) (w : World) : option World :=
  match qs with
  | [] => Some w
  | q :: qs' =>
      match resolve env (request_call q) (a 0%nat) with
      | None => None
      | Some (r, _) =>
          match eval r (StrBuilderNew 128) w with
          | None => None
          | Some o => run_each env (fun k => a (S k)) qs' (fst (answer o))
          end
      end
  end.

(** A file: its path, its first expression, the rest of its text. *)
Definition ExecFile : Type := bytes * Request * bytes.
Definition file_ok (open : bytes -> option InFileStream) (f : ExecFile) : Prop :=
  let '(path, q, rest) := f in
  open path = Some (MkFile (request_text q ++ rest) false GoodBit) /\ request_ok q.
Definition file_size (f : ExecFile) : nat := length (request_text (snd (fst f)) ++ snd f).

Lemma ExecuteFiles_spec env open fuel a files w w' :
  env_ok world_ok env -> Forall (file_ok open) files -> world_ok w ->
  run_each env a (map (fun f => snd (fst f)) files) w = Some w' ->
  Forall (fun f => file_size f < fuel)%nat files ->
  ExecuteFiles fuel open env a (map (fun f => fst (fst f)) files) w = Some (false, w') /\ world_ok w'.
Proof.
  intros Henv Hfs. revert a w. induction Hfs as [|[[path [[cs op] es]] rest] fs [Ho [Hb Hq]] _ IH];
    intros a w Hw Hrun Hsz; cbn [map fst snd run_each ExecuteFiles] in *; [by injection Hrun as ->|].
  inversion Hsz as [|? ? Hf Hsz']; subst. unfold file_size in Hf. cbn [fst snd] in Hf.
  destruct (resolve env _ (a 0%nat)) as [[r a']|] eqn:Er; [|done].
  destruct (eval r _ w) as [o|] eqn:Eo; [|done]. rewrite Ho.
  change (request_text (cs, op, es)) with (cs ++ print (ECall op es)) in *. rewrite <- app_assoc in *.
  destruct (Execute_printed world_ok fuel env (a 0%nat) cs op es r a'
    (ReaderNew (replicate 512 c_nul) (MkFile (cs ++ print (ECall op es) ++ rest) false GoodBit)) rest w tt
    Henv Hw Hb Hq Er) as (reader' & _ & _ & E & Hinv).
  - assert (Hl : length (replicate 512 c_nul) = 512%nat) by apply length_replicate.
    split; [split; cbn [ReaderNew read_buf_ available_begin_ available_end_]; lia|].
    eexists. split; [|apply file_feeds; cbn [ReaderNew read_buf_]; lia]. done.
  - exact Hf.
  - rewrite Eo in E, Hinv. rewrite E.
    assert (Es : serialized (Some o) tt = Some (fst (answer o), tt)) by (by destruct o).
    rewrite Es in Hinv |- *. cbn [option_map fst snd]. apply IH; [by apply (Hinv _ tt)|done|done].
Qed.

(** Sessions of requests whose functions exist have answers. *)
Definition request_known (json : PayloadHandler) (q : Request) : Prop := known (CreateSlangEnv json) (request_call q).

Lemma outcome_answer o : fst (answer o) = outcome_world o.
Proof. by destruct o. Qed.

Lemma answers_defined json a qs w :
  Forall (request_known json) qs -> sound w ->
  exists w' outs, answers (CreateSlangEnv json) a qs w = Some (w', outs) /\ sound w' /\ length outs = S (length qs).
Proof.
  intros Hqs. revert w. induction Hqs as [|q qs Hq _ IH]; intros w Hw; [by eexists _, _|].
  destruct (request_evaluates json (request_call q) a (StrBuilderNew 128) w Hq Hw) as (r & a' & o & Er & Eo & Ho).
  destruct (IH (outcome_world o) Ho) as (w' & outs & E & Hw' & Hl).
  exists w', (snd (answer o) :: outs). cbn [answers]. rewrite Er, Eo, outcome_answer, E. split_and!; [done|done|].
  cbn. by rewrite Hl.
Qed.

(** If the state in the end is sane, all answers can be written. *)
Lemma answers_can_be_written json a qs w w' outs :
  (forall n, (8 | a n)) -> heap_ok w -> Forall (request_known json) qs -> sound w ->
  answers (CreateSlangEnv json) a qs w = Some (w', outs) ->
  grows w w' /\ (sane w' -> answers_checked (CreateSlangEnv json) a qs w = true).
Proof.
  intros Ha Hh Hqs. revert w outs Hh. induction Hqs as [|q qs Hq _ IH]; intros w outs Hh Hw; cbn [answers answers_checked].
  - by intros [= <- <-].
  - destruct (resolve _ _ a) as [[r a']|] eqn:Er; [|done]. cbn [mbind option_bind fst].
    destruct (resolved_evaluates json _ a (StrBuilderNew 128) w r a' Er Hw) as (o & Eo & Ho & _). rewrite Eo.
    destruct (request_settles json _ a r a' _ w o Er Ha (proj1 Hw) Hh Eo) as (Hh' & Hg & Hset).
    rewrite outcome_answer. destruct (answers _ a qs (outcome_world o)) as [[w2 outs']|] eqn:Ea; [|done]. intros [= <- <-].
    destruct (IH (outcome_world o) outs' Hh' Ho Ea) as [Hg2 Hch]. split; [by etrans|]. intros Hs.
    apply andb_true_iff. split; [|by apply Hch]. destruct o as [text w1|vs err w1]; [done|].
    apply (settled_checked w1); [|done]. by apply (sane_earlier w1 w2 (proj1 Hg2)).
Qed.

Lemma run_each_defined json a qs w :
  Forall (request_known json) qs -> sound w ->
  exists w', run_each (CreateSlangEnv json) a qs w = Some w' /\ sound w'.
Proof.
  intros Hqs. revert a w. induction Hqs as [|q qs Hq _ IH]; intros a w Hw; [by exists w|].
  destruct (request_evaluates json (request_call q) (a 0%nat) (StrBuilderNew 128) w Hq Hw) as (r & a' & o & Er & Eo & Ho).
  destruct (IH (fun k => a (S k)) (outcome_world o) Ho) as (w' & E & Hw'). exists w'. split; [|done].
  cbn [run_each]. by rewrite Er, Eo, outcome_answer.
Qed.

Lemma EndpointHandler_spec {In Out : Type} `{InStreamLaws In} {sent : Out -> bytes} `{OutStreamLaws Out sent} (good : Out -> Prop)
    json a qs trailing name in_buf out_buf (i : In) (o : Out) w w' outs :
  accepts good -> good o -> world_ok w -> Forall request_ok qs -> forallb is_blank trailing = true ->
  (0 < length in_buf)%nat -> (0 < length out_buf)%nat ->
  feeds (length in_buf) i (concat (map request_text qs) ++ trailing) ->
  answers (CreateSlangEnv json) a qs w = Some (w', outs) -> answers_checked (CreateSlangEnv json) a qs w = true ->
  exists fuel ep' i' o', EndpointHandler (CreateSlangEnv json) a fuel name in_buf out_buf i o w = Some (ep', i', o', w') /\
    mode_ ep' = ModeNone /\ sent o' = sent o ++ concat outs /\ world_ok w'.
Proof.
  intros Hacc Hgood Hw Hqs Htr Hin Hout Hfeeds Hans Hch.
  set (n := (length (concat (map request_text qs) ++ trailing) + length qs + 3)%nat).
  assert (Hn : (length (concat (map request_text qs) ++ trailing) + length qs + 2 < n)%nat) by (unfold n; lia).
  clearbody n.
  destruct (ServeRequests_spec (sent := sent) Hacc (CreateSlangEnv json) a (database_env_ok json) qs trailing n
    (ReaderNew in_buf i) (WriterNew out_buf o 0) (sent o) w w' outs Hqs Htr Hw) as (reader' & x' & E & Hx' & Hw').
  - split; [split; cbn; lia|]. eexists. split; [|exact Hfeeds]. done.
  - done.
  - split_and!; [split; cbn; lia|done|done|]. unfold accepted, pending. cbn. apply app_nil_r.
  - exact Hans.
  - exact Hch.
  - exact Hn.
  - destruct Hx' as (Hwf & _ & Hg & Hs). pose proof (Flush_spec sent x' Hwf) as HF. destruct (Flush_accepts good x' Hacc Hg) as [HR _].
    exists (S n). unfold EndpointHandler. cbn [Serve EndpointNew mode_]. unfold ServeCommandMode.
    cbn [EndpointNew in_buf_ out_buf_]. rewrite E. unfold WriterDestroy. destruct (Flush x') as [[e|[]] x2]; [done|]. destruct HF as (_ & _ & Hz & Ha & _).
    destruct n as [|n]; [lia|].
    eexists _, _, _. split; [reflexivity|]. split; [done|]. split; [|done].
    rewrite <- Hs, <- Ha. unfold accepted, pending. rewrite Hz. cbn. by rewrite app_nil_r.
Qed.

(** * Properties *)

(** C1. The server answers every request: on a connection that delivers the
    texts of any requests to functions that exist, however cut, and then ends,
    and that takes what it is sent, the evaluator gives every request an
    answer and keeps the invariant of the database; and if in the end all
    objects fit their blocks and lie below [2^63], serving the endpoint
    terminates in the closed mode, and what was sent is, request by request and
    in order, the JSON text of that answer, then one empty list for the end of
    the input. *)
Theorem endpoint_answers_requests {In Out : Type} `{InStreamLaws In} {sent : Out -> bytes} `{OutStreamLaws Out sent}
    (good : Out -> Prop) json a qs trailing name in_buf out_buf (i : In) (o : Out) w :
  accepts good -> good o -> sound w -> heap_ok w -> (forall n, (8 | a n)) ->
  Forall request_ok qs -> Forall (request_known json) qs ->
  forallb is_blank trailing = true -> (0 < length in_buf)%nat -> (0 < length out_buf)%nat ->
  feeds (length in_buf) i (concat (map request_text qs) ++ trailing) ->
  exists w' outs, answers (CreateSlangEnv json) a qs w = Some (w', outs) /\ length outs = S (length qs) /\ sound w' /\
  (sane w' ->
   exists fuel ep' i' o', EndpointHandler (CreateSlangEnv json) a fuel name in_buf out_buf i o w = Some (ep', i', o', w') /\
     mode_ ep' = ModeNone /\ sent o' = sent o ++ concat outs).
Proof.
  intros Hacc Hgood Hw Hh Ha Hqs Hkn Htr Hin Hout Hfeeds.
  destruct (answers_defined json a qs w Hkn Hw) as (w' & outs & Hans & Hw' & Hl). exists w', outs. split_and!; [done..|].
  intros Hsane. destruct (answers_can_be_written json a qs w w' outs Ha Hh Hkn Hw Hans) as [_ Hch].
  destruct (EndpointHandler_spec good json a qs trailing name in_buf out_buf i o w w' outs)
    as (fuel & ep' & i' & o' & E & Hm & Hs & _); try done; [apply Hw|by apply Hch|]. by exists fuel, ep', i', o'.
Qed.

(** Two requests in three pieces, read through four bytes of buffer. *)
Definition demo_requests : list Request :=
  [([], lit "+", [EInt 1; EInt 2]); ([c_lf; c_space], lit "+", [EInt (-40); EInt 2; EInt 0])].
Definition demo_input : ChunkStream := [lit "(+ 1 2"; lit ")" ++ [c_lf] ++ lit " (+ -4"; lit "0 2 0)" ++ [c_lf]].

Lemma resolve_add json es a :
  resolve (CreateSlangEnv json) (ECall (lit "+") es) a =
  option_map (fun r => (RCall MathFuncs.math_add (fst r), snd r)) (resolve_list (CreateSlangEnv json) es a).
Proof.
  rewrite resolve_call.
  assert (E : FindCall (CreateSlangEnv json) (lit "+") = Some MathFuncs.math_add).
  { unfold FindCall, CreateSlangEnv, MathFuncs.RegisterMathFunctions. cbn [functions_]. by simplify_map_eq. }
  rewrite E. by destruct (resolve_list _ es a) as [[]|].
Qed.

Lemma known_add json es : Forall (known (CreateSlangEnv json)) es -> known (CreateSlangEnv json) (ECall (lit "+") es).
Proof.
  intros Hes. split.
  - exists MathFuncs.math_add. unfold FindCall, CreateSlangEnv, MathFuncs.RegisterMathFunctions. cbn [functions_].
    by simplify_map_eq.
  - by induction Hes.
Qed.

Lemma demo_world_sound : sound demo_world.
Proof. apply InitialWorld_sound. intros n. unfold demo_alloc, last_static_addr. lia. Qed.

Lemma demo_requests_known : Forall (request_known JsonPayloadHandler) demo_requests.
Proof. repeat (constructor; [by apply known_add; repeat constructor|]). constructor. Qed.

(** A type without fields has alignment 0, which every address but null misses:
    the answer to the creation of an object of such a type fails the assertion
    of the serializer. *)
Lemma empty_object_fails_assertion :
  answers_checked (CreateSlangEnv JsonPayloadHandler) demo_alloc [([], lit "defstruct", [EStr (lit "e")])] demo_world = true /\
  answers_checked (CreateSlangEnv JsonPayloadHandler) demo_alloc
    [([], lit "defstruct", [EStr (lit "e")]); ([], lit "create", [EStr (lit "e")])] demo_world = false.
Proof. split; vm_compute; reflexivity. Qed.

Lemma demo_answers :
  answers (CreateSlangEnv JsonPayloadHandler) demo_alloc demo_requests demo_world =
  Some (demo_world, [lit "[3]" ++ [c_lf]; lit "[-38]" ++ [c_lf]; lit "[]" ++ [c_lf]]).
Proof.
  unfold demo_requests, answers, request_call. cbn [fst snd]. rewrite !resolve_add. cbn [resolve_list resolve option_map].
  vm_compute. reflexivity.
Qed.

Lemma endpoint_answers_requests_witness :
  exists fuel ep' i' o' w',
    EndpointHandler (CreateSlangEnv JsonPayloadHandler) demo_alloc fuel (lit "tcp://") (lit "????") (lit "??")
      demo_input ([] : Sink) demo_world = Some (ep', i', o', w') /\
    o' = lit "[3]" ++ [c_lf] ++ lit "[-38]" ++ [c_lf] ++ lit "[]" ++ [c_lf].
Proof.
  destruct (endpoint_answers_requests (sent := fun s => s) (fun _ => True) JsonPayloadHandler demo_alloc demo_requests [c_lf] (lit "tcp://")
    (lit "????") (lit "??") demo_input ([] : Sink) demo_world)
    as (w' & outs & Ha & _ & _ & Hrun).
  - intros s bs _. split; [reflexivity|exact I].
  - exact I.
  - apply demo_world_sound.
  - apply demo_heap_ok.
  - exact demo_alloc_aligned.
  - repeat constructor; vm_compute; congruence.
  - exact demo_requests_known.
  - reflexivity.
  - cbn. lia.
  - cbn. lia.
  - apply (chunk_feeds 4 demo_input). lia.
  - rewrite demo_answers in Ha. injection Ha as <- <-. destruct (Hrun demo_world_sane) as (fuel & ep' & i' & o' & E & _ & Hs).
    exists fuel, ep', i', o', demo_world. split; [exact E|exact Hs].
Defined.

(** Of every configured file that can be opened, exactly the first
    expression is executed, whatever follows it in the file, in the order of
    the files; if their functions exist this always ends, in the state the
    evaluator gives, and the database keeps its invariant. *)
Theorem exec_files_run_first_expression json open a files w :
  Forall (file_ok open) files -> Forall (fun f => request_known json (snd (fst f))) files -> sound w ->
  exists w', run_each (CreateSlangEnv json) a (map (fun f => snd (fst f)) files) w = Some w' /\ sound w' /\
  exists fuel, ExecuteFiles fuel open (CreateSlangEnv json) a (map (fun f => fst (fst f)) files) w = Some (false, w').
Proof.
  intros Hfs Hkn Hw.
  destruct (run_each_defined json a (map (fun f => snd (fst f)) files) w) as (w' & Hrun & Hw'); [by apply Forall_map|done|].
  exists w'. split_and!; [done..|]. exists (S (sum_list_with file_size files)).
  apply (ExecuteFiles_spec (CreateSlangEnv json) open _ a files w w' (database_env_ok json) Hfs (proj1 Hw) Hrun).
  apply List.Forall_forall. intros f Hf. apply list_elem_of_In in Hf.
  pose proof (sum_list_with_in f file_size files Hf). lia.
Qed.

(** The definition behind the sum is not executed. *)
Definition demo_file : ExecFile := (lit "a.slang", ([], lit "+", [EInt 1]), lit " (defstruct p :x int8)").

Lemma exec_files_run_first_expression_witness :
  exists fuel w', ExecuteFiles fuel (fun _ => Some (MkFile (lit "(+ 1) (defstruct p :x int8)") false GoodBit))
    (CreateSlangEnv JsonPayloadHandler) (fun _ => demo_alloc) [lit "a.slang"] demo_world = Some (false, w') /\
    types_list_ (types w') = types_list_ (types demo_world).
Proof.
  destruct (exec_files_run_first_expression JsonPayloadHandler
    (fun _ => Some (MkFile (lit "(+ 1) (defstruct p :x int8)") false GoodBit)) (fun _ => demo_alloc) [demo_file]
    demo_world) as (w' & Hr & _ & fuel & E).
  - constructor; [|constructor]. split; [reflexivity|]. repeat constructor; vm_compute; congruence.
  - constructor; [|constructor]. by apply known_add; repeat constructor.
  - apply demo_world_sound.
  - exists fuel, w'. split; [exact E|]. unfold demo_file, run_each, request_call in Hr. cbn [map fst snd] in Hr.
    rewrite resolve_add in Hr. cbn [resolve_list resolve option_map] in Hr. vm_compute in Hr. injection Hr as <-. reflexivity.
Defined.
