(* ===== verification/Sessions.v ===== *)
(** Several sessions over one database: the endpoints of one worker thread
    ([main/endpoint]), whose tasks take turns.

    A task gives up the thread only where it waits for its connection, so
    reading a request and writing a piece of an answer are steps between which
    the other sessions run, and executing a program is one step.  An answer is
    written piece by piece from the memory the objects have at that time.  The
    theorems say that this is nevertheless as if requests were answered one
    after the other. *)
From S2P Require Import Prelude Either StrBuild Stream Lexer LexerSim Syntax Types Call Program Eval.
From S2P Require Import TypeVault Storage SlangEnv Contract World Database Objects Soundness Json Stable Endpoint.
Local Open Scope Z_scope.

(** * Sessions *)

(** What the serializer is given: the values of a finished program or a
    message; the chunks it writes, from memory. *)
Inductive Reply := ReplyList (values : list TypedValue) | ReplyStr (text : bytes).

Definition reply_chunks (m : Mem) (r : Reply) : list bytes :=
  match r with ReplyList vs => list_chunks m vs | ReplyStr text => WriteEscapedString text end.

(** Where a session is in [ServeCommandMode]: at the head of its loop, behind
    [Build], behind the first [written] chunks of an answer, or behind the
    loop. *)
Inductive Phase :=
| Reading
| Compiled (code : Program World)
| Replying (reply : Reply) (written : nat)
| Closed.

Section Sessions.
  Context {In Out : Type} `{InStream In} `{OutStream Out} (env : Env World).

(** The allocator is purged after every request. *)
(** source/main/endpoint.cc:43-52 [Endpoint::ServeCommandMode] *)
Record Session := MkSession {
  reader : StreamReader In;
  writer : StreamWriter Out;
  allocator : nat -> Z;
  phase : Phase
}.

(** What an endpoint has: its buffers, its stream, and the memory for the
    temporaries of a program. *)
Record Connection := MkConnection {
  in_buf : bytes;
  out_buf : bytes;
  input : In;
  sink : Out;
  temporaries : nat -> Z
}.

(** A connection that was just accepted. *)
(** source/main/endpoint.cc:50-51 [Endpoint::ServeCommandMode] *)
Definition Connect (k : Connection) : Session :=
  MkSession (ReaderNew (in_buf k) (input k)) (WriterNew (out_buf k) (sink k) 0) (temporaries k) Reading.

(** A session's next turn; [None]: it is closed, reading needs more fuel, or an
    assertion of the serializer fails, which ends the process.  The parts of
    [Execute] are those of [Program]. *)
(** source/main/endpoint.cc:54-61 [Endpoint::ServeCommandMode] *)
Definition SessionTurn (fuel : nat) (s : Session) (w : World) : option (Session * World) :=
  match phase s with
  | Reading =>
      if ReaderIsGood (reader s) && WriterIsGood (writer s) then
        match Build fuel (CompilerNew env (allocator s)) (reader s) with
        | None => None
        | Some (Left error, r) =>
            Some (MkSession r (writer s) (allocator s) (Replying (ReplyStr (Buffer (BuildCompileErrorText error))) 0), w)
        | Some (Right program, r) => Some (MkSession r (writer s) (allocator s) (Compiled program), w)
        end
      else
        let '(_, x) := Flush (writer s) in Some (MkSession (reader s) x (allocator s) Closed, w)
  | Compiled program =>
      match run program [] (StrBuilderNew 128) w with
      | None => None
      | Some (Aborted text w') => Some (MkSession (reader s) (writer s) (allocator s) (Replying (ReplyStr text) 0), w')
      | Some (Finished stack _ w') =>
          if forallb value_checked stack then
            Some (MkSession (reader s) (writer s) (allocator s) (Replying (ReplyList stack) 0), w')
          else None
      end
  | Replying reply written =>
      match reply_chunks (mem w) reply !! written with
      | Some chunk =>
          match WriteData chunk (writer s) with
          | None => None
          | Some (_, x) => Some (MkSession (reader s) x (allocator s) (Replying reply (S written)), w)
          end
      | None =>
          match FinalizeWrite (writer s) with
          | None => None
          | Some (_, x) => Some (MkSession (reader s) x (allocator s) Reading, w)
          end
      end
  | Closed => None
  end.

Definition turn (sw sw' : Session * World) : Prop := exists fuel, SessionTurn fuel (fst sw) (snd sw) = Some sw'.

(** All sessions and their database. *)
Record Server := MkServer { sessions : list Session; database : World }.

Inductive server_step : Server -> Server -> Prop :=
| server_turn i s s' w' S : sessions S !! i = Some s -> turn (s, database S) (s', w') ->
    server_step S (MkServer (<[i := s']> (sessions S)) w').

(** ** A session alone does what the endpoint does *)

Lemma write_all_turns reply a r w k x x' :
  write_all (drop k (reply_chunks (mem w) reply)) x = Some x' ->
  exists k', (length (reply_chunks (mem w) reply) <= k')%nat /\
    rtc turn (MkSession r x a (Replying reply k), w) (MkSession r x' a (Replying reply k'), w).
Proof.
  remember (length (reply_chunks (mem w) reply) - k)%nat as n eqn:Hn. revert k x Hn.
  induction n as [|n IH]; intros k x Hn E.
  - rewrite drop_ge in E by lia. injection E as ->. exists k. split; [lia|done].
  - destruct (lookup_lt_is_Some_2 (reply_chunks (mem w) reply) k) as [c Hc]; [lia|].
    rewrite (drop_S _ _ _ Hc) in E. cbn [write_all] in E. destruct (WriteData c x) as [[res x1]|] eqn:Ew; [|done].
    destruct (IH (S k) x1 ltac:(lia) E) as (k' & Hk & Hr). exists k'. split; [done|].
    eapply rtc_l; [|exact Hr]. exists 0%nat. unfold SessionTurn. cbn [fst snd phase reader writer allocator].
    by rewrite Hc, Ew.
Qed.

Lemma reply_turns reply a r w x res x' :
  serialize_chunks (reply_chunks (mem w) reply) x = Some (res, x') ->
  rtc turn (MkSession r x a (Replying reply 0), w) (MkSession r x' a Reading, w).
Proof.
  unfold serialize_chunks. intros E. destruct (write_all _ x) as [x1|] eqn:Ew; [|done].
  destruct (write_all_turns reply a r w 0 x x1 Ew) as (k & Hk & Hr). etrans; [exact Hr|].
  apply rtc_once. exists 0%nat. unfold SessionTurn. cbn [fst snd phase reader writer allocator].
  rewrite lookup_ge_None_2 by done. by rewrite E.
Qed.

Lemma Execute_turns fuel a r w x res w' x' r' :
  ReaderIsGood r && WriterIsGood x = true ->
  Execute fuel r env a w x = Some (res, w', x', r') ->
  rtc turn (MkSession r x a Reading, w) (MkSession r' x' a Reading, w').
Proof.
  intros Hg. unfold Execute. destruct (Build fuel (CompilerNew env a) r) as [[[error|program] r1]|] eqn:Eb; [| |done].
  - intros E. eapply rtc_l.
    { exists fuel. unfold SessionTurn. cbn [fst snd phase reader writer allocator]. by rewrite Hg, Eb. }
    destruct (SerializeStr _ x) as [[res1 x1]|] eqn:Es; [|done]. injection E as _ <- <- <-.
    by apply (reply_turns (ReplyStr _) a r1 w x res1).
  - intros E. unfold ProgramExecute in E. eapply rtc_l.
    { exists fuel. unfold SessionTurn. cbn [fst snd phase reader writer allocator]. by rewrite Hg, Eb. }
    destruct (run program [] (StrBuilderNew 128) w) as [[text w1|stack err w1]|] eqn:Er; [| |done].
    + destruct (SerializeStr text x) as [[res1 x1]|] eqn:Es; [|done]. injection E as _ <- <- <-.
      eapply rtc_l; [exists 0%nat; unfold SessionTurn; cbn [fst snd phase reader writer allocator]; by rewrite Er|].
      by apply (reply_turns (ReplyStr text) a r1 w1 x res1).
    + cbn [SerializeList JsonSerializer] in E. destruct (forallb value_checked stack) eqn:Hc; [|done].
      destruct (serialize_chunks _ x) as [[res1 x1]|] eqn:Es; [|done]. injection E as _ <- <- <-.
      eapply rtc_l; [exists 0%nat; unfold SessionTurn; cbn [fst snd phase reader writer allocator]; by rewrite Er, Hc|].
      by apply (reply_turns (ReplyList stack) a r1 w1 x res1).
Qed.

(** The steps of one session are [ServeRequests]. *)
Lemma ServeRequests_turns fuel a r x w r' x' w' :
  ServeRequests env a fuel r x w = Some (r', x', w') ->
  rtc turn (MkSession r x a Reading, w) (MkSession r' (snd (Flush x')) a Closed, w').
Proof.
  revert r x w. induction fuel as [|fuel IH]; intros r x w; cbn [ServeRequests]; [done|].
  destruct (ReaderIsGood r && WriterIsGood x) eqn:Hg.
  - destruct (Execute fuel r env a w x) as [[[[res w1] x1] r1]|] eqn:Ee; [|done]. intros E.
    etrans; [by apply (Execute_turns fuel a r w x res)|]. by apply IH.
  - intros [= <- <- <-]. apply rtc_once. exists 0%nat. unfold SessionTurn. cbn [fst snd phase reader writer allocator].
    rewrite Hg. by destruct (Flush x).
Qed.
End Sessions.

(** * The order of requests *)

(** Requests one after the other, each with the session it is from: the state
    they lead to and their answers. *)
Fixpoint replay (env : Env World) (a : nat -> nat -> Z) (order : list (nat * Request)) (w : World)
    : option (World * list (nat * bytes)) :=
  match order with
  | [] => Some (w, [])
  | (i, q) :: order' =>
      match resolve env (request_call q) (a i) with
      | None => None
      | Some (r, _) =>
          match eval r (StrBuilderNew 128) w with
          | None => None
          | Some o => option_map (fun x => (fst x, (i, snd (answer o)) :: snd x)) (replay env a order' (fst (answer o)))
          end
      end
  end.

(** What belongs to one session. *)
Definition of_session {A} (i : nat) (l : list (nat * A)) : list A :=
  map snd (List.filter (fun p => Nat.eqb (fst p) i) l).

Lemma of_session_snoc {A} i j (x : A) l :
  of_session i (l ++ [(j, x)]) = of_session i l ++ (if Nat.eqb j i then [x] else []).
Proof. unfold of_session. rewrite List.filter_app, map_app. cbn. by destruct (Nat.eqb j i). Qed.

Lemma replay_snoc env a order w w1 log i q r a' o :
  replay env a order w = Some (w1, log) -> resolve env (request_call q) (a i) = Some (r, a') ->
  eval r (StrBuilderNew 128) w1 = Some o ->
  replay env a (order ++ [(i, q)]) w = Some (fst (answer o), log ++ [(i, snd (answer o))]).
Proof.
  intros E Er Eo. revert w log E. induction order as [|[j p] order IH]; intros w log E; cbn [replay app] in *.
  - injection E as -> <-. by rewrite Er, Eo.
  - destruct (resolve env (request_call p) (a j)) as [[r1 a1]|]; [|done].
    destruct (eval r1 _ w) as [o1|]; [|done].
    destruct (replay env a order (fst (answer o1))) as [[w2 log2]|] eqn:E2; [|done]. injection E as -> <-.
    by rewrite (IH _ _ E2).
Qed.

(** The answer to the end of a session's input. *)
Definition last_answer : bytes := rendered (list_chunks (fun _ => 0) []).

(** * The invariant *)

Section Serializable.
  Context {In Out : Type} `{InStreamLaws In} {sent : Out -> bytes} `{OutStreamLaws Out sent}.
  Context {good : Out -> Prop} (Hacc : accepts good) (json : PayloadHandler).
  Abbreviation env := (CreateSlangEnv json).

(** What a session's client sends: requests and white space behind them; and
    what was sent to it before. *)
Record Client := MkClient { requests : list Request; trailing : bytes; before : bytes }.

Definition client_ok (c : Client) : Prop :=
  Forall request_ok (requests c) /\ Forall (request_known json) (requests c) /\ forallb is_blank (trailing c) = true.

(** The reader before the requests [qs], or at the end of the input. *)
Definition to_read (c : Client) (qs : list Request) (ended : bool) (r : StreamReader In) : Prop :=
  if ended then qs = [] /\ read_error_ r <> ErrNone
  else reader_text r (concat (map request_text qs) ++ trailing c) /\ read_error_ r = ErrNone.

(** The writer has no error; it was given [text], if the state is sane. *)
Definition wrote (w : World) (c : Client) (x : StreamWriter Out) (text : bytes) : Prop :=
  writer_wf x /\ write_error_ x = ErrNone /\ good (out_ x) /\ (sane w -> accepted sent x = before c ++ text).

(** A reply has its text whatever the rest of memory becomes. *)
Definition reply_settled (w : World) (reply : Reply) (chunks : list bytes) (k : nat) : Prop :=
  sane w -> (k <= length chunks)%nat /\
    forall m, (forall x, used w x -> m x = mem w x) -> reply_chunks m reply = chunks.

(** A session that has executed all requests but [qs], with the answers
    [outs]. *)
Definition session_inv (w : World) (c : Client) (qs : list Request) (ended : bool) (outs : list bytes) (s : Session) : Prop :=
  match phase s with
  | Reading => to_read c qs ended (reader s) /\ wrote w c (writer s) (concat outs)
  | Compiled code =>
      wrote w c (writer s) (concat outs) /\ ended = false /\
      match qs with
      | q :: qs' => exists r a', resolve env (request_call q) (allocator s) = Some (r, a') /\ code = rev (code_of r) /\
          to_read c qs' false (reader s)
      | [] => code = [] /\ to_read c [] true (reader s)
      end
  | Replying reply k => exists outs0 chunks,
      outs = outs0 ++ [rendered chunks] /\ reply_settled w reply chunks k /\
      to_read c qs ended (reader s) /\ wrote w c (writer s) (concat outs0 ++ concat (take k chunks))
  | Closed => qs = [] /\ ended = true /\ wrote w c (writer s) (concat outs) /\
      (sane w -> sent (out_ (writer s)) = before c ++ concat outs)
  end.

(** The whole server: what it did is what replaying an order gives; [rest] is
    what every session still has to execute. *)
Record server_inv (a : nat -> nat -> Z) (clients : list Client) (w0 : World) (S : Server (In := In) (Out := Out))
    (order : list (nat * Request)) (log : list (nat * bytes)) (rest : list (list Request * bool)) : Prop := {
  si_replay : replay env a order w0 = Some (database S, log);
  si_sound : sound (database S);
  si_heap : heap_ok (database S);
  si_length : length (sessions S) = length clients /\ length rest = length clients;
  si_sessions : forall i s c qs ended,
    sessions S !! i = Some s -> clients !! i = Some c -> rest !! i = Some (qs, ended) ->
      allocator s = a i /\ of_session i order ++ qs = requests c /\
      session_inv (database S) c qs ended (of_session i log ++ if ended then [last_answer] else []) s
}.

(** ** Writing *)

Lemma wrote_write w c x text chunk res x' :
  WriteData chunk x = Some (res, x') -> wrote w c x text -> wrote w c x' (text ++ chunk).
Proof.
  intros E (Hwf & He & Hg & Ht). assert (Ew : write_all [chunk] x = Some x') by (cbn [write_all]; by rewrite E).
  destruct (write_all_spec (sent := sent) [chunk] x Hwf) as (x1 & E1 & Hwf1 & Ha). rewrite Ew in E1. injection E1 as <-.
  apply (write_all_accepts good _ _ _ Hacc Hg) in Ew as [He' Hg']. destruct (Ha ltac:(congruence)) as [_ Ha'].
  split_and!; [done|congruence|done|]. intros Hs. rewrite Ha', Ht by done. cbn [concat]. by rewrite app_nil_r, app_assoc.
Qed.

(** In any case the write ends without an error. *)
Lemma writes_defined w c x text chunk : wrote w c x text -> exists res x', WriteData chunk x = Some (res, x').
Proof.
  intros (Hwf & _). destruct (write_all_spec (sent := sent) [chunk] x Hwf) as (x1 & E1 & _). cbn [write_all] in E1.
  destruct (WriteData chunk x) as [[res x2]|]; [by eexists _, _|done].
Qed.

Lemma finalize_spec w c x text :
  wrote w c x text -> exists res x', FinalizeWrite x = Some (res, x') /\ wrote w c x' (text ++ [c_lf]).
Proof.
  intros (Hwf & He & Hg & Ht). destruct (serialize_chunks_accepts (sent := sent) good [] x Hacc Hg Hwf He)
    as (x1 & E1 & Hwf1 & He1 & Hg1 & Ha1). unfold serialize_chunks in E1. cbn [write_all] in E1.
  eexists _, x1. split; [exact E1|]. split_and!; try done. intros Hs. rewrite Ha1, Ht by done. cbn. by rewrite app_assoc.
Qed.

Lemma wrote_flush w c x text :
  wrote w c x text ->
  wrote w c (snd (Flush x)) text /\ (sane w -> sent (out_ (snd (Flush x))) = before c ++ text).
Proof.
  intros (Hwf & He & Hg & Ht). pose proof (Flush_spec sent x Hwf) as HF. destruct (Flush_accepts good x Hacc Hg) as (HR & HE & HG).
  destruct (Flush x) as [[e|[]] x2]; [done|]. cbn in HE, HG |- *. destruct HF as (Hwf2 & _ & Hz & Ha & _).
  assert (Hs : accepted sent x2 = sent (out_ x2)) by (unfold accepted, pending; rewrite Hz; cbn; apply app_nil_r).
  split; [split_and!; [done|congruence|done|]|]; intros Hsane; specialize (Ht Hsane); congruence.
Qed.

(** ** Other sessions do not disturb *)

Lemma wrote_later w w' c x text : extends w w' -> wrote w c x text -> wrote w' c x text.
Proof. intros He (? & ? & ? & Ht). split_and!; [done..|]. intros Hs. by apply Ht, (sane_earlier w w'). Qed.

Lemma session_inv_later w w' c qs ended outs s :
  grows w w' -> session_inv w c qs ended outs s -> session_inv w' c qs ended outs s.
Proof.
  intros [He Hm]. pose proof (wrote_later w w' c) as Hw. unfold session_inv. destruct (phase s) as [|code|reply k|].
  - intros []. auto.
  - intros (? & ? & ?). auto.
  - intros (outs0 & chunks & Ho & Hset & Hrd & Hwr). exists outs0, chunks. split_and!; [done| |done|auto].
    intros Hs. destruct (Hset (sane_earlier w w' He Hs)) as [Hk Hset']. split; [done|].
    intros m Hm'. apply Hset'. intros x Hx. rewrite Hm' by (by apply (used_extends w)). by apply Hm.
  - intros (? & ? & ? & Ht). split_and!; auto. intros Hs. by apply Ht, (sane_earlier w w').
Qed.

(** ** A turn *)

(** What is left to do for a session: requests and phases, then chunks of the
    answer. *)
Definition rank (ph : Phase) (qs : list Request) (ended : bool) : nat :=
  let rem := (length qs + if ended then 0 else 1)%nat in
  match ph with
  | Reading => (3 * rem + 1)%nat
  | Compiled _ => (3 * rem)%nat
  | Replying _ _ => (3 * rem + 2)%nat
  | Closed => 0%nat
  end.

Definition chunks_left (w : World) (ph : Phase) : nat :=
  match ph with Replying reply k => (length (reply_chunks (mem w) reply) - k)%nat | _ => 0%nat end.

Definition brought_on (w : World) (ph ph' : Phase) (qs : list Request) (ended : bool) : Prop :=
  (rank ph' qs ended < rank ph qs ended)%nat \/
  (rank ph' qs ended = rank ph qs ended /\ (chunks_left w ph' < chunks_left w ph)%nat).

(** What a turn of a session does to what it still has to execute and what it
    has answered: a request is executed, the end of the input is met, or
    neither. *)
Definition turn_effect (w w' : World) (c : Client) (qs : list Request) (ended : bool) (outs : list bytes)
    (s s' : Session (In := In) (Out := Out)) : Prop :=
  (w' = w /\ brought_on w (phase s) (phase s') qs ended /\ session_inv w c qs ended outs s') \/
  (w' = w /\ qs = [] /\ ended = false /\ (rank (phase s') [] true < rank (phase s) [] false)%nat /\
     session_inv w c [] true (outs ++ [last_answer]) s') \/
  (exists q qs' r a' o, qs = q :: qs' /\ ended = false /\ (rank (phase s') qs' false < rank (phase s) qs false)%nat /\
     resolve env (request_call q) (allocator s) = Some (r, a') /\
     eval r (StrBuilderNew 128) w = Some o /\ w' = fst (answer o) /\
     grows w w' /\ session_inv w' c qs' false (outs ++ [snd (answer o)]) s').

Lemma reading_turn w c qs ended outs s s' w' fuel :
  client_ok c -> Forall request_ok qs -> Forall (request_known json) qs -> phase s = Reading ->
  session_inv w c qs ended outs s -> SessionTurn env fuel s w = Some (s', w') ->
  allocator s' = allocator s /\ turn_effect w w' c qs ended outs s s'.
Proof.
  intros (_ & _ & Htr) Hqs Hkn Hph Hinv. unfold session_inv in Hinv. unfold SessionTurn, turn_effect, brought_on. rewrite Hph in *.
  destruct Hinv as [Hread Hw]. pose proof Hw as (_ & Hwe & _).
  assert (WriterIsGood (writer s) = true) as -> by (unfold WriterIsGood; by apply bool_decide_eq_true).
  unfold to_read in Hread. destruct ended.
  - destruct Hread as [-> He]. assert (ReaderIsGood (reader s) = false) as -> by (unfold ReaderIsGood; by apply bool_decide_eq_false).
    cbn [andb]. destruct (wrote_flush w c (writer s) (concat outs) Hw) as [Hf Hs].
    destruct (Flush (writer s)) as [rf x]. intros [= <- <-]. split; [done|]. left. split; [done|]. split; [left; cbn; lia|]. by split_and!.
  - destruct Hread as [Hread He]. assert (ReaderIsGood (reader s) = true) as -> by (unfold ReaderIsGood; by apply bool_decide_eq_true).
    cbn [andb]. destruct (Build fuel _ (reader s)) as [[p rd]|] eqn:Eb; [|done]. destruct qs as [|q qs'].
    + destruct (Build_blank (S (length (trailing c))) env (allocator s) (trailing c) (reader s) Htr Hread ltac:(lia))
        as (rd' & Eb' & _ & He'). pose proof (Build_fuel _ _ _ _ _ _ Eb Eb') as [= -> ->].
      intros [= <- <-]. split; [done|]. left. split; [done|]. split; [left; cbn; lia|]. by split_and!.
    + destruct q as [[cs op] es]. inversion Hqs as [|? ? [Hcs Hok] _]; inversion Hkn as [|? ? Hk _]; subst.
      destruct (known_resolve env _ (allocator s) Hk) as [[r a'] Er]. unfold request_call in *. cbn [fst snd] in *.
      cbn [map concat] in Hread. change (request_text (cs, op, es)) with (cs ++ print (ECall op es)) in Hread.
      rewrite <- !app_assoc in Hread.
      destruct (Build_printed _ env (allocator s) cs op es r a' (reader s) _ Hcs Hok Er Hread (Nat.lt_succ_diag_r _))
        as (rd' & Eb' & Hread' & He'). pose proof (Build_fuel _ _ _ _ _ _ Eb Eb') as [= -> ->].
      intros [= <- <-]. split; [done|]. left. split; [done|]. split; [left; cbn [phase rank]; lia|]. split; [done|]. split; [done|].
      exists r, a'. split; [done|]. split; [done|]. split; [done|]. cbn [reader]. by rewrite He'.
Qed.

Lemma compiled_turn w c qs ended outs s s' w' fuel code :
  (forall n, (8 | allocator s n)) -> Forall (request_known json) qs -> phase s = Compiled code -> sound w -> heap_ok w ->
  session_inv w c qs ended outs s -> SessionTurn env fuel s w = Some (s', w') ->
  allocator s' = allocator s /\ turn_effect w w' c qs ended outs s s'.
Proof.
  intros Hal Hkn Hph Hw Hh Hinv. unfold session_inv in Hinv. unfold SessionTurn, turn_effect. rewrite Hph in *.
  destruct Hinv as (Hwr & -> & Hq). destruct qs as [|q qs'].
  - destruct Hq as (-> & _ & He). cbn [run]. intros [= <- <-]. split; [done|]. right; left. split_and!; [done|done|done|cbn; lia|].
    exists outs, (list_chunks (fun _ => 0) []). split_and!; try done; [|cbn [take concat]; by rewrite app_nil_r].
    intros _. split; [cbn; lia|done].
  - destruct Hq as (r & a' & Er & -> & Hread).
    destruct (resolved_evaluates json (request_call q) (allocator s) (StrBuilderNew 128) w r a' Er Hw) as (o & Eo & Ho & _).
    destruct (request_settles json _ _ r a' _ w o Er Hal (proj1 Hw) Hh Eo) as (_ & Hgr & Hset).
    rewrite <- outcome_answer in Hgr. rewrite <- (app_nil_r (rev (code_of r))), (run_eval world_ok)
      by (try apply Hw; by apply (resolve_ok world_ok env (request_call q) (allocator s) r a' (database_env_ok json))).
    rewrite Eo. destruct o as [text w1|vs err w1]; cbn [resume run app]; [|destruct (forallb value_checked vs); [|done]];
      intros [= <- <-]; (split; [done|]); right; right;
      (eexists q, qs', r, a', _; split_and!; [done|done|cbn [phase rank length]; lia|done|exact Eo|done|done|]); cbn [answer fst snd] in *.
    + exists outs, (WriteEscapedString text). split_and!; try done.
      * intros _. split; [lia|done].
      * cbn [take concat]. rewrite app_nil_r. by apply (wrote_later w); [apply Hgr|].
    + exists outs, (list_chunks (mem w1) vs). split_and!; try done.
      * intros Hs. split; [lia|]. intros m Hm. by apply (settled_chunks w1).
      * cbn [take concat]. rewrite app_nil_r. by apply (wrote_later w); [apply Hgr|].
Qed.

Lemma replying_turn w c qs ended outs s s' w' fuel reply k :
  phase s = Replying reply k -> session_inv w c qs ended outs s -> SessionTurn env fuel s w = Some (s', w') ->
  allocator s' = allocator s /\ turn_effect w w' c qs ended outs s s'.
Proof.
  intros Hph Hinv. unfold session_inv in Hinv. unfold SessionTurn, turn_effect, brought_on. rewrite Hph in *.
  destruct Hinv as (outs0 & chunks & -> & Hset & Hread & Hwr).
  destruct (reply_chunks (mem w) reply !! k) as [chunk|] eqn:Ec.
  - destruct (writes_defined w c _ _ chunk Hwr) as (res & x & Ew). rewrite Ew. intros [= <- <-]. split; [done|].
    left. split; [done|]. split; [right; split; [done|]; cbn [phase chunks_left]; apply lookup_lt_Some in Ec; lia|].
    exists outs0, chunks. split_and!; try done.
    + intros Hs. destruct (Hset Hs) as [_ Hset']. rewrite (Hset' (mem w)) in Ec by done.
      split; [by apply lookup_lt_Some in Ec|done].
    + destruct (wrote_write w c _ _ _ _ _ Ew Hwr) as (? & ? & ? & Ht). split_and!; [done..|]. intros Hs.
      destruct (Hset Hs) as [_ Hset']. rewrite (Hset' (mem w)) in Ec by done.
      cbn [writer]. rewrite (take_S_r _ _ _ Ec), concat_app, (Ht Hs), <- app_assoc. cbn [concat]. by rewrite app_nil_r.
  - destruct (finalize_spec w c _ _ Hwr) as (res & x & Ef & Hx). rewrite Ef. intros [= <- <-]. split; [done|].
    left. split; [done|]. split; [left; cbn [phase rank]; lia|]. split; [done|]. destruct Hx as (? & ? & ? & Ht). split_and!; [done..|]. intros Hs.
    destruct (Hset Hs) as [_ Hset']. rewrite (Hset' (mem w)) in Ec by done. apply lookup_ge_None in Ec.
    cbn [writer]. rewrite (Ht Hs), take_ge, concat_app by done. cbn [concat]. unfold rendered.
    by rewrite app_nil_r, <- !app_assoc.
Qed.

Lemma turn_inv w c qs ended outs s s' w' :
  (forall n, (8 | allocator s n)) -> client_ok c -> Forall request_ok qs -> Forall (request_known json) qs -> sound w -> heap_ok w ->
  session_inv w c qs ended outs s -> turn env (s, w) (s', w') ->
  allocator s' = allocator s /\ turn_effect w w' c qs ended outs s s'.
Proof.
  intros Hal Hc Hqs Hkn Hw Hh Hinv [fuel E]. cbn [fst snd] in E. destruct (phase s) as [|code|reply k|] eqn:Hph.
  - by apply (reading_turn w c qs ended outs s s' w' fuel).
  - by apply (compiled_turn w c qs ended outs s s' w' fuel code).
  - by apply (replying_turn w c qs ended outs s s' w' fuel reply k).
  - unfold SessionTurn in E. by rewrite Hph in E.
Qed.

(** The next program of a session leads to a state that is not sane. *)
Definition spoils (s : Session (In := In) (Out := Out)) (w : World) : Prop :=
  exists code stack err w', phase s = Compiled code /\ run code [] (StrBuilderNew 128) w = Some (Finished stack err w') /\ ~ sane w'.

(** A session that is not closed can take a turn, or spoils the state. *)
Lemma turn_defined w c qs ended outs s :
  (forall n, (8 | allocator s n)) -> client_ok c -> Forall request_ok qs -> Forall (request_known json) qs -> sound w -> heap_ok w ->
  session_inv w c qs ended outs s -> phase s <> Closed -> (exists sw, turn env (s, w) sw) \/ spoils s w.
Proof.
  intros Hal (_ & _ & Htr) Hqs Hkn Hw Hh Hinv Hne. unfold session_inv in Hinv.
  assert (Hex : (exists fuel, is_Some (SessionTurn env fuel s w)) \/ spoils s w);
    [|destruct Hex as [(fuel & sw & E)|Hsp]; [left; by exists sw, fuel|by right]].
  unfold SessionTurn, spoils. destruct (phase s) as [|code|reply k|]; [left| |left|done].
  - destruct (ReaderIsGood (reader s) && _) eqn:Hg; [|exists 0%nat; destruct (Flush _); by eexists].
    destruct Hinv as [Hread _]. apply andb_true_iff in Hg as [Hg _]. unfold ReaderIsGood in Hg. apply bool_decide_eq_true in Hg.
    unfold to_read in Hread. destruct ended; [by destruct Hread|]. destruct Hread as [Hread _]. destruct qs as [|[[cs op] es] qs'].
    + destruct (Build_blank (S (length (trailing c))) env (allocator s) (trailing c) (reader s) Htr Hread ltac:(lia))
        as (rd' & Eb & _). exists (S (length (trailing c))). rewrite Eb. by eexists.
    + inversion Hqs as [|? ? [Hcs Hok] _]; inversion Hkn as [|? ? Hk _]; subst.
      destruct (known_resolve env _ (allocator s) Hk) as [[r a'] Er]. unfold request_call in *. cbn [fst snd] in *.
      cbn [map concat] in Hread. change (request_text (cs, op, es)) with (cs ++ print (ECall op es)) in Hread.
      rewrite <- !app_assoc in Hread.
      destruct (Build_printed _ env (allocator s) cs op es r a' (reader s) _ Hcs Hok Er Hread (Nat.lt_succ_diag_r _))
        as (rd' & Eb & _). eexists. rewrite Eb. by eexists.
  - destruct Hinv as (_ & _ & Hq). destruct qs as [|q qs']; [destruct Hq as [-> _]; left; exists 0%nat; by eexists|].
    destruct Hq as (r & a' & Er & -> & _).
    destruct (resolved_evaluates json (request_call q) (allocator s) (StrBuilderNew 128) w r a' Er Hw) as (o & Eo & _).
    pose proof (run_eval world_ok r [] [] (StrBuilderNew 128) w
      (resolve_ok world_ok env (request_call q) (allocator s) r a' (database_env_ok json) Er) (proj1 Hw)) as Hrun.
    rewrite app_nil_r, Eo in Hrun. destruct o as [text w1|vs err w1]; cbn [resume run app] in Hrun.
    + left. exists 0%nat. rewrite Hrun. by eexists.
    + destruct (forallb value_checked vs) eqn:Hc; [left; exists 0%nat; rewrite Hrun, Hc; by eexists|right].
      eexists _, vs, err, w1. split; [done|]. split; [done|]. intros Hs.
      destruct (request_settles json _ _ r a' _ w _ Er Hal (proj1 Hw) Hh Eo) as (_ & _ & Hset).
      by rewrite (settled_checked w1 vs Hs Hset) in Hc.
  - exists 0%nat. destruct Hinv as (outs0 & chunks & _ & _ & _ & Hwr).
    destruct (reply_chunks (mem w) reply !! k) as [chunk|].
    + destruct (writes_defined w c _ _ chunk Hwr) as (res & x & ->). by eexists.
    + destruct (finalize_spec w c _ _ Hwr) as (res & x & -> & _). by eexists.
Qed.

(** ** The server *)

Lemma requests_suffix c order qs i :
  client_ok c -> of_session i order ++ qs = requests c -> Forall request_ok qs /\ Forall (request_known json) qs.
Proof. intros (K1 & K2 & _) E. rewrite <- E in K1, K2. apply Forall_app in K1 as [_ K1], K2 as [_ K2]. done. Qed.

(** The same for all sessions. *)
Definition work (S : Server (In := In) (Out := Out)) (rest : list (list Request * bool)) : nat :=
  sum_list (zip_with (fun s p => rank (phase s) (fst p) (snd p)) (sessions S) rest).
Definition all_chunks_left (S : Server (In := In) (Out := Out)) : nat :=
  sum_list_with (fun s => chunks_left (database S) (phase s)) (sessions S).

Lemma work_insert (S : Server (In := In) (Out := Out)) rest w i s s' p p' :
  sessions S !! i = Some s -> rest !! i = Some p ->
  (work (MkServer (<[i := s']> (sessions S)) w) (<[i := p']> rest) + rank (phase s) (fst p) (snd p) =
   work S rest + rank (phase s') (fst p') (snd p'))%nat.
Proof.
  intros Hs Hp. unfold work. cbn [sessions].
  rewrite <- (insert_zip_with (fun s p => rank (phase s) (fst p) (snd p)) (sessions S) rest i s' p').
  assert (Hz : zip_with (fun s p => rank (phase s) (fst p) (snd p)) (sessions S) rest !! i = Some (rank (phase s) (fst p) (snd p)))
    by (rewrite lookup_zip_with, Hs, Hp; done).
  exact (sum_list_with_insert id _ i _ _ Hz).
Qed.

(** A client and its connection: it is sent what the client says. *)
Definition connected (c : Client) (k : Connection (In := In) (Out := Out)) : Prop :=
  client_ok c /\ before c = sent (sink k) /\ good (sink k) /\ (0 < length (in_buf k))%nat /\ (0 < length (out_buf k))%nat /\
  (forall n, (8 | temporaries k n)) /\ feeds (length (in_buf k)) (input k) (concat (map request_text (requests c)) ++ trailing c).

Definition allocators (conns : list (Connection (In := In) (Out := Out))) (i : nat) : nat -> Z :=
  match conns !! i with Some k => temporaries k | None => fun _ => 0 end.

Definition rest_start (clients : list Client) : list (list Request * bool) := map (fun c => (requests c, false)) clients.

Lemma server_inv_start clients conns w :
  Forall2 connected clients conns -> sound w -> heap_ok w ->
  server_inv (allocators conns) clients w (MkServer (map Connect conns) w) [] [] (rest_start clients).
Proof.
  intros Hc Hs Hh. unfold rest_start. split; try done; [cbn; rewrite !length_map; by rewrite (Forall2_length Hc)|].
  cbn [sessions database]. intros i s c qs ended Hi Hci. rewrite !list_lookup_fmap, Hci in *. intros [= <- <-].
  destruct (Forall2_lookup_l _ _ _ _ _ Hc Hci) as (k & Hk & (_ & Hbe & Hg & Hin & Hout & _ & Hf)). rewrite Hk in Hi.
  injection Hi as <-. unfold allocators. rewrite Hk. split; [done|]. split; [done|]. cbn. split.
  - split; [|done]. split; [split; cbn; lia|]. eexists. split; [|exact Hf]. done.
  - split; [split; cbn; lia|]. split; [done|]. split; [done|]. intros _. rewrite Hbe. unfold accepted, pending. cbn.
    by rewrite !app_nil_r.
Qed.

Lemma connected_ok clients conns : Forall2 connected clients conns -> Forall client_ok clients.
Proof. intros Hc. eapply Forall2_Forall_l; [exact Hc|]. apply Forall_true. by intros k c []. Qed.

(** ** Steps of the server *)

Definition less_left (S S' : Server (In := In) (Out := Out)) (rest rest' : list (list Request * bool)) : Prop :=
  (work S' rest' < work S rest)%nat \/
  (work S' rest' = work S rest /\ (all_chunks_left S' < all_chunks_left S)%nat).

Lemma less_left_work S rest i s s' w p p' :
  sessions S !! i = Some s -> rest !! i = Some p ->
  (rank (phase s') (fst p') (snd p') < rank (phase s) (fst p) (snd p))%nat ->
  less_left S (MkServer (<[i := s']> (sessions S)) w) rest (<[i := p']> rest).
Proof. intros Hs Hp Hr. left. pose proof (work_insert S rest w i s s' p p' Hs Hp). lia. Qed.

Lemma less_left_brought S rest i s s' p :
  sessions S !! i = Some s -> rest !! i = Some p ->
  brought_on (database S) (phase s) (phase s') (fst p) (snd p) ->
  less_left S (MkServer (<[i := s']> (sessions S)) (database S)) rest rest.
Proof.
  intros Hs Hp. rewrite <- (list_insert_id rest i p Hp) at 2. intros [Hr|[Hr Hk]]; [by eapply less_left_work|].
  right. pose proof (work_insert S rest (database S) i s s' p p Hs Hp). split; [lia|]. unfold all_chunks_left. cbn [sessions database].
  pose proof (sum_list_with_insert (fun s => chunks_left (database S) (phase s)) (sessions S) i s s' Hs). cbn in *. lia.
Qed.

(** What is asked of the lists when one session takes a turn: the others keep
    theirs. *)
Lemma server_inv_insert a clients w0 S order log rest order' log' i s s' c qs ended qs' ended' w' :
  server_inv a clients w0 S order log rest ->
  sessions S !! i = Some s -> clients !! i = Some c -> rest !! i = Some (qs, ended) ->
  replay env a order' w0 = Some (w', log') -> sound w' -> heap_ok w' -> grows (database S) w' ->
  allocator s' = a i -> of_session i order' ++ qs' = requests c ->
  session_inv w' c qs' ended' (of_session i log' ++ if ended' then [last_answer] else []) s' ->
  (forall j, j <> i -> of_session j order' = of_session j order /\ of_session j log' = of_session j log) ->
  server_inv a clients w0 (MkServer (<[i := s']> (sessions S)) w') order' log' (<[i := (qs', ended')]> rest).
Proof.
  intros [I1 I2 I3 I4 I5] Hs Hc Hp Hrep Hw Hh Hg Ha Hq Hinv Hothers. split; try done.
  - cbn [sessions]. by rewrite !length_insert.
  - cbn [sessions database]. intros j t d qs1 e1 Ht Hd He. destruct (decide (j = i)) as [->|Hne].
    + rewrite list_lookup_insert_eq in Ht by (by eapply lookup_lt_Some). injection Ht as <-.
      rewrite list_lookup_insert_eq in He by (by eapply lookup_lt_Some). injection He as <- <-.
      rewrite Hc in Hd. by injection Hd as <-.
    + rewrite list_lookup_insert_ne in Ht by done. rewrite list_lookup_insert_ne in He by done. destruct (I5 j t d qs1 e1 Ht Hd He) as (J1 & J2 & J3).
      destruct (Hothers j Hne) as [-> ->]. split_and!; [done|done|]. by apply (session_inv_later (database S)).
Qed.

Lemma server_inv_step a clients w0 S S' order log rest :
  (forall i n, (8 | a i n)) -> Forall client_ok clients -> server_inv a clients w0 S order log rest -> server_step env S S' ->
  exists order' log' rest', server_inv a clients w0 S' order' log' rest' /\ less_left S S' rest rest'.
Proof.
  intros Hal Hcl Hinv Hstep. destruct Hstep as [i s s' w' S Hs Ht]. pose proof Hinv as [I1 I2 I3 I4 I5].
  destruct (lookup_lt_is_Some_2 clients i) as [c Hc]; [rewrite <- (proj1 I4); by eapply lookup_lt_Some|].
  destruct (lookup_lt_is_Some_2 rest i) as [[qs ended] Hp]; [rewrite (proj2 I4), <- (proj1 I4); by eapply lookup_lt_Some|].
  destruct (I5 i s c qs ended Hs Hc Hp) as (Ha & Hq & Hsi). pose proof (Forall_lookup_1 _ _ _ _ Hcl Hc) as Hok.
  destruct (requests_suffix c order qs i Hok Hq) as [Hqs Hkn].
  assert (Hals : forall n, (8 | allocator s n)) by (rewrite Ha; apply Hal).
  destruct (turn_inv (database S) c qs ended _ s s' w' Hals Hok Hqs Hkn I2 I3 Hsi Ht) as [Ha' Heff].
  assert (Hgr : forall w, grows w w) by (intros w; split; done).
  destruct Heff as [(-> & Hb & Hn)|[(-> & -> & -> & Hr & Hn)|(q & qs' & r & a' & o & -> & -> & Hr & Er & Eo & -> & Hg & Hn)]].
  - exists order, log, rest. split; [|by eapply less_left_brought].
    rewrite <- (list_insert_id rest i (qs, ended) Hp). by eapply server_inv_insert; eauto; congruence.
  - exists order, log, (<[i := ([], true)]> rest). split; [|by eapply less_left_work].
    eapply server_inv_insert; eauto; [congruence|]. by rewrite app_nil_r in Hn.
  - exists (order ++ [(i, q)]), (log ++ [(i, snd (answer o))]), (<[i := (qs', false)]> rest).
    split; [|by eapply less_left_work].
    assert (Ho : sound (fst (answer o))).
    { destruct (resolved_evaluates json (request_call q) (allocator s) (StrBuilderNew 128) (database S) r a' Er I2)
        as (o2 & Eo2 & Ho & _). rewrite Eo in Eo2. injection Eo2 as <-. by rewrite outcome_answer. }
    destruct (request_settles json _ _ r a' _ (database S) o Er Hals (proj1 I2) I3 Eo) as (Hh' & _). rewrite <- outcome_answer in Hh'.
    eapply server_inv_insert; eauto.
    + eapply replay_snoc; [exact I1|by rewrite <- Ha|done].
    + congruence.
    + rewrite of_session_snoc, Nat.eqb_refl, <- app_assoc. exact Hq.
    + rewrite of_session_snoc, Nat.eqb_refl. by rewrite app_nil_r in Hn |- *.
    + intros j Hne. rewrite !of_session_snoc. destruct (Nat.eqb_spec i j); [by subst|]. by rewrite !app_nil_r.
Qed.

Lemma allocators_aligned clients conns : Forall2 connected clients conns -> forall i n, (8 | allocators conns i n).
Proof.
  intros Hc i n. unfold allocators. destruct (conns !! i) as [k|] eqn:E; [|apply Z.divide_0_r].
  by destruct (Forall2_lookup_r _ _ _ _ _ Hc E) as (c & _ & (_ & _ & _ & _ & _ & Ha & _)).
Qed.

Lemma server_inv_reached clients conns w S :
  Forall2 connected clients conns -> sound w -> heap_ok w ->
  rtc (server_step env) (MkServer (map Connect conns) w) S ->
  exists order log rest, server_inv (allocators conns) clients w S order log rest.
Proof.
  intros Hc Hs Hh Hr. pose proof (server_inv_start clients conns w Hc Hs Hh) as Hinv.
  pose proof (allocators_aligned clients conns Hc) as Hal. apply connected_ok in Hc. revert Hal Hinv Hr.
  generalize (MkServer (map Connect conns) w) (@nil (nat * Request)) (@nil (nat * bytes)) (rest_start clients) (allocators conns).
  intros S0 order log rest a Hal Hinv Hr. revert order log rest Hinv.
  induction Hr as [S|S S1 S2 Hstep _ IH]; intros order log rest Hinv; [by exists order, log, rest|].
  destruct (server_inv_step a clients w S S1 order log rest Hal Hc Hinv Hstep) as (order1 & log1 & rest1 & Hinv1 & _).
  by apply (IH order1 log1 rest1).
Qed.

(** Every turn leaves less to do. *)
Lemma server_inv_Acc a clients w0 S order log rest :
  (forall i n, (8 | a i n)) -> Forall client_ok clients -> server_inv a clients w0 S order log rest -> Acc (flip (server_step env)) S.
Proof.
  intros Hal Hcl. remember (work S rest) as n eqn:Hn. revert S order log rest Hn.
  induction n as [n IHn] using (well_founded_induction lt_wf). intros S order log rest Hn.
  remember (all_chunks_left S) as m eqn:Hm. revert S order log rest Hn Hm.
  induction m as [m IHm] using (well_founded_induction lt_wf). intros S order log rest -> -> Hinv.
  constructor. intros S' Hstep. destruct (server_inv_step a clients w0 S S' order log rest Hal Hcl Hinv Hstep)
    as (order' & log' & rest' & Hinv' & [Hl|[Hl Hk]]).
  - by eapply (IHn _ Hl).
  - by eapply (IHm _ Hk).
Qed.

(** A session that is not closed can take a turn, or spoils the state. *)
Lemma session_goes_on a clients w0 S order log rest i s :
  (forall i n, (8 | a i n)) -> Forall client_ok clients -> server_inv a clients w0 S order log rest -> sessions S !! i = Some s ->
  phase s <> Closed -> (exists sw, turn env (s, database S) sw) \/ spoils s (database S).
Proof.
  intros Hal Hcl [I1 I2 I3 I4 I5] Hs Hne.
  destruct (lookup_lt_is_Some_2 clients i) as [c Hc]; [rewrite <- (proj1 I4); by eapply lookup_lt_Some|].
  destruct (lookup_lt_is_Some_2 rest i) as [[qs ended] Hp]; [rewrite (proj2 I4), <- (proj1 I4); by eapply lookup_lt_Some|].
  destruct (I5 i s c qs ended Hs Hc Hp) as (Ha & Hq & Hinv). pose proof (Forall_lookup_1 _ _ _ _ Hcl Hc) as Hok.
  destruct (requests_suffix c order qs i Hok Hq). eapply turn_defined; try done. rewrite Ha. apply Hal.
Qed.

Lemma session_stuck a clients w0 S order log rest i s :
  (forall i n, (8 | a i n)) -> Forall client_ok clients -> server_inv a clients w0 S order log rest -> sessions S !! i = Some s ->
  (forall S', ~ server_step env S S') -> phase s = Closed \/ spoils s (database S).
Proof.
  intros Hal Hcl Hinv Hs Hstuck. destruct (phase s) eqn:Hph; [..|by left]; right;
    (destruct (session_goes_on a clients w0 S order log rest i s Hal Hcl Hinv Hs) as [[[s' w'] Ht]|Hsp]; [congruence| |done];
     destruct (Hstuck _ (server_turn env i s s' w' S Hs Ht))).
Qed.

(** What the invariant says of one session. *)
Lemma session_reached a clients w0 S order log rest i s c :
  (forall i n, (8 | a i n)) -> Forall client_ok clients -> server_inv a clients w0 S order log rest -> sane (database S) ->
  sessions S !! i = Some s -> clients !! i = Some c ->
  let answered := before c ++ concat (of_session i log ++ [last_answer]) in
  of_session i order `prefix_of` requests c /\ accepted sent (writer s) `prefix_of` answered /\
    (phase s = Closed -> of_session i order = requests c /\ sent (out_ (writer s)) = answered) /\
    (phase s <> Closed -> (exists sw, turn env (s, database S) sw) \/ spoils s (database S)).
Proof.
  intros Hal Hcl Hall Hsane Hs Hc answered. pose proof Hall as [I1 I2 I3 I4 I5].
  destruct (lookup_lt_is_Some_2 rest i) as [[qs ended] Hp]; [rewrite (proj2 I4), <- (proj1 I4); by eapply lookup_lt_Some|].
  destruct (I5 i s c qs ended Hs Hc Hp) as (Ha & Hq & Hinv). split; [by exists qs|].
  assert (Hpre : forall l, l `prefix_of` concat (of_session i log ++ if ended then [last_answer] else []) ->
    before c ++ l `prefix_of` answered).
  { intros l Hl. apply prefix_app. etrans; [exact Hl|]. destruct ended; [done|].
    rewrite app_nil_r, concat_app. by eexists. }
  split; [|split; [|intros Hne; by eapply session_goes_on]].
  - unfold session_inv in Hinv. destruct (phase s) as [|code|reply k|].
    + destruct Hinv as [_ (_ & _ & _ & Ht)]. rewrite (Ht Hsane). by apply Hpre.
    + destruct Hinv as ((_ & _ & _ & Ht) & _). rewrite (Ht Hsane). by apply Hpre.
    + destruct Hinv as (outs0 & chunks & E & _ & _ & (_ & _ & _ & Ht)). rewrite (Ht Hsane). apply Hpre. rewrite E, concat_app.
      apply prefix_app. cbn [concat]. unfold rendered. rewrite app_nil_r.
      exists (concat (drop k chunks) ++ [c_lf]). by rewrite app_assoc, <- concat_app, take_drop.
    + destruct Hinv as (_ & _ & (_ & _ & _ & Ht) & _). rewrite (Ht Hsane). by apply Hpre.
  - intros Hph. unfold session_inv in Hinv. rewrite Hph in Hinv. destruct Hinv as (-> & -> & _ & Ht).
    rewrite app_nil_r in Hq. split; [done|]. by apply Ht.
Qed.
End Serializable.

(** * Properties *)

(** C2. Several connections are served as if their requests were executed one
    after the other: whatever the order in which the sessions of a worker
    thread take their turns, every state reached, if its objects fit their
    blocks and lie below [2^63], is that after executing some requests one at a
    time, each session's in the order it sent them; and every session has been
    sent a beginning of the answers to its requests -- all of them, and the
    empty list for the end of its input, once it has closed -- though the
    answers were written piecewise from objects that others had been changing
    meanwhile.  A session that has not closed can go on, unless its program
    leads to a state whose types or objects do not fit. *)
Theorem sessions_are_serializable {In Out : Type} `{InStreamLaws In} {sent : Out -> bytes} `{OutStreamLaws Out sent}
    (good : Out -> Prop) json (clients : list Client) (conns : list (Connection (In := In) (Out := Out))) w S :
  accepts good -> sound w -> heap_ok w -> Forall2 (connected (sent := sent) (good := good) json) clients conns ->
  rtc (server_step (CreateSlangEnv json)) (MkServer (map Connect conns) w) S -> sane (database S) ->
  exists order log, replay (CreateSlangEnv json) (allocators conns) order w = Some (database S, log) /\ sound (database S) /\
  forall i c s, clients !! i = Some c -> sessions S !! i = Some s ->
    let answered := before c ++ concat (of_session i log ++ [last_answer]) in
    of_session i order `prefix_of` requests c /\ accepted sent (writer s) `prefix_of` answered /\
    (phase s = Closed -> of_session i order = requests c /\ sent (out_ (writer s)) = answered) /\
    (phase s <> Closed -> (exists sw, turn (CreateSlangEnv json) (s, database S) sw) \/ spoils s (database S)).
Proof.
  intros Hacc Hw Hh Hc Hr Hsane. destruct (server_inv_reached Hacc json clients conns w S Hc Hw Hh Hr) as (order & log & rest & Hinv).
  exists order, log. split; [apply Hinv|]. split; [apply Hinv|]. pose proof (connected_ok json _ _ Hc) as Hok.
  pose proof (allocators_aligned json _ _ Hc) as Hal. intros i c s Hi Hs.
  by apply (session_reached Hacc json (allocators conns) clients w S order log rest).
Qed.

(** C4. However the turns are distributed, the sessions of a worker thread
    cannot go on forever, and they stop only when every connection has been
    served to its end and closed, or waits to execute a program that leads to a
    state whose types or objects do not fit. *)
Theorem sessions_always_finish {In Out : Type} `{InStreamLaws In} {sent : Out -> bytes} `{OutStreamLaws Out sent}
    (good : Out -> Prop) json (clients : list Client) (conns : list (Connection (In := In) (Out := Out))) w :
  accepts good -> sound w -> heap_ok w -> Forall2 (connected (sent := sent) (good := good) json) clients conns ->
  Acc (flip (server_step (CreateSlangEnv json))) (MkServer (map Connect conns) w) /\
  forall S, rtc (server_step (CreateSlangEnv json)) (MkServer (map Connect conns) w) S ->
    (forall S', ~ server_step (CreateSlangEnv json) S S') -> Forall (fun s => phase s = Closed \/ spoils s (database S)) (sessions S).
Proof.
  intros Hacc Hw Hh Hc. pose proof (connected_ok json _ _ Hc) as Hok.
  pose proof (allocators_aligned json _ _ Hc) as Hal. split.
  - by eapply (server_inv_Acc Hacc json); [exact Hal|exact Hok|apply server_inv_start].
  - intros S Hr Hstuck. destruct (server_inv_reached Hacc json clients conns w S Hc Hw Hh Hr) as (order & log & rest & Hinv).
    apply Forall_lookup_2. intros i s Hs. by eapply (session_stuck Hacc json); [exact Hal|exact Hok|exact Hinv|exact Hs|].
Qed.

(** ** Two sessions that take turns *)

(** One turn for each session of a schedule, if it can take one. *)
Fixpoint drive {In Out : Type} `{InStream In} `{OutStream Out} (env : Env World) (fuel : nat) (sched : list nat)
    (S : Server (In := In) (Out := Out)) : Server :=
  match sched with
  | [] => S
  | i :: sched' =>
      match sessions S !! i ≫= fun s => SessionTurn env fuel s (database S) with
      | Some (s', w') => drive env fuel sched' (MkServer (<[i := s']> (sessions S)) w')
      | None => drive env fuel sched' S
      end
  end.

Lemma drive_server_steps {In Out : Type} `{InStream In} `{OutStream Out} (env : Env World) fuel sched (S : Server (In := In) (Out := Out)) :
  rtc (server_step env) S (drive env fuel sched S).
Proof.
  revert S. induction sched as [|i sched IH]; intros S; cbn [drive]; [done|].
  destruct (sessions S !! i) as [s|] eqn:Hs; [|apply IH]. cbn [mbind option_bind].
  destruct (SessionTurn env fuel s (database S)) as [[s' w']|] eqn:E; [|apply IH].
  eapply rtc_l; [|apply IH]. apply (server_turn env i s); [done|]. by exists fuel.
Qed.

Definition demo_clients : list Client :=
  [MkClient [([], lit "defstruct", [EStr (lit "p"); EName (lit ":x"); EStr (lit "int8"); EName (lit ":y"); EStr (lit "int32")]);
             ([c_lf], lit "create", [EStr (lit "p"); EName (lit ":x"); EInt (-3)]);
             ([c_lf], lit "select", [EStr (lit "p")])] [c_lf] [];
   MkClient [([], lit "create", [EStr (lit "p"); EName (lit ":y"); EInt 258]);
             ([], lit "select", [EStr (lit "p")])] [] []].
Definition demo_conns : list (Connection (In := ChunkStream) (Out := Sink)) :=
  map (fun c => MkConnection (lit "????") (lit "??") [concat (map request_text (requests c)) ++ trailing c] [] demo_alloc)
    demo_clients.
Definition demo_server : Server :=
  drive (CreateSlangEnv JsonPayloadHandler) 200 (concat (replicate 400 [1; 0; 0]%nat)) (MkServer (map Connect demo_conns) demo_world).

Lemma demo_calls_known : forall c q, In c demo_clients -> In q (requests c) -> request_known JsonPayloadHandler q.
Proof.
  assert (Hf : forall name, (if FindCall (CreateSlangEnv JsonPayloadHandler) name then true else false) = true ->
    exists call, FindCall (CreateSlangEnv JsonPayloadHandler) name = Some call).
  { intros name. destruct (FindCall _ name) as [call|]; [by exists call|done]. }
  intros c q Hc Hq. repeat (destruct Hc as [<-|Hc]; [repeat (destruct Hq as [<-|Hq]; [|]); try done|]); try done;
    (split; [apply Hf; vm_compute; reflexivity|repeat constructor]).
Qed.

Lemma demo_requests_ok qs :
  forallb (fun q => forallb is_blank (fst (fst q)) && sexp_ok_b (request_call q)) qs = true -> Forall request_ok qs.
Proof.
  intros E. apply List.Forall_forall. intros q Hq. rewrite forallb_forall in E. apply E, andb_true_iff in Hq as [Hb Hs].
  split; [done|by apply sexp_ok_b_spec].
Qed.

Lemma demo_connected :
  Forall2 (connected (sent := fun s => s) (good := fun _ => True) JsonPayloadHandler) demo_clients demo_conns.
Proof.
  apply Forall2_fmap_r, Forall_Forall2_diag, List.Forall_forall. intros c Hc. split; [split_and!|split_and!].
  - by destruct Hc as [<-|[<-|[]]]; apply demo_requests_ok; vm_compute.
  - apply List.Forall_forall. intros q Hq. by apply (demo_calls_known c).
  - by destruct Hc as [<-|[<-|[]]].
  - by destruct Hc as [<-|[<-|[]]].
  - done.
  - cbn. lia.
  - cbn. lia.
  - exact demo_alloc_aligned.
  - cbn [in_buf input]. rewrite <- (app_nil_r (concat _ ++ _)) at 2. apply (chunk_feeds 4 [_]). lia.
Qed.

Definition sane_vault (v : ObjectVault) : bool := forallb (fun o => bool_decide (data_ o < 2 ^ 63)) (store_ v).

Lemma vaults_below st :
  map_Forall (fun _ v => sane_vault v = true) (objects_ st) ->
  forall n os, os ∈ enumerated n st -> data_ (fst os) < 2 ^ 63.
Proof.
  intros Hv n os. unfold enumerated, Enumerate, FindVaultWithType.
  destruct (objects_ st !! n) as [v|] eqn:E; [|by intros Hos; apply elem_of_nil in Hos].
  specialize (Hv n v E). cbn [default option_map]. intros Hos. apply list_elem_of_fmap in Hos as (o & -> & Ho).
  unfold sane_vault in Hv. rewrite forallb_forall in Hv. apply list_elem_of_In, Hv in Ho. by apply bool_decide_eq_true in Ho.
Qed.

Lemma demo_server_sane : sane (database demo_server).
Proof.
  split.
  - assert (E : types_list_ (types (database demo_server)) = initial_types ++ [point]) by (vm_compute; reflexivity).
    rewrite E. apply Forall_app. split; [repeat (constructor; [by left|]); constructor|].
    constructor; [|constructor]. right. split; [apply point_flat|vm_compute; congruence].
  - apply vaults_below. apply (bool_decide_unpack _). vm_compute. exact I.
Qed.

Lemma phases_closed {In Out : Type} (l : list (Session (In := In) (Out := Out))) n i :
  map phase l = replicate n Closed -> (i < n)%nat -> exists s, l !! i = Some s /\ phase s = Closed.
Proof.
  intros E Hi. assert (Hp : map phase l !! i = Some Closed) by (rewrite E; by apply lookup_replicate_2).
  rewrite list_lookup_fmap in Hp. apply fmap_Some in Hp as (s & Hs & Hp). by exists s.
Qed.

Lemma sessions_are_serializable_witness :
  exists order log, replay (CreateSlangEnv JsonPayloadHandler) (allocators demo_conns) order demo_world =
      Some (database demo_server, log) /\
    forall i c, demo_clients !! i = Some c -> of_session i order = requests c.
Proof.
  destruct (sessions_are_serializable (sent := fun s => s) (fun _ => True) JsonPayloadHandler demo_clients demo_conns demo_world
    demo_server) as (order & log & Hr & _ & Hs).
  - intros s bs _. split; [reflexivity|exact I].
  - exact demo_world_sound.
  - exact demo_heap_ok.
  - exact demo_connected.
  - apply drive_server_steps.
  - exact demo_server_sane.
  - exists order, log. split; [exact Hr|]. intros i c Hc.
    destruct (phases_closed (sessions demo_server) 2 i) as (s & Es & Hph); [vm_compute; reflexivity|by apply lookup_lt_Some in Hc|].
    destruct (Hs i c s Hc Es) as (_ & _ & Hcl & _). exact (proj1 (Hcl Hph)).
Defined.

Lemma sessions_always_finish_witness :
  Acc (flip (server_step (CreateSlangEnv JsonPayloadHandler))) (MkServer (map Connect demo_conns) demo_world).
Proof.
  apply (sessions_always_finish (sent := fun s => s) (fun _ => True) JsonPayloadHandler demo_clients demo_conns demo_world).
  - intros s bs _. split; [reflexivity|exact I].
  - exact demo_world_sound.
  - exact demo_heap_ok.
  - exact demo_connected.
Defined.
