(* ===== verification/Task.v ===== *)
(** [task/] and [event/]: the task manager, its worker threads and tasks, the
    event queue.

    The threads interleave: each step of the relation below is what one thread
    does between two accesses to something other threads see -- one ring
    operation, one call of the kernel, one write to what another thread may
    use, one action of a task -- and the other threads take any number of steps
    in between.  What the tasks do is
    arbitrary.  A [Task *] is a number; a task that was deleted is in no table,
    and an access to it is undefined, like a failed assertion: [None].  The
    kernel's event polling is a parameter. *)
From S2P Require Import Prelude Containers.
Local Open Scope Z_scope.

(** * The kernel *)

(** source/event/event_def.h:9-13 [EventFlags] *)
Definition FlagRead : Z := 1.
Definition FlagWrite : Z := 2.
Definition FlagExactlyOnce : Z := 4.

(** [EPOLLIN] and so on. *)
Definition k_epollin : Z := 1.
Definition k_epollout : Z := 4.
Definition k_epollerr : Z := 8.
Definition k_epollhup : Z := 16.
Definition k_epolloneshot : Z := 2 ^ 30.

Inductive CtlOp := CtlAdd | CtlMod | CtlDel.

(** [epoll_ctl] on a descriptor with a mask and a user handle; [epoll_wait],
    which drains the wake-up descriptor; what the kernel does on its own; a
    write to the wake-up descriptor. *)
Class Epoll (K : Type) := {
  epoll_ctl : K -> CtlOp -> Z -> Z -> option nat -> bool * K;
  epoll_wait : K -> list (option nat) -> K -> Prop;
  epoll_env : K -> K -> Prop;
  event_write : K -> K
}.

(** * Data *)

Section Task.
  Context {Func K : Type} `{Epoll K}.

(** source/task/task.h:26-30 [TaskState] *)
Inductive TaskState := NotStarted | Executing | Suspended.

(** source/task/task.h:55-109 [Task] *)
Record Task := MkTask { func_ : option Func; state_ : TaskState; thread_ : option nat }.

(** The function stands for function and arguments. *)
(** source/task/task.h:120-144 [TaskTuple] *)
Record TaskTuple := MkTuple { task_ : option nat; tuple_func_ : option Func }.

(** source/event/epoll/event/event.h:10-22 [EpollEventSource] *)
Record EventSource := MkSource { fd_ : Z; is_added_ : bool }.

(** source/task/worker_thread.h:51-65 [WorkerThread::ExecutionState] *)
Record ExecutionState := MkExec {
  current_task_ : option nat;
  pending_event_ : option nat;
  pending_event_flags_ : Z;
  has_pending_event_ : bool;
  yield_ : bool;
  tasks_queued_ : Z
}.

(** Where a thread is in [ThreadProc]: at the test of [running_]; in the wait for events; before the
    events left; before the pop number [j] of [DequeNextTask]; with a tuple in
    hand; inside the task; in [PostTask]; in [AddEvent], behind the
    registration of a source for a task; in [StopInternal]; at the end. *)
(** source/task/worker_thread.cc:58-110 [WorkerThread::ThreadProc] *)
Inductive Pc :=
| PcLoop | PcWait | PcEvents (triggered : list (option nat)) | PcDeque (j : nat) | PcGot (task_data : TaskTuple)
| PcRun | PcPost | PcMark (t p : nat) | PcStop (i num_running : nat) | PcDone.

(** source/task/worker_thread.h:67-85 [WorkerThread] *)
Record WorkerThread := MkWorker {
  running_ : bool;
  finished_ : bool;
  local_task_queue_ : Ring TaskTuple;
  exec_ : ExecutionState;
  pc : Pc
}.

(** [sources] is the memory of the event sources. *)
(** source/task/task_manager.h:52-58 [TaskManager] *)
Record TaskManager := MkManager {
  threads_ : list WorkerThread;
  tasks : gmap nat Task;
  sources : nat -> EventSource;
  event_queue_ : K
}.

Definition with_queue (q : Ring TaskTuple) (w : WorkerThread) := MkWorker (running_ w) (finished_ w) q (exec_ w) (pc w).
Definition with_exec (e : ExecutionState) (w : WorkerThread) :=
  MkWorker (running_ w) (finished_ w) (local_task_queue_ w) e (pc w).
Definition with_pc (p : Pc) (w : WorkerThread) :=
  MkWorker (running_ w) (finished_ w) (local_task_queue_ w) (exec_ w) p.

Definition with_thread (i : nat) (f : WorkerThread -> WorkerThread) (s : TaskManager) :=
  MkManager (alter f i (threads_ s)) (tasks s) (sources s) (event_queue_ s).
Definition with_tasks (f : gmap nat Task -> gmap nat Task) (s : TaskManager) :=
  MkManager (threads_ s) (f (tasks s)) (sources s) (event_queue_ s).
Definition with_kernel (k : K) (s : TaskManager) := MkManager (threads_ s) (tasks s) (sources s) k.
Definition with_source (p : nat) (x : EventSource) (s : TaskManager) :=
  MkManager (threads_ s) (tasks s) (fun q => if decide (q = p) then x else sources s q) (event_queue_ s).

(** * Tasks *)

(** source/task/task.cc:5-19 [Task::Execute] *)
Definition TaskExecute (from_thread : nat) (t : Task) : option Task :=
  match func_ t, state_ t with
  | Some _, NotStarted => Some (MkTask (func_ t) Executing (Some from_thread))
  | _, _ => None
  end.

(** source/task/task.cc:21-27 [Task::Suspend] *)
Definition TaskSuspend (t : Task) : option Task :=
  match thread_ t, state_ t with
  | Some _, Executing => Some (MkTask (func_ t) Suspended (thread_ t))
  | _, _ => None
  end.

(** source/task/task.cc:29-36 [Task::Resume] *)
Definition TaskResume (from_thread : nat) (t : Task) : option Task :=
  match state_ t with
  | Suspended => Some (MkTask (func_ t) Executing (Some from_thread))
  | _ => None
  end.

(** * The event queue *)

Definition flag_set (flags f : Z) : bool := negb (Z.land flags f =? 0).

(** source/event/epoll/event/eventqueue.cc:53-66 [EpollEventQueue::AddEvent] *)
Definition event_mask (event_flags : Z) : Z :=
  let e := Z.lor k_epollerr k_epollhup in
  let e := if flag_set event_flags FlagRead then Z.lor e k_epollin else e in
  let e := if flag_set event_flags FlagWrite then Z.lor e k_epollout else e in
  if flag_set event_flags FlagExactlyOnce then Z.lor e k_epolloneshot else e.

(** [AddEvent] has two parts: as soon as the kernel knows the event it can fire,
    and other threads go on with the task while this one is on its way to the
    write of the flag.  The first part says whether the flag is still to be
    set; an error is only logged. *)
(** source/event/epoll/event/eventqueue.cc:50-78 [EpollEventQueue::AddEvent] *)
Definition AddEvent (p : nat) (event_flags : Z) (user_handle : option nat) (s : TaskManager) : option (bool * TaskManager) :=
  let x := sources s p in
  if fd_ x <? 0 then None
  else
    let '(_, k) :=
      epoll_ctl (event_queue_ s) (if is_added_ x then CtlMod else CtlAdd) (fd_ x) (event_mask event_flags) user_handle in
    Some (negb (is_added_ x), with_kernel k s).

(** The write goes to the memory the source was in, whatever is there by now. *)
(** source/event/epoll/event/eventqueue.cc:73-73 [EpollEventQueue::AddEvent] *)
Definition MarkAdded (p : nat) (s : TaskManager) : TaskManager := with_source p (MkSource (fd_ (sources s p)) true) s.

(** source/event/epoll/event/eventqueue.cc:81-90 [EpollEventQueue::RemoveEvent] *)
Definition RemoveEvent (p : nat) (s : TaskManager) : option TaskManager :=
  let x := sources s p in
  if fd_ x <? 0 then None
  else
    let '(ok, k) := epoll_ctl (event_queue_ s) CtlDel (fd_ x) 0 None in
    Some (with_source p (MkSource (fd_ x) (if ok then false else is_added_ x)) (with_kernel k s)).

(** source/event/epoll/event/eventqueue.cc:123-126 [EpollEventQueue::InterruptAll] *)
Definition InterruptAll (s : TaskManager) : TaskManager := with_kernel (event_write (event_queue_ s)) s.

(** * Worker threads *)

(** The result of the push is ignored. *)
(** source/task/worker_thread.cc:112-126 [WorkerThread::QueueTask] *)
Definition QueueTask (tup : TaskTuple) (w : WorkerThread) : WorkerThread :=
  with_queue (snd (Push tup (local_task_queue_ w))) w.

(** source/task/worker_thread.cc:54-56 [WorkerThread::DelayedStop] *)
Definition DelayedStop (w : WorkerThread) : WorkerThread :=
  MkWorker false (finished_ w) (local_task_queue_ w) (exec_ w) (pc w).

(** The pop number [j]: the own queue, then all queues beginning with the own. *)
(** source/task/worker_thread.cc:128-148 [WorkerThread::DequeNextTask] *)
Definition DequeVictim (index num_threads j : nat) : nat :=
  match j with O => index | S j' => (index + j') mod num_threads end%nat.

(** source/task/worker_thread.cc:128-148 [WorkerThread::DequeNextTask] *)
Definition DequeStep (i j : nat) (s : TaskManager) : option TaskManager :=
  if (length (threads_ s) <? j)%nat then Some (with_thread i (with_pc PcLoop) s)
  else
    let v := DequeVictim i (length (threads_ s)) j in
    match threads_ s !! v with
    | None => None
    | Some victim =>
        match Pop (local_task_queue_ victim) with
        | (Some tup, q) => Some (with_thread i (with_pc (PcGot tup)) (with_thread v (with_queue q) s))
        | (None, _) => Some (with_thread i (with_pc (PcDeque (S j))) s)
        end
    end.

(** source/task/worker_thread.cc:150-160 [WorkerThread::CreateTask] *)
Definition CreateTask (tup : TaskTuple) (s : TaskManager) : nat * TaskManager :=
  let t := fresh (dom (tasks s)) in
  (t, with_tasks <[t := MkTask (tuple_func_ tup) NotStarted None]> s).

(** source/task/worker_thread.cc:162-168 [WorkerThread::DestroyTask] *)
Definition DestroyTask (t : nat) (s : TaskManager) : TaskManager := with_tasks (delete t) s.

(** source/task/worker_thread.cc:170-180 [WorkerThread::PreTask] *)
Definition PreTask (t : nat) (e : ExecutionState) : option ExecutionState :=
  match current_task_ e with
  | None =>
      Some (MkExec (Some t) (pending_event_ e) (pending_event_flags_ e) (has_pending_event_ e) (yield_ e) 0)
  | Some _ => None
  end.

(** From the tuple in hand to inside the task. *)
(** source/task/worker_thread.cc:86-102 [WorkerThread::ThreadProc] *)
Definition StartTask (i : nat) (tup : TaskTuple) (w : WorkerThread) (s : TaskManager) : option TaskManager :=
  let '(t, s1) := match task_ tup with None => CreateTask tup s | Some t => (t, s) end in
  match tasks s1 !! t with
  | None => None
  | Some task =>
      match PreTask t (exec_ w),
            match state_ task with
            | NotStarted => TaskExecute i task
            | Suspended => TaskResume i task
            | Executing => None
            end with
      | Some e, Some task' =>
          Some (with_thread i (fun w => with_pc PcRun (with_exec e w)) (with_tasks <[t := task']> s1))
      | _, _ => None
      end
  end.

(** The execution state is the thread's own, so that nobody sees whether it is
    cleared before or behind the write to the source. *)
(** source/task/worker_thread.cc:182-224 [WorkerThread::PostTask] *)
Definition PostTask (i t : nat) (w : WorkerThread) (s : TaskManager) : option TaskManager :=
  let e := exec_ w in
  if has_pending_event_ e then
    match tasks s !! t, pending_event_ e with
    | Some task, Some p =>
        match state_ task with
        | Suspended =>
            option_map
              (fun '(mark, s) =>
                 with_thread i
                   (fun w => with_pc (if mark : bool then PcMark t p else PcDeque 0)
                      (with_exec (MkExec None None (pending_event_flags_ e) false (yield_ e) (tasks_queued_ e)) w)) s)
              (AddEvent p (pending_event_flags_ e) (Some t) s)
        | _ => None
        end
    | _, _ => None
    end
  else if yield_ e then
    Some (with_thread i
      (fun w => with_pc (PcDeque 0)
         (with_exec (MkExec None (pending_event_ e) (pending_event_flags_ e) false false (tasks_queued_ e))
            (QueueTask (MkTuple (Some t) None) w))) s)
  else
    Some (with_thread i
      (fun w => with_pc (PcDeque 0)
         (with_exec (MkExec None (pending_event_ e) (pending_event_flags_ e) false false (tasks_queued_ e)) w))
      (DestroyTask t s)).

(** One step of a thread outside a task and outside the wait. *)
(** source/task/worker_thread.cc:70-110 [WorkerThread::ThreadProc] *)
Definition ThreadStep (i : nat) (w : WorkerThread) (s : TaskManager) : option TaskManager :=
  match pc w with
  | PcLoop =>
      if running_ w then Some (with_thread i (with_pc PcWait) s)
      else Some (with_thread i (fun w => MkWorker (running_ w) true (local_task_queue_ w) (exec_ w) (PcStop 0 0)) s)
  | PcWait => Some s
  | PcEvents [] => Some (with_thread i (with_pc (PcDeque 0)) s)
  | PcEvents (None :: l) => Some (with_thread i (with_pc (PcEvents l)) s)
  | PcEvents (Some t :: l) =>
      Some (with_thread i (fun w => with_pc (PcEvents l) (QueueTask (MkTuple (Some t) None) w)) s)
  | PcDeque j => DequeStep i j s
  | PcGot tup => StartTask i tup w s
  | PcRun => Some s
  | PcPost =>
      match current_task_ (exec_ w) with
      | None => None
      | Some t => PostTask i t w s
      end
  | PcMark _ p => Some (with_thread i (with_pc (PcDeque 0)) (MarkAdded p s))
  | PcStop j num_running =>
      match threads_ s !! j with
      | Some other =>
          if finished_ other then Some (with_thread i (with_pc (PcStop (S j) num_running)) s)
          else Some (with_thread i (with_pc (PcStop (S j) (S num_running))) (with_thread j DelayedStop s))
      | None =>
          Some (with_thread i (with_pc (match num_running with O => PcDone | S _ => PcStop 0 0 end)) (InterruptAll s))
      end
  | PcDone => Some s
  end.

(** * What a task can do *)

(** [ASource] is the construction of an event source on a descriptor. *)
Inductive Action :=
| AAsync (f : Func) | AWait (event_source : nat) (event_flags : Z) | AYield | AExit | AReturn
| ASource (p : nat) (fd : Z) | ARemove (p : nat).

(** [state.current_task_->Suspend()], after which the thread is in [PostTask]. *)
Definition SuspendCurrent (th : nat) (s : TaskManager) : option TaskManager :=
  match threads_ s !! th with
  | None => None
  | Some w =>
      match current_task_ (exec_ w) with
      | None => None
      | Some t =>
          match tasks s !! t with
          | None => None
          | Some task =>
              option_map (fun task' => with_thread th (with_pc PcPost) (with_tasks <[t := task']> s)) (TaskSuspend task)
          end
      end
  end.

(** source/task/task_context.h:61-74 [TaskContext::PerformAsync] *)
Definition PerformAsync (th : nat) (f : Func) (s : TaskManager) : TaskManager :=
  InterruptAll (with_thread th (QueueTask (MkTuple None (Some f))) s).

(** source/task/task_context.cc:17-29 [TaskContext::WaitEvent] *)
Definition WaitEvent (th : nat) (event_source : nat) (event_flags : Z) (s : TaskManager) : option TaskManager :=
  SuspendCurrent th
    (with_thread th (fun w => let e := exec_ w in
       with_exec (MkExec (current_task_ e) (Some event_source) event_flags true (yield_ e) (tasks_queued_ e)) w) s).

(** source/task/task_context.cc:36-45 [TaskContext::Exit] *)
Definition Exit (th : nat) (s : TaskManager) : option TaskManager := SuspendCurrent th (with_thread th DelayedStop s).

(** source/task/task_context.cc:47-53 [TaskContext::Yield] *)
Definition Yield (th : nat) (s : TaskManager) : option TaskManager :=
  SuspendCurrent th
    (with_thread th (fun w => let e := exec_ w in
       with_exec (MkExec (current_task_ e) (pending_event_ e) (pending_event_flags_ e) (has_pending_event_ e) true
                    (tasks_queued_ e)) w) s).

(** The action of the task [t], which knows its thread. *)
Definition Act (i t : nat) (a : Action) (s : TaskManager) : option TaskManager :=
  match tasks s !! t with
  | None => None
  | Some task =>
      match thread_ task with
      | None => None
      | Some th =>
          match a with
          | AAsync f => Some (PerformAsync th f s)
          | AWait p flags => WaitEvent th p flags s
          | AYield => Yield th s
          | AExit => Exit th s
          | AReturn => Some (with_thread i (with_pc PcPost) s)
          | ASource p fd => Some (with_source p (MkSource fd false) s)
          | ARemove p => RemoveEvent p s
          end
      end
  end.

(** All events are waited for once, and event sources have a descriptor. *)
Definition action_ok (a : Action) : bool :=
  match a with AWait _ flags => flag_set flags FlagExactlyOnce | ASource _ fd => 0 <=? fd | _ => true end.

(** The threads are there once the manager runs. *)
(** source/task/task_manager.cc:66-68 [TaskManager::IsRunning] *)
Definition IsRunning (s : TaskManager) : bool := negb (bool_decide (threads_ s = [])).

(** [None] is the failed assertion. *)
(** source/task/task_manager.cc:57-64 [TaskManager::Stop] *)
Definition Stop (s : TaskManager) : option TaskManager :=
  if IsRunning s then
    Some (InterruptAll (foldl (fun s i => with_thread i DelayedStop s) s (seq 0 (length (threads_ s)))))
  else None.

(** * Interleaving *)

(** One step of some thread, of the kernel, or of whoever stops the manager:
    [Stop] tells one thread after the other to stop and then interrupts, and
    the others go on in between; as it may be called by many, and at any time,
    the two kinds of steps come in any order. *)
Inductive step : TaskManager -> TaskManager -> Prop :=
| step_wait s i w evs k' :
    threads_ s !! i = Some w -> pc w = PcWait -> epoll_wait (event_queue_ s) evs k' ->
    step s (with_thread i (with_pc (PcEvents evs)) (with_kernel k' s))
| step_thread s i w s' : threads_ s !! i = Some w -> ThreadStep i w s = Some s' -> step s s'
| step_act s i w t a s' :
    threads_ s !! i = Some w -> pc w = PcRun -> current_task_ (exec_ w) = Some t -> action_ok a = true ->
    Act i t a s = Some s' -> step s s'
| step_stop s i : step s (with_thread i DelayedStop s)
| step_interrupt s : step s (InterruptAll s)
| step_env s k' : epoll_env (event_queue_ s) k' -> step s (with_kernel k' s).

Lemma Stop_steps s s' : Stop s = Some s' -> rtc step s s'.
Proof.
  unfold Stop. destruct (IsRunning s); [|done]. intros [= <-]. generalize (seq 0 (length (threads_ s))). intros l. revert s.
  induction l as [|i l IH]; intros s; cbn [foldl]; [apply rtc_once; constructor|].
  apply (rtc_l _ _ (with_thread i DelayedStop s)); [constructor|apply IH].
Qed.

(** Every thread is told. *)
Lemma Stop_stops s s' : Stop s = Some s' -> Forall (fun w => running_ w = false) (threads_ s').
Proof.
  unfold Stop. destruct (IsRunning s); [|done]. intros [= <-]. cbn [InterruptAll with_kernel threads_]. apply Forall_lookup. intros i w Hi.
  assert (Hgen : forall l s0 i w, threads_ (foldl (fun s i => with_thread i DelayedStop s) s0 l) !! i = Some w ->
    running_ w = false \/ threads_ s0 !! i = Some w /\ i ∉ l).
  { induction l as [|j l IH]; intros s0 k v; cbn [foldl]; [intros Hk; right; split; [done|apply not_elem_of_nil]|].
    intros Hk. destruct (IH _ _ _ Hk) as [?|[Hk' Hn]]; [by left|]. cbn [with_thread threads_] in Hk'.
    destruct (decide (k = j)) as [->|Hne].
    - rewrite list_lookup_alter_eq in Hk'. destruct (threads_ s0 !! j); [|done]. injection Hk' as <-. by left.
    - rewrite list_lookup_alter_ne in Hk' by done. right. split; [done|]. by apply not_elem_of_cons. }
  destruct (Hgen _ _ _ _ Hi) as [?|[Hl Hn]]; [done|]. destruct Hn. apply elem_of_seq. apply lookup_lt_Some in Hl. lia.
Qed.

(** A failed assertion or an undefined access. *)
Definition fails (s : TaskManager) : Prop :=
  exists i w, threads_ s !! i = Some w /\
    (ThreadStep i w s = None \/
     pc w = PcRun /\
     (current_task_ (exec_ w) = None \/
      exists t a, current_task_ (exec_ w) = Some t /\ action_ok a = true /\ Act i t a s = None)).

(** * Start *)

(** source/task/worker_thread.cc:12-36 [WorkerThread::WorkerThread] *)
Definition WorkerNew (entrypoints : list TaskTuple) : WorkerThread :=
  foldl (fun w tup => QueueTask tup w)
    (MkWorker true false (RingNew 1024 (MkTuple None None)) (MkExec None None 0 false false 0) PcLoop) entrypoints.

(** The threads run when all of them are there; the first one has the entry
    points. *)
(** source/task/task_manager.cc:31-55 [TaskManager::Run] *)
Definition Run (num_threads : nat) (entrypoints : list Func) (sources : nat -> EventSource) (k : K) : TaskManager :=
  MkManager (WorkerNew (map (fun f => MkTuple None (Some f)) entrypoints) :: replicate (pred num_threads) (WorkerNew []))
    empty sources k.
End Task.
