(* ===== verification/TaskArgs.v ===== *)
(** The arguments of tasks ([task/task.h], [TaskManager::AddEntryPoint]): a
    [TaskTuple] holds the arguments of a task as a [std::tuple] constructed in
    a buffer of bytes, and is copied byte by byte -- when the vector of entry
    points grows, into the ring of a thread, and into the thread's own tuple,
    from where the task function takes them.

    [Task] has function and arguments of a task as one value; here is what the
    bytes mean when the function is called.  Plain data means the same
    anywhere.  A [Str] whose text is in the object itself refers to the place
    where the object was constructed. *)
From S2P Require Import Prelude Str.
Local Open Scope Z_scope.

(** Plain data of any kind, or a [Str]. *)
Inductive Arg := AWord (w : Z) | AStr (s : bytes).
Inductive Stored := SWord (w : Z) | SStr (x : BasicString).

(** Where in the buffer the argument number [i] has the characters of a short
    text. *)
Class ArgLayout := { buf_at : nat -> Z }.

(** source/task/task.h:19-20 [kTaskMaxArgsSize] *)
Definition kTaskMaxArgsSize : Z := 128.

(** [sizeof(TaskTuple)] and the place of [args_store_]. *)
Definition tuple_size : Z := 160.
Definition args_offset : Z := 16.

Section Args.
  Context `{Placement} `{StringImpl} `{ArgLayout}.

(** [static_assert(sizeof(T) <= kTaskMaxArgsSize)] *)
(** source/task/task.h:151-151 [TaskTuple] *)
Definition args_fit (args : list Arg) : bool :=
  forallb (fun ia => match snd ia with
                     | AWord _ => true
                     | AStr _ => (0 <=? buf_at (fst ia)) && (buf_at (fst ia) + local_capacity <? kTaskMaxArgsSize)
                     end) (imap pair args).

(** Constructs the arguments from the number [i] on in the buffer at [store]. *)
(** source/task/task.h:148-155 [TaskTuple::TaskTuple] *)
Fixpoint TaskTupleNew (store : Z) (i : nat) (args : list Arg) (m : Memory) : option (list Stored * Memory) :=
  match args with
  | [] => Some ([], m)
  | AWord w :: args => option_map (fun r => (SWord w :: fst r, snd r)) (TaskTupleNew store (S i) args m)
  | AStr s :: args =>
      match make (store + buf_at i) ASystem s m with
      | Some (x, m) => option_map (fun r => (SStr x :: fst r, snd r)) (TaskTupleNew store (S i) args m)
      | None => None
      end
  end.

(** What the task function is called with: a [Str] is converted to a
    [CStrSpan], which the function reads. *)
(** source/task/task.h:156-162 [TaskTuple::TaskTuple] *)
Fixpoint Invoke (stored : list Stored) (m : Memory) : option (list Arg) :=
  match stored with
  | [] => Some []
  | SWord w :: stored => option_map (cons (AWord w)) (Invoke stored m)
  | SStr x :: stored =>
      match StrCStrSpan x m with
      | Some sp =>
          match read_text (Span.ptr_ sp) (Z.to_nat (Span.size_ sp)) m, Invoke stored m with
          | Some s, Some args => Some (AStr s :: args)
          | _, _ => None
          end
      | None => None
      end
  end.

(** * Entry points *)

(** The vector of entry points: its memory and the tuples in it. *)
Record EntryPoints := MkEntries { base : Z; capacity : nat; tuples : list (list Stored) }.

Definition no_entry_points : EntryPoints := MkEntries 0 0 [].

Definition args_store (b : Z) (k : nat) : Z := b + tuple_size * Z.of_nat k + args_offset.

(** The defaulted copies and moves of [TaskTuple]: its bytes. *)
(** source/task/task.h:131-134 [TaskTuple] *)
Fixpoint copy_bytes (from to : Z) (n : nat) (m : Memory) : Memory :=
  match n with
  | O => m
  | S n => match m !! from with
           | Some c => copy_bytes (from + 1) (to + 1) n (<[to := c]> m)
           | None => copy_bytes (from + 1) (to + 1) n m
           end
  end.

(** The capacity after the next element. *)
Definition next_capacity (size cap : nat) : nat := if (size =? cap)%nat then Nat.max 1 (2 * cap) else cap.

Definition block_size (cap : nat) : Z := tuple_size * Z.of_nat cap.

(** [emplace_back]: the element is constructed in the new memory, if any, the
    others are copied there, and the old memory is freed. *)
(** source/task/task_manager.h:70-75 [TaskManager::AddEntryPoint] *)
Definition AddEntryPoint (is_running : bool) (args : list Arg) (v : EntryPoints) (m : Memory) : option (EntryPoints * Memory) :=
  let n := length (tuples v) in
  if is_running then None
  else if (n =? capacity v)%nat then
    let cap := next_capacity n (capacity v) in
    match alloc ASystem (block_size cap) m with
    | Some (b, m) =>
        match TaskTupleNew (args_store b n) 0 args m with
        | Some (t, m) =>
            let m := copy_bytes (base v) b (Z.to_nat (tuple_size * Z.of_nat n)) m in
            option_map (pair (MkEntries b cap (tuples v ++ [t]))) (dealloc ASystem (base v) (block_size (capacity v)) m)
        | None => None
        end
    | None => None
    end
  else
    option_map (fun r => (MkEntries (base v) (capacity v) (tuples v ++ [fst r]), snd r))
      (TaskTupleNew (args_store (base v) n) 0 args m).

Fixpoint AddEntryPoints (argss : list (list Arg)) (v : EntryPoints) (m : Memory) : option (EntryPoints * Memory) :=
  match argss with
  | [] => Some (v, m)
  | args :: argss => match AddEntryPoint false args v m with Some (v, m) => AddEntryPoints argss v m | None => None end
  end.

(** The capacity after a number of entry points. *)
Fixpoint capacity_after (n : nat) : nat :=
  match n with O => O | S n => next_capacity n (capacity_after n) end.
End Args.

(** The buffers of the strings lie beside each other. *)
Class ArgLayoutLaws `{StringImpl} `{ArgLayout} : Prop := {
  buf_apart : forall i j, i <> j -> buf_at i + local_capacity < buf_at j \/ buf_at j + local_capacity < buf_at i
}.

Section Entries.
  Context `{PlacementLaws} `{StringImplLaws} `{!ArgLayout} `{!ArgLayoutLaws}.

(** ** Constructing arguments *)

(** The text is in the object if it fits, else in bytes that were free in
    [m0]. *)
Definition placed (self : Z) (x : BasicString) (s : bytes) (m0 : Memory) : Prop :=
  if zlen s <=? local_capacity then data_ x = self else forall q, data_ x <= q <= data_ x + capacity_ x -> m0 !! q = None.

Definition arg_made (store : Z) (i : nat) (m0 m : Memory) (a : Arg) (t : Stored) : Prop :=
  match a, t with
  | AWord w, SWord w' => w = w'
  | AStr s, SStr x => str_ok (store + buf_at i) x s m /\ placed (store + buf_at i) x s m0
  | _, _ => False
  end.

(** The bytes of the strings' own buffers. *)
Definition arg_bufs (store : Z) (i : nat) (args : list Arg) (q : Z) : Prop :=
  exists j s, args !! j = Some (AStr s) /\ own_buffer (store + buf_at (i + j)) q.

Definition bufs_in (store : Z) (i : nat) (args : list Arg) (m : Memory) : Prop :=
  forall j s, args !! j = Some (AStr s) -> room (store + buf_at (i + j)) m.

Lemma make_in_room self s m : room self m ->
  exists x m', make self ASystem s m = Some (x, m') /\ str_ok self x s m' /\ placed self x s m /\
    stays_in self (own_buffer self) x m m' /\ forall q, is_Some (m !! q) -> is_Some (m' !! q).
Proof.
  intros Hr. destruct (make_spec self ASystem s m Hr) as (x & m' & E & _ & X & F); [by right|].
  exists x, m'. split; [done|]. split; [done|]. split; [|split; [done|]].
  - unfold placed. destruct (Z.leb_spec (zlen s) local_capacity) as [Hle|Hgt].
    + unfold make in E. rewrite (proj2 (Z.leb_le _ _) Hle) in E. by injection E as <- <-.
    + intros q Hq. pose proof (so_capacity _ _ _ _ X) as Hc. destruct (so_place _ _ _ _ X) as [_ [[_ ?]|[_ Hd]]]; [lia|].
      destruct (m !! q) eqn:Eq; [|done]. destruct (F q) as [_ Hn]; [by rewrite Eq|unfold own_buffer; lia|]. destruct Hn. right. lia.
  - intros q Hq. destruct (decide (self <= q <= self + local_capacity)) as [Hin|Hout].
    + apply (so_owned _ _ _ _ X). by left.
    + by destruct (F q Hq Hout) as [-> _].
Qed.

Lemma bufs_in_mono store i args m m' : (forall q, is_Some (m !! q) -> is_Some (m' !! q)) -> bufs_in store i args m -> bufs_in store i args m'.
Proof. intros Hm Hb j s Hj. destruct (Hb j s Hj) as [Hp Hr]. split; [done|]. intros q Hq. by apply Hm, Hr. Qed.

(** What a made string owns outside its own buffer was free. *)
Lemma placed_outside self x s m0 m q : str_ok self x s m -> placed self x s m0 -> mine self x q -> is_Some (m0 !! q) -> own_buffer self q.
Proof.
  intros X P [Hq|Hq] Hs; [done|]. unfold placed in P. destruct (Z.leb_spec (zlen s) local_capacity) as [Hle|Hgt].
  - pose proof (so_capacity _ _ _ _ X). pose proof (zlen_nonneg s). destruct (so_place _ _ _ _ X) as [_ [[_ Hc]|[_ Hd]]]; [|lia].
    unfold own_buffer. lia.
  - rewrite P in Hs by done. by destruct Hs.
Qed.

Lemma TaskTupleNew_spec store i args m : bufs_in store i args m ->
  exists t m', TaskTupleNew store i args m = Some (t, m') /\ length t = length args /\
    (forall j a, args !! j = Some a -> exists u, t !! j = Some u /\ arg_made store (i + j) m m' a u) /\
    (forall q, is_Some (m !! q) -> ~ arg_bufs store i args q -> m' !! q = m !! q) /\
    (forall q, is_Some (m !! q) -> is_Some (m' !! q)).
Proof.
  revert i m. induction args as [|a args IH]; intros i m Hb; cbn [TaskTupleNew]; [by eexists _, _; split_and!|].
  assert (Hb' : forall m1, (forall q, is_Some (m !! q) -> is_Some (m1 !! q)) -> bufs_in store (S i) args m1).
  { intros m1 Hm. apply (bufs_in_mono store (S i) args m m1 Hm). intros j s Hj. specialize (Hb (S j) s Hj). by rewrite Nat.add_succ_r in Hb. }
  destruct a as [w|s].
  - destruct (IH (S i) m (Hb' m ltac:(done))) as (t & m' & -> & L & A & F & M). eexists _, _. split; [done|]. split_and!; [cbn; lia| | |done].
    + intros [|j] a; cbn; [intros [= <-]; by eexists|]. intros Hj. rewrite Nat.add_succ_r. by apply A.
    + intros q Hq Hn. apply F; [done|]. intros (j & s & Hj & Ho). apply Hn. exists (S j), s. by rewrite Nat.add_succ_r.
  - destruct (Hb O s eq_refl) as [Hp Hr]. rewrite Nat.add_0_r in Hp, Hr.
    destruct (make_in_room (store + buf_at i) s m) as (x & m1 & -> & X & P & F1 & M1); [by split|].
    destruct (IH (S i) m1 (Hb' m1 M1)) as (t & m' & -> & L & A & F & M). eexists _, _. split; [done|].
    split_and!; [cbn; lia| | |by intros q Hq%M1%M].
    + intros [|j] a; cbn; [intros [= <-]|intros Hj].
      * rewrite Nat.add_0_r. eexists. split; [done|]. split; [|done]. apply (str_ok_frame _ _ _ m1); [done|]. intros q Hq.
        apply F; [by apply (so_owned _ _ _ _ X)|]. intros (j & s' & Hj & Ho).
        destruct (Hb (S j) s' Hj) as [_ Hroom]. rewrite Nat.add_succ_r in Hroom.
        pose proof (placed_outside _ _ _ _ _ q X P Hq (Hroom q Ho)) as Hown. unfold own_buffer in *.
        destruct (buf_apart i (S i + j)%nat); [lia|cbn in *; lia..].
      * rewrite Nat.add_succ_r. destruct (A j a Hj) as (u & Hu & Hm). exists u. split; [done|]. destruct a, u; try done.
        destruct Hm as [Hx Hpl]. split; [done|]. revert Hpl. unfold placed. destruct (_ <=? _); [done|]. intros Hpl q Hq. specialize (Hpl q Hq).
        destruct (m !! q) eqn:E; [|done]. destruct (M1 q) as [c Hc]; [by rewrite E|congruence].
    + intros q Hq Hn. rewrite F; [|by apply M1|intros (j & s' & Hj & Ho); apply Hn; exists (S j), s'; by rewrite Nat.add_succ_r].
      apply F1; [done|]. intros Ho. apply Hn. exists O, s. by rewrite Nat.add_0_r.
Qed.

(** ** The vector *)

Definition in_block (v : EntryPoints) (q : Z) : Prop := base v <= q < base v + block_size (capacity v).

(** A text outlives the copies of the tuple: long ones do, and all of them as
    long as the tuple is where it was constructed. *)
Definition survives (alive : bool) (s : bytes) : Prop := alive = true \/ local_capacity < zlen s.

Definition stored_ok (v : EntryPoints) (m : Memory) (alive : bool) (k j : nat) (a : Arg) (u : Stored) : Prop :=
  match a, u with
  | AWord w, SWord w' => w = w'
  | AStr s, SStr x =>
      let self := args_store (base v) k + buf_at j in
      survives alive s -> str_ok self x s m /\
        (if zlen s <=? local_capacity then data_ x = self else forall q, data_ x <= q <= data_ x + capacity_ x -> ~ in_block v q)
  | _, _ => False
  end.

Definition entry_ok (v : EntryPoints) (m : Memory) (alive : bool) (k : nat) (args : list Arg) (st : list Stored) : Prop :=
  length st = length args /\ forall j a, args !! j = Some a -> exists u, st !! j = Some u /\ stored_ok v m alive k j a u.

(** The entry number [k] is where it was constructed. *)
Definition in_place (k : nat) (v : EntryPoints) : bool := (capacity_after (S k) =? capacity v)%nat.

Record entries_ok (v : EntryPoints) (m : Memory) (argss : list (list Arg)) : Prop := {
  eo_length : length (tuples v) = length argss;
  eo_capacity : capacity v = capacity_after (length argss);
  eo_block : (forall q, in_block v q -> is_Some (m !! q)) /\ ((0 < capacity v)%nat -> 0 < base v);
  eo_fit : forall k args, argss !! k = Some args -> args_fit args = true;
  eo_entries : forall k args, argss !! k = Some args -> exists st, tuples v !! k = Some st /\ entry_ok v m (in_place k v) k args st
}.

Lemma capacity_enough n : (n <= capacity_after n)%nat.
Proof.
  induction n as [|n IH]; [done|]. cbn [capacity_after]. unfold next_capacity. destruct (Nat.eqb_spec n (capacity_after n)); lia.
Qed.

Lemma capacity_after_le k n : (k <= n)%nat -> (capacity_after k <= capacity_after n)%nat.
Proof.
  induction 1 as [|n Hn IH]; [done|]. cbn [capacity_after]. unfold next_capacity. destruct (Nat.eqb_spec n (capacity_after n)); lia.
Qed.

Lemma fit_bounds args j s : args_fit args = true -> args !! j = Some (AStr s) -> 0 <= buf_at j /\ buf_at j + local_capacity < kTaskMaxArgsSize.
Proof.
  unfold args_fit. rewrite List.forallb_forall. intros Hf Hj.
  assert (Hin : In (j, AStr s) (imap pair args)) by (apply list_elem_of_In, list_elem_of_lookup; exists j; by rewrite list_lookup_imap, Hj).
  specialize (Hf _ Hin). cbn in Hf. apply andb_true_iff in Hf as [?%Z.leb_le ?%Z.ltb_lt]. by split.
Qed.

(** The own buffers of the strings of an entry are in its tuple. *)
Lemma arg_bufs_in b k args q : args_fit args = true -> arg_bufs (args_store b k) 0 args q ->
  b + tuple_size * Z.of_nat k <= q < b + tuple_size * Z.of_nat (S k).
Proof.
  intros Hf (j & s & Hj & Ho). destruct (fit_bounds args j s Hf Hj). unfold own_buffer, args_store, tuple_size, args_offset, kTaskMaxArgsSize in *.
  cbn in Ho. pose proof local_capacity_nonneg. lia.
Qed.

Lemma block_bufs_in b k cap args m : args_fit args = true -> (k < cap)%nat -> 0 < b ->
  (forall q, b <= q < b + block_size cap -> is_Some (m !! q)) -> bufs_in (args_store b k) 0 args m.
Proof.
  intros Hf Hk Hb Hm j s Hj. destruct (fit_bounds args j s Hf Hj). pose proof local_capacity_nonneg.
  unfold args_store, block_size, tuple_size, args_offset, kTaskMaxArgsSize in *. split; [cbn; lia|]. intros q Hq. apply Hm. cbn in Hq. lia.
Qed.

(** A new entry, when its strings are still there in the memory [m']. *)
Lemma made_entry_ok v m0 m' m1 k args t alive :
  (forall q, in_block v q -> is_Some (m0 !! q)) -> length t = length args ->
  (forall j a, args !! j = Some a -> exists u, t !! j = Some u /\ arg_made (args_store (base v) k) j m0 m1 a u) ->
  (forall j s x q, args !! j = Some (AStr s) -> t !! j = Some (SStr x) -> mine (args_store (base v) k + buf_at j) x q -> m' !! q = m1 !! q) ->
  entry_ok v m' alive k args t.
Proof.
  intros Hb Hl Ha Hm. split; [done|]. intros j a Hj. destruct (Ha j a Hj) as (u & Hu & Hmade). exists u. split; [done|].
  destruct a as [w|s], u as [w'|x]; try done. cbn in Hmade |- *. destruct Hmade as [X P]. intros _. split.
  - apply (str_ok_frame _ _ _ m1); [done|]. intros q. by apply (Hm j s).
  - unfold placed in P. destruct (_ <=? _); [done|]. intros q Hq Hin. destruct (Hb q Hin) as [c Hc]. by rewrite P in Hc.
Qed.

Lemma stored_bytes v m self x s q : str_ok self x s m ->
  (if zlen s <=? local_capacity then data_ x = self else forall q, data_ x <= q <= data_ x + capacity_ x -> ~ in_block v q) ->
  mine self x q -> own_buffer self q \/ ~ in_block v q.
Proof.
  intros X Hd [Hq|Hq]; [by left|]. destruct (Z.leb_spec (zlen s) local_capacity) as [Hle|Hgt]; [left|right; by apply Hd].
  pose proof (so_capacity _ _ _ _ X). pose proof (zlen_nonneg s). destruct (so_place _ _ _ _ X) as [_ [[_ Hc]|[_ Hp]]]; [|lia].
  unfold own_buffer. lia.
Qed.

(** One more tuple in the memory the vector has. *)
Lemma add_in_place v m argss args : entries_ok v m argss -> args_fit args = true -> (length argss < capacity v)%nat ->
  exists v' m', AddEntryPoint false args v m = Some (v', m') /\ entries_ok v' m' (argss ++ [args]).
Proof.
  intros [L C [B B0] F E] Hf Hlt. unfold AddEntryPoint. rewrite L, (proj2 (Nat.eqb_neq _ _)) by lia.
  destruct (TaskTupleNew_spec (args_store (base v) (length argss)) 0 args m) as (t & m' & -> & Lt & A & Fr & M);
    [by apply (block_bufs_in _ _ (capacity v)); [|lia|apply B0; lia|]|].
  eexists _, _. split; [done|]. cbn [fst snd].
  assert (Hold : forall k a x s jj q, argss !! k = Some a -> a !! jj = Some (AStr s) -> str_ok (args_store (base v) k + buf_at jj) x s m ->
    own_buffer (args_store (base v) k + buf_at jj) q \/ ~ in_block v q -> is_Some (m !! q) -> m' !! q = m !! q).
  { intros k a x s jj q Hk Hjj _ Hq Hs. apply Fr; [done|]. intros Hb. apply arg_bufs_in in Hb; [|done].
    assert (Hkn : (k < length argss)%nat) by by apply lookup_lt_Some in Hk. destruct Hq as [Hq|Hq].
    - assert (Hb' : arg_bufs (args_store (base v) k) 0 a q) by by exists jj, s.
      apply arg_bufs_in in Hb'; [|by apply (F k)]. unfold tuple_size in *. lia.
    - apply Hq. unfold in_block, block_size, tuple_size in *. lia. }
  split; cbn [base capacity tuples]; rewrite ?length_app; cbn [length].
  - lia.
  - rewrite Nat.add_1_r. cbn [capacity_after]. unfold next_capacity. rewrite <- C, (proj2 (Nat.eqb_neq _ _)) by lia. done.
  - split; [|done]. intros q Hq. by apply M, B.
  - intros k a [Hk|[_ [_ ->]%list_lookup_singleton_Some]]%lookup_app_Some; [by apply (F k)|done].
  - intros k a [Hk|[Hge [Hk ->]%list_lookup_singleton_Some]]%lookup_app_Some.
    + destruct (E k a Hk) as (st & Hst & Hls & He). exists st. split; [by apply lookup_app_l_Some|]. split; [done|].
      intros jj b Hjj. destruct (He jj b Hjj) as (u & Hu & Hok). exists u. split; [done|]. destruct b as [w|s], u as [w'|x]; try done.
      cbn in Hok |- *. intros Hsv. destruct (Hok Hsv) as [X Hd]. split; [|done]. apply (str_ok_frame _ _ _ m); [done|].
      intros q Hq. apply (Hold k a x s jj q); try done; [by eapply stored_bytes|by apply (so_owned _ _ _ _ X)].
    + assert (k = length argss) as -> by lia. exists t. split; [by rewrite lookup_app_r, L, Nat.sub_diag by lia|].
      eapply (made_entry_ok _ m m' m' _ _ _ _ B Lt); [|done]. exact A.
Qed.

Lemma copy_bytes_spec from to n m :
  (forall q, q < to \/ to + Z.of_nat n <= q -> copy_bytes from to n m !! q = m !! q) /\
  (forall q, is_Some (m !! q) -> is_Some (copy_bytes from to n m !! q)).
Proof.
  revert from to m. induction n as [|n IH]; intros from to m; cbn [copy_bytes]; [done|].
  destruct (m !! from) as [c|]; [|split; intros q Hq; [apply IH; lia|by apply IH]].
  destruct (IH (from + 1) (to + 1) (<[to := c]> m)) as [I1 I2]. split; intros q Hq.
  - rewrite I1 by lia. apply lookup_insert_ne. lia.
  - apply I2. destruct (decide (to = q)) as [->|Hne]; [rewrite lookup_insert_eq; by eexists|by rewrite lookup_insert_ne].
Qed.

Lemma erase_text_none p n (m : Memory) q : p <= q < p + Z.of_nat n -> erase_text p n m !! q = None.
Proof.
  revert p. induction n as [|n IH]; intros p Hq; [lia|]. cbn [erase_text]. destruct (decide (p = q)) as [->|Hne]; [apply lookup_delete_eq|].
  rewrite lookup_delete_ne by done. apply IH. lia.
Qed.

(** One more tuple than the vector has memory for: the tuples get new memory,
    and what the old memory held cannot be read any more. *)
Lemma add_grows v m argss args : entries_ok v m argss -> args_fit args = true -> length argss = capacity v ->
  exists b t m', let v' := MkEntries b (next_capacity (length argss) (capacity v)) (tuples v ++ [t]) in
    AddEntryPoint false args v m = Some (v', m') /\ 0 < b /\
    (forall q, in_block v' q -> m !! q = None /\ is_Some (m' !! q)) /\
    (forall q, is_Some (m !! q) -> ~ in_block v q -> m' !! q = m !! q) /\
    (forall q, in_block v q -> m' !! q = None) /\ entry_ok v' m' true (length argss) args t.
Proof.
  intros [L C [B B0] F E] Hf Hn. unfold AddEntryPoint. rewrite L, (proj2 (Nat.eqb_eq _ _) Hn).
  set (n := length argss) in *. set (cap := next_capacity n (capacity v)).
  assert (Hcap : (n < cap)%nat) by (unfold cap, next_capacity; rewrite (proj2 (Nat.eqb_eq _ _) Hn); lia).
  destruct (alloc_spec ASystem (block_size cap) m) as (b & m1 & -> & Hb & A1 & A2); [done|unfold block_size, tuple_size; lia|].
  destruct (TaskTupleNew_spec (args_store b n) 0 args m1) as (t & m2 & -> & Lt & A & Fr & M);
    [apply (block_bufs_in _ _ cap); try done; intros q Hq; by apply A1|].
  destruct (copy_bytes_spec (base v) b (Z.to_nat (tuple_size * Z.of_nat n)) m2) as [K1 K2]. set (m3 := copy_bytes _ _ _ m2) in *.
  assert (Hdel : forall q, ~ in_block v q -> erase_text (base v) (Z.to_nat (block_size (capacity v))) m3 !! q = m3 !! q).
  { intros q Hq. apply erase_text_other. unfold in_block in Hq. assert (0 <= block_size (capacity v)) by (unfold block_size, tuple_size; lia). lia. }
  assert (Hapart : forall q, b <= q < b + block_size cap -> ~ in_block v q).
  { intros q Hq Hin. destruct (B q Hin) as [c Hc]. destruct (A1 q Hq) as [Hno _]. congruence. }
  assert (Hkept : forall q, is_Some (m !! q) -> m1 !! q = m !! q /\ ~ b <= q < b + block_size cap).
  { intros q [c Hq]. assert (Hout : ~ b <= q < b + block_size cap) by (intros Hin; destruct (A1 q Hin); congruence). split; [|done].
    apply A2. lia. }
  exists b, t, (erase_text (base v) (Z.to_nat (block_size (capacity v))) m3). split; [done|]. split; [done|]. split_and!.
  - intros q Hq. split; [by apply A1|]. rewrite Hdel by by apply Hapart. by apply K2, M, A1.
  - intros q Hq Hout. destruct (Hkept q Hq) as [Hm1 Hnb]. rewrite Hdel by done.
    assert (Hq1 : is_Some (m1 !! q)) by by rewrite Hm1. rewrite K1, Fr, Hm1; [done|done| |unfold block_size, tuple_size in *; lia].
    intros Hin%arg_bufs_in; [|done]. unfold block_size, tuple_size in *. lia.
  - intros q Hq. unfold in_block in Hq. apply erase_text_none. lia.
  - eapply (made_entry_ok _ m1 _ m2); [intros q Hq; by apply A1|done|exact A|]. intros j s x q Hj Hx Hq.
    destruct (A j _ Hj) as (u & Hu & Hmade). rewrite Hx in Hu. injection Hu as <-. destruct Hmade as [X P].
    destruct (m1 !! q) as [c|] eqn:Eq.
    + assert (Hown := placed_outside _ _ _ _ _ q X P Hq ltac:(by rewrite Eq)).
      assert (Hin : arg_bufs (args_store b n) 0 args q) by by exists j, s. apply arg_bufs_in in Hin; [|done].
      rewrite Hdel, K1; [done|unfold tuple_size in *; lia|]. apply Hapart. unfold block_size, tuple_size in *. lia.
    + assert (Hnb : ~ b <= q < b + block_size cap) by (intros Hin; destruct (A1 q Hin) as [_ [c Hc]]; congruence).
      rewrite Hdel, K1; [done|unfold block_size, tuple_size in *; lia|]. intros Hin. destruct (B q Hin) as [c Hc].
      destruct (Hkept q ltac:(by rewrite Hc)). congruence.
Qed.

(** A text in a block of its own is still the string's when the object was
    copied somewhere else. *)
Lemma moved_string self self' x s m m' : str_ok self x s m -> local_capacity < zlen s ->
  (forall q, data_ x <= q <= data_ x + capacity_ x -> m' !! q = m !! q) ->
  (forall q, own_buffer self' q -> m !! q = None /\ is_Some (m' !! q)) -> str_ok self' x s m'.
Proof.
  intros [L T C O [Hp Hpl]] Hlong Hk Hnew. pose proof (zlen_nonneg s). pose proof local_capacity_nonneg.
  assert (Hin : forall q, data_ x <= q <= data_ x + capacity_ x -> is_Some (m !! q)) by (intros q Hq; apply O; by right).
  split; [done| |done| |].
  - apply (text_at_ext m); [|done]. intros q Hq. symmetry. apply Hk. rewrite zlen_app in Hq. change (zlen [c_nul]) with 1 in Hq. lia.
  - intros q [Hq|Hq]; [by apply Hnew|]. rewrite Hk by done. by apply Hin.
  - split; [done|]. right. destruct Hpl as [[_ Hc]|[Ha _]]; [lia|]. split; [done|].
    destruct (beside_block m self' local_capacity (data_ x) (capacity_ x)) as [?|?]; [done|lia| |done|by right|by left].
    intros q [c Hq]. destruct (Z.lt_ge_cases q self'); [by left|]. right. destruct (Z.lt_ge_cases (self' + local_capacity) q); [done|].
    destruct (Hnew q) as [Hno _]; [unfold own_buffer; lia|congruence].
Qed.

Lemma add_entry_point v m argss args : entries_ok v m argss -> args_fit args = true ->
  exists v' m', AddEntryPoint false args v m = Some (v', m') /\ entries_ok v' m' (argss ++ [args]).
Proof.
  intros Hok Hf. pose proof (capacity_enough (length argss)) as Hce. pose proof (eo_capacity _ _ _ Hok) as C.
  destruct (decide (length argss = capacity v)) as [Hn|Hn]; [|apply add_in_place; [done|done|lia]].
  destruct (add_grows v m argss args Hok Hf Hn) as (b & t & m' & E & Hb & N & K & _ & Hnew).
  eexists _, m'. split; [exact E|]. clear E. destruct Hok as [L _ [B B0] F E]. set (v' := MkEntries _ _ _) in *.
  assert (Hcap : capacity v' = capacity_after (length (argss ++ [args]))).
  { rewrite length_app, Nat.add_1_r. cbn [capacity_after length]. by rewrite <- C. }
  assert (Hbig : (length argss < capacity v')%nat) by (rewrite Hcap, length_app; pose proof (capacity_enough (length argss + 1)%nat); cbn; lia).
  split; [cbn; rewrite !length_app; cbn; lia|done| | |].
  - split; [|done]. intros q Hq. by apply N.
  - intros k a [Hk|[_ [_ ->]%list_lookup_singleton_Some]]%lookup_app_Some; [by apply (F k)|done].
  - intros k a [Hk|[Hge [Hk ->]%list_lookup_singleton_Some]]%lookup_app_Some.
    + destruct (E k a Hk) as (st & Hst & Hls & He). exists st. split; [by apply lookup_app_l_Some|]. split; [done|].
      assert (Hkn : (k < length argss)%nat) by by apply lookup_lt_Some in Hk.
      assert (Hip : in_place k v' = false).
      { apply Nat.eqb_neq. pose proof (capacity_after_le (S k) (length argss) ltac:(lia)). lia. }
      intros j c Hj. destruct (He j c Hj) as (u & Hu & Hst'). exists u. split; [done|]. destruct c as [w|s], u as [w'|x]; try done.
      rewrite Hip. unfold stored_ok in *. intros [?|Hlong]; [done|]. destruct (Hst' (or_intror Hlong)) as [X Hd].
      destruct (Z.leb_spec (zlen s) local_capacity); [lia|].
      assert (Hown : forall q, own_buffer (args_store b k + buf_at j) q -> in_block v' q).
      { intros q Hq. assert (Hin : arg_bufs (args_store b k) 0 a q) by by exists j, s. apply arg_bufs_in in Hin; [|by apply (F k)].
        unfold in_block, block_size, tuple_size in *. cbn [base v']. lia. }
      assert (Hdata : forall q, data_ x <= q <= data_ x + capacity_ x -> is_Some (m !! q)) by (intros q Hq; apply (so_owned _ _ _ _ X); by right).
      split; [eapply moved_string; [exact X|done| |]|].
      * intros q Hq. apply K; [by apply Hdata|by apply Hd].
      * intros q Hq. by apply N, Hown.
      * intros q Hq Hin. destruct (N q Hin) as [Hno _]. destruct (Hdata q Hq). congruence.
    + assert (k = length argss) as -> by lia. exists t. split; [cbn; by rewrite lookup_app_r, L, Nat.sub_diag by lia|].
      assert (Hip : in_place (length argss) v' = true); [|by rewrite Hip].
      apply Nat.eqb_eq. rewrite Hcap, length_app, Nat.add_1_r. done.
Qed.

Lemma no_entry_points_ok m : entries_ok no_entry_points m [].
Proof. split; [done|done| |by intros k a ?|by intros k a ?]. split; [|cbn; lia]. intros q Hq. unfold in_block, block_size, tuple_size in Hq. cbn in Hq. lia. Qed.

Lemma add_entry_points new argss v m : entries_ok v m argss -> Forall (fun args => args_fit args = true) new ->
  exists v' m', AddEntryPoints new v m = Some (v', m') /\ entries_ok v' m' (argss ++ new).
Proof.
  revert argss v m. induction new as [|args new IH]; intros argss v m Hok Hf; cbn [AddEntryPoints].
  - exists v, m. by rewrite app_nil_r.
  - inversion Hf as [|? ? Ha Hnew]; subst. destruct (add_entry_point v m argss args Hok Ha) as (v1 & m1 & -> & Hok1).
    destruct (IH _ v1 m1 Hok1 Hnew) as (v' & m' & E & Hok'). exists v', m'. by rewrite <- app_assoc in Hok'.
Qed.

(** ** Calling the task function *)

(** What the function needs of a string. *)
Definition readable (x : BasicString) (s : bytes) (m : Memory) : Prop :=
  length_ x = zlen s /\ 0 < data_ x /\ Span.text_at (mem m) (data_ x) (s ++ [c_nul]).

Lemma Invoke_spec st args m : length st = length args ->
  (forall j a, args !! j = Some a -> exists u, st !! j = Some u /\
     match a, u with AWord w, SWord w' => w = w' | AStr s, SStr x => readable x s m | _, _ => False end) ->
  Invoke st m = Some args.
Proof.
  revert args. induction st as [|u st IH]; intros [|a args] Hl Ha; try done.
  assert (Hrest : Invoke st m = Some args) by (apply IH; [by injection Hl|intros j b Hj; by apply (Ha (S j) b)]).
  destruct (Ha O a eq_refl) as (u' & [= <-] & Hu). destruct a as [w|s], u as [w'|x]; try done; cbn [Invoke].
  - subst. by rewrite Hrest.
  - destruct Hu as (L & Hp & T). apply Span.text_at_app in T as [T [Hz _]]. unfold StrCStrSpan, Span.CStrSpanOfSize.
    rewrite (proj2 (Z.eqb_neq _ _)), L by lia. unfold zlen at 1. rewrite Hz. cbn [Ascii.eqb c_nul Bool.eqb].
    by rewrite (read_span m (Span.SpanOfSize (data_ x) (zlen s)) s), Hrest by by split.
Qed.

Lemma Invoke_fails st m j x : st !! j = Some (SStr x) -> m !! (data_ x + length_ x) = None -> Invoke st m = None.
Proof.
  revert j. induction st as [|u st IH]; intros [|j] Hj Hx; try done; cbn in Hj.
  - injection Hj as ->. cbn [Invoke]. unfold StrCStrSpan, Span.CStrSpanOfSize. destruct (_ =? 0); [done|]. unfold mem. by rewrite Hx.
  - destruct u; cbn [Invoke]; rewrite (IH j Hj Hx); [done|]. destruct (StrCStrSpan _ _); [|done]. by destruct (read_text _ _ _).
Qed.

(** When the vector grows, a short text of an entry that was still where it
    was constructed cannot be read any more. *)
Lemma growth_loses_short_texts v m argss args k a j s v' m' :
  entries_ok v m argss -> args_fit args = true -> length argss = capacity v -> AddEntryPoint false args v m = Some (v', m') ->
  argss !! k = Some a -> in_place k v = true -> a !! j = Some (AStr s) -> zlen s <= local_capacity ->
  exists st, tuples v' !! k = Some st /\ Invoke st m' = None.
Proof.
  intros Hok Hf Hn E Hk Hip Hj Hs. destruct (add_grows v m argss args Hok Hf Hn) as (b & t & m1 & E1 & _ & _ & _ & D & _).
  rewrite E1 in E. injection E as <- <-. destruct (eo_entries _ _ _ Hok k a Hk) as (st & Hst & Hls & He).
  exists st. split; [by apply lookup_app_l_Some|]. destruct (He j _ Hj) as (u & Hu & Hsu). destruct u as [w|x]; [done|]. unfold stored_ok in Hsu.
  destruct (Hsu (or_introl Hip)) as [X Hd]. rewrite (proj2 (Z.leb_le _ _) Hs) in Hd. apply (Invoke_fails st m1 j x Hu), D.
  rewrite (so_length _ _ _ _ X), Hd. pose proof (zlen_nonneg s).
  assert (Hin : arg_bufs (args_store (base v) k) 0 a (args_store (base v) k + buf_at j + zlen s)) by (exists j, s; split; [done|unfold own_buffer; cbn; lia]).
  apply arg_bufs_in in Hin; [|by apply (eo_fit _ _ _ Hok k)]. apply lookup_lt_Some in Hk. unfold in_block, block_size, tuple_size in *. lia.
Qed.
End Entries.

(** C35. Whatever entry points are added before the start, adding them
    succeeds, and the function of an entry point is called, at any later time
    and from any copy of its tuple, with exactly the arguments it was added
    with -- if all its strings are longer than what fits into a string object,
    or if the vector did not grow after it was added.  All that is asked of the
    time in between is that the characters the strings refer to are not
    overwritten.  (Short strings of other entry points are lost:
    [growth_loses_short_texts].) *)
Theorem entry_points_receive_arguments `{PlacementLaws} `{StringImplLaws} `{!ArgLayout} `{!ArgLayoutLaws} argss m0 :
  forallb args_fit argss = true ->
  exists v m, AddEntryPoints argss no_entry_points m0 = Some (v, m) /\
    forall k args, argss !! k = Some args ->
      Forall (fun a => match a with AStr s => local_capacity < zlen s | AWord _ => True end) args \/
      capacity_after (S k) = capacity_after (length argss) ->
      exists st, tuples v !! k = Some st /\
        forall m', (forall x q, SStr x ∈ st -> data_ x <= q <= data_ x + length_ x -> m' !! q = m !! q) -> Invoke st m' = Some args.
Proof.
  intros Hf. destruct (add_entry_points argss [] no_entry_points m0 (no_entry_points_ok m0)) as (v & m & E & Hok).
  { apply List.Forall_forall. by apply List.forallb_forall. }
  exists v, m. split; [done|]. intros k args Hk Hlive. destruct (eo_entries _ _ _ Hok k args Hk) as (st & Hst & Hls & He).
  exists st. split; [done|]. intros m' Hm. apply Invoke_spec; [done|]. intros j a Hj. destruct (He j a Hj) as (u & Hu & Hsu).
  exists u. split; [done|]. destruct a as [w|s], u as [w'|x]; try done. unfold stored_ok in Hsu. destruct Hsu as [X _].
  - destruct Hlive as [Hlong|Hcap]; [right; by apply (Forall_lookup_1 _ _ _ _ Hlong Hj)|left].
    apply Nat.eqb_eq. by rewrite (eo_capacity _ _ _ Hok).
  - split; [by apply (so_length _ _ _ _ X)|]. split; [by destruct (so_place _ _ _ _ X)|].
    apply (text_at_ext m); [|by apply (so_text _ _ _ _ X)]. intros q Hq. symmetry. apply (Hm x).
    + by apply list_elem_of_lookup_2 in Hu.
    + rewrite (so_length _ _ _ _ X). rewrite zlen_app in Hq. change (zlen [c_nul]) with 1 in Hq. lia.
Qed.

(** ** The entry points of the example configuration *)

#[export] Instance DemoLayout : ArgLayout := {| buf_at := fun i => 16 * Z.of_nat i |}.
#[export] Instance DemoLayout_laws : ArgLayoutLaws.
Proof. split. intros i j Hij. cbn. lia. Qed.

(** The listener of the configuration, with its handler and its parameters;
    the files to execute. *)
Definition example_listener : list Arg := [AStr (lit "0.0.0.0"); AWord 9920; AWord 1; AWord 2].
Definition example_files : list Arg := [AWord 3].

Definition call_entry_point (k : nat) (argss : list (list Arg)) : option (list Arg) :=
  match AddEntryPoints argss no_entry_points empty with
  | Some (v, m) => match tuples v !! k with Some st => Invoke st m | None => None end
  | None => None
  end.

(** Alone the listener gets its address; with files to execute behind it, as
    in build/example.conf, its address is in freed memory. *)
Example example_configuration_loses_address :
  call_entry_point 0 [example_listener] = Some example_listener /\ call_entry_point 0 [example_listener; example_files] = None /\
  call_entry_point 1 [example_listener; example_files] = Some example_files.
Proof. vm_compute. auto. Qed.

Definition two_listeners : list (list Arg) := [[AStr (lit "2001:db8:85a3::8a2e:370:7334"); AWord 9920]; example_listener].

Lemma entry_points_receive_arguments_witness :
  forallb args_fit two_listeners = true /\
  exists v m, AddEntryPoints two_listeners no_entry_points empty = Some (v, m) /\
    (exists st, tuples v !! 0%nat = Some st /\ Invoke st m = Some [AStr (lit "2001:db8:85a3::8a2e:370:7334"); AWord 9920]) /\
    (exists st, tuples v !! 1%nat = Some st /\ Invoke st m = Some example_listener).
Proof.
  assert (Hf : forallb args_fit two_listeners = true) by (vm_compute; reflexivity). split; [exact Hf|].
  destruct (entry_points_receive_arguments two_listeners empty Hf) as (v & m & E & Hk). exists v, m. split; [exact E|]. split.
  - destruct (Hk 0%nat _ eq_refl) as (st & Hst & Hi); [left; repeat constructor|]. exists st. split; [exact Hst|]. by apply Hi.
  - destruct (Hk 1%nat _ eq_refl) as (st & Hst & Hi); [right; reflexivity|]. exists st. split; [exact Hst|]. by apply Hi.
Defined.
