(* ===== verification/TaskSafe.v ===== *)
(** The task system is safe: where every task is, the invariant, and that no
    assertion of [Task.v] fails, for any kernel that keeps the promises of
    one-shot event registration.  At the end a small kernel and a scheduler
    that drives concrete runs. *)
From S2P Require Import Prelude Containers Task.
Local Open Scope Z_scope.

(** * The kernel's promises *)

Definition occ (t : nat) (l : list nat) : nat := count_occ Nat.eq_dec l t.

(** [armed k] are the handles of the registrations that can still fire, each
    as often as it can.  As long as all registrations with a handle are
    one-shot, a wait uses up what it reports, and a registration adds at most
    itself. *)
Class EpollLaws (K : Type) `{Epoll K} (armed : K -> list nat) (oneshot : K -> Prop) : Prop := {
  ctl_armed : forall k op fd mask h b k', oneshot k -> flag_set mask k_epolloneshot = true ->
    epoll_ctl k op fd mask h = (b, k') -> oneshot k' /\ forall t, (occ t (armed k') <= occ t (option_list h ++ armed k))%nat;
  del_armed : forall k fd mask b k', oneshot k -> epoll_ctl k CtlDel fd mask None = (b, k') ->
    oneshot k' /\ forall t, (occ t (armed k') <= occ t (armed k))%nat;
  wait_armed : forall k evs k', oneshot k -> epoll_wait k evs k' ->
    oneshot k' /\ forall t, (occ t (omap id evs) + occ t (armed k') <= occ t (armed k))%nat;
  env_armed : forall k k', oneshot k -> epoll_env k k' -> oneshot k' /\ forall t, (occ t (armed k') <= occ t (armed k))%nat;
  write_armed : forall k, oneshot k -> oneshot (event_write k) /\ armed (event_write k) = armed k
}.

Section Safety.
  Context {Func K : Type} {armed : K -> list nat} {oneshot : K -> Prop} `{EpollLaws K armed oneshot}.
  Abbreviation state := (@TaskManager Func K).
  Abbreviation worker := (@WorkerThread Func).
  Implicit Types (s : state) (w : worker).

(** ** Where the tasks are *)

Definition pc_tasks w : list nat :=
  match pc w with PcEvents l => omap id l | PcGot tup => option_list (task_ tup) | _ => [] end.
Definition waiting_in w : list nat := omap task_ (contents (local_task_queue_ w)) ++ pc_tasks w.
Definition current_in w : list nat := option_list (current_task_ (exec_ w)).

(** How often a task waits somewhere, and how often it is current. *)
Definition waits (t : nat) s : nat :=
  (sum_list_with (fun w => occ t (waiting_in w)) (threads_ s) + occ t (armed (event_queue_ s)))%nat.
Definition runs (t : nat) s : nat := sum_list_with (fun w => occ t (current_in w)) (threads_ s).

(** ** Invariant *)

Definition tuple_ok (tup : @TaskTuple Func) : Prop := task_ tup = None -> is_Some (tuple_func_ tup).

Definition idle w : Prop :=
  current_task_ (exec_ w) = None /\ has_pending_event_ (exec_ w) = false /\ yield_ (exec_ w) = false.

Definition pc_ok (i : nat) w (m : gmap nat (@Task Func)) : Prop :=
  match pc w with
  | PcRun => exists t task, current_task_ (exec_ w) = Some t /\ m !! t = Some task /\ state_ task = Executing /\
      thread_ task = Some i /\ has_pending_event_ (exec_ w) = false /\ yield_ (exec_ w) = false
  | PcPost => exists t task, current_task_ (exec_ w) = Some t /\ m !! t = Some task /\
      (has_pending_event_ (exec_ w) = true -> state_ task = Suspended /\ is_Some (pending_event_ (exec_ w)) /\
         flag_set (pending_event_flags_ (exec_ w)) FlagExactlyOnce = true /\ yield_ (exec_ w) = false) /\
      (yield_ (exec_ w) = true -> state_ task = Suspended)
  | PcGot tup => idle w /\ tuple_ok tup
  | _ => idle w
  end.

Definition thread_ok (i : nat) w (m : gmap nat (@Task Func)) : Prop :=
  ring_ok 10 (local_task_queue_ w) /\ Forall tuple_ok (contents (local_task_queue_ w)) /\ pc_ok i w m.

Record inv s : Prop := {
  i_once : forall t, (waits t s + runs t s <= 1)%nat;
  i_wait : forall t, (0 < waits t s)%nat -> exists task, tasks s !! t = Some task /\ state_ task = Suspended;
  i_thread : forall i w, threads_ s !! i = Some w -> thread_ok i w (tasks s);
  i_sources : forall p, 0 <= fd_ (sources s p);
  i_oneshot : oneshot (event_queue_ s)
}.

(** ** Counting *)

Lemma occ_app t l1 l2 : occ t (l1 ++ l2) = (occ t l1 + occ t l2)%nat.
Proof. apply count_occ_app. Qed.

Lemma occ_here t : occ t [t] = 1%nat.
Proof. unfold occ. cbn. by destruct (Nat.eq_dec t t). Qed.

Lemma occ_other t u : u <> t -> occ t [u] = 0%nat.
Proof. intros Hu. unfold occ. cbn. by destruct (Nat.eq_dec u t). Qed.

Lemma occ_some t l : (0 < occ t l)%nat <-> t ∈ l.
Proof. unfold occ. rewrite list_elem_of_In. symmetry. apply count_occ_In. Qed.

Lemma total_alter {A} (f : A -> nat) g i (w : A) l :
  l !! i = Some w -> (sum_list_with f (alter g i l) + f w = sum_list_with f l + f (g w))%nat.
Proof.
  revert i. induction l as [|x l IH]; intros [|i] Hi; [done|done| |].
  - injection Hi as ->. cbn. lia.
  - specialize (IH i Hi). change (alter g (S i) (x :: l)) with (x :: alter g i l). cbn [sum_list_with]. lia.
Qed.

Lemma total_in {A} (f : A -> nat) i (w : A) l : l !! i = Some w -> (f w <= sum_list_with f l)%nat.
Proof. revert i. induction l as [|x l IH]; intros [|i] Hi; cbn in *; [done|done| |]; [injection Hi as ->; lia|specialize (IH i Hi); lia]. Qed.

Lemma total_two {A} (f : A -> nat) i j (w v : A) l :
  i <> j -> l !! i = Some w -> l !! j = Some v -> (f w + f v <= sum_list_with f l)%nat.
Proof.
  revert i j. induction l as [|x l IH]; intros [|i] [|j] Hne Hi Hj; cbn in *; try done.
  - injection Hi as ->. pose proof (total_in f j v l Hj). lia.
  - injection Hj as ->. pose proof (total_in f i w l Hi). lia.
  - specialize (IH i j ltac:(lia) Hi Hj). lia.
Qed.

Lemma total_pos {A} (f : A -> nat) l : (0 < sum_list_with f l)%nat -> exists i v, l !! i = Some v /\ (0 < f v)%nat.
Proof.
  induction l as [|x l IH]; cbn; [lia|]. intros Hp. destruct (decide (f x = 0%nat)) as [E|].
  - destruct IH as (i & w & ? & ?); [lia|]. by exists (S i), w.
  - exists 0%nat, x. split; [done|lia].
Qed.

Lemma pc_ok_current i w m t : pc_ok i w m -> current_task_ (exec_ w) = Some t -> is_Some (m !! t).
Proof.
  unfold pc_ok, idle. destruct (pc w); intros Hp E; try (destruct Hp as (Hn & _); congruence).
  - destruct Hp as ((Hn & _) & _). congruence.
  - destruct Hp as (t' & task & Ht & Hm & _). rewrite E in Ht. injection Ht as <-. by rewrite Hm.
  - destruct Hp as (t' & task & Ht & Hm & _). rewrite E in Ht. injection Ht as <-. by rewrite Hm.
Qed.

Lemma thread_ok_ext i w m m' :
  thread_ok i w m -> (forall t, current_task_ (exec_ w) = Some t -> m' !! t = m !! t) -> thread_ok i w m'.
Proof.
  intros (H1 & H2 & H3) He. split; [done|]. split; [done|]. revert H3. unfold pc_ok. destruct (pc w); try done.
  - intros (t & task & Hc & Hm & Hr). exists t, task. by rewrite (He t Hc).
  - intros (t & task & Hc & Hm & Hr). exists t, task. by rewrite (He t Hc).
Qed.

(** A task that is not in the table is nowhere. *)
Lemma absent_nowhere s t : inv s -> tasks s !! t = None -> waits t s = 0%nat /\ runs t s = 0%nat.
Proof.
  intros [Ho Hw Ht _ _] E. split.
  - destruct (decide (waits t s = 0%nat)) as [|Hn]; [done|]. destruct (Hw t ltac:(lia)) as (? & ? & _). congruence.
  - destruct (decide (runs t s = 0%nat)) as [|Hn]; [done|]. unfold runs in Hn.
    destruct (total_pos (fun w => occ t (current_in w)) (threads_ s) ltac:(lia)) as (i & w & Hi & Hp).
    apply occ_some in Hp. unfold current_in in Hp. destruct (current_task_ (exec_ w)) as [u|] eqn:Ec; [|by apply not_elem_of_nil in Hp].
    apply list_elem_of_singleton in Hp as <-. destruct (Ht i w Hi) as (_ & _ & Hp).
    destruct (pc_ok_current i w _ t Hp Ec). congruence.
Qed.

(** The current task of a thread is nowhere else. *)
Lemma current_alone s i w t :
  inv s -> threads_ s !! i = Some w -> current_task_ (exec_ w) = Some t ->
  waits t s = 0%nat /\ runs t s = 1%nat /\
  forall j v, threads_ s !! j = Some v -> current_task_ (exec_ v) = Some t -> j = i.
Proof.
  intros [Ho _ _ _ _] Hi Hc. specialize (Ho t). unfold runs in *.
  set (f := fun w => occ t (current_in w)) in *. assert (Hf : forall v, current_task_ (exec_ v) = Some t -> f v = 1%nat).
  { intros v Hv. unfold f, current_in. rewrite Hv. apply occ_here. }
  pose proof (total_in f i w _ Hi) as Hle. rewrite (Hf w Hc) in Hle. split; [lia|]. split; [lia|].
  intros j v Hj Hv. destruct (decide (j = i)) as [|Hne]; [done|].
  pose proof (total_two f j i v w _ Hne Hj Hi) as H2. rewrite (Hf w Hc), (Hf v Hv) in H2. lia.
Qed.

(** ** Changing one thread *)

Definition set_thread (i : nat) w s : state := MkManager (<[i := w]> (threads_ s)) (tasks s) (sources s) (event_queue_ s).

Lemma with_thread_set i g w s : threads_ s !! i = Some w -> with_thread i g s = set_thread i (g w) s.
Proof.
  intros Hi. unfold with_thread, set_thread. f_equal. apply list_eq. intros j.
  destruct (decide (j = i)) as [->|Hne].
  - rewrite list_lookup_alter_eq, list_lookup_insert_eq, Hi; [done|by apply lookup_lt_Some in Hi].
  - by rewrite list_lookup_alter_ne, list_lookup_insert_ne by done.
Qed.

Lemma with_thread_none i g s : threads_ s !! i = None -> with_thread i g s = s.
Proof.
  intros Hi. unfold with_thread. destruct s as [l m x k]. cbn in *. f_equal. apply list_eq. intros j.
  destruct (decide (j = i)) as [->|Hne]; [by rewrite list_lookup_alter_eq, Hi|by rewrite list_lookup_alter_ne].
Qed.

Lemma set_thread_lookup i w w0 s : threads_ s !! i = Some w0 -> threads_ (set_thread i w s) !! i = Some w.
Proof. intros Hi. cbn. apply list_lookup_insert_eq. by apply lookup_lt_Some in Hi. Qed.

Lemma set_thread_set i w1 w2 s : set_thread i w2 (set_thread i w1 s) = set_thread i w2 s.
Proof. unfold set_thread. cbn. by rewrite list_insert_insert_eq. Qed.

Lemma total_insert (f : worker -> nat) i w w' l :
  l !! i = Some w -> (sum_list_with f (<[i := w']> l) + f w = sum_list_with f l + f w')%nat.
Proof.
  intros Hi. rewrite list_insert_alter. exact (total_alter f (fun _ => w') i w l Hi).
Qed.

Lemma waits_set t i w w' s : threads_ s !! i = Some w ->
  (waits t (set_thread i w' s) + occ t (waiting_in w) = waits t s + occ t (waiting_in w'))%nat.
Proof. intros Hi. unfold waits, set_thread. cbn. pose proof (total_insert (fun w => occ t (waiting_in w)) i w w' _ Hi). lia. Qed.

Lemma runs_set t i w w' s : threads_ s !! i = Some w ->
  (runs t (set_thread i w' s) + occ t (current_in w) = runs t s + occ t (current_in w'))%nat.
Proof. intros Hi. exact (total_insert (fun w => occ t (current_in w)) i w w' _ Hi). Qed.

Lemma threads_set_ok i w w' s m :
  threads_ s !! i = Some w -> thread_ok i w' m ->
  (forall j v, threads_ s !! j = Some v -> j <> i -> thread_ok j v m) ->
  forall j v, threads_ (set_thread i w' s) !! j = Some v -> thread_ok j v m.
Proof.
  intros Hi Hw Hj j v Hv. cbn in Hv. apply list_lookup_insert_Some in Hv as [(<- & <- & _)|[Hne Hv]]; [done|].
  by apply Hj.
Qed.

(** The table is unchanged; [fresh] tasks, which were nowhere or were the
    current one, may begin to wait. *)
Lemma inv_set s i w w' gained :
  inv s -> threads_ s !! i = Some w ->
  (current_task_ (exec_ w') = current_task_ (exec_ w) \/ current_task_ (exec_ w') = None) ->
  (forall t, occ t (waiting_in w') <= occ t (waiting_in w) + occ t gained)%nat ->
  (forall t, occ t gained <= 1)%nat ->
  (forall t, t ∈ gained -> waits t s = 0%nat /\
     (runs t s = 0%nat \/ current_task_ (exec_ w) = Some t /\ current_task_ (exec_ w') = None) /\
     exists task, tasks s !! t = Some task /\ state_ task = Suspended) ->
  thread_ok i w' (tasks s) -> inv (set_thread i w' s).
Proof.
  intros Hs Hi Hc Hw Hg1 Hg Hok. pose proof Hs as [Ho Hwt Hth Hso Hone].
  assert (Hrun : forall t, (runs t (set_thread i w' s) <= runs t s)%nat).
  { intros t. pose proof (runs_set t i w w' s Hi) as Hr. unfold current_in in Hr.
    destruct Hc as [E|E]; rewrite E in Hr; [lia|]. change (occ t (option_list None)) with 0%nat in Hr. lia. }
  split; [| | |done|done].
  - intros t. pose proof (waits_set t i w w' s Hi). specialize (Hw t). specialize (Hg1 t). specialize (Ho t).
    specialize (Hrun t). destruct (decide (t ∈ gained)) as [Ht|Ht].
    + destruct (Hg t Ht) as (Hz & [Hr|[Hc1 Hc2]] & _); [lia|].
      pose proof (runs_set t i w w' s Hi) as Hrs. unfold current_in in Hrs. rewrite Hc1, Hc2 in Hrs.
      change (occ t (option_list None)) with 0%nat in Hrs. change (option_list (Some t)) with [t] in Hrs. rewrite occ_here in Hrs. lia.
    + rewrite <- occ_some in Ht. lia.
  - intros t Ht. destruct (decide (t ∈ gained)) as [Hin|Hin]; [by apply Hg|]. rewrite <- occ_some in Hin.
    apply Hwt. pose proof (waits_set t i w w' s Hi). specialize (Hw t). lia.
  - apply (threads_set_ok i w); [done|done|]. intros j v Hj _. by apply Hth.
Qed.

(** The current task of the thread changes or goes. *)
Lemma inv_set_task s i w w' t f :
  inv s -> threads_ s !! i = Some w -> current_task_ (exec_ w) = Some t ->
  (current_task_ (exec_ w') = Some t \/ current_task_ (exec_ w') = None) ->
  (forall u, u <> t -> f (tasks s) !! u = tasks s !! u) ->
  (forall u, occ u (waiting_in w') <= occ u (waiting_in w))%nat ->
  thread_ok i w' (f (tasks s)) -> inv (set_thread i w' (with_tasks f s)).
Proof.
  intros Hs Hi Hc Hc' Hf Hw Hok. destruct (current_alone s i w t Hs Hi Hc) as (Hz & _ & Hal).
  pose proof Hs as [Ho Hwt Hth Hso Hone].
  assert (Hwt' : forall u, (waits u (set_thread i w' s) <= waits u s)%nat).
  { intros u. pose proof (waits_set u i w w' s Hi). specialize (Hw u). lia. }
  split; [| | |done|done].
  - intros u. specialize (Ho u). specialize (Hwt' u). pose proof (runs_set u i w w' s Hi) as Hr. unfold current_in in Hr.
    rewrite Hc in Hr. change (waits u (set_thread i w' s) + runs u (set_thread i w' s) <= 1)%nat.
    destruct Hc' as [E|E]; rewrite E in Hr; [lia|]. change (occ u (option_list None)) with 0%nat in Hr. lia.
  - intros u Hu. change (0 < waits u (set_thread i w' s))%nat in Hu. specialize (Hwt' u).
    destruct (decide (u = t)) as [->|Hne]; [lia|]. destruct (Hwt u ltac:(lia)) as (task & E & Hst).
    exists task. split; [|done]. cbn. by rewrite Hf.
  - apply (threads_set_ok i w w' s); [done|done|]. intros j v Hj Hne. apply (thread_ok_ext j v (tasks s)); [by apply Hth|].
    intros u Hu. apply Hf. intros ->. apply Hne. by apply (Hal j v).
Qed.

(** A thread takes up a new task, or one it has in hand. *)
Lemma inv_start s i w w' t f :
  inv s -> threads_ s !! i = Some w -> current_task_ (exec_ w) = None -> current_task_ (exec_ w') = Some t ->
  (forall u, u <> t -> f (tasks s) !! u = tasks s !! u) ->
  (tasks s !! t = None /\ (forall u, occ u (waiting_in w') <= occ u (waiting_in w))%nat \/
   (forall u, occ u (waiting_in w') + occ u [t] <= occ u (waiting_in w))%nat) ->
  thread_ok i w' (f (tasks s)) -> inv (set_thread i w' (with_tasks f s)).
Proof.
  intros Hs Hi Hc Hc' Hf Hw Hok. pose proof Hs as [Ho Hwt Hth Hso Hone].
  assert (Hcount : (forall u, waits u (set_thread i w' s) + runs u (set_thread i w' s) <= 1)%nat /\
    (forall u, waits u (set_thread i w' s) <= waits u s)%nat /\ waits t (set_thread i w' s) = 0%nat /\ runs t s = 0%nat).
  { assert (Hr : forall u, (runs u (set_thread i w' s) = runs u s + occ u [t])%nat).
    { intros u. pose proof (runs_set u i w w' s Hi) as Hr. unfold current_in in Hr. rewrite Hc, Hc' in Hr.
      change (occ u (option_list None)) with 0%nat in Hr. change (option_list (Some t)) with [t] in Hr. lia. }
    destruct Hw as [[Hn Hw]|Hw].
    - destruct (absent_nowhere s t Hs Hn) as [Z1 Z2].
      assert (Hle : forall u, (waits u (set_thread i w' s) <= waits u s)%nat).
      { intros u. pose proof (waits_set u i w w' s Hi). specialize (Hw u). lia. }
      split; [|split; [done|split; [specialize (Hle t); lia|done]]]. intros u. specialize (Hr u). specialize (Hle u). specialize (Ho u).
      destruct (decide (u = t)) as [->|Hne]; [rewrite occ_here in Hr; lia|]. rewrite occ_other in Hr by done. lia.
    - assert (Hle : forall u, (waits u (set_thread i w' s) + occ u [t] <= waits u s)%nat).
      { intros u. pose proof (waits_set u i w w' s Hi). specialize (Hw u). lia. }
      split; [intros u; specialize (Hr u); specialize (Hle u); specialize (Ho u); lia|]. split; [intros u; specialize (Hle u); lia|].
      specialize (Hle t). rewrite occ_here in Hle. specialize (Ho t). split; lia. }
  destruct Hcount as (H1 & H2 & H3 & H4). split; [exact H1| | |done|done].
  - intros u Hu. change (0 < waits u (set_thread i w' s))%nat in Hu. specialize (H2 u).
    destruct (decide (u = t)) as [->|Hne]; [lia|]. destruct (Hwt u ltac:(lia)) as (task & E & Hst).
    exists task. split; [|done]. cbn. by rewrite Hf.
  - apply (threads_set_ok i w w' s); [done|done|]. intros j v Hj Hne. apply (thread_ok_ext j v (tasks s)); [by apply Hth|].
    intros u Hu. apply Hf. intros ->. unfold runs in H4.
    pose proof (total_in (fun w => occ t (current_in w)) j v _ Hj) as Hle. unfold current_in at 1 in Hle.
    rewrite Hu in Hle. change (option_list (Some t)) with [t] in Hle. rewrite occ_here in Hle. lia.
Qed.

Lemma inv_kernel s k' gained :
  inv s -> oneshot k' -> (forall t, occ t (armed k') <= occ t (gained ++ armed (event_queue_ s)))%nat ->
  (forall t, occ t gained <= 1)%nat ->
  (forall t, t ∈ gained -> waits t s = 0%nat /\ runs t s = 0%nat /\
     exists task, tasks s !! t = Some task /\ state_ task = Suspended) ->
  inv (with_kernel k' s).
Proof.
  intros [Ho Hwt Hth Hso Hone] Hk Harm Hg1 Hg.
  assert (Hle : forall t, (waits t (with_kernel k' s) <= waits t s + occ t gained)%nat).
  { intros t. unfold waits. cbn. specialize (Harm t). rewrite occ_app in Harm. lia. }
  split; [| |done|done|done].
  - intros t. specialize (Hle t). specialize (Ho t). specialize (Hg1 t). change (runs t (with_kernel k' s)) with (runs t s).
    destruct (decide (t ∈ gained)) as [Ht|Ht]; [destruct (Hg t Ht) as (? & ? & _); lia|]. rewrite <- occ_some in Ht. lia.
  - intros t Ht. specialize (Hle t). destruct (decide (t ∈ gained)) as [Hin|Hin]; [by apply Hg|].
    rewrite <- occ_some in Hin. apply Hwt. lia.
Qed.

Lemma inv_kernel_less s k' :
  inv s -> oneshot k' -> (forall t, occ t (armed k') <= occ t (armed (event_queue_ s)))%nat -> inv (with_kernel k' s).
Proof. intros Hs Hk Ha. apply (inv_kernel s k' []); try done; [|by intros t ?%not_elem_of_nil]. intros t. cbn. lia. Qed.

Lemma inv_source s p x : inv s -> 0 <= fd_ x -> inv (with_source p x s).
Proof. intros [Ho Hwt Hth Hso Hone] Hx. split; try done. intros q. cbn. by case_decide. Qed.

Lemma inv_interrupt s : inv s -> inv (InterruptAll s).
Proof.
  intros Hs. destruct (write_armed (event_queue_ s) (i_oneshot s Hs)) as [Hk Ha].
  apply inv_kernel_less; [done|done|]. intros t. by rewrite Ha.
Qed.

(** ** The handlers *)

Lemma QueueTask_spec tup w :
  ring_ok 10 (local_task_queue_ w) -> Forall tuple_ok (contents (local_task_queue_ w)) -> tuple_ok tup ->
  let q := local_task_queue_ (QueueTask tup w) in
  ring_ok 10 q /\ Forall tuple_ok (contents q) /\
  forall t, (occ t (omap task_ (contents q)) <= occ t (omap task_ (contents (local_task_queue_ w))) + occ t (option_list (task_ tup)))%nat.
Proof.
  intros Hr Ht Hn. cbn. destruct (Push_contents 10 (local_task_queue_ w) tup Hr) as [H1 [H2|H2]]; rewrite H2; (split; [done|]).
  - split; [apply Forall_app; split; [done|by constructor]|]. intros t. rewrite omap_app, occ_app. cbn.
    destruct (task_ tup); cbn; lia.
  - split; [done|]. intros t. lia.
Qed.

Lemma not_idle_pc i w m : thread_ok i w m -> pc w <> PcRun -> pc w <> PcPost -> idle w.
Proof. intros (_ & _ & Hp) H1 H2. unfold pc_ok in Hp. destruct (pc w); try done. by destruct Hp. Qed.

Lemma waiting_with_pc w p :
  waiting_in (with_pc p w) = omap task_ (contents (local_task_queue_ w)) ++ pc_tasks (with_pc p w).
Proof. done. Qed.

(** A thread that is not in a task moves on, perhaps with less in hand. *)
Lemma inv_move s i w p :
  inv s -> threads_ s !! i = Some w -> idle w -> (match p with PcRun | PcPost | PcGot _ => False | _ => True end) ->
  (forall t, occ t (pc_tasks (with_pc p w)) <= occ t (pc_tasks w))%nat -> inv (with_thread i (with_pc p) s).
Proof.
  intros Hs Hi Hid Hp Hle. rewrite (with_thread_set i _ w) by done. destruct (i_thread s Hs i w Hi) as (H1 & H2 & _).
  apply (inv_set s i w _ []); try done; [by left| | |by intros t ?%not_elem_of_nil|].
  - intros t. rewrite waiting_with_pc. unfold waiting_in. rewrite !occ_app. specialize (Hle t). lia.
  - intros t. cbn. lia.
  - split; [done|]. split; [done|]. unfold pc_ok. cbn. by destruct p.
Qed.

Lemma DequeStep_ok s i w j :
  inv s -> threads_ s !! i = Some w -> pc w = PcDeque j -> exists s', DequeStep i j s = Some s' /\ inv s'.
Proof.
  intros Hs Hi Hpc. assert (Hid : idle w) by (apply (not_idle_pc i w (tasks s)); [by apply (i_thread s Hs)|by rewrite Hpc..]).
  assert (Hmove : forall p, match p with PcLoop | PcDeque _ => True | _ => False end -> inv (with_thread i (with_pc p) s)).
  { intros p Hp. apply (inv_move s i w); try done; [by destruct p|]. intros t. destruct p; try done; unfold pc_tasks; cbn; lia. }
  unfold DequeStep. destruct (_ <? j)%nat; [eexists; split; [done|by apply Hmove]|].
  set (v := DequeVictim _ _ _). assert (Hv : (v < length (threads_ s))%nat).
  { pose proof (lookup_lt_Some _ _ _ Hi). unfold v, DequeVictim. destruct j; [done|]. apply Nat.mod_upper_bound. lia. }
  destruct (lookup_lt_is_Some_2 _ _ Hv) as [wv Ev]. rewrite Ev.
  destruct (i_thread s Hs v wv Ev) as (Hr & Ht & Hp). pose proof (Pop_contents 10 (local_task_queue_ wv) Hr) as HP.
  destruct (Pop (local_task_queue_ wv)) as [[tup|] q]; [|eexists; split; [done|by apply Hmove]].
  destruct HP as [Hrq Hcq]. rewrite Hcq in Ht. inversion Ht as [|? ? Htup Htq]; subst.
  rewrite (with_thread_set v _ wv) by done. set (wv' := with_queue q wv). set (s1 := set_thread v wv' s).
  assert (Hocc : forall t, occ t (waiting_in wv) = (occ t (option_list (task_ tup)) + occ t (waiting_in wv'))%nat).
  { intros t. unfold waiting_in at 1. rewrite Hcq. change (tup :: contents q) with ([tup] ++ contents q).
    rewrite omap_app, !occ_app. unfold waiting_in. rewrite occ_app. change (pc_tasks wv') with (pc_tasks wv).
    change (local_task_queue_ wv') with q. cbn. destruct (task_ tup); cbn; lia. }
  assert (Hs1 : inv s1).
  { apply (inv_set s v wv wv' []); try done; [by left| | |by intros t ?%not_elem_of_nil].
    - intros t. rewrite (Hocc t). cbn. lia.
    - intros t. cbn. lia. }
  assert (Hi1 : exists w1, threads_ s1 !! i = Some w1 /\ pc w1 = PcDeque j /\ idle w1).
  { destruct (decide (v = i)) as [Heq|Hne].
    - exists wv'. assert (wv = w) as -> by (rewrite Heq in Ev; congruence). split; [|done].
      rewrite <- Heq. by apply (set_thread_lookup v wv' w).
    - exists w. split; [|done]. cbn. by rewrite list_lookup_insert_ne. }
  destruct Hi1 as (w1 & Hi1 & Hpc1 & Hid1). eexists. split; [done|]. rewrite (with_thread_set i _ w1) by done.
  destruct (i_thread s1 Hs1 i w1 Hi1) as (Hr1 & Ht1 & _).
  apply (inv_set s1 i w1 _ (option_list (task_ tup))); try done.
  - by left.
  - intros t. rewrite waiting_with_pc. unfold waiting_in. rewrite !occ_app. unfold pc_tasks. cbn [with_pc pc]. rewrite Hpc1. lia.
  - intros t. destruct (task_ tup) as [u|]; [|cbn; lia]. change (option_list (Some u)) with [u].
    destruct (decide (u = t)) as [->|]; [by rewrite occ_here|rewrite occ_other by done; lia].
  - intros t Hin. pose proof (waits_set t v wv wv' s Ev) as Hw. specialize (Hocc t). pose proof (i_once s Hs t) as Ho.
    apply occ_some in Hin. assert (Hruns : runs t s1 = runs t s).
    { pose proof (runs_set t v wv wv' s Ev) as Hrs. change (current_in wv') with (current_in wv) in Hrs. fold s1 in Hrs. lia. }
    fold s1 in Hw. split; [lia|]. split; [left; lia|]. apply (i_wait s Hs). lia.
Qed.

Lemma StartTask_ok s i w tup :
  inv s -> threads_ s !! i = Some w -> pc w = PcGot tup -> exists s', StartTask i tup w s = Some s' /\ inv s'.
Proof.
  intros Hs Hi Hpc. destruct (i_thread s Hs i w Hi) as (Hr & Ht & Hp). unfold pc_ok in Hp. rewrite Hpc in Hp.
  destruct Hp as [(Hcur & Hhas & Hy) Htup]. unfold StartTask, PreTask. rewrite Hcur.
  set (e := fun t => MkExec (Some t) (pending_event_ (exec_ w)) (pending_event_flags_ (exec_ w)) (has_pending_event_ (exec_ w))
    (yield_ (exec_ w)) 0).
  assert (Hgo : forall t f task', f (tasks s) !! t = Some task' -> state_ task' = Executing -> thread_ task' = Some i ->
    (forall u, u <> t -> f (tasks s) !! u = tasks s !! u) ->
    (tasks s !! t = None /\ task_ tup = None \/ task_ tup = Some t) ->
    inv (with_thread i (fun w => with_pc PcRun (with_exec (e t) w)) (with_tasks f s))).
  { intros t f task' Hf Hst Hth Hothers Hin. rewrite (with_thread_set i _ w) by done.
    apply (inv_start s i w _ t f); try done.
    - destruct Hin as [[Hn E]|E].
      + left. split; [done|]. intros u. unfold waiting_in, pc_tasks. rewrite Hpc. cbn. rewrite app_nil_r, occ_app. lia.
      + right. intros u. unfold waiting_in, pc_tasks. rewrite Hpc, E. cbn. rewrite app_nil_r, occ_app. done.
    - split; [done|]. split; [done|]. unfold pc_ok. cbn. exists t, task'. by split_and!. }
  destruct (task_ tup) as [t|] eqn:Et.
  - assert (Hw : (0 < waits t s)%nat).
    { unfold waits. pose proof (total_in (fun w => occ t (waiting_in w)) i w _ Hi) as Hle. cbv beta in Hle.
      unfold waiting_in in Hle at 1. unfold pc_tasks in Hle at 1. rewrite Hpc, Et, occ_app in Hle.
      change (option_list (Some t)) with [t] in Hle. rewrite occ_here in Hle. lia. }
    destruct (i_wait s Hs t Hw) as (task & E & Est). rewrite E, Est. unfold TaskResume. rewrite Est.
    eexists. split; [done|]. apply (Hgo t <[t := MkTask (func_ task) Executing (Some i)]> (MkTask (func_ task) Executing (Some i)));
      try done; [by rewrite lookup_insert_eq| |by right]. intros u Hu. by rewrite lookup_insert_ne.
  - unfold CreateTask. set (t := fresh (dom (tasks s))). assert (Hn : tasks s !! t = None).
    { apply not_elem_of_dom. apply is_fresh. }
    change (tasks (with_tasks <[t := MkTask (tuple_func_ tup) NotStarted None]> s)) with
      (<[t := MkTask (tuple_func_ tup) NotStarted None]> (tasks s)).
    rewrite lookup_insert_eq. cbn [state_]. destruct (Htup Et) as [fn Hfn]. unfold TaskExecute. cbn [func_ state_]. rewrite Hfn.
    eexists. split; [done|].
    apply (Hgo t (fun m => <[t := MkTask (Some fn) Executing (Some i)]> (<[t := MkTask (Some fn) NotStarted None]> m))
      (MkTask (Some fn) Executing (Some i))); try done; [by rewrite lookup_insert_eq| |by left].
    intros u Hu. by rewrite !lookup_insert_ne.
Qed.

Lemma mask_oneshot flags : flag_set flags FlagExactlyOnce = true -> flag_set (event_mask flags) k_epolloneshot = true.
Proof.
  intros Hf. unfold event_mask. rewrite Hf. unfold flag_set. apply negb_true_iff, Z.eqb_neq. intros E.
  apply (f_equal (fun z => Z.testbit z 30)) in E. rewrite Z.land_spec, Z.lor_spec in E.
  change (Z.testbit k_epolloneshot 30) with true in E. rewrite orb_true_r in E. discriminate.
Qed.

(** The thread lets its task go. *)
Lemma inv_let_go s i w t e p :
  inv s -> threads_ s !! i = Some w -> pc w = PcPost -> current_task_ (exec_ w) = Some t ->
  current_task_ e = None -> has_pending_event_ e = false -> yield_ e = false ->
  match p with PcDeque _ | PcMark _ _ => True | _ => False end ->
  let w1 := with_pc p (with_exec e w) in
  inv (set_thread i w1 s) /\ threads_ (set_thread i w1 s) !! i = Some w1 /\
  waits t (set_thread i w1 s) = 0%nat /\ runs t (set_thread i w1 s) = 0%nat.
Proof.
  intros Hs Hi Hpc Hc E1 E2 E3 Hp w1. destruct (current_alone s i w t Hs Hi Hc) as (Hwz & Hr1 & _).
  destruct (i_thread s Hs i w Hi) as (Hr & Ht & _).
  assert (Hwt : waiting_in w1 = waiting_in w) by (unfold waiting_in, pc_tasks; cbn; rewrite Hpc; by destruct p).
  split; [|split; [by apply (set_thread_lookup i w1 w)|]].
  - apply (inv_set s i w w1 []); try done; [by right| | |by intros ? ?%not_elem_of_nil|].
    + intros u. rewrite Hwt. cbn. lia.
    + intros u. cbn. lia.
    + split; [done|]. split; [done|]. unfold pc_ok. cbn. by destruct p.
  - pose proof (waits_set t i w w1 s Hi) as Hw. rewrite Hwt in Hw. pose proof (runs_set t i w w1 s Hi) as Hrs.
    unfold current_in in Hrs. rewrite Hc in Hrs. change (current_task_ (exec_ w1)) with (current_task_ e) in Hrs. rewrite E1 in Hrs.
    change (option_list (Some t)) with [t] in Hrs. rewrite occ_here in Hrs. change (occ t (option_list None)) with 0%nat in Hrs. lia.
Qed.

(** A suspended task that is nowhere is registered for an event. *)
Lemma AddEvent_inv s t p flags :
  inv s -> waits t s = 0%nat -> runs t s = 0%nat -> (exists task, tasks s !! t = Some task /\ state_ task = Suspended) ->
  flag_set flags FlagExactlyOnce = true ->
  exists k', AddEvent p flags (Some t) s = Some (negb (is_added_ (sources s p)), with_kernel k' s) /\ inv (with_kernel k' s).
Proof.
  intros Hs Hw Hr Ht Hfl. unfold AddEvent. pose proof (i_sources s Hs p) as Hfd. destruct (Z.ltb_spec (fd_ (sources s p)) 0) as [?|_]; [lia|].
  destruct (epoll_ctl _ _ _ _ _) as [b k'] eqn:Ek. exists k'. split; [reflexivity|].
  destruct (ctl_armed _ _ _ _ _ _ _ (i_oneshot s Hs) (mask_oneshot _ Hfl) Ek) as [Hk Ha].
  apply (inv_kernel _ _ [t]); try done.
  - intros u. destruct (decide (t = u)) as [->|]; [by rewrite occ_here|rewrite occ_other by done; lia].
  - intros u ->%list_elem_of_singleton. by split_and!.
Qed.

Lemma PostTask_ok s i w t :
  inv s -> threads_ s !! i = Some w -> pc w = PcPost -> current_task_ (exec_ w) = Some t ->
  exists s', PostTask i t w s = Some s' /\ inv s'.
Proof.
  intros Hs Hi Hpc Hc. destruct (i_thread s Hs i w Hi) as (Hr & Ht & Hp). unfold pc_ok in Hp.
  rewrite Hpc in Hp. destruct Hp as (t' & task & Hc' & Hm & Hev & Hyd). rewrite Hc in Hc'. injection Hc' as <-. unfold PostTask.
  destruct (has_pending_event_ (exec_ w)) eqn:Eh; [|destruct (yield_ (exec_ w)) eqn:Ey].
  - destruct (Hev eq_refl) as (Hst & [p Hpe] & Hfl & Hy). rewrite Hm, Hpe, Hst. set (e := MkExec None None _ false _ _).
    set (p' := if negb (is_added_ (sources s p)) then PcMark t p else PcDeque 0 : @Pc Func).
    destruct (inv_let_go s i w t e p' Hs Hi Hpc Hc) as (H1 & _ & H2 & H3); try done; [by unfold p'; destruct (negb _)|].
    destruct (AddEvent_inv _ t p (pending_event_flags_ (exec_ w)) H1 H2 H3) as (k' & Ea & Hfin); [by exists task|done|].
    unfold AddEvent in Ea |- *. cbn [set_thread sources event_queue_] in Ea. destruct (_ <? 0); [done|].
    destruct (epoll_ctl _ _ _ _ _) as [b k2]. injection Ea as Ek. cbn [option_map]. eexists. split; [reflexivity|].
    rewrite (with_thread_set i _ w (with_kernel k2 s) Hi). by rewrite Ek.
  - eexists. split; [reflexivity|]. set (e := MkExec None _ _ false false _).
    destruct (inv_let_go s i w t e (PcDeque 0) Hs Hi Hpc Hc) as (H1 & Hi1 & H2 & H3); try done. set (w1 := with_pc (PcDeque 0) (with_exec e w)) in *.
    rewrite (with_thread_set i _ w s Hi).
    set (tup := MkTuple (Some t) None). destruct (QueueTask_spec tup w Hr Ht ltac:(done)) as (Q1 & Q2 & Q3).
    set (w2 := with_pc (PcDeque 0) _). rewrite <- (set_thread_set i w1 w2 s).
    apply (inv_set _ i w1 w2 [t] H1 Hi1).
    + by left.
    + intros u. unfold waiting_in. rewrite !occ_app. specialize (Q3 u). change (option_list (task_ tup)) with [t] in Q3.
      change (local_task_queue_ w2) with (local_task_queue_ (QueueTask tup w)). change (local_task_queue_ w1) with (local_task_queue_ w).
      unfold pc_tasks. cbn [pc w2 w1 with_pc]. lia.
    + intros u. destruct (decide (t = u)) as [->|]; [by rewrite occ_here|rewrite occ_other by done; lia].
    + intros u ->%list_elem_of_singleton. split; [done|]. split; [by left|]. exists task. split; [done|by apply Hyd].
    + split; [done|]. split; [done|]. done.
  - eexists. split; [reflexivity|]. set (e := MkExec None _ _ false false _).
    assert (Hi1 : threads_ (DestroyTask t s) !! i = Some w) by done. rewrite (with_thread_set i _ w _ Hi1).
    apply (inv_set_task s i w _ t (delete t)); try done.
    + by right.
    + intros u Hu. by rewrite lookup_delete_ne.
    + intros u. unfold waiting_in, pc_tasks. cbn. by rewrite Hpc.
Qed.

Lemma inv_delayed_stop s j other : inv s -> threads_ s !! j = Some other -> inv (set_thread j (DelayedStop other) s).
Proof.
  intros Hs Ej. destruct (i_thread s Hs j other Ej) as (Hrj & Htj & Hpj).
  apply (inv_set s j other _ []); try done; [by left| | |by intros t ?%not_elem_of_nil].
  - intros t. change (waiting_in (DelayedStop other)) with (waiting_in other). lia.
  - intros t. cbn. lia.
Qed.

(** One thread of the scan of [StopInternal], or its end. *)
Lemma StopStep_ok s i w j n : inv s -> threads_ s !! i = Some w -> pc w = PcStop j n ->
  exists s', ThreadStep i w s = Some s' /\ inv s'.
Proof.
  intros Hs Hi Hpc. pose proof (i_thread s Hs i w Hi) as (Hr & Ht & Hp). unfold ThreadStep. rewrite Hpc.
  destruct (threads_ s !! j) as [other|] eqn:Ej.
  - destruct (finished_ other); [eexists; split; [done|]; apply (inv_move s i w); try done; [by apply (not_idle_pc i w (tasks s)); rewrite ?Hpc|by intros t; unfold pc_tasks; rewrite Hpc]|].
    eexists. split; [done|]. rewrite (with_thread_set j _ other) by done.
    set (s1 := set_thread j (DelayedStop other) s). assert (Hs1 : inv s1) by by apply inv_delayed_stop.
    assert (Hi1 : exists w1, threads_ s1 !! i = Some w1 /\ pc w1 = PcStop j n).
    { destruct (decide (j = i)) as [->|Hne].
      - exists (DelayedStop other). split; [by apply (set_thread_lookup i _ w)|]. assert (other = w) as -> by congruence. done.
      - exists w. split; [|done]. cbn. by rewrite list_lookup_insert_ne. }
    destruct Hi1 as (w1 & Hi1 & Hpc1). apply (inv_move s1 i w1); try done.
    + apply (not_idle_pc i w1 (tasks s1)); [by apply (i_thread s1 Hs1)|by rewrite Hpc1..].
    + intros t. unfold pc_tasks. by rewrite Hpc1.
  - eexists. split; [done|]. apply (inv_move (InterruptAll s) i w); try done; [by apply inv_interrupt| |by destruct n|].
    + apply (not_idle_pc i w (tasks s)); [done|by rewrite Hpc..].
    + intros t. unfold pc_tasks. rewrite Hpc. by destruct n.
Qed.

Lemma ThreadStep_ok s i w : inv s -> threads_ s !! i = Some w -> exists s', ThreadStep i w s = Some s' /\ inv s'.
Proof.
  intros Hs Hi. pose proof (i_thread s Hs i w Hi) as (Hr & Ht & Hp).
  assert (Hmv : pc w <> PcRun -> pc w <> PcPost -> forall p, (match p with PcRun | PcPost | PcGot _ => False | _ => True end) ->
    (forall t, occ t (pc_tasks (with_pc p w)) <= occ t (pc_tasks w))%nat ->
    exists s', Some (with_thread i (with_pc p) s) = Some s' /\ inv s').
  { intros H1 H2 p Hpp Hle. eexists. split; [done|]. apply (inv_move s i w p); try done. by apply (not_idle_pc i w (tasks s)). }
  unfold ThreadStep. destruct (pc w) as [| |[|[t|] l]|j|tup| | |t p|j n|] eqn:Hpc.
  - destruct (running_ w) eqn:Erun; [by apply Hmv; try done; intros t; unfold pc_tasks; rewrite Hpc|]. eexists. split; [done|]. rewrite (with_thread_set i _ w) by done.
    apply (inv_set s i w _ []); try done; [by left| | |by intros t ?%not_elem_of_nil|].
    + intros t. unfold waiting_in, pc_tasks. rewrite Hpc, !occ_app. cbn. lia.
    + intros t. cbn. lia.
    + split; [done|]. split; [done|]. apply (not_idle_pc i w (tasks s)); [done|by rewrite Hpc..].
  - by eexists.
  - apply Hmv; try done. intros t. unfold pc_tasks. rewrite Hpc. done.
  - eexists. split; [done|]. rewrite (with_thread_set i _ w) by done. set (tup := MkTuple (Some t) None).
    destruct (QueueTask_spec tup w Hr Ht ltac:(done)) as (Q1 & Q2 & Q3).
    apply (inv_set s i w _ []); try done; [by left| | |by intros u ?%not_elem_of_nil|].
    + intros u. unfold waiting_in. rewrite !occ_app. specialize (Q3 u). change (option_list (task_ tup)) with [t] in Q3.
      unfold pc_tasks. rewrite Hpc. cbn [pc with_pc]. change (omap id (Some t :: l)) with ([t] ++ omap id l). rewrite occ_app.
      change (local_task_queue_ (with_pc (PcEvents l) (QueueTask tup w))) with (local_task_queue_ (QueueTask tup w)). lia.
    + intros u. cbn. lia.
    + split; [done|]. split; [done|]. apply (not_idle_pc i w (tasks s)); [done|by rewrite Hpc..].
  - apply Hmv; try done. intros t. unfold pc_tasks. rewrite Hpc. done.
  - by apply (DequeStep_ok s i w j).
  - by apply (StartTask_ok s i w tup).
  - by eexists.
  - unfold pc_ok in Hp. rewrite Hpc in Hp. destruct Hp as (t & task & Hc & _). rewrite Hc. by apply (PostTask_ok s i w t).
  - eexists. split; [done|]. apply (inv_move (MarkAdded p s) i w); try done.
    + apply inv_source; [done|]. apply (i_sources s Hs).
    + apply (not_idle_pc i w (tasks s)); [done|by rewrite Hpc..].
    + intros u. unfold pc_tasks. by rewrite Hpc.
  - pose proof (StopStep_ok s i w j n Hs Hi Hpc) as Hstop. unfold ThreadStep in Hstop. by rewrite Hpc in Hstop.
  - by eexists.
Qed.

(** What a task may do to its thread before it suspends. *)
Lemma SuspendCurrent_ok s i w t task g :
  inv s -> threads_ s !! i = Some w -> pc w = PcRun -> current_task_ (exec_ w) = Some t ->
  tasks s !! t = Some task -> state_ task = Executing -> thread_ task = Some i ->
  local_task_queue_ (g w) = local_task_queue_ w -> current_task_ (exec_ (g w)) = Some t ->
  (has_pending_event_ (exec_ (g w)) = true -> is_Some (pending_event_ (exec_ (g w))) /\
     flag_set (pending_event_flags_ (exec_ (g w))) FlagExactlyOnce = true /\ yield_ (exec_ (g w)) = false) ->
  exists s', SuspendCurrent i (with_thread i g s) = Some s' /\ inv s'.
Proof.
  intros Hs Hi Hpc Hc Hm Hst Hth Hq Hcg Hp. destruct (i_thread s Hs i w Hi) as (Hr & Ht & _).
  rewrite (with_thread_set i g w) by done. unfold SuspendCurrent. rewrite (set_thread_lookup i (g w) w) by done.
  rewrite Hcg. cbn [tasks set_thread]. rewrite Hm. unfold TaskSuspend. rewrite Hth, Hst. cbn [option_map].
  eexists. split; [done|]. set (task' := MkTask _ Suspended _).
  set (s1 := with_tasks <[t := task']> (set_thread i (g w) s)).
  assert (Hi1 : threads_ s1 !! i = Some (g w)) by by apply (set_thread_lookup i (g w) w).
  rewrite (with_thread_set i _ (g w)) by done.
  change (inv (set_thread i (with_pc PcPost (g w)) (set_thread i (g w) (with_tasks <[t := task']> s)))). rewrite set_thread_set.
  apply (inv_set_task s i w _ t <[t := task']>); try done.
  - by left.
  - intros u Hu. by rewrite lookup_insert_ne.
  - intros u. unfold waiting_in. change (local_task_queue_ (with_pc PcPost (g w))) with (local_task_queue_ (g w)).
    rewrite Hq. unfold pc_tasks. rewrite Hpc. done.
  - split; [cbn; by rewrite Hq|]. split; [cbn; by rewrite Hq|]. unfold pc_ok. cbn [pc with_pc exec_].
    exists t, task'. rewrite lookup_insert_eq. split; [done|]. split; [done|]. split; [|done]. intros Hh. split; [done|]. by apply Hp.
Qed.

Lemma Act_ok s i w t a :
  inv s -> threads_ s !! i = Some w -> pc w = PcRun -> current_task_ (exec_ w) = Some t -> action_ok a = true ->
  exists s', Act i t a s = Some s' /\ inv s'.
Proof.
  intros Hs Hi Hpc Hc Ha. destruct (i_thread s Hs i w Hi) as (Hr & Ht & Hp). unfold pc_ok in Hp. rewrite Hpc in Hp.
  destruct Hp as (t' & task & Hc' & Hm & Hst & Hth & Hh & Hy). rewrite Hc in Hc'. injection Hc' as <-.
  unfold Act. rewrite Hm, Hth. destruct a as [f|p flags| | | |p fd|p]; cbn in Ha.
  - eexists. split; [done|]. unfold PerformAsync. apply inv_interrupt. rewrite (with_thread_set i _ w) by done.
    set (tup := MkTuple None (Some f)). destruct (QueueTask_spec tup w Hr Ht ltac:(by eexists)) as (Q1 & Q2 & Q3).
    apply (inv_set s i w _ []); try done; [by left| | |by intros u ?%not_elem_of_nil|].
    + intros u. unfold waiting_in. rewrite !occ_app. specialize (Q3 u). change (occ u (option_list (task_ tup))) with 0%nat in Q3.
      change (pc_tasks (QueueTask tup w)) with (pc_tasks w). lia.
    + intros u. cbn. lia.
    + split; [done|]. split; [done|]. unfold pc_ok. cbn. rewrite Hpc. exists t, task. by split_and!.
  - by apply (SuspendCurrent_ok s i w t task).
  - apply (SuspendCurrent_ok s i w t task); try done. cbn. rewrite Hh. done.
  - apply (SuspendCurrent_ok s i w t task); try done. cbn. rewrite Hh. done.
  - eexists. split; [done|]. rewrite (with_thread_set i _ w) by done.
    apply (inv_set s i w _ []); try done; [by left| | |by intros u ?%not_elem_of_nil|].
    + intros u. unfold waiting_in, pc_tasks. rewrite Hpc. cbn [local_task_queue_ with_pc pc]. lia.
    + intros u. cbn. lia.
    + split; [done|]. split; [done|]. unfold pc_ok. cbn [pc with_pc exec_]. exists t, task. rewrite Hh, Hy. done.
  - eexists. split; [done|]. apply inv_source; [done|]. cbn. by apply Z.leb_le.
  - unfold RemoveEvent. pose proof (i_sources s Hs p) as Hfd. destruct (Z.ltb_spec (fd_ (sources s p)) 0) as [?|_]; [lia|].
    destruct (epoll_ctl _ _ _ _ _) as [b k'] eqn:Ek. eexists. split; [done|].
    destruct (del_armed _ _ _ _ _ (i_oneshot s Hs) Ek) as [Hk Hle]. apply inv_source; [by apply inv_kernel_less|done].
Qed.

Lemma step_inv s s' : step s s' -> inv s -> inv s'.
Proof.
  intros Hstep Hs. destruct Hstep as [s i w evs k' Hi Hpc Hw|s i w s' Hi E|s i w t a s' Hi Hpc Hc Ha E|s i|s|s k' He].
  - destruct (wait_armed _ _ _ (i_oneshot s Hs) Hw) as [Hk Hle]. destruct (i_thread s Hs i w Hi) as (Hr & Ht & Hp).
    (* the kernel gives the tasks up, the thread takes them *)
    pose proof Hs as [Ho Hwt Hth Hso Hone]. rewrite (with_thread_set i _ w) by done.
    assert (Hwle : forall t, (waits t (set_thread i (with_pc (PcEvents evs) w) (with_kernel k' s)) <= waits t s)%nat).
    { intros t. specialize (Hle t). pose proof (waits_set t i w (with_pc (PcEvents evs) w) (with_kernel k' s) Hi) as H1.
      unfold waiting_in in H1. unfold pc_tasks in H1. rewrite Hpc in H1. cbn [with_pc pc local_task_queue_] in H1.
      rewrite !occ_app in H1. change (occ t []) with 0%nat in H1. unfold waits in H1 |- *. cbn [event_queue_ with_kernel set_thread threads_] in *. lia. }
    assert (Hrle : forall t, runs t (set_thread i (with_pc (PcEvents evs) w) (with_kernel k' s)) = runs t s).
    { intros t. pose proof (runs_set t i w (with_pc (PcEvents evs) w) (with_kernel k' s) Hi) as H1.
      change (current_in (with_pc (PcEvents evs) w)) with (current_in w) in H1. change (runs t (with_kernel k' s)) with (runs t s) in H1. lia. }
    split; [| | |done|done].
    + intros t. rewrite Hrle. specialize (Hwle t). specialize (Ho t). lia.
    + intros t Hpos. specialize (Hwle t). apply Hwt. lia.
    + apply (threads_set_ok i w _ (with_kernel k' s)); [done| |by intros j v Hj _; apply Hth].
      split; [done|]. split; [done|]. apply (not_idle_pc i w (tasks s)); [done|by rewrite Hpc..].
  - destruct (ThreadStep_ok s i w Hs Hi) as (s2 & E2 & Hs2). rewrite E in E2. by injection E2 as ->.
  - destruct (Act_ok s i w t a Hs Hi Hpc Hc Ha) as (s2 & E2 & Hs2). rewrite E in E2. by injection E2 as ->.
  - destruct (threads_ s !! i) as [w|] eqn:Hi; [rewrite (with_thread_set i _ w) by done; by apply inv_delayed_stop|].
    by rewrite with_thread_none.
  - by apply inv_interrupt.
  - destruct (env_armed _ _ (i_oneshot s Hs) He) as [Hk Hle]. by apply inv_kernel_less.
Qed.

Lemma inv_safe s : inv s -> ~ fails s.
Proof.
  intros Hs (i & w & Hi & [E|(Hpc & [Hc|(t & a & Hc & Ha & E)])]).
  - destruct (ThreadStep_ok s i w Hs Hi) as (s' & E' & _). congruence.
  - destruct (i_thread s Hs i w Hi) as (_ & _ & Hp). unfold pc_ok in Hp. rewrite Hpc in Hp.
    destruct Hp as (t & task & Hc' & _). congruence.
  - destruct (Act_ok s i w t a Hs Hi Hpc Hc Ha) as (s' & E' & _). congruence.
Qed.

(** ** The start *)

Lemma WorkerNew_ok i (l : list (@TaskTuple Func)) m :
  Forall (fun tup => task_ tup = None /\ is_Some (tuple_func_ tup)) l ->
  thread_ok i (WorkerNew l) m /\ (forall t, occ t (waiting_in (WorkerNew l)) = 0%nat) /\ current_in (WorkerNew l) = [].
Proof.
  intros Hl. unfold WorkerNew. set (w0 := MkWorker _ _ _ _ _).
  set (P := fun w => thread_ok i w m /\ (forall t, occ t (omap task_ (contents (local_task_queue_ w))) = 0%nat) /\
    exec_ w = exec_ w0 /\ pc w = PcLoop).
  assert (H1 : P w0).
  { destruct (RingNew_contents 10 (MkTuple None (@None Func)) ltac:(lia)) as [G1 G2]. unfold P, thread_ok.
    change (local_task_queue_ w0) with (RingNew (Z.to_nat (2 ^ 10)) (MkTuple None (@None Func))). rewrite G2. split_and!; try done. }
  assert (H2 : forall w, P w -> forall tup, task_ tup = None /\ is_Some (tuple_func_ tup) -> P (QueueTask tup w)).
  { intros w ((Hr & Ht & Hp) & Hz & He & Hpc) tup [Hn Hf].
    destruct (QueueTask_spec tup w Hr Ht (fun _ => Hf)) as (Q1 & Q2 & Q3). split; [split; [done|split; [done|done]]|]. split; [|done].
    intros t. specialize (Q3 t). specialize (Hz t). rewrite Hn in Q3. change (occ t (option_list None)) with 0%nat in Q3. lia. }
  assert (H3 : P (foldl (fun w tup => QueueTask tup w) w0 l)).
  { clearbody w0 P. revert w0 H1. induction Hl as [|tup l Htup _ IH]; intros w0 H1; [done|]. cbn. apply IH. by apply H2. }
  destruct H3 as (G1 & G2 & G3 & G4). split; [done|]. split.
  - intros t. unfold waiting_in, pc_tasks. by rewrite G4, occ_app, G2.
  - unfold current_in. by rewrite G3.
Qed.

Lemma Run_inv num_threads entrypoints srcs k :
  (forall p, 0 <= fd_ (srcs p)) -> oneshot k -> armed k = [] -> inv (Run num_threads (entrypoints : list Func) srcs k).
Proof.
  intros Hsrc Hone Harm.
  set (l0 := map (fun f => MkTuple None (Some f)) entrypoints).
  assert (Hl0 : Forall (fun tup => task_ tup = None /\ is_Some (tuple_func_ tup)) l0).
  { unfold l0. apply Forall_map, Forall_true. intros f. cbn. split; [done|by eexists]. }
  assert (Hall : forall i w, threads_ (Run num_threads entrypoints srcs k) !! i = Some w ->
    thread_ok i w empty /\ (forall t, occ t (waiting_in w) = 0%nat) /\ current_in w = []).
  { intros i w Hi. change (threads_ (Run num_threads entrypoints srcs k)) with
      (WorkerNew l0 :: replicate (pred num_threads) (WorkerNew [])) in Hi.
    destruct i as [|i]; [injection Hi as <-; by apply WorkerNew_ok|].
    apply lookup_replicate in Hi as [-> _]. by apply WorkerNew_ok. }
  assert (Hz : forall f : worker -> nat, (forall i w, threads_ (Run num_threads entrypoints srcs k) !! i = Some w -> f w = 0%nat) ->
    sum_list_with f (threads_ (Run num_threads entrypoints srcs k)) = 0%nat).
  { intros f Hf. destruct (decide (sum_list_with f (threads_ (Run num_threads entrypoints srcs k)) = 0%nat)) as [|Hn]; [done|].
    destruct (total_pos f (threads_ (Run num_threads entrypoints srcs k)) ltac:(lia)) as (i & v & Hi & Hp). rewrite (Hf i v Hi) in Hp. lia. }
  assert (Hw : forall t, waits t (Run num_threads entrypoints srcs k) = 0%nat).
  { intros t. unfold waits. rewrite Hz; [cbn; by rewrite Harm|]. intros i w Hi. by apply (Hall i w). }
  split.
  - intros t. rewrite Hw. unfold runs. rewrite Hz; [lia|]. intros i w Hi. destruct (Hall i w Hi) as (_ & _ & ->). done.
  - intros t. rewrite Hw. lia.
  - intros i w Hi. by apply Hall.
  - done.
  - done.
Qed.

(** The task whose memory the next step of a thread uses: the object of the
    task, or its stack, on which the source is that it waits for. *)
Definition touched w : option nat :=
  match pc w with
  | PcGot tup => task_ tup
  | PcRun | PcPost => current_task_ (exec_ w)
  | PcMark t _ => Some t
  | _ => None
  end.

Lemma touched_there s i w t :
  inv s -> threads_ s !! i = Some w -> touched w = Some t -> is_Some (tasks s !! t) \/ exists p, pc w = PcMark t p.
Proof.
  intros Hs Hi Ht. destruct (i_thread s Hs i w Hi) as (_ & _ & Hp). unfold touched in Ht.
  destruct (pc w) as [| | | |tup| | |u p| |] eqn:Hpc; try done.
  - left. destruct (i_wait s Hs t) as (task & E & _); [|by rewrite E]. unfold waits.
    pose proof (total_in (fun w => occ t (waiting_in w)) i w _ Hi) as Hle. cbv beta in Hle.
    unfold waiting_in in Hle at 1. unfold pc_tasks in Hle at 1. rewrite Hpc, Ht, occ_app in Hle.
    change (option_list (Some t)) with [t] in Hle. rewrite occ_here in Hle. lia.
  - left. by apply (pc_ok_current i w).
  - left. by apply (pc_ok_current i w).
  - right. injection Ht as <-. by exists p.
Qed.
End Safety.

(** * Properties *)

(** C28. The task system never runs a task twice at once: whatever the tasks
    do, however the threads and the kernel interleave, and whenever the manager
    is stopped, no assertion of the task code fails; a task is current on at
    most one thread, where it is executing, or waits in at most one place -- a
    queue, a thread's hand, a registered event -- where it is suspended, and
    never both; and no thread touches a deleted task, with one exception: a
    thread that has registered the event source of a task still has to write
    to that source, and the task may have ended by then
    ([late_write_to_deleted_task]).  The events must be waited for exactly
    once, as all callers do. *)
Theorem tasks_never_run_twice {Func K} {armed : K -> list nat} {oneshot : K -> Prop} `{EpollLaws K armed oneshot}
    num_threads (entrypoints : list Func) srcs k s :
  (forall p, 0 <= fd_ (srcs p)) -> oneshot k -> armed k = [] -> rtc step (Run num_threads entrypoints srcs k) s ->
  ~ fails s /\
  (forall t, waits (armed := armed) t s + runs t s <= 1)%nat /\
  (forall t, (0 < waits (armed := armed) t s)%nat -> exists task, tasks s !! t = Some task /\ state_ task = Suspended) /\
  (forall i w t, threads_ s !! i = Some w -> pc w = PcRun -> current_task_ (exec_ w) = Some t ->
     exists task, tasks s !! t = Some task /\ state_ task = Executing /\ thread_ task = Some i) /\
  (forall i w t, threads_ s !! i = Some w -> touched w = Some t -> is_Some (tasks s !! t) \/ exists p, pc w = PcMark t p).
Proof.
  intros Hsrc Hone Harm Hr.
  assert (Hs : inv (armed := armed) (oneshot := oneshot) s).
  { pose proof (Run_inv num_threads entrypoints srcs k Hsrc Hone Harm) as H1. generalize dependent (Run num_threads entrypoints srcs k).
    intros s0 Hr Hs0. induction Hr as [s0|s0 s2 s3 Hstep _ IH]; [done|]. apply IH. by apply (step_inv s0). }
  split; [by apply (inv_safe s)|]. split; [apply (i_once s Hs)|]. split; [apply (i_wait s Hs)|].
  split; [|intros i w t Hi Ht; by apply (touched_there s i w t Hs)].
  intros i w t Hi Hpc Hc. destruct (i_thread s Hs i w Hi) as (_ & _ & Hp). unfold pc_ok in Hp. rewrite Hpc in Hp.
  destruct Hp as (t' & task & Hc' & Hm & Hst & Hth & _). rewrite Hc in Hc'. injection Hc' as <-. by exists task.
Qed.

(** A kernel: the list of the registrations that can still fire.  A descriptor
    has at most one; a one-shot registration that fired is gone. *)
Definition DemoKernel : Type := list (Z * Z * option nat).
#[export] Instance DemoKernel_epoll : Epoll DemoKernel := {
  epoll_ctl k op fd mask h :=
    let k' := List.filter (fun r => negb (fst (fst r) =? fd)) k in
    (true, match op with CtlDel => k' | _ => (fd, mask, h) :: k' end);
  epoll_wait k evs k' := exists l1 fd mask h l2, k = l1 ++ (fd, mask, h) :: l2 /\ evs = [h] /\
    k' = if flag_set mask k_epolloneshot then l1 ++ l2 else k;
  epoll_env k k' := k' = k;
  event_write k := k
}.

Definition demo_armed (k : DemoKernel) : list nat := omap snd k.
Definition demo_oneshot (k : DemoKernel) : Prop := Forall (fun r => snd r = None \/ flag_set (snd (fst r)) k_epolloneshot = true) k.

Lemma demo_armed_cons t r k : occ t (demo_armed (r :: k)) = (occ t (option_list (snd r)) + occ t (demo_armed k))%nat.
Proof.
  unfold demo_armed. change (r :: k) with ([r] ++ k). rewrite omap_app, occ_app. by destruct r as [? [|]].
Qed.

Lemma demo_filter (f : Z * Z * option nat -> bool) k :
  demo_oneshot k -> demo_oneshot (List.filter f k) /\ forall t, (occ t (demo_armed (List.filter f k)) <= occ t (demo_armed k))%nat.
Proof.
  induction 1 as [|r k Hr _ [IH1 IH2]]; cbn [List.filter]; [split; [constructor|done]|]. destruct (f r).
  - split; [by constructor|]. intros t. rewrite !demo_armed_cons. specialize (IH2 t). lia.
  - split; [done|]. intros t. rewrite demo_armed_cons. specialize (IH2 t). lia.
Qed.

#[export] Instance DemoKernel_laws : EpollLaws DemoKernel demo_armed demo_oneshot.
Proof.
  split.
  - intros k op fd mask h b k' Hk Hm [= _ <-]. set (f := fun r : Z * Z * option nat => negb (fst (fst r) =? fd)).
    destruct (demo_filter f k Hk) as [H1 H2].
    assert (H3 : demo_oneshot ((fd, mask, h) :: List.filter f k)) by (constructor; [by right|done]).
    destruct op; (split; [done|]); intros t; specialize (H2 t); rewrite ?demo_armed_cons, occ_app; cbn [snd]; lia.
  - intros k fd mask b k' Hk [= _ <-]. by apply demo_filter.
  - intros k evs k' Hk (l1 & fd & mask & h & l2 & -> & -> & ->).
    assert (Happ : forall t l, occ t (demo_armed (l1 ++ l)) = (occ t (demo_armed l1) + occ t (demo_armed l))%nat).
    { intros t l. unfold demo_armed. by rewrite omap_app, occ_app. }
    assert (Hh : forall t, occ t (omap id [h]) = occ t (option_list h)) by by destruct h.
    apply Forall_app in Hk as [Hk1 Hk2]. inversion Hk2 as [|? ? Hr Hk2']; subst. cbn [snd fst] in Hr.
    destruct (flag_set mask k_epolloneshot).
    + split; [by apply Forall_app|]. intros t. rewrite !Happ, demo_armed_cons, Hh. cbn [snd]. lia.
    + destruct Hr as [->|?]; [|done]. split; [by apply Forall_app|]. intros t. rewrite Hh. done.
  - intros k k' Hk ->. done.
  - done.
Qed.

(** A scheduler for it: the first registration fires, a thread moves, a task acts. *)
Inductive Choice (Func : Type) := CWait (i : nat) | CThread (i : nat) | CAct (i : nat) (a : @Action Func).
Arguments CWait {Func}. Arguments CThread {Func}. Arguments CAct {Func}.

Definition drive1 {Func} (c : Choice Func) (s : @TaskManager Func DemoKernel) : option (@TaskManager Func DemoKernel) :=
  match c with
  | CWait i =>
      match threads_ s !! i, event_queue_ s with
      | Some w, (fd, mask, h) :: k =>
          match pc w with
          | PcWait =>
              Some (with_thread i (with_pc (PcEvents [h]))
                      (with_kernel (if flag_set mask k_epolloneshot then k else event_queue_ s) s))
          | _ => None
          end
      | _, _ => None
      end
  | CThread i => match threads_ s !! i with Some w => ThreadStep i w s | None => None end
  | CAct i a =>
      match threads_ s !! i with
      | Some w =>
          match pc w, current_task_ (exec_ w), action_ok a with
          | PcRun, Some t, true => Act i t a s
          | _, _, _ => None
          end
      | None => None
      end
  end.

Fixpoint drive {Func} (cs : list (Choice Func)) (s : @TaskManager Func DemoKernel) : option (@TaskManager Func DemoKernel) :=
  match cs with
  | [] => Some s
  | c :: cs' => match drive1 c s with Some s' => drive cs' s' | None => None end
  end.

Lemma drive1_step {Func} (c : Choice Func) s s' : drive1 c s = Some s' -> step s s'.
Proof.
  destruct c as [i|i|i a]; cbn [drive1]; destruct (threads_ s !! i) as [w|] eqn:Hi; try done.
  - destruct (event_queue_ s) as [|[[fd mask] h] k] eqn:Ek; [done|]. destruct (pc w) eqn:Hpc; try done. intros [= <-]. apply (step_wait s i w [h]); try done.
    rewrite Ek. by exists [], fd, mask, h, k.
  - intros E. by apply (step_thread s i w).
  - destruct (pc w) eqn:Hpc; try done. destruct (current_task_ (exec_ w)) as [t|] eqn:Hc; [|done].
    destruct (action_ok a) eqn:Ha; [|done]. intros E. by apply (step_act s i w t a).
Qed.

Lemma drive_steps {Func} (cs : list (Choice Func)) s s' : drive cs s = Some s' -> rtc step s s'.
Proof.
  revert s. induction cs as [|c cs IH]; intros s; cbn; [by intros [= ->]|].
  destruct (drive1 c s) as [s1|] eqn:E; [|done]. intros Hd. apply (rtc_l _ s s1); [by apply (drive1_step c)|by apply IH].
Qed.

(** Two threads: the first one's task starts another one and waits on the event
    source 3; the second thread takes the other task, which yields. *)
Definition demo_run : list (Choice string) :=
  [CThread 0; CWait 0; CThread 0; CThread 0; CThread 0; CThread 0; CAct 0 (AAsync "child"%string); CAct 0 (ASource 3 7);
   CAct 0 (AWait 3 (Z.lor FlagRead FlagExactlyOnce)); CThread 1; CWait 1; CThread 1; CThread 1; CThread 0; CThread 1; CThread 1; CThread 1; CThread 1;
   CAct 1 AYield; CThread 1].
Definition demo_start : @TaskManager string DemoKernel := Run 2 ["main"%string] (fun _ => MkSource 0 false) [(5, FlagRead, None)].

Lemma tasks_never_run_twice_witness :
  exists s, drive demo_run demo_start = Some s /\ ~ fails s /\
    waits (armed := demo_armed) 0 s = 1%nat /\ waits (armed := demo_armed) 1 s = 1%nat.
Proof.
  assert (G : option_map (fun s => (waits (armed := demo_armed) 0 s, waits (armed := demo_armed) 1 s)) (drive demo_run demo_start)
    = Some (1%nat, 1%nat)) by (vm_compute; reflexivity).
  destruct (drive demo_run demo_start) as [s|] eqn:E; [|discriminate G]. injection G as G1 G2.
  destruct (tasks_never_run_twice 2 ["main"%string] (fun _ => MkSource 0 false) [(5, FlagRead, None)] s
    (armed := demo_armed) (oneshot := demo_oneshot)) as [H _].
  - intros p. cbn. lia.
  - constructor; [by left|constructor].
  - reflexivity.
  - apply (drive_steps demo_run). exact E.
  - exists s. repeat split; assumption.
Defined.

(** The exception: the task of the first thread waits on the source 3, and the
    thread is between the registration and its write to the source when the
    event fires and the second thread takes the task up. *)
Definition late_write_start : list (Choice string) :=
  [CThread 0; CWait 0; CThread 0; CThread 0; CThread 0; CThread 0; CAct 0 (ASource 3 7);
   CAct 0 (AWait 3 (Z.lor FlagRead FlagExactlyOnce)); CThread 0;
   CThread 1; CWait 1; CThread 1; CThread 1; CThread 1; CThread 1].

(** If the task returns there, it is deleted with its stack, and the write goes
    to memory that is free or used by others. *)
Lemma late_write_to_deleted_task :
  exists s, rtc step demo_start s /\ option_map pc (threads_ s !! 0%nat) = Some (PcMark 0 3) /\ tasks s !! 0%nat = None.
Proof.
  assert (G : option_map (fun s => (option_map pc (threads_ s !! 0%nat), tasks s !! 0%nat))
      (drive (late_write_start ++ [CAct 1 AReturn; CThread 1]) demo_start) = Some (Some (PcMark 0 3), None)) by (vm_compute; reflexivity).
  destruct (drive _ demo_start) as [s|] eqn:E; [|discriminate G]. injection G as G1 G2. exists s.
  split; [exact (drive_steps _ _ _ E)|]. by split.
Qed.

(** If the task waits on the source again, the flag is not set yet: the second
    thread is about to add a descriptor that the kernel already has, which it
    refuses, so that the task is never woken. *)
Lemma late_write_loses_the_event :
  exists s w, rtc step demo_start s /\ option_map pc (threads_ s !! 0%nat) = Some (PcMark 0 3) /\
    threads_ s !! 1%nat = Some w /\ pc w = PcPost /\ has_pending_event_ (exec_ w) = true /\ pending_event_ (exec_ w) = Some 3%nat /\
    sources s 3 = MkSource 7 false.
Proof.
  assert (G : option_map (fun s => (option_map pc (threads_ s !! 0%nat), sources s 3%nat,
        option_map (fun w => (pc w, has_pending_event_ (exec_ w), pending_event_ (exec_ w))) (threads_ s !! 1%nat)))
      (drive (late_write_start ++ [CAct 1 (AWait 3 (Z.lor FlagRead FlagExactlyOnce))]) demo_start) =
    Some (Some (PcMark 0 3), MkSource 7 false, Some (PcPost, true, Some 3%nat))) by (vm_compute; reflexivity).
  destruct (drive _ demo_start) as [s|] eqn:E; [|discriminate G]. destruct (threads_ s !! 1%nat) as [w|] eqn:Hw.
  - cbn [option_map] in G. rewrite Hw in G. cbn [option_map] in G. injection G as G1 G2 G3 G4 G5. exists s, w.
    split; [exact (drive_steps _ _ _ E)|]. by split_and!.
  - cbn [option_map] in G. rewrite Hw in G. discriminate G.
Qed.
