(* ===== verification/TaskStop.v ===== *)
(** Shutting down the task system: [StopInternal] is a barrier, and it is
    passed. *)
From S2P Require Import Prelude Containers Task TaskSafe.
Local Open Scope Z_scope.

Section Shutdown.
  Context {Func K : Type} {armed : K -> list nat} {oneshot : K -> Prop} `{EpollLaws K armed oneshot}.
  Abbreviation state := (@TaskManager Func K).
  Abbreviation worker := (@WorkerThread Func).

(** Whether each thread has finished, and where it is. *)
Definition view (w : worker) : bool * @Pc Func := (finished_ w, pc w).
Definition views (s : state) : list (bool * @Pc Func) := view <$> threads_ s.

Definition stopping (p : @Pc Func) : bool := match p with PcStop _ _ | PcDone => true | _ => false end.

(** The scan of [StopInternal] after looking at a thread. *)
Definition scanned (x : option (bool * @Pc Func)) (j n : nat) : @Pc Func :=
  match x with Some (true, _) => PcStop (S j) n | _ => PcStop (S j) (S n) end.

(** What a step can do to the views. *)
Inductive view_step : list (bool * @Pc Func) -> list (bool * @Pc Func) -> Prop :=
| view_same l : view_step l l
| view_move l (i : nat) (f : bool) p p' : l !! i = Some (f, p) -> stopping p = false -> stopping p' = false -> view_step l (<[i := (f, p')]> l)
| view_leave l (i : nat) (f : bool) : l !! i = Some (f, PcLoop) -> view_step l (<[i := (true, PcStop 0 0)]> l)
| view_scan l (i j n : nat) (f : bool) p' : l !! i = Some (f, PcStop j n) -> is_Some (l !! j) ->
    p' = scanned (l !! j) j n ->
    view_step l (<[i := (f, p')]> l)
| view_end l (i j n : nat) (f : bool) : l !! i = Some (f, PcStop j n) -> l !! j = None ->
    view_step l (<[i := (f, match n with O => PcDone | S _ => PcStop 0 0 end)]> l).

Lemma views_with_thread i g (s : state) w :
  threads_ s !! i = Some w -> views (with_thread i g s) = <[i := view (g w)]> (views s).
Proof.
  intros Hi. unfold views. rewrite (with_thread_set i g w) by done. unfold set_thread. cbn [threads_].
  by rewrite list_fmap_insert.
Qed.

Lemma views_lookup (s : state) i w : threads_ s !! i = Some w -> views s !! i = Some (view w).
Proof. intros Hi. unfold views. by rewrite list_lookup_fmap, Hi. Qed.

Lemma views_keep i g (s : state) : (forall w, view (g w) = view w) -> views (with_thread i g s) = views s.
Proof.
  intros Hg. destruct (threads_ s !! i) as [w|] eqn:Hi.
  - rewrite (views_with_thread i g s w Hi), Hg. apply list_insert_id. by apply views_lookup.
  - unfold views, with_thread. cbn [threads_]. f_equal. apply list_eq. intros j.
    destruct (decide (j = i)) as [->|]; [rewrite list_lookup_alter_eq, Hi; done|by rewrite list_lookup_alter_ne].
Qed.

(** A thread outside the shutdown moves on, after changes that do not show. *)
Lemma views_moved i g (s s0 : state) w f p :
  views s0 = views s -> threads_ s !! i = Some w -> view w = (f, p) -> stopping p = false ->
  (forall w0, view w0 = view w -> exists p', view (g w0) = (f, p') /\ stopping p' = false) ->
  view_step (views s) (views (with_thread i g s0)).
Proof.
  intros Hv Hi Hw Hp Hg. pose proof (views_lookup s i w Hi) as Hl. rewrite <- Hv in Hl.
  unfold views in Hl. rewrite list_lookup_fmap in Hl. destruct (threads_ s0 !! i) as [w0|] eqn:Hi0; [|done].
  assert (Hl' : view w0 = view w) by (injection Hl as E1 E2; unfold view; congruence). destruct (Hg w0 Hl') as (p' & E & Hp'). rewrite (views_with_thread i g s0 w0 Hi0), E, Hv.
  apply (view_move _ i f p p'); [|done|done]. rewrite (views_lookup s i w Hi). by f_equal.
Qed.

Lemma SuspendCurrent_views i g (s s' : state) w f :
  threads_ s !! i = Some w -> view w = (f, PcRun) -> (forall w, view (g w) = view w) ->
  SuspendCurrent i (with_thread i g s) = Some s' -> view_step (views s) (views s').
Proof.
  intros Hi Hw Hg. unfold SuspendCurrent. destruct (threads_ (with_thread i g s) !! i) as [w1|]; [|done].
  destruct (current_task_ _) as [t|]; [|done]. destruct (tasks _ !! t) as [task|]; [|done].
  destruct (TaskSuspend task) as [task'|]; [|done]. intros [= <-].
  apply (views_moved i _ s _ w f PcRun); try done; [exact (views_keep i g s Hg)|].
  intros w0 Hw0. rewrite Hw in Hw0. injection Hw0 as Hf _. exists PcPost. unfold view, with_pc. cbn. by rewrite Hf.
Qed.

Lemma Act_views i t a (s s' : state) w :
  inv (armed := armed) (oneshot := oneshot) s -> threads_ s !! i = Some w -> pc w = PcRun -> current_task_ (exec_ w) = Some t ->
  Act i t a s = Some s' -> view_step (views s) (views s').
Proof.
  intros Hs Hi Hpc Hc. destruct (i_thread s Hs i w Hi) as (_ & _ & Hp). unfold pc_ok in Hp. rewrite Hpc in Hp.
  destruct Hp as (t' & task & Hc' & Hm & _ & Hth & _). rewrite Hc in Hc'. injection Hc' as <-.
  unfold Act. rewrite Hm, Hth. assert (Hw : view w = (finished_ w, PcRun)) by (unfold view; by rewrite Hpc).
  destruct a as [fn|p flags| | | |p fd|p].
  - intros [= <-]. change (views (PerformAsync i fn s)) with (views (with_thread i (QueueTask (MkTuple None (Some fn))) s)).
    rewrite views_keep by done. constructor.
  - by apply (SuspendCurrent_views i _ s s' w (finished_ w)).
  - by apply (SuspendCurrent_views i _ s s' w (finished_ w)).
  - by apply (SuspendCurrent_views i _ s s' w (finished_ w)).
  - intros [= <-]. apply (views_moved i _ s s w (finished_ w) PcRun); try done.
    intros w0 Hw0. rewrite Hw in Hw0. injection Hw0 as Hf _. exists PcPost. unfold view, with_pc. cbn. by rewrite Hf.
  - intros [= <-]. constructor.
  - unfold RemoveEvent. destruct (_ <? 0); [done|]. destruct (epoll_ctl _ _ _ _ _). intros [= <-]. constructor.
Qed.

Lemma PostTask_views i t (s s' : state) w :
  threads_ s !! i = Some w -> pc w = PcPost -> PostTask i t w s = Some s' -> view_step (views s) (views s').
Proof.
  intros Hi Hpc.
  assert (Hmove : forall (s0 : state) g p', views s0 = views s -> (forall w0, view (g w0) = (finished_ w0, p')) -> stopping p' = false ->
    view_step (views s) (views (with_thread i g s0))).
  { intros s0 g p' Hv Hg Hp'. apply (views_moved i g s s0 w (finished_ w) PcPost); try done; [by unfold view; rewrite Hpc|].
    intros w0 Hw0. exists p'. rewrite Hg. split; [|done]. by injection Hw0 as -> _. }
  unfold PostTask. destruct (has_pending_event_ _).
  - destruct (tasks s !! t) as [task|]; [|done]. destruct (pending_event_ _) as [p|]; [|done].
    destruct (state_ task); try done. unfold AddEvent. destruct (_ <? 0); [done|]. destruct (epoll_ctl _ _ _ _ _) as [b k].
    intros [= <-]. destruct (negb _); [by apply (Hmove (with_kernel k s) _ (PcMark t p))|by apply (Hmove (with_kernel k s) _ (PcDeque 0))].
  - destruct (yield_ _); intros [= <-]; [by apply (Hmove s _ (PcDeque 0))|by apply (Hmove (DestroyTask t s) _ (PcDeque 0))].
Qed.

Lemma StopStep_views i j n (s s' : state) w :
  threads_ s !! i = Some w -> pc w = PcStop j n -> ThreadStep i w s = Some s' -> view_step (views s) (views s').
Proof.
  intros Hi Hpc. assert (Hw : view w = (finished_ w, PcStop j n)) by (unfold view; by rewrite Hpc).
  unfold ThreadStep. rewrite Hpc.
  pose proof (views_lookup s i w Hi) as Hl. rewrite Hw in Hl.
  destruct (threads_ s !! j) as [other|] eqn:Ej.
  - pose proof (views_lookup s j other Ej) as Hlj.
    destruct (finished_ other) eqn:Ef; intros [= <-].
    + rewrite (views_with_thread i _ s w Hi). apply (view_scan _ i j n (finished_ w)); [done|by eexists|].
      rewrite Hlj. unfold view, scanned. by rewrite Ef.
    + assert (Hv : views (with_thread j DelayedStop s) = views s) by by apply views_keep.
      assert (Hi' : exists w1, threads_ (with_thread j DelayedStop s) !! i = Some w1 /\ view w1 = view w).
      { rewrite <- Hv in Hl. unfold views in Hl. rewrite list_lookup_fmap in Hl.
        destruct (threads_ (with_thread j DelayedStop s) !! i) as [w1|]; [|done]. exists w1. split; [done|].
        injection Hl as E1 E2. unfold view. by rewrite E1, E2, Hpc. }
      destruct Hi' as (w1 & Hi1 & Hw1). rewrite (views_with_thread i _ _ w1 Hi1), Hv.
      assert (Hv1 : view (with_pc (PcStop (S j) (S n)) w1) = (finished_ w, PcStop (S j) (S n))).
      { unfold view in Hw1. injection Hw1 as E1 _. unfold view, with_pc. cbn. by rewrite E1. }
      rewrite Hv1. apply (view_scan _ i j n (finished_ w)); [done|by eexists|]. rewrite Hlj. unfold view, scanned. by rewrite Ef.
  - intros [= <-]. assert (Hii : threads_ (InterruptAll s) !! i = Some w) by done.
    rewrite (views_with_thread i _ _ w Hii). change (views (InterruptAll s)) with (views s). apply (view_end _ i j n (finished_ w)); [done|].
    unfold views. by rewrite list_lookup_fmap, Ej.
Qed.

Lemma ThreadStep_views i (s s' : state) w :
  threads_ s !! i = Some w -> ThreadStep i w s = Some s' -> view_step (views s) (views s').
Proof.
  intros Hi. assert (Hw : view w = (finished_ w, pc w)) by done. unfold ThreadStep.
  assert (Hmove : forall (s0 : state) g p', views s0 = views s -> stopping (pc w) = false ->
    (forall w0, view (g w0) = (finished_ w0, p')) -> stopping p' = false -> view_step (views s) (views (with_thread i g s0))).
  { intros s0 g p' Hv Hp Hg Hp'. apply (views_moved i g s s0 w (finished_ w) (pc w)); try done.
    intros w0 Hw0. exists p'. rewrite Hg. split; [|done]. by injection Hw0 as -> _. }
  destruct (pc w) as [| |[|[t|] l]|j|tup| | |t p|j n|] eqn:Hpc.
  - destruct (running_ w); intros [= <-]; [by apply (Hmove s _ PcWait)|]. rewrite (views_with_thread i _ s w Hi). cbn.
    apply (view_leave _ i (finished_ w)). by rewrite (views_lookup s i w Hi), Hw.
  - intros [= <-]. constructor.
  - intros [= <-]. by apply (Hmove s _ (PcDeque 0)).
  - intros [= <-]. by apply (Hmove s _ (PcEvents l)).
  - intros [= <-]. by apply (Hmove s _ (PcEvents l)).
  - unfold DequeStep. destruct (_ <? j)%nat; [intros [= <-]; by apply (Hmove s _ PcLoop)|].
    destruct (threads_ s !! DequeVictim _ _ _) as [v|]; [|done]. destruct (Pop (local_task_queue_ v)) as [[tup|] q]; intros [= <-].
    + apply (Hmove _ _ (PcGot tup)); try done. by apply views_keep.
    + by apply (Hmove s _ (PcDeque (S j))).
  - unfold StartTask. destruct (match task_ tup with None => _ | _ => _ end) as [t s1] eqn:E1.
    assert (Hv1 : views s1 = views s) by (destruct (task_ tup); [by injection E1 as _ <-|unfold CreateTask in E1; by injection E1 as _ <-]).
    destruct (tasks s1 !! t) as [task|]; [|done]. destruct (PreTask _ _) as [e|]; [|done].
    destruct (match state_ task with NotStarted => _ | _ => _ end) as [task'|]; [|done]. intros [= <-].
    by apply (Hmove _ _ PcRun).
  - intros [= <-]. constructor.
  - destruct (current_task_ _) as [t|]; [|done]. by apply (PostTask_views i t s s' w).
  - intros [= <-]. by apply (Hmove (MarkAdded p s) _ (PcDeque 0)).
  - pose proof (StopStep_views i j n s s' w Hi Hpc) as Hstop. unfold ThreadStep in Hstop. by rewrite Hpc in Hstop.
  - intros [= <-]. constructor.
Qed.

Lemma step_views (s s' : state) : inv (armed := armed) (oneshot := oneshot) s -> step s s' -> view_step (views s) (views s').
Proof.
  intros Hs Hstep. destruct Hstep as [s i w evs k' Hi Hpc Hw|s i w s' Hi E|s i w t a s' Hi Hpc Hc Ha E|s i|s|s k' He].
  - apply (views_moved i _ s (with_kernel k' s) w (finished_ w) PcWait); try done; [by unfold view; rewrite Hpc|].
    intros w0 Hw0. exists (PcEvents evs). split; [|done]. by injection Hw0 as <- _.
  - by apply (ThreadStep_views i s s' w).
  - by apply (Act_views i t a s s' w).
  - rewrite views_keep by done. constructor.
  - constructor.
  - constructor.
Qed.

(** ** The barrier *)

Record stop_ok (l : list (bool * @Pc Func)) : Prop := {
  st_finished : forall (i : nat) f p, l !! i = Some (f, p) -> f = stopping p;
  st_scanned : forall (i : nat) f j, l !! i = Some (f, PcStop j 0) -> forall k : nat, (k < j)%nat -> exists p, l !! k = Some (true, p);
  st_done : forall (i : nat) f, l !! i = Some (f, PcDone) -> forall (k : nat) f' p, l !! k = Some (f', p) -> f' = true
}.

(** Finished threads stay finished. *)
Lemma stop_ok_insert l (i : nat) f p p' :
  stop_ok l -> l !! i = Some (f, p) -> (stopping p = true -> stopping p' = true) ->
  (forall j, p' = PcStop j 0 -> forall k : nat, (k < j)%nat -> exists q, l !! k = Some (true, q)) ->
  (p' = PcDone -> forall (k : nat) f' q, l !! k = Some (f', q) -> f' = true) ->
  stop_ok (<[i := (stopping p', p')]> l).
Proof.
  intros [H1 H2 H3] Hi Hst Hscan Hdone.
  assert (Hf : f = stopping p) by by apply (H1 i).
  assert (Hlen : (i < length l)%nat) by by apply lookup_lt_Some in Hi.
  assert (Hkeep : forall k q, l !! k = Some (true, q) -> exists q', <[i := (stopping p', p')]> l !! k = Some (true, q')).
  { intros k q Hk. destruct (decide (k = i)) as [->|Hne].
    - rewrite list_lookup_insert_eq by done. exists p'. rewrite Hi in Hk. injection Hk as -> ->. by rewrite Hst.
    - exists q. by rewrite list_lookup_insert_ne. }
  split.
  - intros k fk q Hk. apply list_lookup_insert_Some in Hk as [(<- & [= <- <-] & _)|[_ Hk]]; [done|by apply (H1 k)].
  - intros k fk j Hk m Hm. apply list_lookup_insert_Some in Hk as [(<- & [= <- ->] & _)|[_ Hk]].
    + destruct (Hscan j eq_refl m Hm) as [q Hq]. by apply (Hkeep m q).
    + destruct (H2 k fk j Hk m Hm) as [q Hq]. by apply (Hkeep m q).
  - intros k fk Hk m fm q Hm.
    assert (Hall : (forall a fa qa, l !! a = Some (fa, qa) -> fa = true)).
    { apply list_lookup_insert_Some in Hk as [(<- & [= <- ->] & _)|[_ Hk]]; [by apply Hdone|by apply (H3 k fk)]. }
    apply list_lookup_insert_Some in Hm as [(<- & [= <- <-] & _)|[_ Hm]]; [|by apply (Hall m fm q)].
    apply Hst. rewrite <- Hf. by apply (Hall i f p).
Qed.

Lemma view_step_ok l l' : view_step l l' -> stop_ok l -> stop_ok l'.
Proof.
  intros Hstep Hs. destruct Hstep as [l|l i f p p' Hi Hp Hp'|l i f Hi|l i j n f p' Hi Hj ->|l i j n f Hi Hj]; [done| | | |];
    pose proof (st_finished l Hs i _ _ Hi) as Hf; cbn in Hf; subst f.
  - replace (stopping p) with (stopping p') by congruence. apply (stop_ok_insert l i (stopping p) p); try done; [congruence| |];
      intros; subst p'; done.
  - change (true, PcStop 0 0) with (stopping (PcStop 0 0), @PcStop Func 0 0).
    apply (stop_ok_insert l i false PcLoop); try done. intros j [= <-] k Hk. lia.
  - set (p' := scanned (l !! j) j n).
    assert (Hp' : stopping p' = true) by (unfold p', scanned; by destruct (l !! j) as [[[] ?]|]).
    change (stopping (PcStop j n)) with true. rewrite <- Hp'. apply (stop_ok_insert l i true (PcStop j n)); try done.
    + intros j' Ej k Hk. unfold p', scanned in Ej. destruct (l !! j) as [[[] q]|] eqn:El; try done. injection Ej as <- ->.
      destruct (decide (k = j)) as [->|Hne]; [by exists q|]. apply (st_scanned l Hs i _ j Hi). lia.
    + unfold p', scanned. by destruct (l !! j) as [[[] ?]|].
  - set (p' := match n with O => PcDone | S _ => PcStop 0 0 end : @Pc Func).
    assert (Hp' : stopping p' = true) by (unfold p'; by destruct n). change (stopping (PcStop j n)) with true. rewrite <- Hp'.
    apply (stop_ok_insert l i true (PcStop j n)); try done.
    + intros j' Ej k Hk. unfold p' in Ej. destruct n; [done|]. injection Ej as <-. lia.
    + intros Ed k f' q Hk. unfold p' in Ed. destruct n; [|done].
      destruct (st_scanned l Hs i _ j Hi k) as [q' Hq].
      * apply lookup_lt_Some in Hk. apply lookup_ge_None in Hj. lia.
      * rewrite Hk in Hq. by injection Hq as -> _.
Qed.

Lemma Run_stop_ok num_threads (entrypoints : list Func) srcs (k : K) : stop_ok (views (Run num_threads entrypoints srcs k)).
Proof.
  assert (Hall : forall i f p, views (Run num_threads entrypoints srcs k) !! i = Some (f, p) -> f = false /\ p = PcLoop).
  { intros i f p Hi. assert (Hnew : forall l : list (@TaskTuple Func), view (WorkerNew l) = (false, PcLoop)).
    { intros l. unfold WorkerNew. set (w0 := MkWorker _ _ _ _ _). assert (H1 : view w0 = (false, PcLoop)) by done.
      clearbody w0. revert w0 H1. induction l as [|x l IH]; intros w0 H1; [done|]. cbn. by apply IH. }
    unfold views in Hi. rewrite list_lookup_fmap in Hi. apply fmap_Some in Hi as (w & Hi & E).
    change (threads_ (Run num_threads entrypoints srcs k)) with
      (WorkerNew (map (fun f => MkTuple None (Some f)) entrypoints) :: replicate (pred num_threads) (@WorkerNew Func [])) in Hi.
    destruct i as [|i]; [injection Hi as <-|apply lookup_replicate in Hi as [-> _]]; rewrite Hnew in E; by injection E as -> ->. }
  split.
  - intros i f p Hi. by destruct (Hall i f p Hi) as [-> ->].
  - intros i f j Hi. by destruct (Hall i f _ Hi).
  - intros i f Hi. by destruct (Hall i f _ Hi).
Qed.

Lemma reachable_ok num_threads (entrypoints : list Func) srcs (k : K) s :
  (forall p, 0 <= fd_ (srcs p)) -> oneshot k -> armed k = [] -> rtc step (Run num_threads entrypoints srcs k) s ->
  inv (armed := armed) (oneshot := oneshot) s /\ stop_ok (views s).
Proof.
  intros Hsrc Hone Harm Hr. pose proof (Run_inv num_threads entrypoints srcs k Hsrc Hone Harm) as H1.
  pose proof (Run_stop_ok num_threads entrypoints srcs k) as H2.
  induction Hr as [s0|s0 s1 s2 Hstep _ IH]; [done|]. apply IH; [by apply (step_inv s0)|].
  apply (view_step_ok (views s0)); [by apply step_views|done].
Qed.

(** ** The way through the barrier *)

Definition all_stopping (l : list (bool * @Pc Func)) : Prop := forall (i : nat) f p, l !! i = Some (f, p) -> stopping p = true.

(** Steps a thread of [n] has left in [StopInternal] once all have finished: to
    the end of its scan, and another one if it has counted somebody. *)
Definition work (n : nat) (p : @Pc Func) : nat :=
  match p with PcStop j O => 1 + (n - j) | PcStop j (S _) => n + 2 + (n - j) | _ => 0 end.

Lemma work_scanned n j c : (j < n)%nat -> (work n (PcStop (S j) c) < work n (PcStop j c))%nat.
Proof. intros Hj. destruct c; cbn [work]; lia. Qed.

Lemma work_end n j c : (work n (match c with O => PcDone | S _ => PcStop 0 0 end) < work n (PcStop j c))%nat.
Proof. destruct c; cbn [work]; lia. Qed.

(** Nobody's work grows, whoever steps. *)
Lemma view_step_work l l' :
  view_step l l' -> stop_ok l -> all_stopping l ->
  length l' = length l /\ all_stopping l' /\
  forall (i : nat) f p f' p', l !! i = Some (f, p) -> l' !! i = Some (f', p') -> (work (length l) p' <= work (length l) p)%nat.
Proof.
  intros Hstep Hok Hall.
  assert (Hset : forall (i : nat) f p f' p', l !! i = Some (f, p) -> stopping p' = true ->
    (work (length l) p' < work (length l) p)%nat -> l' = <[i := (f', p')]> l ->
    length l' = length l /\ all_stopping l' /\
    forall (k : nat) g q g' q', l !! k = Some (g, q) -> l' !! k = Some (g', q') -> (work (length l) q' <= work (length l) q)%nat).
  { intros i f p f' p' Hi Hp' Hw ->. split; [by apply length_insert|]. split.
    - intros k g q Hk. apply list_lookup_insert_Some in Hk as [(<- & [= <- <-] & _)|[_ Hk]]; [done|by apply (Hall k g)].
    - intros k g q g' q' Hk Hk'. apply list_lookup_insert_Some in Hk' as [(<- & [= <- <-] & _)|[_ Hk']].
      + rewrite Hi in Hk. injection Hk as <- <-. lia.
      + rewrite Hk in Hk'. by injection Hk' as <- <-. }
  destruct Hstep as [l|l i f p p' Hi Hp Hp'|l i f Hi|l i j n f p' Hi [[fj pj] Hj] ->|l i j n f Hi Hj].
  - split; [done|]. split; [done|]. intros i f p f' p' E1 E2. rewrite E1 in E2. by injection E2 as <- <-.
  - pose proof (Hall i f p Hi). congruence.
  - by pose proof (Hall i f _ Hi).
  - apply (Hset i f (PcStop j n) f (scanned (l !! j) j n) Hi); [|rewrite Hj; cbn|done].
    + rewrite Hj. by destruct fj.
    + pose proof (st_finished l Hok j _ _ Hj) as Hf. rewrite (Hall j _ _ Hj) in Hf. subst fj.
      apply work_scanned. by apply lookup_lt_Some in Hj.
  - apply (Hset i f (PcStop j n) f (match n with O => PcDone | S _ => PcStop 0 0 end) Hi); [by destruct n|apply work_end|done].
Qed.

(** The thread's own step brings it nearer to the end. *)
Lemma own_step_work i (s s' : state) w :
  threads_ s !! i = Some w -> ThreadStep i w s = Some s' -> stop_ok (views s) -> all_stopping (views s) -> pc w <> PcDone ->
  exists w', threads_ s' !! i = Some w' /\
    (work (length (threads_ s)) (pc w') < work (length (threads_ s)) (pc w))%nat.
Proof.
  intros Hi E Hok Hall Hd. pose proof (views_lookup s i w Hi) as Hl. pose proof (Hall i _ _ Hl) as Hst.
  unfold ThreadStep in E. destruct (pc w) as [| | | | | | | |j n|]; try done.
  destruct (threads_ s !! j) as [other|] eqn:Ej.
  - pose proof (views_lookup s j other Ej) as Hlj. pose proof (st_finished _ Hok j _ _ Hlj) as Hf.
    rewrite (Hall j _ _ Hlj) in Hf. rewrite Hf in E. injection E as <-.
    rewrite (with_thread_set i _ w) by done. eexists. split; [by apply (set_thread_lookup i _ w)|]. cbn [pc with_pc].
    apply work_scanned. by apply lookup_lt_Some in Ej.
  - injection E as <-. assert (Hi' : threads_ (InterruptAll s) !! i = Some w) by done.
    rewrite (with_thread_set i _ w) by done. eexists. split; [by apply (set_thread_lookup i _ w)|]. cbn [pc with_pc]. apply work_end.
Qed.
(** ** An infinite run *)

Section Run.
  Context (run : nat -> state) (m : nat).
  Hypothesis (Hstep : forall t, step (run t) (run (S t))).
  Hypothesis (Hok : forall t, inv (armed := armed) (oneshot := oneshot) (run t) /\ stop_ok (views (run t))).
  Hypothesis (Hstop : forall j v, threads_ (run m) !! j = Some v -> stopping (pc v) = true).
Let n := length (views (run m)).

Lemma run_length t : length (views (run t)) = length (threads_ (run t)).
Proof. apply length_fmap. Qed.

(** From [m] on everybody is in [StopInternal]. *)
Lemma run_stopping d : all_stopping (views (run (m + d))) /\ length (views (run (m + d))) = n.
Proof.
  induction d as [|d [IH1 IH2]].
  - rewrite Nat.add_0_r. split; [|done]. intros j f p Hj. unfold views in Hj. rewrite list_lookup_fmap in Hj.
    apply fmap_Some in Hj as (v & Hj & E). injection E as _ ->. by apply (Hstop j v).
  - rewrite Nat.add_succ_r. destruct (Hok (m + d)%nat) as [Hi1 Hi2].
    destruct (view_step_work _ _ (step_views _ _ Hi1 (Hstep (m + d)%nat)) Hi2 IH1) as (E1 & E2 & _). split; [done|by rewrite E1].
Qed.

Lemma run_work i d d' w :
  (d <= d')%nat -> threads_ (run (m + d)) !! i = Some w ->
  exists w', threads_ (run (m + d')) !! i = Some w' /\ (work n (pc w') <= work n (pc w))%nat.
Proof.
  intros Hd Hw. induction Hd as [|d' Hd (w' & Hw' & Hle)]; [by exists w|].
  destruct (run_stopping d') as [Ha En]. destruct (run_stopping (S d')) as [_ En']. destruct (Hok (m + d')%nat) as [Hi1 Hi2].
  destruct (view_step_work _ _ (step_views _ _ Hi1 (Hstep (m + d')%nat)) Hi2 Ha) as (_ & _ & Hwk).
  rewrite Nat.add_succ_r in *. destruct (lookup_lt_is_Some_2 (threads_ (run (S (m + d')))) i) as [w2 Hw2].
  { apply lookup_lt_Some in Hw'. rewrite <- run_length, En'. rewrite <- run_length, En in Hw'. done. }
  exists w2. split; [done|]. rewrite En in Hwk.
  specialize (Hwk i _ _ _ _ (views_lookup _ i w' Hw') (views_lookup _ i w2 Hw2)). lia.
Qed.

Lemma run_done i d w : threads_ (run (m + d)) !! i = Some w -> work n (pc w) = 0%nat -> pc w = PcDone.
Proof.
  intros Hw Hz. destruct (run_stopping d) as [Ha _]. specialize (Ha i _ _ (views_lookup _ i w Hw)).
  destruct (pc w) as [| | | | | | | |j c|]; try done. destruct c; cbn in Hz; lia.
Qed.

(** A thread that is scheduled again and again. *)
Lemma run_ends i z d w :
  (forall t, exists t' w, (t <= t')%nat /\ threads_ (run t') !! i = Some w /\ ThreadStep i w (run t') = Some (run (S t'))) ->
  (work n (pc w) <= z)%nat -> threads_ (run (m + d)) !! i = Some w ->
  exists d w, threads_ (run (m + d)) !! i = Some w /\ work n (pc w) = 0%nat.
Proof.
  intros Hfair. revert d w. induction z as [|z IH]; intros d w Hle Hw; [exists d, w; split; [done|lia]|].
  destruct (Hfair (m + d)%nat) as (t' & w1 & Ht & Hw1 & Es).
  replace t' with (m + (t' - m))%nat in * by lia. set (d1 := (t' - m)%nat) in *.
  destruct (run_work i d d1 w ltac:(lia) Hw) as (w1' & Hw1' & Hle1). rewrite Hw1 in Hw1'. injection Hw1' as <-.
  destruct (decide (work n (pc w1) = 0%nat)) as [|Hnz]; [by exists d1, w1|].
  destruct (run_stopping d1) as [Ha En]. destruct (Hok (m + d1)%nat) as [_ Hi2].
  destruct (own_step_work i _ _ w1 Hw1 Es Hi2 Ha) as (w2 & Hw2 & Hlt); [intros E; by rewrite E in Hnz|].
  rewrite <- run_length, En in Hlt. apply (IH (S d1) w2); [lia|]. by rewrite Nat.add_succ_r.
Qed.
End Run.
End Shutdown.

(** * Properties *)

(** C30. [StopInternal] is a barrier: when any thread has passed it, every
    thread has left its loop for good -- it has finished, is itself in or past
    [StopInternal], and has no current task -- so that what the threads shared
    can be taken down. *)
Theorem stop_is_a_barrier {Func K} {armed : K -> list nat} {oneshot : K -> Prop} `{EpollLaws K armed oneshot}
    num_threads (entrypoints : list Func) srcs k s i w :
  (forall p, 0 <= fd_ (srcs p)) -> oneshot k -> armed k = [] -> rtc step (Run num_threads entrypoints srcs k) s ->
  threads_ s !! i = Some w -> pc w = PcDone ->
  forall j v, threads_ s !! j = Some v -> finished_ v = true /\ stopping (pc v) = true /\ current_task_ (exec_ v) = None.
Proof.
  intros Hsrc Hone Harm Hr Hi Hpc j v Hj.
  destruct (reachable_ok num_threads entrypoints srcs k s Hsrc Hone Harm Hr) as [Hs Hok].
  pose proof (views_lookup s i w Hi) as Hl. unfold view in Hl. rewrite Hpc in Hl.
  pose proof (views_lookup s j v Hj) as Hlj. pose proof (st_done _ Hok i _ Hl j _ _ Hlj) as Hf.
  pose proof (st_finished _ Hok j _ _ Hlj) as Hf'. split; [done|]. split; [congruence|].
  destruct (not_idle_pc j v (tasks s) (i_thread s Hs j v Hj)) as [? _]; [..|done]; intros E; rewrite E in Hf'; cbn in Hf'; congruence.
Qed.

(** Two threads; the manager is stopped, the first one waits for the second. *)
Definition stop_start : @TaskManager string DemoKernel := Run 2 [] (fun _ => MkSource 0 false) [].
Definition stop_run : list (Choice string) :=
  [CThread 0; CThread 0; CThread 0; CThread 0; CThread 1; CThread 0; CThread 0; CThread 0].

Lemma stop_is_a_barrier_witness :
  exists s, rtc step stop_start s /\ map pc (threads_ s) = [PcDone; PcStop 0 0] /\
    forall j v, threads_ s !! j = Some v -> finished_ v = true /\ stopping (pc v) = true /\ current_task_ (exec_ v) = None.
Proof.
  assert (G : option_map (fun s => map pc (threads_ s)) (Stop stop_start ≫= drive stop_run) = Some [PcDone; PcStop 0 0])
    by (vm_compute; reflexivity).
  destruct (Stop stop_start) as [s1|] eqn:E1; [|discriminate G]. cbn [mbind option_bind] in G.
  destruct (drive stop_run s1) as [s|] eqn:E; [|discriminate G]. injection G as G1.
  assert (Hr : rtc step stop_start s) by (etrans; [by apply Stop_steps|by apply (drive_steps stop_run)]).
  exists s. split; [exact Hr|]. split; [exact G1|].
  assert (Hw : exists w, threads_ s !! 0%nat = Some w /\ pc w = PcDone).
  { destruct (threads_ s) as [|w l]; [discriminate G1|]. exists w. split; [reflexivity|]. by injection G1. }
  destruct Hw as (w & Hw & Hpc).
  apply (stop_is_a_barrier 2 (@nil string) (fun _ => MkSource 0 false) [] s 0 w (armed := demo_armed) (oneshot := demo_oneshot)); try assumption.
  - intros p. cbn. lia.
  - constructor.
  - reflexivity.
Defined.

(** C31. The shutdown completes: in every infinite run of the task manager in
    which, at some moment, all threads have left their loops, a thread that
    is scheduled again and again passes [StopInternal], whatever the others
    do, and stays done. *)
Theorem shutdown_completes {Func K} {armed : K -> list nat} {oneshot : K -> Prop} `{EpollLaws K armed oneshot}
    num_threads (entrypoints : list Func) srcs k (run : nat -> @TaskManager Func K) m i :
  (forall p, 0 <= fd_ (srcs p)) -> oneshot k -> armed k = [] -> run 0%nat = Run num_threads entrypoints srcs k ->
  (forall t, step (run t) (run (S t))) ->
  (forall t, exists t' w, (t <= t')%nat /\ threads_ (run t') !! i = Some w /\ ThreadStep i w (run t') = Some (run (S t'))) ->
  (forall j v, threads_ (run m) !! j = Some v -> stopping (pc v) = true) ->
  exists t0, forall t, (t0 <= t)%nat -> exists w, threads_ (run t) !! i = Some w /\ pc w = PcDone.
Proof.
  intros Hsrc Hone Harm Hrun0 Hstep Hfair Hstop.
  assert (Hreach : forall t, rtc step (Run num_threads entrypoints srcs k) (run t)).
  { induction t as [|t IH]; [rewrite Hrun0; constructor|]. exact (rtc_r _ _ _ IH (Hstep t)). }
  assert (Hok : forall t, inv (armed := armed) (oneshot := oneshot) (run t) /\ stop_ok (views (run t))).
  { intros t. apply (reachable_ok num_threads entrypoints srcs k (run t) Hsrc Hone Harm (Hreach t)). }
  assert (Hin : exists w, threads_ (run (m + 0)%nat) !! i = Some w).
  { destruct (Hfair m) as (t' & w & Ht & Hw & _). apply lookup_lt_is_Some_2. replace t' with (m + (t' - m))%nat in Hw by lia.
    destruct (run_stopping run m Hstep Hok Hstop (t' - m)) as [_ E]. destruct (run_stopping run m Hstep Hok Hstop 0) as [_ E0].
    apply lookup_lt_Some in Hw. rewrite <- E0, !run_length in E. lia. }
  destruct Hin as [w0 Hw0]. destruct (run_ends run m Hstep Hok Hstop i _ 0 w0 Hfair (Nat.le_refl _) Hw0) as (d & w & Hw & Hz).
  exists (m + d)%nat. intros t Ht. replace t with (m + (t - m))%nat by lia.
  destruct (run_work run m Hstep Hok Hstop i d (t - m) w ltac:(lia) Hw) as (w' & Hw' & Hle). exists w'. split; [done|].
  apply (run_done run m Hstep Hok Hstop i (t - m) w' Hw'). lia.
Qed.

(** One thread, which is stopped before it has done anything, and scheduled
    for ever. *)
Definition move0 (s : @TaskManager string DemoKernel) : @TaskManager string DemoKernel :=
  match drive1 (CThread 0) s with Some s' => s' | None => s end.
Definition stopped_run (t : nat) : @TaskManager string DemoKernel :=
  let s := Run 1 [] (fun _ => MkSource 0 false) [] in
  match t with
  | O => s
  | S O => with_thread 0 DelayedStop s
  | S (S t') => Nat.iter t' move0 (InterruptAll (with_thread 0 DelayedStop s))
  end.

(** It is what [Stop] makes of the manager that begins to move. *)
Lemma stopped_run_stops : Stop (stopped_run 0) = Some (stopped_run 2).
Proof. reflexivity. Qed.

Lemma stopped_run_settles t : stopped_run (5 + t) = stopped_run 5.
Proof.
  induction t as [|t IH]; [reflexivity|].
  change (move0 (stopped_run (5 + t)) = stopped_run 5). rewrite IH. vm_compute. reflexivity.
Qed.

(** It moves at every moment after the stop. *)
Lemma stopped_run_moves t :
  exists w, threads_ (stopped_run (2 + t)) !! 0%nat = Some w /\ ThreadStep 0 w (stopped_run (2 + t)) = Some (stopped_run (3 + t)).
Proof.
  destruct t as [|[|[|t]]]; [..|change (2 + S (S (S t)))%nat with (5 + t)%nat; change (3 + S (S (S t)))%nat with (5 + S t)%nat; rewrite !stopped_run_settles];
    (eexists; split; [vm_compute; reflexivity|vm_compute; reflexivity]).
Qed.

Lemma shutdown_completes_witness :
  exists t0, forall t, (t0 <= t)%nat -> exists w, threads_ (stopped_run t) !! 0%nat = Some w /\ pc w = PcDone.
Proof.
  apply (shutdown_completes 1 (@nil string) (fun _ => MkSource 0 false) [] stopped_run 5 0 (armed := demo_armed) (oneshot := demo_oneshot)).
  - intros p. cbn. lia.
  - constructor.
  - reflexivity.
  - reflexivity.
  - intros [|[|t]]; [apply step_stop|apply step_interrupt|]. destruct (stopped_run_moves t) as (w & Hw & E). exact (step_thread _ 0 w _ Hw E).
  - intros t. destruct (stopped_run_moves t) as (w & Hw & E). exists (2 + t)%nat, w. split; [lia|]. split; [exact Hw|exact E].
  - intros [|j] v Hv; vm_compute in Hv; [injection Hv as <-; reflexivity|discriminate Hv].
Defined.
