(* ===== verification/TaskLife.v ===== *)
(** The life of a task manager: [base/hook.h], the buffers of the event queue,
    and the destruction of the manager while its threads are still running.

    The thread that destroys the manager interleaves with the worker threads of
    [Task].  If the manager took the creating thread over as its first worker,
    the destruction begins when that worker has ended. *)
From S2P Require Import Prelude Containers Task TaskSafe TaskStop.
Local Open Scope Z_scope.

(** * Hooks *)

Section Hooks.
  Context {F : Type}.

(** [funcs_size_] is the length. *)
(** source/base/hook.h:15-49 [BaseHook] *)
Record Hook := MkHook { funcs_ : list F }.

(** source/base/hook.h:10-10 [k_hook_default_max_handlers] *)
Definition k_hook_default_max_handlers : nat := 4.

(** source/base/hook.h:25-28 [Add] *)
Definition HookAdd (func : F) (h : Hook) : option Hook :=
  if (length (funcs_ h) <? k_hook_default_max_handlers)%nat then Some (MkHook (funcs_ h ++ [func])) else None.

(** source/base/hook.h:31-36 [Clear] *)
Definition HookClear (h : Hook) : Hook := MkHook [].

(** The calls, in order. *)
(** source/base/hook.h:39-43 [Invoke] *)
Definition HookInvoke {A} (args : A) (h : Hook) : list (F * A) := map (fun f => (f, args)) (funcs_ h).
End Hooks.

(** The indexes [Run] passes to the hook before the start of each thread: the
    last call, for the first thread, passes the number of threads. *)
(** source/task/task_manager.cc:40-54 [TaskManager::Run] *)
Definition started_indexes (num_threads : nat) : list nat := seq 1 (num_threads - 1) ++ [Nat.max 1 num_threads].

(** No thread is started with its own index 0. *)
Lemma first_thread_has_wrong_index num_threads : 0%nat ∉ started_indexes num_threads.
Proof.
  unfold started_indexes. rewrite elem_of_app, elem_of_seq, list_elem_of_singleton. lia.
Qed.

(** * The buffers of the event queue *)

(** [sizeof(epoll_event)], which is packed. *)
Definition sizeof_epoll_event : Z := 12.

(** source/base/platform_def.h:11-11 [k_cache_line_size] *)
Definition k_cache_line_size : Z := 64.

(** source/event/epoll/event/eventqueue.h:45-51 [EpollEventQueue] *)
Record EpollBuffers := MkBuffers { thread_max_events_ : Z; thread_events_size_ : Z; events_size : Z }.

(** [None] is the failed assertion. *)
(** source/event/epoll/event/eventqueue.cc:19-34 [EpollEventQueue::EpollEventQueue] *)
Definition EpollBuffersNew (thread_max_events_at_once num_threads : Z) : option EpollBuffers :=
  if 2 ^ 31 - 1 <? thread_max_events_at_once then None
  else
    let padding := (k_cache_line_size + sizeof_epoll_event) / sizeof_epoll_event in
    let thread_events_size := thread_max_events_at_once + padding in
    Some (MkBuffers thread_max_events_at_once thread_events_size
            (sizeof_epoll_event * thread_events_size * num_threads)).

(** Where the kernel writes the events of a thread: address and size. *)
(** source/event/epoll/event/eventqueue.cc:97-98 [EpollEventQueue::Wait] *)
Definition thread_events (events : Z) (b : EpollBuffers) (thread_index : Z) : Z * Z :=
  (events + sizeof_epoll_event * (thread_events_size_ b * thread_index), sizeof_epoll_event * thread_max_events_ b).

(** The buffer of a thread is in the memory, and at least a cache
    line before those of the threads behind it. *)
Lemma buffer_bounds max_events num_threads b events (Hm : 0 < max_events) :
  EpollBuffersNew max_events num_threads = Some b -> forall i j, 0 <= i -> i < num_threads -> i < j ->
  let '(pi, ni) := thread_events events b i in
  events <= pi /\ pi + ni <= events + events_size b /\ pi + ni + k_cache_line_size <= fst (thread_events events b j).
Proof.
  unfold EpollBuffersNew. destruct (_ <? _); [done|]. intros [= <-] i j Hi Hn Hj.
  unfold thread_events, k_cache_line_size, sizeof_epoll_event. cbn -[Z.mul Z.add]. change ((64 + 12) / 12) with 6. split_and!; nia.
Qed.

(** * Destruction *)

Section Destruction.
  Context {Func K : Type} {armed : K -> list nat} {oneshot : K -> Prop} `{EpollLaws K armed oneshot}.
  Context (takeover_current_thread : bool).
  Abbreviation state := (@TaskManager Func K).
  Abbreviation worker := (@WorkerThread Func).

Definition at_end (w : worker) : bool := match pc w with PcDone => true | _ => false end.

(** Where the destructor is: not begun; in [StopInternal]; joining a thread;
    behind [Free]. *)
(** source/task/task_manager.cc:87-95 [TaskManager::~TaskManager] *)
Inductive DtorPc := DNone | DScan (i num_running : nat) | DJoin (i : nat) | DFreed.

(** source/task/worker_thread.cc:38-42 [WorkerThread::~WorkerThread] *)
Definition joined (i : nat) (w : worker) : bool := (takeover_current_thread && (i =? 0)%nat) || at_end w.

(** [None] is a step that is not possible yet. *)
(** source/task/task_manager.cc:70-95 [TaskManager::~TaskManager] *)
Definition DtorStep (d : DtorPc) (s : state) : option (DtorPc * state) :=
  match d with
  | DNone =>
      if takeover_current_thread && negb (match threads_ s !! 0%nat with Some w => at_end w | None => true end) then None
      else Some (DScan 0 0, s)
  | DScan i num_running =>
      match threads_ s !! i with
      | Some thread =>
          if finished_ thread then Some (DScan (S i) num_running, s)
          else Some (DScan (S i) (S num_running), with_thread i DelayedStop s)
      | None => Some (match num_running with O => DJoin 0 | S _ => DScan 0 0 end, InterruptAll s)
      end
  | DJoin i =>
      match threads_ s !! i with
      | Some thread => if joined i thread then Some (DJoin (S i), s) else None
      | None => Some (DFreed, s)
      end
  | DFreed => None
  end.

Inductive destroy_step : state * DtorPc -> state * DtorPc -> Prop :=
| destroy_run s s' d : step s s' -> destroy_step (s, d) (s', d)
| destroy_dtor s s' d d' : DtorStep d s = Some (d', s') -> destroy_step (s, d) (s', d').

(** Threads the destructor has waited for have ended. *)
Definition ended (l : list (bool * @Pc Func)) (i : nat) : Prop := forall x, l !! i = Some x -> x.2 = PcDone.

Definition dtor_ok (l : list (bool * @Pc Func)) (d : DtorPc) : Prop :=
  (d <> DNone -> takeover_current_thread = true -> ended l 0) /\
  match d with DJoin i => forall j, (j < i)%nat -> ended l j | DFreed => forall j, ended l j | _ => True end.

Lemma view_step_ended l l' i : view_step l l' -> ended l i -> ended l' i.
Proof.
  intros Hs He. assert (Hne : forall j x f p, l !! j = Some (f, p) -> p <> PcDone -> <[j := x]> l !! i = l !! i).
  { intros j x f p Hj Hp. apply list_lookup_insert_ne. intros ->. by apply He in Hj. }
  destruct Hs; intros x Hx; try by apply He.
  - erewrite Hne in Hx by (done || by intros ->). by apply He.
  - erewrite Hne in Hx by done. by apply He.
  - erewrite Hne in Hx by done. by apply He.
  - erewrite Hne in Hx by done. by apply He.
Qed.

Lemma ended_thread (s : state) i : ended (views s) i <-> forall w, threads_ s !! i = Some w -> pc w = PcDone.
Proof.
  unfold ended, views. rewrite list_lookup_fmap. destruct (threads_ s !! i) as [w|]; cbn; [|naive_solver].
  split; [intros He w' [= <-]; exact (He _ eq_refl)|intros He x [= <-]; by apply He].
Qed.

Lemma at_end_done w : at_end w = true -> pc w = PcDone.
Proof. unfold at_end. by destruct (pc w). Qed.

Lemma destroy_step_ok sd sd' : destroy_step sd sd' ->
  inv (armed := armed) (oneshot := oneshot) sd.1 /\ stop_ok (views sd.1) /\ dtor_ok (views sd.1) sd.2 ->
  inv (armed := armed) (oneshot := oneshot) sd'.1 /\ stop_ok (views sd'.1) /\ dtor_ok (views sd'.1) sd'.2.
Proof.
  intros Hstep (Hi & Hok & [Htake Hd]). destruct Hstep as [s s' d Hs|s s' d d' Hs]; cbn in *.
  - pose proof (step_views _ _ Hi Hs) as Hv. split; [by eapply step_inv|]. split; [by eapply view_step_ok|].
    pose proof (fun i => view_step_ended _ _ i Hv) as He. split; [auto|]. destruct d; auto.
  - unfold DtorStep in Hs. destruct d as [|i n|i|]; [| | |done].
    + destruct (_ && _) eqn:E; [done|]. injection Hs as <- <-. split; [done|]. split; [done|]. split; [intros _ Ht|done].
      apply ended_thread. intros w Hw. rewrite Ht, Hw in E. apply at_end_done. by destruct (at_end w).
    + destruct (threads_ s !! i) as [w|] eqn:Hw.
      * destruct (finished_ w); injection Hs as <- <-;
          [split; [done|]; split; [done|]; split; [intros _; by apply Htake|done]|].
        assert (Hv : views (with_thread i DelayedStop s) = views s) by by apply views_keep.
        rewrite Hv. split; [|split; [done|]; split; [intros _; by apply Htake|done]].
        rewrite (with_thread_set i _ w) by done. by apply inv_delayed_stop.
      * injection Hs as <- <-. split; [by apply inv_interrupt|]. split; [done|]. split; [intros _; by apply Htake|].
        destruct n; [intros j Hj; lia|done].
    + destruct (threads_ s !! i) as [w|] eqn:Hw.
      * destruct (joined i w) eqn:Hj; [|done]. injection Hs as <- <-.
        split; [done|]. split; [done|]. split; [intros _; by apply Htake|]. intros j Hlt. destruct (decide (j = i)) as [->|]; [|apply Hd; lia]. unfold joined in Hj.
        apply orb_true_iff in Hj as [[Ht ->%Nat.eqb_eq]%andb_true_iff|He]; [by apply Htake|].
        apply ended_thread. intros w' Hw'. simplify_eq. by apply at_end_done.
      * injection Hs as <- <-. split; [done|]. split; [done|]. split; [intros _; by apply Htake|].
        intros j. destruct (decide (j < i)%nat); [by apply Hd|].
        intros x Hx. apply lookup_lt_Some in Hx. apply lookup_ge_None in Hw. unfold views in Hx.
        rewrite length_fmap in Hx. lia.
Qed.

Lemma destroy_reachable num_threads (entrypoints : list Func) srcs (k : K) s d :
  (forall p, 0 <= fd_ (srcs p)) -> oneshot k -> armed k = [] ->
  rtc destroy_step (Run num_threads entrypoints srcs k, DNone) (s, d) ->
  inv (armed := armed) (oneshot := oneshot) s /\ stop_ok (views s) /\ dtor_ok (views s) d.
Proof.
  intros Hsrc Hone Harm Hr.
  assert (Hstart : inv (armed := armed) (oneshot := oneshot) (Run num_threads entrypoints srcs k) /\
    stop_ok (views (Run num_threads entrypoints srcs k)) /\ dtor_ok (views (Run num_threads entrypoints srcs k)) DNone).
  { split; [by apply Run_inv|]. split; [apply Run_stop_ok|]. by split. }
  remember (Run num_threads entrypoints srcs k, DNone) as sd eqn:E0. remember (s, d) as sd' eqn:E1.
  assert (Hgen : inv (armed := armed) (oneshot := oneshot) sd'.1 /\ stop_ok (views sd'.1) /\ dtor_ok (views sd'.1) sd'.2).
  { assert (Hsd : inv (armed := armed) (oneshot := oneshot) sd.1 /\ stop_ok (views sd.1) /\ dtor_ok (views sd.1) sd.2) by by subst.
    clear E0 E1 Hstart. induction Hr as [|x y z Hxy _ IH]; [done|]. apply IH. by eapply destroy_step_ok. }
  by subst.
Qed.
End Destruction.

(** * Properties *)

(** C36. A manager is destroyed only when nobody uses it any more: while the
    destructor runs beside the worker threads, in any interleaving and whether
    or not somebody stops the manager, no assertion fails; and when it has
    freed the threads' memory, every thread has left [StopInternal], finished
    and without a task, so that nothing touches that memory afterwards. *)
Theorem destructor_waits_for_threads {Func K} {armed : K -> list nat} {oneshot : K -> Prop} `{EpollLaws K armed oneshot}
    takeover num_threads (entrypoints : list Func) srcs k s d :
  (forall p, 0 <= fd_ (srcs p)) -> oneshot k -> armed k = [] ->
  rtc (destroy_step takeover) (Run num_threads entrypoints srcs k, DNone) (s, d) ->
  ~ fails s /\
  (d = DFreed -> forall j w, threads_ s !! j = Some w ->
     pc w = PcDone /\ finished_ w = true /\ current_task_ (exec_ w) = None /\ ThreadStep j w s = Some s).
Proof.
  intros Hsrc Hone Harm Hr.
  destruct (destroy_reachable takeover num_threads entrypoints srcs k s d Hsrc Hone Harm Hr) as (Hs & Hok & [_ Hd]).
  split; [by eapply inv_safe|]. intros -> j w Hw. assert (Hpc : pc w = PcDone) by by apply (ended_thread s j).
  pose proof (st_finished _ Hok j _ _ (views_lookup s j w Hw)) as Hf. rewrite Hpc in Hf. split; [done|]. split; [done|].
  split; [|unfold ThreadStep; by rewrite Hpc].
  destruct (not_idle_pc j w (tasks s) (i_thread s Hs j w Hw)) as [? _]; [..|done]; by rewrite Hpc.
Qed.

(** Steps of the threads and of the destructor. *)
Definition drive_dtor1 {Func} (takeover : bool) (c : option (Choice Func)) (sd : @TaskManager Func DemoKernel * DtorPc) :
    option (@TaskManager Func DemoKernel * DtorPc) :=
  match c with
  | Some c => option_map (fun s => (s, snd sd)) (drive1 c (fst sd))
  | None => option_map (fun x => (snd x, fst x)) (DtorStep takeover (snd sd) (fst sd))
  end.
Fixpoint drive_dtor {Func} takeover (cs : list (option (Choice Func))) sd :=
  match cs with [] => Some sd | c :: cs => match drive_dtor1 takeover c sd with Some sd' => drive_dtor takeover cs sd' | None => None end end.

Lemma drive_dtor_steps {Func} takeover (cs : list (option (Choice Func))) : forall sd sd',
  drive_dtor takeover cs sd = Some sd' -> rtc (destroy_step takeover) sd sd'.
Proof.
  induction cs as [|c cs IH]; intros [s d] sd'; cbn; [intros [= <-]; constructor|].
  destruct (drive_dtor1 takeover c (s, d)) as [[s1 d1]|] eqn:E; [|done]. intros Hr. apply (rtc_l _ _ (s1, d1)); [|by apply IH].
  destruct c as [c|]; cbn in E.
  - destruct (drive1 c s) as [s2|] eqn:E2; [|done]. injection E as <- <-. apply destroy_run. by eapply drive1_step.
  - destruct (DtorStep takeover d s) as [[d2 s2]|] eqn:E2; [|done]. injection E as <- <-. by apply destroy_dtor.
Qed.

(** Two threads, neither taken over; the destructor stops them. *)
Definition dtor_run : list (option (Choice string)) :=
  let t0 := Some (CThread 0) in let t1 := Some (CThread 1) in
  [None; None; None; t0; t1; t0; t1; t0; t1; None; None; None; None; t0; None; t1; None; None].

Lemma destructor_waits_for_threads_witness :
  exists s, rtc (destroy_step false) (stop_start, DNone) (s, DFreed) /\
    forall j w, threads_ s !! j = Some w -> pc w = PcDone.
Proof.
  destruct (drive_dtor false dtor_run (stop_start, DNone)) as [[s d]|] eqn:E; [|vm_compute in E; discriminate E].
  assert (Hd : d = DFreed) by (vm_compute in E; by injection E as <-).
  pose proof (drive_dtor_steps false dtor_run _ _ E) as Hr. rewrite Hd in Hr. exists s. split; [exact Hr|]. intros j w Hw.
  refine (proj1 (proj2 (destructor_waits_for_threads false 2 (@nil string) (fun _ => MkSource 0 false) [] s DFreed
    (armed := demo_armed) (oneshot := demo_oneshot) _ _ _ Hr) eq_refl j w Hw)).
  - intros p. cbn. lia.
  - constructor.
  - reflexivity.
Defined.
