(* ===== verification/EventQueue.v ===== *)
(** [event/epoll]: the event queue over the system calls it makes.

    [Task] takes the queue's calls as a kernel that registers, waits and wakes
    up ([Epoll]); here is the code between that interface and the calls
    [epoll_create1], [eventfd], [epoll_ctl], [epoll_wait], [read], [write] and
    [close], whose documented behaviour is a class.  Between two calls of a wait
    the other threads register, wait, drain and interrupt.  [None] is a failed
    assertion. *)
From S2P Require Import Prelude Containers Task TaskSafe TaskLife.
Local Open Scope Z_scope.

(** * System calls *)

(** An event as the kernel reports it: its mask and the user's handle. *)
(** source/event/epoll/event/event.h:26-38 [EpollEvent] *)
Record EpollEvent := MkEvent { events : Z; user_handle : option nat }.

Definition k_epollrdhup : Z := 2 ^ 13.

(** source/event/epoll/event/event.h:29-29 [EpollEvent::IsRead] *)
Definition IsRead (e : EpollEvent) : bool := flag_set (events e) k_epollin.
(** source/event/epoll/event/event.h:31-31 [EpollEvent::IsWrite] *)
Definition IsWrite (e : EpollEvent) : bool := flag_set (events e) k_epollout.
(** source/event/epoll/event/event.h:33-33 [EpollEvent::IsError] *)
Definition IsError (e : EpollEvent) : bool := flag_set (events e) k_epollerr.
(** source/event/epoll/event/event.h:35-35 [EpollEvent::IsClose] *)
Definition IsClose (e : EpollEvent) : bool := flag_set (events e) (Z.lor k_epollhup k_epollrdhup).

(** What [epoll_wait] reports: an error, with [errno] [EINTR] or another, or
    events. *)
Inductive WaitResult := WaitError (is_eintr : bool) | WaitEvents (l : list EpollEvent).

(** Descriptors are numbers, negative for an error.  [sys_env] is what the
    kernel does on its own. *)
Class Sys (K : Type) := {
  sys_epoll_create1 : K -> Z * K;
  sys_eventfd : K -> Z * K;
  sys_epoll_ctl : K -> Z -> CtlOp -> Z -> Z -> option nat -> bool * K;
  sys_epoll_wait : K -> Z -> Z -> WaitResult -> K -> Prop;
  sys_read : K -> Z -> Z * K;
  sys_write : K -> Z -> K;
  sys_close : K -> Z -> K;
  sys_env : K -> K -> Prop
}.

Section Queue.
  Context {K : Type} `{Sys K}.

(** * The queue *)

(** [events_] is the address of the buffers. *)
(** source/event/epoll/event/eventqueue.h:46-50 [EpollEventQueue] *)
Record EpollEventQueue := MkQueue { events_ : Z; buffers : EpollBuffers; epoll_fd_ : Z; wakeup_fd_ : EventSource }.

(** The event source behind the call, and whether an error is logged. *)
(** source/event/epoll/event/eventqueue.cc:50-79 [EpollEventQueue::AddEvent] *)
Definition QueueAddEvent (epoll_fd : Z) (event_source : EventSource) (event_flags : Z) (handle : option nat) (k : K) :
    option (EventSource * bool * K) :=
  if fd_ event_source <? 0 then None
  else
    let '(ok, k) := sys_epoll_ctl k epoll_fd (if is_added_ event_source then CtlMod else CtlAdd) (fd_ event_source)
                      (event_mask event_flags) handle in
    Some (MkSource (fd_ event_source) true, negb ok, k).

(** source/event/epoll/event/eventqueue.cc:81-90 [EpollEventQueue::RemoveEvent] *)
Definition QueueRemoveEvent (q : EpollEventQueue) (event_source : EventSource) (k : K) : option (EventSource * bool * K) :=
  if fd_ event_source <? 0 then None
  else
    let '(ok, k) := sys_epoll_ctl k (epoll_fd_ q) CtlDel (fd_ event_source) 0 None in
    Some (MkSource (fd_ event_source) (if ok then false else is_added_ event_source), negb ok, k).

(** [alloc] gives the memory for the events. *)
(** source/event/epoll/event/eventqueue.cc:19-38 [EpollEventQueue::EpollEventQueue] *)
Definition QueueNew (alloc : Z -> Z) (thread_max_events_at_once num_threads : Z) (k : K) : option (EpollEventQueue * K) :=
  match EpollBuffersNew thread_max_events_at_once num_threads with
  | None => None
  | Some b =>
      let '(epoll_fd, k) := sys_epoll_create1 k in
      let events := alloc (events_size b) in
      let '(wakeup_fd, k) := sys_eventfd k in
      if (0 <=? wakeup_fd) && negb (events =? 0) && (0 <=? epoll_fd) then
        match QueueAddEvent epoll_fd (MkSource wakeup_fd false) FlagRead None k with
        | Some (wakeup, _, k) => Some (MkQueue events b epoll_fd wakeup, k)
        | None => None
        end
      else None
  end.

(** The memory that is freed goes back. *)
(** source/event/epoll/event/eventqueue.cc:40-48 [EpollEventQueue::~EpollEventQueue] *)
Definition QueueDestroy (q : EpollEventQueue) (k : K) : Z * K :=
  let k := sys_close k (fd_ (wakeup_fd_ q)) in
  (events_ q, if 0 <=? epoll_fd_ q then sys_close k (epoll_fd_ q) else k).

(** source/event/epoll/event/eventqueue.cc:118-121 [EpollEventQueue::Interrupt] *)
Definition QueueInterrupt (q : EpollEventQueue) (thread_index : nat) (k : K) : K := sys_write k (fd_ (wakeup_fd_ q)).

(** source/event/epoll/event/eventqueue.cc:123-126 [EpollEventQueue::InterruptAll] *)
Definition QueueInterruptAll (q : EpollEventQueue) (k : K) : K := sys_write k (fd_ (wakeup_fd_ q)).

Definition wait_handles (r : WaitResult) : list (option nat) :=
  match r with WaitError _ => [] | WaitEvents l => map user_handle l end.

(** The interface of the task system, by the queue [q]: its wait is the call of
    the kernel, and the reads that drain the wake-up descriptor, which come
    behind it and return nothing, count among what happens at any time. *)
Definition QueueEpoll (q : EpollEventQueue) : Epoll K := {|
  epoll_ctl k op fd mask h := sys_epoll_ctl k (epoll_fd_ q) op fd mask h;
  epoll_wait k evs k' := exists r, sys_epoll_wait k (epoll_fd_ q) (thread_max_events_ (buffers q)) r k' /\ evs = wait_handles r;
  epoll_env k k' := sys_env k k' \/ exists n, sys_read k (fd_ (wakeup_fd_ q)) = (n, k');
  event_write k := QueueInterruptAll q k
|}.

(** What the other threads and the kernel do meanwhile: registering tasks for
    events that come once, removing, waiting, interrupting, draining. *)
Inductive others (q : EpollEventQueue) (k : K) : K -> Prop :=
| others_add op fd mask h b k' :
    flag_set mask k_epolloneshot = true -> @epoll_ctl K (QueueEpoll q) k op fd mask h = (b, k') -> others q k k'
| others_remove fd mask b k' : @epoll_ctl K (QueueEpoll q) k CtlDel fd mask None = (b, k') -> others q k k'
| others_wait evs k' : @epoll_wait K (QueueEpoll q) k evs k' -> others q k k'
| others_interrupt : others q k (@event_write K (QueueEpoll q) k)
| others_env k' : @epoll_env K (QueueEpoll q) k k' -> others q k k'.

(** The loop that drains the wake-up descriptor, with whatever the others do
    before each of its reads. *)
(** source/event/epoll/event/eventqueue.cc:107-112 [EpollEventQueue::Wait] *)
Inductive Drain (q : EpollEventQueue) : K -> K -> Prop :=
| drain_end k0 k n k' : rtc (others q) k0 k -> sys_read k (fd_ (wakeup_fd_ q)) = (n, k') -> n <= 0 -> Drain q k0 k'
| drain_more k0 k n k1 k' :
    rtc (others q) k0 k -> sys_read k (fd_ (wakeup_fd_ q)) = (n, k1) -> 0 < n -> Drain q k1 k' -> Drain q k0 k'.

(** The loop with nobody in between; [None] if [fuel] reads are not enough. *)
(** source/event/epoll/event/eventqueue.cc:107-112 [EpollEventQueue::Wait] *)
Fixpoint DrainAlone (fuel : nat) (q : EpollEventQueue) (k : K) : option K :=
  match fuel with
  | O => None
  | S fuel' => let '(n, k') := sys_read k (fd_ (wakeup_fd_ q)) in if 0 <? n then DrainAlone fuel' q k' else Some k'
  end.

(** The buffer of a thread, and how many bytes it has. *)
(** source/event/epoll/event/eventqueue.cc:97-98 [EpollEventQueue::Wait] *)
Definition WaitBuffer (q : EpollEventQueue) (thread_index : nat) : Z * Z :=
  thread_events (events_ q) (buffers q) (Z.of_nat thread_index).

(** What a wait returns: where the events are, the events, and whether an error
    is logged. *)
Record Waited := MkWaited { span : Z; triggered : list EpollEvent; logged : bool }.

(** source/event/epoll/event/eventqueue.cc:92-116 [EpollEventQueue::Wait] *)
Inductive QueueWait (q : EpollEventQueue) (thread_index : nat) : K -> Waited -> K -> Prop :=
| queue_wait_error k is_eintr k' :
    0 <= epoll_fd_ q -> sys_epoll_wait k (epoll_fd_ q) (thread_max_events_ (buffers q)) (WaitError is_eintr) k' ->
    QueueWait q thread_index k (MkWaited 0 [] (negb is_eintr)) k'
| queue_wait_events k l k1 k' :
    0 <= epoll_fd_ q -> sys_epoll_wait k (epoll_fd_ q) (thread_max_events_ (buffers q)) (WaitEvents l) k1 -> Drain q k1 k' ->
    QueueWait q thread_index k (MkWaited (fst (WaitBuffer q thread_index)) l false) k'.

End Queue.

(** * The documented behaviour of the calls *)

(** [armed k] are the handles that registrations can still report, as often as
    they can, when all registrations with a handle are one-shot; [opened k] the
    open descriptors; [eventfds k] those of them that count events and do not
    block; [pending k fd] says that the counter of one of these is not zero. *)
Section Laws.
  Context {K : Type} `{Sys K} (armed : K -> list nat) (oneshot : K -> Prop) (opened eventfds : K -> gset Z)
    (pending : K -> Z -> bool).

(** No handle is registered. *)
Definition no_more (k k' : K) : Prop := (oneshot k -> oneshot k') /\ forall t, (occ t (armed k') <= occ t (armed k))%nat.

(** A call that makes a descriptor, or fails. *)
Definition makes (k : K) (fd : Z) (k' : K) : Prop :=
  no_more k k' /\ if fd <? 0 then opened k' = opened k else (fd ∉ opened k) /\ opened k' = {[fd]} ∪ opened k.

Class SysLaws : Prop := {
  create1_makes : forall k fd k', sys_epoll_create1 k = (fd, k') -> makes k fd k';
  eventfd_makes : forall k fd k', sys_eventfd k = (fd, k') -> makes k fd k' /\ (0 <= fd -> fd ∈ eventfds k');
  sys_ctl_armed : forall k epfd op fd mask h b k', oneshot k -> h = None \/ flag_set mask k_epolloneshot = true ->
    sys_epoll_ctl k epfd op fd mask h = (b, k') ->
    oneshot k' /\ opened k' = opened k /\ forall t, (occ t (armed k') <= occ t (option_list h ++ armed k))%nat;
  sys_ctl_eventfds : forall k epfd op fd mask h b k', sys_epoll_ctl k epfd op fd mask h = (b, k') -> eventfds k' = eventfds k;
  sys_wait_events : forall k epfd n l k', oneshot k -> sys_epoll_wait k epfd n (WaitEvents l) k' ->
    oneshot k' /\ Z.of_nat (length l) <= n /\
    forall t, (occ t (omap user_handle l) + occ t (armed k') <= occ t (armed k))%nat;
  sys_wait_error : forall k epfd n e k', sys_epoll_wait k epfd n (WaitError e) k' -> no_more k k';
  sys_wait_eventfds : forall k epfd n r k', sys_epoll_wait k epfd n r k' -> eventfds k' = eventfds k;
  read_drains : forall k fd n k', fd ∈ eventfds k -> sys_read k fd = (n, k') ->
    no_more k k' /\ eventfds k' = eventfds k /\ pending k' fd = false /\ (0 < n <-> pending k fd = true);
  sys_write_pending : forall k fd, fd ∈ eventfds k -> pending (sys_write k fd) fd = true /\ armed (sys_write k fd) = armed k /\
    eventfds (sys_write k fd) = eventfds k /\ (oneshot k -> oneshot (sys_write k fd));
  sys_env_armed : forall k k', sys_env k k' -> no_more k k' /\ eventfds k' = eventfds k;
  close_closes : forall k fd, opened (sys_close k fd) = opened k ∖ {[fd]}
}.
End Laws.

Lemma omap_map_handles (l : list EpollEvent) : omap id (map user_handle l) = omap user_handle l.
Proof. induction l as [|e l IH]; [done|]. cbn. by rewrite IH. Qed.

Section Implementation.
  Context {K : Type} {armed : K -> list nat} {oneshot : K -> Prop} {opened eventfds : K -> gset Z} {pending : K -> Z -> bool}.
  Context `{SysLaws K armed oneshot opened eventfds pending}.
  Implicit Types (q : EpollEventQueue) (k : K).

(** The registrations with a handle are one-shot, and the wake-up descriptor
    counts events. *)
Definition queue_ok q k : Prop := oneshot k /\ fd_ (wakeup_fd_ q) ∈ eventfds k.

(** The queue is what the task system asks for. *)
Lemma queue_laws q : @EpollLaws K (QueueEpoll q) armed (queue_ok q).
Proof.
  pose proof (sys_ctl_armed armed oneshot opened eventfds pending) as Hctl. pose proof (sys_ctl_eventfds armed oneshot opened eventfds pending) as Hce.
  split; cbn.
  - intros k op fd mask h b k' [Hk Hw] Hm E. destruct (Hctl _ _ _ _ _ _ _ _ Hk (or_intror Hm) E) as (H1 & _ & H3).
    split; [|done]. split; [done|]. by rewrite (Hce _ _ _ _ _ _ _ _ E).
  - intros k fd mask b k' [Hk Hw] E. destruct (Hctl _ _ _ _ _ _ _ _ Hk (or_introl eq_refl) E) as (H1 & _ & H3).
    split; [|done]. split; [done|]. by rewrite (Hce _ _ _ _ _ _ _ _ E).
  - intros k evs k' [Hk Hw] (r & Hr & ->). unfold queue_ok. rewrite (sys_wait_eventfds armed oneshot opened eventfds pending _ _ _ _ _ Hr).
    destruct r as [e|l]; cbn [wait_handles].
    + destruct (sys_wait_error armed oneshot opened eventfds pending _ _ _ _ _ Hr) as [W1 W2]. split; [split; [by apply W1|done]|done].
    + rewrite omap_map_handles.
      destruct (sys_wait_events armed oneshot opened eventfds pending _ _ _ _ _ Hk Hr) as (W1 & _ & W3). done.
  - intros k k' [Hk Hw] He. assert (Hn : no_more armed oneshot k k' /\ eventfds k' = eventfds k).
    { destruct He as [He|[n He]]; [by apply (sys_env_armed armed oneshot opened eventfds pending)|].
      by destruct (read_drains armed oneshot opened eventfds pending _ _ _ _ Hw He) as (? & ? & _). }
    destruct Hn as [[N1 N2] N3]. unfold queue_ok. rewrite N3. auto.
  - intros k [Hk Hw]. destruct (sys_write_pending armed oneshot opened eventfds pending k _ Hw) as (_ & W1 & W2 & W3).
    unfold queue_ok, QueueInterruptAll. rewrite W2. auto.
Qed.

Lemma others_ok q k k' : rtc (others q) k k' -> queue_ok q k -> queue_ok q k'.
Proof.
  pose proof (queue_laws q) as L. induction 1 as [|k1 k2 k3 Hs _ IH]; [done|]. intros Hk. apply IH. destruct Hs.
  - by eapply (ctl_armed (EpollLaws := L)).
  - by eapply (del_armed (EpollLaws := L)).
  - by eapply (wait_armed (EpollLaws := L)).
  - by eapply (write_armed (EpollLaws := L)).
  - by eapply (env_armed (EpollLaws := L)).
Qed.

Lemma others_read q k n k' : sys_read k (fd_ (wakeup_fd_ q)) = (n, k') -> others q k k'.
Proof. intros E. apply others_env. right. by exists n. Qed.

(** Draining is steps of the interface, and leaves the counter at zero. *)
Lemma Drain_spec q k k' : Drain q k k' -> queue_ok q k -> rtc (others q) k k' /\ pending k' (fd_ (wakeup_fd_ q)) = false.
Proof.
  induction 1 as [k0 k n k' He Hr _|k0 k n k1 k' He Hr _ _ IH]; intros Hk.
  - pose proof (others_ok q k0 k He Hk) as [_ Hw]. destruct (read_drains armed oneshot opened eventfds pending _ _ _ _ Hw Hr) as (_ & _ & R & _).
    split; [|done]. eapply rtc_r; [exact He|by apply (others_read q k n)].
  - assert (H1 : rtc (others q) k0 k1) by (eapply rtc_r; [exact He|by apply (others_read q k n)]).
    destruct IH as [IH1 IH2]; [by apply (others_ok q k0)|]. split; [by etrans|done].
Qed.

(** Left alone, the loop ends: after one read if nothing is pending, after two
    otherwise. *)
Lemma Drain_ends q k : queue_ok q k ->
  exists k', DrainAlone (if pending k (fd_ (wakeup_fd_ q)) then 2 else 1) q k = Some k' /\ Drain q k k'.
Proof.
  intros [_ Hw]. destruct (sys_read k (fd_ (wakeup_fd_ q))) as [n k1] eqn:E1. destruct (sys_read k1 (fd_ (wakeup_fd_ q))) as [n2 k2] eqn:E2.
  destruct (read_drains armed oneshot opened eventfds pending _ _ _ _ Hw E1) as (_ & R1 & R2 & R3). rewrite <- R1 in Hw.
  destruct (read_drains armed oneshot opened eventfds pending _ _ _ _ Hw E2) as (_ & _ & _ & R4). rewrite R2 in R4.
  destruct (pending k _); cbn [DrainAlone]; rewrite E1.
  - assert (Hn : 0 < n) by by apply R3. assert (Hn2 : n2 <= 0) by (destruct (Z.le_gt_cases n2 0); [done|]; by destruct R4 as [R4 _]; specialize (R4 ltac:(lia))).
    rewrite (proj2 (Z.ltb_lt 0 n)), E2, (proj2 (Z.ltb_ge 0 n2)) by done. exists k2. split; [done|].
    eapply (drain_more q k k n k1); [done..|]. by eapply (drain_end q k1 k1 n2).
  - assert (Hn : n <= 0) by (destruct (Z.le_gt_cases n 0); [done|]; by destruct R3 as [R3 _]; specialize (R3 ltac:(lia))).
    rewrite (proj2 (Z.ltb_ge 0 n)) by done. exists k1. split; [done|]. by eapply (drain_end q k k n).
Qed.

(** A new queue has its two descriptors open and no handle registered. *)
Lemma QueueNew_spec alloc n num_threads k q k' : QueueNew alloc n num_threads k = Some (q, k') -> oneshot k ->
  queue_ok q k' /\ (forall t, (occ t (armed k') <= occ t (armed k))%nat) /\ EpollBuffersNew n num_threads = Some (buffers q) /\
  0 <= epoll_fd_ q /\ events_ q = alloc (events_size (buffers q)) /\
  (epoll_fd_ q ∉ opened k) /\ (fd_ (wakeup_fd_ q) ∉ {[epoll_fd_ q]} ∪ opened k) /\
  opened k' = {[fd_ (wakeup_fd_ q)]} ∪ ({[epoll_fd_ q]} ∪ opened k).
Proof.
  unfold QueueNew, QueueAddEvent. intros E Hk. destruct (EpollBuffersNew n num_threads) as [b|] eqn:Eb; [|done].
  destruct (sys_epoll_create1 k) as [ep k1] eqn:E1. destruct (sys_eventfd k1) as [wk k2] eqn:E2.
  destruct (Z.leb_spec 0 wk); [|done]. destruct (Z.leb_spec 0 ep); [|by rewrite andb_false_r in E].
  destruct (negb _); [|done]. cbn [andb fd_ is_added_] in E. destruct (Z.ltb_spec wk 0); [lia|].
  destruct (sys_epoll_ctl k2 _ _ _ _ _) as [ok k3] eqn:E3. injection E as <- <-. unfold queue_ok. cbn [fd_ wakeup_fd_ epoll_fd_ buffers events_].
  destruct (create1_makes armed oneshot opened eventfds pending _ _ _ E1) as [[N1 A1] O1].
  destruct (eventfd_makes armed oneshot opened eventfds pending _ _ _ E2) as [[[N2 A2] O2] V2].
  destruct (sys_ctl_armed armed oneshot opened eventfds pending _ _ _ _ _ _ _ _ (N2 (N1 Hk)) (or_introl eq_refl) E3) as (N3 & O3 & A3).
  rewrite (sys_ctl_eventfds armed oneshot opened eventfds pending _ _ _ _ _ _ _ _ E3).
  rewrite (proj2 (Z.ltb_ge _ _)) in O1 by done. rewrite (proj2 (Z.ltb_ge _ _)) in O2 by done. destruct O1 as [F1 O1], O2 as [F2 O2].
  split; [by auto|]. split; [intros t; specialize (A1 t); specialize (A2 t); specialize (A3 t); change (option_list None ++ armed k2) with (armed k2) in A3; lia|].
  split_and!; try done; [by rewrite O1 in F2|by rewrite O3, O2, O1].
Qed.

(** A wait is a wait of the interface, and then steps of it; what it returns is
    where the thread asked for it, and no more than fits. *)
Lemma QueueWait_spec q i k w k' : QueueWait q i k w k' -> queue_ok q k ->
  (exists k1, @epoll_wait K (QueueEpoll q) k (map user_handle (triggered w)) k1 /\ rtc (others q) k1 k') /\
  (triggered w <> [] -> span w = fst (WaitBuffer q i) /\ Z.of_nat (length (triggered w)) <= thread_max_events_ (buffers q)) /\
  (span w <> 0 -> pending k' (fd_ (wakeup_fd_ q)) = false).
Proof.
  intros Hw Hk. destruct Hw as [k e k' _ Hw|k l k1 k' _ Hw Hd].
  - split; [|done]. exists k'. split; [|done]. by exists (WaitError e).
  - assert (E : @epoll_wait K (QueueEpoll q) k (map user_handle l) k1) by by exists (WaitEvents l).
    destruct (Drain_spec q k1 k' Hd) as [D1 D2]; [exact (proj1 (wait_armed (EpollLaws := queue_laws q) _ _ _ Hk E))|].
    split; [by exists k1|]. split; [|done]. intros _. split; [done|].
    by destruct (sys_wait_events armed oneshot opened eventfds pending _ _ _ _ _ (proj1 Hk) Hw) as (_ & ? & _).
Qed.
End Implementation.
Arguments queue_ok {K} oneshot eventfds.

(** C34. Over system calls that behave as documented, whatever the other threads
    do between the calls, the event queue is what the task system is proved
    against: the constructor, if its assertions hold, leaves a queue without
    handles that satisfies the laws of registering, waiting and waking up, and
    a wait is one wait of that interface and then steps of it; the events it
    returns are in the thread's own buffer, which is in the memory of the queue
    and apart from the buffers of the other threads; it consumes all interrupts
    that came before its end, while an interrupt is pending afterwards; left
    alone, its loop that drains the wake-up descriptor makes at most two reads;
    and the destructor closes what the constructor opened. *)
Theorem event_queue_implements_interface {K} {armed : K -> list nat} {oneshot : K -> Prop} {opened eventfds : K -> gset Z}
    {pending : K -> Z -> bool} `{SysLaws K armed oneshot opened eventfds pending} alloc max_events num_threads k q k1 :
  oneshot k -> armed k = [] -> QueueNew alloc max_events num_threads k = Some (q, k1) ->
  let ok := queue_ok oneshot eventfds q in
  let buffer i := thread_events (events_ q) (buffers q) (Z.of_nat i) in
  ok k1 /\ armed k1 = [] /\ @EpollLaws K (QueueEpoll q) armed ok /\
  (forall i k2 w k3, ok k2 -> QueueWait q i k2 w k3 ->
     ok k3 /\ (exists k', @epoll_wait K (QueueEpoll q) k2 (map user_handle (triggered w)) k' /\ rtc (others q) k' k3) /\
     (triggered w <> [] -> span w = fst (buffer i) /\ sizeof_epoll_event * Z.of_nat (length (triggered w)) <= snd (buffer i)) /\
     (span w <> 0 -> pending k3 (fd_ (wakeup_fd_ q)) = false)) /\
  (0 < max_events -> forall i, Z.of_nat i < num_threads ->
     events_ q <= fst (buffer i) /\ fst (buffer i) + snd (buffer i) <= events_ q + events_size (buffers q) /\
     forall j, (i < j)%nat -> fst (buffer i) + snd (buffer i) + k_cache_line_size <= fst (buffer j)) /\
  (forall k2, ok k2 ->
     (exists k3, DrainAlone 2 q k2 = Some k3 /\ Drain q k2 k3) /\ pending (QueueInterruptAll q k2) (fd_ (wakeup_fd_ q)) = true) /\
  fst (QueueDestroy q k1) = alloc (events_size (buffers q)) /\ opened (snd (QueueDestroy q k1)) = opened k.
Proof.
  intros Hk Ha E ok buffer. destruct (QueueNew_spec (pending := pending) _ _ _ _ _ _ E Hk) as (N & A & Eb & Hep & Hev & F1 & F2 & O).
  pose proof (queue_laws (armed := armed) (oneshot := oneshot) (opened := opened) (eventfds := eventfds) (pending := pending) q) as L.
  split; [done|]. split; [|split; [exact L|split; [|split; [|split; [|split]]]]].
  - destruct (armed k1) as [|t l] eqn:El; [done|]. specialize (A t). rewrite Ha in A. unfold occ in A. cbn in A.
    destruct (Nat.eq_dec t t); [lia|done].
  - intros i k2 w k3 Hk2 Hw. destruct (QueueWait_spec (opened := opened) (pending := pending) q i k2 w k3 Hw Hk2) as ((k' & W1 & W2) & W3 & W4).
    split; [|split; [by exists k'|split; [|done]]].
    + apply (others_ok (armed := armed) (opened := opened) (pending := pending) q k' k3 W2). by eapply (wait_armed (EpollLaws := L)).
    + intros Hne. destruct (W3 Hne) as [W5 W6]. split; [done|]. unfold buffer, thread_events, sizeof_epoll_event. cbn [snd]. lia.
  - intros Hm i Hi. pose proof (buffer_bounds max_events num_threads (buffers q) (events_ q) Hm Eb (Z.of_nat i)) as Hb.
    split; [|split; [|intros j Hj]].
    + by apply (Hb (Z.of_nat i + 1)); lia.
    + by apply (Hb (Z.of_nat i + 1)); lia.
    + by apply (Hb (Z.of_nat j)); lia.
  - intros k2 Hk2. split; [|by apply (sys_write_pending armed oneshot opened eventfds pending), Hk2].
    destruct (Drain_ends (opened := opened) (pending := pending) q k2 Hk2) as (k3 & D1 & D2). exists k3. split; [|done].
    destruct (pending k2 _); [done|]. revert D1. cbn [DrainAlone]. destruct (sys_read k2 _) as [n k4]. by destruct (0 <? n).
  - done.
  - unfold QueueDestroy. rewrite (proj2 (Z.leb_le _ _) Hep). cbn [snd].
    rewrite !(close_closes armed oneshot opened eventfds pending), O. set_solver.
Qed.

(** * A kernel *)

(** The registrations of [DemoKernel], the next descriptor, the open ones, the
    event descriptors, and those whose counter is not zero. *)
Record DemoSys := MkDemoSys { regs : DemoKernel; next_fd : Z; open_fds : gset Z; event_fds : gset Z; counters : gset Z }.

(** Opens the next descriptor, or fails when it is in use. *)
Definition demo_open (is_event : bool) (k : DemoSys) : Z * DemoSys :=
  if decide (next_fd k ∈ open_fds k \/ next_fd k < 0) then (-1, k)
  else (next_fd k, MkDemoSys (regs k) (next_fd k + 1) ({[next_fd k]} ∪ open_fds k)
                     (if is_event then {[next_fd k]} ∪ event_fds k else event_fds k ∖ {[next_fd k]}) (counters k ∖ {[next_fd k]})).

(** A wait reports the first registration of a descriptor that is ready: an
    event descriptor is when its counter is not zero, the others always. *)
#[export] Instance DemoSys_sys : Sys DemoSys := {
  sys_epoll_create1 := demo_open false;
  sys_eventfd := demo_open true;
  sys_epoll_ctl k epfd op fd mask h :=
    (true, MkDemoSys (snd (@epoll_ctl _ DemoKernel_epoll (regs k) op fd mask h)) (next_fd k) (open_fds k) (event_fds k) (counters k));
  sys_epoll_wait k epfd n r k' :=
    match r with
    | WaitError _ => k' = k
    | WaitEvents l => 1 <= n /\ exists l1 fd mask h l2, regs k = l1 ++ (fd, mask, h) :: l2 /\ (fd ∈ event_fds k -> fd ∈ counters k) /\
        l = [MkEvent mask h] /\ k' = MkDemoSys (if flag_set mask k_epolloneshot then l1 ++ l2 else regs k) (next_fd k) (open_fds k) (event_fds k) (counters k)
    end;
  sys_read k fd := (if decide (fd ∈ counters k) then 8 else -1, MkDemoSys (regs k) (next_fd k) (open_fds k) (event_fds k) (counters k ∖ {[fd]}));
  sys_write k fd := MkDemoSys (regs k) (next_fd k) (open_fds k) (event_fds k) ({[fd]} ∪ counters k);
  sys_close k fd := MkDemoSys (regs k) (next_fd k) (open_fds k ∖ {[fd]}) (event_fds k ∖ {[fd]}) (counters k);
  sys_env k k' := k' = k
}.

Definition demo_sys_armed (k : DemoSys) : list nat := demo_armed (regs k).
Definition demo_sys_oneshot (k : DemoSys) : Prop := demo_oneshot (regs k).
Definition demo_pending (k : DemoSys) (fd : Z) : bool := bool_decide (fd ∈ counters k).

Lemma demo_open_makes is_event k fd k' : demo_open is_event k = (fd, k') -> makes demo_sys_armed demo_sys_oneshot open_fds k fd k'.
Proof.
  unfold demo_open, makes, no_more, demo_sys_armed, demo_sys_oneshot.
  destruct (decide _) as [Hd|Hd]; intros [= <- <-]; cbn [regs open_fds]; [by split; [|]|].
  split; [done|]. destruct (Z.ltb_spec (next_fd k) 0) as [Hlt|_]; [destruct Hd; by right|]. split; [|done]. intros Hin. apply Hd. by left.
Qed.

Lemma demo_ctl k op fd mask h b k' : demo_oneshot k -> h = None \/ flag_set mask k_epolloneshot = true ->
  @epoll_ctl _ DemoKernel_epoll k op fd mask h = (b, k') ->
  demo_oneshot k' /\ forall t, (occ t (demo_armed k') <= occ t (option_list h ++ demo_armed k))%nat.
Proof.
  intros Hk Hm [= _ <-]. set (f := fun r : Z * Z * option nat => negb (fst (fst r) =? fd)).
  destruct (demo_filter f k Hk) as [H1 H2].
  assert (H3 : demo_oneshot ((fd, mask, h) :: List.filter f k)) by (constructor; [by destruct Hm as [->|?]; [left|right]|done]).
  destruct op; (split; [done|]); intros t; specialize (H2 t); rewrite ?demo_armed_cons, occ_app; cbn [snd]; lia.
Qed.

#[export] Instance DemoSys_laws : SysLaws demo_sys_armed demo_sys_oneshot open_fds event_fds demo_pending.
Proof.
  split; cbn [sys_epoll_create1 sys_eventfd sys_epoll_ctl sys_epoll_wait sys_read sys_write sys_close sys_env DemoSys_sys].
  - apply demo_open_makes.
  - intros k fd k' E. split; [by apply (demo_open_makes true)|]. unfold demo_open in E. destruct (decide _); injection E as <- <-; [lia|].
    intros _. cbn. set_solver.
  - intros k epfd op fd mask h b k' Hk Hm [= <- <-]. cbn [open_fds]. unfold demo_sys_oneshot, demo_sys_armed. cbn [regs].
    destruct (demo_ctl (regs k) op fd mask h _ _ Hk Hm (surjective_pairing _)) as [D1 D2]. done.
  - by intros k epfd op fd mask h b k' [= <- <-].
  - intros k epfd n l k' Hk (Hn & l1 & fd & mask & h & l2 & E & _ & -> & ->). unfold demo_sys_oneshot, demo_sys_armed. cbn [regs].
    destruct (@wait_armed _ _ _ _ DemoKernel_laws (regs k) [h] (if flag_set mask k_epolloneshot then l1 ++ l2 else regs k)) as [W1 W2];
      [done|by exists l1, fd, mask, h, l2|]. split; [done|]. split; [cbn; lia|]. intros t. specialize (W2 t).
    change (omap user_handle [MkEvent mask h]) with (omap id [h]). done.
  - by intros k epfd n e k' ->.
  - intros k epfd n [e|l] k'; [by intros ->|]. by intros (_ & l1 & fd & mask & h & l2 & _ & _ & _ & ->).
  - intros k fd n k' _ [= <- <-]. unfold demo_pending. cbn [counters event_fds]. split; [done|]. split; [done|]. split; [apply bool_decide_false; set_solver|].
    destruct (decide (fd ∈ counters k)); [rewrite bool_decide_true by done|rewrite bool_decide_false by done]; split; (lia || done).
  - intros k fd _. unfold demo_pending. cbn [counters event_fds]. split; [apply bool_decide_true; set_solver|done].
  - by intros k k' ->.
  - done.
Qed.

Definition demo_kernel : DemoSys := MkDemoSys [] 3 ∅ ∅ ∅.
Definition demo_queue : option (EpollEventQueue * DemoSys) := QueueNew (fun _ => 4096) 64 2 demo_kernel.

Definition opened_after (q : EpollEventQueue) (k : DemoSys) : gset Z := open_fds (snd (QueueDestroy q k)).

Lemma demo_read k fd : sys_read k fd = (if decide (fd ∈ counters k) then 8 else -1, MkDemoSys (regs k) (next_fd k) (open_fds k) (event_fds k) (counters k ∖ {[fd]})).
Proof. done. Qed.

(** One interrupt of two waiting threads: the first one to return consumes it,
    and nothing is left to report to the second one. *)
Lemma interrupt_wakes_one_thread q mask k : regs k = [(fd_ (wakeup_fd_ q), mask, None)] -> fd_ (wakeup_fd_ q) ∈ event_fds k ->
  flag_set mask k_epolloneshot = false -> 0 <= epoll_fd_ q -> 1 <= thread_max_events_ (buffers q) ->
  exists w1 k1, QueueWait q 0 (QueueInterruptAll q k) w1 k1 /\ triggered w1 = [MkEvent mask None] /\
    forall w2 k2, QueueWait q 1 k1 w2 k2 -> triggered w2 = [].
Proof.
  intros Hr Hev Hm Hep Hn. set (fd := fd_ (wakeup_fd_ q)) in *. set (k0 := QueueInterruptAll q k).
  assert (Hc : fd ∈ counters k0) by (cbn; set_solver).
  set (k1 := snd (sys_read k0 fd)). set (k2 := snd (sys_read k1 fd)). eexists _, k2. split; [|split].
  - eapply (queue_wait_events q 0 k0 [MkEvent mask None] k0); [done| |].
    + split; [done|]. exists [], fd, mask, None, []. split; [exact Hr|]. split; [done|]. split; [done|]. rewrite Hm. reflexivity.
    + eapply (drain_more q k0 k0 8 k1); [reflexivity| |done|]; [unfold k1; rewrite demo_read, decide_True by done; reflexivity|].
      eapply (drain_end q k1 k1 (-1)); [reflexivity| |done].
      unfold k2. rewrite demo_read, decide_False; [reflexivity|]. unfold k1. cbn. set_solver.
  - done.
  - intros w2 k3 Hw. inversion Hw as [|k' l k4 k5 _ Hready]; subst; [done|].
    destruct Hready as (_ & l1 & fd' & mask' & h & l2 & Er & Hready & _). change (regs k2) with (regs k) in Er. rewrite Hr in Er.
    assert (fd' = fd) as ->.
    { destruct l1 as [|r l1]; [by injection Er|]. injection Er as _ Er. by destruct l1. }
    change (event_fds k2) with (event_fds k) in Hready. specialize (Hready Hev). cbn in Hready. set_solver.
Qed.

(** A queue for two threads. *)
Lemma event_queue_implements_interface_witness :
  demo_sys_oneshot demo_kernel /\ demo_sys_armed demo_kernel = [] /\
  exists q k1, demo_queue = Some (q, k1) /\ @EpollLaws DemoSys (QueueEpoll q) demo_sys_armed (queue_ok demo_sys_oneshot event_fds q) /\
    opened_after q k1 = open_fds demo_kernel.
Proof.
  assert (H1 : demo_sys_oneshot demo_kernel) by constructor. assert (H2 : demo_sys_armed demo_kernel = []) by reflexivity.
  split; [exact H1|]. split; [exact H2|].
  assert (H3 : is_Some demo_queue) by (apply (bool_decide_unpack _); vm_compute; exact I).
  destruct demo_queue as [[q k1]|] eqn:E; [|by destruct H3]. exists q, k1. split; [reflexivity|].
  destruct (event_queue_implements_interface (opened := open_fds) (eventfds := event_fds) (pending := demo_pending) _ _ _ _ q k1 H1 H2 E)
    as (_ & _ & L & _ & _ & _ & _ & O).
  split; [exact L|exact O].
Defined.
