(* ===== verification/Fiber.v ===== *)
(** [os/exec_context.h] and the context switches of [task/]: what [Task.v]
    takes for granted, that a thread at [PcRun] runs the code of its current
    task and elsewhere its own loop, is here the work of saved contexts.

    Every thread has a point its processor is at; a context is an object in
    memory that can hold a saved point and knows the context to go back to.  A
    saved point is good for one use -- the stack it belongs to has run on
    afterwards -- so [swapcontext] takes it out.  The C library's contexts are
    a parameter. *)
From stdpp Require Import functions.
From S2P Require Import Prelude Containers Task TaskSafe.
Local Open Scope Z_scope.

(** * Contexts *)

(** In the loop of a thread, behind the switch to a task; in a task, at its
    entry or behind the switch to the loop. *)
Inductive Point := AtLoop (i : nat) | AtTask (t : nat).
#[export] Instance Point_eq_dec : EqDecision Point.
Proof. solve_decision. Defined.

(** The local variable [main_context] of a thread; the member [context_] of a
    task. *)
Inductive CtxAddr := MainCtx (i : nat) | TaskCtx (t : nat).
#[export] Instance CtxAddr_eq_dec : EqDecision CtxAddr.
Proof. solve_decision. Defined.

(** What [swapcontext] stores, what [makecontext] makes to enter a task, and
    where execution goes on when a context is activated. *)
Class UContext (U : Type) := {
  uc_saved : Point -> U;
  uc_made : nat -> U;
  uc_point : U -> option Point
}.
Class UContextLaws (U : Type) `{UContext U} : Prop := {
  saved_point : forall p, uc_point (uc_saved p) = Some p;
  made_point : forall t, uc_point (uc_made t) = Some (AtTask t)
}.

Section Contexts.
  Context {U : Type} `{UContext U}.

(** source/base/platform/linux/os/exec_context.h:10-33 [ExecContext] *)
Record ExecContext := MkContext { prev_ : option CtxAddr; ctx_ : option U }.

(** The contexts in memory and the points the threads are at. *)
Record Machine := MkMachine { contexts : CtxAddr -> option ExecContext; cpu : nat -> Point }.

Definition with_context (a : CtxAddr) (c : option ExecContext) (m : Machine) : Machine :=
  MkMachine (<[a := c]> (contexts m)) (cpu m).

(** The thread [i] stores where it is in [old] and goes on where [new] says. *)
Definition swapcontext (i : nat) (old new : CtxAddr) (m : Machine) : option Machine :=
  match contexts m old with
  | None => None
  | Some o =>
      let m1 := with_context old (Some (MkContext (prev_ o) (Some (uc_saved (cpu m i))))) m in
      match contexts m1 new with
      | Some (MkContext p (Some u)) =>
          option_map (fun pt => MkMachine (<[new := Some (MkContext p None)]> (contexts m1)) (<[i := pt]> (cpu m)))
            (uc_point u)
      | _ => None
      end
  end.

(** The task [t] is entered with its function on its own stack. *)
(** source/base/platform/linux/os/exec_context.h:36-51 [ExecContext::Execute] *)
Definition ContextExecute (this prev : CtxAddr) (t i : nat) (m : Machine) : option Machine :=
  match contexts m this with
  | None => None
  | Some _ => swapcontext i prev this (with_context this (Some (MkContext (Some prev) (Some (uc_made t)))) m)
  end.

(** source/base/platform/linux/os/exec_context.h:22-24 [ExecContext::Suspend] *)
Definition ContextSuspend (this : CtxAddr) (i : nat) (m : Machine) : option Machine :=
  match contexts m this with Some (MkContext (Some prev) _) => swapcontext i this prev m | _ => None end.

(** Behind the function of the task. *)
(** source/base/platform/linux/os/exec_context.h:38-41 [func_ptr] *)
Definition ContextReturn (cur : CtxAddr) (i : nat) (m : Machine) : option Machine :=
  match contexts m cur with Some (MkContext (Some prev) _) => swapcontext i cur prev m | _ => None end.

(** source/base/platform/linux/os/exec_context.h:26-29 [ExecContext::Resume] *)
Definition ContextResume (this prev : CtxAddr) (i : nat) (m : Machine) : option Machine :=
  match contexts m this with
  | None => None
  | Some c => swapcontext i prev this (with_context this (Some (MkContext (Some prev) (ctx_ c))) m)
  end.

(** A context that holds the point, to be used once. *)
Definition holds (m : Machine) (a : CtxAddr) (p : Point) : Prop :=
  exists c u, contexts m a = Some c /\ ctx_ c = Some u /\ uc_point u = Some p.
End Contexts.

Arguments ExecContext U : clear implicits.
Arguments Machine U : clear implicits.

(** * Threads on contexts *)

Section Fibers.
  Context {Func K U : Type} `{Epoll K} `{UContext U}.

Record Fibers := MkFibers { manager : @TaskManager Func K; machine : Machine U }.

Definition new_context : ExecContext U := MkContext None None.

(** The current task of a thread. *)
Definition current_of (i : nat) (s : @TaskManager Func K) : option nat := threads_ s !! i ≫= fun w => current_task_ (exec_ w).

(** The thread a task is on. *)
Definition thread_of (t : nat) (s : @TaskManager Func K) : option nat := tasks s !! t ≫= fun task => thread_ task.

(** With a tuple in hand the thread makes a task if there is none -- its
    context is a member of it --, and a context of its own for this turn of the
    loop, and executes or resumes the task, whose state [state] is. *)
(** source/task/worker_thread.cc:86-102 [WorkerThread::ThreadProc] *)
Definition SwitchTo (i : nat) (tup : @TaskTuple Func) (st : Fibers) (s' : @TaskManager Func K) : option Fibers :=
  match current_of i s' with
  | None => None
  | Some t =>
      let m := with_context (MainCtx i) (Some new_context) (machine st) in
      let m := if task_ tup then m else with_context (TaskCtx t) (Some new_context) m in
      let state := match task_ tup with None => Some NotStarted | Some _ => option_map state_ (tasks (manager st) !! t) end in
      option_map (MkFibers s')
        match state with
        | Some NotStarted => ContextExecute (TaskCtx t) (MainCtx i) t i m
        | Some Suspended => ContextResume (TaskCtx t) (MainCtx i) i m
        | _ => None
        end
  end.

(** At the end of the turn the thread's context is gone, and the task's if the
    task was destroyed.  (With a flag left to write this is one step early; the
    write has nothing to do with contexts.) *)
(** source/task/worker_thread.cc:86-102 [WorkerThread::ThreadProc] *)
Definition EndTurn (i t : nat) (st : Fibers) (s' : @TaskManager Func K) : Fibers :=
  let m := with_context (MainCtx i) None (machine st) in
  MkFibers s' (if tasks s' !! t then m else with_context (TaskCtx t) None m).

(** What the loop of a thread does where the thread is in its loop. *)
(** source/task/worker_thread.cc:70-110 [WorkerThread::ThreadProc] *)
Definition LoopStep (i : nat) (w : @WorkerThread Func) (st : Fibers) : option Fibers :=
  match ThreadStep i w (manager st) with
  | None => None
  | Some s' =>
      match pc w, current_task_ (exec_ w) with
      | PcGot tup, _ => SwitchTo i tup st s'
      | PcPost, Some t => Some (EndTurn i t st s')
      | _, _ => Some (MkFibers s' (machine st))
      end
  end.

(** What the code of the task [t] does where a thread is in it.  It is the
    current task of its thread that is suspended. *)
(** source/task/task.cc:21-27 [Task::Suspend] *)
Definition TaskAct (i t : nat) (a : @Action Func) (st : Fibers) : option Fibers :=
  match Act i t a (manager st) with
  | None => None
  | Some s' =>
      match a with
      | AReturn => option_map (MkFibers s') (ContextReturn (TaskCtx t) i (machine st))
      | AWait _ _ | AYield | AExit =>
          match thread_of t (manager st) ≫= fun th => current_of th (manager st) with
          | Some u => option_map (MkFibers s') (ContextSuspend (TaskCtx u) i (machine st))
          | None => None
          end
      | AAsync _ | ASource _ _ | ARemove _ => Some (MkFibers s' (machine st))
      end
  end.

(** Which code a thread executes is what its processor says. *)
Inductive fiber_step : Fibers -> Fibers -> Prop :=
| fiber_wait st i w evs k' :
    threads_ (manager st) !! i = Some w -> cpu (machine st) i = AtLoop i -> pc w = PcWait ->
    epoll_wait (event_queue_ (manager st)) evs k' ->
    fiber_step st (MkFibers (with_thread i (with_pc (PcEvents evs)) (with_kernel k' (manager st))) (machine st))
| fiber_loop st i w st' :
    threads_ (manager st) !! i = Some w -> cpu (machine st) i = AtLoop i -> LoopStep i w st = Some st' -> fiber_step st st'
| fiber_act st i t a st' :
    is_Some (threads_ (manager st) !! i) -> cpu (machine st) i = AtTask t -> action_ok a = true -> TaskAct i t a st = Some st' ->
    fiber_step st st'
| fiber_stop st i : fiber_step st (MkFibers (with_thread i DelayedStop (manager st)) (machine st))
| fiber_interrupt st : fiber_step st (MkFibers (InterruptAll (manager st)) (machine st))
| fiber_env st k' :
    epoll_env (event_queue_ (manager st)) k' -> fiber_step st (MkFibers (with_kernel k' (manager st)) (machine st)).

(** A failed assertion, an undefined access, a context that cannot be activated. *)
Definition fiber_fails (st : Fibers) : Prop :=
  exists i w, threads_ (manager st) !! i = Some w /\
    match cpu (machine st) i with
    | AtLoop j => j <> i \/ LoopStep i w st = None
    | AtTask t => exists a, action_ok a = true /\ TaskAct i t a st = None
    end.

(** No contexts yet, all threads in their loops. *)
Definition FibersNew (s : @TaskManager Func K) : Fibers := MkFibers s (MkMachine (fun _ => None) AtLoop).
End Fibers.

Arguments Fibers Func K U : clear implicits.

(** * Switching *)

Section Switching.
  Context {U : Type} `{UContextLaws U}.

Lemma swap_done i old new (m : Machine U) o c u pt :
  old <> new -> contexts m old = Some o -> contexts m new = Some c -> ctx_ c = Some u -> uc_point u = Some pt ->
  exists m', swapcontext i old new m = Some m' /\ cpu m' = <[i := pt]> (cpu m) /\ holds m' old (cpu m i) /\
    (exists c', contexts m' new = Some c' /\ prev_ c' = prev_ c) /\
    forall a, a <> old -> a <> new -> contexts m' a = contexts m a.
Proof.
  intros Hne Ho Hn Hu Hp. unfold swapcontext. rewrite Ho. cbn [with_context contexts cpu].
  rewrite (fn_lookup_insert_ne _ old new) by done. rewrite Hn. destruct c as [pv k]. cbn in Hu. subst k. rewrite Hp. cbn [option_map].
  eexists. split; [done|]. split; [done|]. cbn [contexts]. split; [|split].
  - unfold holds. cbn [contexts]. eexists _, _. rewrite (fn_lookup_insert_ne _ new old) by done. rewrite fn_lookup_insert. split; [done|]. split; [done|]. apply saved_point.
  - eexists. by rewrite fn_lookup_insert.
  - intros a H1 H2. by rewrite !fn_lookup_insert_ne by done.
Qed.

Lemma holds_frame (m m' : Machine U) a p : contexts m' a = contexts m a -> holds m a p -> holds m' a p.
Proof. intros E (c & u & Hc & Hu). exists c, u. by rewrite E. Qed.
End Switching.

(** * Which task each thread is in *)

Section Running.
  Context {Func K : Type} {armed : K -> list nat} {oneshot : K -> Prop} `{EpollLaws K armed oneshot}.
  Implicit Types (s : @TaskManager Func K) (w : @WorkerThread Func).

Definition running_task w : option nat := match pc w with PcRun => current_task_ (exec_ w) | _ => None end.
Definition running s : list (option nat) := running_task <$> threads_ s.

Lemma running_set i f s w :
  threads_ s !! i = Some w -> running (with_thread i f s) = <[i := running_task (f w)]> (running s).
Proof.
  intros Hi. unfold running, with_thread. cbn [threads_]. apply list_eq. intros j. rewrite list_lookup_fmap.
  destruct (decide (j = i)) as [->|Hne].
  - rewrite list_lookup_alter_eq, Hi. cbn [fmap option_fmap option_map]. rewrite list_lookup_insert_eq; [done|].
    rewrite length_fmap. by eapply lookup_lt_Some.
  - by rewrite list_lookup_alter_ne, list_lookup_insert_ne, list_lookup_fmap.
Qed.

Lemma running_same i f s :
  (forall w, threads_ s !! i = Some w -> running_task (f w) = running_task w) -> running (with_thread i f s) = running s.
Proof.
  intros Hf. destruct (threads_ s !! i) as [w|] eqn:Hi.
  - rewrite (running_set i f s w) by done. apply list_insert_id. unfold running. rewrite list_lookup_fmap, Hi. cbn. by rewrite Hf.
  - unfold running, with_thread. cbn [threads_]. f_equal. apply list_eq. intros j.
    destruct (decide (j = i)) as [->|Hne]; [by rewrite list_lookup_alter_eq, Hi|by rewrite list_lookup_alter_ne].
Qed.

Lemma running_lookup i s r : running s !! i = Some r -> exists w, threads_ s !! i = Some w /\ running_task w = r.
Proof. unfold running. rewrite list_lookup_fmap. intros (w & Hw & ->)%fmap_Some. by exists w. Qed.

(** A task runs on one thread. *)
Lemma running_once s i j t :
  inv (armed := armed) (oneshot := oneshot) s -> running s !! i = Some (Some t) -> running s !! j = Some (Some t) -> j = i.
Proof.
  intros Hs (w & Hi & Hw)%running_lookup (v & Hj & Hv)%running_lookup. unfold running_task in *.
  destruct (pc w); try done. destruct (pc v); try done. by apply (current_alone s i w t Hs Hi Hw) with (v := v).
Qed.

Lemma PostTask_effect i t w s s1 :
  PostTask i t w s = Some s1 ->
  (exists g, threads_ s1 = alter g i (threads_ s) /\ forall v, pc (g v) <> PcRun) /\ (tasks s1 = tasks s \/ tasks s1 = delete t (tasks s)).
Proof.
  unfold PostTask. destruct (has_pending_event_ _); [|destruct (yield_ _)].
  - destruct (tasks s !! t) as [task|]; [|done]. destruct (pending_event_ _) as [p|]; [|done]. destruct (state_ task); try done.
    unfold AddEvent. destruct (_ <? 0); [done|]. destruct (epoll_ctl _ _ _ _ _). intros [= <-].
    split; [|by left]. eexists. split; [done|]. intros v. cbn. by destruct (negb _).
  - intros [= <-]. split; [by eexists|by left].
  - intros [= <-]. split; [by eexists|by right].
Qed.

(** The loop of a thread leaves the tasks and what the threads are in alone,
    but for the start and the end of a turn. *)
Lemma DequeStep_running s i w j s' :
  threads_ s !! i = Some w -> pc w = PcDeque j -> DequeStep i j s = Some s' -> running s' = running s /\ tasks s' = tasks s.
Proof.
  intros Hi Hpc E.
  assert (Hmove : forall p, p <> PcRun -> running (with_thread i (with_pc p) s) = running s).
  { intros p Hp. apply running_same. intros v Hv. rewrite Hi in Hv. injection Hv as <-. unfold running_task. cbn. rewrite Hpc. by destruct p. }
  unfold DequeStep in E. destruct (_ <? j)%nat; [injection E as <-; split; [by apply Hmove|done]|].
  destruct (threads_ s !! DequeVictim _ _ _) as [v|] eqn:Ev; [|done]. destruct (Pop _) as [[tup|] q].
  - injection E as <-. split; [|done]. rewrite running_same; [apply running_same; by intros x _|].
    intros x Hx. unfold running_task. cbn [with_pc pc]. unfold with_thread in Hx. cbn [threads_] in Hx.
    assert (Hpx : pc x = pc w); [|by rewrite Hpx, Hpc].
    destruct (decide (DequeVictim i (length (threads_ s)) j = i)) as [Ei|Hne].
    + rewrite Ei, list_lookup_alter_eq, Hi in Hx. by injection Hx as <-.
    + rewrite list_lookup_alter_ne in Hx by done. congruence.
  - injection E as <-. split; [by apply Hmove|done].
Qed.

Lemma ThreadStep_running s i w s' :
  threads_ s !! i = Some w -> ThreadStep i w s = Some s' -> (forall tup, pc w <> PcGot tup) ->
  running s' = running s /\
  (tasks s' = tasks s \/ pc w = PcPost /\ exists t, current_task_ (exec_ w) = Some t /\ tasks s' = delete t (tasks s)).
Proof.
  intros Hi E Hgot.
  assert (Hnow : forall v, threads_ s !! i = Some v -> v = w) by congruence.
  assert (Hmove : forall p, pc w <> PcRun -> p <> PcRun -> running (with_thread i (with_pc p) s) = running s).
  { intros p Hw Hp. apply running_same. intros v ->%Hnow. unfold running_task. cbn. by destruct (pc w), p. }
  unfold ThreadStep in E. destruct (pc w) as [| |[|[t|] l]|j|tup| | |t p|j n|] eqn:Hpc.
  - destruct (running_ w); injection E as <-; (split; [|by left]); apply running_same; intros v ->%Hnow;
      unfold running_task; cbn; by rewrite Hpc.
  - injection E as <-. split; [done|by left].
  - injection E as <-. split; [by apply Hmove|by left].
  - injection E as <-. split; [|by left]. apply running_same. intros v ->%Hnow. unfold running_task. cbn. by rewrite Hpc.
  - injection E as <-. split; [by apply Hmove|by left].
  - destruct (DequeStep_running s i w j s' Hi Hpc E) as [E1 E2]. split; [done|by left].
  - by destruct (Hgot tup).
  - injection E as <-. split; [done|by left].
  - destruct (current_task_ (exec_ w)) as [t|] eqn:Hc; [|done].
    destruct (PostTask_effect i t w s s' E) as [(g & Hg & Hpg) Ht].
    split; [|destruct Ht as [Ht|Ht]; [by left|right; split; [done|by exists t]]].
    change (running s') with (running_task <$> threads_ s'). rewrite Hg. change (running (with_thread i g s) = running s).
    apply running_same. intros v ->%Hnow. unfold running_task. rewrite Hpc. specialize (Hpg w). by destruct (pc (g w)).
  - injection E as <-. split; [|by left]. apply (running_same i _ (MarkAdded p s)). intros v ->%Hnow. unfold running_task. cbn. by rewrite Hpc.
  - destruct (threads_ s !! j) as [other|] eqn:Ej.
    + destruct (finished_ other); injection E as <-; [split; [by apply Hmove|by left]|]. split; [|by left].
      rewrite running_same; [by apply running_same|]. intros x Hx. unfold running_task. cbn [with_pc pc].
      unfold with_thread in Hx. cbn [threads_] in Hx. assert (Hpx : pc x = pc w); [|by rewrite Hpx, Hpc].
      destruct (decide (j = i)) as [->|Hne]; [rewrite list_lookup_alter_eq, Hi in Hx; by injection Hx as <-|].
      rewrite list_lookup_alter_ne in Hx by done. congruence.
    + injection E as <-. split; [|by left]. unfold InterruptAll. rewrite running_same; [done|]. intros v Hv. cbn in Hv. rewrite (Hnow v Hv).
      unfold running_task. cbn. rewrite Hpc. by destruct n.
  - injection E as <-. split; [done|by left].
Qed.

(** A task in the hand of a thread is suspended. *)
Lemma in_hand_suspended s i w t :
  inv (armed := armed) (oneshot := oneshot) s -> threads_ s !! i = Some w -> t ∈ pc_tasks w ->
  exists task, tasks s !! t = Some task /\ state_ task = Suspended.
Proof.
  intros Hs Hi Ht. apply (i_wait s Hs t). unfold waits.
  pose proof (total_in (fun w => occ t (waiting_in w)) i w _ Hi) as Hle. cbv beta in Hle. unfold waiting_in in Hle at 1.
  rewrite occ_app in Hle. apply occ_some in Ht. lia.
Qed.

Lemma StartTask_effect s i w tup :
  inv (armed := armed) (oneshot := oneshot) s -> threads_ s !! i = Some w -> pc w = PcGot tup ->
  exists t task' s', StartTask i tup w s = Some s' /\ inv (armed := armed) (oneshot := oneshot) s' /\
    running s' = <[i := Some t]> (running s) /\ current_of i s' = Some t /\
    tasks s' !! t = Some task' /\ state_ task' = Executing /\ (forall u, u <> t -> tasks s' !! u = tasks s !! u) /\
    (task_ tup = None /\ tasks s !! t = None \/
     task_ tup = Some t /\ exists task, tasks s !! t = Some task /\ state_ task = Suspended).
Proof.
  intros Hs Hi Hpc. destruct (StartTask_ok s i w tup Hs Hi Hpc) as (s' & E & Hs').
  assert (Hrun : forall t e f, current_task_ e = Some t ->
    let s1 := with_thread i (fun w => with_pc PcRun (with_exec e w)) (with_tasks f s) in
    running s1 = <[i := Some t]> (running s) /\ current_of i s1 = Some t).
  { intros t e f He s1. split.
    - subst s1. rewrite (running_set i _ (with_tasks f s) w) by done. unfold running_task. cbn. by rewrite He.
    - unfold current_of, s1, with_thread. cbn [threads_ with_tasks]. rewrite list_lookup_alter_eq, Hi. exact He. }
  pose proof E as E1. unfold StartTask, PreTask in E1. destruct (task_ tup) as [t|] eqn:Et.
  - destruct (in_hand_suspended s i w t Hs Hi) as (task & Em & Est).
    { unfold pc_tasks. rewrite Hpc, Et. by left. }
    rewrite Em, Est in E1. unfold TaskResume in E1. rewrite Est in E1. destruct (current_task_ (exec_ w)); [done|].
    injection E1 as Es. exists t, (MkTask (func_ task) Executing (Some i)), s'. split; [exact E|]. split; [exact Hs'|].
    rewrite <- Es. match goal with |- context [with_exec ?e _] => match goal with |- context [with_tasks ?f s] =>
      destruct (Hrun t e f eq_refl) as [-> ->] end end.
    split; [done|]. split; [done|]. cbn [tasks with_thread with_tasks]. rewrite lookup_insert_eq.
    split; [done|]. split; [done|]. split; [intros u Hu; by rewrite lookup_insert_ne|]. right. by eauto.
  - unfold CreateTask in E1. set (t := fresh (dom (tasks s))) in *. cbn [tasks with_tasks] in E1. rewrite lookup_insert_eq in E1.
    unfold TaskExecute in E1. cbn [func_ state_] in E1. destruct (current_task_ (exec_ w)); [done|].
    destruct (tuple_func_ tup) as [fn|]; [|done]. injection E1 as Es.
    exists t, (MkTask (Some fn) Executing (Some i)), s'. split; [exact E|]. split; [exact Hs'|].
    set (f := fun m : gmap nat (@Task Func) => <[t := MkTask (Some fn) Executing (Some i)]> (<[t := MkTask (Some fn) NotStarted None]> m)).
    assert (Hf : s' = with_thread i (fun v => with_pc PcRun (with_exec (MkExec (Some t) (pending_event_ (exec_ w))
      (pending_event_flags_ (exec_ w)) (has_pending_event_ (exec_ w)) (yield_ (exec_ w)) 0) v)) (with_tasks f s)) by (by rewrite <- Es).
    clear Es. subst s'. destruct (Hrun t (MkExec (Some t) (pending_event_ (exec_ w))
      (pending_event_flags_ (exec_ w)) (has_pending_event_ (exec_ w)) (yield_ (exec_ w)) 0) f eq_refl) as [-> ->].
    split; [done|]. split; [done|]. cbn [tasks with_thread with_tasks]. unfold f. rewrite lookup_insert_eq.
    split; [done|]. split; [done|]. split; [intros u Hu; by rewrite !lookup_insert_ne|]. left. split; [done|].
    apply not_elem_of_dom, is_fresh.
Qed.

(** The actions that give the thread back to its loop. *)
Definition switches (a : @Action Func) : bool := match a with AWait _ _ | AYield | AExit | AReturn => true | _ => false end.

Lemma SuspendCurrent_effect i g s w t s' :
  threads_ s !! i = Some w -> current_task_ (exec_ (g w)) = Some t ->
  SuspendCurrent i (with_thread i g s) = Some s' ->
  running s' = <[i := None]> (running s) /\ exists task', tasks s' = <[t := task']> (tasks s).
Proof.
  intros Hi Hc. rewrite (with_thread_set i g w) by done. unfold SuspendCurrent. rewrite (set_thread_lookup i (g w) w) by done. rewrite Hc.
  cbn [tasks set_thread]. destruct (tasks s !! t) as [task|]; [|done]. unfold TaskSuspend.
  destruct (thread_ task); [|done]. destruct (state_ task); try done. intros [= <-]. split; [|by eexists].
  rewrite (running_set i _ _ (g w)); [|by apply (set_thread_lookup i (g w) w)].
  unfold running. cbn [set_thread threads_ with_tasks]. rewrite list_fmap_insert, list_insert_insert_eq. done.
Qed.

Lemma Act_effect s i w t a :
  inv (armed := armed) (oneshot := oneshot) s -> threads_ s !! i = Some w -> running_task w = Some t -> action_ok a = true ->
  thread_of t s = Some i /\ current_of i s = Some t /\
  exists s', Act i t a s = Some s' /\ inv (armed := armed) (oneshot := oneshot) s' /\
    running s' = (if switches a then <[i := None]> (running s) else running s) /\
    (tasks s' = tasks s \/ switches a = true /\ a <> AReturn /\ exists task', tasks s' = <[t := task']> (tasks s)).
Proof.
  intros Hs Hi Hrun Ha. unfold running_task in Hrun. destruct (pc w) eqn:Hpc; try done.
  destruct (i_thread s Hs i w Hi) as (_ & _ & Hp). unfold pc_ok in Hp. rewrite Hpc in Hp.
  destruct Hp as (t' & task & Hc & Hm & Hst & Hth & _). rewrite Hrun in Hc. injection Hc as <-.
  split; [unfold thread_of; by rewrite Hm|]. split; [unfold current_of; by rewrite Hi|].
  destruct (Act_ok s i w t a Hs Hi Hpc Hrun Ha) as (s' & E & Hs'). exists s'. split; [done|]. split; [done|].
  unfold Act in E. rewrite Hm, Hth in E.
  assert (Hsus : forall g, current_task_ (exec_ (g w)) = Some t -> SuspendCurrent i (with_thread i g s) = Some s' ->
    running s' = <[i := None]> (running s) /\ exists task', tasks s' = <[t := task']> (tasks s))
    by (intros g Hg Es; by apply (SuspendCurrent_effect i g s w t s')).
  destruct a as [f|p flags| | | |p fd|p]; cbn [switches].
  - injection E as <-. unfold PerformAsync, InterruptAll. split; [|by left]. by apply (running_same i _ s).
  - unfold WaitEvent in E. eapply Hsus in E as [H1 H2]; [|done]. split; [done|]. right. by split_and!.
  - unfold Yield in E. eapply Hsus in E as [H1 H2]; [|done]. split; [done|]. right. by split_and!.
  - destruct (Hsus DelayedStop Hrun E) as [H1 H2]. split; [done|]. right. by split_and!.
  - injection E as <-. split; [|by left]. rewrite (running_set i _ s w) by done. done.
  - injection E as <-. split; [done|by left].
  - unfold RemoveEvent in E. destruct (_ <? 0); [done|]. destruct (epoll_ctl _ _ _ _ _). injection E as <-. split; [done|by left].
Qed.
End Running.

(** * Invariant *)

Section Invariant.
  Context {Func K U : Type} {armed : K -> list nat} {oneshot : K -> Prop} `{EpollLaws K armed oneshot} `{UContextLaws U}.
  Abbreviation Fibers := (Fibers Func K U).
  Abbreviation safe := (inv (armed := armed) (oneshot := oneshot)).
  Implicit Types (st : Fibers) (s : @TaskManager Func K) (w : @WorkerThread Func) (m : Machine U).

(** A thread in a task: its own context holds its loop, and the task's context
    goes back to it. *)
Definition inside m (i t : nat) : Prop :=
  cpu m i = AtTask t /\ holds m (MainCtx i) (AtLoop i) /\
  exists c, contexts m (TaskCtx t) = Some c /\ prev_ c = Some (MainCtx i).

Record fiber_inv st : Prop := {
  fi_tasks : safe (manager st);
  fi_cpu : forall i r, running (manager st) !! i = Some r ->
    match r with Some t => inside (machine st) i t | None => cpu (machine st) i = AtLoop i end;
  fi_saved : forall t task, tasks (manager st) !! t = Some task -> state_ task = Suspended -> holds (machine st) (TaskCtx t) (AtTask t)
}.

Lemma inside_frame m m' i t :
  cpu m' i = cpu m i -> contexts m' (MainCtx i) = contexts m (MainCtx i) -> contexts m' (TaskCtx t) = contexts m (TaskCtx t) ->
  inside m i t -> inside m' i t.
Proof. intros E1 E2 E3 (J1 & J2 & J3). split; [by rewrite E1|]. split; [by apply (holds_frame m)|by rewrite E3]. Qed.

Lemma running_task_there s i t : safe s -> running s !! i = Some (Some t) -> is_Some (tasks s !! t).
Proof.
  intros Hs (w & Hi & Hw)%running_lookup. destruct (i_thread s Hs i w Hi) as (_ & _ & Hp). apply (pc_ok_current i w _ t Hp).
  unfold running_task in Hw. by destruct (pc w).
Qed.

(** What does not switch and takes no task up. *)
Lemma fiber_same st s' :
  fiber_inv st -> safe s' -> running s' = running (manager st) ->
  (forall t task, tasks s' !! t = Some task -> tasks (manager st) !! t = Some task) -> fiber_inv (MkFibers s' (machine st)).
Proof. intros [I1 I2 I3] Hs Hr Ht. split; cbn [manager machine]; [done|by rewrite Hr|]. intros t task Hm. by apply I3, Ht. Qed.

Lemma loop_not_running st i w :
  fiber_inv st -> threads_ (manager st) !! i = Some w -> cpu (machine st) i = AtLoop i -> running (manager st) !! i = Some None.
Proof.
  intros Hst Hi Hc. assert (Hr : running (manager st) !! i = Some (running_task w)) by (unfold running; by rewrite list_lookup_fmap, Hi).
  rewrite Hr. destruct (running_task w) as [t|]; [|done]. destruct (fi_cpu st Hst i _ Hr) as (E & _). congruence.
Qed.

Lemma in_task st i w t :
  fiber_inv st -> threads_ (manager st) !! i = Some w -> cpu (machine st) i = AtTask t ->
  running_task w = Some t /\ inside (machine st) i t.
Proof.
  intros Hst Hi Hc. assert (Hr : running (manager st) !! i = Some (running_task w)) by (unfold running; by rewrite list_lookup_fmap, Hi).
  pose proof (fi_cpu st Hst i _ Hr) as Hin. destruct (running_task w) as [u|]; [|congruence].
  assert (u = t) as -> by (destruct Hin as (E & _); congruence). done.
Qed.

(** ** Into a task *)

Lemma enter_task st i t m s' :
  fiber_inv st -> cpu (machine st) i = AtLoop i -> cpu m = cpu (machine st) ->
  contexts m (MainCtx i) = Some new_context ->
  (exists u, contexts m (TaskCtx t) = Some (MkContext (Some (MainCtx i)) (Some u)) /\ uc_point u = Some (AtTask t)) ->
  (forall a, a <> MainCtx i -> a <> TaskCtx t -> contexts m a = contexts (machine st) a) ->
  safe s' -> (i < length (threads_ (manager st)))%nat -> running s' = <[i := Some t]> (running (manager st)) ->
  (forall task, tasks s' !! t = Some task -> state_ task = Executing) ->
  (forall u, u <> t -> tasks s' !! u = tasks (manager st) !! u) ->
  exists m', swapcontext i (MainCtx i) (TaskCtx t) m = Some m' /\ fiber_inv (MkFibers s' m').
Proof.
  intros Hst Hcpu Hm Hmain (u & Htask & Hu) Hother Hs Hlt Hr Hex Htasks.
  destruct (swap_done i (MainCtx i) (TaskCtx t) m new_context (MkContext (Some (MainCtx i)) (Some u)) u (AtTask t))
    as (m' & E & Hc & Hold & (c & Hc' & Hp) & Hframe); try done.
  exists m'. split; [done|]. rewrite Hm, Hcpu in Hold. rewrite Hm in Hc.
  assert (Hri : running s' !! i = Some (Some t)) by (rewrite Hr; apply list_lookup_insert_eq; unfold running; by rewrite length_fmap).
  split; cbn [manager machine]; [done| |].
  - intros j r Hj. destruct (decide (j = i)) as [->|Hne].
    + rewrite Hri in Hj. injection Hj as <-. split; [by rewrite Hc, fn_lookup_insert|]. split; [done|by exists c].
    + pose proof Hj as Hj0. rewrite Hr, list_lookup_insert_ne in Hj by done. pose proof (fi_cpu st Hst j r Hj) as Hin. destruct r as [v|].
      * assert (v <> t) by (intros ->; by apply Hne, (running_once s' i j t Hs)). revert Hin.
        apply inside_frame; [by rewrite Hc, fn_lookup_insert_ne|by rewrite Hframe, Hother; try congruence..].
      * by rewrite Hc, fn_lookup_insert_ne.
  - intros v task Hv Hsus. assert (Hne : v <> t) by (intros ->; by rewrite (Hex task Hv) in Hsus).
    rewrite (Htasks v Hne) in Hv. pose proof (fi_saved st Hst v task Hv Hsus) as Hh. revert Hh. apply holds_frame.
    by rewrite Hframe, Hother by congruence.
Qed.

Lemma SwitchTo_ok st i w tup :
  fiber_inv st -> threads_ (manager st) !! i = Some w -> cpu (machine st) i = AtLoop i -> pc w = PcGot tup ->
  exists s' st', StartTask i tup w (manager st) = Some s' /\ SwitchTo i tup st s' = Some st' /\ manager st' = s' /\ fiber_inv st'.
Proof.
  intros Hst Hi Hcpu Hpc. pose proof (lookup_lt_Some _ _ _ Hi) as Hlt.
  destruct (StartTask_effect (manager st) i w tup (fi_tasks st Hst) Hi Hpc)
    as (t & task' & s' & E & Hs' & Hr & Hcur & Ht & Hex & Hothers & Hwhich).
  assert (Hexec : forall task, tasks s' !! t = Some task -> state_ task = Executing) by (intros task; rewrite Ht; by intros [= <-]).
  exists s'. unfold SwitchTo. rewrite Hcur. destruct Hwhich as [[-> Hnone]|[-> (task & Hm & Hsus)]].
  - unfold ContextExecute. cbn [with_context contexts]. rewrite fn_lookup_insert.
    set (m := with_context (TaskCtx t) (Some (MkContext _ (Some (uc_made t)))) _).
    destruct (enter_task st i t m s') as (m' & -> & Hm'); try done.
    + unfold m. cbn [with_context contexts]. rewrite !fn_lookup_insert_ne by done. by rewrite fn_lookup_insert.
    + unfold m. cbn [with_context contexts]. rewrite fn_lookup_insert. eexists. split; [done|]. apply made_point.
    + intros a A1 A2. unfold m. cbn [with_context contexts]. by rewrite !fn_lookup_insert_ne by done.
    + by eexists.
  - rewrite Hm. cbn [option_map]. rewrite Hsus. destruct (fi_saved st Hst t task Hm Hsus) as (c & u & Hc & Hu & Hpt).
    unfold ContextResume. cbn [with_context contexts]. rewrite fn_lookup_insert_ne by done. rewrite Hc.
    set (m := with_context (TaskCtx t) (Some (MkContext _ (ctx_ c))) _).
    destruct (enter_task st i t m s') as (m' & -> & Hm'); try done.
    + unfold m. cbn [with_context contexts]. rewrite !fn_lookup_insert_ne by done. by rewrite fn_lookup_insert.
    + exists u. unfold m. cbn [with_context contexts]. rewrite fn_lookup_insert, Hu. done.
    + intros a A1 A2. unfold m. cbn [with_context contexts]. by rewrite !fn_lookup_insert_ne by done.
    + by eexists.
Qed.

(** ** Back to the loop *)

Lemma leave_task st i t s' :
  fiber_inv st -> inside (machine st) i t -> safe s' -> (i < length (threads_ (manager st)))%nat ->
  running (manager st) !! i = Some (Some t) -> running s' = <[i := None]> (running (manager st)) ->
  (forall u, u <> t -> tasks s' !! u = tasks (manager st) !! u) ->
  exists m', swapcontext i (TaskCtx t) (MainCtx i) (machine st) = Some m' /\ fiber_inv (MkFibers s' m').
Proof.
  intros Hst (Hcpu & (cm & u & Hmain & Hu & Hpt) & (c & Hc & Hp)) Hs Hlt Hrun Hr Htasks.
  destruct (swap_done i (TaskCtx t) (MainCtx i) (machine st) c cm u (AtLoop i))
    as (m' & E & Hc' & Hold & _ & Hframe); try done.
  exists m'. split; [done|]. rewrite Hcpu in Hold. split; cbn [manager machine]; [done| |].
  - intros j r Hj. destruct (decide (j = i)) as [->|Hne].
    + rewrite Hr, list_lookup_insert_eq in Hj by (unfold running; by rewrite length_fmap). injection Hj as <-.
      by rewrite Hc', fn_lookup_insert.
    + rewrite Hr, list_lookup_insert_ne in Hj by done. pose proof (fi_cpu st Hst j r Hj) as Hin. destruct r as [v|].
      * assert (v <> t) by (intros ->; by apply Hne, (running_once (manager st) i j t (fi_tasks st Hst))). revert Hin.
        apply inside_frame; [by rewrite Hc', fn_lookup_insert_ne|by rewrite Hframe by congruence..].
      * by rewrite Hc', fn_lookup_insert_ne.
  - intros v task Hv Hsus. destruct (decide (v = t)) as [->|Hne]; [done|]. rewrite (Htasks v Hne) in Hv.
    pose proof (fi_saved st Hst v task Hv Hsus) as Hh. revert Hh. apply holds_frame. by rewrite Hframe by congruence.
Qed.

Lemma TaskAct_ok st i w t a :
  fiber_inv st -> threads_ (manager st) !! i = Some w -> cpu (machine st) i = AtTask t -> action_ok a = true ->
  exists st', TaskAct i t a st = Some st' /\ Act i t a (manager st) = Some (manager st') /\ fiber_inv st'.
Proof.
  intros Hst Hi Hcpu Ha. destruct (in_task st i w t Hst Hi Hcpu) as [Hrun Hin]. pose proof (lookup_lt_Some _ _ _ Hi) as Hlt.
  assert (Hri : running (manager st) !! i = Some (Some t)) by (unfold running; rewrite list_lookup_fmap, Hi; cbn; by rewrite Hrun).
  destruct (Act_effect (manager st) i w t a (fi_tasks st Hst) Hi Hrun Ha) as (Hth & Hcur & s' & E & Hs' & Hr & Ht).
  unfold TaskAct. rewrite E, Hth. cbn [mbind option_bind]. rewrite Hcur.
  assert (Hleave : switches a = true -> exists m', swapcontext i (TaskCtx t) (MainCtx i) (machine st) = Some m' /\ fiber_inv (MkFibers s' m')).
  { intros Hsw. rewrite Hsw in Hr. apply leave_task; try done. intros u Hu. destruct Ht as [->|(_ & _ & task' & ->)]; [done|].
    by rewrite lookup_insert_ne. }
  destruct Hin as (_ & _ & ([pv k] & Hc & Hp)). cbn in Hp. subst pv.
  assert (Hstay : switches a = false -> fiber_inv (MkFibers s' (machine st))).
  { intros Hsw. rewrite Hsw in Hr. destruct Ht as [Ht|(Hsw' & _)]; [|congruence]. apply fiber_same; try done. by rewrite Ht. }
  destruct a as [f|p flags| | | |p fd|p]; cbn [switches] in *;
    try (unfold ContextSuspend, ContextReturn; rewrite Hc; destruct (Hleave eq_refl) as (m' & -> & Hm'); by eexists);
    (eexists; split; [done|]; split; [done|by apply Hstay]).
Qed.

Lemma EndTurn_ok st i t s' :
  fiber_inv st -> running (manager st) !! i = Some None -> safe s' -> running s' = running (manager st) ->
  tasks s' = tasks (manager st) \/ tasks s' = delete t (tasks (manager st)) ->
  fiber_inv (EndTurn i t st s').
Proof.
  intros Hst Hri Hs Hr Ht. unfold EndTurn.
  assert (Hsub : forall u task, tasks s' !! u = Some task -> tasks (manager st) !! u = Some task).
  { intros u task. destruct Ht as [->| ->]; [done|]. by intros [_ Hu]%lookup_delete_Some. }
  set (m := if tasks s' !! t then _ else _).
  assert (Hcpu : cpu m = cpu (machine st)) by (unfold m; by destruct (tasks s' !! t)).
  assert (Hctx : forall a, a <> MainCtx i -> (forall u, a = TaskCtx u -> is_Some (tasks s' !! u)) -> contexts m a = contexts (machine st) a).
  { intros a Hne Ha. unfold m. destruct (tasks s' !! t) eqn:Et; cbn [with_context contexts].
    - by rewrite fn_lookup_insert_ne.
    - rewrite fn_lookup_insert_ne; [by rewrite fn_lookup_insert_ne|]. intros E. destruct (Ha t (eq_sym E)). congruence. }
  split; cbn [manager machine]; [done| |].
  - intros j r Hj. rewrite Hr in Hj. pose proof (fi_cpu st Hst j r Hj) as Hin. destruct r as [u|]; [|by rewrite Hcpu].
    assert (j <> i) by congruence. revert Hin. apply inside_frame; [by rewrite Hcpu| |]; apply Hctx; try congruence.
    intros v [= <-]. rewrite <- Hr in Hj. by apply (running_task_there s' j u).
  - intros u task Hu Hsus. pose proof (fi_saved st Hst u task (Hsub u task Hu) Hsus) as Hh. revert Hh. apply holds_frame.
    apply Hctx; [done|]. intros v [= <-]. by eexists.
Qed.

Lemma LoopStep_ok st i w :
  fiber_inv st -> threads_ (manager st) !! i = Some w -> cpu (machine st) i = AtLoop i ->
  exists st', LoopStep i w st = Some st' /\ ThreadStep i w (manager st) = Some (manager st') /\ fiber_inv st'.
Proof.
  intros Hst Hi Hcpu. pose proof (loop_not_running st i w Hst Hi Hcpu) as Hri. unfold LoopStep.
  destruct (ThreadStep_ok (manager st) i w (fi_tasks st Hst) Hi) as (s' & E & Hs').
  assert (Hgot : (exists tup, pc w = PcGot tup) \/ forall tup, pc w <> PcGot tup) by (destruct (pc w); try (by right); left; by eexists).
  destruct Hgot as [[tup Hpc]|Hgot].
  - destruct (SwitchTo_ok st i w tup Hst Hi Hcpu Hpc) as (s2 & st' & E2 & Esw & Hm & Hst').
    unfold ThreadStep in E |- *. rewrite Hpc in *. rewrite E in E2. injection E2 as <-. rewrite E, Esw. exists st'. by rewrite Hm.
  - destruct (ThreadStep_running (manager st) i w s' Hi E) as [Hr Ht]; [exact Hgot|].
    assert (Hsame : fiber_inv (MkFibers s' (machine st))).
    { apply fiber_same; try done. intros t task. destruct Ht as [->|(_ & u & _ & ->)]; [done|]. by intros [_ Ht]%lookup_delete_Some. }
    rewrite E. destruct (pc w) eqn:Hpc; try (eexists; split; [done|]; by split).
    + by destruct (Hgot task_data).
    + destruct (current_task_ (exec_ w)) as [t|] eqn:Hc; (eexists; split; [done|]); (split; [done|]); [|done].
      apply EndTurn_ok; try done. destruct Ht as [Ht|(_ & u & Eu & Ht)]; [by left|]. injection Eu as <-. by right.
Qed.

(** ** Steps of one and of the other *)

Lemma running_stop s i : running (with_thread i DelayedStop s) = running s.
Proof. by apply running_same. Qed.

Lemma running_wait s i w evs k :
  threads_ s !! i = Some w -> pc w = PcWait -> running (with_thread i (with_pc (PcEvents evs)) (with_kernel k s)) = running s.
Proof.
  intros Hi Hpc. rewrite running_same; [done|]. intros v Hv. cbn in Hv. rewrite Hi in Hv. injection Hv as <-.
  unfold running_task. cbn. by rewrite Hpc.
Qed.

Lemma fiber_step_inv st st' : fiber_step st st' -> fiber_inv st -> fiber_inv st' /\ step (manager st) (manager st').
Proof.
  intros Hstep Hst. destruct Hstep as [st i w evs k' Hi Hcpu Hpc Hw|st i w st' Hi Hcpu E|st i t a st' [w Hi] Hcpu Ha E|st i|st|st k' He].
  - assert (S1 : step (manager st) (with_thread i (with_pc (PcEvents evs)) (with_kernel k' (manager st)))) by by apply (step_wait _ i w).
    split; [|done]. apply fiber_same; try done; [by apply (step_inv (manager st)), Hst|by apply (running_wait _ i w)].
  - destruct (LoopStep_ok st i w Hst Hi Hcpu) as (st2 & E2 & Et & Hst2). rewrite E in E2. injection E2 as <-.
    split; [done|]. by apply (step_thread _ i w).
  - destruct (TaskAct_ok st i w t a Hst Hi Hcpu Ha) as (st2 & E2 & Et & Hst2). rewrite E in E2. injection E2 as <-.
    split; [done|]. destruct (in_task st i w t Hst Hi Hcpu) as [Hrun _]. unfold running_task in Hrun. destruct (pc w) eqn:Hpc; try done.
    by apply (step_act _ i w t a).
  - split; [|apply step_stop]. apply fiber_same; try done; [by apply (step_inv (manager st)), Hst; constructor|apply running_stop].
  - split; [|apply step_interrupt]. apply fiber_same; try done. by apply (step_inv (manager st)), Hst; constructor.
  - split; [|by apply step_env]. apply fiber_same; try done. by apply (step_inv (manager st)), Hst; constructor.
Qed.

Lemma cpu_follows st i w :
  fiber_inv st -> threads_ (manager st) !! i = Some w ->
  cpu (machine st) i = match pc w, current_task_ (exec_ w) with PcRun, Some t => AtTask t | _, _ => AtLoop i end.
Proof.
  intros Hst Hi. assert (Hr : running (manager st) !! i = Some (running_task w)) by (unfold running; by rewrite list_lookup_fmap, Hi).
  pose proof (fi_cpu st Hst i _ Hr) as Hin. unfold running_task in Hin. destruct (pc w); try done.
  destruct (current_task_ (exec_ w)); [apply Hin|done].
Qed.

Lemma step_lifts st s' : fiber_inv st -> step (manager st) s' -> exists st', rtc fiber_step st st' /\ manager st' = s'.
Proof.
  intros Hst Hstep. remember (manager st) as s eqn:Hs.
  assert (Hone : forall st', fiber_step st st' -> exists st2, rtc fiber_step st st2 /\ manager st2 = manager st')
    by (intros st' Hf; exists st'; split; [by apply rtc_once|done]).
  destruct Hstep as [s i w evs k' Hi Hpc Hw|s i w s' Hi E|s i w t a s' Hi Hpc Hc Ha E|s i|s|s k' He]; subst s.
  - refine (Hone _ (fiber_wait st i w evs k' Hi _ Hpc Hw)). rewrite (cpu_follows st i w) by done. by rewrite Hpc.
  - pose proof (cpu_follows st i w Hst Hi) as Hcpu. destruct (running_task w) as [t|] eqn:Hrun.
    + unfold running_task in Hrun. unfold ThreadStep in E. destruct (pc w); try done. injection E as <-. by exists st.
    + assert (Hl : cpu (machine st) i = AtLoop i).
      { rewrite Hcpu. unfold running_task in Hrun. destruct (pc w); try done. by rewrite Hrun. }
      destruct (LoopStep_ok st i w Hst Hi Hl) as (st' & El & Et & _). rewrite E in Et. injection Et as ->.
      exact (Hone st' (fiber_loop st i w st' Hi Hl El)).
  - assert (Hcpu : cpu (machine st) i = AtTask t) by (rewrite (cpu_follows st i w) by done; by rewrite Hpc, Hc).
    destruct (TaskAct_ok st i w t a Hst Hi Hcpu Ha) as (st' & El & Et & _). rewrite E in Et. injection Et as ->.
    refine (Hone st' (fiber_act st i t a st' _ Hcpu Ha El)). by eexists.
  - exact (Hone _ (fiber_stop st i)).
  - exact (Hone _ (fiber_interrupt st)).
  - exact (Hone _ (fiber_env st k' He)).
Qed.

Lemma fiber_inv_safe st : fiber_inv st -> ~ fiber_fails st.
Proof.
  intros Hst (i & w & Hi & Hf). destruct (cpu (machine st) i) as [j|t] eqn:Hcpu.
  - assert (j = i) as ->.
    { pose proof (cpu_follows st i w Hst Hi) as Hc. rewrite Hcpu in Hc. destruct (pc w), (current_task_ (exec_ w)); congruence. }
    destruct Hf as [?|E]; [done|]. destruct (LoopStep_ok st i w Hst Hi Hcpu) as (st' & E' & _). congruence.
  - destruct Hf as (a & Ha & E). destruct (TaskAct_ok st i w t a Hst Hi Hcpu Ha) as (st' & E' & _). congruence.
Qed.

Lemma FibersNew_inv num_threads (entrypoints : list Func) srcs k :
  (forall p, 0 <= fd_ (srcs p)) -> oneshot k -> armed k = [] -> fiber_inv (FibersNew (Run num_threads entrypoints srcs k)).
Proof.
  intros Hsrc Hone Harm. pose proof (Run_inv num_threads entrypoints srcs k Hsrc Hone Harm) as Hs. split; [done| |done].
  cbn [FibersNew manager machine cpu]. intros i r Hr. destruct r as [t|]; [|done].
  destruct (running_task_there _ i t Hs Hr) as [task Ht]. done.
Qed.
End Invariant.

(** * Stack use

    A build that tracks the stacks marks every word of a stack before a task is
    executed, and behind the first switch back measures from the lowest word
    that was written to.  A stack is the list of its 32-bit words, from its
    lowest address. *)

Definition stack_mark : Z := 0xC1D2E3F4.

(** source/task/task.cc:39-45 [Task::DebugFillStack] *)
Definition DebugFillStack (stack_buf : list Z) : list Z := map (fun _ => stack_mark) stack_buf.

(** source/task/task.cc:47-55 [Task::DebugCheckStack] *)
Fixpoint DebugCheckStack (stack_buf : list Z) : Z :=
  match stack_buf with
  | [] => 0
  | word :: above => if word =? stack_mark then DebugCheckStack above else 4 * Z.of_nat (length stack_buf)
  end.

(** The lowest word that differs from the mark counts, and what was marked and
    not written to does not. *)
Lemma stack_use_measured stack :
  0 <= DebugCheckStack stack <= 4 * Z.of_nat (length stack) /\ DebugCheckStack (DebugFillStack stack) = 0 /\
  forall j word, stack !! j = Some word -> word <> stack_mark ->
    4 * (Z.of_nat (length stack) - Z.of_nat j) <= DebugCheckStack stack.
Proof.
  induction stack as [|w stack (IH1 & IH2 & IH3)]; [split; [done|]; split; [done|]; by intros j word|].
  cbn [DebugCheckStack DebugFillStack map length]. split; [destruct (w =? stack_mark); lia|]. split.
  - rewrite Z.eqb_refl. exact IH2.
  - intros [|j] word Hj Hne; cbn in Hj.
    + injection Hj as ->. apply Z.eqb_neq in Hne. rewrite Hne. lia.
    + specialize (IH3 j word Hj Hne). destruct (w =? stack_mark); [lia|]. lia.
Qed.

(** Bytes written below the top of the stack are all measured, if the lowest
    word of them does not hold the mark. *)
Lemma stack_use_exact (stack unused used : list Z) :
  stack = map (fun _ => stack_mark) unused ++ used -> (forall word, head used = Some word -> word <> stack_mark) ->
  DebugCheckStack stack = 4 * Z.of_nat (length used).
Proof.
  intros -> Hu. induction unused as [|x unused IH]; cbn [map app DebugCheckStack]; [|by rewrite Z.eqb_refl].
  destruct used as [|w used]; [done|]. cbn [DebugCheckStack]. by rewrite (proj2 (Z.eqb_neq w stack_mark)) by by apply Hu.
Qed.

(** * Properties *)

(** C29. The context switches carry the tasks: whatever the tasks do and however
    the threads and the kernel interleave, no context is activated that does
    not hold a saved point, and none twice; a thread whose state says that it
    runs its current task executes that task's code, and every other thread its
    own loop; so the threads on their contexts go through exactly the states of
    the task system. *)
Theorem fibers_run_tasks {Func K U} {armed : K -> list nat} {oneshot : K -> Prop} `{EpollLaws K armed oneshot} `{UContextLaws U}
    num_threads (entrypoints : list Func) srcs k (st : Fibers Func K U) :
  (forall p, 0 <= fd_ (srcs p)) -> oneshot k -> armed k = [] ->
  rtc fiber_step (FibersNew (Run num_threads entrypoints srcs k)) st ->
  ~ fiber_fails st /\
  (forall i w, threads_ (manager st) !! i = Some w ->
     cpu (machine st) i = match pc w, current_task_ (exec_ w) with PcRun, Some t => AtTask t | _, _ => AtLoop i end) /\
  rtc step (Run num_threads entrypoints srcs k) (manager st) /\
  (forall s', step (manager st) s' -> exists st', rtc fiber_step st st' /\ manager st' = s').
Proof.
  intros Hsrc Hone Harm Hr.
  pose proof (FibersNew_inv (U := U) num_threads entrypoints srcs k Hsrc Hone Harm) as Hst0.
  change (Run num_threads entrypoints srcs k) with (manager (U := U) (FibersNew (Run num_threads entrypoints srcs k))).
  generalize dependent (FibersNew (U := U) (Run num_threads entrypoints srcs k)). intros st0 Hr Hst0.
  assert (Hst : fiber_inv (armed := armed) (oneshot := oneshot) st /\ rtc step (manager st0) (manager st)).
  { induction Hr as [st0|st0 st1 st2 Hstep _ IH]; [done|]. destruct (fiber_step_inv st0 st1 Hstep Hst0) as [Hst1 Hs].
    destruct (IH Hst1) as [Hst2 Hs2]. split; [done|]. by eapply rtc_l. }
  destruct Hst as [Hst Hs]. split; [exact (fiber_inv_safe st Hst)|]. split; [|split; [done|]].
  - intros i w Hi. by apply (cpu_follows st i w Hst).
  - intros s'. exact (step_lifts st s' Hst).
Qed.

(** Saved points as they are. *)
#[export] Instance Point_ucontext : UContext Point := { uc_saved p := p; uc_made t := AtTask t; uc_point u := Some u }.
#[export] Instance Point_ucontext_laws : UContextLaws Point.
Proof. by split. Qed.

(** The scheduler of [TaskSafe] for threads on contexts. *)
Definition fiber_drive1 {Func} (c : Choice Func) (st : Fibers Func DemoKernel Point) : option (Fibers Func DemoKernel Point) :=
  match c with
  | CWait i =>
      match threads_ (manager st) !! i, event_queue_ (manager st), cpu (machine st) i with
      | Some w, (fd, mask, h) :: k, AtLoop j =>
          match pc w with
          | PcWait =>
              if (j =? i)%nat then
                Some (MkFibers (with_thread i (with_pc (PcEvents [h]))
                  (with_kernel (if flag_set mask k_epolloneshot then k else event_queue_ (manager st)) (manager st))) (machine st))
              else None
          | _ => None
          end
      | _, _, _ => None
      end
  | CThread i =>
      match threads_ (manager st) !! i, cpu (machine st) i with
      | Some w, AtLoop j => if (j =? i)%nat then LoopStep i w st else None
      | _, _ => None
      end
  | CAct i a =>
      match threads_ (manager st) !! i, cpu (machine st) i with
      | Some w, AtTask t => if action_ok a then TaskAct i t a st else None
      | _, _ => None
      end
  end.

Fixpoint fiber_drive {Func} (cs : list (Choice Func)) (st : Fibers Func DemoKernel Point) : option (Fibers Func DemoKernel Point) :=
  match cs with
  | [] => Some st
  | c :: cs' => match fiber_drive1 c st with Some st' => fiber_drive cs' st' | None => None end
  end.

Lemma fiber_drive1_step {Func} (c : Choice Func) st st' : fiber_drive1 c st = Some st' -> fiber_step st st'.
Proof.
  destruct c as [i|i|i a]; cbn [fiber_drive1]; destruct (threads_ (manager st) !! i) as [w|] eqn:Hi; try done.
  - destruct (event_queue_ (manager st)) as [|[[fd mask] h] k] eqn:Ek; [done|]. destruct (cpu _ i) as [j|] eqn:Hc; [|done].
    destruct (pc w) eqn:Hpc; try done. destruct (Nat.eqb_spec j i) as [->|]; [|done]. intros [= <-].
    apply (fiber_wait st i w [h]); try done. rewrite Ek. by exists [], fd, mask, h, k.
  - destruct (cpu _ i) as [j|] eqn:Hc; [|done]. destruct (Nat.eqb_spec j i) as [->|]; [|done]. intros E. by apply (fiber_loop st i w).
  - destruct (cpu _ i) as [j|t] eqn:Hc; [done|]. destruct (action_ok a) eqn:Ha; [|done]. intros E. apply (fiber_act st i t a); try done.
Qed.

Lemma fiber_drive_steps {Func} (cs : list (Choice Func)) st st' : fiber_drive cs st = Some st' -> rtc fiber_step st st'.
Proof.
  revert st. induction cs as [|c cs IH]; intros st; cbn; [by intros [= ->]|].
  destruct (fiber_drive1 c st) as [st1|] eqn:E; [|done]. intros Hd. apply (rtc_l _ st st1); [by apply (fiber_drive1_step c)|by apply IH].
Qed.

(** The run of [TaskSafe], and then the task that yielded is taken up by the
    other thread. *)
Definition demo_schedule : list (Choice string) := demo_run ++ [CThread 0; CThread 0; CThread 0; CThread 0; CThread 0].
Definition demo_fibers : option (Fibers string DemoKernel Point) := fiber_drive demo_schedule (FibersNew demo_start).

Lemma demo_fibers_steps st : demo_fibers = Some st -> rtc fiber_step (FibersNew demo_start) st.
Proof. unfold demo_fibers. intros E. by apply fiber_drive_steps in E. Qed.

Lemma fibers_run_tasks_witness :
  exists st, demo_fibers = Some st /\ ~ fiber_fails st /\ cpu (machine st) 0 = AtTask 1 /\ cpu (machine st) 1 = AtLoop 1.
Proof.
  assert (G : option_map (fun st => (cpu (machine st) 0%nat, cpu (machine st) 1%nat)) demo_fibers = Some (AtTask 1, AtLoop 1))
    by (vm_compute; reflexivity).
  destruct demo_fibers as [st|] eqn:E; [|discriminate G]. injection G as G1 G2.
  destruct (fibers_run_tasks 2 ["main"%string] (fun _ => MkSource 0 false) [(5, FlagRead, None)] st
    (armed := demo_armed) (oneshot := demo_oneshot)) as [Hsafe _].
  - intros p. cbn. lia.
  - constructor; [by left|constructor].
  - reflexivity.
  - exact (demo_fibers_steps st E).
  - exists st. repeat split; assumption.
Defined.
