(* ===== verification/Platform.v ===== *)
(** [os/utils.cc] and the exit handler of [main/main.cc]: what a signal does to
    the process, and pinning of threads.  Signals, processor sets and the
    number of cores are the system's. *)
From S2P Require Import Prelude Containers Task.
Local Open Scope Z_scope.

(** * Signals *)

Inductive Signal := SIGINT | SIGTERM | OtherSignal (sig : Z).

(** What handling a signal does outside: a call of the logger, a call of the
    handler with an exit code, the end of the process. *)
Inductive ExitEffect := CallLogger (str : bytes) | CallHandler (exit_code : Z) | KillProcess.

(** The two flags, and whether the two functions are set. *)
(** source/base/platform/linux/os/utils.cc:14-17 [platform_init_exit, exit_called, exit_logger, exit_handler] *)
Record ExitState := MkExitState {
  platform_init_exit : bool;
  exit_called : bool;
  exit_logger : bool;
  exit_handler : bool
}.

Definition ExitStateNew : ExitState := MkExitState false false false false.

(** source/base/platform/linux/os/utils.cc:19-23 [exit_log] *)
Definition exit_log (str : bytes) (st : ExitState) : list ExitEffect := if exit_logger st then [CallLogger str] else [].

(** source/base/platform/linux/os/utils.cc:25-49 [ExitHandler] *)
Definition ExitHandler (sig : Signal) (st : ExitState) : list ExitEffect * ExitState :=
  if exit_called st then ([], st)
  else
    let st := MkExitState (platform_init_exit st) true (exit_logger st) (exit_handler st) in
    let log :=
      match sig with
      | SIGINT => exit_log (lit "Caught SIGINT. Will exit.") st
      | SIGTERM => exit_log (lit "Caught SIGTERM. Will exit.") st
      | OtherSignal _ => exit_log (lit "Exit called.") st
      end in
    (log ++ [if exit_handler st then CallHandler 0 else KillProcess], st).

(** A second call ends the process, and so does a logger that is not there. *)
(** source/base/platform/linux/os/utils.cc:73-91 [InitExitHandler] *)
Definition InitExitHandler (exit_handler_ logger_ : bool) (st : ExitState) : option (list ExitEffect * ExitState) :=
  if platform_init_exit st then None
  else if logger_ then
    Some ([CallLogger (lit "Setting up exit handler for Linux")], MkExitState true (exit_called st) logger_ exit_handler_)
  else None.

Fixpoint HandleSignals (sigs : list Signal) (st : ExitState) : list ExitEffect * ExitState :=
  match sigs with
  | [] => ([], st)
  | sig :: sigs' =>
      let '(effects, st) := ExitHandler sig st in
      let '(rest, st) := HandleSignals sigs' st in (effects ++ rest, st)
  end.

Lemma HandleSignals_called sigs st : exit_called st = true -> HandleSignals sigs st = ([], st).
Proof.
  intros Hc. induction sigs as [|sig sigs IH]; [done|]. cbn [HandleSignals]. unfold ExitHandler. rewrite Hc. by rewrite IH.
Qed.

(** * The task manager *)

Section Exit.
  Context {Func K : Type} `{Epoll K}.

(** What the effects do to the task manager, which is there once [Run] has made
    its threads, and to the exit code; before, the assertion of [Stop] fails.
    (What other threads do while [Stop] runs is in the steps of [Task].)
    (The handlers hold references to the parameters of [CreateExitHandler],
    which are gone when a signal comes; this is what they mean to do.) *)
(** source/main/main.cc:221-241 [CreateExitHandler] *)
Definition platform_exit_handler (exit_code : Z) (p : option (@TaskManager Func K) * Z) : option (option (@TaskManager Func K) * Z) :=
  match fst p ≫= Stop with Some tasks => Some (Some tasks, exit_code) | None => None end.

Fixpoint apply_effects (effects : list ExitEffect) (p : option (@TaskManager Func K) * Z) : option (option (@TaskManager Func K) * Z) :=
  match effects with
  | [] => Some p
  | CallLogger _ :: effects' => apply_effects effects' p
  | CallHandler exit_code :: effects' =>
      match platform_exit_handler exit_code p with Some p' => apply_effects effects' p' | None => None end
  | KillProcess :: _ => None
  end.

(** However many signals come, in whatever order, the manager is stopped once
    and the exit code is 0; a signal that comes before the threads are there
    fails the assertion. *)
Lemma signals_stop_once sig sigs effects st s code :
  InitExitHandler true true ExitStateNew = Some (effects, st) ->
  apply_effects (fst (HandleSignals (sig :: sigs) st)) (Some s, code) = option_map (fun s => (Some s, 0)) (Stop s) /\
  apply_effects (fst (HandleSignals (sig :: sigs) st)) (None, code) = None.
Proof.
  intros [= _ <-]. cbn [HandleSignals]. unfold ExitHandler. cbn [exit_called platform_init_exit exit_logger exit_handler].
  rewrite HandleSignals_called by done.
  destruct sig; cbn; unfold platform_exit_handler; cbn [fst mbind option_bind]; by destruct (Stop s).
Qed.

End Exit.

(** * Pinning *)

(** [sched_setaffinity] is what the system answers for a core. *)
(** source/base/platform/linux/os/utils.cc:57-67 [PinThread] *)
Definition PinThread (num_cores : Z) (sched_setaffinity : Z -> bool) (core_index : Z) : bool :=
  if num_cores <=? core_index then false else sched_setaffinity core_index.

(** The core that is logged, and whether the thread was pinned to it. *)
(** source/task/worker_thread.cc:61-67 [WorkerThread::ThreadProc] *)
Definition PinWorker (num_cores : Z) (sched_setaffinity : Z -> bool) (index : Z) : Z * bool :=
  (index mod num_cores, PinThread num_cores sched_setaffinity index).

(** A thread beyond the number of cores is never pinned, though a core was
    chosen for it. *)
Lemma pin_beyond_cores num_cores sched_setaffinity index :
  0 < num_cores <= index -> 0 <= fst (PinWorker num_cores sched_setaffinity index) < num_cores /\
    snd (PinWorker num_cores sched_setaffinity index) = false.
Proof.
  intros [H1 H2]. cbn. split; [by apply Z.mod_pos_bound|]. unfold PinThread. by rewrite (proj2 (Z.leb_le _ _) H2).
Qed.

(** A thread with a core of its own index is pinned to the core that is logged. *)
Lemma pin_own_core num_cores sched_setaffinity index :
  0 <= index < num_cores ->
  PinWorker num_cores sched_setaffinity index = (index, sched_setaffinity index).
Proof.
  intros Hi. unfold PinWorker, PinThread. rewrite Z.mod_small by lia. by rewrite (proj2 (Z.leb_gt _ _)) by lia.
Qed.
