(* ===== verification/Semaphore.v ===== *)
(** [task/task_semaphore.h/.cc]: waiting for a number of signals.

    The counter is 32-bit and atomic; tasks on different threads interleave
    between their accesses to it.  A failed [compare_exchange_weak] may be
    spurious: the schedule says so.  A task that yields is resumed by
    [Task]. *)
From S2P Require Import Prelude.
Local Open Scope Z_scope.

(** * The operations *)

(** Where a task is: outside; before the assertion and before the decrement
    of [Signal]; before the exchange and in the yield of [Wait]; behind
    [Wait]; after a failed assertion. *)
(** source/task/task_semaphore.cc:13-24 [TaskSemaphore] *)
Inductive SemOp := SIdle | SAssert | SSub | SExchange | SYield | SPassed | SFailed.

#[export] Instance SemOp_eq_dec : EqDecision SemOp.
Proof. solve_decision. Defined.

(** source/task/task_semaphore.h:15-24 [TaskSemaphore] *)
Record Semaphore := MkSemaphore { count_ : Z; tasks : list SemOp }.

(** source/task/task_semaphore.cc:9-11 [TaskSemaphore] *)
Definition TaskSemaphoreNew (count : Z) (num_tasks : nat) : Semaphore := MkSemaphore count (replicate num_tasks SIdle).

(** source/task/task_semaphore.cc:13-16 [Signal] *)
Definition SignalStep (o : SemOp) (count : Z) : SemOp * Z :=
  match o with
  | SAssert => (if 0 <? count then SSub else SFailed, count)
  | SSub => (SIdle, (count - 1) mod 2 ^ 32)
  | _ => (o, count)
  end.

(** source/task/task_semaphore.cc:18-24 [Wait] *)
Definition WaitStep (spurious : bool) (o : SemOp) (count : Z) : SemOp * Z :=
  match o with
  | SExchange => if (count =? 0) && negb spurious then (SPassed, 0) else (SYield, count)
  | SYield => (SExchange, count)
  | _ => (o, count)
  end.

Definition SemStep (spurious : bool) (o : SemOp) (count : Z) : SemOp * Z :=
  match o with SAssert | SSub => SignalStep o count | _ => WaitStep spurious o count end.

(** * Interleaving *)

Inductive SemAction := ASignal (i : nat) | AWait (i : nat) | AStep (i : nat) (spurious : bool).

Definition sem_act (a : SemAction) (s : Semaphore) : option Semaphore :=
  match a with
  | ASignal i =>
      if decide (tasks s !! i = Some SIdle) then Some (MkSemaphore (count_ s) (<[i := SAssert]> (tasks s))) else None
  | AWait i =>
      if decide (tasks s !! i = Some SIdle) then Some (MkSemaphore (count_ s) (<[i := SExchange]> (tasks s))) else None
  | AStep i spurious =>
      match tasks s !! i with
      | None => None
      | Some o => let '(o', c) := SemStep spurious o (count_ s) in Some (MkSemaphore c (<[i := o']> (tasks s)))
      end
  end.

Fixpoint sem_run (l : list SemAction) (s : Semaphore) : option Semaphore :=
  match l with [] => Some s | a :: l => match sem_act a s with Some s' => sem_run l s' | None => None end end.

Definition signals (l : list SemAction) : nat :=
  sum_list_with (fun a => match a with ASignal _ => 1%nat | _ => 0%nat end) l.

(** * Correctness *)

Definition signalling (o : SemOp) : nat := match o with SAssert | SSub => 1 | _ => 0 end.
Definition pending (s : Semaphore) : nat := sum_list_with signalling (tasks s).

(** The counter is what is left of the count after the finished signals. *)
Record sem_inv (n begun : nat) (s : Semaphore) : Prop := {
  sv_count : count_ s = Z.of_nat n - Z.of_nat begun + Z.of_nat (pending s);
  sv_begun : (pending s <= begun)%nat;
  sv_ok : forall i o, tasks s !! i = Some o -> o <> SFailed /\ (o = SPassed -> begun = n /\ pending s = 0%nat)
}.

Lemma pending_insert s i o o' : tasks s !! i = Some o ->
  (sum_list_with signalling (<[i := o']> (tasks s)) + signalling o = pending s + signalling o')%nat.
Proof. apply sum_list_with_insert. Qed.

Lemma pending_lookup s i o : tasks s !! i = Some o -> (signalling o <= pending s)%nat.
Proof.
  unfold pending. revert i. induction (tasks s) as [|o0 l IH]; intros [|i] Hi; try done; cbn in *; simplify_eq; [lia|].
  specialize (IH i Hi). lia.
Qed.

(** A task goes on. *)
Lemma sem_inv_go n b b' s i o o' c : sem_inv n b s -> (b' <= n)%nat -> tasks s !! i = Some o -> o' <> SFailed ->
  (b <= b')%nat -> (signalling o' <= signalling o + (b' - b))%nat ->
  c - count_ s = Z.of_nat (signalling o') - Z.of_nat (signalling o) - Z.of_nat (b' - b) ->
  (o' = SPassed -> b' = n /\ pending s = 0%nat) ->
  sem_inv n b' (MkSemaphore c (<[i := o']> (tasks s))).
Proof.
  intros [Hc Hb Hok] Hn Hi Hf Hbb Hs Hd Hpass. pose proof (pending_insert s i o o' Hi) as Hp.
  pose proof (pending_lookup s i o Hi) as Hl. unfold pending in *.
  constructor; unfold pending; cbn [tasks count_]; [lia|lia|].
  intros j o'' Ho. apply list_lookup_insert_Some in Ho as [(<- & <- & _)|[_ Ho]].
  - split; [done|]. intros ->. destruct (Hpass eq_refl). cbn in *. lia.
  - destruct (Hok j o'' Ho) as [Hnf Hpa]. split; [done|]. intros ->. destruct (Hpa eq_refl) as [-> H0].
    assert (b' = n) as -> by lia. split; [done|]. rewrite H0 in *. lia.
Qed.

Lemma sem_act_inv n b s a s' : sem_inv n b s -> (b + signals [a] <= n)%nat -> Z.of_nat n < 2 ^ 32 ->
  sem_act a s = Some s' -> sem_inv n (b + signals [a]) s'.
Proof.
  intros Hinv Hb Hn. pose proof (sv_count _ _ _ Hinv) as Hc. pose proof (sv_begun _ _ _ Hinv) as Hbp.
  destruct a as [i|i|i spurious]; cbn -[Z.pow]; unfold signals in *; cbn in Hb |- *.
  - destruct (decide _) as [Hi|]; [|done]. intros [= <-]. eapply sem_inv_go; eauto; cbn; lia || done.
  - destruct (decide _) as [Hi|]; [|done]. intros [= <-]. eapply sem_inv_go; eauto; cbn; lia || done.
  - destruct (tasks s !! i) as [o|] eqn:Hi; [|done]. pose proof (pending_lookup s i o Hi) as Hl.
    destruct (sv_ok _ _ _ Hinv i o Hi) as [Hnf Hpass].
    destruct o; cbn -[Z.pow]; try done.
    + intros [= <-]. eapply sem_inv_go; eauto; cbn; lia || done.
    + cbn in Hl. rewrite (proj2 (Z.ltb_lt 0 (count_ s))) by lia. intros [= <-].
      eapply sem_inv_go; eauto; cbn; lia || done.
    + cbn in Hl. rewrite Z.mod_small by lia. intros [= <-]. eapply sem_inv_go; eauto; cbn; lia || done.
    + destruct ((count_ s =? 0) && negb spurious) eqn:E; intros [= <-].
      * apply andb_true_iff in E as [E%Z.eqb_eq _]. eapply sem_inv_go; eauto; cbn; try lia; done || lia.
      * eapply sem_inv_go; eauto; cbn; lia || done.
    + intros [= <-]. eapply sem_inv_go; eauto; cbn; lia || done.
    + intros [= <-]. destruct (Hpass eq_refl). eapply sem_inv_go; eauto; cbn; try lia; done || lia.
Qed.

Lemma signals_cons a l : signals (a :: l) = (signals [a] + signals l)%nat.
Proof. unfold signals. cbn. lia. Qed.

Lemma sem_run_inv n l : forall b s s', sem_inv n b s -> (b + signals l <= n)%nat -> Z.of_nat n < 2 ^ 32 ->
  sem_run l s = Some s' -> sem_inv n (b + signals l) s'.
Proof.
  induction l as [|a l IH]; intros b s s' Hinv Hb Hn.
  - intros [= <-]. by rewrite Nat.add_0_r.
  - pose proof (signals_cons a l) as E. cbn [sem_run]. destruct (sem_act a s) as [s1|] eqn:Ha; [|done].
    rewrite E, Nat.add_assoc. apply IH; [|lia|done]. eapply sem_act_inv; eauto. lia.
Qed.

Lemma pending_replicate m : sum_list_with signalling (replicate m SIdle) = 0%nat.
Proof. induction m; [done|]. cbn. done. Qed.

Lemma sem_inv_new n num_tasks : sem_inv n 0 (TaskSemaphoreNew (Z.of_nat n) num_tasks).
Proof.
  constructor; unfold pending, TaskSemaphoreNew; cbn [tasks count_]; rewrite ?pending_replicate; [lia|lia|].
  intros i o Ho. apply lookup_replicate in Ho as [-> _]. done.
Qed.

(** C37. A semaphore made with a count that is signalled at most that often:
    however the calls of [Signal] and [Wait] interleave and whenever an
    exchange fails spuriously, no assertion fails and the counter never wraps
    but is the count less the signals that were given; a [Wait] returns only
    when all signals of the count were given; and once they were, the next
    attempt of a waiting task that does not fail spuriously returns. *)
Theorem semaphore_waits_for_all_signals n num_tasks l s :
  Z.of_nat n < 2 ^ 32 -> (signals l <= n)%nat -> sem_run l (TaskSemaphoreNew (Z.of_nat n) num_tasks) = Some s ->
  SFailed ∉ tasks s /\
  count_ s = Z.of_nat n - Z.of_nat (signals l - pending s) /\
  (SPassed ∈ tasks s -> signals l = n /\ pending s = 0%nat) /\
  (signals l = n -> pending s = 0%nat -> forall i, tasks s !! i = Some SExchange ->
     sem_act (AStep i false) s = Some (MkSemaphore 0 (<[i := SPassed]> (tasks s)))).
Proof.
  intros Hn Hs Hr. pose proof (sem_run_inv n l 0 _ _ (sem_inv_new n num_tasks) Hs Hn Hr) as [Hc Hb Hok]. cbn in *.
  split_and!.
  - intros [i Hi]%list_elem_of_lookup. by destruct (Hok i _ Hi).
  - lia.
  - intros [i Hi]%list_elem_of_lookup. destruct (Hok i _ Hi) as [_ Hp]. auto.
  - intros Hall Hp i Hi. assert (count_ s = 0) as Hz by lia. by rewrite Hi, Hz.
Qed.

(** Two signals from two tasks, a third waits. *)
Lemma semaphore_waits_for_all_signals_witness :
  exists s, sem_run [AWait 2; AStep 2 false; ASignal 0; AStep 0 false; ASignal 1; AStep 2 false; AStep 1 false; AStep 2 false;
      AStep 0 false; AStep 1 false; AStep 2 false; AStep 2 true; AStep 2 false; AStep 2 false]
    (TaskSemaphoreNew 2 3) = Some s /\ tasks s = [SIdle; SIdle; SPassed] /\ count_ s = 0.
Proof.
  eexists. split; [vm_compute; reflexivity|]. split; [reflexivity|].
  refine (eq_trans (proj1 (proj2 (semaphore_waits_for_all_signals 2 3
    [AWait 2; AStep 2 false; ASignal 0; AStep 0 false; ASignal 1; AStep 2 false; AStep 1 false; AStep 2 false;
      AStep 0 false; AStep 1 false; AStep 2 false; AStep 2 true; AStep 2 false; AStep 2 false] _ _ _ _))) _).
  - reflexivity.
  - vm_compute. lia.
  - vm_compute. reflexivity.
  - reflexivity.
Defined.
