(* ===== verification/Tcp.v ===== *)
(** [net/tcp]: the stream of a TCP connection and its name, listening for
    connections, addresses.

    The kernel is a parameter: for a connection what [recv] and [send] answer
    and how waiting changes it, for a listening socket what every call
    answers.  What the kernel promises is a class of laws. *)
From S2P Require Import Prelude Either StrBuild CLib Stream Lexer LexerSim Syntax Task.
Local Open Scope Z_scope.

(** * Errors *)

Definition EINTR : Z := 4.
Definition EAGAIN : Z := 11.
Definition EWOULDBLOCK : Z := 11.
Definition EINPROGRESS : Z := 115.

(** source/net/tcp.cc:32-35 [IsInProgress] *)
Definition IsInProgress (error_code : Z) : bool :=
  (error_code =? EAGAIN) || (error_code =? EWOULDBLOCK) || (error_code =? EINPROGRESS).

(** * The stream of a connection *)

Inductive RecvResult := Received (data : bytes) | RecvFailed (errno : Z).

(** [recv] into a buffer of a size; [send], with the returned number and
    [errno]; what the connection is like when the event has come;  how often
    in a row [recv] can still have nothing after its event. *)
Class Connection (K : Type) := {
  recv : K -> nat -> RecvResult * K;
  send : K -> bytes -> Z * Z * K;
  wait_event : K -> Z -> K;
  patience : K -> nat
}.

(** source/net/tcp.cc:201-206 [TcpStream] *)
Record TcpStream (K : Type) := MkTcpStream { sock_ : K; stream_name_ : bytes }.
Arguments MkTcpStream {K}. Arguments sock_ {K}. Arguments stream_name_ {K}.

Definition with_sock {K} (s : TcpStream K) (k : K) : TcpStream K := MkTcpStream k (stream_name_ s).

Section TcpStream.
  Context {K : Type} `{Connection K}.

Definition wait_read : Z := Z.lor FlagRead FlagExactlyOnce.
Definition wait_write : Z := Z.lor FlagWrite FlagExactlyOnce.

Definition would_block (r : RecvResult) : bool :=
  match r with RecvFailed e => IsInProgress e | Received _ => false end.

(** source/net/tcp.cc:158-175 [TcpStream::DoRead] *)
Fixpoint TcpDoRead (fuel : nat) (sock : K) (size : nat) : option (Either StreamError bytes * K) :=
  match fuel with
  | O => None
  | S fuel' =>
      let '(received, sock') := recv (wait_event sock wait_read) size in
      if would_block received then TcpDoRead fuel' sock' size
      else
        match received with
        | Received [] => Some (Left Closed, sock')
        | RecvFailed _ => Some (Left IOError, sock')
        | Received data => Some (Right data, sock')
        end
  end.

(** The returned number is an [int]; it is what the code tests, not [errno]. *)
(** source/net/tcp.cc:177-199 [TcpStream::DoWrite] *)
Fixpoint TcpDoWrite (fuel : nat) (sock : K) (to_send : bytes) : option (Either StreamError unit * K) :=
  match to_send with
  | [] => Some (Right tt, sock)
  | _ =>
      match fuel with
      | O => None
      | S fuel' =>
          let '(result, errno, sock') := send sock to_send in
          let sent := wrap_s 32 result in
          if (sent <? 0) && IsInProgress sent then TcpDoWrite fuel' (wait_event sock' wait_write) to_send
          else if sent <? 0 then Some (Left IOError, sock')
          else TcpDoWrite fuel' sock' (drop (Z.to_nat sent) to_send)
      end
  end.

(** The fuel is enough for the loops, see [TcpDoRead_total] and
    [TcpDoWrite_spec]. *)
#[export] Instance TcpStream_InStream : InStream (TcpStream K) := fun s size =>
  match TcpDoRead (S (patience (sock_ s))) (sock_ s) size with
  | Some (r, sock') => (r, with_sock s sock')
  | None => (Left IOError, s)
  end.

#[export] Instance TcpStream_OutStream : OutStream (TcpStream K) := fun s bs =>
  match TcpDoWrite (length bs) (sock_ s) bs with
  | Some (r, sock') => (r, with_sock s sock')
  | None => (Left IOError, s)
  end.
End TcpStream.

(** * Addresses and names *)

(** [atoi]. *)
Definition atoi (text : bytes) : Z := wrap_s 32 (fst (fst (strtoll text))).

(** From the back, at the index behind the character looked at. *)
(** source/net/tcp.cc:134-141 [ParseIPAddress] *)
Fixpoint last_colon (addr_str : bytes) (i : nat) : option (bytes * Z) :=
  match i with
  | O => None
  | S i' =>
      if bool_decide (addr_str !! i' = Some ":"%char) then Some (take i' addr_str, atoi (drop i addr_str))
      else last_colon addr_str i'
  end.

(** source/net/tcp.cc:132-142 [ParseIPAddress] *)
Definition ParseIPAddress (addr_str : bytes) : option (bytes * Z) := last_colon addr_str (length addr_str).

Definition INET6_ADDRSTRLEN : nat := 46.

(** source/net/tcp.cc:30-30 [kStreamNameMaxSize] *)
Definition kStreamNameMaxSize : nat := 6 + INET6_ADDRSTRLEN + 8 + 1.

(** The peer of a connection: what [getpeername] and [inet_ntop] make of it,
    the text of the address and the port, or nothing when one of them fails. *)
Definition Peer : Type := option (bytes * Z).

(** The text goes into the buffer; without one the buffer stays as it is and
    the size is that of ["n/a"]. *)
(** source/net/tcp.cc:107-130 [SocketGetAddress] *)
Definition SocketGetAddress (peer : Peer) (ip_buf : bytes) : nat * Z * bytes :=
  match peer with
  | Some (ip, port) => (length ip, port, take (length ip_buf) (ip ++ [c_nul]) ++ drop (S (length ip)) ip_buf)
  | None => (3%nat, 0, ip_buf)
  end.

Definition peer_port (peer : Peer) : Z := match peer with Some (_, port) => port | None => 0 end.

(** source/net/tcp.cc:217-225 [TcpConnectionHandler] *)
Definition ConnectionName (garbage : bytes) (peer : Peer) : bytes :=
  let stream_name := Append (MkStrBuilder garbage 0) [AStr (lit "tcp://")] in
  let stream_name := Write stream_name (INET6_ADDRSTRLEN + 1)
    (fun buf => let '(size, _, buf') := SocketGetAddress peer buf in (size, buf')) in
  Buffer (Append stream_name [AChar ":"; AInt (peer_port peer)]).

(** * Listening *)

(** source/net/tcp.h:20-25 [TcpKeepAlive] *)
Record TcpKeepAlive := MkKeepAlive { enable : bool; idle_sec : Z; interval_sec : Z; num_probes : Z }.

(** source/net/tcp.h:27-38 [TcpParameters] *)
Record TcpParameters := MkTcpParams { listen_backlog : Z; reuse_addr : bool; keep_alive : TcpKeepAlive }.

Definition AF_INET : Z := 2.
Definition AF_INET6 : Z := 10.
Definition SOL_SOCKET : Z := 1.
Definition SOL_TCP : Z := 6.
Definition SO_KEEPALIVE : Z := 9.
Definition SO_REUSEPORT : Z := 15.
Definition TCP_KEEPIDLE : Z := 4.
Definition TCP_KEEPINTVL : Z := 5.
Definition TCP_KEEPCNT : Z := 6.
Definition O_NONBLOCK : Z := 2048.

(** A socket address: family, text of the address, port. *)
Definition SockAddr : Type := Z * bytes * Z.

(** The calls; [SysWait] is the wait for a connection, in which other tasks
    run. *)
Inductive Sys :=
| SysPton (family : Z) (text : bytes) | SysSocket (family : Z) | SysGetFlags (fd : Z) | SysSetFlags (fd flags : Z)
| SysSetOpt (fd level opt value : Z) | SysBind (fd : Z) (addr : SockAddr) | SysListen (fd backlog : Z)
| SysWait (fd : Z) | SysAccept (fd : Z) | SysClose (fd : Z).

(** The answer of the kernel to a call, with [errno]. *)
Class Net (N : Type) := sys : N -> Sys -> Z * Z * N.

(** The kernel and the calls made so far with their answers, the last one
    first. *)
Record NetState (N : Type) := MkNet { net_ : N; calls_ : list (Sys * Z) }.
Arguments MkNet {N}. Arguments net_ {N}. Arguments calls_ {N}.

Section Listen.
  Context {N : Type} `{Net N}.

Definition call (c : Sys) (s : NetState N) : Z * Z * NetState N :=
  let '(r, errno, n) := sys (net_ s) c in (r, errno, MkNet n ((c, r) :: calls_ s)).

Definition call_ (c : Sys) (s : NetState N) : NetState N := snd (call c s).

(** source/net/tcp.cc:38-93 [TcpSetKeepAlive] *)
Definition TcpSetKeepAlive (sock : Z) (ka : TcpKeepAlive) (s : NetState N) : bool * NetState N :=
  let '(r, _, s) := call (SysSetOpt sock SOL_SOCKET SO_KEEPALIVE (if enable ka then 1 else 0)) s in
  if r <? 0 then (false, s)
  else if negb (enable ka) then (true, s)
  else
    let '(r, _, s) := call (SysSetOpt sock SOL_TCP TCP_KEEPIDLE (idle_sec ka)) s in
    if r <? 0 then (false, s)
    else
      let '(r, _, s) := call (SysSetOpt sock SOL_TCP TCP_KEEPINTVL (interval_sec ka)) s in
      if r <? 0 then (false, s)
      else
        let '(r, _, s) := call (SysSetOpt sock SOL_TCP TCP_KEEPCNT (num_probes ka)) s in
        if r <? 0 then (false, s) else (true, s).

(** source/net/tcp.cc:95-103 [TcpEnableReuseAddr] *)
Definition TcpEnableReuseAddr (sock : Z) (s : NetState N) : NetState N := call_ (SysSetOpt sock SOL_SOCKET SO_REUSEPORT 1) s.

(** [htons] takes a [uint16_t]. *)
(** source/net/tcp.cc:253-271 [TcpSocketAccept] *)
Definition BindAddress (bind_addr : bytes) (bind_port : Z) (s : NetState N) : option SockAddr * NetState N :=
  let '(r, _, s) := call (SysPton AF_INET (c_str bind_addr)) s in
  if r =? 1 then (Some (AF_INET, c_str bind_addr, wrap_u 16 bind_port), s)
  else
    let '(r, _, s) := call (SysPton AF_INET6 (c_str bind_addr)) s in
    if r =? 1 then (Some (AF_INET6, c_str bind_addr, wrap_u 16 bind_port), s) else (None, s).

(** With the socket open, until it listens. *)
(** source/net/tcp.cc:285-317 [TcpSocketAccept] *)
Definition PrepareSocket (accept_socket : Z) (addr : SockAddr) (params : TcpParameters) (s : NetState N) : bool * NetState N :=
  let '(flags, _, s) := call (SysGetFlags accept_socket) s in
  if flags =? -1 then (false, s)
  else
    let '(r, _, s) := call (SysSetFlags accept_socket (Z.lor flags O_NONBLOCK)) s in
    if negb (r =? 0) then (false, s)
    else
      let '(_, s) := TcpSetKeepAlive accept_socket (keep_alive params) s in
      let s := if reuse_addr params then TcpEnableReuseAddr accept_socket s else s in
      let '(r, _, s) := call (SysBind accept_socket addr) s in
      if r =? -1 then (false, s)
      else
        let '(r, _, s) := call (SysListen accept_socket (listen_backlog params)) s in
        if r <? 0 then (false, s) else (true, s).

(** The first part of the task: the socket it listens on, or none, in which
    case the task is at its end.  [close_socket] runs then. *)
(** source/net/tcp.cc:247-317 [TcpSocketAccept] *)
Definition ListenOn (bind_addr : bytes) (bind_port : Z) (params : TcpParameters) (s : NetState N) : option Z * NetState N :=
  let '(addr, s) := BindAddress bind_addr bind_port s in
  match addr with
  | None => (None, s)
  | Some addr =>
      let '(accept_socket, _, s) := call (SysSocket (fst (fst addr))) s in
      if accept_socket <? 0 then (None, s)
      else
        let '(ok, s) := PrepareSocket accept_socket addr params s in
        if ok then (Some accept_socket, s) else (None, call_ (SysClose accept_socket) s)
  end.

(** One turn of the loop: the socket a handler is started for. *)
(** source/net/tcp.cc:321-343 [TcpSocketAccept] *)
Definition AcceptTurn (accept_socket : Z) (s : NetState N) : option Z * NetState N :=
  let s := call_ (SysWait accept_socket) s in
  let '(accepted_socket, _, s) := call (SysAccept accept_socket) s in
  if accepted_socket <? 0 then (None, s) else (Some accepted_socket, s).

(** Some turns: the sockets in order. *)
Fixpoint AcceptTurns (turns : nat) (accept_socket : Z) (s : NetState N) : list Z * NetState N :=
  match turns with
  | O => ([], s)
  | S turns' =>
      let '(x, s) := AcceptTurn accept_socket s in
      let '(l, s) := AcceptTurns turns' accept_socket s in
      (option_list x ++ l, s)
  end.

(** The task with the first turns of its loop. *)
(** source/net/tcp.cc:247-344 [TcpSocketAccept] *)
Definition TcpSocketAccept (turns : nat) (bind_addr : bytes) (bind_port : Z) (params : TcpParameters) (s : NetState N)
    : option Z * list Z * NetState N :=
  let '(x, s) := ListenOn bind_addr bind_port params s in
  match x with
  | None => (None, [], s)
  | Some accept_socket => let '(l, s) := AcceptTurns turns accept_socket s in (Some accept_socket, l, s)
  end.
End Listen.

(** source/net/tcp.cc:356-365 [TcpManager::Create] *)
Fixpoint ParseAddresses (bind_addrs : list bytes) : option (list (bytes * Z)) :=
  match bind_addrs with
  | [] => Some []
  | str :: l => match ParseIPAddress str with None => None | Some res => option_map (cons res) (ParseAddresses l) end
  end.

(** The entry points added to the task manager: address, port and parameters
    of the [TcpSocketAccept]s. *)
(** source/net/tcp.cc:350-371 [TcpManager::Create] *)
Definition TcpManagerCreate (parameters : TcpParameters) (bind_addrs : list bytes) : option (list (bytes * Z * TcpParameters)) :=
  option_map (map (fun address => (fst address, snd address, parameters))) (ParseAddresses bind_addrs).

(** * Laws of connections *)

(** What the kernel promises: at most as much as asked for; an event that
    brought nothing uses up patience.  Nothing is said of what comes behind a
    [recv] that failed or found the end.  A [send] takes a part of the buffer,
    but not more than Linux does at once. *)
Class ConnectionLaws (K : Type) (sent : K -> bytes) `{Connection K} : Prop := {
  recv_size : forall k n data k', recv k n = (Received data, k') -> (length data <= n)%nat;
  recv_retry : forall k n r k', recv (wait_event k wait_read) n = (r, k') -> would_block r = true -> (patience k' < patience k)%nat;
  send_some : forall k c bs n e k', send k (c :: bs) = (n, e, k') -> 0 <= n ->
    0 < n <= Z.min 2147479552 (Z.of_nat (length (c :: bs))) /\ sent k' = sent k ++ take (Z.to_nat n) (c :: bs);
  send_fails : forall k bs n e k', send k bs = (n, e, k') -> n < 0 -> n = -1
}.

Definition no_data (r : RecvResult) : bool := match r with Received (_ :: _) => false | _ => true end.

(** The next [j] calls bring no data. *)
Fixpoint silent_for {K} `{Connection K} (j n : nat) (k : K) : Prop :=
  match j with
  | O => True
  | S j' => exists r k', recv (wait_event k wait_read) n = (r, k') /\ no_data r = true /\ silent_for j' n k'
  end.

(** There is no more data: the peer has shut down, or the connection is lost.
    The calls may find the end, fail, each with another error, or refuse. *)
Definition finished {K} `{Connection K} (n : nat) (k : K) : Prop := forall j, silent_for j n k.

(** The kernel hands a text over in answers to [recv] with buffers of a size:
    with pieces of any length and any number of refusals, and then no more. *)
Inductive delivers {K} `{Connection K} (n : nat) : K -> bytes -> Prop :=
| delivers_end k : finished n k -> delivers n k []
| delivers_retry k r k' t :
    recv (wait_event k wait_read) n = (r, k') -> would_block r = true -> delivers n k' t -> delivers n k t
| delivers_data k c data k' t :
    recv (wait_event k wait_read) n = (Received (c :: data), k') -> delivers n k' t -> delivers n k ((c :: data) ++ t).

(** A connection whose send buffer never is full. *)
Definition never_full {K} `{Connection K} (open : K -> Prop) : Prop :=
  forall k c bs n e k', open k -> send k (c :: bs) = (n, e, k') -> 0 <= n /\ open k'.

Section TcpLaws.
  Context {K : Type} {sent : K -> bytes} `{ConnectionLaws K sent}.

Lemma TcpDoRead_total fuel k n : (patience k < fuel)%nat -> is_Some (TcpDoRead fuel k n).
Proof.
  revert k. induction fuel as [|fuel IH]; intros k Hf; [lia|]. cbn [TcpDoRead].
  destruct (recv _ n) as [r k'] eqn:E. destruct (would_block r) eqn:Er.
  - apply IH. pose proof (recv_retry k n r k' E Er). lia.
  - destruct r as [[|]|]; by eexists.
Qed.

(** The answer that ends the loop. *)
Definition answered (r : RecvResult) : Either StreamError bytes :=
  match r with Received [] => Left Closed | Received data => Right data | RecvFailed _ => Left IOError end.

Lemma TcpDoRead_answer fuel k n res k' :
  TcpDoRead fuel k n = Some (res, k') ->
  exists k0 r, recv (wait_event k0 wait_read) n = (r, k') /\ would_block r = false /\ res = answered r.
Proof.
  revert k. induction fuel as [|fuel IH]; intros k; [done|]. cbn [TcpDoRead].
  destruct (recv _ n) as [r k1] eqn:E. destruct (would_block r) eqn:Er; [apply IH|].
  intros Hr. exists k, r. destruct r as [[|c data]|e]; injection Hr as <- <-; done.
Qed.

Lemma TcpDoRead_now fuel k n r k' :
  recv (wait_event k wait_read) n = (r, k') -> would_block r = false -> TcpDoRead (S fuel) k n = Some (answered r, k').
Proof. intros E Er. cbn [TcpDoRead]. rewrite E, Er. by destruct r as [[|]|]. Qed.

Lemma TcpDoRead_mono f1 f2 k n x : (f1 <= f2)%nat -> TcpDoRead f1 k n = Some x -> TcpDoRead f2 k n = Some x.
Proof.
  revert f2 k. induction f1 as [|f1 IH]; intros [|f2] k Hf; try (done || lia). cbn [TcpDoRead].
  destruct (recv _ n) as [r k']. destruct (would_block r); [apply IH; lia|done].
Qed.

Lemma TcpStream_read (s : TcpStream K) n :
  exists r sock', TcpDoRead (S (patience (sock_ s))) (sock_ s) n = Some (r, sock') /\ DoRead s n = (r, with_sock s sock').
Proof.
  destruct (TcpDoRead_total (S (patience (sock_ s))) (sock_ s) n) as [[r k'] E]; [lia|].
  exists r, k'. split; [done|]. unfold DoRead, TcpStream_InStream. by rewrite E.
Qed.

#[export] Instance TcpStream_laws : InStreamLaws (TcpStream K).
Proof.
  split.
  - intros s n bs s' _ Hd. destruct (TcpStream_read s n) as (r & k' & E & Hr). rewrite Hd in Hr. injection Hr as <- ->.
    destruct (TcpDoRead_answer _ _ _ _ _ E) as (k0 & r & E0 & _ & Ha). destruct r as [[|c data]|e]; try done. injection Ha as ->.
    split; [done|]. by apply (recv_size _ _ _ _ E0).
  - intros s n e s' Hd. destruct (TcpStream_read s n) as (r & k' & E & Hr). rewrite Hd in Hr. injection Hr as <- ->.
    destruct (TcpDoRead_answer _ _ _ _ _ E) as (k0 & r & _ & _ & Ha). destruct r as [[|]|]; cbn in Ha; congruence.
Qed.

Lemma finished_recv n k : finished n k ->
  exists r k', recv (wait_event k wait_read) n = (r, k') /\ no_data r = true /\ finished n k'.
Proof.
  intros Hf. destruct (Hf 1%nat) as (r & k' & E & Hr & _). exists r, k'. split; [done|]. split; [done|]. intros j.
  destruct (Hf (S j)) as (r2 & k2 & E2 & _ & Hj). rewrite E in E2. by injection E2 as _ <-.
Qed.

Lemma finished_still n k r k' :
  recv (wait_event k wait_read) n = (r, k') -> no_data r = true -> recv (wait_event k' wait_read) n = (r, k') -> finished n k.
Proof.
  intros E Hr E'. assert (Hs : forall j, silent_for j n k') by (induction j as [|j IH]; [done|by exists r, k']).
  intros [|j]; [done|]. by exists r, k'.
Qed.

Lemma TcpDoRead_finished fuel k n res k' :
  finished n k -> TcpDoRead fuel k n = Some (res, k') -> IsLeft res = true /\ finished n k'.
Proof.
  revert k. induction fuel as [|fuel IH]; intros k Hf; [done|]. cbn [TcpDoRead].
  destruct (finished_recv n k Hf) as (r & k1 & -> & Hr & Hf1). destruct (would_block r); [by apply IH|].
  destruct r as [[|]|]; [|done|]; by intros [= <- <-].
Qed.

Lemma finished_over n (s : TcpStream K) : finished n (sock_ s) -> over n s.
Proof.
  intros Hf j. revert s Hf. induction j as [|j IH]; intros s Hf; [done|].
  destruct (TcpStream_read s n) as (r & k' & E & Hr). destruct (TcpDoRead_finished _ _ _ _ _ Hf E) as [Hl Hf'].
  destruct r as [e|]; [|done]. exists e, (with_sock s k'). split; [done|]. by apply IH.
Qed.

(** A refusal changes nothing but the patience. *)
Lemma read_retry n (s : TcpStream K) r k' :
  recv (wait_event (sock_ s) wait_read) n = (r, k') -> would_block r = true -> DoRead (with_sock s k') n = DoRead s n.
Proof.
  intros E Er. unfold DoRead, TcpStream_InStream. cbn [with_sock sock_]. pose proof (recv_retry _ _ _ _ E Er) as Hp.
  assert (E1 : TcpDoRead (S (patience (sock_ s))) (sock_ s) n = TcpDoRead (patience (sock_ s)) k' n) by (cbn [TcpDoRead]; by rewrite E, Er).
  rewrite E1. destruct (TcpDoRead_total (S (patience k')) k' n ltac:(lia)) as [[res k2] E2].
  by rewrite E2, (TcpDoRead_mono _ _ k' n _ Hp E2).
Qed.

Lemma delivers_feeds n (s : TcpStream K) t : delivers n (sock_ s) t -> feeds n s t.
Proof.
  intros Hd. remember (sock_ s) as k eqn:Hk. revert s Hk.
  induction Hd as [k Hf|k r k' t E Er _ IH|k c data k' t E _ IH]; intros s ->.
  - by apply feeds_end, finished_over.
  - apply (feeds_same n (with_sock s k')); [by apply (read_retry n s r)|by apply IH].
  - apply (feeds_more n s (c :: data) (with_sock s k')); [|by apply IH].
    unfold DoRead, TcpStream_InStream. by rewrite (TcpDoRead_now _ _ n _ k' E).
Qed.

(** One turn of the loop of [DoWrite]: [errno] plays no part. *)
Lemma TcpDoWrite_turn fuel k c bs n e k' :
  send k (c :: bs) = (n, e, k') ->
  TcpDoWrite (S fuel) k (c :: bs) =
    if n <? 0 then Some (Left IOError, k') else TcpDoWrite fuel k' (drop (Z.to_nat n) (c :: bs)).
Proof.
  intros E. cbn [TcpDoWrite]. rewrite E. destruct (Z.ltb_spec n 0) as [Hn|Hn].
  - by rewrite (send_fails _ _ _ _ _ E Hn).
  - destruct (send_some _ _ _ _ _ _ E Hn) as [Hs _]. rewrite wrap_s_id by (unfold in_s; lia).
    by destruct (Z.ltb_spec n 0); [lia|].
Qed.

Lemma TcpDoWrite_spec fuel k bs :
  (length bs <= fuel)%nat ->
  exists r k', TcpDoWrite fuel k bs = Some (r, k') /\ (r = Right tt /\ sent k' = sent k ++ bs \/ r = Left IOError).
Proof.
  revert k bs. induction fuel as [|fuel IH]; intros k [|c bs] Hf; try (cbn in Hf; lia).
  1,2: exists (Right tt), k; split; [done|left; by rewrite app_nil_r].
  destruct (send k (c :: bs)) as [[n e] k'] eqn:E. rewrite (TcpDoWrite_turn _ _ _ _ _ _ _ E).
  destruct (Z.ltb_spec n 0) as [Hn|Hn]; [by exists (Left IOError), k'; split; [|right]|].
  destruct (send_some _ _ _ _ _ _ E Hn) as [Hs Hsent].
  destruct (IH k' (drop (Z.to_nat n) (c :: bs))) as (r & k2 & E2 & Hr); [rewrite length_drop; cbn [length] in *; lia|].
  exists r, k2. split; [done|]. destruct Hr as [[-> Hk]| ->]; [left|by right]. split; [done|].
  by rewrite Hk, Hsent, <- app_assoc, take_drop.
Qed.

#[export] Instance TcpStream_out_laws : OutStreamLaws (TcpStream K) (fun s => sent (sock_ s)).
Proof.
  split; intros s bs; unfold DoWrite, TcpStream_OutStream;
    destruct (TcpDoWrite_spec (length bs) (sock_ s) bs (Nat.le_refl _)) as (r & k' & -> & [[-> Hk]| ->]).
  - by intros s' [= <-].
  - done.
  - done.
  - by intros e s' [= <- _].
Qed.

Lemma never_full_accepts (open : K -> Prop) : never_full open -> accepts (fun s : TcpStream K => open (sock_ s)).
Proof.
  intros Hopen s bs Ho. unfold DoWrite, TcpStream_OutStream.
  assert (Hw : forall fuel k bs, (length bs <= fuel)%nat -> open k ->
    exists k', TcpDoWrite fuel k bs = Some (Right tt, k') /\ open k').
  { clear s bs Ho. induction fuel as [|fuel IH]; intros k [|c bs] Hf Ho; try (cbn in Hf; lia). 1,2: by exists k.
    destruct (send k (c :: bs)) as [[n e] k'] eqn:E. rewrite (TcpDoWrite_turn _ _ _ _ _ _ _ E).
    destruct (Hopen _ _ _ _ _ _ Ho E) as [Hn Ho']. destruct (Z.ltb_spec n 0); [lia|].
    destruct (send_some _ _ _ _ _ _ E Hn) as [Hs _]. apply IH; [rewrite length_drop; cbn [length] in *; lia|done]. }
  destruct (Hw (length bs) (sock_ s) bs (Nat.le_refl _) Ho) as (k' & -> & Hk'). done.
Qed.
End TcpLaws.

(** * Names and addresses *)

Lemma uint_str_no_colon v : 0 <= v -> ":"%char ∉ uint_str v.
Proof.
  intros Hv Hin. pose proof (uint_str_digits v Hv) as Hd. unfold all_digits in Hd. rewrite List.Forall_forall in Hd.
  specialize (Hd _ (proj1 (list_elem_of_In _ _) Hin)). by vm_compute in Hd.
Qed.

Lemma int_str_no_colon v : ":"%char ∉ int_str v.
Proof.
  unfold int_str. destruct (Z.ltb_spec v 0); [|by apply uint_str_no_colon].
  rewrite elem_of_cons. intros [E|Hin]; [done|]. apply uint_str_no_colon in Hin; [done|lia].
Qed.

(** The search passes over a text without a colon. *)
Lemma last_colon_skip xs ys : ":"%char ∉ ys ->
  last_colon (xs ++ ":"%char :: ys) (length xs + S (length ys)) = Some (xs, atoi ys).
Proof.
  intros Hys. assert (Hgo : forall k, (k <= length ys)%nat ->
    last_colon (xs ++ ":"%char :: ys) (length xs + S k) = Some (xs, atoi ys)).
  { induction k as [|k IH]; intros Hk; rewrite Nat.add_succ_r; cbn [last_colon].
    - rewrite Nat.add_0_r, lookup_app_r, Nat.sub_diag by lia. cbn [lookup list_lookup].
      rewrite bool_decide_true by done. rewrite take_app_length.
      replace (S (length xs)) with (length xs + 1)%nat by lia. by rewrite drop_app_add.
    - rewrite bool_decide_false; [apply IH; lia|]. rewrite lookup_app_r by lia.
      replace (length xs + S k - length xs)%nat with (S k) by lia. cbn. intros E. by apply list_elem_of_lookup_2 in E. }
  by apply Hgo.
Qed.

(** An address with a port is taken apart at the last colon, so that also an
    IPv6 address keeps its own. *)
Lemma parse_printed_address ip port : in_s 32 port -> ParseIPAddress (ip ++ lit ":" ++ int_str port) = Some (ip, port).
Proof.
  intros Hp. unfold ParseIPAddress. rewrite length_app. change (lit ":" ++ int_str port) with (":"%char :: int_str port).
  cbn [length]. rewrite last_colon_skip by apply int_str_no_colon. unfold atoi.
  destruct Hp as [H1 H2]. rewrite strtoll_int_str by (split; cbn in *; lia). cbn [fst]. by rewrite wrap_s_id.
Qed.

(** ** The name of a connection *)

(** The name before the port. *)
Definition name_prefix (garbage : bytes) (peer : Peer) : StrBuilder :=
  Write (Append (MkStrBuilder garbage 0) [AStr (lit "tcp://")]) (INET6_ADDRSTRLEN + 1)
    (fun buf => let '(size, _, buf') := SocketGetAddress peer buf in (size, buf')).

Lemma name_prefix_spec garbage ip port :
  length garbage = kStreamNameMaxSize -> (length ip < INET6_ADDRSTRLEN)%nat ->
  sb_wf (name_prefix garbage (Some (ip, port))) /\ UseSize (name_prefix garbage (Some (ip, port))) = 60%nat /\
  Buffer (name_prefix garbage (Some (ip, port))) = lit "tcp://" ++ ip.
Proof.
  intros Hg Hip. unfold name_prefix. set (sb0 := MkStrBuilder garbage 0).
  assert (H0 : sb_wf sb0) by (split; cbn; unfold UseSize; cbn; rewrite Hg; unfold kStreamNameMaxSize; lia).
  assert (HU : UseSize sb0 = 60%nat) by (unfold UseSize; cbn; by rewrite Hg).
  destruct (Append_spec sb0 [AStr (lit "tcp://")] H0) as (H1 & H2 & H3); [by repeat constructor|].
  set (sb1 := Append sb0 _) in *. rewrite HU in H2, H3. cbn [fold_left] in H3. change (Buffer sb0) with (@nil ascii) in H3.
  change (append_ref 60 [] (AStr (lit "tcp://"))) with (lit "tcp://") in H3. clearbody sb1.
  pose proof (Buffer_length sb1 H1) as Hoff. rewrite H3 in Hoff. change (6%nat = offset_ sb1) in Hoff.
  destruct (Write_into sb1 (INET6_ADDRSTRLEN + 1)
    (fun buf => let '(size, _, buf') := SocketGetAddress (Some (ip, port)) buf in (size, buf')) ip H1) as (H4 & H5 & H6).
  - rewrite H2, <- Hoff. unfold INET6_ADDRSTRLEN. lia.
  - intros region Hr. exists ([c_nul] ++ drop (S (length ip)) region). cbn [SocketGetAddress].
    assert (Hl : length (ip ++ [c_nul]) = S (length ip)) by (rewrite length_app; cbn; lia).
    rewrite take_ge by lia. rewrite <- app_assoc. split; [done|]. rewrite !length_app, length_drop. cbn [length]. lia.
  - split; [done|]. split; [by rewrite H5|]. by rewrite H6, H3.
Qed.

Lemma append_ref_some cap acc a room : arg_room a = Some room -> append_ref cap acc a = if (cap - length acc <? room)%nat then acc else acc ++ StrBuild.arg_text a.
Proof. intros E. unfold append_ref. by rewrite E. Qed.

(** A number is written only where the longest one would fit: behind an
    address of thirty characters and more the port is missing. *)
Lemma ConnectionName_spec garbage ip port :
  length garbage = kStreamNameMaxSize -> (length ip < INET6_ADDRSTRLEN)%nat -> in_u 16 port ->
  ConnectionName garbage (Some (ip, port)) =
    lit "tcp://" ++ ip ++ lit ":" ++ (if (length ip <=? 29)%nat then int_str port else []).
Proof.
  intros Hg Hip [Hp1 Hp2]. unfold ConnectionName, peer_port. fold (name_prefix garbage (Some (ip, port))).
  destruct (name_prefix_spec garbage ip port Hg Hip) as (H1 & H2 & H3). set (sb := name_prefix _ _) in *.
  destruct (Append_spec sb [AChar ":"; AInt port] H1) as (_ & _ & ->).
  { repeat constructor; cbn in *; lia. }
  rewrite H2, H3. cbn [fold_left]. unfold INET6_ADDRSTRLEN in Hip.
  rewrite (append_ref_some 60 _ (AChar ":") 1 eq_refl). rewrite length_app.
  destruct (Nat.ltb_spec (60 - (length (lit "tcp://") + length ip)) 1) as [Hb|_]; [cbn in Hb; lia|].
  rewrite (append_ref_some 60 _ (AInt port) 24 eq_refl). rewrite !length_app.
  destruct (Nat.leb_spec (length ip) 29) as [Hl|Hl]; destruct (Nat.ltb_spec (60 - (length (lit "tcp://") + length ip + length (StrBuild.arg_text (AChar ":")))) 24) as [Hb|Hb];
    change (length (lit "tcp://")) with 6%nat in Hb; change (length (StrBuild.arg_text (AChar ":"))) with 1%nat in Hb; try lia.
  - by rewrite <- !app_assoc.
  - by rewrite <- !app_assoc.
Qed.

(** * What listening does *)

(** The sockets that were opened, closed and accepted, the last one first. *)
Definition opened (cs : list (Sys * Z)) : list Z :=
  omap (fun x => match fst x with SysSocket _ => if snd x <? 0 then None else Some (snd x) | _ => None end) cs.
Definition closed (cs : list (Sys * Z)) : list Z := omap (fun x => match fst x with SysClose fd => Some fd | _ => None end) cs.
Definition accepted_sockets (fd : Z) (cs : list (Sys * Z)) : list Z :=
  omap (fun x => match fst x with SysAccept fd' => if (fd' =? fd) && (0 <=? snd x) then Some (snd x) else None | _ => None end) cs.

(** The calls that leave these as they are. *)
Definition quiet (x : Sys * Z) : bool := match fst x with SysSocket _ | SysClose _ | SysAccept _ => false | _ => true end.

Lemma quiet_nothing fd cs : forallb quiet cs = true -> opened cs = [] /\ closed cs = [] /\ accepted_sockets fd cs = [].
Proof.
  induction cs as [|[c r] cs IH]; [done|]. cbn [forallb]. intros [Hq Hc]%andb_true_iff. specialize (IH Hc).
  unfold opened, closed, accepted_sockets in *. cbn [omap list_omap fst snd]. by destruct c.
Qed.

(** The socket is bound, listens, and never blocks. *)
Definition listening (fd : Z) (addr : SockAddr) (backlog : Z) (cs : list (Sys * Z)) : Prop :=
  (exists flags, (SysSetFlags fd (Z.lor flags O_NONBLOCK), 0) ∈ cs) /\
  (exists r, r <> -1 /\ (SysBind fd addr, r) ∈ cs) /\ (exists r, 0 <= r /\ (SysListen fd backlog, r) ∈ cs).

Section ListenLaws.
  Context {N : Type} `{Net N}.

(** [s'] is [s] after more calls. *)
Definition after (s s' : NetState N) (cs : list (Sys * Z)) : Prop := calls_ s' = cs ++ calls_ s.

Lemma call_after c s r e s' : call c s = (r, e, s') -> after s s' [(c, r)].
Proof. unfold call. destruct (sys (net_ s) c) as [[r0 e0] n]. by intros [= <- <- <-]. Qed.

Lemma call__after c (s : NetState N) : exists r, after s (call_ c s) [(c, r)].
Proof. unfold call_. destruct (call c s) as [[r e] s'] eqn:E. exists r. by apply (call_after c s r e). Qed.

Lemma after_trans s0 s1 s2 cs1 cs2 : after s0 s1 cs1 -> after s1 s2 cs2 -> after s0 s2 (cs2 ++ cs1).
Proof. unfold after. intros -> ->. by rewrite app_assoc. Qed.

Lemma TcpSetKeepAlive_after sock ka s ok s' :
  TcpSetKeepAlive sock ka s = (ok, s') -> exists cs, after s s' cs /\ forallb quiet cs = true.
Proof.
  unfold TcpSetKeepAlive.
  destruct (call _ s) as [[r1 e1] s1] eqn:E1; apply call_after in E1. destruct (r1 <? 0); [intros [= _ <-]; by eexists|].
  destruct (negb (enable ka)); [intros [= _ <-]; by eexists|].
  destruct (call _ s1) as [[r2 e2] s2] eqn:E2; apply call_after in E2; apply (after_trans _ _ _ _ _ E1) in E2.
  destruct (r2 <? 0); [intros [= _ <-]; by eexists|].
  destruct (call _ s2) as [[r3 e3] s3] eqn:E3; apply call_after in E3; apply (after_trans _ _ _ _ _ E2) in E3.
  destruct (r3 <? 0); [intros [= _ <-]; by eexists|].
  destruct (call _ s3) as [[r4 e4] s4] eqn:E4; apply call_after in E4; apply (after_trans _ _ _ _ _ E3) in E4.
  destruct (r4 <? 0); intros [= _ <-]; by eexists.
Qed.

Lemma PrepareSocket_after fd addr params s ok s' :
  PrepareSocket fd addr params s = (ok, s') ->
  exists cs, after s s' cs /\ forallb quiet cs = true /\ (ok = true -> listening fd addr (listen_backlog params) cs).
Proof.
  unfold PrepareSocket.
  destruct (call _ s) as [[flags e1] s1] eqn:E1; apply call_after in E1.
  destruct (flags =? -1); [intros [= <- <-]; by eexists|].
  destruct (call _ s1) as [[r2 e2] s2] eqn:E2; apply call_after in E2; apply (after_trans _ _ _ _ _ E1) in E2.
  destruct (Z.eqb_spec r2 0) as [->|_]; cbn [negb]; [|intros [= <- <-]; by eexists].
  destruct (TcpSetKeepAlive fd _ s2) as [k s3] eqn:E3; apply TcpSetKeepAlive_after in E3 as (cs3 & E3 & Q3).
  apply (after_trans _ _ _ _ _ E2) in E3.
  assert (H4 : exists cs4, after s3 (if reuse_addr params then TcpEnableReuseAddr fd s3 else s3) cs4 /\ forallb quiet cs4 = true).
  { destruct (reuse_addr params); [|by exists []]. unfold TcpEnableReuseAddr.
    destruct (call__after (SysSetOpt fd SOL_SOCKET SO_REUSEPORT 1) s3) as [r Hr]. by eexists. }
  destruct H4 as (cs4 & E4 & Q4). apply (after_trans _ _ _ _ _ E3) in E4. set (s4 := if reuse_addr params then _ else _) in *.
  destruct (call _ s4) as [[r5 e5] s5] eqn:E5; apply call_after in E5; apply (after_trans _ _ _ _ _ E4) in E5.
  assert (Q5 : forallb quiet ([(SysBind fd addr, r5)] ++ cs4 ++ cs3 ++ [(SysSetFlags fd (Z.lor flags O_NONBLOCK), 0)] ++ [(SysGetFlags fd, flags)]) = true)
    by (rewrite !forallb_app, Q3, Q4; done).
  destruct (Z.eqb_spec r5 (-1)) as [|Hb]; [intros [= <- <-]; by eexists|].
  destruct (call _ s5) as [[r6 e6] s6] eqn:E6; apply call_after in E6; apply (after_trans _ _ _ _ _ E5) in E6.
  destruct (Z.ltb_spec r6 0) as [|Hl]; intros [= <- <-]; (eexists; split; [exact E6|]; split; [exact Q5|]); [done|intros _].
  split; [|split].
  - exists flags. rewrite !elem_of_app. right. right. right. right. left. by apply list_elem_of_here.
  - exists r5. split; [done|]. rewrite !elem_of_app. right. left. by apply list_elem_of_here.
  - exists r6. split; [done|]. by apply list_elem_of_here.
Qed.

Lemma BindAddress_after a p s addr s' :
  BindAddress a p s = (addr, s') -> exists cs, after s s' cs /\ forallb quiet cs = true /\
    forall x, addr = Some x -> exists family, x = (family, c_str a, wrap_u 16 p) /\ (SysPton family (c_str a), 1) ∈ cs.
Proof.
  unfold BindAddress. destruct (call _ s) as [[r1 e1] s1] eqn:E1; apply call_after in E1.
  destruct (Z.eqb_spec r1 1) as [->|_].
  - intros [= <- <-]. eexists. split; [exact E1|]. split; [done|]. intros x [= <-]. exists AF_INET. split; [done|]. by apply list_elem_of_here.
  - destruct (call _ s1) as [[r2 e2] s2] eqn:E2; apply call_after in E2; apply (after_trans _ _ _ _ _ E1) in E2.
    destruct (Z.eqb_spec r2 1) as [->|_]; intros [= <- <-]; (eexists; split; [exact E2|]; split; [done|]); [|done].
    intros x [= <-]. exists AF_INET6. split; [done|]. by apply list_elem_of_here.
Qed.

Lemma AcceptTurns_after turns fd s l s' :
  AcceptTurns turns fd s = (l, s') ->
  exists cs, after s s' cs /\ opened cs = [] /\ closed cs = [] /\ l = rev (accepted_sockets fd cs).
Proof.
  revert s l s'. induction turns as [|turns IH]; intros s l s'; cbn [AcceptTurns]; [intros [= <- <-]; by exists []|].
  unfold AcceptTurn. destruct (call__after (SysWait fd) s) as [r0 E0]. set (s0 := call_ (SysWait fd) s) in *.
  destruct (call _ s0) as [[r e] s1] eqn:E1; apply call_after in E1; apply (after_trans _ _ _ _ _ E0) in E1.
  assert (Hl : forall x s2, AcceptTurns turns fd s1 = (x, s2) ->
    exists cs, after s s2 cs /\ opened cs = [] /\ closed cs = [] /\
      (if r <? 0 then x else r :: x) = rev (accepted_sockets fd cs)).
  { intros x s2 Ex. destruct (IH s1 x s2 Ex) as (cs & E2 & Ho & Hc & ->). apply (after_trans _ _ _ _ _ E1) in E2.
    eexists. split; [exact E2|]. unfold opened, closed, accepted_sockets in *. rewrite !omap_app, Ho, Hc, rev_app_distr.
    split; [done|]. split; [done|]. cbn [omap list_omap fst snd app]. rewrite Z.eqb_refl. cbn [andb].
    by destruct (Z.ltb_spec r 0), (Z.leb_spec 0 r); try lia. }
  destruct (r <? 0); destruct (AcceptTurns turns fd s1) as [x s2] eqn:Ex; intros [= <- <-]; by apply Hl.
Qed.
End ListenLaws.

(** * Properties *)

(** C23. Listening leaks no socket, whatever the kernel answers: a task that
    gives up has closed the socket it opened, if any, and started nothing; a
    task in its loop has its socket open, bound to the configured address,
    listening and non-blocking, has closed nothing, and has started a handler
    for every accepted connection, in order. *)
Theorem listener_leaks_no_socket {N} `{Net N} turns bind_addr bind_port params (n : N) fd l s :
  TcpSocketAccept turns bind_addr bind_port params (MkNet n []) = (fd, l, s) ->
  match fd with
  | None => l = [] /\ closed (calls_ s) = opened (calls_ s)
  | Some fd =>
      opened (calls_ s) = [fd] /\ closed (calls_ s) = [] /\ l = rev (accepted_sockets fd (calls_ s)) /\
      exists family, (SysPton family (c_str bind_addr), 1) ∈ calls_ s /\
        listening fd (family, c_str bind_addr, wrap_u 16 bind_port) (listen_backlog params) (calls_ s)
  end.
Proof.
  unfold TcpSocketAccept, ListenOn.
  destruct (BindAddress _ _ _) as [addr s1] eqn:E1. destruct (BindAddress_after _ _ _ _ _ E1) as (cs1 & A1 & Q1 & Hx).
  unfold after in A1. cbn [calls_] in A1. rewrite app_nil_r in A1.
  assert (N1 : forall f, opened cs1 = [] /\ closed cs1 = [] /\ accepted_sockets f cs1 = []) by (intros f; by apply quiet_nothing).
  destruct addr as [x|]; [|intros [= <- <- <-]; rewrite A1; destruct (N1 0) as (-> & -> & _); done].
  destruct (Hx x eq_refl) as (family & -> & Hpton). cbn [fst].
  destruct (call _ s1) as [[sock e] s2] eqn:E2. apply call_after in E2. unfold after in E2. rewrite A1 in E2.
  destruct (Z.ltb_spec sock 0) as [Hneg|Hpos].
  { intros [= <- <- <-]. rewrite E2. destruct (N1 0) as (O1 & C1 & _). unfold opened, closed in *. rewrite !omap_app, O1, C1.
    cbn. by destruct (Z.ltb_spec sock 0); [|lia]. }
  destruct (PrepareSocket _ _ _ s2) as [ok s3] eqn:E3. destruct (PrepareSocket_after _ _ _ _ _ _ E3) as (cs3 & A3 & Q3 & Hok).
  unfold after in A3. rewrite E2 in A3.
  assert (N3 : forall f, opened cs3 = [] /\ closed cs3 = [] /\ accepted_sockets f cs3 = []) by (intros f; by apply quiet_nothing).
  assert (Hopen : opened (calls_ s3) = [sock] /\ closed (calls_ s3) = [] /\ accepted_sockets sock (calls_ s3) = []).
  { rewrite A3. destruct (N1 sock) as (O1 & C1 & S1), (N3 sock) as (O3 & C3 & S3). unfold opened, closed, accepted_sockets in *.
    rewrite !omap_app, O1, O3, C1, C3, S1, S3. cbn. by destruct (Z.ltb_spec sock 0); [lia|]. }
  destruct Hopen as (O & C & A). destruct ok.
  - destruct (AcceptTurns turns sock s3) as [l4 s4] eqn:E4. destruct (AcceptTurns_after _ _ _ _ _ E4) as (cs4 & A4 & O4 & C4 & ->).
    intros [= <- <- <-]. unfold after in A4. rewrite A4. unfold opened, closed, accepted_sockets in *. rewrite !omap_app, O, C, A, O4, C4.
    split; [done|]. split; [done|]. split; [by rewrite app_nil_r|]. exists family. rewrite A3. split; [by rewrite !elem_of_app; auto|].
    destruct (Hok eq_refl) as ((fl & H1) & (r & H2 & H3) & (r' & H4 & H5)).
    split; [exists fl; rewrite !elem_of_app; auto|]. split; [exists r; rewrite !elem_of_app; auto|exists r'; rewrite !elem_of_app; auto].
  - intros [= <- <- <-]. split; [done|]. destruct (call__after (SysClose sock) s3) as [r A5]. unfold after in A5. rewrite A5.
    unfold opened, closed in *. rewrite !omap_app, O, C. done.
Qed.

(** A kernel that grants everything but the ports below 1024, and whose
    connections alternate with nothing to accept. *)
Definition DemoNet : Type := Z.
#[export] Instance DemoNet_net : Net DemoNet := fun n c =>
  match c with
  | SysPton family text => (if family =? AF_INET then 1 else 0, 0, n)
  | SysSocket _ => (7, 0, n)
  | SysBind _ (_, _, port) => (if port <? 1024 then -1 else 0, 13, n)
  | SysAccept _ => (if Z.even n then -1 else 100 + n, EAGAIN, n + 1)
  | _ => (0, 0, n)
  end.
Definition demo_params : TcpParameters := MkTcpParams 512 true (MkKeepAlive true 20 20 8).

Lemma listener_leaks_no_socket_witness :
  (exists s : NetState DemoNet, TcpSocketAccept 4 (lit "0.0.0.0") 80 demo_params (MkNet (1 : DemoNet) []) = (None, [], s) /\ closed (calls_ s) = [7]) /\
  (exists s : NetState DemoNet, TcpSocketAccept 4 (lit "0.0.0.0") 9920 demo_params (MkNet (1 : DemoNet) []) = (Some 7, [101; 103], s) /\ closed (calls_ s) = []).
Proof.
  destruct (TcpSocketAccept 4 (lit "0.0.0.0") 80 demo_params (MkNet (1 : DemoNet) [])) as [[fd l] s] eqn:E.
  destruct (TcpSocketAccept 4 (lit "0.0.0.0") 9920 demo_params (MkNet (1 : DemoNet) [])) as [[fd2 l2] s2] eqn:E2.
  pose proof (listener_leaks_no_socket 4 (lit "0.0.0.0") 80 demo_params (1 : DemoNet) fd l s E) as H1.
  pose proof (listener_leaks_no_socket 4 (lit "0.0.0.0") 9920 demo_params (1 : DemoNet) fd2 l2 s2 E2) as H2.
  vm_compute in E, E2. injection E as <- <- <-. injection E2 as <- <- <-. split; eexists; (split; [reflexivity|]).
  - exact (proj2 H1).
  - exact (proj1 (proj2 H2)).
Defined.
