(* ===== verification/TcpServe.v ===== *)
(** A TCP connection served by the endpoint: [net/tcp]'s connection handler
    with the stream handler of [main/main.cc]. *)
From S2P Require Import Prelude Either StrBuild Stream Lexer LexerSim Syntax Types Call Program Eval.
From S2P Require Import TypeVault Storage SlangEnv World Database Soundness Stable Json Endpoint Task Tcp.
Local Open Scope Z_scope.

(** What the handler does with the socket behind the stream handler. *)
Inductive ConnCall := RemoveSource (fd : Z) | CloseSocket (fd : Z).

(** source/net/tcp.cc:154-156 [TcpStream::~TcpStream] *)
Definition TcpStreamDestroy (sock : Z) : list ConnCall := [RemoveSource sock].

(** The handler on the two directions of a connection; [garbage] is what the
    buffer of the name holds before.  The last component are its calls when
    the stream handler has returned. *)
(** source/net/tcp.cc:212-238 [TcpConnectionHandler] *)
Definition TcpConnectionHandler {K} `{Connection K} (env : Env World) (a : nat -> Z) (fuel : nat) (garbage in_buf out_buf : bytes)
    (peer : Peer) (sock : Z) (i o : K) (w : World) : option (bytes * K * K * World * list ConnCall) :=
  let stream_name := ConnectionName garbage peer in
  match EndpointHandler env a fuel stream_name in_buf out_buf (MkTcpStream i stream_name) (MkTcpStream o stream_name) w with
  | None => None
  | Some (ep, i', o', w') => Some (name_ ep, sock_ i', sock_ o', w', TcpStreamDestroy sock ++ [CloseSocket sock])
  end.

(** * Properties *)

(** C8. Served over TCP: on a connection that hands over the texts of any
    requests to functions that exist -- in any pieces, with any number of
    events that bring nothing -- and then no more, be it that the peer has shut
    down or that the connection is lost with whatever errors, and whose send
    buffer never is full, though every [send] may take only a part, the
    evaluator answers every request; and if in the end all objects fit their
    blocks and lie below [2^63], the handler terminates, and what was sent is
    these answers, in order, and an empty list; then the socket is taken from
    the event queue and closed. *)
Theorem tcp_connection_answers_requests {K} {sent : K -> bytes} `{ConnectionLaws K sent} (open : K -> Prop)
    json a qs trailing garbage in_buf out_buf peer sock (i o : K) w :
  never_full open -> open o -> sound w -> heap_ok w -> (forall n, (8 | a n)) -> Forall request_ok qs -> Forall (request_known json) qs ->
  forallb is_blank trailing = true -> (0 < length in_buf)%nat -> (0 < length out_buf)%nat ->
  delivers (length in_buf) i (concat (map request_text qs) ++ trailing) ->
  exists w' outs, answers (CreateSlangEnv json) a qs w = Some (w', outs) /\ length outs = S (length qs) /\ sound w' /\
  (sane w' -> exists fuel name i' o',
    TcpConnectionHandler (CreateSlangEnv json) a fuel garbage in_buf out_buf peer sock i o w = Some (name, i', o', w', [RemoveSource sock; CloseSocket sock]) /\
    sent o' = sent o ++ concat outs).
Proof.
  intros Hfull Ho Hw Hh Ha Hqs Hkn Htr Hin Hout Hdel. set (name := ConnectionName garbage peer).
  destruct (answers_defined json a qs w Hkn Hw) as (w' & outs & Hans & Hw' & Hl). exists w', outs. split_and!; [done..|].
  intros Hsane. destruct (answers_can_be_written json a qs w w' outs Ha Hh Hkn Hw Hans) as [_ Hch].
  destruct (EndpointHandler_spec (sent := fun s => sent (sock_ s)) (fun s => open (sock_ s)) json a qs trailing name in_buf out_buf
    (MkTcpStream i name) (MkTcpStream o name) w w' outs) as (fuel & ep' & i' & o' & E & _ & Hs & _); try done.
  - by apply never_full_accepts.
  - apply Hw.
  - by apply delivers_feeds.
  - by apply Hch.
  - exists fuel, (name_ ep'), (sock_ i'), (sock_ o'). split; [|done]. unfold TcpConnectionHandler. fold name. by rewrite E.
Qed.

(** A connection whose answers to [recv] are given, behind them the end, and
    which takes at most three bytes at a time. *)
Record DemoConn := MkConn { script : list RecvResult; got : bytes }.

#[export] Instance DemoConn_connection : Connection DemoConn := {
  recv k n :=
    match script k with
    | RecvFailed e :: l => (RecvFailed e, MkConn l (got k))
    | Received data :: l =>
        match take n data with
        | [] => (Received [], k)
        | piece => (Received piece, MkConn (match drop n data with [] => l | rest => Received rest :: l end) (got k))
        end
    | [] => (Received [], k)
    end;
  send k bs := let n := Nat.min 3 (length bs) in (Z.of_nat n, 0, MkConn (script k) (got k ++ take n bs));
  wait_event k _ := k;
  patience k := length (script k)
}.

#[export] Instance DemoConn_laws : ConnectionLaws DemoConn got.
Proof.
  split.
  - intros k n data k'. cbn. destruct (script k) as [|[d|e] l]; [by intros [= <- _]; cbn; lia| |done].
    assert (Hl : (length (take n d) <= n)%nat) by (rewrite length_take; lia). destruct (take n d) as [|c p]; intros [= <- _]; [cbn; lia|done].
  - intros k n r k'. cbn. destruct (script k) as [|[d|e] l]; [by intros [= <- _]|by destruct (take n d); intros [= <- _]|].
    intros [= <- <-] Hb; cbn; lia.
  - intros k c bs n e k' E _. change (send k (c :: bs)) with (Z.of_nat (Nat.min 3 (length (c :: bs))), 0, MkConn (script k) (got k ++ take (Nat.min 3 (length (c :: bs))) (c :: bs))) in E.
    remember (Nat.min 3 (length (c :: bs))) as m eqn:Hm. injection E as <- _ <-. cbn [got]. rewrite Nat2Z.id. split; [|done]. cbn [length] in *. lia.
  - intros k bs n e k' [= <- _ _]. lia.
Qed.

(** The connection is reset in the end: the error is reported once. *)
Definition ECONNRESET : Z := 104.
Definition demo_script : list RecvResult :=
  [RecvFailed EAGAIN; Received (lit "(+ 1 2"); RecvFailed EAGAIN; Received (lit ")" ++ [c_lf] ++ lit " (+ -40 2 0)" ++ [c_lf]); RecvFailed ECONNRESET].
Definition demo_peer : Peer := Some (lit "127.0.0.1", 5263).

Lemma tcp_connection_answers_requests_witness :
  exists fuel name i' o' w',
    TcpConnectionHandler (CreateSlangEnv JsonPayloadHandler) demo_alloc fuel (replicate kStreamNameMaxSize "x"%char)
      (replicate 512 c_nul) (replicate 4 c_nul) demo_peer 8 (MkConn demo_script []) (MkConn [] []) demo_world
      = Some (name, i', o', w', [RemoveSource 8; CloseSocket 8]) /\
    got o' = lit "[3]" ++ [c_lf] ++ lit "[-38]" ++ [c_lf] ++ lit "[]" ++ [c_lf].
Proof.
  destruct (tcp_connection_answers_requests (fun _ => True) JsonPayloadHandler demo_alloc demo_requests [c_lf]
    (replicate kStreamNameMaxSize "x"%char) (replicate 512 c_nul) (replicate 4 c_nul) demo_peer 8
    (MkConn demo_script []) (MkConn [] []) demo_world) as (w' & outs & Ha & _ & _ & Hrun).
  - intros k c bs n e k' _ [= <- _ _]. split; [lia|exact I].
  - exact I.
  - apply demo_world_sound.
  - exact demo_heap_ok.
  - exact demo_alloc_aligned.
  - repeat constructor; vm_compute; congruence.
  - exact demo_requests_known.
  - reflexivity.
  - vm_compute. lia.
  - vm_compute. lia.
  - change (concat (map request_text demo_requests) ++ [c_lf]) with
      (lit "(+ 1 2" ++ (lit ")" ++ [c_lf] ++ lit " (+ -40 2 0)" ++ [c_lf]) ++ []).
    eapply delivers_retry; [reflexivity|reflexivity|]. eapply delivers_data; [reflexivity|].
    eapply delivers_retry; [reflexivity|reflexivity|]. eapply delivers_data; [reflexivity|].
    apply delivers_end. intros [|j]; [done|]. eexists _, _. split; [reflexivity|]. split; [reflexivity|].
    apply (finished_still (K := DemoConn) _ _ (Received []) (MkConn [] [])); reflexivity.
  - rewrite demo_answers in Ha. injection Ha as <- <-.
    destruct (Hrun demo_world_sane) as (fuel & name & i' & o' & E & Hs). exists fuel, name, i', o', demo_world. split; [exact E|exact Hs].
Defined.
