(* ===== verification/Log.v ===== *)
(** [base/log]: the log.

    Where the output goes is a text per sink.  The time stamp is what the C
    library formats; the line builder is the thread's, so what it held before
    the message is arbitrary. *)
From S2P Require Import Prelude Either StrBuild CLib.
Local Open Scope Z_scope.

(** source/base/log.h:25-31 [LogLevel] *)
Inductive LogLevel := LevelNone | LevelError | LevelWarning | LevelInfo | LevelVerbose.

(** source/base/log.h:34-39 [LogFailure] *)
Inductive LogFailure := CannotOpenFile | InvalidLevel.

(** The bits of [flags]. *)
(** source/base/log.h:17-22 [LogFlags] *)
Definition StdOut : Z := 1.
Definition SysLog : Z := 2.

Definition level_num (l : LogLevel) : Z :=
  match l with LevelNone => 0 | LevelError => 1 | LevelWarning => 2 | LevelInfo => 3 | LevelVerbose => 4 end.

(** source/base/log.cc:18-24 [log_level_names] *)
Definition log_level_names : list (bytes * LogLevel) :=
  [(lit "none", LevelNone); (lit "error", LevelError); (lit "warning", LevelWarning); (lit "info", LevelInfo);
   (lit "verbose", LevelVerbose)].

(** source/base/log.cc:28-38 [LogLevelFromString] *)
Definition LogLevelFromString (level_name : bytes) : Either LogFailure LogLevel :=
  match find (fun x => bool_decide (level_name = fst x)) log_level_names with
  | Some x => Right (snd x)
  | None => Left InvalidLevel
  end.

(** ** The system log

    [None] is a failed assertion; what the C library is given is a list of
    priorities and texts. *)

(** source/base/platform/unix/os/syslog.h:11-17 [syslog_levels] *)
Definition syslog_levels : list Z := [-1; 1; 4; 6; 7].

(** source/base/platform/unix/os/syslog.h:47-48 [Syslog] *)
Record Syslog := MkSyslog { started_ : bool }.

(** source/base/platform/unix/os/syslog.h:28-32 [Syslog::Start] *)
Definition SyslogStart (s : Syslog) : option Syslog := if started_ s then None else Some (MkSyslog true).

(** source/base/platform/unix/os/syslog.h:34-38 [Syslog::Stop] *)
Definition SyslogStop (s : Syslog) : option Syslog := if started_ s then Some (MkSyslog false) else None.

(** source/base/platform/unix/os/syslog.h:41-45 [Syslog::Print] *)
Definition SyslogPrint (priority : Z) (str : bytes) (s : Syslog) : option (Z * bytes) :=
  if started_ s && (1 <=? priority) && (priority <=? 4) then Some (nth (Z.to_nat priority) syslog_levels (-1), c_str str) else None.

(** source/base/platform/unix/os/syslog.h:22-26 [Syslog::~Syslog] *)
Definition SyslogDestroy (s : Syslog) : option Syslog := if started_ s then SyslogStop s else Some s.

(** ** The log *)

(** The prefix is the used part of its array of 64 bytes; a file is known by
    its handle. *)
(** source/base/log.h:71-91 [Log] *)
Record Log := MkLog {
  level_ : LogLevel;
  log_fp_ : option nat;
  own_file_ : bool;
  is_stdout_ : bool;
  is_syslog_ : bool;
  syslog_ : Syslog;
  prefix_ : bytes
}.

(** What was written to the standard output, to the files that are open and to
    those that were closed, and to the system log. *)
Record Output := MkOutput {
  out_stdout : bytes;
  open_files : gmap nat bytes;
  closed_files : list bytes;
  out_syslog : list (Z * bytes)
}.

Definition flag_bit (flags f : Z) : bool := negb (Z.land flags f =? 0).

(** source/base/log.cc:51-60 [Log::Log] *)
Definition LogNew (level : LogLevel) (flags : Z) : option Log :=
  let is_syslog := flag_bit flags SysLog in
  option_map (fun syslog => MkLog level None false (flag_bit flags StdOut) is_syslog syslog [])
    (if is_syslog then SyslogStart (MkSyslog false) else Some (MkSyslog false)).

(** source/base/log.cc:138-140 [Log::HasFile] *)
Definition HasFile (log : Log) : bool := bool_decide (log_fp_ log <> None).

Definition with_file (log : Log) (fp : option nat) (own_file : bool) : Log :=
  MkLog (level_ log) fp own_file (is_stdout_ log) (is_syslog_ log) (syslog_ log) (prefix_ log).

(** [can_open] says which files can be opened for writing. *)
(** source/base/log.cc:142-148 [Log::StartLogFile] *)
Definition StartLogFile (can_open : bytes -> bool) (log_file : bytes) (log : Log) (o : Output) : option (bool * Log * Output) :=
  if HasFile log then None
  else if can_open (c_str log_file) then
    let h := fresh (dom (open_files o)) in
    Some (true, with_file log (Some h) true, MkOutput (out_stdout o) (<[h := []]> (open_files o)) (closed_files o) (out_syslog o))
  else Some (false, with_file log None true, o).

(** [None]: a file is closed that is not open. *)
(** source/base/log.cc:150-156 [Log::CloseLogFile] *)
Definition CloseLogFile (log : Log) (o : Output) : option (Log * Output) :=
  match own_file_ log, log_fp_ log with
  | true, Some h =>
      match open_files o !! h with
      | None => None
      | Some text => Some (with_file log None (own_file_ log),
          MkOutput (out_stdout o) (delete h (open_files o)) (closed_files o ++ [text]) (out_syslog o))
      end
  | _, _ => Some (with_file log None (own_file_ log), o)
  end.

(** [None]: a file is written to that is not open. *)
(** source/base/log.cc:158-164 [Log::AppendLogFile] *)
Definition AppendLogFile (log : Log) (str : bytes) (o : Output) : option Output :=
  match log_fp_ log with
  | None => Some o
  | Some h =>
      match open_files o !! h with
      | None => None
      | Some text => Some (MkOutput (out_stdout o) (<[h := text ++ str]> (open_files o)) (closed_files o) (out_syslog o))
      end
  end.

(** The new log, and what is left of the other: the system log is not among
    what is handed over. *)
(** source/base/log.cc:78-89 [Log::Log] *)
Definition LogMove (another : Log) : Log * Log :=
  (MkLog (level_ another) (log_fp_ another) (own_file_ another) (is_stdout_ another) (is_syslog_ another) (MkSyslog false)
     (prefix_ another),
   with_file another None false).

(** source/base/log.cc:91-97 [Log::~Log] *)
Definition LogDestroy (log : Log) (o : Output) : option Output :=
  match if is_syslog_ log then SyslogStop (syslog_ log) else Some (syslog_ log) with
  | None => None
  | Some syslog =>
      match CloseLogFile log o with
      | None => None
      | Some (_, o) => option_map (fun _ => o) (SyslogDestroy syslog)
      end
  end.

(** The local log is destroyed on every way out. *)
(** source/base/log.cc:40-49 [Log::Create] *)
Definition LogCreate (can_open : bytes -> bool) (level : LogLevel) (flags : Z) (log_file : option bytes) (o : Output)
    : option (Either LogFailure Log * Output) :=
  match LogNew level flags with
  | None => None
  | Some log =>
      let finish log o :=
        let '(result, log) := LogMove log in option_map (fun o => (Right result, o)) (LogDestroy log o) in
      match log_file with
      | None => finish log o
      | Some file =>
          match StartLogFile can_open file log o with
          | None => None
          | Some (false, log, o) => option_map (fun o => (Left CannotOpenFile, o)) (LogDestroy log o)
          | Some (true, log, o) => finish log o
          end
      end
  end.

(** source/base/log.cc:166-175 [Log::AppendPrefix] *)
Definition AppendPrefix (str : bytes) (prefix : bytes) : bytes := prefix ++ take (64 - length prefix) str.

(** source/base/log.cc:62-76 [Log::Log] *)
Definition LogWithPrefix (another : Log) (prefix : bytes) : Log :=
  MkLog (level_ another) (log_fp_ another) false (is_stdout_ another) (is_syslog_ another) (MkSyslog false)
    (AppendPrefix (lit "] ") (AppendPrefix prefix (AppendPrefix (lit "[") (prefix_ another)))).

(** source/base/log.h:58-58 [Log::ShouldLog] *)
Definition ShouldLog (log : Log) (level : LogLevel) : bool := level_num level <=? level_num (level_ log).

(** [stamp] is the date, written only when it fits into 32 bytes. *)
(** source/base/log.cc:99-122 [Log::BeginThreadSafeLog] *)
Definition BeginThreadSafeLog (log : Log) (stamp : bytes) (usec : Z) (log_builder : StrBuilder) : StrBuilder :=
  let log_builder := Clear log_builder in
  let log_builder :=
    if is_stdout_ log || HasFile log then
      Append (Write log_builder 32 (fun buf => (length stamp, take (length buf) (stamp ++ [c_nul]) ++ drop (S (length stamp)) buf)))
        [AChar "."; AUInt usec; AStr (lit "] ")]
    else log_builder in
  Append log_builder [AStr (prefix_ log)].

(** source/base/log.cc:124-136 [Log::EndThreadSafeLog] *)
Definition EndThreadSafeLog (log : Log) (log_builder : StrBuilder) (level : LogLevel) (o : Output) : option (StrBuilder * Output) :=
  match if is_syslog_ log then option_map (fun x => out_syslog o ++ [x]) (SyslogPrint (level_num level) (Buffer log_builder) (syslog_ log))
        else Some (out_syslog o) with
  | None => None
  | Some syslog =>
      let log_builder := Append log_builder [AChar c_lf] in
      let str := Buffer log_builder in
      let o := MkOutput (if is_stdout_ log then out_stdout o ++ str else out_stdout o) (open_files o) (closed_files o) syslog in
      option_map (fun o => (log_builder, o)) (AppendLogFile log str o)
  end.

(** source/base/log.h:93-98 [Log::BuildLog] *)
Definition BuildLog (log : Log) (level : LogLevel) (stamp : bytes) (usec : Z) (args : list BuildArg)
    (log_builder : StrBuilder) (o : Output) : option (StrBuilder * Output) :=
  EndThreadSafeLog log (Append (BeginThreadSafeLog log stamp usec log_builder) args) level o.

(** source/base/log.h:100-126 [Log::Error] *)
Definition LogMessage (log : Log) (level : LogLevel) (stamp : bytes) (usec : Z) (args : list BuildArg) :
    StrBuilder -> Output -> option (StrBuilder * Output) :=
  BuildLog log level stamp usec
    (match level with
     | LevelError => AStr (lit "[error] ") :: args
     | LevelWarning => AStr (lit "[warning] ") :: args
     | _ => args
     end).

(** The functions [DefineTaggedLog] makes for a tag. *)
(** source/base/log.h:140-158 [DefineTaggedLog] *)
Definition TaggedMessage (tag : bytes) (log : Log) (level : LogLevel) (stamp : bytes) (usec : Z) (args : list BuildArg) :
    StrBuilder -> Output -> option (StrBuilder * Output) :=
  LogMessage log level stamp usec (AStr (lit "<" ++ tag ++ lit "> ") :: args).

(** ** What reaches a sink *)

(** The prefix never leaves its array. *)
Lemma LogWithPrefix_bound another prefix :
  (length (prefix_ another) <= 64)%nat -> (length (prefix_ (LogWithPrefix another prefix)) <= 64)%nat.
Proof.
  intros Hl. assert (Hap : forall str p, (length p <= 64)%nat -> (length (AppendPrefix str p) <= 64)%nat).
  { intros str p Hp. unfold AppendPrefix. rewrite length_app, length_take. lia. }
  cbn [LogWithPrefix prefix_]. by repeat apply Hap.
Qed.

(** The level of the log plays no part: a message is written to every sink of
    the log whether [ShouldLog] or not. *)
Lemma level_is_ignored log level' level stamp usec args b o :
  LogMessage (MkLog level' (log_fp_ log) (own_file_ log) (is_stdout_ log) (is_syslog_ log) (syslog_ log) (prefix_ log))
    level stamp usec args b o = LogMessage log level stamp usec args b o.
Proof. done. Qed.

(** Reference for the line of a message, in a builder with room for [cap] bytes:
    the date, unless there is no room for it, the microseconds, the prefix, the
    message, the end of the line; strings are cut, and numbers that do not fit
    left out. *)
Definition log_header (cap : nat) (log : Log) (stamp : bytes) (usec : Z) : bytes :=
  if is_stdout_ log || HasFile log then
    fold_left (append_ref cap) [AChar "."; AUInt usec; AStr (lit "] ")] (if (cap <? 32)%nat then [] else stamp)
  else [].

Definition level_args (level : LogLevel) (args : list BuildArg) : list BuildArg :=
  match level with
  | LevelError => AStr (lit "[error] ") :: args
  | LevelWarning => AStr (lit "[warning] ") :: args
  | _ => args
  end.

Definition log_line (cap : nat) (log : Log) (level : LogLevel) (stamp : bytes) (usec : Z) (args : list BuildArg) : bytes :=
  fold_left (append_ref cap) (AStr (prefix_ log) :: level_args level args ++ [AChar c_lf]) (log_header cap log stamp usec).

(** What there must be for it. *)
Definition stamp_ok (stamp : bytes) (usec : Z) : Prop := (length stamp < 32)%nat /\ in_u 64 usec.

Lemma append_all_fits cap args acc :
  (length acc + length (concat (map arg_text args)) + 32 <= cap)%nat -> fold_left (append_ref cap) args acc = acc ++ concat (map arg_text args).
Proof.
  revert acc. induction args as [|a args IH]; intros acc Hl; cbn [map concat fold_left] in *; [by rewrite app_nil_r|].
  rewrite length_app in Hl. assert (E : append_ref cap acc a = acc ++ arg_text a).
  { unfold append_ref. destruct (arg_room a) as [room|] eqn:Er.
    - destruct (Nat.ltb_spec (cap - length acc) room); [|done]. destruct a; cbn in Er; try discriminate; injection Er as <-; lia.
    - apply take_ge. rewrite length_app. lia. }
  rewrite E, IH by (rewrite length_app; lia). by rewrite <- app_assoc.
Qed.

(** A message that fits is written in full. *)
Lemma log_line_fits cap log level stamp usec args :
  is_stdout_ log || HasFile log = true -> prefix_ log = [] ->
  let text := stamp ++ "."%char :: uint_str usec ++ lit "] " ++ concat (map arg_text (level_args level args)) ++ [c_lf] in
  (length text + 32 <= cap)%nat -> log_line cap log level stamp usec args = text.
Proof.
  intros Hs Hp text Hl. unfold log_line, log_header. rewrite Hs, Hp. destruct (Nat.ltb_spec cap 32); [lia|].
  assert (E : text = (stamp ++ concat (map arg_text [AChar "."; AUInt usec; AStr (lit "] ")])) ++
    concat (map arg_text (AStr [] :: level_args level args ++ [AChar c_lf]))).
  { unfold text. cbn [map concat arg_text app]. rewrite map_app, concat_app, <- !app_assoc. cbn. by rewrite <- !app_assoc. }
  rewrite E in Hl |- *. rewrite length_app in Hl. rewrite (append_all_fits cap [AChar "."; _; _]) by (rewrite length_app in Hl; lia).
  by rewrite append_all_fits by lia.
Qed.

Lemma message_line log level stamp usec args b :
  sb_wf b -> stamp_ok stamp usec -> Forall arg_ok args ->
  let b' := Append (Append (BeginThreadSafeLog log stamp usec b) (level_args level args)) [AChar c_lf] in
  sb_wf b' /\ UseSize b' = UseSize b /\ Buffer b' = log_line (UseSize b) log level stamp usec args.
Proof.
  intros Hwf [Hst Hus] Hargs. assert (Hc : sb_wf (Clear b)) by (split; [apply Hwf|cbn; lia]).
  set (h := if is_stdout_ log || HasFile log then Append (Write (Clear b) 32 (fun buf => (length stamp, take (length buf) (stamp ++ [c_nul]) ++ drop (S (length stamp)) buf)))
        [AChar "."; AUInt usec; AStr (lit "] ")] else Clear b).
  assert (Hh : sb_wf h /\ UseSize h = UseSize b /\ Buffer h = log_header (UseSize b) log stamp usec).
  { unfold h, log_header. destruct (_ || _); [|done]. change (UseSize b) with (UseSize (Clear b)).
    match goal with |- context [Write (Clear b) 32 ?f] => assert (Hw : sb_wf (Write (Clear b) 32 f) /\ UseSize (Write (Clear b) 32 f) = UseSize (Clear b) /\
      Buffer (Write (Clear b) 32 f) = if (UseSize (Clear b) <? 32)%nat then [] else stamp); [|set (b1 := Write (Clear b) 32 f) in *] end.
    - destruct (Nat.ltb_spec (UseSize (Clear b)) 32) as [Hlt|Hge]; [rewrite Write_full by (cbn [Clear offset_]; lia); done|].
      apply (Write_into (Clear b) 32 _ stamp Hc); [cbn [Clear offset_]; lia|]. intros region Hr.
      exists (c_nul :: drop (S (length stamp)) region). rewrite Hr, take_ge by (rewrite length_app; cbn; lia).
      rewrite <- app_assoc. split; [done|]. rewrite length_app. cbn [length]. rewrite length_drop. lia.
    - destruct Hw as (W1 & W2 & W3). rewrite <- W2 in W3 |- *. rewrite <- W3. apply Append_spec; [done|]. repeat constructor; apply Hus. }
  destruct Hh as (H1 & H2 & H3). assert (E0 : BeginThreadSafeLog log stamp usec b = Append h [AStr (prefix_ log)]) by done. clearbody h.
  assert (E : forall x, Append (Append (Append h [AStr (prefix_ log)]) x) [AChar c_lf] = Append h (AStr (prefix_ log) :: x ++ [AChar c_lf])).
  { intros x. unfold Append. by rewrite <- !fold_left_app. }
  intros b'. replace b' with (Append h (AStr (prefix_ log) :: level_args level args ++ [AChar c_lf])) by (unfold b'; by rewrite E0, E).
  destruct (Append_spec h (AStr (prefix_ log) :: level_args level args ++ [AChar c_lf]) H1) as (G1 & G2 & G3).
  { constructor; [done|]. apply Forall_app. split; [|by repeat constructor]. destruct level; cbn [level_args]; by repeat constructor. }
  rewrite G2, G3, H2, H3. done.
Qed.

(** A log that can be written to: no system log, its file open. *)
Definition writable (log : Log) (o : Output) : Prop :=
  is_syslog_ log = false /\ match log_fp_ log with None => True | Some h => is_Some (open_files o !! h) end.

(** Its messages go to the end of the standard output and of its file, the same
    line to both. *)
Lemma message_written log level stamp usec args b o :
  writable log o -> exists b' line, LogMessage log level stamp usec args b o = Some (b', MkOutput
    (if is_stdout_ log then out_stdout o ++ line else out_stdout o)
    (match log_fp_ log with None => open_files o | Some h => alter (fun text => text ++ line) h (open_files o) end)
    (closed_files o) (out_syslog o)) /\
    (sb_wf b -> stamp_ok stamp usec -> Forall arg_ok args ->
     sb_wf b' /\ UseSize b' = UseSize b /\ line = log_line (UseSize b) log level stamp usec args).
Proof.
  intros [Hs Hf]. set (b' := Append (Append (BeginThreadSafeLog log stamp usec b) (level_args level args)) [AChar c_lf]).
  exists b', (Buffer b'). split; [|by apply message_line].
  assert (E : LogMessage log level stamp usec args b o = EndThreadSafeLog log (Append (BeginThreadSafeLog log stamp usec b) (level_args level args)) level o)
    by (by destruct level).
  rewrite E. unfold EndThreadSafeLog. rewrite Hs. fold b'. unfold AppendLogFile.
  destruct (log_fp_ log) as [h|]; [|done]. destruct Hf as [text Ht].
  cbn [open_files]. rewrite Ht. cbn [option_map]. do 2 f_equal. cbn [out_stdout closed_files out_syslog]. f_equal.
  apply map_eq. intros k. destruct (decide (k = h)) as [->|Hne].
  - by rewrite lookup_insert_eq, lookup_alter, Ht, decide_True.
  - by rewrite lookup_insert_ne, lookup_alter_ne.
Qed.

(** A log that is created writes to what its flags and its file say, has its
    file to itself, and the one it was moved from does not close it; the file
    is closed with the log, with everything that was written. *)
Lemma created_log can_open level flags log_file o :
  flag_bit flags SysLog = false ->
  exists result o', LogCreate can_open level flags log_file o = Some (result, o') /\
  match result with
  | Left e => e = CannotOpenFile /\ o' = o /\ exists file, log_file = Some file /\ can_open (c_str file) = false
  | Right log => writable log o' /\ is_stdout_ log = flag_bit flags StdOut /\ prefix_ log = [] /\ out_stdout o' = out_stdout o /\
      match log_file with
      | None => log_fp_ log = None /\ o' = o /\ LogDestroy log o' = Some o'
      | Some file => can_open (c_str file) = true /\ exists h, log_fp_ log = Some h /\ open_files o !! h = None /\
          open_files o' = <[h := []]> (open_files o) /\
          forall o2 text, open_files o2 !! h = Some text ->
            LogDestroy log o2 = Some (MkOutput (out_stdout o2) (delete h (open_files o2)) (closed_files o2 ++ [text]) (out_syslog o2))
      end
  end.
Proof.
  intros Hf. unfold LogCreate, LogNew. rewrite Hf. cbn [option_map]. destruct log_file as [file|].
  - unfold StartLogFile. change (HasFile _) with false. cbv iota.
    destruct (can_open (c_str file)) eqn:Eo; cbn [LogMove with_file].
    + eexists _, _. split; [reflexivity|]. split; [split; [done|]; cbn; rewrite lookup_insert_eq; by eexists|].
      split; [done|]. split; [done|]. split; [done|]. split; [done|]. eexists. split; [done|].
      split; [apply not_elem_of_dom, is_fresh|]. split; [done|]. intros o2 text Ht. cbn in Ht |- *.
      unfold LogDestroy, CloseLogFile. cbn [own_file_ log_fp_ is_syslog_ syslog_]. by rewrite Ht.
    + eexists _, _. split; [reflexivity|]. split; [done|]. split; [done|]. by exists file.
  - eexists _, _. split; [reflexivity|]. by split.
Qed.

(** With the system log a log can neither be written to nor destroyed: it was
    moved, or has a prefix, and is told to use a system log it never started. *)
Lemma system_log_never_works can_open level flags log_file o log o' :
  flag_bit flags SysLog = true -> LogCreate can_open level flags log_file o = Some (Right log, o') ->
  forall prefix, Forall (fun l => is_syslog_ l = true /\ (forall level stamp usec args b o, LogMessage l level stamp usec args b o = None) /\
    forall o, LogDestroy l o = None) [log; LogWithPrefix log prefix; fst (LogMove log)].
Proof.
  intros Hf E prefix. assert (Hl : is_syslog_ log = true /\ syslog_ log = MkSyslog false).
  { unfold LogCreate, LogNew in E. rewrite Hf in E. cbn [option_map SyslogStart started_] in E.
    destruct log_file as [file|].
    - unfold StartLogFile in E. change (HasFile _) with false in E. cbv iota in E.
      destruct (can_open (c_str file)); cbn in E; [by injection E as <- _|done].
    - cbn in E. by injection E as <- _. }
  destruct Hl as [H1 H2]. repeat constructor; try done.
  all: intros; unfold LogMessage, BuildLog, EndThreadSafeLog, LogDestroy; cbn [LogWithPrefix LogMove fst is_syslog_ syslog_ with_file];
    by rewrite ?H1, ?H2.
Qed.
