(* ===== verification/Main.v ===== *)
(** [main/main.cc]: from the command line to the running task manager.

    Messages to the console are left out; the file system is what opening a
    file gives, as in [Config]. *)
From S2P Require Import Prelude Either StrBuild CLib Stream Lexer LexerSim Syntax Config ConfigProps ConfigList.
From S2P Require Import Call Program Types TypeVault Storage SlangEnv World Database Task Tcp Log.
Local Open Scope Z_scope.

(** * Configuration *)

(** The loop over the arguments: the merged files, and whether there was one.
    [load] loads a file. *)
(** source/main/main.cc:43-74 [LoadConfig] *)
Fixpoint LoadConfigFiles (load : bytes -> option (Either ConfigLoadError ConfigMap)) (argv : list bytes) (result : ConfigMap)
    (config_file_found : bool) : option (Either ConfigLoadError (ConfigMap * bool)) :=
  match argv with
  | [] => Some (Right (result, config_file_found))
  | arg :: argv1 =>
      if bool_decide (arg = lit "--config") || bool_decide (arg = lit "-c") then
        match argv1 with
        | [] => Some (Left InvalidArgs)
        | path :: argv2 =>
            match load path with
            | None => None
            | Some (Left e) => Some (Left e)
            | Some (Right loaded) => LoadConfigFiles load argv2 (Merge result loaded) true
            end
        end
      else if bool_decide (head arg = Some "/"%char) then
        match argv1 with
        | [] => Some (Right (result, config_file_found))
        | _ :: argv2 => LoadConfigFiles load argv2 result config_file_found
        end
      else Some (Left InvalidArgs)
  end.

(** source/main/main.cc:77-77 [LoadConfig] *)
Definition default_config_path : bytes := lit "./xynqdb.conf".

(** The default file is loaded; what it contains is not used. *)
(** source/main/main.cc:40-104 [LoadConfig] *)
Definition LoadConfig (load : bytes -> option (Either ConfigLoadError ConfigMap))
    (load_args : list bytes -> option (Either ConfigLoadError ConfigMap)) (argv : list bytes)
    : option (Either ConfigLoadError ConfigMap) :=
  match LoadConfigFiles load (tail argv) empty false with
  | None => None
  | Some (Left e) => Some (Left e)
  | Some (Right (result, config_file_found)) =>
      let rest :=
        match load_args (tail argv) with
        | None => None
        | Some (Left e) => Some (Left e)
        | Some (Right loaded_args) => Some (Right (Merge result loaded_args))
        end in
      if config_file_found then rest
      else
        match load default_config_path with
        | None => None
        | Some (Left FileNotFound) => rest
        | Some (Left e) => Some (Left e)
        | Some (Right _) => rest
        end
  end.

(** ** What the configuration says *)

Definition conf_bool (key : string) (dflt : bool) (conf : ConfigMap) : bool := RightOrDefault (Get as_bool (lit key) conf) dflt.
Definition conf_int (key : string) (dflt : Z) (conf : ConfigMap) : Z := RightOrDefault (Get as_int (lit key) conf) dflt.
Definition conf_str (key dflt : string) (conf : ConfigMap) : bytes := RightOrDefault (Get as_str (lit key) conf) (lit dflt).

(** source/main/main.cc:106-138 [CreateLog] *)
Definition CreateLog (can_open : bytes -> bool) (conf : ConfigMap) (o : Output) : option (Either LogFailure Log * Output) :=
  let enable_stdout := conf_bool "log.stdout" true conf in
  let enable_syslog := conf_bool "log.syslog" false conf in
  let log_file := conf_str "log.file" "" conf in
  match LogLevelFromString (conf_str "log.level" "info" conf) with
  | Left e => Some (Left e, o)
  | Right level =>
      let flags := if enable_stdout then StdOut else 0 in
      let flags := if enable_syslog then Z.lor flags SysLog else flags in
      LogCreate can_open level flags (match log_file with [] => None | _ => Some log_file end) o
  end.

(** source/task/task_manager.h:15-15 [kNumThreadsAutoDetect] *)
Definition kNumThreadsAutoDetect : Z := 2 ^ 64 - 1.

(** The manager that was made: how many events a thread takes at once, how
    many threads, whether they are pinned. *)
Record ManagerParams := MkManagerParams { max_events_at_once : Z; num_threads_ : Z; pin_threads_ : bool }.

(** [None]: there are no threads, and the assertion fails. *)
(** source/task/task_manager.cc:14-29 [TaskManager::TaskManager] *)
Definition TaskManagerNew (num_cores : Z) (max_events_at_once num_threads : Z) (pin_threads : bool) : option ManagerParams :=
  let num_threads := if num_threads =? kNumThreadsAutoDetect then num_cores else num_threads in
  if 1 <=? num_threads then Some (MkManagerParams max_events_at_once num_threads pin_threads) else None.

(** [Some None]: the configuration is refused. *)
(** source/main/main.cc:140-174 [CreateTaskManager] *)
Definition CreateTaskManager (num_cores : Z) (conf : ConfigMap) : option (option ManagerParams) :=
  let rest num_threads :=
    let max_events_at_once := conf_int "events.max-events-at-once" 1024 conf in
    if max_events_at_once <=? 0 then Some None
    else option_map Some (TaskManagerNew num_cores max_events_at_once num_threads (conf_bool "task.pin-threads" true conf)) in
  match Get as_str (lit "task.num-threads") conf with
  | Right num_threads_str => if bool_decide (num_threads_str = lit "auto") then rest kNumThreadsAutoDetect else Some None
  | Left _ =>
      let num_threads_cfg := Get as_size (lit "task.num-threads") conf in
      if IsRight num_threads_cfg then Some None else rest (RightOrDefault num_threads_cfg kNumThreadsAutoDetect)
  end.

(** source/main/main.cc:176-198 [CreateTcpManager] *)
Definition CreateTcpManager (conf : ConfigMap) : option (list (bytes * Z * TcpParameters)) :=
  match AsArray as_str (RightOrDefault (GetList (lit "tcp.bind") conf) [VString (lit "0.0.0.0:9920")]) with
  | None => None
  | Some addrs =>
      TcpManagerCreate
        (MkTcpParams (conf_int "tcp.listen-backlog" 512 conf) (conf_bool "tcp.reuse-bind-addr" false conf)
           (MkKeepAlive (conf_bool "tcp.keep-alive.enable" false conf) (conf_int "tcp.keep-alive.idle" 20 conf)
              (conf_int "tcp.keep-alive.interval" 20 conf) (conf_int "tcp.keep-alive.probes" 8 conf)))
        addrs
  end.

(** The tasks the manager starts with. *)
Inductive EntryPoint := EpListen (bind_addr : bytes) (bind_port : Z) (params : TcpParameters) | EpExecuteFiles (files : list bytes).

(** source/main/main.cc:205-218 [ScheduleConfigExecs] *)
Definition ScheduleConfigExecs (conf : ConfigMap) (entrypoints : list EntryPoint) : option (list EntryPoint) :=
  match GetList (lit "exec") conf with
  | Left _ => Some entrypoints
  | Right exec_list => option_map (fun files => entrypoints ++ [EpExecuteFiles files]) (AsArray as_str exec_list)
  end.

(** Messages one after the other, each with the time of its moment. *)
Fixpoint LogLines (times : nat -> bytes * Z) (log : Log) (lines : list (list BuildArg)) (b : StrBuilder) (o : Output)
    : option (StrBuilder * Output) :=
  match lines with
  | [] => Some (b, o)
  | args :: lines =>
      match LogMessage log LevelInfo (fst (times 0%nat)) (snd (times 0%nat)) (AStr (lit "<Main> ") :: args) b o with
      | None => None
      | Some (b, o) => LogLines (fun n => times (S n)) log lines b o
      end
  end.

(** source/main/main.cc:265-267 [XYEntrypoint] *)
Definition config_line (entry : bytes * bytes) : list BuildArg :=
  [AStr (lit "Loaded config: "); AStr (fst entry); AStr (lit " -> "); AStr (snd entry)].

(** What the process runs: the log, the manager with its entry points, the
    database. *)
Record Startup := MkStartup {
  startup_log : Log;
  startup_output : Output;
  startup_manager : ManagerParams;
  startup_entrypoints : list EntryPoint;
  startup_world : World
}.

(** [None] inside is the exit code -1, [None] outside a failed assertion;
    [banner] is the first message, [b] the builder of the thread.  The output is
    that of the log up to the end of the listing of the configuration. *)
(** source/main/main.cc:243-328 [XYEntrypoint] *)
Definition XYEntrypoint (log10 : double -> double) (pow : double -> double -> double)
    (load : bytes -> option (Either ConfigLoadError ConfigMap))
    (load_args : list bytes -> option (Either ConfigLoadError ConfigMap)) (can_open : bytes -> bool)
    (times : nat -> bytes * Z) (banner : list BuildArg) (b : StrBuilder) (num_cores : Z)
    (allocator heap : nat -> Z) (m : Mem) (argv : list bytes) : option (option Startup) :=
  match LoadConfig load load_args argv with
  | None => None
  | Some (Left _) => Some None
  | Some (Right conf) =>
      match CreateLog can_open conf (MkOutput [] empty [] []) with
      | None => None
      | Some (Left _, _) => Some None
      | Some (Right create_log, o) =>
          let '(log, _) := LogMove create_log in
          match ConfigList.Enumerate log10 pow conf ≫= fun listing => LogLines times log (banner :: map config_line listing) b o with
          | None => None
          | Some (_, o) =>
              match CreateTaskManager num_cores conf with
              | None => None
              | Some None => Some None
              | Some (Some manager) =>
                  Some
                    match CreateTcpManager conf with
                    | None => None
                    | Some listeners =>
                        option_map (fun entrypoints => MkStartup log o manager entrypoints (InitialWorld allocator heap m))
                          (ScheduleConfigExecs conf (map (fun x => EpListen (fst (fst x)) (snd (fst x)) (snd x)) listeners))
                    end
              end
          end
      end
  end.

(** The task manager as [Run] starts it. *)
Definition RunStartup {K} (s : Startup) (sources : nat -> EventSource) (k : K) : @TaskManager EntryPoint K :=
  Run (Z.to_nat (num_threads_ (startup_manager s))) (startup_entrypoints s) sources k.

(** * Command lines *)

(** A configuration file, by either flag, or a key and a value. *)
Inductive ArgItem := AiFile (short : bool) (path : bytes) | AiPair (kv : bytes * conf_value).

Definition item_args (x : ArgItem) : list bytes :=
  match x with AiFile short path => [if short then lit "-c" else lit "--config"; path] | AiPair kv => arg_pair kv end.
Definition item_files (items : list ArgItem) : list bytes := omap (fun x => match x with AiFile _ path => Some path | _ => None end) items.
Definition item_pairs (items : list ArgItem) : list (bytes * conf_value) := omap (fun x => match x with AiPair kv => Some kv | _ => None end) items.

(** The path of a file must not look like a key. *)
Definition item_ok (x : ArgItem) : Prop :=
  match x with AiFile _ path => head path <> Some "/"%char | AiPair kv => arg_pair_ok kv end.

Lemma LoadConfigFiles_items load items confs result found :
  map load (item_files items) = map (fun c => Some (Right c)) confs ->
  LoadConfigFiles load (concat (map item_args items)) result found =
    Some (Right (fold_left Merge confs result, found || bool_decide (confs <> []))).
Proof.
  revert confs result found. induction items as [|[short path|[k v]] items IH]; intros confs result found Hl.
  - destruct confs; [|done]. cbn. by rewrite orb_false_r.
  - destruct confs as [|c confs]; [done|]. cbn in Hl. injection Hl as Hl Hls.
    assert (E : LoadConfigFiles load (concat (map item_args (AiFile short path :: items))) result found =
      LoadConfigFiles load (concat (map item_args items)) (Merge result c) true) by (destruct short; cbn; by rewrite Hl).
    rewrite E, (IH confs) by done. rewrite (bool_decide_true (c :: confs <> [])) by done. by rewrite orb_true_r.
  - cbn [map concat item_args arg_pair app fst snd LoadConfigFiles]. cbn. by apply IH.
Qed.

Lemma args_text_skip arg argv buf : head arg <> Some "/"%char -> args_text (arg :: argv) buf = args_text argv buf.
Proof.
  intros Ha. destruct arg as [|c arg]; [done|]. cbn [args_text]. destruct (c =c "/") eqn:E; [|done].
  apply Ascii.eqb_eq in E as ->. done.
Qed.

Lemma args_text_items items rest buf :
  Forall item_ok items ->
  args_text (concat (map item_args items) ++ rest) buf = args_text rest (buf ++ tree_lines (map arg_leaf (item_pairs items))).
Proof.
  intros Hok. revert buf. induction Hok as [|[short path|kv] items Hx _ IH]; intros buf; [cbn; by rewrite app_nil_r| |].
  - cbn [map concat item_args app]. rewrite args_text_skip by (by destruct short). rewrite args_text_skip by done. apply IH.
  - change (concat (map item_args (AiPair kv :: items))) with (arg_pair kv ++ concat (map item_args items)).
    rewrite <- app_assoc. assert (E : forall rest, args_text (arg_pair kv ++ rest) buf = args_text rest (buf ++ tree_lines [arg_leaf kv])).
    { clear IH rest. intros rest. assert (Hp : args_text (concat (map arg_pair [kv])) buf = Some (buf ++ tree_lines (map arg_leaf [kv])))
        by (apply args_text_pairs; constructor; [exact Hx|constructor]).
      destruct kv as [k v], Hx as (Hk & _). destruct k as [|c k]; [by destruct Hk|].
      cbn [map concat arg_pair app args_text fst snd] in Hp |- *. change ("/"%char =c "/") with true in Hp |- *. cbn iota in Hp |- *.
      destruct (MakeSlangExprFromArgs _ _ _); [|done]. cbn [args_text] in Hp. by injection Hp as ->. }
    rewrite E, IH. unfold tree_lines. cbn [item_pairs omap list_omap map concat]. by rewrite app_nil_r, <- app_assoc.
Qed.

(** ** Which value wins *)

Lemma Merge_lookup left right key :
  Merge left right !! key =
  match right !! key with
  | None => left !! key
  | Some node => Some (CloneNode node (default [VNone] (left !! key)))
  end.
Proof. apply MergeValues_lookup. Qed.

Lemma Merge_head left right key v vs : right !! key = Some (v :: vs) -> exists vs', Merge left right !! key = Some (v :: vs').
Proof. intros E. rewrite Merge_lookup, E, CloneNode_spec. destruct vs; by eexists. Qed.

Lemma merge_all_keep confs result key :
  Forall (fun c : ConfigMap => c !! key = None) confs -> fold_left Merge confs result !! key = result !! key.
Proof.
  intros Hc. revert result. induction Hc as [|c confs Hc _ IH]; intros result; [done|]. cbn [fold_left].
  by rewrite IH, Merge_lookup, Hc.
Qed.

Lemma merge_all_last before c later result key v vs :
  c !! key = Some (v :: vs) -> Forall (fun c' : ConfigMap => c' !! key = None) later ->
  exists vs', fold_left Merge (before ++ c :: later) result !! key = Some (v :: vs').
Proof. intros Hc Hl. rewrite fold_left_app. cbn [fold_left]. rewrite merge_all_keep by done. by apply (Merge_head _ _ _ _ vs). Qed.

(** What a later configuration makes of the values of a key: it replaces them
    if it has several, but a single value replaces only the first. *)
Definition override (old new : option (list ConfigValue)) : option (list ConfigValue) :=
  match new with
  | None => old
  | Some [] => Some (default [VNone] old)
  | Some [v] => Some (v :: tail (default [] old))
  | Some vs => Some vs
  end.

Lemma Merge_override left right key : Merge left right !! key = override (left !! key) (right !! key).
Proof.
  rewrite Merge_lookup. destruct (right !! key) as [node|]; [|done]. rewrite CloneNode_spec. cbn [override].
  destruct node as [|v [|v' vs]]; try done. by destruct (left !! key).
Qed.

Lemma merge_all_override confs result key :
  fold_left Merge confs result !! key = fold_left override (map (lookup key) confs) (result !! key).
Proof. revert result. induction confs as [|c confs IH]; intros result; [done|]. cbn [fold_left map]. by rewrite IH, Merge_override. Qed.

(** What the arguments set. *)
Definition args_entry (key : bytes) (items : list ArgItem) : option (list ConfigValue) :=
  find_entry key (map (fun kv => (fst kv, [config_value (snd kv)])) (item_pairs items)).

(** The end of [LoadConfig], with or without files. *)
Lemma LoadConfig_items load load_args prog items confs loaded :
  map load (item_files items) = map (fun c => Some (Right c)) confs ->
  (confs <> [] \/ load default_config_path = Some (Left FileNotFound) \/ exists c, load default_config_path = Some (Right c)) ->
  load_args (concat (map item_args items)) = Some loaded ->
  LoadConfig load load_args (prog :: concat (map item_args items)) =
    Some (match loaded with Left e => Left e | Right c => Right (Merge (fold_left Merge confs empty) c) end).
Proof.
  intros Hl Hd Ha. unfold LoadConfig. cbn [tail]. rewrite (LoadConfigFiles_items load items confs) by done. rewrite Ha.
  destruct (bool_decide (confs <> [])) eqn:E; cbn [orb]; [by destruct loaded|]. apply bool_decide_eq_false in E.
  destruct Hd as [Hd|[Hd|[c Hd]]]; [by destruct E|rewrite Hd..]; by destruct loaded.
Qed.

(** A configuration file with an absolute path that comes last on the command
    line makes the start fail, though the file was loaded: its path is taken
    for a key without a value. *)
Lemma absolute_config_path_fails load fuel inc prog items (short : bool) path confs conf :
  Forall item_ok items -> map load (item_files items) = map (fun c => Some (Right c)) confs ->
  load ("/"%char :: path) = Some (Right conf) ->
  LoadConfig load (LoadFromArgs fuel inc)
    (prog :: concat (map item_args items) ++ [if short then lit "-c" else lit "--config"; "/"%char :: path]) = Some (Left InvalidArgs).
Proof.
  intros Hok Hl Hp.
  replace (concat (map item_args items) ++ [if short then lit "-c" else lit "--config"; "/"%char :: path])
    with (concat (map item_args (items ++ [AiFile short ("/"%char :: path)]))) by (rewrite map_app, concat_app; done).
  rewrite (LoadConfig_items load _ prog _ (confs ++ [conf]) (Left InvalidArgs)).
  - done.
  - unfold item_files. rewrite omap_app, !map_app. f_equal; [exact Hl|]. cbn. by rewrite Hp.
  - left. by destruct confs.
  - rewrite map_app, concat_app. unfold LoadFromArgs.
    rewrite args_text_items by done. by destruct short, path.
Qed.

(** ** What is started *)

(** No configuration sets the number of threads: a number is refused, and
    everything else that is not refused means the number of cores. *)
Lemma CreateTaskManager_threads cores conf p :
  CreateTaskManager cores conf = Some (Some p) -> num_threads_ p = cores /\ 1 <= cores /\ 0 < max_events_at_once p.
Proof.
  assert (Hrest : (if conf_int "events.max-events-at-once" 1024 conf <=? 0 then Some None
    else option_map Some (TaskManagerNew cores (conf_int "events.max-events-at-once" 1024 conf) kNumThreadsAutoDetect
      (conf_bool "task.pin-threads" true conf))) = Some (Some p) -> num_threads_ p = cores /\ 1 <= cores /\ 0 < max_events_at_once p).
  { destruct (Z.leb_spec (conf_int "events.max-events-at-once" 1024 conf) 0); [done|]. unfold TaskManagerNew.
    rewrite Z.eqb_refl. destruct (Z.leb_spec 1 cores); [|done]. by intros [= <-]. }
  unfold CreateTaskManager. destruct (Get as_str _ conf) as [e|str]; [|case_bool_decide; [exact Hrest|done]].
  destruct (Get as_size _ conf); [exact Hrest|done].
Qed.

Lemma Get_unset {A} (conv : ConfigValue -> option A) key conf :
  conf !! lit key = None -> c_str (lit key) = lit key -> Get conv (lit key) conf = Left DoesNotExist.
Proof. intros Hk Hs. unfold Get. by rewrite Hs, Hk. Qed.

Lemma CreateTaskManager_default cores conf :
  conf !! lit "events.max-events-at-once" = None -> conf !! lit "task.num-threads" = None ->
  CreateTaskManager cores conf =
    option_map Some (TaskManagerNew cores 1024 kNumThreadsAutoDetect (conf_bool "task.pin-threads" true conf)).
Proof. intros He Ht. unfold CreateTaskManager, conf_int. by rewrite !Get_unset by done. Qed.

Definition address_text (address : bytes * Z) : bytes := fst address ++ lit ":" ++ int_str (snd address).

Lemma AsArray_strings l : AsArray as_str (map VString l) = Some l.
Proof. unfold AsArray. induction l as [|x l IH]; [done|]. cbn [map as_str]. by rewrite IH. Qed.

Lemma TcpManagerCreate_addresses params addrs :
  Forall (fun x => in_s 32 (snd x)) addrs ->
  TcpManagerCreate params (map address_text addrs) = Some (map (fun x => (fst x, snd x, params)) addrs).
Proof.
  intros Ha. unfold TcpManagerCreate. assert (E : ParseAddresses (map address_text addrs) = Some addrs); [|by rewrite E].
  induction Ha as [|[ip port] addrs Hp _ IH]; [done|]. cbn [map ParseAddresses]. unfold address_text at 1. cbn [fst snd] in *.
  rewrite parse_printed_address by done. by rewrite IH.
Qed.

Lemma CreateTcpManager_addresses conf addrs :
  conf !! lit "tcp.bind" = Some (map VString (map address_text addrs)) -> Forall (fun x => in_s 32 (snd x)) addrs ->
  exists params, CreateTcpManager conf = Some (map (fun x => (fst x, snd x, params)) addrs).
Proof.
  intros Hbind Hports. unfold CreateTcpManager, GetList. change (c_str (lit "tcp.bind")) with (lit "tcp.bind"). rewrite Hbind.
  cbn [RightOrDefault]. rewrite AsArray_strings, TcpManagerCreate_addresses by done. by eexists.
Qed.

(** * Properties *)

(** C21. The order of the configuration: with any files and arguments in any
    order on the command line, the process has for every key the value the
    arguments set, else that of the last file that sets it, else none; the
    default file, which is loaded when no file is given, sets nothing.  This is
    the value [Get] finds; of a list of values a later file or the arguments
    replace all when they have several, but with a single one only the first,
    and the rest of the list stays.  The path of a file must not begin with a
    slash ([absolute_config_path_fails]). *)
Theorem configuration_precedence load fuel inc prog items confs :
  Forall item_ok items -> map load (item_files items) = map (fun c => Some (Right c)) confs ->
  (confs <> [] \/ load default_config_path = Some (Left FileNotFound) \/ exists c, load default_config_path = Some (Right c)) ->
  (length (tree_lines (map arg_leaf (item_pairs items))) + 1 < fuel)%nat ->
  exists conf, LoadConfig load (LoadFromArgs fuel inc) (prog :: concat (map item_args items)) = Some (Right conf) /\
    (forall key v, args_entry key items = Some [v] -> exists vs, conf !! key = Some (v :: vs)) /\
    (forall key, args_entry key items = None ->
      (Forall (fun c => c !! key = None) confs -> conf !! key = None) /\
      forall before c later v vs, confs = before ++ c :: later -> c !! key = Some (v :: vs) ->
        Forall (fun c' => c' !! key = None) later -> exists vs', conf !! key = Some (v :: vs')) /\
    (forall key, conf !! key = fold_left override (map (lookup key) confs ++ [args_entry key items]) None).
Proof.
  intros Hok Hl Hd Hf.
  assert (Hpairs : Forall arg_pair_ok (item_pairs items)).
  { clear - Hok. induction Hok as [|[short path|kv] items Hx _ IH]; [constructor|done|by constructor]. }
  destruct (args_buffer_loads fuel inc (item_pairs items) Hpairs Hf) as (args & Ea & Hargs).
  eexists. split; [rewrite (LoadConfig_items load _ prog items confs (Right args)); [reflexivity|done|done|]|].
  - unfold LoadFromArgs. rewrite <- (app_nil_r (concat _)), args_text_items by done. exact Ea.
  - split; [|split].
    + intros key v Hv. apply (Merge_head _ _ key v []). by rewrite Hargs.
    + intros key Hn. rewrite Merge_lookup, Hargs. fold (args_entry key items). rewrite Hn. split.
      * intros Hc. rewrite merge_all_keep by done. apply lookup_empty.
      * intros before c later v vs -> Hc Hlater. by apply (merge_all_last before c later _ key v vs).
    + intros key. rewrite Merge_override, merge_all_override, Hargs, lookup_empty, fold_left_app. done.
Qed.

(** A default file that sets the log level, and a file and two arguments. *)
Definition demo_load (path : bytes) : option (Either ConfigLoadError ConfigMap) :=
  if bool_decide (path = lit "my.conf") then
    Some (Right {[ lit "log.level" := [VString (lit "error")]; lit "task.num-threads" := [VInt 8] ]})
  else if bool_decide (path = default_config_path) then Some (Right {[ lit "log.level" := [VString (lit "verbose")] ]})
  else Some (Left FileNotFound).

Lemma configuration_precedence_witness :
  (exists conf, LoadConfig demo_load (LoadFromArgs 100 (fun _ => Left FileNotFound))
      [lit "xynqdb"; lit "/task.num-threads"; lit "4"; lit "-c"; lit "my.conf"] = Some (Right conf) /\
    (exists vs, conf !! lit "task.num-threads" = Some (VInt 4 :: vs)) /\ exists vs, conf !! lit "log.level" = Some (VString (lit "error") :: vs)) /\
  exists conf, LoadConfig demo_load (LoadFromArgs 100 (fun _ => Left FileNotFound)) [lit "xynqdb"] = Some (Right conf) /\
    conf !! lit "log.level" = None.
Proof.
  split.
  - destruct (configuration_precedence demo_load 100 (fun _ => Left FileNotFound) (lit "xynqdb")
      [AiPair (lit "task.num-threads", CfInt 4); AiFile true (lit "my.conf")]
      [{[ lit "log.level" := [VString (lit "error")]; lit "task.num-threads" := [VInt 8] ]}]) as (conf & E & H1 & H2 & _).
    + repeat constructor; try discriminate; by vm_compute.
    + reflexivity.
    + by left.
    + vm_compute. lia.
    + exists conf. split; [exact E|]. split; [apply H1; reflexivity|].
      destruct (H2 (lit "log.level") eq_refl) as [_ H3]. eapply (H3 []); [reflexivity|reflexivity|constructor].
  - destruct (configuration_precedence demo_load 100 (fun _ => Left FileNotFound) (lit "xynqdb") [] []) as (conf & E & _ & H2 & _).
    + constructor.
    + reflexivity.
    + right. right. eexists. reflexivity.
    + vm_compute. lia.
    + exists conf. split; [exact E|]. destruct (H2 (lit "log.level") eq_refl) as [H3 _]. apply H3. constructor.
Defined.

(** What messages write, one line each ([log_line]). *)
Fixpoint log_text (cap : nat) (log : Log) (times : nat -> bytes * Z) (lines : list (list BuildArg)) : bytes :=
  match lines with
  | [] => []
  | args :: lines =>
      log_line cap log LevelInfo (fst (times 0%nat)) (snd (times 0%nat)) (AStr (lit "<Main> ") :: args) ++
      log_text cap log (fun n => times (S n)) lines
  end.

Lemma LogLines_written times log lines b o :
  is_syslog_ log = false -> log_fp_ log = None -> sb_wf b -> (forall n, stamp_ok (fst (times n)) (snd (times n))) ->
  Forall (Forall arg_ok) lines ->
  exists b', LogLines times log lines b o = Some (b', MkOutput
    (if is_stdout_ log then out_stdout o ++ log_text (UseSize b) log times lines else out_stdout o)
    (open_files o) (closed_files o) (out_syslog o)).
Proof.
  intros Hs Hf Hb Ht Hl. revert times Ht b o Hb. induction Hl as [|args lines Ha _ IH]; intros times Ht b o Hb.
  { exists b. cbn. rewrite app_nil_r. by destruct (is_stdout_ log), o. }
  cbn [LogLines log_text]. assert (Hw : writable log o) by (unfold writable; by rewrite Hf).
  destruct (message_written log LevelInfo (fst (times 0%nat)) (snd (times 0%nat)) (AStr (lit "<Main> ") :: args) b o Hw)
    as (b1 & line & -> & Hline). destruct Hline as (Hb1 & Hu & ->); [done|apply Ht|by constructor|].
  rewrite Hf. destruct (IH (fun n => times (S n)) (fun n => Ht (S n)) b1 (MkOutput
    (if is_stdout_ log then out_stdout o ++ log_line (UseSize b) log LevelInfo (fst (times 0%nat)) (snd (times 0%nat))
       (AStr (lit "<Main> ") :: args) else out_stdout o) (open_files o) (closed_files o) (out_syslog o)) Hb1) as (b2 & ->).
  exists b2. cbn [out_stdout open_files closed_files out_syslog]. rewrite Hu. destruct (is_stdout_ log); [by rewrite app_assoc|done].
Qed.

(** The log on the standard output, or nowhere, without a file. *)
Definition plain_log (stdout : bool) : Log := MkLog LevelInfo None false stdout false (MkSyslog false) [].

Lemma CreateLog_plain can_open conf o :
  conf !! lit "log.level" = None -> conf !! lit "log.file" = None -> conf !! lit "log.syslog" = None ->
  CreateLog can_open conf o = Some (Right (plain_log (conf_bool "log.stdout" true conf)), o).
Proof.
  intros H1 H2 H3. unfold CreateLog, conf_str, conf_bool, Get.
  change (c_str (lit "log.syslog")) with (lit "log.syslog"). change (c_str (lit "log.file")) with (lit "log.file").
  change (c_str (lit "log.level")) with (lit "log.level"). rewrite H1, H2, H3. cbn [RightOrDefault].
  change (LogLevelFromString (lit "info")) with (Right LevelInfo : Either LogFailure LogLevel). cbv iota.
  change (lit "") with (@nil ascii). cbv iota. by destruct (RightOrDefault _ true).
Qed.

(** Of a default log only assertions can fail. *)
Lemma CreateLog_not_refused can_open conf o :
  conf !! lit "log.level" = None -> conf !! lit "log.file" = None ->
  match CreateLog can_open conf o with Some (Left _, _) => False | Some (Right _, _) | None => True end.
Proof.
  intros Hlevel Hfile. unfold CreateLog, conf_str. rewrite !Get_unset by done. cbn [RightOrDefault].
  change (LogLevelFromString (lit "info")) with (Right LevelInfo : Either LogFailure LogLevel). cbv iota.
  change (lit "") with (@nil ascii). cbv iota. unfold LogCreate. destruct (LogNew _ _); [|done]. cbn. by destruct (LogDestroy _ _).
Qed.

(** A configuration that asks for the system log: the first message fails. *)
Lemma CreateLog_system can_open conf o vs result o' times lines b :
  conf !! lit "log.syslog" = Some (VBool true :: vs) -> CreateLog can_open conf o = Some (Right result, o') ->
  lines <> [] -> LogLines times (fst (LogMove result)) lines b o' = None.
Proof.
  intros H1 E Hl. destruct lines as [|args lines]; [done|]. cbn [LogLines]. unfold CreateLog in E.
  destruct (LogLevelFromString _) as [e|level]; [done|].
  assert (Hb : conf_bool "log.syslog" false conf = true).
  { unfold conf_bool, Get. change (c_str (lit "log.syslog")) with (lit "log.syslog"). by rewrite H1. }
  rewrite Hb in E. cbn iota in E.
  assert (Hf : flag_bit (Z.lor (if conf_bool "log.stdout" true conf then StdOut else 0) SysLog) SysLog = true)
    by (by destruct (conf_bool "log.stdout" true conf)).
  pose proof (system_log_never_works can_open _ _ _ _ _ _ Hf E []) as Hall.
  destruct (Forall_lookup_1 _ _ 2 _ Hall eq_refl) as (_ & Hm & _). by rewrite Hm.
Qed.

(** C22. The start follows the configuration: with addresses [ip:port] in
    [tcp.bind] and file names in [exec], and the rest unset, the process writes
    to the standard output, unless [log.stdout] is off, the first message and
    one line for every key, in order, with the text of its values; and it
    starts one thread per core (an assertion fails where the system says there
    is none), a
    listener for every address, in order, and behind them the task that
    executes the files, on a database in its initial state; with a number of
    threads in the configuration it does not start; where a value of the
    configuration is empty, logging it fails an assertion; and so does the
    first message if the configuration asks for the system log. *)
Theorem startup_follows_configuration log10 pow load load_args can_open times banner b cores allocator heap m argv conf :
  LoadConfig load load_args argv = Some (Right conf) -> (forall n, allocator n <> schema_addr T_FrameBarrier) ->
  conf !! lit "log.level" = None -> conf !! lit "log.file" = None -> conf !! lit "events.max-events-at-once" = None ->
  sb_wf b -> (forall n, stamp_ok (fst (times n)) (snd (times n))) -> Forall arg_ok banner ->
  let start := XYEntrypoint log10 pow load load_args can_open times banner b cores allocator heap m argv in
  (conf !! lit "log.syslog" = None -> (forall key vs, conf !! key = Some vs -> Forall printable vs) ->
   (conf !! lit "task.num-threads" = None -> forall addrs files,
     conf !! lit "tcp.bind" = Some (map VString (map address_text addrs)) -> Forall (fun x => in_s 32 (snd x)) addrs ->
     conf !! lit "exec" = Some (map VString files) ->
     if cores <? 1 then start = None
     else exists s params listing, start = Some (Some s) /\
       startup_log s = plain_log (conf_bool "log.stdout" true conf) /\
       map fst listing = sorted_keys conf /\
       (forall key text, (key, text) ∈ listing -> exists vs, conf !! key = Some vs /\ (length text <= 255)%nat /\
         ((node_room vs <= 255)%nat -> text = node_text log10 pow vs)) /\
       startup_output s = MkOutput
         (if conf_bool "log.stdout" true conf then log_text (UseSize b) (startup_log s) times (banner :: map config_line listing) else [])
         empty [] [] /\
       num_threads_ (startup_manager s) = cores /\
       startup_entrypoints s = map (fun x => EpListen (fst x) (snd x) params) addrs ++ [EpExecuteFiles files] /\
       world_ok (startup_world s)) /\
   (forall n vs, conf !! lit "task.num-threads" = Some (VInt n :: vs) -> start = Some None)) /\
  (forall key vs, conf !! key = Some vs -> VNone ∈ vs -> start = None) /\
  (forall vs, conf !! lit "log.syslog" = Some (VBool true :: vs) -> start = None).
Proof.
  intros Hc Ha Hlevel Hfile Hevents Hb Htimes Hbanner start. subst start. unfold XYEntrypoint. rewrite Hc.
  destruct (Enumerate_spec log10 pow conf) as [Hlist Hnone].
  pose proof (CreateLog_not_refused can_open conf (MkOutput [] empty [] []) Hlevel Hfile) as Hlog.
  split; [|split].
  - intros Hsys Hprint. rewrite (CreateLog_plain can_open conf (MkOutput [] empty [] []) Hlevel Hfile Hsys).
    destruct (Hlist Hprint) as (listing & -> & Hkeys & Htexts). set (log := plain_log _). change (LogMove log) with (log, log).
    cbn [mbind option_bind].
    destruct (LogLines_written times log (banner :: map config_line listing) b (MkOutput [] empty [] [])) as (b' & ->);
      [done..|constructor; [done|]; apply Forall_map, Forall_forall; intros x _; by repeat constructor|]. split.
    + intros Hthreads addrs files Hbind Hports Hexec.
      destruct (CreateTaskManager cores conf) as [[p|]|] eqn:Hp; rewrite CreateTaskManager_default in Hp by done;
        unfold TaskManagerNew in Hp; rewrite Z.eqb_refl in Hp;
        destruct (Z.leb_spec 1 cores), (Z.ltb_spec cores 1); try done; try lia. injection Hp as <-.
      destruct (CreateTcpManager_addresses conf addrs Hbind Hports) as [params ->]. unfold ScheduleConfigExecs, GetList. change (c_str (lit "exec")) with (lit "exec"). rewrite Hexec.
      rewrite AsArray_strings. cbn [option_map]. eexists _, params, listing. split; [reflexivity|]. split; [done|].
      split; [exact Hkeys|]. split; [exact Htexts|]. split; [done|]. split; [done|].
      cbn [startup_entrypoints startup_world]. rewrite map_map. split; [done|]. by apply InitialWorld_ok.
    + intros n vs Hn. unfold CreateTaskManager, Get. change (c_str (lit "task.num-threads")) with (lit "task.num-threads").
      by rewrite Hn.
  - intros key vs Hk Hin. destruct (CreateLog _ _ _) as [[[e|log] o]|]; [done| |done]. by rewrite (Hnone key vs).
  - intros vs Hsys. destruct (CreateLog _ _ _) as [[[e|log] o]|] eqn:E; [done| |done]. destruct (LogMove log) as [log' rest] eqn:Em.
    destruct (ConfigList.Enumerate log10 pow conf) as [listing|]; [|done]. cbn [mbind option_bind].
    replace log' with (fst (LogMove log)) by by rewrite Em.
    by rewrite (CreateLog_system can_open conf (MkOutput [] empty [] []) vs log o) by done.
Qed.

Definition startup_conf : ConfigMap :=
  {[ lit "tcp.bind" := [VString (lit "127.0.0.1:9920"); VString (lit "::1:80")]; lit "exec" := [VString (lit "schema.slang")] ]}.

Lemma startup_follows_configuration_witness :
  exists s params, XYEntrypoint (fun x => x) (fun _ x => x) (fun _ => Some (Right startup_conf)) (fun _ => Some (Right empty))
      (fun _ => true) (fun _ => (lit "2020-01-01", 5)) [AStr (lit "Begin logging")] (StrBuilderNew 1024) 4 demo_alloc demo_heap (fun _ => 0) [lit "xynqdb"; lit "-c"; lit "my.conf"] = Some (Some s) /\
    (exists exec bind, startup_output s = MkOutput (log_text 1023 (plain_log true) (fun _ => (lit "2020-01-01", 5))
      [[AStr (lit "Begin logging")]; config_line (lit "exec", exec); config_line (lit "tcp.bind", bind)]) empty [] []) /\
    startup_entrypoints s =
      [EpListen (lit "127.0.0.1") 9920 params; EpListen (lit "::1") 80 params; EpExecuteFiles [lit "schema.slang"]].
Proof.
  destruct (startup_follows_configuration (fun x => x) (fun _ x => x) (fun _ => Some (Right startup_conf))
    (fun _ => Some (Right empty)) (fun _ => true) (fun _ => (lit "2020-01-01", 5)) [AStr (lit "Begin logging")] (StrBuilderNew 1024) 4
    demo_alloc demo_heap (fun _ => 0) [lit "xynqdb"; lit "-c"; lit "my.conf"] startup_conf) as [H _].
  - vm_compute. reflexivity.
  - exact demo_alloc_ok.
  - vm_compute. reflexivity.
  - vm_compute. reflexivity.
  - vm_compute. reflexivity.
  - apply sb_new_wf. lia.
  - intros n. split; [cbn; lia|done].
  - by repeat constructor.
  - destruct H as [H _].
    + vm_compute. reflexivity.
    + unfold startup_conf. intros key vs [[_ <-]|[_ Hk]]%lookup_insert_Some; [by repeat constructor|].
      apply lookup_singleton_Some in Hk as [_ <-]. by repeat constructor.
    + destruct (H eq_refl [(lit "127.0.0.1", 9920); (lit "::1", 80)] [lit "schema.slang"]) as (s & params & listing & E & Hlog & Hk & _ & Ho & _ & Hs & _).
      * vm_compute. reflexivity.
      * repeat constructor; cbn; lia.
      * vm_compute. reflexivity.
      * exists s, params. split; [exact E|]. split; [|exact Hs]. rewrite Ho, Hlog. clear - Hk.
        replace (sorted_keys startup_conf) with [lit "exec"; lit "tcp.bind"] in Hk by (vm_compute; reflexivity).
        destruct listing as [|[k1 exec] [|[k2 bind] [|]]]; try discriminate. injection Hk as -> ->. by exists exec, bind.
Defined.

(** A word behind a value, without quotes, loads as an empty value and the
    word: logging the configuration then fails an assertion. *)
Lemma unquoted_word_fails_the_start log10 pow : exists conf,
  LoadFromStream 100 (lit "f") (fun _ => Left FileNotFound)
    (ReaderNew (lit "0123456789012345") ([lit "(exec 1 foo)"] : ChunkStream)) = Some (Right conf) /\
  ConfigList.Enumerate log10 pow conf = None.
Proof.
  eexists. split; [vm_compute; reflexivity|]. apply (Enumerate_spec log10 pow) with (key := lit "exec") (vs := [VInt 1; VNone; VString (lit "foo")]).
  - vm_compute. reflexivity.
  - right. left.
Qed.
